(* ===== verification/_CoqProject ===== *)
-Q . S2P
Prelude.v
Bits.v
Hex.v
Base32z.v
Base64.v
BtValue.v
BtSerialize.v
BtCodec.v
BtVariant.v
BtTypes.v
BtConvert.v
BtConsumer.v
BtNested.v
Address.v
Commands.v
Connections.v
Helpers.v
Control.v
Auth.v
Net.v
NetInv.v
Sockets.v
RequestSpec.v
Batch.v
Admission.v
Scheduler.v
Dispatch.v
BatchOwner.v
SchedulerInv.v
Frame.v
Proxy.v
Timers.v
Loop.v
Handover.v
LoopInv.v
Worker.v
WorkerInv.v
System.v
Jobs.v
Progress.v
Shutdown.v
Lifecycle.v
Startup.v
