(* ===== verification/Prelude.v ===== *)
(** * A verification of ArqmaMQ (src/arqmamq)

    ArqmaMQ is a message queue library over zmq.  Clients register categories and
    commands, open and accept connections, send messages and requests, submit batches of
    jobs and timers; one proxy thread owns all shared state and hands work to worker
    threads.  Clients reach the proxy through bt-encoded control messages, some of which
    carry the address of a heap object whose ownership moves with the message; the proxy
    and the workers exchange short messages ([RUN], [RAN], [QUIT], [QUITTING]).  What
    crosses the wire is bt-encoded too; addresses and keys are written in hex, base32z
    or base64.

    ** Conventions

    Strings and views are byte lists ([bytes]); machine integers are [Z] with the
    conversions of their type ([it_cast], [it_range] of BtValue.v) or an explicit
    [mod 2 ^ 64] where the code wraps.  [outcome] has the four ways a call can end: a
    value, a C++ exception (its class; message texts are not modelled), [UB] for
    undefined behaviour or a failed [assert], and [Diverge] for a loop that has not ended
    within the model's fuel.  Code that reads from a view is a [parser], a
    state-exception monad over the remaining bytes, so what was consumed before an
    exception stays consumed.  User callbacks are opaque numbers; sockets are known by an
    identity and their type; what zmq answers (whether a send succeeds, the ids of timers
    and of new sockets, the time) is an argument of the operations that ask.

    ** Files

    Data and encodings:
    - Prelude.v: bytes, outcomes, the monads, notations, lemmas on bytes and lists.
    - Bits.v: regrouping bits, shared by the two base encodings.
    - Hex.v (hex.h), Base32z.v (base32z.h), Base64.v (base64.h): the tables as the
      constructors build them, the bit-buffer loops of encoder and decoder, the validity
      tests; decoding inverts encoding, tables are indexed in range, output sizes.
    - BtValue.v (bt_value.h): the recursive variant, integral types, sorted dicts.
    - BtSerialize.v (bt_serialize.h, bt_serialize.cpp): the serializer and deserializer
      templates.  A dict is a sequence in iteration order before encoding and sorted
      after.  BtCodec.v has their theorems, organised by the class [BtCodecOk] (a lawful
      element codec): round trips, termination, well-formedness, integer ranges.
    - BtVariant.v (bt_serialize.h, variant.h): [std::variant], whose alternatives are
      told apart by the next byte, and the replacements for [std::get] and [std::visit].
    - BtTypes.v (bt_serialize.h): the type traits; which template a C++ type built from
      the standard containers gets, and that every such type round trips.
    - BtConvert.v (bt_value.h): the converting constructors of [bt_value] and string
      literals; converting a value keeps its encoding.
    - BtConsumer.v: [get_int], [get_tuple], [bt_list_consumer] and [bt_dict_consumer]
      (view plus cached key); skipping agrees with decoding, [skip_until] is a search,
      every loop ends.  BtNested.v: consumers of inner containers; walking a value with
      the consumers alone gives what decoding gives.
    - Address.v (address.h, address.cpp): parsing and printing of addresses, the QR form;
      round trips, well-formedness, totality.

    Tables and access:
    - Commands.v (arqmamq.cpp, auth.h): categories, commands, aliases, thread counts,
      auth levels; lookup finds what was registered.
    - Connections.v (connections.h, connections.cpp, auth.cpp): [ConnectionID], the
      proxy's connection tables and their renumbering, active service nodes.  The
      record [conns_ok] is the invariant; [peer_view] is what a reader sees of a table
      independently of the numbering.
    - Helpers.v (byte_type.h, auth.h, connections.cpp, arqmamq.h): the byte type of an
      iterator, the hash of a key, printing, and the chained registration of commands.
    - Auth.v (auth.cpp, arqmamq.cpp): the access check, ZAP, connection metadata.

    Traffic:
    - Control.v (arqmamq.h, arqmamq-internal.h, message.h, connections.cpp): the client
      side of [send], [request], [connect_remote], [connect_sn], [disconnect] and
      timers, the control messages they build and the proxy's unpacking of them;
      [Message] and [DeferredSend].  Unpacking gives back what the call was given.
    - Net.v (proxy.cpp, connections.cpp): [proxy_send], [proxy_reply], requests, the
      built-in commands and the periodic cleanup, on the connection tables.  NetInv.v
      shows that they keep [conns_ok], that every send is accounted for and that the
      cleanup is exact.
    - RequestSpec.v: the abstract request service (a tag is issued, then answered once or
      outstanding) and the refinement of it by the handlers of Net.v.

    - Sockets.v (arqmamq.h, arqmamq.cpp, arqmamq-internal.h, connections.cpp, proxy.cpp):
      socket options, the frames of a message, the files of unix sockets, the log; a
      connection is judged by the listener it came in on.

    Scheduling:
    - Batch.v (batch.h): batches of jobs and their results.
    - Admission.v: the slot policy on its own (kinds of work with reservations and a pool
      of general slots) and the bounds it gives.
    - Scheduler.v (worker.cpp, jobs.cpp, proxy.cpp, arqmamq.cpp): the proxy's dispatch:
      [run_info] loading, [get_idle_worker], [proxy_to_worker], [proxy_inject_task],
      [proxy_batch], [proxy_process_queue], [proxy_worker_message], startup and [QUIT].
      Batches live in an explicit heap, so a read of a deleted one is [UB].  What is sent
      to workers is recorded in [events].
    - BatchOwner.v: ownership of batches by the tasks queued or running.
      SchedulerInv.v: the scheduler's invariant (accounting and ownership) and its
      preservation by every handler.  Frame.v: what a handler does to the workers, the
      heap and the jobs (which are started, which batches die, where tasks go), as
      relations its clients use.
    - Proxy.v: the scheduler's inputs as a transition system ([handle], [enabled],
      [reach]) and what holds in every reachable state.
    - Timers.v (jobs.cpp): timers on top of the scheduler; squelched timers.

    The whole:
    - Loop.v (proxy.cpp, auth.cpp, worker.cpp, jobs.cpp): the proxy with all its state,
      the calls of its clients, [proxy_control_message], the round over the sockets and
      the proxy's loop.  The class [Allocator] states what is used of [new]: an address
      that is not in use.  LoopInv.v: its invariant; nothing the loop can meet fails,
      objects in flight have one owner, calls reach their handlers unchanged, the round
      over the sockets is fair.
    - Worker.v (worker.cpp): a worker thread as a state machine with its inbox, and
      proxy, timers and threads as one system.  WorkerInv.v: the system never fails, a
      worker that is busy in the proxy's books has exactly one [RUN], piece of work or
      [RAN] of its own, and no wakeup is lost.
    - System.v: the loop of Loop.v and the threads of Worker.v as one system; what each
      assumes of the other holds, and no step of it fails.  Jobs.v: in that system every
      job of a batch is run exactly once, before its completion and before the batch
      goes.  Progress.v: a measure of the work left falls with every step the program
      takes by itself, and under a fair schedule every batch completes.
    - Shutdown.v: proxy and threads after [QUIT]; they always come to their end.
    - Lifecycle.v (arqmamq.cpp): construction, [start], the per-thread map of control
      sockets and destruction, for any number of objects and threads.
    - Startup.v (arqmamq.cpp, proxy.cpp): the calls before [start()] in any order and
      what the proxy thread does before its loop; it ends in an initial state of
      System.v, or throws for a reason from outside.

    ** Fuel

    [bt_deserialize_value] and [skip_value] recurse on nesting depth with fuel one more
    than the view's length, their loops with fuel bounded by the bytes left: every
    iteration consumes at least one byte, and the theorems show that [Diverge] is never
    the outcome.  [run_batch_jobs] has one unit per queued job and one more,
    [expire_idle] and [drop_peers] one per peer and one more, [receive_loop] one per
    socket and waiting message and one more: an iteration that takes no message drops a
    socket from the queue.  The loop of [proxy_send] over the peers of a service node
    has one unit per peer and one more; there [Diverge] is a possible outcome, since the
    source's loop does not advance ([NetInv.incoming_send_hangs]), and the theorems say
    when it is excluded.  The templates of BtTypes.v recurse on the size of a type;
    [BtTypes.fuel_enough] shows that more does not change them.  [BtNested.walk] has a
    unit per byte of the encoding, and [BtNested.consumers_walk] shows that is enough.

    ** Not modelled

    zmq itself: its sockets, when a poll returns, its timers' clock, its context options.
    Thread names beyond the name; the texts of log messages and exceptions; the version
    file, which the build fills in.  The helpers that wrap a string in a zmq message and
    back are the identity on [bytes].  What remains of the headers is declarations, type
    aliases, includes and comments.  BtTypes.v has no [std::set] and no nested
    [std::variant].  Shutdown.v has no new work after [QUIT]: the source takes some and
    then breaks ([Proxy.quit_overflows_workers]).  Progress.v is about the time when
    nothing more comes from outside; of clients that never stop it says nothing. *)
From Stdlib Require Export ZArith Lia ZifyBool Bool.
From Stdlib Require Strings.Byte.
From stdpp Require Export base option list list_numbers sorting strings countable gmap.

(** ** Bytes

    The source's strings ([std::string], [std::string_view], [zmq::message_t])
    are byte sequences; [byte] is the Standard Library's 256-constructor type. *)
Abbreviation byte := Corelib.Init.Byte.byte.
Abbreviation bytes := (list Corelib.Init.Byte.byte).

(** Character literals: ["a"%byte] is C's ['a']. *)
Export Corelib.Init.Byte.ByteSyntaxNotations.
Delimit Scope byte_scope with byte.

(** A string literal as a byte sequence. *)
Definition B (s : string) : bytes := String.list_byte_of_string s.

(** [static_cast<unsigned char>(b)] as an integer. *)
Definition b2z (b : byte) : Z := Z.of_N (Byte.to_N b).

(** [static_cast<unsigned char>(z)]: the conversion reduces modulo 256. *)
Definition z2b (z : Z) : byte :=
  match Byte.of_N (Z.to_N (z mod 256)%Z) with
  | Some b => b
  | None => Byte.x00
  end.

Definition byte_eqb (a b : byte) : bool := Byte.eqb a b.

#[export] Instance byte_eq_dec : EqDecision byte := Byte.byte_eq_dec.

#[export] Instance byte_countable : Countable byte :=
  inj_countable Byte.to_N Byte.of_N Byte.of_to_N.

(** ** Outcomes and the state-exception monad

    [Throw e] is a C++ exception, [UB] undefined behaviour (a read past the end
    of a buffer, a signed overflow), [Diverge] a loop that has not ended within
    the model's fuel.  Exceptions carry their class only: message texts are not
    modelled. *)
Inductive exn : Type :=
  | invalid_argument
  | out_of_range
  | logic_error
  | runtime_error
  | overflow_error
  | bad_variant_access
  | bt_deserialize_invalid
  | bt_deserialize_invalid_type
  | zmq_error_t.

#[export] Instance exn_eq_dec : EqDecision exn.
Proof. solve_decision. Defined.

Inductive outcome (A : Type) : Type :=
  | Ok (a : A)
  | Throw (e : exn)
  | UB
  | Diverge.
Arguments Ok {A} a.
Arguments Throw {A} e.
Arguments UB {A}.
Arguments Diverge {A}.

#[export] Instance outcome_ret : MRet outcome := λ _ a, Ok a.
#[export] Instance outcome_bind : MBind outcome := λ _ _ f m,
  match m with
  | Ok a => f a
  | Throw e => Throw e
  | UB => UB
  | Diverge => Diverge
  end.

(** A computation that updates a state and may throw.  As in C++, what was
    written before the exception stays written, so the state is returned on
    every outcome. *)
Definition M (S A : Type) : Type := S → outcome A * S.

#[export] Instance M_ret S : MRet (M S) := λ _ a s, (Ok a, s).
#[export] Instance M_bind S : MBind (M S) := λ _ _ f m s,
  match m s with
  | (Ok a, s') => f a s'
  | (Throw e, s') => (Throw e, s')
  | (UB, s') => (UB, s')
  | (Diverge, s') => (Diverge, s')
  end.

Definition getS {S} : M S S := λ s, (Ok s, s).
Definition putS {S} (s' : S) : M S unit := λ _, (Ok tt, s').
Definition throwM {S A} (e : exn) : M S A := λ s, (Throw e, s).
Definition ubM {S A} : M S A := λ s, (UB, s).
Definition liftM {S A} (o : outcome A) : M S A := λ s, (o, s).

Lemma bind_Ok {S A C} (m : M S A) (f : A → M S C) s a s' :
  m s = (Ok a, s') → (m ≫= f) s = f a s'.
Proof. intros H. unfold mbind, M_bind. by rewrite H. Qed.

Lemma bind_Ok_inv {S A C} (m : M S A) (f : A → M S C) s c s' :
  (m ≫= f) s = (Ok c, s') → ∃ a s1, m s = (Ok a, s1) ∧ f a s1 = (Ok c, s').
Proof.
  unfold mbind, M_bind. destruct (m s) as [[a|e| |] s1]; try discriminate. eauto.
Qed.

Lemma outcome_bind_Ok_inv {A C} (m : outcome A) (f : A → outcome C) c :
  m ≫= f = Ok c → ∃ a, m = Ok a ∧ f a = Ok c.
Proof. destruct m; simpl; try discriminate. eauto. Qed.

(** Splits every [_ ≫= _ = Ok _] hypothesis into its two steps. *)
Ltac inv_bind :=
  repeat match goal with
  | H : (_ ≫= _) _ = (Ok _, _) |- _ =>
      let a := fresh "a" in let s := fresh "s" in let H1 := fresh H in
      apply bind_Ok_inv in H as (a & s & H1 & H)
  | H : _ ≫= _ = Ok _ |- _ =>
      let a := fresh "a" in let H1 := fresh H in
      apply outcome_bind_Ok_inv in H as (a & H1 & H)
  end.

(** ** Facts about bytes *)
Open Scope Z_scope.

Lemma z2b_b2z b : z2b (b2z b) = b.
Proof. by destruct b. Qed.

Lemma b2z_range b : 0 <= b2z b < 256.
Proof. by destruct b. Qed.

Lemma b2z_z2b z : b2z (z2b z) = z mod 256.
Proof.
  unfold z2b, b2z. pose proof (Z.mod_pos_bound z 256 eq_refl) as Hz.
  destruct (Byte.of_N (Z.to_N (z mod 256))) as [b|] eqn:E.
  - apply Byte.to_of_N in E. rewrite E. lia.
  - apply Byte.of_N_None_iff in E. lia.
Qed.

Lemma b2z_z2b_small z : 0 <= z < 256 → b2z (z2b z) = z.
Proof. intros. by rewrite b2z_z2b, Z.mod_small. Qed.

#[export] Instance b2z_inj : Inj (=) (=) b2z.
Proof. intros a b H. by rewrite <-(z2b_b2z a), H, z2b_b2z. Qed.

(** A boolean property of every byte is decided by evaluating it 256 times. *)
Definition all_bytes : bytes := z2b <$> seqZ 0 256.

Lemma elem_of_all_bytes b : b ∈ all_bytes.
Proof.
  unfold all_bytes. apply list_elem_of_fmap. exists (b2z b). rewrite z2b_b2z.
  split; [done|]. apply elem_of_seqZ. pose proof (b2z_range b). lia.
Qed.

Lemma byte_forall (P : byte → bool) :
  forallb P all_bytes = true → ∀ b, P b = true.
Proof.
  intros H b. rewrite forallb_forall in H. apply H.
  apply list_elem_of_In, elem_of_all_bytes.
Qed.

Lemma byte_forall_in (P Q : byte → bool) :
  forallb Q (List.filter P all_bytes) = true → ∀ b, P b = true → Q b = true.
Proof.
  intros H b Hb. rewrite forallb_forall in H. apply H, filter_In.
  split; [apply list_elem_of_In, elem_of_all_bytes|done].
Qed.

(** Decides a closed boolean statement about all bytes. *)
Ltac by_bytes b :=
  revert b; apply byte_forall; vm_compute; reflexivity.

(** ** Character classes and case conversion used by several components *)
Definition is_digit (c : byte) : bool := (b2z "0"%byte <=? b2z c) && (b2z c <=? b2z "9"%byte).
Definition is_upper (c : byte) : bool := (b2z "A"%byte <=? b2z c) && (b2z c <=? b2z "Z"%byte).
Definition is_lower (c : byte) : bool := (b2z "a"%byte <=? b2z c) && (b2z c <=? b2z "z"%byte).

(** [if (c >= 'A' && c <= 'Z') c = c - 'A' + 'a'] and its converse. *)
Definition to_lower (c : byte) : byte := if is_upper c then z2b (b2z c - b2z "A"%byte + b2z "a"%byte) else c.
Definition to_upper (c : byte) : byte := if is_lower c then z2b (b2z c - b2z "a"%byte + b2z "A"%byte) else c.

(** [std::string::operator<] compares as [unsigned char], lexicographically. *)
Fixpoint bytes_ltb (a b : bytes) : bool :=
  match a, b with
  | _, [] => false
  | [], _ :: _ => true
  | x :: a', y :: b' =>
      if b2z x <? b2z y then true
      else if b2z y <? b2z x then false else bytes_ltb a' b'
  end.

Definition bytes_eqb (a b : bytes) : bool := bool_decide (a = b).

Lemma bytes_eqb_eq a b : bytes_eqb a b = true ↔ a = b.
Proof. apply bool_decide_eq_true. Qed.

Lemma bytes_eqb_refl a : bytes_eqb a a = true.
Proof. by apply bytes_eqb_eq. Qed.

Lemma bytes_ltb_irrefl a : bytes_ltb a a = false.
Proof. induction a as [|x a IH]; simpl; [done|]. by rewrite Z.ltb_irrefl. Qed.

Lemma bytes_ltb_trans a b c :
  bytes_ltb a b = true → bytes_ltb b c = true → bytes_ltb a c = true.
Proof.
  revert b c. induction a as [|x a IH]; intros [|y b] [|z c]; simpl; try done.
  repeat (case_match; try done); intros; try lia; eauto.
Qed.

Lemma bytes_ltb_total a b :
  bytes_ltb a b = false → bytes_ltb b a = false → a = b.
Proof.
  revert b. induction a as [|x a IH]; intros [|y b]; simpl; try done.
  repeat case_match; try done; intros; try lia.
  f_equal; [apply (inj b2z); lia | auto].
Qed.

(** [std::string] ordered by [<=], for sorting. *)
Definition bytes_le (a b : bytes) : Prop := bytes_ltb b a = false.

#[export] Instance bytes_le_dec a b : Decision (bytes_le a b).
Proof. unfold bytes_le. apply _. Defined.

#[export] Instance bytes_le_total : Total bytes_le.
Proof.
  intros a b. unfold bytes_le. destruct (bytes_ltb b a) eqn:E; [right|by left].
  destruct (bytes_ltb a b) eqn:E2; [|done].
  pose proof (bytes_ltb_trans _ _ _ E E2) as H. by rewrite bytes_ltb_irrefl in H.
Qed.

#[export] Instance bytes_le_trans : Transitive bytes_le.
Proof.
  intros a b c. unfold bytes_le. intros H1 H2.
  destruct (bytes_ltb c a) eqn:E; [|done].
  destruct (bytes_ltb a b) eqn:E1.
  - by rewrite (bytes_ltb_trans _ _ _ E E1) in H2.
  - by rewrite (bytes_ltb_total _ _ E1 H1), H2 in E.
Qed.

#[export] Instance bytes_le_antisymm : AntiSymm (=) bytes_le.
Proof. intros a b H1 H2. by apply bytes_ltb_total. Qed.

Lemma bytes_ltb_le a b : bytes_ltb a b = true → bytes_le a b.
Proof.
  intros H. unfold bytes_le. destruct (bytes_ltb b a) eqn:E; [|done].
  pose proof (bytes_ltb_trans _ _ _ H E) as C. by rewrite bytes_ltb_irrefl in C.
Qed.

(** ** [std::string_view] operations *)

(** [find_first_not_of(set, from)], as an index from the start of [s]. *)
Fixpoint find_first (p : byte → bool) (s : bytes) : option nat :=
  match s with
  | [] => None
  | c :: s' => if p c then Some 0%nat else S <$> find_first p s'
  end.

(** [starts_with]: the comparison step of [find(needle)]. *)
Fixpoint is_prefix (p s : bytes) : bool :=
  match p, s with
  | [], _ => true
  | x :: p', y :: s' => bool_decide (x = y) && is_prefix p' s'
  | _ :: _, [] => false
  end.

(** [find(needle)]: the first position at which [needle] occurs. *)
Fixpoint find_sub (needle s : bytes) : option nat :=
  if is_prefix needle s then Some 0%nat
  else match s with
       | [] => None
       | _ :: s' => S <$> find_sub needle s'
       end.

Lemma find_first_Some p s i :
  find_first p s = Some i →
  Forall (λ c, p c = false) (take i s) ∧ ∃ c, s !! i = Some c ∧ p c = true.
Proof.
  revert i. induction s as [|c s IH]; intros i; simpl; [done|].
  destruct (p c) eqn:E; [intros [= <-]; simpl; eauto|].
  destruct (find_first p s) as [j|] eqn:Ej; simpl; [|done].
  intros [= <-]. simpl. destruct (IH j eq_refl). auto.
Qed.

Lemma find_first_None p s : find_first p s = None ↔ Forall (λ c, p c = false) s.
Proof.
  induction s as [|c s IH]; simpl; [done|]. rewrite Forall_cons, <-IH.
  destruct (p c); [naive_solver|]. destruct (find_first p s); simpl; naive_solver.
Qed.

Lemma find_first_app p s c t :
  Forall (λ c, p c = false) s → p c = true →
  find_first p (s ++ c :: t) = Some (length s).
Proof.
  intros Hs Hc. induction Hs as [|x s Hx Hs IH]; simpl; [by rewrite Hc|].
  by rewrite Hx, IH.
Qed.

(** ** Sums along a list and along a map *)
Definition ranks {A} (f : A → nat) (l : list A) : nat := foldr (λ x n, (f x + n)%nat) 0%nat l.
Definition map_ranks {K A} `{Countable K} (f : A → nat) (m : gmap K A) : nat := map_fold (λ _ x n, (f x + n)%nat) 0%nat m.

Lemma ranks_app {A} (f : A → nat) l l' : ranks f (l ++ l') = (ranks f l + ranks f l')%nat.
Proof. unfold ranks. induction l as [|x l IH]; cbn; [done|]. rewrite IH. lia. Qed.

Lemma ranks_ge {A} (f : A → nat) m l : m ∈ l → (f m <= ranks f l)%nat.
Proof. intros Hm. apply list_elem_of_split in Hm as (l1 & l2 & ->). rewrite ranks_app. unfold ranks at 2. cbn. lia. Qed.

#[export] Instance ranks_Permutation {A} (f : A → nat) : Proper ((≡ₚ) ==> (=)) (ranks f).
Proof. induction 1; unfold ranks in *; cbn; lia. Qed.

Lemma ranks_insert {A} (f : A → nat) l i x y : l !! i = Some x → (ranks f (<[i := y]> l) + f x = ranks f l + f y)%nat.
Proof.
  intros Hi. rewrite insert_take_drop by (by eapply lookup_lt_Some). rewrite <-(take_drop_middle l i x Hi) at 3.
  rewrite !ranks_app. unfold ranks at 2 4. cbn. lia.
Qed.

Section map_ranks.
Context {K A : Type} `{Countable K} (f : A → nat).
Implicit Types (m : gmap K A).

Lemma map_ranks_new k x m : m !! k = None → map_ranks f (<[k := x]> m) = (f x + map_ranks f m)%nat.
Proof. intros Hm. unfold map_ranks. rewrite map_fold_insert_L; [done| |done]. intros. lia. Qed.

Lemma map_ranks_insert k x x' m :
  m !! k = Some x → (map_ranks f (<[k := x']> m) + f x = map_ranks f m + f x')%nat.
Proof.
  intros Hx. rewrite <-(insert_delete_id _ _ _ Hx) at 2. rewrite <-(insert_delete_eq m k x').
  rewrite !map_ranks_new by apply lookup_delete_eq. lia.
Qed.

Lemma map_ranks_ge k x m : m !! k = Some x → (f x <= map_ranks f m)%nat.
Proof. intros Hx. pose proof (map_ranks_insert k x x m Hx). rewrite <-(insert_delete_id _ _ _ Hx), map_ranks_new by apply lookup_delete_eq. lia. Qed.

Lemma map_ranks_zero m : (∀ k x, m !! k = Some x → f x = 0%nat) → map_ranks f m = 0%nat.
Proof.
  induction m as [|k x m Hx IH] using map_ind; intros Hz; [done|]. rewrite map_ranks_new by done.
  rewrite (Hz k x) by apply lookup_insert_eq. cbn. apply IH. intros r z Hr. apply (Hz r), lookup_insert_Some. right. split; [|done]. congruence.
Qed.
End map_ranks.
