(* ===== verification/Bits.v ===== *)
(** Bit strings, most significant bit first: the reference against which the
    base32z and base64 codecs are verified, and the arithmetic of regrouping a
    stream of 8-bit bytes into 5- or 6-bit digits and back. *)
From S2P Require Import Prelude.
Open Scope Z_scope.

(** The low [w] bits of [z], most significant first. *)
Fixpoint to_bits (w : nat) (z : Z) : list bool :=
  match w with
  | O => []
  | S w' => Z.testbit z (Z.of_nat w') :: to_bits w' z
  end.

(** The concatenated [w]-bit groups of a list of digits. *)
Definition bits_of (w : nat) (ds : list Z) : list bool := concat (to_bits w <$> ds).

(** The bits of a byte string. *)
Definition byte_bits (s : bytes) : list bool := bits_of 8 (b2z <$> s).

(** [(1 << bits) - 1], the mask that keeps the unconsumed bits. *)
Definition low_mask (bits : Z) : Z := Z.shiftl 1 bits - 1.

(** [uint_fast16_t] arithmetic, at the 16 bits the type is guaranteed to have. *)
Definition fast16 (z : Z) : Z := z mod 2 ^ 16.

Lemma length_to_bits w z : length (to_bits w z) = w.
Proof. induction w; simpl; congruence. Qed.

Lemma to_bits_ext w a b :
  (∀ i, 0 <= i < Z.of_nat w → Z.testbit a i = Z.testbit b i) →
  to_bits w a = to_bits w b.
Proof.
  induction w as [|w IH]; intros H; [done|]. cbn [to_bits]. f_equal.
  - apply H. lia.
  - apply IH. intros. apply H. lia.
Qed.

Lemma to_bits_inj w a b :
  0 <= a < 2 ^ Z.of_nat w → 0 <= b < 2 ^ Z.of_nat w →
  to_bits w a = to_bits w b → a = b.
Proof.
  intros Ha Hb H. apply Z.bits_inj'. intros i Hi.
  destruct (decide (i < Z.of_nat w)) as [Hlt|Hge].
  - clear Ha Hb. revert H Hlt. induction w as [|w IH]; cbn [to_bits]; [lia|].
    intros [= H1 H2] Hlt. destruct (decide (i = Z.of_nat w)) as [->|]; [done|].
    apply IH; [done|lia].
  - rewrite <-(Z.mod_small a (2 ^ Z.of_nat w)), <-(Z.mod_small b (2 ^ Z.of_nat w)) by lia.
    by rewrite !Z.mod_pow2_bits_high by lia.
Qed.

(** Splitting a group: the high [n] bits are those of the value shifted right. *)
Lemma to_bits_app n m z :
  to_bits (n + m) z = to_bits n (Z.shiftr z (Z.of_nat m)) ++ to_bits m z.
Proof.
  induction n as [|n IH]; [done|]. cbn [Nat.add to_bits app]. f_equal; [|done].
  rewrite Z.shiftr_spec by lia. f_equal. lia.
Qed.

Lemma low_mask_ones m : low_mask m = Z.ones m.
Proof. unfold low_mask. rewrite Z.ones_equiv, Z.shiftl_1_l. lia. Qed.

Lemma to_bits_mask w m z :
  (w <= m)%nat → to_bits w (Z.land z (low_mask (Z.of_nat m))) = to_bits w z.
Proof.
  intros Hw. apply to_bits_ext. intros i Hi.
  rewrite low_mask_ones, Z.land_spec, Z.ones_spec_low by lia. by rewrite andb_true_r.
Qed.

Lemma land_low_mask z m : 0 <= m → Z.land z (low_mask m) = z mod 2 ^ m.
Proof. intros. rewrite low_mask_ones. by apply Z.land_ones. Qed.

(** Appending an [m]-bit value below [r]: the source's [r << m | c]. *)
Lemma to_bits_shift_or n m r c :
  0 <= c < 2 ^ Z.of_nat m →
  to_bits (n + m) (Z.lor (Z.shiftl r (Z.of_nat m)) c) = to_bits n r ++ to_bits m c.
Proof.
  intros Hc. rewrite to_bits_app. f_equal.
  - apply to_bits_ext. intros i Hi.
    rewrite Z.shiftr_spec, Z.lor_spec, Z.shiftl_spec by lia.
    replace (i + Z.of_nat m - Z.of_nat m) with i by lia.
    rewrite <-(Z.mod_small c (2 ^ Z.of_nat m)) by lia.
    by rewrite Z.mod_pow2_bits_high, orb_false_r by lia.
  - apply to_bits_ext. intros i Hi.
    by rewrite Z.lor_spec, Z.shiftl_spec_low by lia.
Qed.

Lemma shift_or_add r m c :
  0 <= m → 0 <= c < 2 ^ m → Z.lor (Z.shiftl r m) c = r * 2 ^ m + c.
Proof.
  intros Hm Hc. rewrite <-Z.shiftl_mul_pow2 by lia. symmetry.
  rewrite <-Z.lxor_lor; [apply Z.add_nocarry_lxor|];
    apply Z.bits_inj'; intros i Hi; rewrite Z.land_spec, Z.bits_0;
    (destruct (decide (i < m)); [by rewrite Z.shiftl_spec_low by lia|]);
    rewrite <-(Z.mod_small c (2 ^ m)) by lia;
    by rewrite Z.mod_pow2_bits_high, andb_false_r by lia.
Qed.

Lemma fast16_small z : 0 <= z < 65536 → fast16 z = z.
Proof. intros. by apply Z.mod_small. Qed.

Lemma to_bits_0 w : to_bits w 0 = replicate w false.
Proof. induction w; simpl; [done|]. by rewrite Z.testbit_0_l, IHw. Qed.

(** Left-shifting pads with zero bits. *)
Lemma to_bits_shiftl n m r :
  to_bits (n + m) (Z.shiftl r (Z.of_nat m)) = to_bits n r ++ replicate m false.
Proof.
  rewrite <-(Z.lor_0_r (Z.shiftl _ _)), to_bits_shift_or by lia. by rewrite to_bits_0.
Qed.

Lemma bits_of_app w a b : bits_of w (a ++ b) = bits_of w a ++ bits_of w b.
Proof. unfold bits_of. by rewrite fmap_app, concat_app. Qed.

Lemma bits_of_cons w d ds : bits_of w (d :: ds) = to_bits w d ++ bits_of w ds.
Proof. done. Qed.

Lemma bits_of_one w d : bits_of w [d] = to_bits w d.
Proof. unfold bits_of. simpl. apply app_nil_r. Qed.

Lemma length_bits_of w ds : length (bits_of w ds) = (w * length ds)%nat.
Proof.
  induction ds as [|d ds IH]; [simpl; lia|].
  rewrite bits_of_cons, length_app, length_to_bits, IH. simpl. lia.
Qed.

Lemma bits_of_inj w a b :
  length a = length b →
  Forall (λ z, 0 <= z < 2 ^ Z.of_nat w) a → Forall (λ z, 0 <= z < 2 ^ Z.of_nat w) b →
  bits_of w a = bits_of w b → a = b.
Proof.
  revert b. induction a as [|x a IH]; intros [|y b]; try done.
  intros Hl Ha Hb. apply Forall_cons in Ha as [Hx Ha], Hb as [Hy Hb].
  rewrite !bits_of_cons. intros [H1 H2]%app_inj_1; [|by rewrite !length_to_bits].
  f_equal; [by eapply to_bits_inj|]. apply IH; try done. by injection Hl.
Qed.

Lemma byte_bits_app a b : byte_bits (a ++ b) = byte_bits a ++ byte_bits b.
Proof. unfold byte_bits. by rewrite fmap_app, bits_of_app. Qed.

Lemma length_byte_bits s : length (byte_bits s) = (8 * length s)%nat.
Proof. unfold byte_bits. by rewrite length_bits_of, length_fmap. Qed.

Lemma byte_bits_inj a b : length a = length b → byte_bits a = byte_bits b → a = b.
Proof.
  intros Hl H. apply (inj (fmap b2z)).
  apply (bits_of_inj 8); try done; [by rewrite !length_fmap|..];
    apply Forall_fmap, Forall_true; intros x; apply (b2z_range x).
Qed.

(** Two byte strings whose bits agree up to fewer than eight trailing bits are
    equal: what makes "ignore the excess bits" a correct decoding rule. *)
Lemma byte_bits_excess a b xs ys :
  byte_bits a ++ xs = byte_bits b ++ ys →
  (length xs < 8)%nat → (length ys < 8)%nat → a = b.
Proof.
  intros H Hx Hy.
  assert (length a = length b) as Hl.
  { apply (f_equal length) in H. rewrite !length_app, !length_byte_bits in H. lia. }
  apply byte_bits_inj; [done|].
  apply app_inj_1 in H as [? _]; [done|]. by rewrite !length_byte_bits, Hl.
Qed.

(** ** The two moves of a codec's bit accumulator *)

(** [r << k | c]: push [k] new bits below the [n] held ones. *)
Lemma acc_push (n k : nat) r c :
  (n + k <= 16)%nat → 0 <= r < 2 ^ Z.of_nat n → 0 <= c < 2 ^ Z.of_nat k →
  let v := fast16 (Z.lor (Z.shiftl r (Z.of_nat k)) c) in
  0 <= v < 2 ^ Z.of_nat (n + k) ∧ to_bits (n + k) v = to_bits n r ++ to_bits k c.
Proof.
  intros Hnk Hr Hc.
  assert (0 <= Z.lor (Z.shiftl r (Z.of_nat k)) c < 2 ^ Z.of_nat (n + k)) as Hv.
  { rewrite shift_or_add, Nat2Z.inj_add, Z.pow_add_r by lia. nia. }
  assert (2 ^ Z.of_nat (n + k) <= 2 ^ 16) by (apply Z.pow_le_mono_r; lia).
  cbv zeta. rewrite fast16_small by lia. split; [done|]. by apply to_bits_shift_or.
Qed.

(** [v >> b] then [v &= (1 << b) - 1]: consume the top [w] bits and keep [b]. *)
Lemma acc_take (w b : nat) v :
  (w <= 8)%nat → 0 <= v < 2 ^ Z.of_nat (w + b) →
  let d := Z.shiftr v (Z.of_nat b) mod 256 in
  let v' := Z.land v (low_mask (Z.of_nat b)) in
  0 <= d < 2 ^ Z.of_nat w ∧ 0 <= v' < 2 ^ Z.of_nat b ∧
  to_bits w d ++ to_bits b v' = to_bits (w + b) v.
Proof.
  intros Hw Hv. cbv zeta.
  assert (0 <= Z.shiftr v (Z.of_nat b) < 2 ^ Z.of_nat w) as Hd.
  { rewrite Z.shiftr_div_pow2 by lia. rewrite Nat2Z.inj_add, Z.pow_add_r in Hv by lia.
    split; [apply Z.div_pos; lia|apply Z.div_lt_upper_bound; nia]. }
  assert (2 ^ Z.of_nat w <= 2 ^ 8) by (apply Z.pow_le_mono_r; lia).
  rewrite (Z.mod_small _ 256) by lia. split; [done|]. split.
  - rewrite land_low_mask by lia. apply Z.mod_pos_bound. lia.
  - by rewrite to_bits_mask, <-to_bits_app by done.
Qed.

(** The last, partial digit: [r << (w - n)] pads with zero bits. *)
Lemma acc_pad (w n : nat) r :
  (n <= w <= 8)%nat → 0 <= r < 2 ^ Z.of_nat n →
  let d := Z.shiftl r (Z.of_nat (w - n)) mod 256 in
  0 <= d < 2 ^ Z.of_nat w ∧ to_bits w d = to_bits n r ++ replicate (w - n) false.
Proof.
  intros Hw Hr. cbv zeta.
  assert (0 <= Z.shiftl r (Z.of_nat (w - n)) < 2 ^ Z.of_nat w) as Hd.
  { rewrite Z.shiftl_mul_pow2 by lia.
    replace (Z.of_nat w) with (Z.of_nat n + Z.of_nat (w - n)) by lia.
    rewrite Z.pow_add_r by lia. nia. }
  assert (2 ^ Z.of_nat w <= 2 ^ 8) by (apply Z.pow_le_mono_r; lia).
  rewrite Z.mod_small by lia. split; [done|].
  rewrite <-to_bits_shiftl. f_equal. lia.
Qed.
