(* ===== verification/Hex.v ===== *)
(** hex.h: lower-case hexadecimal encoding, its validation and its decoding
    through the two lookup tables the [hex_table] constructor builds. *)
From S2P Require Import Prelude Bits.
Open Scope Z_scope.

(** ** The lookup tables *)
Record hex_table : Type := {
  from_hex_lut : list Z;
  to_hex_lut : list Z
}.

(** [lut[i] = v] on an array; every index written below is in range. *)
Definition lut_set (i : Z) (v : Z) (lut : list Z) : list Z := <[Z.to_nat i := v]> lut.

(** [lut[i]]; the callers' indices are shown to be in range. *)
Definition lut_get (lut : list Z) (i : Z) : Z := default 0 (lut !! Z.to_nat i).

(** [for (unsigned char c = 0; c < 10; c++)]: the decimal digits. *)
Definition hex_table_digits (t : hex_table) : hex_table :=
  foldl (λ t c, {|
    from_hex_lut := lut_set (b2z "0"%byte + c) (0 + c) (from_hex_lut t);
    to_hex_lut := lut_set (0 + c) (b2z "0"%byte + c) (to_hex_lut t) |})
    t (seqZ 0 10).

(** [for (unsigned char c = 0; c < 6; c++)]: the letters, in both cases. *)
Definition hex_table_letters (t : hex_table) : hex_table :=
  foldl (λ t c, {|
    from_hex_lut := lut_set (b2z "A"%byte + c) (10 + c)
                      (lut_set (b2z "a"%byte + c) (10 + c) (from_hex_lut t));
    to_hex_lut := lut_set (10 + c) (b2z "a"%byte + c) (to_hex_lut t) |})
    t (seqZ 0 6).

Definition hex_table_ctor : hex_table :=
  hex_table_letters (hex_table_digits {|
    from_hex_lut := replicate 256 0; to_hex_lut := replicate 16 0 |}).

Definition hex_lut : hex_table := Eval vm_compute in hex_table_ctor.

Definition lut_from_hex (c : byte) : Z := lut_get (from_hex_lut hex_lut) (b2z c).
Definition lut_to_hex (b : Z) : byte := z2b (lut_get (to_hex_lut hex_lut) b).

(** ** Encoding *)

(** The table indices the loop of [to_hex] uses, two per byte. *)
Definition to_hex_indices (s : bytes) : list Z :=
  s ≫= λ c, [Z.shiftr (b2z c) 4; Z.land (b2z c) 15].

Definition to_hex (s : bytes) : bytes := lut_to_hex <$> to_hex_indices s.

(** ** Validation *)
Definition is_hex_digit (c : byte) : bool :=
  negb (lut_from_hex c =? 0) || bool_decide (c = "0"%byte).

(** The loop of [is_hex(begin, end)]; [count] is kept for iterators that are not
    random access. *)
Fixpoint is_hex_loop (count : nat) (s : bytes) : option nat :=
  match s with
  | [] => Some count
  | c :: s' => if is_hex_digit c then is_hex_loop (S count) s' else None
  end.

(** [ra]: whether the iterator type is random access, which decides where the
    parity of the length is checked. *)
Definition is_hex_it (ra : bool) (s : bytes) : bool :=
  if ra && negb (length s mod 2 =? 0)%nat then false
  else match is_hex_loop 0 s with
       | None => false
       | Some count => if ra then true else (count mod 2 =? 0)%nat
       end.

Definition is_hex (s : bytes) : bool := is_hex_it true s.

(** ** Decoding *)
Definition from_hex_digit (x : byte) : Z := lut_from_hex x.

Definition from_hex_pair (a b : byte) : byte :=
  z2b (Z.lor (Z.shiftl (from_hex_digit a) 4) (from_hex_digit b)).

(** The loop of [from_hex]: two characters per step; an odd length would make the
    second [*begin++] read past the end. *)
Fixpoint from_hex_loop (s : bytes) : outcome bytes :=
  match s with
  | [] => Ok []
  | [_] => UB
  | a :: b :: s' => rest ← from_hex_loop s'; Ok (from_hex_pair a b :: rest)
  end.

(** [from_hex]: [assert(is_hex(begin, end))], then the loop. *)
Definition from_hex (s : bytes) : outcome bytes := if is_hex s then from_hex_loop s else UB.

(** ** Lemmas *)
Arguments lut_from_hex : simpl never.
Arguments lut_to_hex : simpl never.
Arguments is_hex_digit : simpl never.
Arguments from_hex_pair : simpl never.

Lemma to_hex_nil : to_hex [] = [].
Proof. done. Qed.

Lemma to_hex_cons c s :
  to_hex (c :: s) =
  lut_to_hex (Z.shiftr (b2z c) 4) :: lut_to_hex (Z.land (b2z c) 15) :: to_hex s.
Proof. done. Qed.

Lemma to_hex_app a b : to_hex (a ++ b) = to_hex a ++ to_hex b.
Proof. unfold to_hex, to_hex_indices. by rewrite bind_app, fmap_app. Qed.

Lemma length_to_hex s : length (to_hex s) = (2 * length s)%nat.
Proof. induction s as [|c s IH]; [done|]. rewrite to_hex_cons. simpl. lia. Qed.

Lemma to_hex_indices_range s : Forall (λ i, 0 <= i < 16) (to_hex_indices s).
Proof.
  induction s as [|c s IH]; [constructor|]. unfold to_hex_indices in *. simpl.
  pose proof (b2z_range c). repeat apply Forall_cons_2; [| |done].
  - rewrite Z.shiftr_div_pow2 by lia. change (2 ^ 4) with 16.
    split; [apply Z.div_pos; lia | apply Z.div_lt_upper_bound; lia].
  - change 15 with (Z.ones 4). rewrite Z.land_ones by lia. apply Z.mod_pos_bound. lia.
Qed.

Lemma from_hex_pair_to_hex c :
  from_hex_pair (lut_to_hex (Z.shiftr (b2z c) 4)) (lut_to_hex (Z.land (b2z c) 15)) = c.
Proof.
  assert (bool_decide (from_hex_pair (lut_to_hex (Z.shiftr (b2z c) 4))
            (lut_to_hex (Z.land (b2z c) 15)) = c) = true) as H by by_bytes c.
  by apply bool_decide_eq_true in H.
Qed.

Lemma is_hex_digit_to_hex c :
  is_hex_digit (lut_to_hex (Z.shiftr (b2z c) 4))
  && is_hex_digit (lut_to_hex (Z.land (b2z c) 15)) = true.
Proof. by_bytes c. Qed.

Lemma is_hex_loop_spec s n :
  is_hex_loop n s = if forallb is_hex_digit s then Some (length s + n)%nat else None.
Proof.
  revert n. induction s as [|c s IH]; intros n; simpl; [done|].
  destruct (is_hex_digit c); simpl; [|done]. rewrite IH.
  destruct (forallb is_hex_digit s); [f_equal; lia|done].
Qed.

(** Both iterator categories decide the same set: an even number of digits. *)
Lemma is_hex_it_spec ra s :
  is_hex_it ra s = ((length s mod 2 =? 0)%nat && forallb is_hex_digit s).
Proof.
  unfold is_hex_it. rewrite is_hex_loop_spec, Nat.add_0_r.
  by destruct ra, (length s mod 2 =? 0)%nat eqn:E, (forallb is_hex_digit s); simpl; rewrite ?E.
Qed.

(** Induction two characters at a time. *)
Lemma bytes_pair_ind (P : bytes → Prop) :
  P [] → (∀ a, P [a]) → (∀ a b s, P s → P (a :: b :: s)) → ∀ s, P s.
Proof.
  intros H0 H1 H2. fix IH 1. intros [|a [|b s]]; [done|apply H1|]. apply H2, IH.
Qed.

Lemma is_hex_to_hex s : is_hex (to_hex s) = true.
Proof.
  unfold is_hex. rewrite is_hex_it_spec, length_to_hex. apply andb_true_iff. split.
  - apply Nat.eqb_eq. rewrite Nat.mul_comm. apply Nat.Div0.mod_mul.
  - induction s as [|c s IH]; [done|]. rewrite to_hex_cons. cbn [forallb].
    pose proof (is_hex_digit_to_hex c) as [-> ->]%andb_true_iff. done.
Qed.

Lemma from_hex_to_hex s : from_hex (to_hex s) = Ok s.
Proof.
  unfold from_hex. rewrite is_hex_to_hex.
  induction s as [|c s IH]; [done|]. rewrite to_hex_cons. cbn [from_hex_loop].
  by rewrite IH, from_hex_pair_to_hex.
Qed.

Lemma to_hex_pair a b :
  is_hex_digit a = true → is_hex_digit b = true →
  to_hex [from_hex_pair a b] = [to_lower a; to_lower b].
Proof.
  intros Ha Hb. apply bytes_eqb_eq. revert b Hb. apply byte_forall_in. revert a Ha.
  apply (byte_forall_in is_hex_digit (λ a, forallb (λ b,
    bytes_eqb (to_hex [from_hex_pair a b]) [to_lower a; to_lower b])
    (List.filter is_hex_digit all_bytes))).
  vm_compute. reflexivity.
Qed.

Lemma to_hex_from_hex s :
  is_hex s = true →
  ∃ b, from_hex s = Ok b ∧ to_hex b = to_lower <$> s ∧ length s = (2 * length b)%nat.
Proof.
  intros Hh. unfold from_hex. rewrite Hh. revert Hh. unfold is_hex. rewrite is_hex_it_spec.
  intros [Hl Hd]%andb_true_iff. revert Hl Hd. induction s as [|a|a b s IH] using bytes_pair_ind; [by exists []|done|].
  cbn [length forallb].
  intros Hl [Ha [Hb Hd]%andb_true_iff]%andb_true_iff.
  destruct IH as (bs & E & Et & Elen); [|done|].
  { apply Nat.eqb_eq in Hl. apply Nat.eqb_eq.
    replace (S (S (length s))) with (length s + 1 * 2)%nat in Hl by lia.
    by rewrite Nat.Div0.mod_add in Hl. }
  exists (from_hex_pair a b :: bs). cbn [from_hex_loop]. rewrite E. split_and!; [done| |simpl; lia].
  change (to_hex ([from_hex_pair a b] ++ bs) = [to_lower a; to_lower b] ++ (to_lower <$> s)).
  rewrite to_hex_app, to_hex_pair, Et by done. done.
Qed.

(** ** Properties *)

(** Encoding then decoding is the identity on every byte string, the encoder
    only reads its 16-entry table in range, and what it produces is accepted by
    [is_hex] and twice as long. *)
Theorem hex_roundtrip (s : bytes) :
  Forall (λ i, 0 <= i < Z.of_nat (length (to_hex_lut hex_lut))) (to_hex_indices s) ∧
  is_hex (to_hex s) = true ∧
  length (to_hex s) = (2 * length s)%nat ∧
  from_hex (to_hex s) = Ok s.
Proof.
  split_and!; [apply to_hex_indices_range|apply is_hex_to_hex|apply length_to_hex|].
  apply from_hex_to_hex.
Qed.

(** Decoding any string [is_hex] accepts (for either iterator category)
    succeeds without reading past the end, yields half as many bytes, and
    re-encodes to the same digits in lower case: decoding is case insensitive
    and loses nothing. *)
Theorem hex_decode_canonical (ra : bool) (s : bytes) :
  is_hex_it ra s = true →
  ∃ b, from_hex s = Ok b ∧ to_hex b = to_lower <$> s ∧ length s = (2 * length b)%nat.
Proof.
  intros H. apply to_hex_from_hex. unfold is_hex. by rewrite is_hex_it_spec in *.
Qed.

Lemma hex_decode_canonical_witness :
  is_hex_it false (B "00fFa9") = true ∧
  ∃ b, from_hex (B "00fFa9") = Ok b ∧ to_hex b = to_lower <$> B "00fFa9"
       ∧ length (B "00fFa9") = (2 * length b)%nat.
Proof.
  split; [reflexivity|]. apply (hex_decode_canonical false). reflexivity.
Defined.
