(* ===== verification/Base32z.v ===== *)
(** base32z.h: the z-base-32 codec.  The encoder and decoder keep a bit
    accumulator of unconsumed bits; they are verified against the bit-string
    reference of [Bits]. *)
From S2P Require Import Prelude Bits Hex.
Open Scope Z_scope.

(** ** The lookup tables *)
Record b32z_table : Type := {
  from_b32z_lut : list Z;
  to_b32z_lut : list Z
}.

Definition b32z_alphabet : list Z := b2z <$> B "ybndrfg8ejkmcpqxot1uwisza345h769".

(** The constructor's loop: invert the alphabet, for both cases of a letter. *)
Definition b32z_table_ctor : b32z_table := {|
  from_b32z_lut :=
    foldl (λ lut c,
      let x := lut_get b32z_alphabet c in
      let lut := lut_set x c lut in
      if (b2z "a"%byte <=? x) && (x <=? b2z "z"%byte)
      then lut_set (x - b2z "a"%byte + b2z "A"%byte) c lut
      else lut) (replicate 256 0) (seqZ 0 32);
  to_b32z_lut := b32z_alphabet
|}.

Definition b32z_lut : b32z_table := Eval vm_compute in b32z_table_ctor.

Definition from_b32z (c : byte) : Z := lut_get (from_b32z_lut b32z_lut) (b2z c).
Definition to_b32z (b : Z) : byte := z2b (lut_get (to_b32z_lut b32z_lut) b).

(** ** Encoding *)

(** One iteration of the [while] loop of [to_base32z] on state [(r, bits)]: the
    new state and the digits handed to [to_b32z] (converted to [unsigned char]). *)
Definition to_b32z_step (r bits : Z) (c : byte) : Z * Z * list Z :=
  let r := fast16 (Z.lor (Z.shiftl r 8) (b2z c)) in
  let bits := bits + 3 in
  let d1 := Z.shiftr r bits mod 256 in
  let r := Z.land r (low_mask bits) in
  if 5 <=? bits then
    let bits := bits - 5 in
    let d2 := Z.shiftr r bits mod 256 in
    (Z.land r (low_mask bits), bits, [d1; d2])
  else (r, bits, [d1]).

Fixpoint to_b32z_loop (r bits : Z) (s : bytes) : list Z :=
  match s with
  | [] => if 0 <? bits then [Z.shiftl r (5 - bits) mod 256] else []
  | c :: s' =>
      let '(r', bits', ds) := to_b32z_step r bits c in
      ds ++ to_b32z_loop r' bits' s'
  end.

Definition to_base32z_digits (s : bytes) : list Z := to_b32z_loop 0 0 s.

Definition to_base32z (s : bytes) : bytes := to_b32z <$> to_base32z_digits s.

(** ** Validation *)
Definition is_b32z_char (c : byte) : bool :=
  negb ((from_b32z c =? 0) && negb (bool_decide (c = "y"%byte) || bool_decide (c = "Y"%byte))).

Fixpoint is_base32z (s : bytes) : bool :=
  match s with
  | [] => true
  | c :: s' => if is_b32z_char c then is_base32z s' else false
  end.

(** ** Decoding *)
Definition from_b32z_step (curr bits : Z) (c : byte) : Z * Z * bytes :=
  let curr := fast16 (Z.lor (Z.shiftl curr 5) (from_b32z c)) in
  if 3 <=? bits then
    let bits := bits - 3 in
    (Z.land curr (low_mask bits), bits, [z2b (Z.shiftr curr bits)])
  else (curr, bits + 5, []).

Fixpoint from_b32z_loop (curr bits : Z) (s : bytes) : bytes :=
  match s with
  | [] => []
  | c :: s' =>
      let '(curr', bits', out) := from_b32z_step curr bits c in
      out ++ from_b32z_loop curr' bits' s'
  end.

Definition from_base32z (s : bytes) : bytes := from_b32z_loop 0 0 s.

Arguments from_b32z : simpl never.
Arguments to_b32z : simpl never.
Arguments is_b32z_char : simpl never.

(** ** The accumulator invariant

    Between iterations the encoder holds [n <= 4] unconsumed bits and the decoder
    [n <= 7]: the value held is below 2^n, so no integer type of at least 16 bits
    ever wraps, and the bits emitted followed by the bits still held are the bits
    held before followed by the bits read. *)
Lemma to_b32z_step_spec (n : nat) r c :
  (n <= 4)%nat → 0 <= r < 2 ^ Z.of_nat n →
  ∃ r' (n' : nat) ds,
    to_b32z_step r (Z.of_nat n) c = (r', Z.of_nat n', ds) ∧
    (n' <= 4)%nat ∧ 0 <= r' < 2 ^ Z.of_nat n' ∧
    Forall (λ d, 0 <= d < 32) ds ∧
    bits_of 5 ds ++ to_bits n' r' = to_bits n r ++ to_bits 8 (b2z c).
Proof.
  intros Hn Hr.
  destruct (acc_push n 8 r (b2z c)) as [Hv Ev]; [lia|done|apply b2z_range|].
  unfold to_b32z_step. change 8 with (Z.of_nat 8).
  set (v := fast16 _) in *. replace (n + 8)%nat with (5 + (n + 3))%nat in * by lia.
  destruct (acc_take 5 (n + 3) v) as (Hd & Hv' & E1); [lia|done|].
  replace (Z.of_nat n + 3) with (Z.of_nat (n + 3)) by lia.
  set (d1 := Z.shiftr v _ mod 256) in *. set (v' := Z.land v _) in *.
  clearbody v' d1 v. rewrite <-Ev, <-E1. destruct (5 <=? Z.of_nat (n + 3)) eqn:E5.
  - replace (Z.of_nat (n + 3) - 5) with (Z.of_nat (n - 2)) by lia.
    replace (n + 3)%nat with (5 + (n - 2))%nat in Hv' |- * by lia.
    destruct (acc_take 5 (n - 2) v') as (Hd2 & Hv2 & E2); [lia|done|].
    eexists _, (n - 2)%nat, _. split; [done|]. split_and!; [lia|lia|lia|by repeat first [apply Forall_nil_2 | apply Forall_cons_2]|].
    by rewrite bits_of_cons, bits_of_one, <-app_assoc, E2.
  - eexists _, (n + 3)%nat, _. split; [done|]. split_and!; [lia|lia|lia|by repeat first [apply Forall_nil_2 | apply Forall_cons_2]|].
    by rewrite bits_of_one.
Qed.

Lemma to_b32z_loop_spec s : ∀ (n : nat) r,
  (n <= 4)%nat → 0 <= r < 2 ^ Z.of_nat n →
  Forall (λ d, 0 <= d < 32) (to_b32z_loop r (Z.of_nat n) s) ∧
  ∃ p, (p < 5)%nat ∧
    bits_of 5 (to_b32z_loop r (Z.of_nat n) s)
    = to_bits n r ++ byte_bits s ++ replicate p false.
Proof.
  induction s as [|c s IH]; intros n r Hn Hr; cbn [to_b32z_loop].
  - destruct (0 <? Z.of_nat n) eqn:E.
    + replace (5 - Z.of_nat n) with (Z.of_nat (5 - n)) by lia.
      destruct (acc_pad 5 n r) as [Hd Ed]; [lia|done|].
      split; [by repeat first [apply Forall_nil_2 | apply Forall_cons_2]|]. exists (5 - n)%nat. split; [lia|].
      by rewrite bits_of_one, Ed.
    + replace n with 0%nat by lia. split; [constructor|]. exists 0%nat. auto with lia.
  - destruct (to_b32z_step_spec n r c) as (r' & n' & ds & -> & Hn' & Hr' & Hds & E); [done..|].
    destruct (IH n' r' Hn' Hr') as [HF (p & Hp & Ep)].
    split; [by apply Forall_app|]. exists p. split; [done|].
    rewrite bits_of_app, Ep, app_assoc, E, <-!app_assoc. done.
Qed.

Lemma from_b32z_range c : 0 <= from_b32z c < 32.
Proof.
  assert ((0 <=? from_b32z c) && (from_b32z c <? 32) = true) by by_bytes c. lia.
Qed.

Lemma from_b32z_step_spec (n : nat) curr c :
  (n <= 7)%nat → 0 <= curr < 2 ^ Z.of_nat n →
  ∃ curr' (n' : nat) out,
    from_b32z_step curr (Z.of_nat n) c = (curr', Z.of_nat n', out) ∧
    (n' <= 7)%nat ∧ 0 <= curr' < 2 ^ Z.of_nat n' ∧
    byte_bits out ++ to_bits n' curr' = to_bits n curr ++ to_bits 5 (from_b32z c).
Proof.
  intros Hn Hr.
  destruct (acc_push n 5 curr (from_b32z c)) as [Hv Ev]; [lia|done|apply from_b32z_range|].
  unfold from_b32z_step. change (Z.shiftl curr 5) with (Z.shiftl curr (Z.of_nat 5)).
  set (v := fast16 _) in *. clearbody v. rewrite <-Ev. destruct (3 <=? Z.of_nat n) eqn:E3.
  - replace (n + 5)%nat with (8 + (n - 3))%nat in * by lia.
    destruct (acc_take 8 (n - 3) v) as (Hd & Hv' & E1); [lia|done|].
    replace (Z.of_nat n - 3) with (Z.of_nat (n - 3)) by lia.
    eexists _, (n - 3)%nat, _. split; [done|]. split_and!; [lia|lia|lia|].
    unfold byte_bits. cbn [fmap list_fmap]. by rewrite bits_of_one, b2z_z2b, E1.
  - replace (Z.of_nat n + 5) with (Z.of_nat (n + 5)) by lia.
    eexists _, (n + 5)%nat, _. split; [done|]. split_and!; [lia|lia|lia|done].
Qed.

Lemma from_b32z_loop_spec s : ∀ (n : nat) curr,
  (n <= 7)%nat → 0 <= curr < 2 ^ Z.of_nat n →
  ∃ rest, (length rest < 8)%nat ∧
    byte_bits (from_b32z_loop curr (Z.of_nat n) s) ++ rest
    = to_bits n curr ++ bits_of 5 (from_b32z <$> s).
Proof.
  induction s as [|c s IH]; intros n curr Hn Hc; cbn [from_b32z_loop].
  - exists (to_bits n curr). rewrite length_to_bits. split; [lia|]. symmetry. apply app_nil_r.
  - destruct (from_b32z_step_spec n curr c) as (c' & n' & out & -> & Hn' & Hc' & E); [done..|].
    destruct (IH n' c' Hn' Hc') as (rest & Hl & Er). exists rest. split; [done|].
    rewrite byte_bits_app, <-app_assoc, Er, app_assoc, E. by rewrite <-app_assoc.
Qed.

(** ** The codec against the bit-string reference *)
Lemma from_base32z_bits s :
  ∃ rest, (length rest < 8)%nat ∧
    byte_bits (from_base32z s) ++ rest = bits_of 5 (from_b32z <$> s).
Proof. apply (from_b32z_loop_spec s 0 0); simpl; lia. Qed.

Lemma to_base32z_bits s :
  Forall (λ d, 0 <= d < 32) (to_base32z_digits s) ∧
  ∃ p, (p < 5)%nat ∧ bits_of 5 (to_base32z_digits s) = byte_bits s ++ replicate p false.
Proof. apply (to_b32z_loop_spec s 0 0); simpl; lia. Qed.

Lemma from_to_b32z d : 0 <= d < 32 → from_b32z (to_b32z d) = d.
Proof.
  intros Hd. assert (forallb (λ d, from_b32z (to_b32z d) =? d) (seqZ 0 32) = true) as H
    by (vm_compute; reflexivity).
  rewrite forallb_forall in H. apply Z.eqb_eq, H, list_elem_of_In, elem_of_seqZ. lia.
Qed.

Lemma is_b32z_to_b32z d : 0 <= d < 32 → is_b32z_char (to_b32z d) = true.
Proof.
  intros Hd. assert (forallb (λ d, is_b32z_char (to_b32z d)) (seqZ 0 32) = true) as H
    by (vm_compute; reflexivity).
  rewrite forallb_forall in H. apply H, list_elem_of_In, elem_of_seqZ. lia.
Qed.

Lemma from_to_b32z_map ds :
  Forall (λ d, 0 <= d < 32) ds → from_b32z <$> (to_b32z <$> ds) = ds.
Proof.
  intros H. induction H as [|d ds Hd H IH]; [done|]. cbn. by rewrite from_to_b32z, IH.
Qed.

Lemma is_base32z_forallb s : is_base32z s = forallb is_b32z_char s.
Proof. induction s as [|c s IH]; [done|]. cbn. by rewrite IH. Qed.

Lemma from_to_base32z s : from_base32z (to_base32z s) = s.
Proof.
  destruct (from_base32z_bits (to_base32z s)) as (rest & Hr & Er).
  destruct (to_base32z_bits s) as [HF (p & Hp & Ep)].
  unfold to_base32z in Er. rewrite from_to_b32z_map, Ep in Er by done.
  eapply byte_bits_excess; [exact Er|done|]. rewrite length_replicate. lia.
Qed.

Lemma length_to_base32z s : length (to_base32z s) = ((length s * 8 + 4) / 5)%nat.
Proof.
  destruct (to_base32z_bits s) as [_ (p & Hp & Ep)].
  apply (f_equal length) in Ep.
  rewrite length_bits_of, length_app, length_byte_bits, length_replicate in Ep.
  unfold to_base32z. rewrite length_fmap.
  apply (Nat.div_unique _ _ _ (4 - p)); lia.
Qed.

Lemma is_base32z_to_base32z s : is_base32z (to_base32z s) = true.
Proof.
  rewrite is_base32z_forallb. destruct (to_base32z_bits s) as [HF _].
  unfold to_base32z. induction HF as [|d ds Hd _ IH]; [done|].
  cbn. by rewrite is_b32z_to_b32z.
Qed.

Lemma length_from_base32z s : length (from_base32z s) = (length s * 5 / 8)%nat.
Proof.
  destruct (from_base32z_bits s) as (rest & Hr & Er).
  apply (f_equal length) in Er.
  rewrite length_app, length_byte_bits, length_bits_of, length_fmap in Er.
  apply (Nat.div_unique _ _ _ (length rest)); lia.
Qed.

(** Decoding depends on the leading whole bytes of the bit string only. *)
Lemma from_base32z_take_bits s :
  byte_bits (from_base32z s)
  = take (8 * (length s * 5 / 8)) (bits_of 5 (from_b32z <$> s)).
Proof.
  destruct (from_base32z_bits s) as (rest & Hr & <-).
  assert (length (byte_bits (from_base32z s)) = 8 * (length s * 5 / 8))%nat as Hl
    by by rewrite length_byte_bits, length_from_base32z.
  by rewrite take_app_le, take_ge by lia.
Qed.

Lemma from_b32z_upper c : from_b32z (to_upper c) = from_b32z c ∨ is_b32z_char c = false.
Proof.
  assert ((from_b32z (to_upper c) =? from_b32z c) || negb (is_b32z_char c) = true) as H
    by by_bytes c.
  apply orb_true_iff in H as [H|H]; [left; lia|right; by destruct (is_b32z_char c)].
Qed.

Lemma is_b32z_char_upper c : is_b32z_char (to_upper c) = is_b32z_char c.
Proof.
  apply eqb_prop. by_bytes c.
Qed.

Lemma from_base32z_upper s :
  is_base32z s = true →
  is_base32z (to_upper <$> s) = true ∧ from_base32z (to_upper <$> s) = from_base32z s.
Proof.
  intros H. rewrite is_base32z_forallb in H.
  assert (from_b32z <$> (to_upper <$> s) = from_b32z <$> s) as Hd.
  { induction s as [|c s IH]; [done|]. apply andb_true_iff in H as [Hc H].
    rewrite !fmap_cons, IH by done. f_equal.
    destruct (from_b32z_upper c); [done|congruence]. }
  split.
  - clear Hd. induction s as [|c s IH]; [done|]. apply andb_true_iff in H as [Hc H].
    rewrite fmap_cons. cbn [is_base32z]. rewrite is_b32z_char_upper, Hc. by apply IH.
  - apply byte_bits_inj; [by rewrite !length_from_base32z, length_fmap|].
    by rewrite !from_base32z_take_bits, Hd, length_fmap.
Qed.

(** ** Properties *)

(** Decoding inverts encoding on every byte string; the encoder's digits
    always index its 32-entry table in range; the encoding has [ceil(8n/5)]
    characters (what the source reserves) and passes [is_base32z]; and decoding
    its upper-case form, as used for QR codes, gives the same bytes. *)
Theorem base32z_roundtrip (s : bytes) :
  from_base32z (to_base32z s) = s ∧
  Forall (λ d, 0 <= d < Z.of_nat (length (to_b32z_lut b32z_lut))) (to_base32z_digits s) ∧
  length (to_base32z s) = ((length s * 8 + 4) / 5)%nat ∧
  is_base32z (to_base32z s) = true ∧
  from_base32z (to_upper <$> to_base32z s) = s.
Proof.
  pose proof (is_base32z_to_base32z s) as Hv.
  split_and!; [apply from_to_base32z|apply to_base32z_bits|apply length_to_base32z|done|].
  destruct (from_base32z_upper _ Hv) as [_ ->]. apply from_to_base32z.
Qed.

(** The accumulator decoder computes the reference decoding: the bytes it
    emits are the leading [floor(5n/8)] whole bytes of the concatenated 5-bit
    digits, and every excess bit (or impossible extra character) is ignored, as
    the comment above [from_base32z] says. *)
Theorem base32z_decode_reference (s : bytes) :
  length (from_base32z s) = (length s * 5 / 8)%nat ∧
  byte_bits (from_base32z s) = take (8 * (length s * 5 / 8)) (bits_of 5 (from_b32z <$> s)).
Proof. split; [apply length_from_base32z|apply from_base32z_take_bits]. Qed.

(** The examples of that comment. *)
Example from_base32z_excess :
  Forall (λ e, from_base32z (B e) = [z2b 0]) ["yy"; "yb"; "yyy"; "yy9"; "yd"]%string.
Proof. by repeat constructor. Qed.
