(* ===== verification/Base64.v ===== *)
(** base64.h: the base64 codec with optional padding, verified against the same
    bit-string reference as base32z. *)
From S2P Require Import Prelude Bits Hex.
Open Scope Z_scope.

(** ** The lookup tables *)
Record b64_table : Type := {
  from_b64_lut : list Z;
  to_b64_lut : list Z
}.

(** One loop of the constructor: [n] consecutive characters from [first] stand
    for the values from [base]. *)
Definition b64_table_range (first : byte) (base n : Z) (t : b64_table) : b64_table :=
  foldl (λ t c, {|
    from_b64_lut := lut_set (b2z first + c) (base + c) (from_b64_lut t);
    to_b64_lut := lut_set (base + c) (b2z first + c) (to_b64_lut t) |})
    t (seqZ 0 n).

Definition b64_table_one (c : byte) (v : Z) (t : b64_table) : b64_table := {|
  from_b64_lut := lut_set (b2z c) v (from_b64_lut t);
  to_b64_lut := lut_set v (b2z c) (to_b64_lut t) |}.

Definition b64_table_ctor : b64_table :=
  b64_table_one "/"%byte 63 (b64_table_one "+"%byte 62
    (b64_table_range "0"%byte 52 10 (b64_table_range "a"%byte 26 26
      (b64_table_range "A"%byte 0 26 {|
        from_b64_lut := replicate 256 0; to_b64_lut := replicate 64 0 |})))).

Definition b64_lut : b64_table := Eval vm_compute in b64_table_ctor.

Definition from_b64 (c : byte) : Z := lut_get (from_b64_lut b64_lut) (b2z c).
Definition to_b64 (b : Z) : byte := z2b (lut_get (to_b64_lut b64_lut) b).

(** ** Encoding *)
Definition to_b64_step (r bits : Z) (c : byte) : Z * Z * list Z :=
  let r := fast16 (Z.lor (Z.shiftl r 8) (b2z c)) in
  let bits := bits + 2 in
  let d1 := Z.shiftr r bits mod 256 in
  let r := Z.land r (low_mask bits) in
  if bits =? 6 then (0, 0, [d1; r mod 256]) else (r, bits, [d1]).

(** The digits passed to [to_b64] and the number of ['='] appended. *)
Fixpoint to_b64_loop (r bits : Z) (s : bytes) : list Z * nat :=
  match s with
  | [] =>
      if bits =? 2 then ([Z.shiftl r 4 mod 256], 2%nat)
      else if bits =? 4 then ([Z.shiftl r 2 mod 256], 1%nat)
      else ([], 0%nat)
  | c :: s' =>
      let '(r', bits', ds) := to_b64_step r bits c in
      let '(ds', pad) := to_b64_loop r' bits' s' in
      (ds ++ ds', pad)
  end.

Definition to_base64_digits (s : bytes) : list Z := fst (to_b64_loop 0 0 s).
Definition to_base64_padding (s : bytes) : nat := snd (to_b64_loop 0 0 s).

Definition to_base64 (s : bytes) : bytes :=
  (to_b64 <$> to_base64_digits s) ++ replicate (to_base64_padding s) "="%byte.

(** ** Validation *)
Definition is_b64_char (c : byte) : bool :=
  negb ((from_b64 c =? 0) && negb (bool_decide (c = "A"%byte))).

(** [end = last--] / [end = last]: at most two trailing ['='] are cut off, if the
    whole length is a positive multiple of four. *)
Definition b64_strip_padding (s : bytes) : bytes :=
  if negb (length s =? 0)%nat && (length s mod 4 =? 0)%nat then
    let n := length s in
    if bool_decide (s !! (n - 1)%nat = Some "="%byte) then
      if bool_decide (s !! (n - 2)%nat = Some "="%byte) then take (n - 2) s
      else take (n - 1) s
    else s
  else s.

Definition is_base64 (s : bytes) : bool := forallb is_b64_char (b64_strip_padding s).

(** ** Decoding *)
Definition from_b64_step (curr bits : Z) (c : byte) : Z * Z * bytes :=
  if bool_decide (c = "="%byte) then (curr, bits, [])
  else
    let curr := fast16 (Z.lor (Z.shiftl curr 6) (from_b64 c)) in
    if bits =? 0 then (curr, 6, [])
    else
      let bits := bits - 2 in
      (Z.land curr (low_mask bits), bits, [z2b (Z.shiftr curr bits)]).

Fixpoint from_b64_loop (curr bits : Z) (s : bytes) : bytes :=
  match s with
  | [] => []
  | c :: s' =>
      let '(curr', bits', out) := from_b64_step curr bits c in
      out ++ from_b64_loop curr' bits' s'
  end.

Definition from_base64 (s : bytes) : bytes := from_b64_loop 0 0 s.

Arguments from_b64 : simpl never.
Arguments to_b64 : simpl never.
Arguments is_b64_char : simpl never.

(** ** The accumulator invariant: 0, 2 or 4 unconsumed bits when encoding, 0, 2,
    4 or 6 when decoding. *)
Lemma to_b64_step_spec (n : nat) r c :
  n ∈ [0; 2; 4]%nat → 0 <= r < 2 ^ Z.of_nat n →
  ∃ r' (n' : nat) ds,
    to_b64_step r (Z.of_nat n) c = (r', Z.of_nat n', ds) ∧
    n' ∈ [0; 2; 4]%nat ∧ 0 <= r' < 2 ^ Z.of_nat n' ∧
    Forall (λ d, 0 <= d < 64) ds ∧
    bits_of 6 ds ++ to_bits n' r' = to_bits n r ++ to_bits 8 (b2z c).
Proof.
  intros Hn Hr.
  assert (n = 0 ∨ n = 2 ∨ n = 4)%nat as Hn' by set_solver.
  destruct (acc_push n 8 r (b2z c)) as [Hv Ev]; [lia|done|apply b2z_range|].
  unfold to_b64_step. change 8 with (Z.of_nat 8).
  set (v := fast16 _) in *. replace (n + 8)%nat with (6 + (n + 2))%nat in * by lia.
  destruct (acc_take 6 (n + 2) v) as (Hd & Hv' & E1); [lia|done|].
  replace (Z.of_nat n + 2) with (Z.of_nat (n + 2)) by lia.
  set (d1 := Z.shiftr v _ mod 256) in *. set (v' := Z.land v _) in *.
  clearbody v' d1 v. rewrite <-Ev, <-E1. destruct (Z.of_nat (n + 2) =? 6) eqn:E6.
  - replace (n + 2)%nat with 6%nat in * by lia. change (2 ^ Z.of_nat 6) with 64 in *.
    rewrite (Z.mod_small v' 256) by lia.
    eexists _, 0%nat, _. split; [done|]. split_and!; [set_solver|lia|simpl; lia| |].
    + by repeat first [apply Forall_nil_2 | apply Forall_cons_2].
    + by rewrite bits_of_cons, bits_of_one, <-app_assoc, app_nil_r.
  - eexists _, (n + 2)%nat, _. split; [done|]. split_and!; [|lia|lia| |].
    + destruct Hn' as [-> | [-> | ->]]; [set_solver|set_solver|lia].
    + by repeat first [apply Forall_nil_2 | apply Forall_cons_2].
    + by rewrite bits_of_one.
Qed.

Lemma to_b64_loop_spec s : ∀ (n : nat) r,
  n ∈ [0; 2; 4]%nat → 0 <= r < 2 ^ Z.of_nat n →
  ∃ ds pad, to_b64_loop r (Z.of_nat n) s = (ds, pad) ∧
    Forall (λ d, 0 <= d < 64) ds ∧ (pad <= 2)%nat ∧
    bits_of 6 ds = to_bits n r ++ byte_bits s ++ replicate (2 * pad) false.
Proof.
  induction s as [|c s IH]; intros n r Hn Hr; cbn [to_b64_loop].
  - assert (n = 0 ∨ n = 2 ∨ n = 4)%nat as [-> | [-> | ->]] by set_solver; simpl (_ =? _).
    + exists [], 0%nat. split_and!; [done|constructor|lia|done].
    + destruct (acc_pad 6 2 r) as [Hd Ed]; [lia|done|]. change (Z.of_nat (6 - 2)) with 4 in *.
      eexists _, 2%nat. split_and!; [done| |lia|by rewrite bits_of_one, Ed].
      by repeat first [apply Forall_nil_2 | apply Forall_cons_2].
    + destruct (acc_pad 6 4 r) as [Hd Ed]; [lia|done|]. change (Z.of_nat (6 - 4)) with 2 in *.
      eexists _, 1%nat. split_and!; [done| |lia|by rewrite bits_of_one, Ed].
      by repeat first [apply Forall_nil_2 | apply Forall_cons_2].
  - destruct (to_b64_step_spec n r c) as (r' & n' & ds & -> & Hn' & Hr' & Hds & E); [done..|].
    destruct (IH n' r' Hn' Hr') as (ds' & pad & -> & HF & Hp & Ep).
    exists (ds ++ ds'), pad. split_and!; [done|by apply Forall_app|done|].
    rewrite bits_of_app, Ep, app_assoc, E, <-!app_assoc. done.
Qed.

Lemma from_b64_range c : 0 <= from_b64 c < 64.
Proof. assert ((0 <=? from_b64 c) && (from_b64 c <? 64) = true) by by_bytes c. lia. Qed.

(** The characters that carry bits. *)
Definition b64_data (s : bytes) : bytes := filter (λ c, c ≠ "="%byte) s.

Lemma from_b64_step_spec (n : nat) curr c :
  n ∈ [0; 2; 4; 6]%nat → 0 <= curr < 2 ^ Z.of_nat n → c ≠ "="%byte →
  ∃ curr' (n' : nat) out,
    from_b64_step curr (Z.of_nat n) c = (curr', Z.of_nat n', out) ∧
    n' ∈ [0; 2; 4; 6]%nat ∧ 0 <= curr' < 2 ^ Z.of_nat n' ∧
    byte_bits out ++ to_bits n' curr' = to_bits n curr ++ to_bits 6 (from_b64 c).
Proof.
  intros Hn Hr Hc. assert (n = 0 ∨ n = 2 ∨ n = 4 ∨ n = 6)%nat as Hn' by set_solver.
  destruct (acc_push n 6 curr (from_b64 c)) as [Hv Ev]; [lia|done|apply from_b64_range|].
  unfold from_b64_step. rewrite bool_decide_eq_false_2 by done.
  change (Z.shiftl curr 6) with (Z.shiftl curr (Z.of_nat 6)).
  set (v := fast16 _) in *. clearbody v. rewrite <-Ev. destruct (Z.of_nat n =? 0) eqn:E0.
  - replace n with 0%nat in * by lia.
    eexists _, 6%nat, _. split; [done|]. split_and!; [set_solver|lia|lia|done].
  - replace (n + 6)%nat with (8 + (n - 2))%nat in * by lia.
    destruct (acc_take 8 (n - 2) v) as (Hd & Hv' & E1); [lia|done|].
    replace (Z.of_nat n - 2) with (Z.of_nat (n - 2)) by lia.
    eexists _, (n - 2)%nat, _. split; [done|]. split_and!; [|lia|lia|].
    + destruct Hn' as [-> | [-> | [-> | ->]]]; set_solver.
    + unfold byte_bits. cbn [fmap list_fmap]. by rewrite bits_of_one, b2z_z2b, E1.
Qed.

Lemma from_b64_loop_spec s : ∀ (n : nat) curr,
  n ∈ [0; 2; 4; 6]%nat → 0 <= curr < 2 ^ Z.of_nat n →
  ∃ rest, (length rest < 8)%nat ∧
    byte_bits (from_b64_loop curr (Z.of_nat n) s) ++ rest
    = to_bits n curr ++ bits_of 6 (from_b64 <$> b64_data s).
Proof.
  induction s as [|c s IH]; intros n curr Hn Hc; cbn [from_b64_loop].
  - exists (to_bits n curr). rewrite length_to_bits. split; [set_solver by lia|].
    symmetry. apply app_nil_r.
  - unfold b64_data. rewrite filter_cons. destruct (decide (c ≠ "="%byte)) as [Hne|He].
    + destruct (from_b64_step_spec n curr c) as (c' & n' & out & -> & Hn' & Hc' & E); [done..|].
      destruct (IH n' c' Hn' Hc') as (rest & Hl & Er). exists rest. split; [done|].
      rewrite byte_bits_app, <-app_assoc, Er, app_assoc, E, fmap_cons, bits_of_cons.
      by rewrite <-app_assoc.
    + apply dec_stable in He as ->. unfold from_b64_step. rewrite bool_decide_eq_true_2 by done.
      apply (IH n curr Hn Hc).
Qed.

(** ** The codec against the bit-string reference *)
Lemma from_base64_bits s :
  ∃ rest, (length rest < 8)%nat ∧
    byte_bits (from_base64 s) ++ rest = bits_of 6 (from_b64 <$> b64_data s).
Proof. apply (from_b64_loop_spec s 0 0); [set_solver|simpl; lia]. Qed.

Lemma to_base64_bits s :
  Forall (λ d, 0 <= d < 64) (to_base64_digits s) ∧ (to_base64_padding s <= 2)%nat ∧
  bits_of 6 (to_base64_digits s)
  = byte_bits s ++ replicate (2 * to_base64_padding s) false.
Proof.
  unfold to_base64_digits, to_base64_padding.
  destruct (to_b64_loop_spec s 0 0) as (ds & pad & E & HF & Hp & Eb); [set_solver|simpl; lia|].
  change (Z.of_nat 0) with 0 in E. by rewrite E.
Qed.

Lemma from_to_b64 d :
  0 <= d < 64 →
  from_b64 (to_b64 d) = d ∧ is_b64_char (to_b64 d) = true ∧ to_b64 d ≠ "="%byte.
Proof.
  intros Hd. assert (forallb (λ d, (from_b64 (to_b64 d) =? d) && is_b64_char (to_b64 d)
      && negb (bool_decide (to_b64 d = "="%byte))) (seqZ 0 64) = true) as H
    by (vm_compute; reflexivity).
  rewrite forallb_forall in H.
  assert (In d (seqZ 0 64)) as Hin by (apply list_elem_of_In, elem_of_seqZ; lia).
  apply H in Hin as [[? ?]%andb_true_iff Hn]%andb_true_iff.
  apply negb_true_iff, bool_decide_eq_false in Hn. split_and!; [lia|done|done].
Qed.

Lemma b64_chars_spec ds :
  Forall (λ d, 0 <= d < 64) ds →
  from_b64 <$> (to_b64 <$> ds) = ds ∧ forallb is_b64_char (to_b64 <$> ds) = true ∧
  b64_data (to_b64 <$> ds) = to_b64 <$> ds.
Proof.
  intros H. unfold b64_data. induction H as [|d ds Hd H (IH1 & IH2 & IH3)]; [done|].
  destruct (from_to_b64 d Hd) as (E & Ec & En).
  rewrite !fmap_cons, filter_cons_True, E, IH1, IH3 by done. split_and!; [done| |done].
  cbn [forallb]. by rewrite Ec, IH2.
Qed.

Lemma b64_data_app a b : b64_data (a ++ b) = b64_data a ++ b64_data b.
Proof. apply filter_app. Qed.

Lemma b64_data_padding n : b64_data (replicate n "="%byte) = [].
Proof.
  unfold b64_data. induction n as [|n IH]; [done|].
  simpl replicate. rewrite filter_cons_False; [done|]. intros H. by apply H.
Qed.

(** The data characters of an encoding, with or without padding, decode back. *)
Lemma from_base64_digits s (p : nat) :
  from_base64 ((to_b64 <$> to_base64_digits s) ++ replicate p "="%byte) = s.
Proof.
  destruct (to_base64_bits s) as (HF & Hp & Eb).
  destruct (b64_chars_spec _ HF) as (E1 & _ & E3).
  destruct (from_base64_bits ((to_b64 <$> to_base64_digits s) ++ replicate p "="%byte))
    as (rest & Hr & Er).
  rewrite b64_data_app, b64_data_padding, app_nil_r, E3, E1, Eb in Er.
  eapply byte_bits_excess; [exact Er|done|]. rewrite length_replicate. lia.
Qed.

Lemma length_to_base64_digits s :
  (6 * length (to_base64_digits s) = 8 * length s + 2 * to_base64_padding s)%nat.
Proof.
  destruct (to_base64_bits s) as (_ & _ & Eb). apply (f_equal length) in Eb.
  by rewrite length_bits_of, length_app, length_byte_bits, length_replicate in Eb.
Qed.

Lemma length_to_base64 s : length (to_base64 s) = ((length s + 2) / 3 * 4)%nat.
Proof.
  pose proof (length_to_base64_digits s) as Hl. destruct (to_base64_bits s) as (_ & Hp & _).
  unfold to_base64. rewrite length_app, length_fmap, length_replicate.
  set (p := to_base64_padding s) in *. set (d := length (to_base64_digits s)) in *.
  assert ((length s + 2) / 3 = (d + p) / 4)%nat as ->.
  { symmetry. apply (Nat.div_unique _ _ _ (2 - p)); [lia|].
    assert (d + p = 4 * ((d + p) / 4))%nat as E.
    { assert (3 * (d + p) = 4 * (length s + p))%nat by lia.
      pose proof (Nat.div_mod_eq (d + p) 4). pose proof (Nat.mod_upper_bound (d + p) 4). lia. }
    lia. }
  assert (3 * (d + p) = 4 * (length s + p))%nat by lia.
  pose proof (Nat.div_mod_eq (d + p) 4). pose proof (Nat.mod_upper_bound (d + p) 4). lia.
Qed.

Lemma is_b64_char_not_pad c : is_b64_char c = true → c ≠ "="%byte.
Proof. intros H ->. discriminate H. Qed.

(** Appending the right number of ['='] to characters of the alphabet gives
    something [is_base64] strips back. *)
Lemma b64_strip_app cs (p : nat) :
  forallb is_b64_char cs = true → (p <= 2)%nat →
  (p = 0 ∨ (length cs + p) mod 4 = 0)%nat →
  b64_strip_padding (cs ++ replicate p "="%byte) = cs.
Proof.
  intros Hcs Hp Hm. rewrite forallb_forall in Hcs.
  assert (∀ i, cs !! i ≠ Some "="%byte) as Hne.
  { intros i Hi. apply list_elem_of_lookup_2, list_elem_of_In, Hcs in Hi. discriminate Hi. }
  unfold b64_strip_padding. rewrite length_app, length_replicate.
  destruct (decide (p = 0)%nat) as [->|Hp0].
  - simpl. rewrite app_nil_r, Nat.add_0_r.
    rewrite bool_decide_eq_false_2 by apply Hne. by destruct (_ && _).
  - destruct Hm as [|Hm]; [done|]. rewrite Hm. simpl (0 =? 0)%nat. rewrite andb_true_r.
    destruct (length cs + p =? 0)%nat eqn:E0; [lia|]. simpl negb. cbv iota.
    rewrite bool_decide_eq_true_2.
    2:{ rewrite lookup_app_r by lia. apply lookup_replicate_2. lia. }
    assert (p = 1 ∨ p = 2)%nat as [-> | ->] by lia.
    + replace (length cs + 1 - 2)%nat with (length cs - 1)%nat by lia.
      rewrite bool_decide_eq_false_2.
      * by rewrite Nat.add_sub, take_app_length.
      * destruct cs as [|c cs]; [done|]. rewrite lookup_app_l by (simpl; lia). apply Hne.
    + rewrite bool_decide_eq_true_2.
      * by rewrite Nat.add_sub, take_app_length.
      * rewrite lookup_app_r by lia. apply lookup_replicate_2. lia.
Qed.

Lemma is_base64_digits s (p : nat) :
  p = 0%nat ∨ p = to_base64_padding s →
  is_base64 ((to_b64 <$> to_base64_digits s) ++ replicate p "="%byte) = true.
Proof.
  intros Hp. destruct (to_base64_bits s) as (HF & Hpad & _).
  destruct (b64_chars_spec _ HF) as (_ & Hc & _).
  unfold is_base64. rewrite b64_strip_app; [done|done|lia|].
  destruct Hp as [-> | ->]; [by left|right].
  pose proof (length_to_base64 s) as Hl. unfold to_base64 in Hl.
  rewrite length_app, length_replicate in Hl. rewrite Hl. apply Nat.Div0.mod_mul.
Qed.

Lemma from_to_base64 s : from_base64 (to_base64 s) = s.
Proof. apply from_base64_digits. Qed.

Lemma is_base64_to_base64 s : is_base64 (to_base64 s) = true.
Proof. apply is_base64_digits. by right. Qed.

Lemma length_from_base64 s :
  length (from_base64 s) = (length (b64_data s) * 6 / 8)%nat.
Proof.
  destruct (from_base64_bits s) as (rest & Hr & Er). apply (f_equal length) in Er.
  rewrite length_app, length_byte_bits, length_bits_of, length_fmap in Er.
  apply (Nat.div_unique _ _ _ (length rest)); lia.
Qed.

Lemma from_base64_take_bits s :
  byte_bits (from_base64 s)
  = take (8 * (length (b64_data s) * 6 / 8)) (bits_of 6 (from_b64 <$> b64_data s)).
Proof.
  destruct (from_base64_bits s) as (rest & Hr & <-).
  assert (length (byte_bits (from_base64 s)) = 8 * (length (b64_data s) * 6 / 8))%nat as Hl
    by by rewrite length_byte_bits, length_from_base64.
  by rewrite take_app_le, take_ge by lia.
Qed.

(** ** Properties *)

(** Base64 decoding inverts encoding whether or not the padding is kept; the
    encoder indexes its 64-entry table in range and produces a multiple of four
    characters, [(n + 2) / 3 * 4] as reserved; [is_base64] accepts the encoding
    both padded and unpadded. *)
Theorem base64_roundtrip (s : bytes) :
  from_base64 (to_base64 s) = s ∧
  from_base64 (b64_strip_padding (to_base64 s)) = s ∧
  Forall (λ d, 0 <= d < Z.of_nat (length (to_b64_lut b64_lut))) (to_base64_digits s) ∧
  length (to_base64 s) = ((length s + 2) / 3 * 4)%nat ∧
  is_base64 (to_base64 s) = true ∧
  is_base64 (b64_strip_padding (to_base64 s)) = true.
Proof.
  destruct (to_base64_bits s) as (HF & Hp & _). destruct (b64_chars_spec _ HF) as (_ & Hc & _).
  assert (b64_strip_padding (to_base64 s) = (to_b64 <$> to_base64_digits s) ++ replicate 0 "="%byte) as ->.
  { rewrite app_nil_r. apply b64_strip_app; [done..|right].
    pose proof (length_to_base64 s) as Hl. unfold to_base64 in Hl.
    rewrite length_app, length_replicate in Hl. rewrite Hl. apply Nat.Div0.mod_mul. }
  split_and!; [apply from_to_base64|apply from_base64_digits|done|apply length_to_base64|..].
  - apply is_base64_to_base64.
  - apply is_base64_digits. by left.
Qed.

(** The base64 decoder computes the reference decoding: the leading whole
    bytes of the concatenated 6-bit digits, with padding characters and excess
    ("impossible") bits ignored. *)
Theorem base64_decode_reference (s : bytes) :
  length (from_base64 s) = (length (b64_data s) * 6 / 8)%nat ∧
  byte_bits (from_base64 s)
  = take (8 * (length (b64_data s) * 6 / 8)) (bits_of 6 (from_b64 <$> b64_data s)).
Proof. split; [apply length_from_base64|apply from_base64_take_bits]. Qed.

(** The examples of the comment above [from_base64]. *)
Example from_base64_excess :
  Forall (λ e, from_base64 (B e) = B "abcd") ["YWJjZA=="; "YWJjZB"; "YWJjZC"; "YWJjZP"]%string.
Proof. by repeat constructor. Qed.
