(* ===== verification/BtValue.v ===== *)
(** bt_value.h: the recursive bt-encoded value type, the C++ integer types it is
    converted to and from, and the [std::map] dictionary it contains. *)
From S2P Require Import Prelude.
Open Scope Z_scope.

(** ** Integer types

    A C++ integral type is its signedness and width; [bool] is the unsigned
    one-bit type ([numeric_limits<bool>::max()] is 1). *)
Record int_type : Type := IntType { it_signed : bool; it_bits : Z }.

Definition c_bool := IntType false 1.
Definition int8_t := IntType true 8.
Definition uint8_t := IntType false 8.
Definition uint16_t := IntType false 16.
Definition c_int := IntType true 32.
Definition uint32_t := IntType false 32.
Definition int64_t := IntType true 64.
Definition uint64_t := IntType false 64.

#[export] Instance int_type_eq_dec : EqDecision int_type.
Proof. solve_decision. Defined.

(** [std::numeric_limits<T>::max()] and [min()]. *)
Definition it_max (t : int_type) : Z :=
  if it_signed t then 2 ^ (it_bits t - 1) - 1 else 2 ^ it_bits t - 1.
Definition it_min (t : int_type) : Z :=
  if it_signed t then - 2 ^ (it_bits t - 1) else 0.

Definition it_range (t : int_type) (z : Z) : Prop := it_min t <= z <= it_max t.

(** [static_cast<T>(z)]: two's complement truncation. *)
Definition it_cast (t : int_type) (z : Z) : Z :=
  let u := z mod 2 ^ it_bits t in
  if it_signed t && (2 ^ (it_bits t - 1) <=? u) then u - 2 ^ it_bits t else u.

(** The types used by the library: between 1 and 64 bits. *)
Definition it_ok (t : int_type) : Prop := 1 <= it_bits t <= 64.

(** Unary minus on an [int64_t]: overflow is undefined. *)
Definition neg_int64 (z : Z) : outcome Z :=
  if z =? it_min int64_t then UB else Ok (- z).

Lemma it_cast_id t z : it_ok t → it_range t z → it_cast t z = z.
Proof.
  unfold it_ok, it_range, it_cast, it_min, it_max. destruct t as [sg w]; simpl. intros Hw Hz.
  assert (2 ^ w = 2 * 2 ^ (w - 1)) as Ew.
  { replace w with (Z.succ (w - 1)) at 1 by lia. apply Z.pow_succ_r. lia. }
  assert (0 < 2 ^ (w - 1)) by (apply Z.pow_pos_nonneg; lia).
  destruct sg; simpl.
  - destruct (decide (0 <= z)).
    + rewrite Z.mod_small by lia. destruct (2 ^ (w - 1) <=? z) eqn:E; lia.
    + rewrite <-(Z.mod_add z 1), Z.mod_small by lia.
      destruct (2 ^ (w - 1) <=? z + 1 * 2 ^ w) eqn:E; lia.
  - apply Z.mod_small. lia.
Qed.

(** ** Values *)

(** [bt_variant]: the alternatives in the source's order.  A [std::list] is a
    list; a [std::map<std::string, bt_value>] is its key-value pairs in
    iteration order, which [bt_wf] requires to be strictly increasing. *)
Inductive bt_value : Type :=
  | bt_string (s : bytes)
  | bt_string_view (s : bytes)
  | bt_int64 (z : Z)
  | bt_uint64 (z : Z)
  | bt_list (l : list bt_value)
  | bt_dict (d : list (bytes * bt_value)).

(** Induction through the nested lists. *)
Section bt_value_ind.
Variable P : bt_value → Prop.
Hypothesis Hstr : ∀ s, P (bt_string s).
Hypothesis Hview : ∀ s, P (bt_string_view s).
Hypothesis Hint : ∀ z, P (bt_int64 z).
Hypothesis Huint : ∀ z, P (bt_uint64 z).
Hypothesis Hlist : ∀ l, Forall P l → P (bt_list l).
Hypothesis Hdict : ∀ d, Forall (λ kv, P kv.2) d → P (bt_dict d).

Fixpoint bt_value_ind' (v : bt_value) : P v :=
  match v with
  | bt_string s => Hstr s
  | bt_string_view s => Hview s
  | bt_int64 z => Hint z
  | bt_uint64 z => Huint z
  | bt_list l => Hlist l ((fix go l := match l return Forall P l with
      | [] => Forall_nil_2 P
      | x :: l' => Forall_cons_2 P x l' (bt_value_ind' x) (go l')
      end) l)
  | bt_dict d => Hdict d ((fix go d := match d return Forall (λ kv, P kv.2) d with
      | [] => Forall_nil_2 _
      | x :: d' => Forall_cons_2 _ x d' (bt_value_ind' x.2) (go d')
      end) d)
  end.
End bt_value_ind.

(** The integer constructors of [bt_value]: any unsigned value is stored as
    [uint64_t], any signed one as [int64_t]. *)
Definition bt_of_int (t : int_type) (z : Z) : bt_value :=
  if it_signed t then bt_int64 (it_cast int64_t z) else bt_uint64 (it_cast uint64_t z).

(** [tuple_to_list]: a tuple becomes the list of its elements.  For the tuple without
    elements the initializer [{{}}] is a list of one default [bt_value], the empty
    string. *)
Definition tuple_to_list (elems : list bt_value) : bt_value :=
  bt_list (match elems with [] => [bt_string []] | _ => elems end).

(** ** [std::map<std::string, T>] *)
Section std_map.
Context {T : Type}.
Implicit Types d : list (bytes * T).

(** [dict.insert(dict.end(), {key, val})]: the hint does not change the result;
    an existing key keeps its value. *)
Fixpoint map_insert (k : bytes) (v : T) (d : list (bytes * T)) : list (bytes * T) :=
  match d with
  | [] => [(k, v)]
  | (k', v') :: d' =>
      if bytes_ltb k k' then (k, v) :: d
      else if bytes_ltb k' k then (k', v') :: map_insert k v d'
      else d
  end.

(** [dict[key] = v]: assignment through [operator[]] overwrites. *)
Fixpoint map_assign (k : bytes) (v : T) (d : list (bytes * T)) : list (bytes * T) :=
  match d with
  | [] => [(k, v)]
  | (k', v') :: d' =>
      if bytes_ltb k k' then (k, v) :: d
      else if bytes_ltb k' k then (k', v') :: map_assign k v d'
      else (k, v) :: d'
  end.

Fixpoint map_find (k : bytes) (d : list (bytes * T)) : option T :=
  match d with
  | [] => None
  | (k', v) :: d' => if bytes_eqb k' k then Some v else map_find k d'
  end.

(** Keys strictly increasing: the [std::map] representation invariant. *)
Fixpoint map_sorted (d : list (bytes * T)) : bool :=
  match d with
  | (k1, _) :: ((k2, _) :: _) as d' => bytes_ltb k1 k2 && map_sorted d'
  | _ => true
  end.

Definition key_below (k : bytes) (d : list (bytes * T)) : Prop :=
  Forall (λ kv, bytes_ltb k kv.1 = true) d.

Lemma map_sorted_cons k v d :
  map_sorted ((k, v) :: d) = true ↔ key_below k d ∧ map_sorted d = true.
Proof.
  revert k v. induction d as [|[k2 v2] d IH]; intros k v.
  - split; [split; [constructor|done]|done].
  - cbn [map_sorted]. rewrite andb_true_iff. specialize (IH k2 v2). unfold key_below in *.
    rewrite Forall_cons. simpl. split.
    + intros [H1 H2]. split; [split; [done|]|done]. apply IH in H2 as [H2 _].
      eapply Forall_impl; [exact H2|]. intros kv Hkv. by eapply bytes_ltb_trans.
    + intros [[H1 _] H2]. done.
Qed.

Lemma key_below_trans k k' d :
  bytes_ltb k k' = true → key_below k' d → key_below k d.
Proof. intros H Hd. eapply Forall_impl; [exact Hd|]. intros kv. by apply bytes_ltb_trans. Qed.

Lemma key_below_insert k k' v d :
  bytes_ltb k k' = true → key_below k d → key_below k (map_insert k' v d).
Proof.
  intros Hk Hd. induction Hd as [|[k2 v2] d H2 Hd IH]; simpl; [by repeat constructor|].
  repeat case_match; repeat (apply Forall_cons_2; [done|]); done.
Qed.

Lemma key_below_assign k k' v d :
  bytes_ltb k k' = true → key_below k d → key_below k (map_assign k' v d).
Proof.
  intros Hk Hd. induction Hd as [|[k2 v2] d H2 Hd IH]; simpl; [by repeat constructor|].
  repeat case_match; repeat (apply Forall_cons_2; [done|]); done.
Qed.

Lemma map_sorted_insert k v d : map_sorted d = true → map_sorted (map_insert k v d) = true.
Proof.
  induction d as [|[k2 v2] d IH]; [done|]. intros Hs. cbn [map_insert].
  destruct (bytes_ltb k k2) eqn:E1; [|destruct (bytes_ltb k2 k) eqn:E2; [|done]].
  - apply map_sorted_cons. split; [|done]. apply map_sorted_cons in Hs as [Hb _].
    apply Forall_cons_2; [done|]. by eapply key_below_trans.
  - apply map_sorted_cons in Hs as [Hb Hs]. apply map_sorted_cons.
    split; [by apply key_below_insert|by apply IH].
Qed.

Lemma map_sorted_assign k v d : map_sorted d = true → map_sorted (map_assign k v d) = true.
Proof.
  induction d as [|[k2 v2] d IH]; [done|]. intros Hs. cbn [map_assign].
  destruct (bytes_ltb k k2) eqn:E1; [|destruct (bytes_ltb k2 k) eqn:E2].
  - apply map_sorted_cons. split; [|done]. apply map_sorted_cons in Hs as [Hb _].
    apply Forall_cons_2; [done|]. by eapply key_below_trans.
  - apply map_sorted_cons in Hs as [Hb Hs]. apply map_sorted_cons.
    split; [by apply key_below_assign|by apply IH].
  - rewrite (bytes_ltb_total _ _ E1 E2). apply map_sorted_cons in Hs as [Hb Hs].
    by apply map_sorted_cons.
Qed.

(** Inserting in increasing order appends: rebuilding a map from its iteration
    order gives the map back. *)
Lemma map_insert_last k v d :
  Forall (λ kv, bytes_ltb kv.1 k = true) d → map_insert k v d = d ++ [(k, v)].
Proof.
  intros H. induction H as [|[k2 v2] d H2 H IH]; [done|]. simpl in *.
  destruct (bytes_ltb k k2) eqn:E.
  - pose proof (bytes_ltb_trans _ _ _ H2 E) as C. by rewrite bytes_ltb_irrefl in C.
  - by rewrite H2, IH.
Qed.

Lemma map_find_assign k k' v d :
  map_find k' (map_assign k v d) = if bytes_eqb k k' then Some v else map_find k' d.
Proof.
  induction d as [|[k2 v2] d IH]; [done|]. cbn [map_assign].
  destruct (bytes_ltb k k2) eqn:E1; [done|]. destruct (bytes_ltb k2 k) eqn:E2.
  - cbn [map_find]. rewrite IH. destruct (bytes_eqb k2 k') eqn:E3; [|done].
    apply bytes_eqb_eq in E3 as ->. destruct (bytes_eqb k k') eqn:E4; [|done].
    apply bytes_eqb_eq in E4 as ->. by rewrite bytes_ltb_irrefl in E2.
  - rewrite (bytes_ltb_total _ _ E1 E2). cbn [map_find]. by destruct (bytes_eqb k2 k').
Qed.

Lemma map_find_below k d : key_below k d → map_find k d = None.
Proof.
  intros H. induction H as [|[k2 v2] d H2 H IH]; [done|]. cbn [map_find].
  destruct (bytes_eqb k2 k) eqn:E; [|done]. apply bytes_eqb_eq in E as ->.
  simpl in H2. by rewrite bytes_ltb_irrefl in H2.
Qed.
End std_map.

(** ** Well-formed values and the normal form of decoding *)

(** What the C++ types guarantee of every [bt_value] at run time: sizes fit
    [size_t], integers their 64-bit alternative, and maps are sorted. *)
Fixpoint bt_wf (v : bt_value) : Prop :=
  match v with
  | bt_string s | bt_string_view s => Z.of_nat (length s) < 2 ^ 64
  | bt_int64 z => it_range int64_t z
  | bt_uint64 z => it_range uint64_t z
  | bt_list l => foldr (λ x P, bt_wf x ∧ P) True l
  | bt_dict d => map_sorted d = true ∧
      foldr (λ kv P, (Z.of_nat (length kv.1) < 2 ^ 64 ∧ bt_wf kv.2) ∧ P) True d
  end.

(** Decoding always yields owned strings, and [uint64_t] for every integer
    that is not negative. *)
Fixpoint bt_norm (v : bt_value) : bt_value :=
  match v with
  | bt_string s | bt_string_view s => bt_string s
  | bt_int64 z => if z <? 0 then bt_int64 z else bt_uint64 z
  | bt_uint64 z => bt_uint64 z
  | bt_list l => bt_list (bt_norm <$> l)
  | bt_dict d => bt_dict ((λ kv, (kv.1, bt_norm kv.2)) <$> d)
  end.

(** Some [int64_t] inside is the most negative one, whose negation overflows. *)
Fixpoint bt_no_int64_min (v : bt_value) : Prop :=
  match v with
  | bt_int64 z => z ≠ it_min int64_t
  | bt_list l => foldr (λ x P, bt_no_int64_min x ∧ P) True l
  | bt_dict d => foldr (λ kv P, bt_no_int64_min kv.2 ∧ P) True d
  | _ => True
  end.
