(* ===== verification/BtSerialize.v ===== *)
(** bt_serialize.h / bt_serialize.cpp: the serializers and deserializers, one
    definition per template specialization.  A deserializer is a computation on
    the [std::string_view& s] it advances; the view keeps what was removed from
    it when an exception is thrown. *)
From S2P Require Import Prelude BtValue.
Open Scope Z_scope.

(** ** Decimal output ([os << val], [std::to_string]) *)
Fixpoint dec_digits (fuel : nat) (n : Z) (acc : bytes) : bytes :=
  match fuel with
  | O => acc
  | S fuel' =>
      let acc := z2b (b2z "0"%byte + n mod 10) :: acc in
      if n <? 10 then acc else dec_digits fuel' (n / 10) acc
  end.

(** A number of [k] bits has at most [k] decimal digits, which bounds the fuel. *)
Definition print_nat (n : Z) : bytes := dec_digits (S (Z.to_nat (Z.log2 n))) n [].

Definition print_int (z : Z) : bytes :=
  if z <? 0 then "-"%byte :: print_nat (- z) else print_nat z.

(** ** Serialization *)
Definition bt_serialize_int (z : Z) : bytes := "i"%byte :: print_int z ++ ["e"%byte].

Definition bt_serialize_string (s : bytes) : bytes :=
  print_nat (Z.of_nat (length s)) ++ ":"%byte :: s.

Definition bt_serialize_list {T} (ser : T → bytes) (l : list T) : bytes :=
  "l"%byte :: concat (ser <$> l) ++ ["e"%byte].

(** The order [std::sort] is given: by key. *)
Definition pair_le {T} (a b : bytes * T) : Prop := bytes_le a.1 b.1.

#[export] Instance pair_le_dec {T} (a b : bytes * T) : Decision (pair_le a b).
Proof. unfold pair_le. apply _. Defined.

(** The pairs in the container's iteration order are sorted by key, then written.
    The values are encoded first and carried through the sort, which only looks
    at the keys. *)
Definition bt_serialize_dict {T} (ser : T → bytes) (dict : list (bytes * T)) : bytes :=
  let pairs := (λ kv, (kv.1, ser kv.2)) <$> dict in
  "d"%byte :: concat ((λ kv, bt_serialize_string kv.1 ++ kv.2) <$> merge_sort pair_le pairs)
  ++ ["e"%byte].

(** [bt_serialize<bt_value>]: visit the alternative held. *)
Fixpoint bt_serialize (v : bt_value) : bytes :=
  match v with
  | bt_string s => bt_serialize_string s
  | bt_string_view s => bt_serialize_string s
  | bt_int64 z => bt_serialize_int z
  | bt_uint64 z => bt_serialize_int z
  | bt_list l => bt_serialize_list bt_serialize l
  | bt_dict d => bt_serialize_dict bt_serialize d
  end.

(** ** Deserialization *)
Abbreviation parser := (M bytes).

(** The digit loop of [extract_unsigned]; [uint64_t] arithmetic wraps, and the
    digit is removed before the overflow test. *)
Fixpoint extract_unsigned_loop (uval : Z) (s : bytes) : outcome Z * bytes :=
  match s with
  | c :: s' =>
      if is_digit c then
        let bigger := (uval * 10 + (b2z c - b2z "0"%byte)) mod 2 ^ 64 in
        if bigger <? uval then (Throw bt_deserialize_invalid, s')
        else extract_unsigned_loop bigger s'
      else (Ok uval, s)
  | [] => (Ok uval, [])
  end.

Definition extract_unsigned : parser Z := λ s,
  match s with
  | [] => (Throw bt_deserialize_invalid, s)
  | c :: _ =>
      if negb (is_digit c) then (Throw bt_deserialize_invalid, s)
      else extract_unsigned_loop 0 s
  end.

(** The [':'] and the [len] bytes that follow a string's length. *)
Definition consume_string_body (len : Z) : parser bytes := λ s,
  match s with
  | c :: s' =>
      if negb (bool_decide (c = ":"%byte)) then (Throw bt_deserialize_invalid, s)
      else if Z.of_nat (length s') <? len then (Throw bt_deserialize_invalid, s')
      else (Ok (take (Z.to_nat len) s'), drop (Z.to_nat len) s')
  | [] => (Throw bt_deserialize_invalid, s)
  end.

(** [bt_deserialize<std::string_view>] (and [<std::string>], which copies it). *)
Definition bt_deserialize_string : parser bytes := λ s,
  match s with
  | c :: _ :: _ =>
      if negb (is_digit c) then (Throw bt_deserialize_invalid_type, s)
      else (extract_unsigned ≫= consume_string_body) s
  | _ => (Throw bt_deserialize_invalid, s)
  end.

(** [if (s[0] == '-')]: consume a minus sign, reporting whether there was one. *)
Definition consume_minus : parser bool := λ s,
  match s with
  | c :: s' => if bool_decide (c = "-"%byte) then (Ok true, s') else (Ok false, s)
  | [] => (UB, s)
  end.

(** The closing ['e'], then the check that a negative value fits [int64_t]. *)
Definition consume_integer_end (negative : bool) (magnitude : Z) : parser (Z * bool) := λ s,
  match s with
  | [] => (Throw bt_deserialize_invalid, s)
  | c :: s' =>
      if negb (bool_decide (c = "e"%byte)) then (Throw bt_deserialize_invalid, s)
      else if negative && (2 ^ 63 <? magnitude) then (Throw bt_deserialize_invalid, s')
      else (Ok (magnitude, negative), s')
  end.

(** The common part of integer decoding: magnitude and sign. *)
Definition bt_deserialize_integer : parser (Z * bool) := λ s,
  if (length s <? 3)%nat then (Throw bt_deserialize_invalid, s)
  else match s with
  | c :: s1 =>
      if negb (bool_decide (c = "i"%byte)) then (Throw bt_deserialize_invalid_type, s)
      else (negative ← consume_minus; magnitude ← extract_unsigned;
            consume_integer_end negative magnitude) s1
  | [] => (Throw bt_deserialize_invalid, s)
  end.

(** The range checks of [bt_deserialize<T>] for an integral [T]. *)
Definition bt_int_of_magnitude (t : int_type) (magnitude : Z) (negative : bool) : outcome Z :=
  let umax := it_cast uint64_t (it_max t) in
  let smin := it_cast int64_t (it_min t) in
  if it_signed t then
    if negb negative then
      if umax <? magnitude then Throw bt_deserialize_invalid
      else Ok (it_cast t magnitude)
    else
      sval ← neg_int64 (it_cast int64_t magnitude);
      if negb (bool_decide (t = int64_t)) && (sval <? smin) then Throw bt_deserialize_invalid
      else Ok (it_cast t sval)
  else
    if negative then Throw bt_deserialize_invalid
    else if negb (bool_decide (t = uint64_t)) && (umax <? magnitude)
         then Throw bt_deserialize_invalid
         else Ok (it_cast t magnitude).

Definition bt_deserialize_int (t : int_type) : parser Z :=
  '(magnitude, negative) ← bt_deserialize_integer;
  liftM (bt_int_of_magnitude t magnitude negative).

(** The element loop shared by lists and dicts:
    [while (!s.empty() && s[0] != 'e') body; if (s.empty()) throw; remove 'e']. *)
Fixpoint until_e {A} (fuel : nat) (body : A → parser A) (acc : A) : parser A :=
  match fuel with
  | O => λ s, (Diverge, s)
  | S fuel' => λ s,
      match s with
      | [] => (Throw bt_deserialize_invalid, s)
      | c :: s' =>
          if bool_decide (c = "e"%byte) then (Ok acc, s')
          else (acc' ← body acc; until_e fuel' body acc') s
      end
  end.

(** Every element consumes at least one byte, so the input's length bounds the
    number of iterations. *)
Definition bt_container {A} (open : byte) (body : A → parser A) (empty : A) : parser A := λ s,
  match s with
  | c :: ((_ :: _) as s') =>
      if negb (bool_decide (c = open)) then (Throw bt_deserialize_invalid_type, s)
      else until_e (length s) body empty s'
  | _ => (Throw bt_deserialize_invalid, s)
  end.

Definition bt_deserialize_list {T} (deser : parser T) : parser (list T) :=
  bt_container "l"%byte (λ acc, v ← deser; mret (acc ++ [v])) [].

Definition bt_deserialize_dict {T} (deser : parser T) : parser (list (bytes * T)) :=
  bt_container "d"%byte
    (λ acc, k ← bt_deserialize_string; v ← deser; mret (map_insert k v acc)) [].

(** [bt_deserialize<bt_value>]: dispatch on the first byte. *)
Definition bt_value_body (rec : parser bt_value) : parser bt_value := λ s,
  match s with
  | c :: _ :: _ =>
      if bool_decide (c = "d"%byte) then (d ← bt_deserialize_dict rec; mret (bt_dict d)) s
      else if bool_decide (c = "l"%byte) then (l ← bt_deserialize_list rec; mret (bt_list l)) s
      else if bool_decide (c = "i"%byte) then
        ('(magnitude, negative) ← bt_deserialize_integer;
         if (negative : bool) then z ← liftM (neg_int64 (it_cast int64_t magnitude)); mret (bt_int64 z)
         else mret (bt_uint64 magnitude)) s
      else if is_digit c then (x ← bt_deserialize_string; mret (bt_string x)) s
      else (Throw bt_deserialize_invalid, s)
  | _ => (Throw bt_deserialize_invalid, s)
  end.

Fixpoint bt_deserialize_fuel (depth : nat) : parser bt_value :=
  match depth with
  | O => λ s, (Diverge, s)
  | S depth' => bt_value_body (bt_deserialize_fuel depth')
  end.

(** Nesting consumes a byte per level, so the input's length bounds the depth. *)
Definition bt_deserialize_value : parser bt_value := λ s,
  bt_deserialize_fuel (S (length s)) s.

(** [bt_get(s)]: the view is passed by value, so what follows is ignored. *)
Definition bt_get (s : bytes) : outcome bt_value := (bt_deserialize_value s).1.

(** ** Tuples

    The elements of a [std::tuple] or [std::pair] are written in order between
    ['l'] and ['e']; a codec of the element sequence is built from the
    element types' codecs. *)
Record bt_codec (T : Type) : Type := BtCodec {
  bt_ser : T → bytes;
  bt_deser : parser T
}.
Arguments BtCodec {T} _ _.
Arguments bt_ser {T} _ _.
Arguments bt_deser {T} _ _.

Record bt_elems (T : Type) : Type := BtElems {
  elems_ser : T → bytes;
  elems_deser : parser T
}.
Arguments BtElems {T} _ _.
Arguments elems_ser {T} _ _.
Arguments elems_deser {T} _ _.

Definition elems_nil : bt_elems unit := BtElems (λ _, []) (mret tt).

Definition elems_cons {A C} (a : bt_codec A) (r : bt_elems C) : bt_elems (A * C) :=
  BtElems (λ x, bt_ser a x.1 ++ elems_ser r x.2)
          (x ← bt_deser a; y ← elems_deser r; mret (x, y)).

Definition bt_serialize_tuple {T} (es : bt_elems T) (x : T) : bytes :=
  "l"%byte :: elems_ser es x ++ ["e"%byte].

(** The element count is fixed, so anything but ['e'] here is an error. *)
Definition consume_tuple_end {T} (x : T) : parser T := λ s,
  match s with
  | [] => (Throw bt_deserialize_invalid, s)
  | c :: s' =>
      if negb (bool_decide (c = "e"%byte)) then (Throw bt_deserialize_invalid, s)
      else (Ok x, s')
  end.

Definition bt_deserialize_tuple {T} (es : bt_elems T) : parser T := λ s,
  match s with
  | c :: ((_ :: _) as s') =>
      if negb (bool_decide (c = "l"%byte)) then (Throw bt_deserialize_invalid_type, s)
      else (elems_deser es ≫= consume_tuple_end) s'
  | _ => (Throw bt_deserialize_invalid, s)
  end.

Definition int_codec (t : int_type) : bt_codec Z :=
  BtCodec bt_serialize_int (bt_deserialize_int t).
Definition string_codec : bt_codec bytes :=
  BtCodec bt_serialize_string bt_deserialize_string.
Definition list_codec {T} (c : bt_codec T) : bt_codec (list T) :=
  BtCodec (bt_serialize_list (bt_ser c)) (bt_deserialize_list (bt_deser c)).
Definition dict_codec {T} (c : bt_codec T) : bt_codec (list (bytes * T)) :=
  BtCodec (bt_serialize_dict (bt_ser c)) (bt_deserialize_dict (bt_deser c)).
Definition tuple_codec {T} (es : bt_elems T) : bt_codec T :=
  BtCodec (bt_serialize_tuple es) (bt_deserialize_tuple es).
Definition value_codec : bt_codec bt_value :=
  BtCodec bt_serialize bt_deserialize_value.
