(* ===== verification/BtCodec.v ===== *)
(** The laws of the bt codecs: a type class states what a codec promises
    (decoding inverts encoding and leaves exactly what follows; decoding consumes
    input and ends), instances prove it for every template specialization of
    bt_serialize.h. *)
From S2P Require Import Prelude BtValue BtSerialize.
Open Scope Z_scope.

(** What a container relies on of its element codec.  [valid] delimits the values
    the round trip covers, [norm] is the representation decoding chooses. *)
Class BtCodecOk {T} (c : bt_codec T) (valid : T → Prop) (norm : T → T) : Prop := {
  codec_roundtrip v rest :
    valid v → bt_deser c (bt_ser c v ++ rest) = (Ok (norm v), rest);
  codec_head v :
    valid v → ∃ x y r, bt_ser c v = x :: y :: r ∧ x ≠ "e"%byte;
  codec_consumes s v s' :
    bt_deser c s = (Ok v, s') → ∃ used, used ≠ [] ∧ s = used ++ s';
  codec_terminates s : (bt_deser c s).1 ≠ Diverge
}.

(** ** Decimal numbers *)
Definition dec_value (v : Z) (ds : bytes) : Z :=
  foldl (λ v c, v * 10 + (b2z c - b2z "0"%byte)) v ds.

Abbreviation digits := (Forall (λ c, is_digit c = true)).

Lemma is_digit_range c : is_digit c = true → 0 <= b2z c - b2z "0"%byte <= 9.
Proof. unfold is_digit. change (b2z "0"%byte) with 48. change (b2z "9"%byte) with 57. lia. Qed.

Lemma is_digit_char d :
  0 <= d < 10 →
  is_digit (z2b (b2z "0"%byte + d)) = true ∧ b2z (z2b (b2z "0"%byte + d)) - b2z "0"%byte = d.
Proof.
  intros Hd. unfold is_digit. change (b2z "0"%byte) with 48. change (b2z "9"%byte) with 57.
  rewrite b2z_z2b_small by lia. lia.
Qed.

Lemma dec_value_app v a b : dec_value v (a ++ b) = dec_value (dec_value v a) b.
Proof. unfold dec_value. by rewrite foldl_app. Qed.

Lemma dec_value_one v c : dec_value v [c] = v * 10 + (b2z c - b2z "0"%byte).
Proof. done. Qed.

Lemma dec_digits_spec fuel n acc :
  (0 < fuel)%nat → 0 <= n < 10 ^ Z.of_nat fuel →
  ∃ ds, dec_digits fuel n acc = ds ++ acc ∧ ds ≠ [] ∧ digits ds ∧ dec_value 0 ds = n.
Proof.
  revert n acc. induction fuel as [|fuel IH]; [lia|]. intros n acc _ Hn. cbn [dec_digits].
  destruct (is_digit_char (n mod 10)) as [Hdig Hval]; [apply Z.mod_pos_bound; lia|].
  destruct (n <? 10) eqn:E.
  - exists [z2b (b2z "0"%byte + n mod 10)]. split_and!; [done|done|by repeat constructor|].
    rewrite dec_value_one, Hval, Z.mod_small; lia.
  - rewrite Nat2Z.inj_succ, Z.pow_succ_r in Hn by lia.
    destruct (IH (n / 10) (z2b (b2z "0"%byte + n mod 10) :: acc)) as (ds & Eds & Hne & Hds & Hv).
    + destruct fuel; [|lia]. simpl in Hn. lia.
    + split; [apply Z.div_pos; lia|apply Z.div_lt_upper_bound; lia].
    + exists (ds ++ [z2b (b2z "0"%byte + n mod 10)]). rewrite Eds, <-app_assoc.
      split_and!; [done|by destruct ds|apply Forall_app; split; [done|by repeat constructor]|].
      rewrite dec_value_app, Hv, dec_value_one, Hval. pose proof (Z.div_mod n 10). lia.
Qed.

Lemma print_nat_spec n :
  0 <= n → print_nat n ≠ [] ∧ digits (print_nat n) ∧ dec_value 0 (print_nat n) = n.
Proof.
  intros Hn. unfold print_nat.
  destruct (dec_digits_spec (S (Z.to_nat (Z.log2 n))) n []) as (ds & E & ? & ? & ?); [lia| |].
  - split; [done|]. rewrite Nat2Z.inj_succ, Z2Nat.id by apply Z.log2_nonneg.
    apply Z.lt_le_trans with (2 ^ Z.succ (Z.log2 n)).
    + destruct (decide (n = 0)) as [->|]; [done|]. apply Z.log2_spec. lia.
    + apply Z.pow_le_mono_l. lia.
  - rewrite E, app_nil_r. done.
Qed.

Lemma print_nat_inj n m : 0 <= n → 0 <= m → print_nat n = print_nat m → n = m.
Proof.
  intros Hn Hm E. destruct (print_nat_spec n Hn) as (_ & _ & <-), (print_nat_spec m Hm) as (_ & _ & <-). by rewrite E.
Qed.

(** The sign and the digits determine the integer. *)
Lemma print_int_inj n m : print_int n = print_int m → n = m.
Proof.
  unfold print_int. destruct (n <? 0) eqn:En, (m <? 0) eqn:Em.
  - intros [= E%print_nat_inj]; lia.
  - destruct (print_nat_spec m) as (_ & Hd & _); [lia|]. intros E. rewrite <-E in Hd. by apply Forall_cons in Hd as [Hd _].
  - destruct (print_nat_spec n) as (_ & Hd & _); [lia|]. intros E. rewrite E in Hd. by apply Forall_cons in Hd as [Hd _].
  - intros E%print_nat_inj; lia.
Qed.

(** ** [extract_unsigned] *)
Definition no_digit_head (s : bytes) : Prop :=
  match s with [] => True | c :: _ => is_digit c = false end.

Lemma dec_value_ge v ds : 0 <= v → digits ds → v <= dec_value v ds.
Proof.
  intros Hv Hds. revert v Hv. induction Hds as [|c ds Hc _ IH]; intros v Hv; [done|].
  cbn [dec_value foldl]. apply is_digit_range in Hc.
  etrans; [|apply IH]; lia.
Qed.

(** Below 2^64 nothing wraps and the digits are read back as their value. *)
Lemma extract_unsigned_loop_spec ds v rest :
  0 <= v → digits ds → dec_value v ds < 2 ^ 64 → no_digit_head rest →
  extract_unsigned_loop v (ds ++ rest) = (Ok (dec_value v ds), rest).
Proof.
  intros Hv Hds. revert v Hv. induction Hds as [|c ds Hc Hds IH]; intros v Hv Hlt Hrest.
  - destruct rest as [|c rest]; [done|]. simpl in *. by rewrite Hrest.
  - cbn [app extract_unsigned_loop]. rewrite Hc. pose proof (is_digit_range c Hc) as Hr.
    cbn [dec_value foldl] in *.
    assert (v * 10 + (b2z c - b2z "0"%byte) <= dec_value (v * 10 + (b2z c - b2z "0"%byte)) ds)
      as Hge by (apply dec_value_ge; [lia|done]).
    unfold dec_value in Hge. rewrite Z.mod_small by lia.
    destruct (_ <? v) eqn:E; [lia|]. apply IH; [lia|done|done].
Qed.

Lemma extract_unsigned_spec n rest :
  0 <= n < 2 ^ 64 → no_digit_head rest →
  extract_unsigned (print_nat n ++ rest) = (Ok n, rest).
Proof.
  intros Hn Hrest. destruct (print_nat_spec n) as (Hne & Hds & Hv); [lia|].
  assert (extract_unsigned (print_nat n ++ rest) = extract_unsigned_loop 0 (print_nat n ++ rest)) as ->.
  { unfold extract_unsigned. destruct (print_nat n) as [|c ds]; [done|].
    apply Forall_cons in Hds as [Hc _]. simpl. by rewrite Hc. }
  rewrite extract_unsigned_loop_spec; rewrite ?Hv; done || lia.
Qed.

(** ** Framing: what a parser leaves is a suffix of what it was given *)
Definition shrinks {A} (p : parser A) : Prop :=
  ∀ s a s', p s = (Ok a, s') → ∃ used, s = used ++ s'.
Definition consumes {A} (p : parser A) : Prop :=
  ∀ s a s', p s = (Ok a, s') → ∃ used, used ≠ [] ∧ s = used ++ s'.

(** [ends k p]: on inputs shorter than [k], [p] never runs out of fuel. *)
Definition ends {A} (k : nat) (p : parser A) : Prop :=
  ∀ s, (length s < k)%nat → (p s).1 ≠ Diverge.

Lemma consumes_shrinks {A} (p : parser A) : consumes p → shrinks p.
Proof. intros H s a s' E. destruct (H s a s' E) as (u & _ & ?). by exists u. Qed.

Lemma shrinks_bind {A C} (p : parser A) (f : A → parser C) :
  shrinks p → (∀ a, shrinks (f a)) → shrinks (p ≫= f).
Proof.
  intros Hp Hf s c s' E. inv_bind. apply Hp in E0 as (u1 & ->). apply Hf in E as (u2 & ->).
  exists (u1 ++ u2). by rewrite app_assoc.
Qed.

Lemma consumes_bind_l {A C} (p : parser A) (f : A → parser C) :
  consumes p → (∀ a, shrinks (f a)) → consumes (p ≫= f).
Proof.
  intros Hp Hf s c s' E. inv_bind. apply Hp in E0 as (u1 & Hne & ->). apply Hf in E as (u2 & ->).
  exists (u1 ++ u2). rewrite app_assoc. split; [by destruct u1|done].
Qed.

Lemma shrinks_ret {A} (a : A) : shrinks (mret a).
Proof. intros s a' s' [= <- <-]. by exists []. Qed.

Lemma shrinks_lift {A} (o : outcome A) : shrinks (liftM o).
Proof. intros s a' s' [= -> <-]. by exists []. Qed.

Lemma consumes_bind_r {A C} (p : parser A) (f : A → parser C) :
  shrinks p → (∀ a, consumes (f a)) → consumes (p ≫= f).
Proof.
  intros Hp Hf s c s' E. inv_bind. apply Hp in E0 as (u1 & ->). apply Hf in E as (u2 & Hne & ->).
  exists (u1 ++ u2). rewrite app_assoc. split; [|done]. by intros [_ ?]%app_eq_nil.
Qed.

Lemma ends_bind {A C} k (p : parser A) (f : A → parser C) :
  ends k p → shrinks p → (∀ a, ends k (f a)) → ends k (p ≫= f).
Proof.
  intros Hp Hsh Hf s Hs. specialize (Hp s Hs). unfold mbind, M_bind.
  destruct (p s) as [[a|e| |] s1] eqn:E; simpl in *; try done.
  apply Hf. apply Hsh in E as (u & ->). rewrite length_app in Hs. lia.
Qed.

Lemma ends_ret {A} k (a : A) : ends k (mret a).
Proof. by intros s. Qed.

Lemma extract_unsigned_loop_shrinks s v a s' :
  extract_unsigned_loop v s = (Ok a, s') → ∃ used, s = used ++ s'.
Proof.
  revert v. induction s as [|c s IH]; intros v; cbn [extract_unsigned_loop].
  - intros [= <- <-]. by exists [].
  - destruct (is_digit c); [|intros [= <- <-]; by exists []].
    destruct (_ <? v); [done|]. intros (u & ->)%IH. by exists (c :: u).
Qed.

Lemma extract_unsigned_shrinks : shrinks extract_unsigned.
Proof.
  intros s a s'. unfold extract_unsigned. destruct s as [|c s]; [done|].
  destruct (negb (is_digit c)); [done|]. apply extract_unsigned_loop_shrinks.
Qed.

Lemma extract_unsigned_loop_terminates s v : (extract_unsigned_loop v s).1 ≠ Diverge.
Proof. revert v. induction s as [|c s IH]; intros v; simpl; [done|]. by repeat case_match. Qed.

Lemma extract_unsigned_ends k : ends k extract_unsigned.
Proof.
  intros [|c s] _; [done|]. unfold extract_unsigned. destruct (negb (is_digit c)); [done|].
  apply extract_unsigned_loop_terminates.
Qed.

Lemma consume_string_body_consumes len : consumes (consume_string_body len).
Proof.
  intros [|c s] a s'; [done|]. cbn. destruct (negb _); [done|]. destruct (_ <? len); [done|].
  intros [= <- <-]. exists (c :: take (Z.to_nat len) s). split; [done|]. simpl.
  by rewrite take_drop.
Qed.

Lemma consume_string_body_ends k len : ends k (consume_string_body len).
Proof. intros [|c s] _; cbn; by repeat case_match. Qed.

Lemma consume_minus_shrinks : shrinks consume_minus.
Proof.
  intros [|c s] a s'; [done|]. cbn. case_bool_decide; intros [= <- <-]; [by exists [c]|by exists []].
Qed.

Lemma consume_minus_ends k : ends k consume_minus.
Proof. intros [|c s] _; cbn; [done|]. by case_bool_decide. Qed.

Lemma consume_integer_end_consumes n m : consumes (consume_integer_end n m).
Proof.
  intros [|c s] a s'; [done|]. cbn. destruct (negb _); [done|]. destruct (_ && _); [done|].
  intros [= <- <-]. by exists [c].
Qed.

Lemma consume_integer_end_ends k n m : ends k (consume_integer_end n m).
Proof. intros [|c s] _; cbn; by repeat case_match. Qed.

Lemma consume_tuple_end_consumes {T} (x : T) : consumes (consume_tuple_end x).
Proof.
  intros [|c s] a s'; [done|]. cbn. destruct (negb _); [done|]. intros [= <- <-]. by exists [c].
Qed.

Lemma consume_tuple_end_ends {T} k (x : T) : ends k (consume_tuple_end x).
Proof. intros [|c s] _; cbn; by repeat case_match. Qed.

Create HintDb parser.
#[export] Hint Resolve shrinks_bind consumes_bind_l shrinks_ret shrinks_lift consumes_shrinks
  ends_bind ends_ret extract_unsigned_shrinks extract_unsigned_ends
  consume_string_body_consumes consume_string_body_ends consume_minus_shrinks consume_minus_ends
  consume_integer_end_consumes consume_integer_end_ends
  consume_tuple_end_consumes consume_tuple_end_ends : parser.

(** ** Strings *)
Lemma bt_deserialize_string_consumes : consumes bt_deserialize_string.
Proof.
  intros s a s'. unfold bt_deserialize_string.
  destruct s as [|c [|c2 s]]; [done..|]. destruct (negb (is_digit c)); [done|].
  apply consumes_bind_r; eauto with parser.
Qed.

Lemma bt_deserialize_string_ends k : ends k bt_deserialize_string.
Proof.
  intros s Hs. unfold bt_deserialize_string.
  destruct s as [|c [|c2 s]]; [done..|]. destruct (negb (is_digit c)); [done|].
  eapply (ends_bind k); eauto with parser.
Qed.

(** A string's encoding starts with a digit and has at least two bytes. *)
Lemma bt_serialize_string_head s :
  ∃ x y r, bt_serialize_string s = x :: y :: r ∧ is_digit x = true.
Proof.
  unfold bt_serialize_string.
  destruct (print_nat_spec (Z.of_nat (length s))) as (Hne & Hds & _); [lia|].
  destruct (print_nat _) as [|c ds]; [done|]. apply Forall_cons in Hds as [Hc _].
  destruct ds as [|c2 ds]; simpl; eauto.
Qed.

Lemma bt_deserialize_serialize_string s rest :
  Z.of_nat (length s) < 2 ^ 64 →
  bt_deserialize_string (bt_serialize_string s ++ rest) = (Ok s, rest).
Proof.
  intros Hs. destruct (bt_serialize_string_head s) as (x & y & r & E & Hx).
  assert (bt_deserialize_string (bt_serialize_string s ++ rest)
          = (extract_unsigned ≫= consume_string_body) (bt_serialize_string s ++ rest)) as ->.
  { rewrite E. cbn. by rewrite Hx. }
  unfold bt_serialize_string. rewrite <-app_assoc. cbn [app].
  erewrite bind_Ok by (apply extract_unsigned_spec; [lia|done]).
  unfold consume_string_body. rewrite bool_decide_eq_true_2 by done. simpl negb. cbv iota.
  rewrite length_app. destruct (_ <? _) eqn:E2; [lia|].
  by rewrite Nat2Z.id, take_app_length, drop_app_length.
Qed.

Lemma digit_not_e x : is_digit x = true → x ≠ "e"%byte.
Proof. intros H ->. discriminate H. Qed.

#[export] Instance string_codec_ok :
  BtCodecOk string_codec (λ s, Z.of_nat (length s) < 2 ^ 64) id.
Proof.
  split; cbn.
  - intros v rest. apply bt_deserialize_serialize_string.
  - intros v _. destruct (bt_serialize_string_head v) as (x & y & r & E & Hx).
    exists x, y, r. split; [done|by apply digit_not_e].
  - apply bt_deserialize_string_consumes.
  - intros s. apply (bt_deserialize_string_ends (S (length s))). lia.
Qed.

(** ** Integers *)
Lemma bt_deserialize_integer_consumes : consumes bt_deserialize_integer.
Proof.
  intros s a s'. unfold bt_deserialize_integer. destruct (_ <? 3)%nat; [done|].
  destruct s as [|c s]; [done|]. destruct (negb _); [done|]. intros E.
  assert (shrinks (negative ← consume_minus; magnitude ← extract_unsigned;
            consume_integer_end negative magnitude)) as Hsh by (repeat eauto with parser).
  apply Hsh in E as (u & ->). by exists (c :: u).
Qed.

Lemma bt_deserialize_integer_ends k : ends k bt_deserialize_integer.
Proof.
  intros s Hs. unfold bt_deserialize_integer. destruct (_ <? 3)%nat; [done|].
  destruct s as [|c s]; [done|]. destruct (negb _); [done|].
  apply (ends_bind k); [by eauto with parser..| |simpl in Hs; lia].
  intros a. apply ends_bind; eauto with parser.
Qed.

Lemma bt_serialize_int_head z : ∃ y r, bt_serialize_int z = "i"%byte :: y :: r.
Proof. unfold bt_serialize_int. destruct (print_int z); simpl; eauto. Qed.

Lemma consume_minus_digits ds rest :
  ds ≠ [] → digits ds → consume_minus (ds ++ rest) = (Ok false, ds ++ rest).
Proof.
  intros Hne Hds. destruct ds as [|c ds]; [done|]. apply Forall_cons in Hds as [Hc _].
  cbn. rewrite bool_decide_eq_false_2; [done|]. intros ->. discriminate Hc.
Qed.

(** Magnitude and sign are read back for every value of either 64-bit type. *)
Lemma bt_deserialize_integer_spec z rest :
  - 2 ^ 63 <= z < 2 ^ 64 →
  bt_deserialize_integer (bt_serialize_int z ++ rest) = (Ok (Z.abs z, z <? 0), rest).
Proof.
  intros Hz. unfold bt_serialize_int, bt_deserialize_integer.
  destruct (print_nat_spec (Z.abs z)) as (Hne & Hds & _); [lia|].
  assert (print_int z ≠ []) as Hpne.
  { unfold print_int. destruct (z <? 0) eqn:E; [done|].
    by rewrite Z.abs_eq in Hne by lia. }
  cbn [app]. destruct (_ <? 3)%nat eqn:El.
  { rewrite <-app_assoc in El. cbn [length] in El. rewrite !length_app in El. simpl in El.
    destruct (print_int z); simpl in *; [done|lia]. }
  rewrite bool_decide_eq_true_2 by done. simpl negb. cbv iota. rewrite <-app_assoc. cbn [app].
  assert (consume_minus (print_int z ++ "e"%byte :: rest)
          = (Ok (z <? 0), print_nat (Z.abs z) ++ "e"%byte :: rest)) as Hm.
  { unfold print_int. destruct (z <? 0) eqn:E.
    - cbn. by rewrite Z.abs_neq by lia.
    - rewrite Z.abs_eq in * by lia. by apply consume_minus_digits. }
  rewrite (bind_Ok _ _ _ _ _ Hm).
  erewrite bind_Ok by (apply extract_unsigned_spec; [lia|done]).
  unfold consume_integer_end. rewrite bool_decide_eq_true_2 by done. simpl negb. cbv iota.
  destruct (_ && _) eqn:E; [lia|done].
Qed.

Lemma it_max_le t : it_ok t → 0 <= it_max t < 2 ^ 64.
Proof.
  unfold it_ok, it_max. destruct t as [sg w]; simpl. intros Hw.
  assert (0 < 2 ^ (w - 1)) by (apply Z.pow_pos_nonneg; lia).
  assert (2 ^ (w - 1) <= 2 ^ 63) by (apply Z.pow_le_mono_r; lia).
  assert (0 < 2 ^ w) by (apply Z.pow_pos_nonneg; lia).
  assert (2 ^ w <= 2 ^ 64) by (apply Z.pow_le_mono_r; lia).
  destruct sg; lia.
Qed.

Lemma it_min_ge t : it_ok t → - 2 ^ 63 <= it_min t <= 0.
Proof.
  unfold it_ok, it_min. destruct t as [sg w]; simpl. intros Hw.
  assert (0 < 2 ^ (w - 1)) by (apply Z.pow_pos_nonneg; lia).
  assert (2 ^ (w - 1) <= 2 ^ 63) by (apply Z.pow_le_mono_r; lia).
  destruct sg; lia.
Qed.

Lemma it_cast_int64 z : - 2 ^ 63 <= z < 2 ^ 63 → it_cast int64_t z = z.
Proof. intros. apply it_cast_id; unfold it_ok, it_range, it_min, it_max; simpl; lia. Qed.

Lemma it_cast_uint64 z : 0 <= z < 2 ^ 64 → it_cast uint64_t z = z.
Proof. intros. apply it_cast_id; unfold it_ok, it_range, it_min, it_max; simpl; lia. Qed.

Lemma neg_int64_spec z : - 2 ^ 63 < z < 0 → neg_int64 (it_cast int64_t (Z.abs z)) = Ok z.
Proof.
  intros Hz. rewrite it_cast_int64 by lia. unfold neg_int64.
  change (it_min int64_t) with (- 2 ^ 63). destruct (_ =? _) eqn:E; [lia|]. f_equal. lia.
Qed.

(** In range the checks pass and the casts change nothing. *)
Lemma bt_int_of_magnitude_ok t z :
  it_ok t → it_range t z → z ≠ it_min int64_t →
  bt_int_of_magnitude t (Z.abs z) (z <? 0) = Ok z.
Proof.
  intros Ht Hr Hmin. pose proof (it_max_le t Ht). pose proof (it_min_ge t Ht).
  change (it_min int64_t) with (- 2 ^ 63) in Hmin. unfold it_range in Hr.
  unfold bt_int_of_magnitude. rewrite it_cast_uint64, it_cast_int64 by lia.
  destruct (z <? 0) eqn:E; simpl negb; cbv iota.
  - destruct (it_signed t) eqn:Es; [|unfold it_min in Hr; rewrite Es in Hr; lia].
    rewrite neg_int64_spec by lia. cbn.
    destruct (z <? it_min t) eqn:E2; [lia|]. rewrite andb_false_r.
    by rewrite it_cast_id by done.
  - rewrite Z.abs_eq by lia. destruct (it_max t <? z) eqn:E2; [lia|].
    rewrite andb_false_r, it_cast_id by done. by destruct (it_signed t).
Qed.

Lemma it_range_64 t z : it_ok t → it_range t z → - 2 ^ 63 <= z < 2 ^ 64.
Proof.
  intros Ht Hr. pose proof (it_max_le t Ht). pose proof (it_min_ge t Ht). unfold it_range in Hr. lia.
Qed.

Lemma bt_int_of_magnitude_ends t m n : bt_int_of_magnitude t m n ≠ Diverge.
Proof.
  unfold bt_int_of_magnitude, neg_int64, mbind, outcome_bind. cbv zeta.
  by repeat first [progress case_match|progress simplify_eq].
Qed.

#[export] Instance int_codec_ok t :
  it_ok t → BtCodecOk (int_codec t) (λ z, it_range t z ∧ z ≠ it_min int64_t) id.
Proof.
  intros Ht. split; cbn.
  - intros z rest [Hr Hm]. unfold bt_deserialize_int.
    erewrite bind_Ok by (apply bt_deserialize_integer_spec; by eapply it_range_64).
    unfold liftM. by rewrite bt_int_of_magnitude_ok.
  - intros z _. destruct (bt_serialize_int_head z) as (y & r & E). by exists "i"%byte, y, r.
  - unfold bt_deserialize_int. apply consumes_bind_l; [apply bt_deserialize_integer_consumes|].
    intros [m n]. apply shrinks_lift.
  - intros s. unfold bt_deserialize_int, mbind, M_bind.
    pose proof (bt_deserialize_integer_ends (S (length s)) s ltac:(lia)) as He.
    destruct (bt_deserialize_integer s) as [[[m n]|e| |] s1]; simpl in *; try done.
    apply bt_int_of_magnitude_ends.
Qed.

(** A codec's laws as framing facts, for the containers built from it. *)
Lemma codec_consuming {T} (c : bt_codec T) valid norm :
  BtCodecOk c valid norm → consumes (bt_deser c).
Proof. intros Hc s v s'. apply codec_consumes. Qed.

Lemma codec_ends {T} (c : bt_codec T) valid norm k :
  BtCodecOk c valid norm → ends k (bt_deser c).
Proof. intros Hc s _. apply codec_terminates. Qed.

#[export] Hint Resolve codec_consuming codec_ends bt_deserialize_string_consumes
  bt_deserialize_string_ends bt_deserialize_integer_consumes bt_deserialize_integer_ends : parser.

(** ** Containers *)
Lemma until_e_spec {A X} (body : A → parser A) (enc : X → bytes) (step : A → X → A) xs acc fuel rest :
  Forall (λ x, (∀ acc rest, body acc (enc x ++ rest) = (Ok (step acc x), rest)) ∧
               ∃ c r, enc x = c :: r ∧ c ≠ "e"%byte) xs →
  (length xs < fuel)%nat →
  until_e fuel body acc (concat (enc <$> xs) ++ "e"%byte :: rest) = (Ok (foldl step acc xs), rest).
Proof.
  intros H. revert acc fuel. induction H as [|x xs [Hb (c & r & Ec & Hc)] H IH]; intros acc fuel Hf;
    (destruct fuel as [|fuel]; [simpl in *; lia|]); cbn [until_e].
  - cbn. by rewrite bool_decide_eq_true_2 by done.
  - rewrite fmap_cons. cbn [concat]. rewrite <-app_assoc.
    assert (∃ tl, enc x ++ concat (enc <$> xs) ++ "e"%byte :: rest = c :: tl) as [tl Etl]
      by (rewrite Ec; simpl; eauto).
    rewrite Etl. rewrite bool_decide_eq_false_2 by done. rewrite <-Etl.
    rewrite (bind_Ok _ _ _ _ _ (Hb acc _)). apply IH. simpl in Hf. lia.
Qed.

Lemma until_e_shrinks {A} fuel (body : A → parser A) acc :
  (∀ acc, shrinks (body acc)) → consumes (until_e fuel body acc).
Proof.
  intros Hb. revert acc. induction fuel as [|fuel IH]; intros acc s a s'; cbn [until_e]; [done|].
  destruct s as [|c s]; [done|]. case_bool_decide.
  - intros [= <- <-]. by exists [c].
  - intros E. inv_bind. apply Hb in E0 as (u & Eu). apply IH in E as (u2 & Hne & ->).
    exists (u ++ u2). rewrite <-app_assoc. split; [by intros [_ ?]%app_eq_nil|done].
Qed.

Lemma until_e_ends {A} k (body : A → parser A) acc fuel :
  (∀ acc, consumes (body acc)) → (∀ acc, ends k (body acc)) →
  ∀ s, (length s < k)%nat → (length s < fuel)%nat → (until_e fuel body acc s).1 ≠ Diverge.
Proof.
  intros Hc He. revert acc. induction fuel as [|fuel IH]; intros acc s Hk Hf; [lia|].
  cbn [until_e]. destruct s as [|c s]; [done|]. case_bool_decide; [done|].
  specialize (He acc _ Hk). unfold mbind, M_bind.
  destruct (body acc (c :: s)) as [[a|e| |] s1] eqn:E; simpl in *; try done.
  apply Hc in E as (u & Hne & E). apply (f_equal length) in E. rewrite length_app in E.
  destruct u; [done|]. simpl in *. apply IH; lia.
Qed.

Lemma bt_container_consumes {A} o (body : A → parser A) e :
  (∀ acc, shrinks (body acc)) → consumes (bt_container o body e).
Proof.
  intros Hb s a s'. unfold bt_container. destruct s as [|c [|c2 s]]; [done..|].
  destruct (negb _); [done|]. intros (u & Hne & ->)%until_e_shrinks; [|done]. by exists (c :: u).
Qed.

Lemma bt_container_ends {A} k o (body : A → parser A) e :
  (∀ acc, consumes (body acc)) → (∀ acc, ends k (body acc)) → ends (S k) (bt_container o body e).
Proof.
  intros Hc He s Hs. unfold bt_container. destruct s as [|c [|c2 s]]; [done..|].
  destruct (negb _); [done|]. apply (until_e_ends k); simpl in *; auto; lia.
Qed.

Lemma length_concat_ge {X} (enc : X → bytes) xs :
  Forall (λ x, enc x ≠ []) xs → (length xs <= length (concat (enc <$> xs)))%nat.
Proof.
  intros H. induction H as [|x xs Hx H IH]; [done|]. rewrite fmap_cons. cbn [concat length].
  rewrite length_app. destruct (enc x); [done|]. simpl. lia.
Qed.

(** The container's round trip, from that of each element. *)
Lemma bt_container_spec {A X} o (body : A → parser A) (enc : X → bytes) (step : A → X → A) xs acc rest :
  Forall (λ x, (∀ acc rest, body acc (enc x ++ rest) = (Ok (step acc x), rest)) ∧
               ∃ c r, enc x = c :: r ∧ c ≠ "e"%byte) xs →
  bt_container o body acc ((o :: concat (enc <$> xs) ++ ["e"%byte]) ++ rest)
  = (Ok (foldl step acc xs), rest).
Proof.
  intros H. cbn [app]. rewrite <-app_assoc. cbn [app]. unfold bt_container.
  destruct (concat (enc <$> xs) ++ "e"%byte :: rest) as [|c2 s2] eqn:E;
    [by apply app_eq_nil in E as [_ ?]|].
  rewrite bool_decide_eq_true_2 by done. simpl negb. cbv iota. rewrite <-E.
  apply until_e_spec; [done|].
  assert (length xs <= length (concat (enc <$> xs)))%nat.
  { apply length_concat_ge. eapply Forall_impl; [exact H|]. intros x [_ (c & r & -> & _)]. done. }
  simpl. rewrite length_app. simpl. lia.
Qed.

Lemma foldl_snoc {X Y} (f : X → Y) xs acc :
  foldl (λ acc x, acc ++ [f x]) acc xs = acc ++ (f <$> xs).
Proof.
  revert acc. induction xs as [|x xs IH]; intros acc; cbn [foldl]; [by rewrite app_nil_r|].
  by rewrite IH, fmap_cons, <-app_assoc.
Qed.

Lemma bt_deserialize_list_spec {T} (deser : parser T) (ser : T → bytes) norm l rest :
  Forall (λ x, (∀ rest, deser (ser x ++ rest) = (Ok (norm x), rest)) ∧
               ∃ c r, ser x = c :: r ∧ c ≠ "e"%byte) l →
  bt_deserialize_list deser (bt_serialize_list ser l ++ rest) = (Ok (norm <$> l), rest).
Proof.
  intros H. unfold bt_deserialize_list, bt_serialize_list.
  rewrite (bt_container_spec _ _ ser (λ acc x, acc ++ [norm x])).
  - by rewrite foldl_snoc.
  - eapply Forall_impl; [exact H|]. intros x [Hx Hh]. split; [|done].
    intros acc rest'. by rewrite (bind_Ok _ _ _ _ _ (Hx rest')).
Qed.

#[export] Instance list_codec_ok {T} (c : bt_codec T) valid norm :
  BtCodecOk c valid norm → BtCodecOk (list_codec c) (Forall valid) (fmap norm).
Proof.
  intros Hc.
  assert (∀ acc, consumes (v ← bt_deser c; mret (acc ++ [v] : list T))) as Hco
    by (intros acc; apply consumes_bind_l; eauto with parser).
  split; cbn.
  - intros l rest Hl. apply bt_deserialize_list_spec. eapply Forall_impl; [exact Hl|].
    intros x Hx. split; [intros; by apply codec_roundtrip|].
    destruct (codec_head x Hx) as (y & z & r & E & Hy). eauto.
  - intros l _. unfold bt_serialize_list. destruct (concat _) as [|y r]; simpl; eauto 6.
  - apply bt_container_consumes. intros acc. by apply consumes_shrinks.
  - intros s. apply (bt_container_ends (length s)); [done| |lia].
    intros acc. apply ends_bind; eauto with parser.
Qed.

(** ** Dicts: sorting by key *)
#[export] Instance pair_le_total {T} : Total (pair_le (T:=T)).
Proof. intros a b. unfold pair_le. apply (total bytes_le). Qed.

#[export] Instance pair_le_trans {T} : Transitive (pair_le (T:=T)).
Proof. intros a b c. unfold pair_le. apply transitivity. Qed.

Lemma nodup_keys_unique {T} (l : list (bytes * T)) k v1 v2 :
  NoDup l.*1 → (k, v1) ∈ l → (k, v2) ∈ l → v1 = v2.
Proof.
  intros Hnd [i1 H1]%list_elem_of_lookup [i2 H2]%list_elem_of_lookup.
  assert (i1 = i2) as -> by (eapply NoDup_lookup; [exact Hnd|..];
    rewrite list_lookup_fmap; [by rewrite H1|by rewrite H2]).
  rewrite H1 in H2. by simplify_eq.
Qed.

Lemma merge_sort_nodup {T} (l : list (bytes * T)) :
  NoDup l.*1 → NoDup (merge_sort pair_le l).*1.
Proof. by rewrite merge_sort_Permutation. Qed.

(** With distinct keys, being sorted determines the order. *)
Lemma sorted_by_key_unique {T} (l1 l2 : list (bytes * T)) :
  NoDup l1.*1 → l1 ≡ₚ l2 → Sorted pair_le l1 → Sorted pair_le l2 → l1 = l2.
Proof.
  intros Hnd Hp H1 H2. eapply (Sorted_unique_strong pair_le); [|done..].
  intros [k1 v1] [k2 v2] Hx1 Hx2 Hle1 Hle2. rewrite <-Hp in Hx2.
  assert (k1 = k2) as -> by (apply (anti_symm bytes_le); done).
  f_equal. by eapply nodup_keys_unique.
Qed.

Lemma merge_sort_by_key_Permutation {T} (l1 l2 : list (bytes * T)) :
  NoDup l1.*1 → l1 ≡ₚ l2 → merge_sort pair_le l1 = merge_sort pair_le l2.
Proof.
  intros Hnd Hp. apply sorted_by_key_unique; try by apply (Sorted_merge_sort _).
  - by apply merge_sort_nodup.
  - by rewrite !merge_sort_Permutation.
Qed.

Lemma merge_sort_by_key_fmap {T U} (f : T → U) (l : list (bytes * T)) :
  NoDup l.*1 →
  merge_sort pair_le ((λ kv, (kv.1, f kv.2)) <$> l)
  = (λ kv, (kv.1, f kv.2)) <$> merge_sort pair_le l.
Proof.
  intros Hnd. apply sorted_by_key_unique.
  - apply merge_sort_nodup. by rewrite <-list_fmap_compose.
  - by rewrite !merge_sort_Permutation.
  - apply (Sorted_merge_sort _).
  - eapply Sorted_fmap; [|apply (Sorted_merge_sort _)]. by intros.
Qed.

Lemma map_sorted_strongly {T} (d : list (bytes * T)) :
  map_sorted d = true ↔ StronglySorted (λ a b, bytes_ltb a.1 b.1 = true) d.
Proof.
  induction d as [|[k v] d IH]; [split; [constructor|done]|].
  rewrite map_sorted_cons, IH. split.
  - intros [Hb Hs]. by constructor.
  - intros H. inversion H; subst. done.
Qed.

Lemma map_sorted_nodup {T} (d : list (bytes * T)) : map_sorted d = true → NoDup d.*1.
Proof.
  induction d as [|[k v] d IH]; [constructor|]. rewrite map_sorted_cons. intros [Hb Hs].
  simpl. constructor; [|auto]. intros ([k2 v2] & Ek & Hin)%list_elem_of_fmap.
  simpl in Ek; subst. unfold key_below in Hb. rewrite Forall_forall in Hb.
  specialize (Hb _ Hin). simpl in Hb. by rewrite bytes_ltb_irrefl in Hb.
Qed.

Lemma map_sorted_by_key {T} (d : list (bytes * T)) :
  map_sorted d = true → Sorted pair_le d.
Proof.
  rewrite map_sorted_strongly. intros H. apply StronglySorted_Sorted.
  induction H as [|x d Hs IH Hx]; constructor; [done|].
  eapply Forall_impl; [exact Hx|]. intros y. apply bytes_ltb_le.
Qed.

(** A [std::map] is already in order. *)
Lemma merge_sort_map_sorted {T} (d : list (bytes * T)) :
  map_sorted d = true → merge_sort pair_le d = d.
Proof.
  intros Hd. apply sorted_by_key_unique.
  - by apply merge_sort_nodup, map_sorted_nodup.
  - apply merge_sort_Permutation.
  - apply (Sorted_merge_sort _).
  - by apply map_sorted_by_key.
Qed.

(** Sorting distinct keys gives a [std::map]'s iteration order. *)
Lemma map_sorted_merge_sort {T} (d : list (bytes * T)) :
  NoDup d.*1 → map_sorted (merge_sort pair_le d) = true.
Proof.
  intros Hnd. pose proof (merge_sort_nodup d Hnd) as Hnd'.
  pose proof (StronglySorted_merge_sort pair_le d) as Hs.
  revert Hnd' Hs. generalize (merge_sort pair_le d). clear.
  intros l Hnd Hs. induction Hs as [|[k v] l Hs IH Hx]; [done|].
  simpl in Hnd. apply NoDup_cons in Hnd as [Hni Hnd].
  apply map_sorted_cons. split; [|auto]. apply Forall_forall. intros [k2 v2] Hin.
  rewrite Forall_forall in Hx. specialize (Hx _ Hin). unfold pair_le, bytes_le in Hx. simpl in *.
  destruct (bytes_ltb k k2) eqn:E; [done|]. destruct Hni.
  rewrite (bytes_ltb_total _ _ E Hx). apply list_elem_of_fmap. by exists (k2, v2).
Qed.

(** Rebuilding a map by inserting its pairs in order gives it back. *)
Lemma foldl_map_insert {T X} (f : X → bytes * T) xs acc :
  map_sorted (acc ++ (f <$> xs)) = true →
  foldl (λ acc x, map_insert (f x).1 (f x).2 acc) acc xs = acc ++ (f <$> xs).
Proof.
  revert acc. induction xs as [|x xs IH]; intros acc Hs; cbn [foldl]; [by rewrite app_nil_r|].
  rewrite map_insert_last.
  - replace ((f x).1, (f x).2) with (f x) by (by destruct (f x)).
    rewrite IH; rewrite <-app_assoc; done.
  - apply map_sorted_strongly, StronglySorted_app in Hs as (Hs & _ & _).
    apply Forall_forall. intros kv Hin. apply (Hs kv (f x)); [done|].
    rewrite fmap_cons. by left.
Qed.

(** ** Dicts: the codec *)
Lemma bt_serialize_dict_sorted {T} (ser : T → bytes) d :
  NoDup d.*1 →
  bt_serialize_dict ser d
  = "d"%byte :: concat ((λ kv, bt_serialize_string kv.1 ++ ser kv.2) <$> merge_sort pair_le d)
    ++ ["e"%byte].
Proof.
  intros Hnd. unfold bt_serialize_dict. cbv zeta. rewrite merge_sort_by_key_fmap by done.
  by rewrite <-list_fmap_compose.
Qed.

(** The map decoded from a dict's encoding. *)
Definition dict_norm {T U} (norm : T → U) (d : list (bytes * T)) : list (bytes * U) :=
  (λ kv, (kv.1, norm kv.2)) <$> merge_sort pair_le d.

Lemma map_sorted_fmap {T U} (f : T → U) (d : list (bytes * T)) :
  map_sorted ((λ kv, (kv.1, f kv.2)) <$> d) = map_sorted d.
Proof.
  induction d as [|[k v] d IH]; [done|]. destruct d as [|[k2 v2] d]; [done|].
  cbn in *. by rewrite IH.
Qed.

Lemma map_sorted_dict_norm {T U} (norm : T → U) d :
  NoDup d.*1 → map_sorted (dict_norm norm d) = true.
Proof. intros Hnd. unfold dict_norm. rewrite map_sorted_fmap. by apply map_sorted_merge_sort. Qed.

Definition dict_entry_ok {T} (deser : parser T) (ser : T → bytes) (norm : T → T)
    (kv : bytes * T) : Prop :=
  Z.of_nat (length kv.1) < 2 ^ 64 ∧ ∀ rest, deser (ser kv.2 ++ rest) = (Ok (norm kv.2), rest).

Lemma bt_deserialize_dict_spec {T} (deser : parser T) (ser : T → bytes) norm d rest :
  NoDup d.*1 → Forall (dict_entry_ok deser ser norm) d →
  bt_deserialize_dict deser (bt_serialize_dict ser d ++ rest) = (Ok (dict_norm norm d), rest).
Proof.
  intros Hnd Hd. rewrite bt_serialize_dict_sorted by done. unfold bt_deserialize_dict.
  rewrite (bt_container_spec _ _ (λ kv, bt_serialize_string kv.1 ++ ser kv.2)
             (λ acc kv, map_insert kv.1 (norm kv.2) acc)).
  - rewrite (foldl_map_insert (λ kv, (kv.1, norm kv.2))); [done|].
    by apply (map_sorted_dict_norm norm).
  - rewrite merge_sort_Permutation. eapply Forall_impl; [exact Hd|].
    intros [k v] [Hk Hv]; simpl in *. split.
    + intros acc rest'. rewrite <-app_assoc.
      rewrite (bind_Ok _ _ _ _ _ (bt_deserialize_serialize_string _ _ Hk)).
      by rewrite (bind_Ok _ _ _ _ _ (Hv rest')).
    + destruct (bt_serialize_string_head k) as (x & y & r & -> & Hx).
      simpl. eauto using digit_not_e.
Qed.

Lemma dict_body_consumes {T} (deser : parser T) (acc : list (bytes * T)) :
  shrinks deser → consumes (k ← bt_deserialize_string; v ← deser; mret (map_insert k v acc)).
Proof. intros. apply consumes_bind_l; eauto with parser. Qed.

Lemma dict_body_ends {T} j (deser : parser T) (acc : list (bytes * T)) :
  shrinks deser → ends j deser →
  ends j (k ← bt_deserialize_string; v ← deser; mret (map_insert k v acc)).
Proof. intros. apply ends_bind; eauto with parser. Qed.

Lemma bt_serialize_dict_head {T} (ser : T → bytes) d :
  ∃ y r, bt_serialize_dict ser d = "d"%byte :: y :: r.
Proof. unfold bt_serialize_dict. cbv zeta. destruct (concat _); simpl; eauto. Qed.

Lemma bt_serialize_list_head {T} (ser : T → bytes) l :
  ∃ y r, bt_serialize_list ser l = "l"%byte :: y :: r.
Proof. unfold bt_serialize_list. destruct (concat _); simpl; eauto. Qed.

#[export] Instance dict_codec_ok {T} (c : bt_codec T) valid norm :
  BtCodecOk c valid norm →
  BtCodecOk (dict_codec c)
    (λ d, NoDup d.*1 ∧ Forall (λ kv, Z.of_nat (length kv.1) < 2 ^ 64 ∧ valid kv.2) d)
    (dict_norm norm).
Proof.
  intros Hc. split; cbn.
  - intros d rest [Hnd Hd]. apply bt_deserialize_dict_spec; [done|].
    eapply Forall_impl; [exact Hd|]. intros kv [Hk Hv]. split; [done|].
    intros. by apply codec_roundtrip.
  - intros d _. destruct (bt_serialize_dict_head (bt_ser c) d) as (y & r & ->). by eauto 6.
  - apply bt_container_consumes. intros acc. apply consumes_shrinks, dict_body_consumes.
    eauto with parser.
  - intros s. apply (bt_container_ends (length s)); [| |lia]; intros acc;
      [apply dict_body_consumes|apply dict_body_ends]; eauto with parser.
Qed.

(** ** Tuples *)
Class BtElemsOk {T} (es : bt_elems T) (valid : T → Prop) (norm : T → T) : Prop := {
  elems_roundtrip v rest :
    valid v → elems_deser es (elems_ser es v ++ rest) = (Ok (norm v), rest);
  elems_shrinks s v s' : elems_deser es s = (Ok v, s') → ∃ used, s = used ++ s';
  elems_terminates s : (elems_deser es s).1 ≠ Diverge
}.

#[export] Instance elems_nil_ok : BtElemsOk elems_nil (λ _, True) id.
Proof.
  split; cbn; [by intros []| |done]. intros s v s' E. exists []. unfold mret, M_ret in E. by injection E.
Qed.

#[export] Instance elems_cons_ok {A C} (a : bt_codec A) (r : bt_elems C) va na vr nr :
  BtCodecOk a va na → BtElemsOk r vr nr →
  BtElemsOk (elems_cons a r) (λ x, va x.1 ∧ vr x.2) (λ x, (na x.1, nr x.2)).
Proof.
  intros Ha Hr. assert (shrinks (elems_deser r)) as Hsh by (intros s v s'; apply elems_shrinks).
  split; cbn.
  - intros [x y] rest [Hx Hy]. simpl in *. rewrite <-app_assoc.
    rewrite (bind_Ok _ _ _ _ _ (codec_roundtrip x _ Hx)).
    by rewrite (bind_Ok _ _ _ _ _ (elems_roundtrip y rest Hy)).
  - apply shrinks_bind; eauto with parser.
  - intros s. apply (ends_bind (S (length s))); [by eauto with parser..| |lia].
    intros x. apply ends_bind; [|by eauto with parser..]. intros s' _. apply elems_terminates.
Qed.

#[export] Instance tuple_codec_ok {T} (es : bt_elems T) valid norm :
  BtElemsOk es valid norm → BtCodecOk (tuple_codec es) valid norm.
Proof.
  intros He. assert (shrinks (elems_deser es)) as Hsh by (intros s v s'; apply elems_shrinks).
  split; cbn; unfold bt_serialize_tuple, bt_deserialize_tuple.
  - intros x rest Hx. cbn [app]. rewrite <-app_assoc. cbn [app].
    destruct (elems_ser es x ++ "e"%byte :: rest) as [|c2 s2] eqn:E;
      [by apply app_eq_nil in E as [_ ?]|].
    rewrite bool_decide_eq_true_2 by done. simpl negb. cbv iota. rewrite <-E.
    rewrite (bind_Ok _ _ _ _ _ (elems_roundtrip x _ Hx)). cbn.
    by rewrite bool_decide_eq_true_2 by done.
  - intros x _. destruct (elems_ser es x); simpl; eauto 6.
  - intros s x s'. destruct s as [|c [|c2 s]]; [done..|]. destruct (negb _); [done|].
    intros E. assert (shrinks (elems_deser es ≫= consume_tuple_end)) as H by eauto with parser.
    apply H in E as (u & ->). by exists (c :: u).
  - intros s. destruct s as [|c [|c2 s]]; [done..|]. destruct (negb _); [done|].
    apply (ends_bind (length (c :: c2 :: s))); [|by eauto with parser..|simpl; lia].
    intros s1 _. apply elems_terminates.
Qed.

(** ** [bt_value] *)
Lemma foldr_and_Forall {X} (Q : X → Prop) l : foldr (λ x P, Q x ∧ P) True l ↔ Forall Q l.
Proof. induction l as [|x l IH]; simpl; [by split|]. by rewrite Forall_cons, IH. Qed.

Lemma bt_wf_list l : bt_wf (bt_list l) ↔ Forall bt_wf l.
Proof. apply foldr_and_Forall. Qed.

Lemma bt_wf_dict d :
  bt_wf (bt_dict d) ↔
  map_sorted d = true ∧ Forall (λ kv, Z.of_nat (length kv.1) < 2 ^ 64 ∧ bt_wf kv.2) d.
Proof. simpl. by rewrite foldr_and_Forall. Qed.

Lemma bt_no_int64_min_list l : bt_no_int64_min (bt_list l) ↔ Forall bt_no_int64_min l.
Proof. apply foldr_and_Forall. Qed.

Lemma bt_no_int64_min_dict d :
  bt_no_int64_min (bt_dict d) ↔ Forall (λ kv, bt_no_int64_min kv.2) d.
Proof. simpl. by rewrite foldr_and_Forall. Qed.

Lemma length_concat_elem {X} (enc : X → bytes) xs x :
  x ∈ xs → (length (enc x) <= length (concat (enc <$> xs)))%nat.
Proof.
  induction 1 as [x xs|x y xs _ IH]; rewrite fmap_cons; cbn [concat]; rewrite length_app; lia.
Qed.

Lemma length_serialize_list_elem l x :
  x ∈ l → (length (bt_serialize x) < length (bt_serialize (bt_list l)))%nat.
Proof.
  intros Hx%(length_concat_elem bt_serialize). cbn [bt_serialize]. unfold bt_serialize_list.
  cbn [length]. rewrite length_app. lia.
Qed.

Lemma length_serialize_dict_elem d kv :
  NoDup d.*1 → kv ∈ d → (length (bt_serialize kv.2) < length (bt_serialize (bt_dict d)))%nat.
Proof.
  intros Hnd Hx. cbn [bt_serialize]. rewrite bt_serialize_dict_sorted by done.
  rewrite <-(merge_sort_Permutation pair_le d) in Hx.
  apply (length_concat_elem (λ kv, bt_serialize_string kv.1 ++ bt_serialize kv.2)) in Hx.
  cbn [length]. rewrite length_app in *. lia.
Qed.

Lemma bt_value_body_consumes rec : consumes rec → consumes (bt_value_body rec).
Proof.
  intros Hrec s v s'. unfold bt_value_body. destruct s as [|c [|c2 s]]; [done..|].
  repeat case_bool_decide; [..|destruct (is_digit c)]; intros E; [..|done].
  - revert E. apply consumes_bind_l; [|by eauto with parser]. apply bt_container_consumes.
    intros. apply consumes_shrinks, dict_body_consumes. eauto with parser.
  - revert E. apply consumes_bind_l; [|by eauto with parser]. apply bt_container_consumes.
    intros. eauto with parser.
  - revert E. apply consumes_bind_l; [by eauto with parser|]. intros [m []]; eauto with parser.
  - revert E. apply consumes_bind_l; eauto with parser.
Qed.

Lemma bt_deserialize_fuel_consumes n : consumes (bt_deserialize_fuel n).
Proof.
  induction n as [|n IH]; [by intros s v s'|]. by apply bt_value_body_consumes.
Qed.

Lemma ends_lift_neg k z : ends k (liftM (neg_int64 z) ≫= λ z, mret (bt_int64 z)).
Proof. intros s _. unfold neg_int64, liftM, mbind, M_bind. by destruct (_ =? _). Qed.

#[export] Hint Resolve ends_lift_neg : parser.

Lemma bt_value_body_ends k rec :
  consumes rec → ends k rec → ends (S k) (bt_value_body rec).
Proof.
  intros Hc He s Hs. unfold bt_value_body. destruct s as [|c [|c2 s]]; [done..|].
  assert (∀ acc, ends k (v ← rec; mret (acc ++ [v] : list bt_value))) as Hl
    by (intros; apply ends_bind; eauto with parser).
  assert (∀ acc, ends k (k ← bt_deserialize_string; v ← rec; mret (map_insert k v acc))) as Hd
    by (intros; apply dict_body_ends; eauto with parser).
  repeat case_bool_decide; [..|destruct (is_digit c); [|done]]; revert Hs; apply (ends_bind (S k));
    eauto with parser.
  - apply bt_container_ends; [|done]. intros. apply dict_body_consumes. eauto with parser.
  - apply consumes_shrinks, bt_container_consumes. intros.
    apply consumes_shrinks, dict_body_consumes. eauto with parser.
  - apply bt_container_ends; [|done]. intros. eauto with parser.
  - apply consumes_shrinks, bt_container_consumes. eauto with parser.
  - intros [m []]; eauto with parser.
Qed.

Lemma bt_deserialize_fuel_ends n : ends n (bt_deserialize_fuel n).
Proof.
  induction n as [|n IH]; [intros s; lia|].
  apply bt_value_body_ends; [apply bt_deserialize_fuel_consumes|done].
Qed.

(** The body on each alternative's encoding. *)
Lemma bt_value_body_string rec x rest :
  Z.of_nat (length x) < 2 ^ 64 →
  bt_value_body rec (bt_serialize_string x ++ rest) = (Ok (bt_string x), rest).
Proof.
  intros Hx. pose proof (bt_deserialize_serialize_string x rest Hx) as H.
  destruct (bt_serialize_string_head x) as (c & c2 & r & E & Hc). rewrite E in *. cbn [app] in *.
  unfold bt_value_body.
  repeat (rewrite bool_decide_eq_false_2; [|intros ->; discriminate Hc]).
  rewrite Hc. by rewrite (bind_Ok _ _ _ _ _ H).
Qed.

Lemma bt_value_body_int_raw rec z rest m n :
  bt_deserialize_integer (bt_serialize_int z ++ rest) = (Ok (m, n), rest) →
  bt_value_body rec (bt_serialize_int z ++ rest)
  = (if (n : bool) then z ← liftM (neg_int64 (it_cast int64_t m)); mret (bt_int64 z)
     else mret (bt_uint64 m)) rest.
Proof.
  intros H. destruct (bt_serialize_int_head z) as (y & r & E). rewrite E in *. cbn [app] in *.
  unfold bt_value_body. repeat (rewrite bool_decide_eq_false_2; [|done]).
  rewrite bool_decide_eq_true_2 by done. by rewrite (bind_Ok _ _ _ _ _ H).
Qed.

Lemma bt_value_body_int rec z rest :
  - 2 ^ 63 < z < 2 ^ 64 →
  bt_value_body rec (bt_serialize_int z ++ rest)
  = (Ok (if z <? 0 then bt_int64 z else bt_uint64 z), rest).
Proof.
  intros Hz. pose proof (bt_deserialize_integer_spec z rest ltac:(lia)) as H.
  rewrite (bt_value_body_int_raw _ _ _ _ _ H).
  destruct (z <? 0) eqn:En; [|by rewrite Z.abs_eq by lia].
  unfold liftM. by rewrite neg_int64_spec by lia.
Qed.

Lemma bt_value_body_list rec l l' rest :
  bt_deserialize_list rec (bt_serialize_list bt_serialize l ++ rest) = (Ok l', rest) →
  bt_value_body rec (bt_serialize_list bt_serialize l ++ rest) = (Ok (bt_list l'), rest).
Proof.
  intros H. destruct (bt_serialize_list_head bt_serialize l) as (y & r & E). rewrite E in *.
  cbn [app] in *. unfold bt_value_body. rewrite bool_decide_eq_false_2 by done.
  rewrite bool_decide_eq_true_2 by done. by rewrite (bind_Ok _ _ _ _ _ H).
Qed.

Lemma bt_value_body_dict rec d d' rest :
  bt_deserialize_dict rec (bt_serialize_dict bt_serialize d ++ rest) = (Ok d', rest) →
  bt_value_body rec (bt_serialize_dict bt_serialize d ++ rest) = (Ok (bt_dict d'), rest).
Proof.
  intros H. destruct (bt_serialize_dict_head bt_serialize d) as (y & r & E). rewrite E in *.
  cbn [app] in *. unfold bt_value_body. 
  rewrite bool_decide_eq_true_2 by done. by rewrite (bind_Ok _ _ _ _ _ H).
Qed.

Lemma bt_serialize_head v : ∃ x y r, bt_serialize v = x :: y :: r ∧ x ≠ "e"%byte.
Proof.
  destruct v as [x|x|z|z|l|d]; cbn [bt_serialize].
  1,2: destruct (bt_serialize_string_head x) as (c & c2 & r & E & Hc);
    exists c, c2, r; split; [done|by apply digit_not_e].
  1,2: destruct (bt_serialize_int_head z) as (y & r & E); by exists "i"%byte, y, r.
  - destruct (bt_serialize_list_head bt_serialize l) as (y & r & E); by exists "l"%byte, y, r.
  - destruct (bt_serialize_dict_head bt_serialize d) as (y & r & E); by exists "d"%byte, y, r.
Qed.

Definition bt_encodable (v : bt_value) : Prop := bt_wf v ∧ bt_no_int64_min v.

(** Decoding with fuel for the encoding's length inverts encoding. *)
Lemma bt_deserialize_fuel_spec v n rest :
  bt_encodable v → (length (bt_serialize v) <= n)%nat →
  bt_deserialize_fuel n (bt_serialize v ++ rest) = (Ok (bt_norm v), rest).
Proof.
  revert n rest. induction v as [x|x|z|z|l IH|d IH] using bt_value_ind'; intros n rest [Hwf Hmin] Hn;
    (destruct n as [|n];
      [exfalso; match type of Hn with context [bt_serialize ?v] =>
         destruct (bt_serialize_head v) as (? & ? & ? & E & _) end; rewrite E in Hn; simpl in Hn; lia|]);
    cbn [bt_deserialize_fuel].
  - by apply bt_value_body_string.
  - by apply bt_value_body_string.
  - unfold bt_wf, it_range, it_min, it_max in Hwf. unfold bt_no_int64_min, it_min in Hmin.
    cbn in Hwf, Hmin. apply bt_value_body_int. lia.
  - unfold bt_wf, it_range, it_min, it_max in Hwf. cbn in Hwf. cbn [bt_serialize bt_norm].
    rewrite bt_value_body_int by lia. by destruct (z <? 0) eqn:E; [lia|].
  - rewrite bt_wf_list in Hwf. rewrite bt_no_int64_min_list in Hmin.
    apply bt_value_body_list, bt_deserialize_list_spec. rewrite Forall_forall in *.
    intros x Hx. split.
    + intros rest'. apply IH; [done|by split; auto|].
      pose proof (length_serialize_list_elem l x Hx). lia.
    + destruct (bt_serialize_head x) as (c & c2 & r & E & Hc). eauto.
  - rewrite bt_wf_dict in Hwf. rewrite bt_no_int64_min_dict in Hmin. destruct Hwf as [Hs Hwf].
    pose proof (map_sorted_nodup _ Hs) as Hnd.
    cbn [bt_norm]. rewrite <-(merge_sort_map_sorted d Hs) at 2.
    apply bt_value_body_dict, bt_deserialize_dict_spec; [done|]. rewrite Forall_forall in *.
    intros kv Hkv. destruct (Hwf kv Hkv) as [Hk Hv]. split; [done|].
    intros rest'. apply (IH kv Hkv); [by split; auto|].
    pose proof (length_serialize_dict_elem d kv Hnd Hkv). lia.
Qed.

#[export] Instance value_codec_ok : BtCodecOk value_codec bt_encodable bt_norm.
Proof.
  split; cbn.
  - intros v rest Hv. apply (bt_deserialize_fuel_spec v (S (length (bt_serialize v ++ rest))));
      [done|]. rewrite length_app. lia.
  - intros v _. apply bt_serialize_head.
  - intros s. apply (bt_deserialize_fuel_consumes (S (length s))).
  - intros s. apply (bt_deserialize_fuel_ends (S (length s))). lia.
Qed.

Lemma bt_deserialize_serialize v rest :
  bt_encodable v → bt_deserialize_value (bt_serialize v ++ rest) = (Ok (bt_norm v), rest).
Proof. apply (codec_roundtrip (c := value_codec)). Qed.

(** ** Decoded values are well formed *)

(** [gives Q p]: every result [p] returns on a view of at most [size_t] bytes
    satisfies [Q]. *)
Definition gives {A} (Q : A → Prop) (p : parser A) : Prop :=
  ∀ s a s', Z.of_nat (length s) < 2 ^ 64 → p s = (Ok a, s') → Q a.

Lemma gives_bind {A C} (P : A → Prop) (Q : C → Prop) (p : parser A) (f : A → parser C) :
  gives P p → shrinks p → (∀ a, P a → gives Q (f a)) → gives Q (p ≫= f).
Proof.
  intros Hp Hsh Hf s c s' Hs E. inv_bind. eapply Hf; [by eapply Hp| |exact E].
  apply Hsh in E0 as (u & ->). rewrite length_app in Hs. lia.
Qed.

Lemma gives_ret {A} (Q : A → Prop) a : Q a → gives Q (mret a).
Proof. intros H s a' s' _ E. unfold mret, M_ret in E. by simplify_eq. Qed.

Lemma until_e_gives {A} (Q : A → Prop) fuel (body : A → parser A) acc :
  (∀ acc, Q acc → gives Q (body acc)) → (∀ acc, shrinks (body acc)) →
  Q acc → gives Q (until_e fuel body acc).
Proof.
  intros Hb Hsh. revert acc. induction fuel as [|fuel IH]; intros acc Hacc s a s' Hs; [done|].
  cbn [until_e]. destruct s as [|c s]; [done|]. case_bool_decide; [by intros [= <- <-]|].
  intros E. inv_bind. eapply IH; [by eapply Hb| |exact E].
  apply Hsh in E0 as (u & Eu). rewrite Eu, length_app in Hs. lia.
Qed.

Lemma bt_container_gives {A} (Q : A → Prop) o (body : A → parser A) e :
  (∀ acc, Q acc → gives Q (body acc)) → (∀ acc, shrinks (body acc)) →
  Q e → gives Q (bt_container o body e).
Proof.
  intros Hb Hsh He s a s' Hs. unfold bt_container. destruct s as [|c [|c2 s]]; [done..|].
  destruct (negb _); [done|]. eapply until_e_gives; [done..|]. simpl in *. lia.
Qed.

Lemma extract_unsigned_loop_range s v a s' :
  0 <= v < 2 ^ 64 → extract_unsigned_loop v s = (Ok a, s') → 0 <= a < 2 ^ 64.
Proof.
  revert v. induction s as [|c s IH]; intros v Hv; cbn [extract_unsigned_loop].
  - by intros [= <- <-].
  - destruct (is_digit c); [|by intros [= <- <-]]. destruct (_ <? v); [done|]. apply IH.
    apply Z.mod_pos_bound. lia.
Qed.

Lemma extract_unsigned_gives : gives (λ n, 0 <= n < 2 ^ 64) extract_unsigned.
Proof.
  intros s a s' _. unfold extract_unsigned. destruct s as [|c s]; [done|].
  destruct (negb _); [done|]. apply extract_unsigned_loop_range. lia.
Qed.

Lemma bt_deserialize_string_gives :
  gives (λ x, Z.of_nat (length x) < 2 ^ 64) bt_deserialize_string.
Proof.
  intros s a s' Hs. unfold bt_deserialize_string. destruct s as [|c [|c2 s]]; [done..|].
  destruct (negb _); [done|]. intros E. inv_bind. apply extract_unsigned_shrinks in E0 as (u & Eu).
  rewrite Eu, length_app in Hs. destruct s0 as [|c0 s0]; [done|]. cbn in E.
  destruct (negb _); [done|]. destruct (_ <? a0); [done|]. injection E as <- <-.
  rewrite length_take. simpl in Hs. lia.
Qed.

Lemma bt_deserialize_integer_gives :
  gives (λ r, 0 <= r.1 < 2 ^ 64 ∧ (r.2 = true → r.1 <= 2 ^ 63)) bt_deserialize_integer.
Proof.
  intros s [m n] s' Hs. unfold bt_deserialize_integer. destruct (_ <? 3)%nat; [done|].
  destruct s as [|c s]; [done|]. destruct (negb _); [done|]. intros E. inv_bind.
  apply consume_minus_shrinks in E0 as (u & ->). cbn in Hs. rewrite length_app in Hs.
  apply extract_unsigned_gives in E1; [|lia]. destruct s1 as [|c1 s1]; [done|]. cbn in E.
  destruct (negb _); [done|]. destruct (_ && _) eqn:Ea; [done|].
  injection E as <- <- <-. simpl. split; [done|]. intros ->. lia.
Qed.

Lemma bt_negative_gives m :
  0 <= m <= 2 ^ 63 → gives bt_encodable (liftM (neg_int64 (it_cast int64_t m)) ≫= λ z, mret (bt_int64 z)).
Proof.
  intros Hm s a s' _ E. inv_bind. unfold liftM in E0. injection E0 as E0 <-.
  unfold mret, M_ret in E. injection E as <- <-.
  unfold neg_int64 in E0. change (it_min int64_t) with (- 2 ^ 63) in E0.
  destruct (decide (m = 2 ^ 63)) as [->|Hne]; [done|].
  rewrite it_cast_int64 in E0 by lia. destruct (_ =? _); [done|]. injection E0 as <-.
  unfold bt_encodable, bt_wf, bt_no_int64_min, it_range.
  change (it_min int64_t) with (- 2 ^ 63). change (it_max int64_t) with (2 ^ 63 - 1). lia.
Qed.

Lemma Forall_map_insert {T} (P : bytes * T → Prop) k v d :
  P (k, v) → Forall P d → Forall P (map_insert k v d).
Proof.
  intros Hkv Hd. induction Hd as [|[k2 v2] d H2 Hd IH]; simpl; [by constructor|].
  repeat case_match; by repeat constructor.
Qed.

Lemma bt_encodable_list l : Forall bt_encodable l → bt_encodable (bt_list l).
Proof.
  intros H. split; [apply bt_wf_list|apply bt_no_int64_min_list];
    (eapply Forall_impl; [exact H|]); by intros x [].
Qed.

Lemma bt_encodable_dict d :
  map_sorted d = true →
  Forall (λ kv, Z.of_nat (length kv.1) < 2 ^ 64 ∧ bt_encodable kv.2) d → bt_encodable (bt_dict d).
Proof.
  intros Hs H. split; [apply bt_wf_dict; split; [done|]|apply bt_no_int64_min_dict];
    (eapply Forall_impl; [exact H|]); intros x [? []]; auto.
Qed.

Lemma dict_body_gives rec (acc : list (bytes * bt_value)) :
  consumes rec → gives bt_encodable rec →
  let Q d := map_sorted d = true ∧
    Forall (λ kv, Z.of_nat (length kv.1) < 2 ^ 64 ∧ bt_encodable kv.2) d in
  Q acc → gives Q (k ← bt_deserialize_string; v ← rec; mret (map_insert k v acc)).
Proof.
  intros Hc Hg Q [Hs Hacc].
  eapply gives_bind; [apply bt_deserialize_string_gives|by eauto with parser|]. intros k Hk.
  eapply gives_bind; [exact Hg|by eauto with parser|]. intros v Hv. apply gives_ret.
  split; [by apply map_sorted_insert|by apply Forall_map_insert].
Qed.

Lemma bt_value_body_gives rec :
  consumes rec → gives bt_encodable rec → gives bt_encodable (bt_value_body rec).
Proof.
  intros Hc Hg s a s' Hs. unfold bt_value_body. destruct s as [|c [|c2 s]]; [done..|].
  repeat case_bool_decide; [..|destruct (is_digit c); [|done]]; revert Hs;
    generalize (c :: c2 :: s); clear s; intros s Hs; revert s a s' Hs.
  - eapply gives_bind; [|apply consumes_shrinks, bt_container_consumes; intros;
      apply consumes_shrinks, dict_body_consumes; eauto with parser|].
    + eapply bt_container_gives; [intros acc; apply dict_body_gives; done|
        intros; apply consumes_shrinks, dict_body_consumes; eauto with parser|done].
    + intros d [Hd1 Hd2]. by apply gives_ret, bt_encodable_dict.
  - eapply gives_bind; [|apply consumes_shrinks, bt_container_consumes; eauto with parser|].
    + apply (bt_container_gives (Forall bt_encodable)); [|by eauto with parser|done].
      intros acc Hacc. eapply gives_bind; [exact Hg|by eauto with parser|]. intros v Hv.
      apply gives_ret, Forall_app. by split; [|constructor].
    + intros l Hl. by apply gives_ret, bt_encodable_list.
  - eapply gives_bind; [apply bt_deserialize_integer_gives|by eauto with parser|].
    intros [m []] [Hm Hneg]; simpl in *; [apply bt_negative_gives; lia|].
    apply gives_ret. split; [|done]. unfold bt_wf, it_range.
    change (it_max uint64_t) with (2 ^ 64 - 1). change (it_min uint64_t) with 0. lia.
  - eapply gives_bind; [apply bt_deserialize_string_gives|by eauto with parser|].
    intros x Hx. by apply gives_ret.
Qed.

Lemma bt_deserialize_fuel_gives n : gives bt_encodable (bt_deserialize_fuel n).
Proof.
  induction n as [|n IH]; [by intros s a s'|].
  by apply bt_value_body_gives; [apply bt_deserialize_fuel_consumes|].
Qed.

(** Out of the requested type's range, in the range of the wire format. *)
Lemma bt_int_of_magnitude_error t z :
  it_ok t → - 2 ^ 63 < z < 2 ^ 64 → ¬ it_range t z →
  bt_int_of_magnitude t (Z.abs z) (z <? 0) = Throw bt_deserialize_invalid.
Proof.
  intros Ht Hz Hr. pose proof (it_max_le t Ht) as Hmax. pose proof (it_min_ge t Ht) as Hmin.
  unfold it_range in Hr. unfold bt_int_of_magnitude. cbv zeta.
  rewrite it_cast_uint64, it_cast_int64 by lia. destruct (z <? 0) eqn:E; simpl negb; cbv iota.
  - destruct (it_signed t) eqn:Es; [|done]. rewrite neg_int64_spec by lia. cbn.
    rewrite bool_decide_eq_false_2; [|intros ->; unfold it_min, it_max in *; simpl in *; lia].
    destruct (z <? it_min t) eqn:E2; [done|lia].
  - rewrite Z.abs_eq by lia. destruct (it_max t <? z) eqn:E2; [|lia].
    destruct (it_signed t) eqn:Es; [done|].
    rewrite bool_decide_eq_false_2; [done|]. intros ->. unfold it_max in *; simpl in *; lia.
Qed.

(** Digit by digit, what is returned is the decimal value modulo 2^64. *)
Lemma extract_unsigned_loop_mod s v w n s' :
  v = w mod 2 ^ 64 → extract_unsigned_loop v s = (Ok n, s') →
  ∃ ds, s = ds ++ s' ∧ digits ds ∧ no_digit_head s' ∧ n = dec_value w ds mod 2 ^ 64.
Proof.
  revert v w. induction s as [|c s IH]; intros v w Hv; cbn [extract_unsigned_loop].
  - intros [= <- <-]. by exists [].
  - destruct (is_digit c) eqn:Ec; [|intros [= <- <-]; by exists []].
    destruct (_ <? v); [done|]. intros H.
    apply (IH _ (w * 10 + (b2z c - b2z "0"%byte))) in H as (ds & -> & Hds & Hs' & ->).
    + exists (c :: ds). split_and!; [done|by constructor|done|done].
    + rewrite Hv. by rewrite <-Zplus_mod_idemp_l, Zmult_mod_idemp_l, Zplus_mod_idemp_l.
Qed.

(** ** Properties *)

(** C21. Decoding inverts encoding for every well-formed [bt_value] without the
    most negative [int64_t]: [bt_deserialize] of [bt_serialize v] followed by any
    bytes returns the value (strings owned, non-negative integers as [uint64_t])
    and leaves exactly those bytes. *)
Theorem bt_value_roundtrip v rest :
  bt_wf v → bt_no_int64_min v →
  bt_deserialize_value (bt_serialize v ++ rest) = (Ok (bt_norm v), rest).
Proof. intros. by apply bt_deserialize_serialize. Qed.

Lemma bt_value_roundtrip_witness :
  let v := bt_dict [(B "a", bt_list [bt_int64 (-7); bt_uint64 (2 ^ 64 - 1)]); (B "b", bt_string_view (B "x:"))] in
  bt_deserialize_value (bt_serialize v ++ B "tail") = (Ok (bt_norm v), B "tail").
Proof.
  intros v. apply (bt_value_roundtrip v (B "tail")).
  - vm_compute. repeat split; done.
  - vm_compute. repeat split; done.
Defined.

(** C26. Decoding a [bt_value] ends on every input, whatever its nesting, and when
    it returns it has consumed a non-empty prefix of the view. *)
Theorem bt_value_terminates s :
  (bt_deserialize_value s).1 ≠ Diverge ∧
  ∀ v s', bt_deserialize_value s = (Ok v, s') → ∃ used, used ≠ [] ∧ s = used ++ s'.
Proof.
  split; [apply (codec_terminates (c := value_codec))|].
  intros v s'. apply (codec_consumes (c := value_codec)).
Qed.

(** Every value decoded from a view satisfies the type's invariant (sorted
    dictionaries, integers and sizes in range) and can be encoded again: decoding
    that encoding gives the value's normal form. *)
Theorem bt_value_decoded_wf s v s' :
  Z.of_nat (length s) < 2 ^ 64 → bt_deserialize_value s = (Ok v, s') →
  bt_wf v ∧ bt_no_int64_min v ∧ bt_get (bt_serialize v) = Ok (bt_norm v).
Proof.
  intros Hs H. apply bt_deserialize_fuel_gives in H as Hv; [|done]. destruct Hv as [Hwf Hmin].
  split_and!; [done..|]. unfold bt_get. rewrite <-(app_nil_r (bt_serialize v)).
  by rewrite (bt_deserialize_serialize v []).
Qed.

Lemma bt_value_decoded_wf_witness :
  let v := bt_dict [(B "a", bt_int64 0); (B "b", bt_list [])] in
  bt_wf v ∧ bt_no_int64_min v ∧ bt_get (bt_serialize v) = Ok (bt_norm v).
Proof.
  intros v. apply (bt_value_decoded_wf (B "d1:ble1:ai-0e1:bi9ee!") v (B "!")).
  - vm_compute. done.
  - vm_compute. done.
Defined.

(** A dict's encoding does not depend on the container's iteration order: any
    two orders of the same entries (an [unordered_map] against a [map]) give the
    same bytes. *)
Theorem bt_dict_canonical {T} (ser : T → bytes) d1 d2 :
  NoDup d1.*1 → d1 ≡ₚ d2 → bt_serialize_dict ser d1 = bt_serialize_dict ser d2.
Proof.
  intros Hnd Hp. rewrite !bt_serialize_dict_sorted; [|by rewrite <-Hp|done].
  by rewrite (merge_sort_by_key_Permutation d1 d2).
Qed.

Lemma bt_dict_canonical_witness :
  bt_serialize_dict bt_serialize [(B "b", bt_uint64 1); (B "a", bt_string [])]
  = bt_serialize_dict bt_serialize [(B "a", bt_string []); (B "b", bt_uint64 1)].
Proof.
  apply (bt_dict_canonical bt_serialize).
  - apply (bool_decide_eq_true_1 _). vm_compute. done.
  - constructor.
Defined.

(** The container and tuple templates are codecs whenever their element type
    is: a [std::tuple<T, std::string, std::map<std::string, std::list<E>>>] of an
    integral [T] and a lawful [E] decodes to itself, for every iteration order of
    the dict. *)
Theorem bt_containers_roundtrip {E} (c : bt_codec E) valid norm t n str d rest :
  BtCodecOk c valid norm →
  it_ok t → it_range t n → n ≠ it_min int64_t → Z.of_nat (length str) < 2 ^ 64 →
  NoDup d.*1 → Forall (λ kv, Z.of_nat (length kv.1) < 2 ^ 64 ∧ Forall valid kv.2) d →
  let codec := tuple_codec (elems_cons (int_codec t) (elems_cons string_codec
                 (elems_cons (dict_codec (list_codec c)) elems_nil))) in
  bt_deser codec (bt_ser codec (n, (str, (d, tt))) ++ rest)
  = (Ok (n, (str, (dict_norm (fmap norm) d, tt))), rest).
Proof.
  intros Hc Ht Hr Hm Hs Hnd Hd codec. pose proof (int_codec_ok t Ht) as Hi.
  pose proof (dict_codec_ok _ _ _ (list_codec_ok _ _ _ Hc)) as Hdc.
  pose proof (tuple_codec_ok _ _ _ (elems_cons_ok _ _ _ _ _ _ Hi
    (elems_cons_ok _ _ _ _ _ _ string_codec_ok (elems_cons_ok _ _ _ _ _ _ Hdc elems_nil_ok)))) as Hok.
  apply (codec_roundtrip (BtCodecOk := Hok) (n, (str, (d, tt)))). by split_and!.
Qed.

Lemma bt_containers_roundtrip_witness :
  let codec := tuple_codec (elems_cons (int_codec uint8_t) (elems_cons string_codec
                 (elems_cons (dict_codec (list_codec string_codec)) elems_nil))) in
  bt_deser codec (bt_ser codec (255, (B "s", ([(B "z", [B "v"]); (B "a", [])], tt))) ++ B "e")
  = (Ok (255, (B "s", ([(B "a", []); (B "z", [B "v"])], tt))), B "e").
Proof.
  apply (bt_containers_roundtrip string_codec (λ s, Z.of_nat (length s) < 2 ^ 64) id uint8_t 255
           (B "s") [(B "z", [B "v"]); (B "a", [])] (B "e")).
  - apply string_codec_ok.
  - vm_compute. done.
  - vm_compute. done.
  - vm_compute. done.
  - vm_compute. done.
  - apply (bool_decide_eq_true_1 _). vm_compute. done.
  - repeat first [apply Forall_nil_2 | apply Forall_cons_2 | split]; vm_compute; done.
Defined.

(** C27. Integer decoding enforces the requested type's range: an encoded value above
    -2^63 and below 2^64 decodes to itself when it fits the type and throws
    [bt_deserialize_invalid] otherwise, for every integral type of up to 64 bits.
    Outside of these bounds it need not: see [bt_int64_min_undefined] and
    [extract_unsigned_overflow_accepted]. *)
Theorem bt_int_range_checked t z rest :
  it_ok t → - 2 ^ 63 < z < 2 ^ 64 →
  bt_deserialize_int t (bt_serialize_int z ++ rest)
  = (if (it_min t <=? z) && (z <=? it_max t) then Ok z else Throw bt_deserialize_invalid, rest).
Proof.
  intros Ht Hz. unfold bt_deserialize_int.
  erewrite bind_Ok by (apply bt_deserialize_integer_spec; lia). unfold liftM.
  destruct (_ && _) eqn:E.
  - rewrite bt_int_of_magnitude_ok; [done..|unfold it_range; lia|].
    change (it_min int64_t) with (- 2 ^ 63). lia.
  - rewrite bt_int_of_magnitude_error; [done..|]. unfold it_range. lia.
Qed.

Lemma bt_int_range_checked_witness :
  bt_deserialize_int uint16_t (bt_serialize_int 65536 ++ B "x") = (Throw bt_deserialize_invalid, B "x").
Proof.
  apply (bt_int_range_checked uint16_t 65536 (B "x")).
  - vm_compute. done.
  - vm_compute. done.
Defined.

(** [extract_unsigned] returns the value of the leading decimal digits modulo
    2^64, and the value itself when it is below 2^64. *)
Theorem extract_unsigned_modular s n s' :
  extract_unsigned s = (Ok n, s') →
  ∃ ds, s = ds ++ s' ∧ digits ds ∧ no_digit_head s' ∧ n = dec_value 0 ds mod 2 ^ 64.
Proof.
  unfold extract_unsigned. destruct s as [|c s]; [done|]. destruct (negb _); [done|].
  by apply extract_unsigned_loop_mod.
Qed.

Lemma extract_unsigned_modular_witness :
  ∃ ds, B "12:x" = ds ++ B ":x" ∧ digits ds ∧ no_digit_head (B ":x") ∧ 12 = dec_value 0 ds mod 2 ^ 64.
Proof.
  apply (extract_unsigned_modular (B "12:x") 12 (B ":x")).
  vm_compute. reflexivity.
Defined.

(** The overflow test of [extract_unsigned] compares the wrapped sum with the
    previous value, so a decimal above 2^64 can be accepted with a wrong value. *)
Theorem extract_unsigned_overflow_accepted :
  bt_deserialize_value (B "i30000000000000000000e") = (Ok (bt_uint64 11553255926290448384), []).
Proof. vm_compute. reflexivity. Qed.

(** The most negative [int64_t] does not decode: its negation overflows, both
    as a [bt_value] and as an [int64_t]. *)
Theorem bt_int64_min_undefined rest :
  let enc := bt_serialize (bt_int64 (it_min int64_t)) in
  bt_deserialize_value (enc ++ rest) = (UB, rest) ∧
  bt_deserialize_int int64_t (enc ++ rest) = (UB, rest).
Proof.
  pose proof (bt_deserialize_integer_spec (it_min int64_t) rest ltac:(vm_compute; done)) as H.
  cbn zeta. cbn [bt_serialize]. split.
  - unfold bt_deserialize_value. cbn [bt_deserialize_fuel].
    by rewrite (bt_value_body_int_raw _ _ _ _ _ H).
  - unfold bt_deserialize_int. by rewrite (bind_Ok _ _ _ _ _ H).
Qed.

(** [bt_deserialize_invalid_type] does not mean that nothing was consumed: a
    list of integers that meets a string throws it with the ['l'] already gone. *)
Theorem invalid_type_after_advance :
  bt_deserialize_list (bt_deserialize_int c_int) (B "l3:abce")
  = (Throw bt_deserialize_invalid_type, B "3:abce").
Proof. vm_compute. reflexivity. Qed.
