(* ===== verification/BtVariant.v ===== *)
(** Serialization of [std::variant] (bt_serialize.h): the active alternative is written,
    and the first alternative that fits the next byte is read. *)
From S2P Require Import Prelude BtValue BtSerialize BtCodec.
Open Scope Z_scope.

(** ** Alternatives *)

(** What the type traits say of an alternative, in the order they are asked. *)
Inductive alt_kind : Type := k_list | k_tuple | k_dict | k_integral | k_string | k_unsupported.

(** [is_bt_deserializable] *)
Definition is_bt_deserializable (k : alt_kind) : bool :=
  match k with k_unsupported => false | _ => true end.

(** The test on [s[0]]. *)
Definition kind_accepts (k : alt_kind) (c : byte) : bool :=
  match k with
  | k_list | k_tuple => bool_decide (c = "l"%byte)
  | k_dict => bool_decide (c = "d"%byte)
  | k_integral => bool_decide (c = "i"%byte)
  | k_string => is_digit c
  | k_unsupported => false
  end.

Record alternative (T : Type) : Type := Alt { alt_of : alt_kind; alt_codec : bt_codec T }.
Arguments Alt {T} _ _.
Arguments alt_of {T} _.
Arguments alt_codec {T} _.

(** [std::variant<Ts...>] as a sum, and the alternatives [Ts...]. *)
Fixpoint variant (Ts : list Type) : Type :=
  match Ts with [] => Empty_set | T :: Ts => (T + variant Ts)%type end.

Inductive alternatives : list Type → Type :=
  | alts_nil : alternatives []
  | alts_cons {T Ts} (a : alternative T) (r : alternatives Ts) : alternatives (T :: Ts).

(** [std::variant::index] *)
Fixpoint variant_index {Ts} : variant Ts → nat :=
  match Ts with
  | [] => λ _, O
  | _ :: _ => λ v, match v with inl _ => O | inr v => S (variant_index v) end
  end.

(** ** Reading: [bt_deserialize_try_variant]

    [s[0]] of an empty view is undefined; an alternative that cannot be read is passed
    over without looking. *)
Fixpoint bt_deserialize_try_variant {Ts} (a : alternatives Ts) : parser (variant Ts) :=
  match a with
  | alts_nil => λ s, (Throw bt_deserialize_invalid, s)
  | alts_cons x r => λ s,
      if is_bt_deserializable (alt_of x) then
        match s with
        | [] => (UB, s)
        | c :: _ =>
            if kind_accepts (alt_of x) c then (v ← bt_deser (alt_codec x); mret (inl v)) s
            else (v ← bt_deserialize_try_variant r; mret (inr v)) s
        end
      else (v ← bt_deserialize_try_variant r; mret (inr v)) s
  end.

(** ** Writing: [var::visit] with the serializer of the active alternative *)
Fixpoint visit_serialize {Ts} (a : alternatives Ts) : variant Ts → bytes :=
  match a with
  | alts_nil => λ v, match v with end
  | alts_cons x r => λ v, match v with inl v => bt_ser (alt_codec x) v | inr v => visit_serialize r v end
  end.

Definition variant_codec {Ts} (a : alternatives Ts) : bt_codec (variant Ts) :=
  BtCodec (visit_serialize a) (bt_deserialize_try_variant a).

(** ** Which alternative is read *)
Fixpoint first_accepting {Ts} (a : alternatives Ts) (c : byte) : option nat :=
  match a with
  | alts_nil => None
  | alts_cons x r => if kind_accepts (alt_of x) c then Some O else S <$> first_accepting r c
  end.

(** The alternatives are codecs of their own, and their encodings begin with the byte
    the test looks for. *)
Inductive lawful : ∀ {Ts}, alternatives Ts → Type :=
  | lawful_nil : lawful alts_nil
  | lawful_cons {T Ts} (x : alternative T) (r : alternatives Ts) (valid : T → Prop) (norm : T → T) :
      BtCodecOk (alt_codec x) valid norm →
      (is_bt_deserializable (alt_of x) = true → ∀ v, valid v → ∃ c s, bt_ser (alt_codec x) v = c :: s ∧ kind_accepts (alt_of x) c = true) →
      lawful r → lawful (alts_cons x r).

Fixpoint valid_of {Ts} {a : alternatives Ts} (L : lawful a) : variant Ts → Prop :=
  match L with
  | lawful_nil => λ _, False
  | lawful_cons x r valid norm _ _ L => λ v, match v with inl v => valid v | inr v => valid_of L v end
  end.

Fixpoint norm_of {Ts} {a : alternatives Ts} (L : lawful a) : variant Ts → variant Ts :=
  match L with
  | lawful_nil => λ v, v
  | lawful_cons x r valid norm _ _ L => λ v, match v with inl v => inl (norm v) | inr v => inr (norm_of L v) end
  end.

(** A value whose own alternative is the first that accepts its encoding. *)
Definition unambiguous {Ts} (a : alternatives Ts) (v : variant Ts) : Prop :=
  ∃ c s, visit_serialize a v = c :: s ∧ first_accepting a c = Some (variant_index v).

Lemma visit_head {Ts} {a : alternatives Ts} (L : lawful a) v :
  valid_of L v → ∃ x y r, visit_serialize a v = x :: y :: r ∧ x ≠ "e"%byte.
Proof.
  induction L as [|T Ts x r valid norm Hc Hk L IH]; cbn [valid_of visit_serialize]; [done|].
  destruct v as [v|v]; [|apply IH]. apply (codec_head (BtCodecOk := Hc)).
Qed.

Lemma unsupported_accepts k c : kind_accepts k c = true → is_bt_deserializable k = true.
Proof. by destruct k. Qed.

(** An alternative is read exactly when it is the first to accept the next byte. *)
Lemma try_variant_index {Ts} (a : alternatives Ts) s w s' :
  bt_deserialize_try_variant a s = (Ok w, s') → ∃ c r, s = c :: r ∧ first_accepting a c = Some (variant_index w).
Proof.
  revert s. induction a as [|T Ts x a IH]; intros s; cbn [bt_deserialize_try_variant first_accepting]; [done|].
  assert ((v ← bt_deserialize_try_variant a; mret (inr v : variant (T :: Ts))) s = (Ok w, s') →
    ∃ c r, s = c :: r ∧ S <$> first_accepting a c = Some (variant_index w)) as Hnext.
  { intros (v & s1 & E1 & [= <- <-])%bind_Ok_inv. destruct (IH _ _ E1) as (c & r & -> & E). exists c, r. split; [done|]. by rewrite E. }
  destruct (is_bt_deserializable (alt_of x)) eqn:Ed.
  - destruct s as [|c s]; [done|]. destruct (kind_accepts _ c) eqn:Ek.
    + intros (v & s1 & E1 & [= <- <-])%bind_Ok_inv. exists c, s. by rewrite Ek.
    + intros E. destruct (Hnext E) as (c' & r & [= <- <-] & E'). exists c, s. by rewrite Ek.
  - intros E. destruct (Hnext E) as (c & r & -> & E'). exists c, r. split; [done|].
    destruct (kind_accepts _ c) eqn:Ek; [|done]. apply unsupported_accepts in Ek. congruence.
Qed.

Lemma try_variant_roundtrip {Ts} {a : alternatives Ts} (L : lawful a) v rest :
  valid_of L v → unambiguous a v → bt_deserialize_try_variant a (visit_serialize a v ++ rest) = (Ok (norm_of L v), rest).
Proof.
  intros Hv (c & s & Es & Hf). rewrite Es. revert v Hv Es Hf. induction L as [|T Ts x r valid norm Hc Hk L IH]; cbn [valid_of]; [done|].
  intros v Hv Es Hf. cbn [visit_serialize bt_deserialize_try_variant first_accepting norm_of] in *. destruct v as [v|v].
  - destruct (kind_accepts _ c) eqn:Ek; [|by destruct (first_accepting r c)]. rewrite (unsupported_accepts _ _ Ek). cbn [app]. rewrite Ek.
    pose proof (codec_roundtrip (BtCodecOk := Hc) v rest Hv) as E. rewrite Es in E. by rewrite (bind_Ok _ _ _ _ _ E).
  - destruct (kind_accepts _ c) eqn:Ek; [done|]. destruct (first_accepting r c) as [i|] eqn:Ef; [|done]. cbn in Hf. injection Hf as ->.
    pose proof (IH v Hv Es eq_refl) as E. destruct (is_bt_deserializable _); cbn [app]; [rewrite Ek|]; by rewrite (bind_Ok _ _ _ _ _ E).
Qed.

Lemma try_variant_consumes {Ts} {a : alternatives Ts} : lawful a → consumes (bt_deserialize_try_variant a).
Proof.
  induction 1 as [|T Ts x r valid norm Hc Hk L IH]; cbn [bt_deserialize_try_variant]; [by intros ? ? ?|].
  assert (consumes (v ← bt_deserialize_try_variant r; mret (inr v : variant (T :: Ts)))) as Hnext.
  { apply consumes_bind_l; [apply IH|]. intros. apply shrinks_ret. }
  intros s w s' E. destruct (is_bt_deserializable _); [|exact (Hnext _ _ _ E)].
  destruct s as [|c s]; [done|]. destruct (kind_accepts _ c); [|exact (Hnext _ _ _ E)]. revert E. apply (consumes_bind_l (bt_deser (alt_codec x))); [by eapply codec_consuming|]. intros. apply shrinks_ret.
Qed.

Lemma try_variant_ends {Ts} {a : alternatives Ts} k : lawful a → ends k (bt_deserialize_try_variant a).
Proof.
  induction 1 as [|T Ts x r valid norm Hc Hk L IH]; cbn [bt_deserialize_try_variant]; [by intros ? ?|].
  assert (ends k (v ← bt_deserialize_try_variant r; mret (inr v : variant (T :: Ts)))) as Hnext.
  { apply ends_bind; [apply IH|apply consumes_shrinks, try_variant_consumes, L|]. intros. apply ends_ret. }
  intros s Hs. destruct (is_bt_deserializable _); [|exact (Hnext s Hs)].
  destruct s as [|c s]; [done|]. destruct (kind_accepts _ c); [|exact (Hnext _ Hs)]. revert Hs. apply ends_bind; [by eapply codec_ends| |intros; apply ends_ret]. apply consumes_shrinks. by eapply codec_consuming.
Qed.

(** A variant is an element type like any other, for the values that are read back as
    the alternative they were. *)
Lemma variant_codec_ok {Ts} {a : alternatives Ts} (L : lawful a) :
  BtCodecOk (variant_codec a) (λ v, valid_of L v ∧ unambiguous a v) (norm_of L).
Proof.
  split; cbn [variant_codec bt_ser bt_deser].
  - intros v rest [Hv Hu]. by apply try_variant_roundtrip.
  - intros v [Hv _]. by apply (visit_head L).
  - by apply try_variant_consumes.
  - intros s. apply (try_variant_ends (S (length s)) L s); lia.
Qed.

(** ** The kinds of type *)
Definition string_alt : alternative bytes := Alt k_string string_codec.
Definition int_alt (t : int_type) : alternative Z := Alt k_integral (int_codec t).
Definition list_alt {T} (c : bt_codec T) : alternative (list T) := Alt k_list (list_codec c).
Definition dict_alt {T} (c : bt_codec T) : alternative (list (bytes * T)) := Alt k_dict (dict_codec c).
Definition tuple_alt {T} (es : bt_elems T) : alternative T := Alt k_tuple (tuple_codec es).

Definition lawful_string {Ts} {r : alternatives Ts} (L : lawful r) : lawful (alts_cons string_alt r).
Proof.
  refine (lawful_cons string_alt r _ _ string_codec_ok _ L).
  intros _ v _. destruct (bt_serialize_string_head v) as (x & y & s & E & Hx). by exists x, (y :: s).
Defined.

Definition lawful_int {Ts} {r : alternatives Ts} t : it_ok t → lawful r → lawful (alts_cons (int_alt t) r).
Proof.
  intros Ht L. refine (lawful_cons (int_alt t) r _ _ (int_codec_ok t Ht) _ L).
  intros _ v _. destruct (bt_serialize_int_head v) as (y & s & E). by exists "i"%byte, (y :: s).
Defined.

Definition lawful_list {T Ts} {r : alternatives Ts} (c : bt_codec T) valid norm :
  BtCodecOk c valid norm → lawful r → lawful (alts_cons (list_alt c) r).
Proof.
  intros Hc L. refine (lawful_cons (list_alt c) r _ _ (list_codec_ok c valid norm Hc) _ L). intros _ v _. by eexists "l"%byte, _.
Defined.

Definition lawful_dict {T Ts} {r : alternatives Ts} (c : bt_codec T) valid norm :
  BtCodecOk c valid norm → lawful r → lawful (alts_cons (dict_alt c) r).
Proof.
  intros Hc L. refine (lawful_cons (dict_alt c) r _ _ (dict_codec_ok c valid norm Hc) _ L). intros _ v _. by eexists "d"%byte, _.
Defined.

Definition lawful_tuple {T Ts} {r : alternatives Ts} (es : bt_elems T) valid norm :
  BtElemsOk es valid norm → lawful r → lawful (alts_cons (tuple_alt es) r).
Proof.
  intros He L. refine (lawful_cons (tuple_alt es) r _ _ (tuple_codec_ok es valid norm He) _ L). intros _ v _. by eexists "l"%byte, _.
Defined.

(** C23. A variant's value is read back as the alternative it was, with what follows
    left alone, exactly when that alternative is the first one that accepts the first
    byte of the encoding (so it is deserializable, and no earlier alternative accepts
    the byte); otherwise another alternative is read or the reading fails. The values
    are those their own alternative's codec round trips (not the minimal [int64_t], for
    one). *)
Theorem variant_roundtrip {Ts} {a : alternatives Ts} (L : lawful a) v rest :
  valid_of L v →
  (unambiguous a v → bt_deserialize_try_variant a (visit_serialize a v ++ rest) = (Ok (norm_of L v), rest)) ∧
  (¬ unambiguous a v → ∀ w s', bt_deserialize_try_variant a (visit_serialize a v ++ rest) = (Ok w, s') → variant_index w ≠ variant_index v).
Proof.
  intros Hv. split; [by apply try_variant_roundtrip|]. intros Hu w s' E Ei. apply Hu.
  destruct (visit_head L v Hv) as (c & y & r & Es & _). rewrite Es in E. apply try_variant_index in E as (c' & r' & [= <- <-] & Hf).
  exists c, (y :: r). split; [done|]. by rewrite Hf, Ei.
Qed.

(** [std::variant<std::string, int8_t, uint64_t, std::list<std::string>>] *)
Definition demo_alts :=
  alts_cons string_alt (alts_cons (int_alt int8_t) (alts_cons (int_alt uint64_t) (alts_cons (list_alt string_codec) alts_nil))).
Definition demo_lawful : lawful demo_alts.
Proof.
  apply lawful_string, lawful_int; [vm_compute; done|]. apply lawful_int; [vm_compute; done|].
  eapply lawful_list; [apply string_codec_ok|]. apply lawful_nil.
Defined.

Lemma variant_roundtrip_witness :
  bt_deserialize_try_variant demo_alts (visit_serialize demo_alts (inr (inr (inr (inl [B "a"; B "bc"])))) ++ B "x")
    = (Ok (inr (inr (inr (inl [B "a"; B "bc"])))), B "x") ∧
  ∀ w s', bt_deserialize_try_variant demo_alts (visit_serialize demo_alts (inr (inr (inl 300))) ++ B "x") = (Ok w, s') → variant_index w ≠ 2%nat.
Proof.
  split.
  - apply (variant_roundtrip demo_lawful (inr (inr (inr (inl [B "a"; B "bc"])))) (B "x")).
    + cbn. repeat constructor.
    + eexists _, _. by split.
  - apply (variant_roundtrip demo_lawful (inr (inr (inl 300))) (B "x")).
    + cbn. split; [split; vm_compute; congruence|vm_compute; congruence].
    + intros (c & s & [= <- _] & E). vm_compute in E. congruence.
Defined.

(** The first alternative of a kind is final: a number the second integral type could
    hold is refused. *)
Example variant_first_wins :
  bt_deserialize_try_variant demo_alts (visit_serialize demo_alts (inr (inr (inl 300)))) = (Throw bt_deserialize_invalid, []).
Proof. vm_compute. reflexivity. Qed.

(** Reading a variant from an empty view looks at its first byte. *)
Theorem variant_empty_undefined {T Ts} (x : alternative T) (r : alternatives Ts) :
  is_bt_deserializable (alt_of x) = true → bt_deserialize_try_variant (alts_cons x r) [] = (UB, []).
Proof. intros E. cbn [bt_deserialize_try_variant]. by rewrite E. Qed.

(** A dict of variants runs into it: the key may be the last thing in the view. *)
Example variant_dict_undefined : (bt_deserialize_dict (bt_deserialize_try_variant demo_alts) (B "d1:a")).1 = UB.
Proof. vm_compute. reflexivity. Qed.

(** ** The replacements for [std::get] and [std::visit] (variant.h)

    Used where the standard ones must not be.  [None] is a variant without a value. *)
Fixpoint alt_type (Ts : list Type) (i : nat) : Type :=
  match Ts with [] => Empty_set | T :: Ts => match i with O => T | S i => alt_type Ts i end end.

(** [std::get_if<I>] *)
Fixpoint get_if {Ts} : ∀ i, variant Ts → option (alt_type Ts i) :=
  match Ts return ∀ i, variant Ts → option (alt_type Ts i) with
  | [] => λ _ v, match v with end
  | T :: Ts => λ i,
      match i return variant (T :: Ts) → option (alt_type (T :: Ts) i) with
      | O => λ v, match v with inl x => Some x | inr _ => None end
      | S i => λ v, match v with inl _ => None | inr v => get_if i v end
      end
  end.

Definition var_get {Ts} (i : nat) (var : option (variant Ts)) : outcome (alt_type Ts i) :=
  match v ← var; get_if i v with Some x => Ok x | None => Throw runtime_error end.

(** The visitor on the alternative [i]. *)
Fixpoint visitor {Ts} (a : alternatives Ts) : ∀ i, alt_type Ts i → bytes :=
  match a in alternatives Ts return ∀ i, alt_type Ts i → bytes with
  | alts_nil => λ _ x, match x with end
  | @alts_cons T Ts x r => λ i,
      match i return alt_type (T :: Ts) i → bytes with O => bt_ser (alt_codec x) | S i => visitor r i end
  end.

Fixpoint visit_helper {Ts} (indices : list nat) (vis : ∀ i, alt_type Ts i → bytes) (var : option (variant Ts)) : outcome bytes :=
  match indices with
  | [] => Throw runtime_error
  | i :: more =>
      if bool_decide (variant_index <$> var = Some i) then x ← var_get i var; Ok (vis i x)
      else visit_helper more vis var
  end.
Definition var_visit {Ts} (vis : ∀ i, alt_type Ts i → bytes) (var : option (variant Ts)) : outcome bytes :=
  visit_helper (seq 0 (length Ts)) vis var.

Lemma variant_index_lt {Ts} (v : variant Ts) : (variant_index v < length Ts)%nat.
Proof. induction Ts as [|T Ts IH]; [done|]. destruct v as [x|v]; cbn; [lia|]. specialize (IH v). lia. Qed.

Lemma get_visitor {Ts} (a : alternatives Ts) v :
  ∃ x, get_if (variant_index v) v = Some x ∧ visitor a (variant_index v) x = visit_serialize a v.
Proof. induction a as [|T Ts x r IH]; [done|]. destruct v as [y|v]; cbn; [by exists y|apply IH]. Qed.

Lemma visit_helper_found {Ts} indices vis (v : variant Ts) :
  variant_index v ∈ indices → visit_helper indices vis (Some v) = (x ← var_get (variant_index v) (Some v); Ok (vis (variant_index v) x)).
Proof.
  induction indices as [|i more IH]; [by intros ?%elem_of_nil|]. cbn [visit_helper fmap option_fmap option_map]. intros Hi.
  case_bool_decide as E; [by injection E as <-|]. apply IH. apply elem_of_cons in Hi as [Hi|]; [by rewrite Hi in E|done].
Qed.

(** The replacement does what [std::visit] does: it calls the visitor on the active
    alternative, and throws for a variant without a value. *)
Theorem visit_fallback {Ts} (a : alternatives Ts) :
  (∀ v, var_visit (visitor a) (Some v) = Ok (visit_serialize a v)) ∧ var_visit (visitor a) None = Throw runtime_error.
Proof.
  split.
  - intros v. unfold var_visit. rewrite visit_helper_found by (apply elem_of_seq; pose proof (variant_index_lt v); lia).
    destruct (get_visitor a v) as (x & Ex & Ev). unfold var_get. cbn [mbind option_bind]. rewrite Ex. cbn [mbind outcome_bind]. by rewrite Ev.
  - unfold var_visit. generalize (seq 0 (length Ts)). intros l. induction l as [|i l IH]; [done|]. cbn [visit_helper].
    by rewrite bool_decide_eq_false_2.
Qed.
