(* ===== verification/BtTypes.v ===== *)
(** Which specialization of [bt_serialize] and [bt_deserialize] a C++ type gets
    (bt_serialize.h): the type traits that tell dicts from lists, and what follows for
    every type built from the standard containers. *)
From S2P Require Import Prelude BtValue BtSerialize BtCodec BtVariant.
Open Scope Z_scope.

(** ** Types *)

(** Integers, the two string types, [bt_value], pairs and tuples; [std::vector],
    [std::list] or [std::deque]; [std::array]; [std::map] or [std::unordered_map]; and
    [const]. *)
Inductive ctype : Type :=
  | ct_int (t : int_type)
  | ct_string
  | ct_string_view
  | ct_value
  | ct_pair (a b : ctype)
  | ct_tuple (ts : list ctype)
  | ct_seq (e : ctype)
  | ct_array (e : ctype)
  | ct_map (k v : ctype)
  | ct_const (t : ctype).

(** [T::value_type]; a type that has it here has [T::const_iterator] too. *)
Fixpoint value_type (t : ctype) : option ctype :=
  match t with
  | ct_string | ct_string_view => Some (ct_int int8_t)
  | ct_seq e | ct_array e => Some e
  | ct_map k v => Some (ct_pair (ct_const k) v)
  | ct_const t => value_type t
  | _ => None
  end.
Definition remove_cv (t : ctype) : ctype := match t with ct_const t => t | _ => t end.
Definition is_string_type (t : ctype) : bool := match t with ct_string => true | _ => false end.
Definition is_string_view_type (t : ctype) : bool := match t with ct_string_view => true | _ => false end.
Fixpoint is_integral (t : ctype) : option int_type :=
  match t with ct_int i => Some i | ct_const t => is_integral t | _ => None end.

(** [v.insert(v.end(), x)] is well formed. *)
Definition is_bt_insertable (t : ctype) : bool :=
  match t with ct_string | ct_seq _ | ct_map _ _ => true | _ => false end.

(** [T::value_type] is a pair whose first type, less [const], is one of these. *)
Definition keyed (p : ctype → bool) (t : ctype) : bool :=
  match value_type t with Some (ct_pair a _) => p (remove_cv a) | _ => false end.

Definition is_bt_input_dict_container_impl (t : ctype) : bool :=
  keyed is_string_type t || keyed is_string_view_type t.
Definition is_bt_output_dict_container_impl (t : ctype) : bool := keyed is_string_type t && is_bt_insertable t.

(** Both are what can be read into. *)
Definition is_bt_output_dict_container (t : ctype) : bool := is_bt_output_dict_container_impl t.
Definition is_bt_input_dict_container (t : ctype) : bool := is_bt_output_dict_container_impl t.

Definition is_bt_input_list_container (t : ctype) : bool :=
  negb (is_string_type t) && negb (is_string_view_type t) && negb (is_bt_input_dict_container t) && bool_decide (is_Some (value_type t)).
Definition is_bt_output_list_container (t : ctype) : bool :=
  negb (is_string_type t) && negb (is_bt_output_dict_container t) && is_bt_insertable t.
Definition is_bt_tuple (t : ctype) : bool := match t with ct_pair _ _ | ct_tuple _ => true | _ => false end.

(** [is_bt_deserializable] and the chain of tests of the variant reader. *)
Definition bt_deserializable_type (t : ctype) : bool :=
  is_string_type t || bool_decide (is_Some (is_integral t)) || is_bt_output_dict_container t || is_bt_output_list_container t || is_bt_tuple t.
Definition variant_kind (t : ctype) : alt_kind :=
  if is_bt_output_list_container t then k_list
  else if is_bt_tuple t then k_tuple
  else if is_bt_output_dict_container t then k_dict
  else if bool_decide (is_Some (is_integral t)) then k_integral
  else if is_string_type t then k_string
  else k_unsupported.

(** ** Values *)
Inductive cval : Type :=
  | cv_int (z : Z)
  | cv_str (s : bytes)
  | cv_value (v : bt_value)
  | cv_tup (l : list cval)          (* a pair or tuple *)
  | cv_seq (l : list cval).         (* a container, in its iteration order *)

Definition int_of (v : cval) : Z := match v with cv_int z => z | _ => 0 end.
Definition str_of (v : cval) : bytes := match v with cv_str s => s | _ => [] end.
Definition value_of (v : cval) : bt_value := match v with cv_value v => v | _ => bt_int64 0 end.
Definition tup_of (v : cval) : list cval := match v with cv_tup l => l | _ => [] end.

(** What iterating over it gives; a string type gives [char]s. *)
Definition elements_of (v : cval) : list cval :=
  match v with cv_seq l => l | cv_str s => (λ c, cv_int (it_cast int8_t (Z.of_N (Byte.to_N c)))) <$> s | _ => [] end.
Definition entry_of (v : cval) : bytes * cval := match v with cv_tup [cv_str k; x] => (k, x) | _ => ([], v) end.
Definition of_entry (kv : bytes * cval) : cval := cv_tup [cv_str kv.1; kv.2].
Definition entries_of (v : cval) : list (bytes * cval) := entry_of <$> elements_of v.

(** ** The serializers

    [None]: no specialization, or one that does not compile. *)
Fixpoint ser_all (fs : list (cval → bytes)) (l : list cval) : bytes :=
  match fs, l with f :: fs, v :: l => f v ++ ser_all fs l | _, _ => [] end.
Fixpoint deser_all (ps : list (parser cval)) : parser (list cval) :=
  match ps with [] => mret [] | p :: ps => v ← p; l ← deser_all ps; mret (v :: l) end.
Definition tuple_elems (fs : list (cval → bytes)) (ps : list (parser cval)) : bt_elems (list cval) :=
  BtElems (ser_all fs) (deser_all ps).

Definition static_assert_size {A} (i : int_type) (x : A) : option A :=
  if bool_decide (1 <= it_bits i ∧ it_bits i <= 64) then Some x else None.

(** The dict and list specializations, for a container with elements of type [e]. *)
Definition container_serializer (ser : ctype → option (cval → bytes)) (t e : ctype) : option (cval → bytes) :=
  if is_bt_input_dict_container t then
    match e with
    | ct_pair _ second_type => f ← ser second_type; Some (λ v, bt_serialize_dict f (entries_of v))
    | _ => None
    end
  else if is_bt_input_list_container t then f ← ser (remove_cv e); Some (λ v, bt_serialize_list f (elements_of v))
  else None.

Fixpoint serializer (fuel : nat) (t : ctype) : option (cval → bytes) :=
  match fuel with
  | O => None
  | S fuel =>
      match t with
      | ct_string | ct_string_view => Some (λ v, bt_serialize_string (str_of v))
      | ct_value => Some (λ v, bt_serialize (value_of v))
      | ct_pair a b =>
          f ← serializer fuel a; g ← serializer fuel b;
          Some (λ v, bt_serialize_tuple (tuple_elems [f; g] []) (tup_of v))
      | ct_tuple ts => fs ← mapM (serializer fuel) ts; Some (λ v, bt_serialize_tuple (tuple_elems fs []) (tup_of v))
      | _ =>
          match is_integral t, value_type t with
          | Some i, _ => static_assert_size i (λ v, bt_serialize_int (int_of v))
          | None, Some e => container_serializer (serializer fuel) t e
          | None, None => None
          end
      end
  end.

(** [dict.insert(dict.end(), value)]: into a map, or at the end of a sequence. *)
Definition push_pair {T} (k : bytes) (v : T) (d : list (bytes * T)) : list (bytes * T) := d ++ [(k, v)].
Definition dict_insert {T} (t : ctype) : bytes → T → list (bytes * T) → list (bytes * T) :=
  match t with ct_map _ _ => map_insert | _ => push_pair end.
Definition deserialize_pairs {T} (insert : bytes → T → list (bytes * T) → list (bytes * T)) (deser : parser T) : parser (list (bytes * T)) :=
  bt_container "d"%byte (λ acc, k ← bt_deserialize_string; v ← deser; mret (insert k v acc)) [].

Definition container_deserializer (deser : ctype → option (parser cval)) (t e : ctype) : option (parser cval) :=
  if is_bt_output_dict_container t then
    match e with
    | ct_pair _ second_type => p ← deser second_type; Some (d ← deserialize_pairs (dict_insert t) p; mret (cv_seq (of_entry <$> d)))
    | _ => None
    end
  else if is_bt_output_list_container t then p ← deser e; Some (l ← bt_deserialize_list p; mret (cv_seq l))
  else None.

(** A [const] object cannot be read into. *)
Fixpoint deserializer (fuel : nat) (t : ctype) : option (parser cval) :=
  match fuel with
  | O => None
  | S fuel =>
      match t with
      | ct_const _ => None
      | ct_string | ct_string_view => Some (s ← bt_deserialize_string; mret (cv_str s))
      | ct_value => Some (v ← bt_deserialize_value; mret (cv_value v))
      | ct_pair a b =>
          p ← deserializer fuel a; q ← deserializer fuel b;
          Some (l ← bt_deserialize_tuple (tuple_elems [] [p; q]); mret (cv_tup l))
      | ct_tuple ts => ps ← mapM (deserializer fuel) ts; Some (l ← bt_deserialize_tuple (tuple_elems [] ps); mret (cv_tup l))
      | _ =>
          match is_integral t, value_type t with
          | Some i, _ => static_assert_size i (z ← bt_deserialize_int i; mret (cv_int z))
          | None, Some e => container_deserializer (deserializer fuel) t e
          | None, None => None
          end
      end
  end.

(** Enough fuel: what a type contains is smaller. *)
Fixpoint ctype_size (t : ctype) : nat :=
  match t with
  | ct_int _ | ct_value => 1
  | ct_string | ct_string_view => 2
  | ct_pair a b => S (ctype_size a + ctype_size b)
  | ct_tuple ts => S (sum_list_with ctype_size ts)
  | ct_seq e | ct_array e => S (ctype_size e)
  | ct_map k v => S (S (S (ctype_size k + ctype_size v)))
  | ct_const t => S (ctype_size t)
  end.
Definition bt_serialize_type (t : ctype) : option (cval → bytes) := serializer (ctype_size t) t.
Definition bt_deserialize_type (t : ctype) : option (parser cval) := deserializer (ctype_size t) t.

(** ** Examples *)
Definition map_of (l : list (bytes * cval)) : cval := cv_seq (of_entry <$> l).

(** [std::map<std::string, std::vector<uint8_t>>] *)
Example map_wire :
  (bt_serialize_type (ct_map ct_string (ct_seq (ct_int uint8_t))) ≫= λ f,
    Some (f (map_of [(B "b", cv_seq [cv_int 1; cv_int 255]); (B "a", cv_seq [])]))) = Some (B "d1:ale1:bli1ei255eee").
Proof. vm_compute. reflexivity. Qed.

(** A map with [std::string_view] keys is written as a list of pairs whose keys are
    lists of character codes. *)
Example string_view_keys_wire :
  (bt_serialize_type (ct_map ct_string_view (ct_int c_int)) ≫= λ f, Some (f (map_of [(B "ab", cv_int 7)])))
  = Some (B "llli97ei98eei7eee").
Proof. vm_compute. reflexivity. Qed.

(** ** Values of a type, and what they are read back as *)

(** A dict has distinct keys; another container just elements. *)
Definition container_holds (holds : ctype → cval → Prop) (t e : ctype) (v : cval) : Prop :=
  if is_bt_output_dict_container t then
    match e with
    | ct_pair _ b => NoDup (entries_of v).*1 ∧ Forall (λ kv, Z.of_nat (length kv.1) < 2 ^ 64 ∧ holds b kv.2) (entries_of v)
    | _ => False
    end
  else Forall (holds e) (elements_of v).
Definition container_norm (norm : ctype → cval → cval) (t e : ctype) (v : cval) : cval :=
  if is_bt_output_dict_container t then
    match e with ct_pair _ b => cv_seq (of_entry <$> dict_norm (norm b) (entries_of v)) | _ => v end
  else cv_seq (norm e <$> elements_of v).

Fixpoint holds_type (fuel : nat) (t : ctype) (v : cval) : Prop :=
  match fuel with
  | O => False
  | S fuel =>
      match t, v with
      | ct_int i, cv_int z => it_range i z ∧ z ≠ it_min int64_t
      | (ct_string | ct_string_view), cv_str s => Z.of_nat (length s) < 2 ^ 64
      | ct_value, cv_value w => bt_encodable w
      | ct_pair a b, cv_tup l => Forall2 (holds_type fuel) [a; b] l
      | ct_tuple ts, cv_tup l => Forall2 (holds_type fuel) ts l
      | ct_seq e, cv_seq _ => container_holds (holds_type fuel) t e v
      | ct_map a b, cv_seq _ => container_holds (holds_type fuel) t (ct_pair (ct_const a) b) v
      | _, _ => False
      end
  end.

(** Dicts come back sorted, and [bt_value]s with their map in order. *)
Fixpoint norm_type (fuel : nat) (t : ctype) (v : cval) : cval :=
  match fuel with
  | O => v
  | S fuel =>
      match t, v with
      | ct_value, cv_value w => cv_value (bt_norm w)
      | ct_pair a b, cv_tup l => cv_tup (zip_with (norm_type fuel) [a; b] l)
      | ct_tuple ts, cv_tup l => cv_tup (zip_with (norm_type fuel) ts l)
      | ct_seq e, cv_seq _ => container_norm (norm_type fuel) t e v
      | ct_map a b, cv_seq _ => container_norm (norm_type fuel) t (ct_pair (ct_const a) b) v
      | _, _ => v
      end
  end.

(** ** The laws of the parts *)

(** A codec for values of one shape. *)
Definition shaped {A} (c : bt_codec A) (inj : A → cval) (prj : cval → A) : bt_codec cval :=
  BtCodec (λ v, bt_ser c (prj v)) (x ← bt_deser c; mret (inj x)).

Lemma shaped_ok {A} (c : bt_codec A) inj prj valid norm :
  BtCodecOk c valid norm → BtCodecOk (shaped c inj prj) (λ v, valid (prj v)) (λ v, inj (norm (prj v))).
Proof.
  intros Hc. split; cbn [shaped bt_ser bt_deser].
  - intros v rest Hv. by rewrite (bind_Ok _ _ _ _ _ (codec_roundtrip (prj v) rest Hv)).
  - intros v Hv. by apply codec_head.
  - apply consumes_bind_l; [by eapply codec_consuming|]. intros. apply shrinks_ret.
  - intros s. apply (ends_bind (S (length s))); [by eapply codec_ends|apply consumes_shrinks; by eapply codec_consuming|intros; apply ends_ret|lia].
Qed.

(** Fewer values, and their representation spelled another way. *)
Lemma codec_weaken {A} (c : bt_codec A) (valid valid' : A → Prop) norm norm' :
  BtCodecOk c valid norm → (∀ v, valid' v → valid v ∧ norm' v = norm v) → BtCodecOk c valid' norm'.
Proof.
  intros Hc Hv. split.
  - intros v rest Hv'. destruct (Hv v Hv') as [Hv1 ->]. by apply codec_roundtrip.
  - intros v Hv'. apply codec_head. by apply Hv.
  - intros s v s'. apply codec_consumes.
  - intros s. apply codec_terminates.
Qed.

(** Pairs that are inserted in the order of their keys are all kept. *)
Lemma deserialize_pairs_ok {T} insert (c : bt_codec T) valid norm :
  (∀ d : list (bytes * T), map_sorted d = true → foldl (λ acc kv, insert kv.1 kv.2 acc) [] d = d) → BtCodecOk c valid norm →
  BtCodecOk (BtCodec (bt_serialize_dict (bt_ser c)) (deserialize_pairs insert (bt_deser c)))
    (λ d, NoDup d.*1 ∧ Forall (λ kv, Z.of_nat (length kv.1) < 2 ^ 64 ∧ valid kv.2) d) (dict_norm norm).
Proof.
  intros Hins Hc. assert (shrinks (bt_deser c)) as Hsh by by apply consumes_shrinks; eapply codec_consuming.
  assert (∀ acc, consumes (k ← bt_deserialize_string; v ← bt_deser c; mret (insert k v acc))) as Hco.
  { intros acc. apply consumes_bind_l; [apply bt_deserialize_string_consumes|]. intros k. apply shrinks_bind; [done|]. intros. apply shrinks_ret. }
  split; cbn [bt_ser bt_deser].
  - intros d rest [Hnd Hd]. rewrite bt_serialize_dict_sorted by done. unfold deserialize_pairs.
    rewrite (bt_container_spec _ _ (λ kv, bt_serialize_string kv.1 ++ bt_ser c kv.2) (λ acc kv, insert kv.1 (norm kv.2) acc)).
    + f_equal. f_equal. rewrite <-(Hins (dict_norm norm d)) by by apply map_sorted_dict_norm. unfold dict_norm. symmetry. apply foldl_fmap.
    + rewrite merge_sort_Permutation. eapply Forall_impl; [exact Hd|]. intros [k v] [Hk Hv]; cbn [fst snd] in *. split.
      * intros acc rest'. rewrite <-app_assoc. rewrite (bind_Ok _ _ _ _ _ (bt_deserialize_serialize_string _ _ Hk)).
        by rewrite (bind_Ok _ _ _ _ _ (codec_roundtrip v rest' Hv)).
      * destruct (bt_serialize_string_head k) as (x & y & r & -> & Hx). cbn. eauto using digit_not_e.
  - intros d _. destruct (bt_serialize_dict_head (bt_ser c) d) as (y & r & ->). by eauto 6.
  - apply bt_container_consumes. intros acc. by apply consumes_shrinks.
  - intros s. apply (bt_container_ends (length s)); [done| |lia]. intros acc. apply ends_bind; [|by apply consumes_shrinks, bt_deserialize_string_consumes|].
    + intros s' Hs'. apply (bt_deserialize_string_ends _ s' Hs').
    + intros k. apply ends_bind; [by eapply codec_ends|done|]. intros. apply ends_ret.
Qed.

Lemma dict_insert_sorted {T} t (d : list (bytes * T)) :
  map_sorted d = true → foldl (λ acc kv, dict_insert t kv.1 kv.2 acc) [] d = d.
Proof.
  intros Hd. assert (∀ acc, foldl (λ acc kv, push_pair kv.1 kv.2 acc) acc d = acc ++ d) as Hpush.
  { clear Hd. induction d as [|[k v] d IH]; intros acc; cbn [foldl]; [by rewrite app_nil_r|]. rewrite IH. unfold push_pair. by rewrite <-app_assoc. }
  destruct t; try apply Hpush. cbn [dict_insert]. rewrite (foldl_map_insert (λ kv, kv)); rewrite list_fmap_id; done.
Qed.

(** The elements of a tuple, one by one. *)
Lemma tuple_elems_ok ts (cs : list (bt_codec cval)) (valid : ctype → cval → Prop) (norm : ctype → cval → cval) :
  Forall2 (λ t c, BtCodecOk c (valid t) (norm t)) ts cs →
  BtElemsOk (tuple_elems (bt_ser <$> cs) (bt_deser <$> cs)) (Forall2 valid ts) (zip_with norm ts).
Proof.
  induction 1 as [|t c ts cs Hc _ IH].
  { split; cbn; [by intros v rest ->%Forall2_nil_inv_l| |done]. intros s v s' E. exists []. unfold mret, M_ret in E. by injection E. }
  assert (shrinks (deser_all (bt_deser <$> cs))) as Hsh by (intros s v s'; apply (elems_shrinks (es := tuple_elems _ _))).
  assert (∀ k, ends k (deser_all (bt_deser <$> cs))) as Hen by (intros k s _; apply (elems_terminates (es := tuple_elems _ _))).
  split; cbn [tuple_elems elems_ser elems_deser].
  - intros v rest (x & l & Hx & Hl & ->)%Forall2_cons_inv_l. cbn [fmap list_fmap ser_all deser_all zip_with]. rewrite <-app_assoc.
    rewrite (bind_Ok _ _ _ _ _ (codec_roundtrip x _ Hx)). pose proof (elems_roundtrip (es := tuple_elems _ _) l rest Hl) as E.
    cbn [tuple_elems elems_ser elems_deser] in E. by rewrite (bind_Ok _ _ _ _ _ E).
  - cbn [fmap list_fmap deser_all]. apply shrinks_bind; [apply consumes_shrinks; by eapply codec_consuming|]. intros x. apply shrinks_bind; [done|]. intros. apply shrinks_ret.
  - intros s. cbn [fmap list_fmap deser_all]. apply (ends_bind (S (length s))); [by eapply codec_ends|apply consumes_shrinks; by eapply codec_consuming| |lia].
    intros x. apply ends_bind; [apply Hen|done|]. intros. apply ends_ret.
Qed.

(** ** Every type *)
Definition readable_as (n : nat) (t : ctype) (p : parser cval) : Prop :=
  ∃ f, serializer n t = Some f ∧ BtCodecOk (BtCodec f p) (holds_type n t) (norm_type n t).

Lemma all_readable n ts ps :
  (∀ t p, deserializer n t = Some p → readable_as n t p) → mapM (deserializer n) ts = Some ps →
  ∃ cs, mapM (serializer n) ts = Some (bt_ser <$> cs) ∧ ps = bt_deser <$> cs ∧
    Forall2 (λ t c, BtCodecOk c (holds_type n t) (norm_type n t)) ts cs.
Proof.
  intros Hr. revert ps. induction ts as [|t ts IH]; intros ps; cbn [mapM]; [intros [= <-]; by exists []|].
  destruct (deserializer n t) as [p|] eqn:Ep; [|done]. cbn [mbind option_bind]. destruct (mapM (deserializer n) ts) as [ps'|]; [|done].
  intros [= <-]. destruct (Hr t p Ep) as (f & Ef & Hc), (IH ps' eq_refl) as (cs & Ecs & -> & Hcs).
  exists (BtCodec f p :: cs). rewrite Ef. cbn [mbind option_bind]. rewrite Ecs. split_and!; [done|done|by constructor].
Qed.

Lemma tuple_readable n ts cs f p :
  Forall2 (λ t c, BtCodecOk c (holds_type n t) (norm_type n t)) ts cs →
  f = (λ v, bt_serialize_tuple (tuple_elems (bt_ser <$> cs) []) (tup_of v)) →
  p = (l ← bt_deserialize_tuple (tuple_elems [] (bt_deser <$> cs)); mret (cv_tup l)) →
  BtCodecOk (BtCodec f p) (λ v, Forall2 (holds_type n) ts (tup_of v)) (λ v, cv_tup (zip_with (norm_type n) ts (tup_of v))).
Proof.
  intros Hcs -> ->. apply (shaped_ok (tuple_codec (tuple_elems (bt_ser <$> cs) (bt_deser <$> cs))) cv_tup tup_of (Forall2 (holds_type n) ts) (zip_with (norm_type n) ts)).
  by apply tuple_codec_ok, tuple_elems_ok.
Qed.

Lemma static_assert_inv {A} i (x y : A) : static_assert_size i x = Some y → it_ok i ∧ y = x.
Proof. unfold static_assert_size. case_bool_decide as H; [|done]. by intros [= <-]. Qed.

Lemma dict_readable n t b p :
  readable_as n b p →
  ∃ f, serializer n b = Some f ∧
    BtCodecOk (BtCodec (λ v, bt_serialize_dict f (entries_of v)) (d ← deserialize_pairs (dict_insert t) p; mret (cv_seq (of_entry <$> d))))
      (λ v, NoDup (entries_of v).*1 ∧ Forall (λ kv, Z.of_nat (length kv.1) < 2 ^ 64 ∧ holds_type n b kv.2) (entries_of v))
      (λ v, cv_seq (of_entry <$> dict_norm (norm_type n b) (entries_of v))).
Proof.
  intros (f & Ef & Hc). exists f. split; [done|].
  apply (shaped_ok (BtCodec (bt_serialize_dict f) (deserialize_pairs (dict_insert t) p)) (λ d, cv_seq (of_entry <$> d)) entries_of
    (λ d, NoDup d.*1 ∧ Forall (λ kv, Z.of_nat (length kv.1) < 2 ^ 64 ∧ holds_type n b kv.2) d) (dict_norm (norm_type n b))).
  apply (deserialize_pairs_ok (dict_insert t) (BtCodec f p)); [apply dict_insert_sorted|done].
Qed.

(** A container that can be read is written the same way. *)
Lemma container_readable n t e p :
  value_type t = Some e → is_bt_insertable t = true → is_string_type t = false →
  (∀ t p, deserializer n t = Some p → readable_as n t p) → container_deserializer (deserializer n) t e = Some p →
  ∃ f, container_serializer (serializer n) t e = Some f ∧
    BtCodecOk (BtCodec f p) (container_holds (holds_type n) t e) (container_norm (norm_type n) t e).
Proof.
  intros He Hins Hstr Hr. unfold container_deserializer, container_serializer, container_holds, container_norm.
  change (is_bt_input_dict_container t) with (is_bt_output_dict_container t). destruct (is_bt_output_dict_container t) eqn:Ed.
  - destruct e as [| | | |a b| | | | |]; try done. destruct (deserializer n b) as [q|] eqn:Eq; [|done]. cbn [mbind option_bind]. intros [= <-].
    destruct (dict_readable n t b q (Hr b q Eq)) as (f & -> & Hc). cbn [mbind option_bind]. by eauto.
  - unfold is_bt_output_list_container. rewrite Hstr, Ed, Hins. cbn [negb andb]. destruct (deserializer n e) as [q|] eqn:Eq; [|done].
    cbn [mbind option_bind]. intros [= <-].
    assert (is_bt_input_list_container t = true) as ->.
    { unfold is_bt_input_list_container. rewrite Hstr, He, bool_decide_eq_true_2 by eauto.
      change (is_bt_input_dict_container t) with (is_bt_output_dict_container t). rewrite Ed. by destruct t. }
    assert (remove_cv e = e) as -> by by destruct e, n. destruct (Hr e q Eq) as (f & -> & Hc). cbn [mbind option_bind]. eexists. split; [done|].
    apply (shaped_ok (list_codec (BtCodec f q)) cv_seq elements_of (Forall (holds_type n e)) (fmap (norm_type n e))). by apply list_codec_ok.
Qed.

(** Whatever can be read has a serializer, and reading inverts it. *)
Lemma types_ok n t p : deserializer n t = Some p → readable_as n t p.
Proof.
  revert t p. induction n as [|n IH]; intros t p; [done|].
  destruct t as [i| | | |a b|ts|e|e|k v|t]; cbn [deserializer]; unfold readable_as; cbn [serializer is_integral value_type holds_type].
  - intros [Hi ->]%static_assert_inv. unfold static_assert_size. rewrite bool_decide_eq_true_2 by done. eexists. split; [done|].
    eapply codec_weaken; [by apply (shaped_ok (int_codec i) cv_int int_of), int_codec_ok|]. intros [] Hv; first [done|by split].
  - intros [= <-]. eexists. split; [done|]. eapply codec_weaken; [apply (shaped_ok string_codec cv_str str_of), string_codec_ok|]. intros [] Hv; first [done|by split].
  - intros [= <-]. eexists. split; [done|]. eapply codec_weaken; [apply (shaped_ok string_codec cv_str str_of), string_codec_ok|]. intros [] Hv; first [done|by split].
  - intros [= <-]. eexists. split; [done|]. eapply codec_weaken; [apply (shaped_ok value_codec cv_value value_of), value_codec_ok|]. intros [] Hv; first [done|by split].
  - intros E. assert (∃ ps, mapM (deserializer n) [a; b] = Some ps ∧ p = (l ← bt_deserialize_tuple (tuple_elems [] ps); mret (cv_tup l))) as (ps & Eps & ->).
    { cbn [mapM]. destruct (deserializer n a); [|done]. destruct (deserializer n b); [|done]. cbn [mbind option_bind] in E |- *. injection E as <-. by eauto. }
    destruct (all_readable n [a; b] ps IH Eps) as (cs & Ecs & -> & Hcs). eexists. split.
    + cbn [mapM] in Ecs. destruct (serializer n a) as [f|]; [|done]. destruct (serializer n b) as [g|]; [|done]. cbn [mbind option_bind] in Ecs |- *.
      injection Ecs as Ecs. rewrite Ecs. reflexivity.
    + eapply codec_weaken; [by eapply tuple_readable|]. intros [] Hv; first [done|by split].
  - destruct (mapM (deserializer n) ts) as [ps|] eqn:Eps; [|done]. cbn [mbind option_bind]. intros [= <-].
    destruct (all_readable n ts ps IH Eps) as (cs & -> & -> & Hcs). cbn [mbind option_bind]. eexists. split; [done|].
    eapply codec_weaken; [by eapply tuple_readable|]. intros [] Hv; first [done|by split].
  - intros E. destruct (container_readable n (ct_seq e) e p) as (f & Ef & Hc); [done..|]. exists f. split; [done|].
    eapply codec_weaken; [exact Hc|]. intros [] Hv; first [done|by split].
  - unfold container_deserializer, is_bt_output_dict_container, is_bt_output_list_container, is_bt_output_dict_container_impl.
    cbn [is_bt_insertable]. by rewrite !andb_false_r.
  - intros E. destruct (container_readable n (ct_map k v) (ct_pair (ct_const k) v) p) as (f & Ef & Hc); [done..|]. exists f. split; [done|].
    eapply codec_weaken; [exact Hc|]. intros [] Hv; first [done|by split].
  - done.
Qed.

(** *** The fuel is enough *)
Lemma value_type_size t e : value_type t = Some e → (ctype_size e < ctype_size t)%nat.
Proof.
  induction t; intros [= E]; subst; cbn [ctype_size]; try lia. specialize (IHt E). lia.
Qed.

Lemma mapM_fuel {A B} (f g : A → option B) l : (∀ x, x ∈ l → f x = g x) → mapM f l = mapM g l.
Proof.
  intros H. induction l as [|x l IH]; [done|]. cbn [mapM]. rewrite (H x) by (by left). destruct (g x); [|done]. cbn [mbind option_bind].
  rewrite IH; [done|]. intros y Hy. apply H. by right.
Qed.

Lemma sum_list_size t ts : t ∈ ts → (ctype_size t <= sum_list_with ctype_size ts)%nat.
Proof. induction 1; cbn; lia. Qed.

Lemma container_fuel n m t e (HS : ∀ t, (ctype_size t <= n)%nat → (ctype_size t <= m)%nat → serializer n t = serializer m t)
    (HD : ∀ t, (ctype_size t <= n)%nat → (ctype_size t <= m)%nat → deserializer n t = deserializer m t) :
  (ctype_size e <= n)%nat → (ctype_size e <= m)%nat →
  container_serializer (serializer n) t e = container_serializer (serializer m) t e ∧
  container_deserializer (deserializer n) t e = container_deserializer (deserializer m) t e.
Proof.
  intros Hn Hm. assert (ctype_size (remove_cv e) <= ctype_size e)%nat by (destruct e; cbn; lia).
  unfold container_serializer, container_deserializer. rewrite (HS (remove_cv e)), (HD e) by lia.
  destruct e as [| | | |a b| | | | |]; try done. cbn [ctype_size] in *. by rewrite (HS b), (HD b) by lia.
Qed.

Lemma fuel_enough n m t :
  (ctype_size t <= n)%nat → (ctype_size t <= m)%nat → serializer n t = serializer m t ∧ deserializer n t = deserializer m t.
Proof.
  revert m t. induction n as [|n IH]; intros m t Hn Hm; [by destruct t; cbn in Hn; lia|]. destruct m as [|m]; [by destruct t; cbn in Hm; lia|].
  assert (∀ e, value_type t = Some e → container_serializer (serializer n) t e = container_serializer (serializer m) t e ∧
    container_deserializer (deserializer n) t e = container_deserializer (deserializer m) t e) as Hc.
  { intros e He%value_type_size. apply container_fuel; [intros; by apply IH|intros; by apply IH|lia|lia]. }
  destruct t as [i| | | |a b|ts|e|e|k v|t]; cbn [serializer deserializer ctype_size] in *; try done.
  - destruct (IH m a) as [-> ->]; [lia..|]. by destruct (IH m b) as [-> ->]; [lia..|].
  - rewrite (mapM_fuel (serializer n) (serializer m)), (mapM_fuel (deserializer n) (deserializer m)); [done|..];
      intros t Ht; pose proof (sum_list_size t ts Ht); apply IH; lia.
  - cbn [is_integral value_type]. by apply Hc.
  - cbn [is_integral value_type]. by apply Hc.
  - cbn [is_integral value_type]. by apply Hc.
  - split; [|done]. destruct (is_integral (ct_const t)); [done|]. destruct (value_type (ct_const t)) as [e|] eqn:Ee; [|done]. by apply Hc.
Qed.

(** *** The tests of the variant reader *)
Lemma variant_kind_deserializable t : is_bt_deserializable (variant_kind t) = bt_deserializable_type t.
Proof.
  unfold variant_kind, bt_deserializable_type. destruct (is_bt_output_list_container t), (is_bt_tuple t), (is_bt_output_dict_container t),
    (bool_decide (is_Some (is_integral t))), (is_string_type t); done.
Qed.

Lemma kind_head n t p f v :
  deserializer n t = Some p → serializer n t = Some f → is_bt_deserializable (variant_kind t) = true → holds_type n t v →
  ∃ c s, f v = c :: s ∧ kind_accepts (variant_kind t) c = true.
Proof.
  destruct n as [|n]; [done|].
  assert (∀ t e, value_type t = Some e → is_string_type t = false → is_bt_insertable t = true →
    container_serializer (serializer n) t e = Some f → ∃ c s, f v = c :: s ∧ kind_accepts (variant_kind t) c = true) as Hc.
  { clear t. intros t e He Hs Hi. unfold container_serializer, variant_kind, is_bt_output_list_container. rewrite Hs, Hi, andb_true_r. cbn [negb andb].
    change (is_bt_input_dict_container t) with (is_bt_output_dict_container t). destruct (is_bt_output_dict_container t) eqn:Ed; cbn [negb].
    - destruct e as [| | | |a b| | | | |]; try done. destruct (serializer n b); [|done]. cbn [mbind option_bind]. intros [= <-].
      assert (is_bt_tuple t = false) as -> by by destruct t. by eexists "d"%byte, _.
    - destruct (is_bt_input_list_container t); [|done]. destruct (serializer n (remove_cv e)); [|done]. cbn [mbind option_bind]. intros [= <-].
      by eexists "l"%byte, _. }
  destruct t as [i| | | |a b|ts|e|e|k w|t]; cbn [deserializer serializer is_integral value_type]; try done.
  - intros _ [_ ->]%static_assert_inv _ _. by eexists "i"%byte, _.
  - intros _ [= <-] _ _. destruct (bt_serialize_string_head (str_of v)) as (x & y & r & E & Hx). by exists x, (y :: r).
  - intros _ E _ _. destruct (serializer n a); [|done]. destruct (serializer n b); [|done]. cbn [mbind option_bind] in E. injection E as <-. by eexists "l"%byte, _.
  - intros _ E _ _. destruct (mapM (serializer n) ts); [|done]. cbn [mbind option_bind] in E. injection E as <-. by eexists "l"%byte, _.
  - intros _ E _ _. by apply (Hc (ct_seq e) e).
  - intros _ E _ _. by apply (Hc (ct_map k w) (ct_pair (ct_const k) w)).
Qed.

(** ** Properties *)

(** C22. Every instantiation of the templates round trips: for every type built from
    integers, strings, [bt_value], pairs, tuples, sequences and maps, if reading
    compiles then writing does, reading ends on every input, and for every value of the
    type without the minimal [int64_t] (which does not decode), with distinct keys in
    what is written as a dict and strings shorter than 2^64 bytes, reading inverts
    writing whatever follows, where what is written as a dict, a sequence of pairs with
    string keys included, comes back in the order of its keys; and as an alternative of
    a variant the type accepts the first byte of each of these encodings. *)
Theorem types_roundtrip t p :
  bt_deserialize_type t = Some p →
  ∃ f, bt_serialize_type t = Some f ∧ (∀ s, (p s).1 ≠ Diverge) ∧
    ∀ v, holds_type (ctype_size t) t v →
      (∀ rest, p (f v ++ rest) = (Ok (norm_type (ctype_size t) t v), rest)) ∧
      (bt_deserializable_type t = true → ∃ c s, f v = c :: s ∧ kind_accepts (variant_kind t) c = true).
Proof.
  intros Ep. destruct (types_ok _ t p Ep) as (f & Ef & Hc). exists f. split; [done|]. split.
  - intros s. apply (codec_terminates (BtCodecOk := Hc) s).
  - intros v Hv. split; [intros rest; apply (codec_roundtrip (BtCodecOk := Hc) v rest Hv)|].
    rewrite <-variant_kind_deserializable. intros Hk. by eapply kind_head.
Qed.

(** [std::vector<std::pair<std::string, std::tuple<bool, std::map<std::string, bt_value>>>>] *)
Definition demo_type : ctype := ct_seq (ct_pair ct_string (ct_tuple [ct_int c_bool; ct_map ct_string ct_value])).
Definition demo_val : cval :=
  cv_seq [of_entry (B "k", cv_tup [cv_int 1; map_of [(B "y", cv_value (bt_int64 (-5))); (B "x", cv_value (bt_string (B "s")))]]); of_entry (B "a", cv_tup [cv_int 0; map_of []])].

Lemma types_roundtrip_witness :
  ∃ p f, bt_deserialize_type demo_type = Some p ∧ bt_serialize_type demo_type = Some f ∧
    p (f demo_val ++ B "z") = (Ok (norm_type (ctype_size demo_type) demo_type demo_val), B "z") ∧
    f demo_val = B "d1:ali0edee1:kli1ed1:x1:s1:yi-5eeee".
Proof.
  assert (match bt_deserialize_type demo_type with Some _ => true | None => false end = true) as Hp by (vm_compute; reflexivity).
  assert ((bt_serialize_type demo_type ≫= λ f, Some (f demo_val)) = Some (B "d1:ali0edee1:kli1ed1:x1:s1:yi-5eeee")) as Hw by (vm_compute; reflexivity).
  destruct (bt_deserialize_type demo_type) as [p|] eqn:Ep; [|discriminate Hp].
  destruct (types_roundtrip demo_type p Ep) as (f & Ef & _ & Hv). exists p, f. split_and!; [done|done| |].
  - apply (Hv demo_val). repeat first [apply Forall_nil_2 | apply Forall_cons_2 | apply Forall2_nil_2 | apply Forall2_cons_2 | split]; try (vm_compute; done);
      apply (bool_decide_eq_true_1 _); vm_compute; reflexivity.
  - rewrite Ef in Hw. cbn [mbind option_bind] in Hw. by injection Hw as Hw.
Defined.

(** A map with [std::string_view] keys passes the test meant for what can be written as
    a dict, but the test that is used is the one for what can be read into: it is
    written as a list. *)
Theorem string_view_map_is_list v :
  is_bt_input_dict_container_impl (ct_map ct_string_view v) = true ∧ is_bt_input_dict_container (ct_map ct_string_view v) = false ∧
  is_bt_input_list_container (ct_map ct_string_view v) = true.
Proof. by split_and!. Qed.
