(* ===== verification/BtConvert.v ===== *)
(** bt_value.h: the converting constructors of [bt_value], which decide what a C++ value
    becomes inside a [bt_list] or [bt_dict], and the serialization of string literals
    (bt_serialize.h). *)
From S2P Require Import Prelude BtValue BtSerialize BtCodec BtVariant BtTypes.
Open Scope Z_scope.

(** ** Argument types *)

(** Integers, strings, string literals ([char[N]]), [char*] and [const char*], [bt_value]
    and what it holds, pairs and tuples, and any other type. *)
Inductive vtype : Type :=
  | vt_int (t : int_type)
  | vt_string
  | vt_string_view
  | vt_literal
  | vt_cstr (const : bool)
  | vt_value
  | vt_list
  | vt_dict
  | vt_pair (a b : vtype)
  | vt_tuple (ts : list vtype)
  | vt_other.

(** [detail::is_tuple] *)
Definition is_tuple (t : vtype) : bool := match t with vt_tuple _ | vt_pair _ _ => true | _ => false end.

(** [has_alternative_v<T, bt_variant>] *)
Definition has_alternative (t : vtype) : bool :=
  match t with
  | vt_string | vt_string_view | vt_list | vt_dict => true
  | vt_int i => bool_decide (i = int64_t ∨ i = uint64_t)
  | _ => false
  end.

(** ** Construction

    [std::string_view{s}] on a C string: up to the first NUL; one follows the characters
    of a literal. *)
Definition c_str (s : bytes) : bytes :=
  match find_first (λ c, bool_decide (c = Byte.x00)) s with Some n => take n s | None => s end.

(** The alternative [bt_variant{std::forward<T>(v)}] holds; a [char*] converts to both
    string types. *)
Definition to_alternative (t : vtype) (v : cval) : option bt_value :=
  match t with
  | vt_string => Some (bt_string (str_of v))
  | vt_string_view => Some (bt_string_view (str_of v))
  | vt_list => Some (bt_list (value_of <$> elements_of v))
  | vt_dict => Some (bt_dict ((λ kv, (kv.1, value_of kv.2)) <$> entries_of v))
  | _ => None
  end.

(** [bt_value{v}] for an argument of type [t]; [None]: it does not compile. *)
Fixpoint to_value (t : vtype) (v : cval) : option bt_value :=
  let all := (fix all ts l := match ts, l with
    | t :: ts, v :: l => x ← to_value t v; xs ← all ts l; Some (x :: xs)
    | _, _ => Some []
    end) in
  match t with
  | vt_int i => Some (bt_of_int i (int_of v))
  | vt_tuple ts => tuple_to_list <$> all ts (tup_of v)
  | vt_pair a b => tuple_to_list <$> all [a; b] (tup_of v)
  | vt_literal | vt_cstr true => Some (bt_string_view (c_str (str_of v)))
  | vt_value => Some (value_of v)
  | _ => if negb (is_tuple t) then to_alternative t v else None
  end.

(** The elements of a tuple. *)
Fixpoint to_values (ts : list vtype) (l : list cval) : option (list bt_value) :=
  match ts, l with
  | t :: ts, v :: l => x ← to_value t v; xs ← to_values ts l; Some (x :: xs)
  | _, _ => Some []
  end.

Lemma to_value_tuple ts v : to_value (vt_tuple ts) v = tuple_to_list <$> to_values ts (tup_of v).
Proof. reflexivity. Qed.
Lemma to_value_pair a b v : to_value (vt_pair a b) v = tuple_to_list <$> to_values [a; b] (tup_of v).
Proof. reflexivity. Qed.

(** ** Direct serialization

    [bt_serialize<char[N]>] writes all the characters and [bt_serialize<char*>] those
    before the NUL; [const char*] has no specialization. *)
Fixpoint bt_serialize_arg (t : vtype) : option (cval → bytes) :=
  let all := (fix all ts := match ts with [] => Some [] | t :: ts => f ← bt_serialize_arg t; fs ← all ts; Some (f :: fs) end) in
  match t with
  | vt_int i => static_assert_size i (λ v, bt_serialize_int (int_of v))
  | vt_string | vt_string_view | vt_literal => Some (λ v, bt_serialize_string (str_of v))
  | vt_cstr false => Some (λ v, bt_serialize_string (c_str (str_of v)))
  | vt_value => Some (λ v, bt_serialize (value_of v))
  | vt_list => Some (λ v, bt_serialize_list bt_serialize (value_of <$> elements_of v))
  | vt_dict => Some (λ v, bt_serialize_dict bt_serialize ((λ kv, (kv.1, value_of kv.2)) <$> entries_of v))
  | vt_pair a b => fs ← all [a; b]; Some (λ v, bt_serialize_tuple (tuple_elems fs []) (tup_of v))
  | vt_tuple ts => fs ← all ts; Some (λ v, bt_serialize_tuple (tuple_elems fs []) (tup_of v))
  | vt_cstr true | vt_other => None
  end.

Lemma bt_serialize_arg_tuple ts :
  bt_serialize_arg (vt_tuple ts) = (fs ← mapM bt_serialize_arg ts; Some (λ v, bt_serialize_tuple (tuple_elems fs []) (tup_of v))).
Proof. reflexivity. Qed.
Lemma bt_serialize_arg_pair a b :
  bt_serialize_arg (vt_pair a b) = (fs ← mapM bt_serialize_arg [a; b]; Some (λ v, bt_serialize_tuple (tuple_elems fs []) (tup_of v))).
Proof. done. Qed.

(** ** Values of a type

    An integer is in the range of its type, a literal has no NUL before its end, and a
    tuple has elements. *)
Fixpoint typed (t : vtype) (v : cval) : Prop :=
  let all := (fix all ts l := match ts, l with
    | t :: ts, v :: l => typed t v ∧ all ts l
    | [], [] => True
    | _, _ => False
    end) in
  match t, v with
  | vt_int i, cv_int z => it_range i z
  | (vt_string | vt_string_view), cv_str _ => True
  | (vt_literal | vt_cstr _), cv_str s => Byte.x00 ∉ s
  | vt_value, cv_value _ => True
  | (vt_list | vt_dict), cv_seq _ => True
  | vt_pair a b, cv_tup l => all [a; b] l
  | vt_tuple ts, cv_tup l => ts ≠ [] ∧ all ts l
  | _, _ => False
  end.

Lemma typed_tuple ts v : typed (vt_tuple ts) v → ts ≠ [] ∧ Forall2 typed ts (tup_of v).
Proof.
  destruct v as [| | |l|]; try done. intros [Hne Hl]. split; [done|]. clear Hne. revert Hl. cbn [tup_of]. revert l. induction ts as [|t ts IH]; intros [|x l]; try done.
  intros [Hx Hl]. constructor; [done|]. by apply IH.
Qed.
Lemma typed_pair a b v : typed (vt_pair a b) v → Forall2 typed [a; b] (tup_of v).
Proof. destruct v as [| | |l|]; try done. intros H. apply (typed_tuple [a; b] (cv_tup l)). by split. Qed.

(** Induction that goes into tuples. *)
Lemma vtype_nested_ind (P : vtype → Prop) :
  (∀ i, P (vt_int i)) → P vt_string → P vt_string_view → P vt_literal → (∀ c, P (vt_cstr c)) → P vt_value → P vt_list → P vt_dict →
  (∀ a b, P a → P b → P (vt_pair a b)) → (∀ ts, Forall P ts → P (vt_tuple ts)) → P vt_other → ∀ t, P t.
Proof.
  intros Hi Hs Hsv Hl Hc Hv Hli Hd Hp Ht Ho. fix go 1. intros [i| | | |c| | | |a b|ts|]; try solve [clear go; auto].
  - apply Hp; apply go.
  - apply Ht. induction ts as [|t ts IH]; constructor; [apply go|apply IH].
Qed.

(** ** Lemmas *)
Lemma c_str_id s : Byte.x00 ∉ s → c_str s = s.
Proof.
  intros Hs. unfold c_str. destruct (find_first _ s) as [n|] eqn:E; [|done]. apply find_first_Some in E as (_ & c & Hc & E).
  apply bool_decide_eq_true in E as ->. by apply list_elem_of_lookup_2 in Hc.
Qed.

(** The widening of an integer to 64 bits keeps its value. *)
Lemma bt_of_int_value i z : it_ok i → it_range i z → bt_serialize (bt_of_int i z) = bt_serialize_int z.
Proof.
  intros Hi Hz. assert (2 ^ (it_bits i - 1) <= 2 ^ 63 ∧ 2 ^ it_bits i <= 2 ^ 64) as [H1 H2].
  { unfold it_ok in Hi. split; apply Z.pow_le_mono_r; lia. }
  unfold bt_of_int. unfold it_range, it_min, it_max in Hz. destruct (it_signed i); cbn [bt_serialize]; rewrite it_cast_id;
    try done; unfold it_ok, it_range, it_min, it_max; cbn; lia.
Qed.

(** What holds for the elements holds for the tuple. *)
Lemma tuple_encoding ts l ws fs :
  Forall (λ t, ∀ v w f, typed t v → to_value t v = Some w → bt_serialize_arg t = Some f → bt_serialize w = f v) ts →
  ts ≠ [] → Forall2 typed ts l → to_values ts l = Some ws → mapM bt_serialize_arg ts = Some fs →
  bt_serialize (tuple_to_list ws) = bt_serialize_tuple (tuple_elems fs []) l.
Proof.
  intros HP Hne Hl Hw Hf. assert (tuple_to_list ws = bt_list ws) as ->.
  { destruct Hl as [|t v ts l Hv Hl]; [done|]. cbn [to_values] in Hw. destruct (to_value t v); [|done].
    cbn [mbind option_bind] in Hw. destruct (to_values ts l); [|done]. by injection Hw as <-. }
  clear Hne. unfold bt_serialize_tuple. cbn [bt_serialize elems_ser tuple_elems]. unfold bt_serialize_list. f_equal. f_equal.
  revert ws fs Hw Hf. induction Hl as [|t v ts l Hv Hl IH]; intros ws fs; cbn [to_values mapM]; [by intros [= <-] [= <-]|].
  apply Forall_cons in HP as [Ht HP]. destruct (to_value t v) as [w|] eqn:Ew; [|done]. destruct (bt_serialize_arg t) as [f|] eqn:Ef; [|by intros].
  cbn [mbind option_bind]. destruct (to_values ts l) as [ws'|]; [|done]. intros [= <-]. destruct (mapM bt_serialize_arg ts) as [fs'|]; [|done].
  intros [= <-]. cbn [fmap list_fmap concat ser_all]. f_equal; [by apply Ht|by apply IH].
Qed.

Lemma to_value_encoding t v w f : typed t v → to_value t v = Some w → bt_serialize_arg t = Some f → bt_serialize w = f v.
Proof.
  revert v w f. induction t as [i| | | |c| | | |a b IHa IHb|ts IH|] using vtype_nested_ind; intros v w f Hv Hw Hf.
  - destruct v as [z| | | |]; try done. injection Hw as <-. apply static_assert_inv in Hf as [Hi ->]. by apply bt_of_int_value.
  - by injection Hw as <-; injection Hf as <-.
  - by injection Hw as <-; injection Hf as <-.
  - destruct v as [|s| | |]; try done. injection Hw as <-; injection Hf as <-. cbn. by rewrite c_str_id.
  - by destruct c.
  - by injection Hw as <-; injection Hf as <-.
  - by injection Hw as <-; injection Hf as <-.
  - by injection Hw as <-; injection Hf as <-.
  - rewrite to_value_pair in Hw. rewrite bt_serialize_arg_pair in Hf. apply fmap_Some in Hw as (ws & Hws & ->).
    apply bind_Some in Hf as (fs & Hfs & [= <-]). by apply (tuple_encoding [a; b]); [repeat constructor|done|apply typed_pair|..].
  - rewrite to_value_tuple in Hw. rewrite bt_serialize_arg_tuple in Hf. apply fmap_Some in Hw as (ws & Hws & ->).
    apply bind_Some in Hf as (fs & Hfs & [= <-]). apply typed_tuple in Hv as [Hne Hv]. by apply (tuple_encoding ts).
  - done.
Qed.

(** ** Properties *)


(** [std::tuple{int8_t, std::pair{"ab", uint64_t}, std::string}] *)
Definition demo_arg : vtype := vt_tuple [vt_int int8_t; vt_pair vt_literal (vt_int uint64_t); vt_string].
Definition demo_arg_val : cval := cv_tup [cv_int (-5); cv_tup [cv_str (B "ab"); cv_int (2 ^ 64 - 1)]; cv_str (B "s")].
Definition demo_arg_bt : bt_value :=
  bt_list [bt_int64 (-5); bt_list [bt_string_view (B "ab"); bt_uint64 (2 ^ 64 - 1)]; bt_string (B "s")].


(** A NUL inside a literal ends the converted string, but not the serialized one. *)
Example literal_with_nul :
  let v := cv_str [Byte.x61; Byte.x00; Byte.x62] in
  bt_serialize <$> to_value vt_literal v = Some (B "1:a") ∧
  (bt_serialize_arg vt_literal ≫= λ f, Some (f v)) = Some (B "3:a" ++ [Byte.x00; Byte.x62]).
Proof. split; vm_compute; reflexivity. Qed.

(** The tuple without elements is serialized as the empty list, but converted to a list
    of one empty string. *)
Example empty_tuple_differs :
  bt_serialize <$> to_value (vt_tuple []) (cv_tup []) = Some (B "l0:e") ∧
  (bt_serialize_arg (vt_tuple []) ≫= λ f, Some (f (cv_tup []))) = Some (B "le").
Proof. split; vm_compute; reflexivity. Qed.
