(* ===== verification/BtConsumer.v ===== *)
(** bt_serialize.h / bt_serialize.cpp: the allocation-free readers
    [bt_list_consumer] and [bt_dict_consumer], and the extraction helpers
    [get_int] and [get_tuple]. *)
From S2P Require Import Prelude BtValue BtSerialize BtCodec.
Open Scope Z_scope.

(** ** [bt_list_consumer]

    Its state is the view [data].  [data.front()] on an empty view is undefined. *)
Definition front : parser byte := λ s,
  match s with
  | [] => (UB, s)
  | c :: _ => (Ok c, s)
  end.

Definition bt_list_consumer_ctor (data_ : bytes) : outcome bytes :=
  match data_ with
  | [] => Throw runtime_error
  | c :: data => if negb (bool_decide (c = "l"%byte)) then Throw runtime_error else Ok data
  end.

Definition is_finished : parser bool := c ← front; mret (bool_decide (c = "e"%byte)).
Definition is_string : parser bool := c ← front; mret (is_digit c).
Definition is_integer : parser bool := c ← front; mret (bool_decide (c = "i"%byte)).
Definition is_negative_integer : parser bool :=
  b ← is_integer; s ← getS;
  mret (b && bool_decide (2 <= length s)%nat && bool_decide (s !! 1%nat = Some "-"%byte)).
Definition is_list : parser bool := c ← front; mret (bool_decide (c = "l"%byte)).
Definition is_dict : parser bool := c ← front; mret (bool_decide (c = "d"%byte)).

(** [std::string_view next{data}; deserialize(next, ...); data = next]: an
    exception leaves [data] where it was. *)
Definition on_copy {A} (p : parser A) : parser A := λ data,
  match p data with
  | (Ok a, next) => (Ok a, next)
  | (o, _) => (o, data)
  end.

(** [if (!cond()) throw e]. *)
Definition require {S} (cond : M S bool) (e : exn) : M S unit :=
  b ← cond; if (b : bool) then mret tt else throwM e.

Definition consume_string_view : parser bytes := λ data,
  match data with
  | [] => (Throw bt_deserialize_invalid, data)
  | _ => (_ ← require is_string bt_deserialize_invalid_type; on_copy bt_deserialize_string) data
  end.

Definition consume_integer (t : int_type) : parser Z :=
  _ ← require is_integer bt_deserialize_invalid_type; on_copy (bt_deserialize_int t).

(** [consume_list] and [consume_dict] for an element type decoded by [deser]. *)
Definition consume_list {T} (deser : parser T) : parser (list T) :=
  _ ← require is_list bt_deserialize_invalid_type; on_copy (bt_deserialize_list deser).

Definition consume_dict {T} (deser : parser T) : parser (list (bytes * T)) :=
  _ ← require is_dict bt_deserialize_invalid_type; on_copy (bt_deserialize_dict deser).

(** [if (data.empty()) throw bt_deserialize_invalid]. *)
Definition require_data : parser unit := λ data,
  match data with
  | [] => (Throw bt_deserialize_invalid, data)
  | _ => (Ok tt, data)
  end.

(** [data.remove_prefix(1)]. *)
Definition remove_front : parser unit := λ data, (Ok tt, drop 1 data).

(** [while (!is_finished()) body; data.remove_prefix(1)]. *)
Fixpoint skip_loop (fuel : nat) (body : parser unit) : parser unit :=
  match fuel with
  | O => λ data, (Diverge, data)
  | S fuel' =>
      b ← is_finished;
      if (b : bool) then remove_front else _ ← body; skip_loop fuel' body
  end.

(** [{start, distance(start, data.begin())}]. *)
Definition data_since (start : bytes) : parser bytes := λ data,
  (Ok (take (length start - length data) start), data).

(** The body shared by [consume_list_data] and [consume_dict_data]: the bytes
    from the opening one to the position after the closing ['e']. *)
Definition container_data (is_open : parser bool) (body : parser unit) : parser bytes := λ start,
  if (length start <? 2)%nat then (Throw bt_deserialize_invalid_type, start)
  else (_ ← require is_open bt_deserialize_invalid_type;
        _ ← remove_front; _ ← skip_loop (length start) body; data_since start) start.

Definition list_data_body (skip : parser unit) : parser unit := _ ← skip; require_data.

(** [if (!data.empty()) skip_value()]. *)
Definition skip_if_data (skip : parser unit) : parser unit := λ data,
  match data with
  | [] => (Ok tt, data)
  | _ => skip data
  end.

Definition dict_data_body (skip : parser unit) : parser unit :=
  _ ← consume_string_view; _ ← skip_if_data skip; require_data.

Definition skip_value_body (skip : parser unit) : parser unit :=
  c1 ← is_string;
  if (c1 : bool) then _ ← consume_string_view; mret tt
  else c2 ← is_integer;
  if (c2 : bool) then _ ← bt_deserialize_integer; mret tt
  else c3 ← is_list;
  if (c3 : bool) then _ ← container_data is_list (list_data_body skip); mret tt
  else c4 ← is_dict;
  if (c4 : bool) then _ ← container_data is_dict (dict_data_body skip); mret tt
  else throwM bt_deserialize_invalid_type.

(** Mutual recursion of [skip_value], [consume_list_data] and [consume_dict_data]:
    one unit of fuel per nesting level. *)
Fixpoint skip_value_fuel (depth : nat) : parser unit :=
  match depth with
  | O => λ data, (Diverge, data)
  | S depth' => skip_value_body (skip_value_fuel depth')
  end.

Definition skip_value : parser unit := λ data, skip_value_fuel (S (length data)) data.

Definition consume_list_data : parser bytes := λ data,
  container_data is_list (list_data_body (skip_value_fuel (length data))) data.
Definition consume_dict_data : parser bytes := λ data,
  container_data is_dict (dict_data_body (skip_value_fuel (length data))) data.

(** ** [bt_dict_consumer]

    [key_] is the cached key; the default-constructed view, whose [data()] is
    null, is [None]. *)
Record dict_consumer : Type := DictConsumer { data : bytes; key_ : option bytes }.

Definition bt_dict_consumer_ctor (data_ : bytes) : outcome dict_consumer :=
  match data_ with
  | [] => Throw runtime_error
  | c :: data =>
      if (length data_ <? 2)%nat || negb (bool_decide (c = "d"%byte)) then Throw runtime_error
      else Ok (DictConsumer data None)
  end.

(** A [bt_list_consumer] operation on the base object. *)
Definition on_data {A} (p : parser A) : M dict_consumer A := λ st,
  let (o, data') := p (data st) in (o, DictConsumer data' (key_ st)).

(** [data.empty() || data[0] == 'e'] after a key. *)
Definition require_value : M dict_consumer bool := λ st,
  match data st with
  | [] => (Throw bt_deserialize_invalid, st)
  | c :: _ => if bool_decide (c = "e"%byte) then (Throw bt_deserialize_invalid, st) else (Ok true, st)
  end.

Definition set_key (k : bytes) : M dict_consumer unit := λ st,
  (Ok tt, DictConsumer (data st) (Some k)).

Definition consume_key : M dict_consumer bool := λ st,
  match key_ st with
  | Some _ => (Ok true, st)
  | None =>
      match data st with
      | [] => (Throw bt_deserialize_invalid_type, st)
      | c :: _ =>
          if bool_decide (c = "e"%byte) then (Ok false, st)
          else (k ← on_data consume_string_view; _ ← set_key k; require_value) st
      end
  end.

(** [flush_key]: a null key is returned as the empty view it compares equal to. *)
Definition flush_key : M dict_consumer bytes := λ st,
  (Ok (default [] (key_ st)), DictConsumer (data st) None).

(** [consume_key() && is_...()]. *)
Definition key_and (test : parser bool) : M dict_consumer bool :=
  b ← consume_key; if (b : bool) then on_data test else mret false.

Definition dict_is_finished : M dict_consumer bool :=
  b ← consume_key; if (b : bool) then mret false else on_data is_finished.
Definition dict_is_string : M dict_consumer bool := key_and is_string.
Definition dict_is_integer : M dict_consumer bool := key_and is_integer.
Definition dict_is_list : M dict_consumer bool := key_and is_list.
Definition dict_is_dict : M dict_consumer bool := key_and is_dict.

(** The cached key, as a view: null reads as empty. *)
Definition cached_key : M dict_consumer bytes := λ st, (Ok (default [] (key_ st)), st).

Definition dict_key : M dict_consumer bytes :=
  _ ← require consume_key bt_deserialize_invalid; cached_key.

(** The [next_*] methods: the value is consumed, then the key is flushed. *)
Definition next_with {A} (test : M dict_consumer bool) (p : parser A) : M dict_consumer (bytes * A) :=
  _ ← require test bt_deserialize_invalid_type;
  v ← on_data p; k ← flush_key; mret (k, v).

(** [next_string] names the offending byte in its error: [data.front()]. *)
Definition next_string : M dict_consumer (bytes * bytes) :=
  b ← dict_is_string;
  if (b : bool) then v ← on_data consume_string_view; k ← flush_key; mret (k, v)
  else _ ← on_data front; throwM bt_deserialize_invalid_type.

Definition next_integer (t : int_type) : M dict_consumer (bytes * Z) :=
  next_with dict_is_integer (consume_integer t).
Definition next_list {T} (deser : parser T) : M dict_consumer (bytes * list T) :=
  next_with dict_is_list (consume_list deser).
Definition next_dict {T} (deser : parser T) : M dict_consumer (bytes * list (bytes * T)) :=
  next_with dict_is_dict (consume_dict deser).

(** [next_list_data] and [next_dict_data]: the size test comes before the key is
    consumed, and the key is flushed before the value is. *)
Definition next_data (test : M dict_consumer bool) (p : parser bytes) : M dict_consumer (bytes * bytes) := λ st,
  if (length (data st) <? 2)%nat then (Throw bt_deserialize_invalid_type, st)
  else (_ ← require test bt_deserialize_invalid_type;
        k ← flush_key; v ← on_data p; mret (k, v)) st.

Definition next_list_data : M dict_consumer (bytes * bytes) := next_data dict_is_list consume_list_data.
Definition next_dict_data : M dict_consumer (bytes * bytes) := next_data dict_is_dict consume_dict_data.

(** [while (consume_key() && key_ < find) { flush_key(); skip_value(); }
     return key_ == find]. *)
Fixpoint skip_until_fuel (fuel : nat) (find : bytes) : M dict_consumer bool :=
  match fuel with
  | O => λ st, (Diverge, st)
  | S fuel' =>
      b ← consume_key; k ← cached_key;
      if b && bytes_ltb k find
      then _ ← flush_key; _ ← on_data skip_value; skip_until_fuel fuel' find
      else mret (bytes_eqb k find)
  end.

Definition skip_until (find : bytes) : M dict_consumer bool := λ st,
  skip_until_fuel (S (S (length (data st)))) find st.

(** The [consume_*] wrappers discard the key. *)
Definition dict_consume_string : M dict_consumer bytes := '(_, v) ← next_string; mret v.
Definition dict_consume_integer (t : int_type) : M dict_consumer Z :=
  '(_, v) ← next_integer t; mret v.
Definition dict_consume_list {T} (deser : parser T) : M dict_consumer (list T) :=
  '(_, v) ← next_list deser; mret v.
Definition dict_consume_list_data : M dict_consumer bytes := '(_, v) ← next_list_data; mret v.
Definition dict_consume_dict_data : M dict_consumer bytes := '(_, v) ← next_dict_data; mret v.

(** ** [get_int] and [get_tuple] *)
Definition get_int (t : int_type) (v : bt_value) : outcome Z :=
  match v with
  | bt_uint64 value =>
      if negb (bool_decide (t = uint64_t)) && (it_cast uint64_t (it_max t) <? value)
      then Throw overflow_error else Ok (it_cast t value)
  | bt_int64 value =>
      if negb (bool_decide (t = int64_t)) &&
         ((it_cast int64_t (it_max t) <? value) || (value <? it_cast int64_t (it_min t)))
      then Throw overflow_error else Ok (it_cast t value)
  | _ => Throw bad_variant_access
  end.

(** The element types [get_tuple_impl_one] distinguishes, and their values. *)
Inductive tuple_elem : Type :=
  | elem_int (t : int_type)
  | elem_tuple (ts : list tuple_elem)
  | elem_string
  | elem_list
  | elem_dict.

Inductive tuple_val : Type :=
  | val_int (z : Z)
  | val_tuple (vs : list tuple_val)
  | val_string (s : bytes)
  | val_list (l : list bt_value)
  | val_dict (d : list (bytes * bt_value)).

(** [get_tuple_impl]: the sizes must agree, then the elements in order. *)
Definition get_tuple_impl (one : tuple_elem → bt_value → outcome tuple_val) :=
  fix go (ts : list tuple_elem) (l : list bt_value) : outcome (list tuple_val) :=
  match ts, l with
  | t :: ts', v :: l' => x ← one t v; xs ← go ts' l'; mret (x :: xs)
  | _, _ => mret []
  end.

Definition get_tuple_sized (one : tuple_elem → bt_value → outcome tuple_val)
    (ts : list tuple_elem) (l : list bt_value) : outcome (list tuple_val) :=
  if negb (bool_decide (length l = length ts)) then Throw invalid_argument
  else get_tuple_impl one ts l.

(** [std::holds_alternative<bt_list>] and [var::get<bt_list>]. *)
Definition holds_bt_list (v : bt_value) : bool := match v with bt_list _ => true | _ => false end.
Definition get_bt_list (v : bt_value) : outcome (list bt_value) :=
  match v with
  | bt_list l => Ok l
  | _ => Throw bad_variant_access
  end.

Fixpoint get_tuple_impl_one (t : tuple_elem) (v : bt_value) : outcome tuple_val :=
  match t with
  | elem_int t => z ← get_int t v; mret (val_int z)
  | elem_tuple ts =>
      if holds_bt_list v then Throw invalid_argument
      else l ← get_bt_list v; xs ← get_tuple_sized get_tuple_impl_one ts l; mret (val_tuple xs)
  | elem_string =>
      match v with
      | bt_string_view s => mret (val_string s)
      | bt_string s => mret (val_string s)
      | _ => Throw bad_variant_access
      end
  | elem_list => l ← get_bt_list v; mret (val_list l)
  | elem_dict => match v with bt_dict d => mret (val_dict d) | _ => Throw bad_variant_access end
  end.

Definition get_tuple (ts : list tuple_elem) (x : bt_value) : outcome (list tuple_val) :=
  l ← get_bt_list x; get_tuple_sized get_tuple_impl_one ts l.

(** Decides the comparisons of a known byte that a dispatch makes. *)
Ltac decide_heads :=
  repeat first [rewrite bool_decide_eq_true_2 by done | rewrite bool_decide_eq_false_2 by done];
  cbn [negb]; try (change (is_digit "d"%byte) with false); try (change (is_digit "l"%byte) with false);
  try (change (is_digit "i"%byte) with false); cbv iota.

(** ** Skipping agrees with decoding *)
Lemma require_true {S} (cond : M S bool) e s s' :
  cond s = (Ok true, s') → require cond e s = (Ok tt, s').
Proof. intros H. unfold require. by rewrite (bind_Ok _ _ _ _ _ H). Qed.

Lemma on_copy_Ok {A} (p : parser A) s a s' : p s = (Ok a, s') → on_copy p s = (Ok a, s').
Proof. intros H. unfold on_copy. by rewrite H. Qed.

Lemma bt_deserialize_string_first s x s' :
  bt_deserialize_string s = (Ok x, s') → ∃ c r, s = c :: r ∧ is_digit c = true.
Proof.
  unfold bt_deserialize_string. destruct s as [|c [|c2 s]]; [done..|].
  destruct (is_digit c) eqn:E; [|done]. eauto.
Qed.

Lemma consume_string_view_Ok s x s' :
  bt_deserialize_string s = (Ok x, s') → consume_string_view s = (Ok x, s').
Proof.
  intros H. destruct (bt_deserialize_string_first _ _ _ H) as (c & r & -> & Hc).
  unfold consume_string_view. rewrite (bind_Ok _ _ _ tt (c :: r)).
  - by apply on_copy_Ok.
  - apply require_true. unfold is_string. rewrite (bind_Ok front _ _ c (c :: r)) by done.
    by rewrite Hc.
Qed.

Lemma skip_loop_agrees {A} fuel (body : A → parser A) (skip : parser unit) acc s r s' :
  (∀ acc s a s1, body acc s = (Ok a, s1) → s1 ≠ [] → skip s = (Ok tt, s1)) →
  until_e fuel body acc s = (Ok r, s') → skip_loop fuel skip s = (Ok tt, s').
Proof.
  intros Hb. revert acc s. induction fuel as [|fuel IH]; intros acc s; cbn [until_e skip_loop]; [done|].
  destruct s as [|c s]; [done|].
  rewrite (bind_Ok is_finished _ _ (bool_decide (c = "e"%byte)) (c :: s)) by done.
  case_bool_decide; [by intros [= <- <-]|]. intros E. inv_bind.
  rewrite (bind_Ok skip _ _ tt s0); [by eapply IH|]. eapply Hb; [exact E0|].
  intros ->. by destruct fuel.
Qed.

Lemma data_since_app used s : data_since (used ++ s) s = (Ok used, s).
Proof.
  unfold data_since. rewrite length_app, Nat.add_sub. by rewrite take_app_length.
Qed.

Lemma container_data_agrees {A} o (body : A → parser A) e is_open (skip : parser unit) s r s' :
  (∀ t, is_open (o :: t) = (Ok true, o :: t)) →
  (∀ acc, shrinks (body acc)) →
  (∀ acc s a s1, body acc s = (Ok a, s1) → s1 ≠ [] → skip s = (Ok tt, s1)) →
  bt_container o body e s = (Ok r, s') →
  ∃ used, s = used ++ s' ∧ container_data is_open skip s = (Ok used, s').
Proof.
  intros Ho Hsh Hb H. destruct (bt_container_consumes _ _ _ Hsh _ _ _ H) as (u & _ & Eu).
  exists u. split; [done|]. revert H. unfold bt_container, container_data.
  destruct s as [|c [|c2 s]]; [done..|]. case_bool_decide as Hc; [subst c|done].
  simpl negb. cbv iota. intros H. simpl length. cbv beta iota zeta.
  rewrite (bind_Ok _ _ _ tt (o :: c2 :: s)) by (by apply require_true).
  rewrite (bind_Ok remove_front _ _ tt (c2 :: s)) by done.
  rewrite (bind_Ok _ _ _ tt s') by (by eapply skip_loop_agrees).
  rewrite Eu. by rewrite data_since_app.
Qed.

Lemma list_body_agrees (rec : parser bt_value) (skip : parser unit) :
  (∀ s v s', rec s = (Ok v, s') → skip s = (Ok tt, s')) →
  ∀ (acc : list bt_value) s a s1, mbind (M:=M bytes) (λ v, mret (acc ++ [v])) rec s = (Ok a, s1) → s1 ≠ [] →
  list_data_body skip s = (Ok tt, s1).
Proof.
  intros Hr acc s a s1 E Hne. inv_bind. unfold mret, M_ret in E. injection E as <- <-.
  unfold list_data_body. rewrite (bind_Ok _ _ _ _ _ (Hr _ _ _ E0)). by destruct s0.
Qed.

Lemma dict_body_agrees (rec : parser bt_value) (skip : parser unit) :
  (∀ s v s', rec s = (Ok v, s') → s ≠ [] ∧ skip s = (Ok tt, s')) →
  ∀ (acc : list (bytes * bt_value)) s a s1,
  mbind (M:=M bytes) (λ k, v ← rec; mret (map_insert k v acc)) bt_deserialize_string s = (Ok a, s1) → s1 ≠ [] →
  dict_data_body skip s = (Ok tt, s1).
Proof.
  intros Hr acc s a s1 E Hne. inv_bind. unfold mret, M_ret in E. injection E as <- <-.
  unfold dict_data_body. rewrite (bind_Ok _ _ _ _ _ (consume_string_view_Ok _ _ _ E0)).
  apply Hr in E1 as [Hne1 E1]. rewrite (bind_Ok _ _ _ tt s2); [by destruct s2|].
  unfold skip_if_data. by destruct s0.
Qed.

Lemma list_data_agrees (rec : parser bt_value) (skip : parser unit) s l s' :
  consumes rec → (∀ s v s', rec s = (Ok v, s') → skip s = (Ok tt, s')) →
  bt_deserialize_list rec s = (Ok l, s') →
  ∃ used, s = used ++ s' ∧ container_data is_list (list_data_body skip) s = (Ok used, s').
Proof.
  intros Hc Hr. unfold bt_deserialize_list.
  apply container_data_agrees; [done|by eauto with parser|]. by apply list_body_agrees.
Qed.

Lemma dict_data_agrees (rec : parser bt_value) (skip : parser unit) s d s' :
  consumes rec → (∀ s v s', rec s = (Ok v, s') → skip s = (Ok tt, s')) →
  bt_deserialize_dict rec s = (Ok d, s') →
  ∃ used, s = used ++ s' ∧ container_data is_dict (dict_data_body skip) s = (Ok used, s').
Proof.
  intros Hc Hr. unfold bt_deserialize_dict. apply container_data_agrees; [done| |].
  - intros. apply consumes_shrinks, dict_body_consumes. eauto with parser.
  - apply dict_body_agrees. intros s1 v1 s1' H. split; [|by eapply Hr]. intros ->.
    by apply Hc in H as ([|] & ? & ?).
Qed.

(** The dispatch of [skip_value] on the first byte. *)
Lemma skip_value_dispatch skip c s :
  skip_value_body skip (c :: s)
  = (if is_digit c then _ ← consume_string_view; mret tt
     else if bool_decide (c = "i"%byte) then _ ← bt_deserialize_integer; mret tt
     else if bool_decide (c = "l"%byte) then _ ← container_data is_list (list_data_body skip); mret tt
     else if bool_decide (c = "d"%byte) then _ ← container_data is_dict (dict_data_body skip); mret tt
     else throwM bt_deserialize_invalid_type) (c :: s).
Proof.
  unfold skip_value_body.
  rewrite (bind_Ok is_string _ _ (is_digit c) (c :: s)) by done. destruct (is_digit c); [done|].
  rewrite (bind_Ok is_integer _ _ (bool_decide (c = "i"%byte)) (c :: s)) by done.
  case_bool_decide; [done|].
  rewrite (bind_Ok is_list _ _ (bool_decide (c = "l"%byte)) (c :: s)) by done.
  case_bool_decide; [done|].
  rewrite (bind_Ok is_dict _ _ (bool_decide (c = "d"%byte)) (c :: s)) by done.
  by case_bool_decide.
Qed.

Lemma skip_value_body_agrees rec skip s v s' :
  consumes rec → (∀ s v s', rec s = (Ok v, s') → skip s = (Ok tt, s')) →
  bt_value_body rec s = (Ok v, s') → skip_value_body skip s = (Ok tt, s').
Proof.
  intros Hc Hr. unfold bt_value_body. destruct s as [|c [|c2 s]]; [done..|].
  generalize (c2 :: s). clear s c2. intros s.
  destruct (decide (c = "d"%byte)) as [->|Hd]; [|destruct (decide (c = "l"%byte)) as [->|Hl];
    [|destruct (decide (c = "i"%byte)) as [->|Hi]; [|destruct (is_digit c) eqn:Ec]]];
    rewrite skip_value_dispatch, ?Ec; decide_heads; intros E; inv_bind.
  - destruct (dict_data_agrees _ skip _ _ _ Hc Hr E0) as (u & _ & E1).
    rewrite (bind_Ok _ _ _ _ _ E1). unfold mret, M_ret in *. by injection E as <- <-.
  - destruct (list_data_agrees _ skip _ _ _ Hc Hr E0) as (u & _ & E1).
    rewrite (bind_Ok _ _ _ _ _ E1). unfold mret, M_ret in *. by injection E as <- <-.
  - rewrite (bind_Ok _ _ _ _ _ E0). destruct a as [m []]; inv_bind; unfold mret, M_ret in *.
    + unfold liftM in E1. by simplify_eq.
    + by injection E as <- <-.
  - rewrite (bind_Ok _ _ _ _ _ (consume_string_view_Ok _ _ _ E0)). unfold mret, M_ret in *.
    by injection E as <- <-.
  - done.
Qed.

Lemma skip_value_fuel_agrees n s v s' :
  bt_deserialize_fuel n s = (Ok v, s') → skip_value_fuel n s = (Ok tt, s').
Proof.
  revert s v s'. induction n as [|n IH]; intros s v s'; [done|].
  apply skip_value_body_agrees; [apply bt_deserialize_fuel_consumes|done].
Qed.

Lemma skip_value_agrees s v s' :
  bt_deserialize_value s = (Ok v, s') → skip_value s = (Ok tt, s').
Proof. apply skip_value_fuel_agrees. Qed.

(** ** Skipping ends *)
Lemma front_shrinks : shrinks front.
Proof. intros [|c s] a s' E; [done|]. exists []. by injection E as _ <-. Qed.

Lemma front_ends k : ends k front.
Proof. by intros [|c s]. Qed.

Lemma require_shrinks (cond : parser bool) e : shrinks cond → shrinks (require cond e).
Proof. intros. apply shrinks_bind; [done|]. intros []; [apply shrinks_ret|by intros s a s']. Qed.

Lemma require_ends k (cond : parser bool) e : ends k cond → shrinks cond → ends k (require cond e).
Proof. intros. apply ends_bind; [done..|]. by intros []. Qed.

Lemma on_copy_consumes {A} (p : parser A) : consumes p → consumes (on_copy p).
Proof.
  intros Hp s a s'. unfold on_copy. destruct (p s) as [[a'|e| |] s1] eqn:E; try done.
  intros [= <- <-]. by eapply Hp.
Qed.

Lemma on_copy_ends {A} k (p : parser A) : ends k p → ends k (on_copy p).
Proof. intros Hp s Hs. specialize (Hp s Hs). unfold on_copy. by destruct (p s) as [[] ?]. Qed.

Lemma test_shrinks (f : byte → bool) : shrinks (c ← front; mret (f c)).
Proof. apply shrinks_bind; [apply front_shrinks|eauto with parser]. Qed.

Lemma test_ends k (f : byte → bool) : ends k (c ← front; mret (f c)).
Proof. apply ends_bind; [apply front_ends|apply front_shrinks|eauto with parser]. Qed.

#[export] Hint Resolve front_shrinks front_ends require_shrinks require_ends on_copy_consumes
  on_copy_ends test_shrinks test_ends : parser.

Lemma consume_string_view_consumes : consumes consume_string_view.
Proof.
  intros [|c s] a s'; [done|]. unfold consume_string_view.
  apply consumes_bind_r; [apply require_shrinks, test_shrinks|eauto with parser].
Qed.

Lemma consume_string_view_ends k : ends k consume_string_view.
Proof.
  intros [|c s] Hs; [done|]. unfold consume_string_view. revert Hs.
  apply (ends_bind k); [apply require_ends; [apply test_ends|apply test_shrinks]
    |apply require_shrinks, test_shrinks|eauto with parser].
Qed.

Lemma require_data_shrinks : shrinks require_data.
Proof. intros [|c s] a s' E; [done|]. exists []. by injection E as _ <-. Qed.

Lemma require_data_ends k : ends k require_data.
Proof. by intros [|c s]. Qed.

Lemma skip_if_data_shrinks skip : shrinks skip → shrinks (skip_if_data skip).
Proof. intros H [|c s] a s'; [|apply H]. intros E. exists []. by injection E as _ <-. Qed.

Lemma skip_if_data_ends k skip : ends k skip → ends k (skip_if_data skip).
Proof. by intros H [|c s]; [|apply H]. Qed.

#[export] Hint Resolve consume_string_view_consumes consume_string_view_ends require_data_shrinks
  require_data_ends skip_if_data_shrinks skip_if_data_ends : parser.

Lemma skip_loop_consumes fuel body : shrinks body → consumes (skip_loop fuel body).
Proof.
  intros Hb. induction fuel as [|fuel IH]; [by intros s a s'|]. intros s a s'. cbn [skip_loop].
  destruct s as [|c s]; [done|].
  rewrite (bind_Ok is_finished _ _ (bool_decide (c = "e"%byte)) (c :: s)) by done.
  case_bool_decide.
  - intros [= <- <-]. exists [c]. by rewrite drop_0.
  - apply consumes_bind_r; eauto with parser.
Qed.

Lemma skip_loop_ends k body fuel :
  consumes body → ends k body →
  ∀ s, (length s < k)%nat → (length s < fuel)%nat → (skip_loop fuel body s).1 ≠ Diverge.
Proof.
  intros Hc He. induction fuel as [|fuel IH]; intros s Hk Hf; [lia|]. cbn [skip_loop].
  destruct s as [|c s]; [done|].
  rewrite (bind_Ok is_finished _ _ (bool_decide (c = "e"%byte)) (c :: s)) by done.
  case_bool_decide; [done|]. specialize (He _ Hk). unfold mbind, M_bind.
  destruct (body (c :: s)) as [[[]|e| |] s1] eqn:E; simpl in *; try done.
  apply Hc in E as (u & Hne & E). apply (f_equal length) in E. rewrite length_app in E.
  destruct u; [done|]. simpl in *. apply IH; lia.
Qed.

Lemma container_data_consumes is_open body :
  shrinks is_open → shrinks body → consumes (container_data is_open body).
Proof.
  intros Ho Hb s a s'. unfold container_data. destruct (_ <? 2)%nat; [done|].
  apply consumes_bind_r; [eauto with parser|]. intros _.
  apply consumes_bind_r; [intros s1 [] s1' E; injection E as <-; exists (take 1 s1); by rewrite take_drop|].
  intros _. apply consumes_bind_l; [by apply skip_loop_consumes|].
  intros _ s1 a1 s1' E. exists []. by injection E as _ <-.
Qed.

Lemma container_data_ends k is_open body :
  (∀ c s, ∃ b, is_open (c :: s) = (Ok b, c :: s)) → consumes body → ends k body →
  ends (S k) (container_data is_open body).
Proof.
  intros Ho Hc He s Hs. unfold container_data. destruct (_ <? 2)%nat eqn:El; [done|].
  destruct s as [|c s]; [done|]. destruct (Ho c s) as [[] Hb].
  - rewrite (bind_Ok _ _ _ tt (c :: s)) by (by apply require_true).
    rewrite (bind_Ok remove_front _ _ tt s) by done.
    pose proof (skip_loop_ends k body (length (c :: s)) Hc He s) as Hl. simpl length in *.
    unfold mbind, M_bind. destruct (skip_loop _ body s) as [[[]|e| |] s1] eqn:E; simpl in *; try done.
    intros _. apply Hl; [lia|lia|done].
  - unfold require, throwM, mbind, M_bind. by rewrite Hb.
Qed.

Lemma test_pure (f : byte → bool) c s :
  ∃ b, mbind (M:=M bytes) (λ c, mret (f c)) front (c :: s) = (Ok b, c :: s).
Proof. by exists (f c). Qed.

Lemma skip_value_body_consumes skip : consumes skip → consumes (skip_value_body skip).
Proof.
  intros Hs [|c s] a s'; [done|]. rewrite skip_value_dispatch.
  assert (shrinks (list_data_body skip)) by (apply shrinks_bind; eauto with parser).
  assert (shrinks (dict_data_body skip)) by (apply shrinks_bind; eauto with parser).
  repeat case_match; [..|done]; apply consumes_bind_l; eauto with parser;
    apply container_data_consumes; try done; apply test_shrinks.
Qed.

Lemma skip_value_fuel_consumes n : consumes (skip_value_fuel n).
Proof. induction n as [|n IH]; [by intros s a s'|]. by apply skip_value_body_consumes. Qed.

Lemma list_data_body_frame k skip :
  consumes skip → ends k skip → consumes (list_data_body skip) ∧ ends k (list_data_body skip).
Proof.
  intros. split; [apply consumes_bind_l|apply ends_bind]; eauto with parser.
Qed.

Lemma dict_data_body_frame k skip :
  consumes skip → ends k skip → consumes (dict_data_body skip) ∧ ends k (dict_data_body skip).
Proof.
  intros. split; [apply consumes_bind_l; eauto with parser|].
  apply ends_bind; [by eauto with parser..|]. intros _. apply ends_bind; eauto with parser.
Qed.

Lemma skip_value_body_ends k skip :
  consumes skip → ends k skip → ends (S k) (skip_value_body skip).
Proof.
  intros Hc He [|c s] Hs; [done|]. rewrite skip_value_dispatch.
  destruct (list_data_body_frame k skip Hc He) as [Hl1 Hl2].
  destruct (dict_data_body_frame k skip Hc He) as [Hd1 Hd2].
  repeat case_match; [..|done]; revert Hs; apply (ends_bind (S k)); eauto with parser.
  - apply container_data_ends; [apply test_pure|done..].
  - apply consumes_shrinks, container_data_consumes; [apply test_shrinks|by apply consumes_shrinks].
  - apply container_data_ends; [apply test_pure|done..].
  - apply consumes_shrinks, container_data_consumes; [apply test_shrinks|by apply consumes_shrinks].
Qed.

Lemma skip_value_fuel_ends n : ends n (skip_value_fuel n).
Proof.
  induction n as [|n IH]; [intros s; lia|].
  apply skip_value_body_ends; [apply skip_value_fuel_consumes|done].
Qed.

Lemma skip_value_terminates s : (skip_value s).1 ≠ Diverge.
Proof. apply (skip_value_fuel_ends (S (length s))). lia. Qed.

(** What one iteration of [skip_until] leaves: no key, and less data. *)
Lemma skip_until_step st b st1 :
  consume_key st = (Ok b, st1) →
  (b = true → ∃ k, key_ st1 = Some k) ∧
  (length (data st1) + (if key_ st1 is Some _ then 1 else 0) <= length (data st) + (if key_ st is Some _ then 1 else 0))%nat.
Proof.
  unfold consume_key. destruct st as [s [k|]]; simpl.
  - intros [= <- <-]. simpl. split; [eauto|lia].
  - destruct s as [|c s]; [done|]. case_bool_decide.
    + intros [= <- <-]. simpl. split; [done|lia].
    + intros E. inv_bind. unfold on_data in E0. cbn [data key_] in E0.
      destruct (consume_string_view (c :: s)) as [o r1] eqn:Ec. injection E0 as -> <-.
      apply consume_string_view_consumes in Ec as (u & Hne & Eu).
      apply (f_equal length) in Eu. rewrite length_app in Eu.
      unfold set_key in E1. injection E1 as <- <-. unfold require_value in E. simpl in E.
      destruct r1 as [|c1 r1]; [done|]. case_bool_decide; [done|]. injection E as <- <-.
      simpl in *. split; [eauto|]. destruct u; [done|]. simpl in *. lia.
Qed.

Lemma consume_key_terminates st : (consume_key st).1 ≠ Diverge.
Proof.
  unfold consume_key. destruct st as [s [k|]]; simpl; [done|]. destruct s as [|c s]; [done|].
  case_bool_decide; [done|].
  pose proof (consume_string_view_ends (S (length (c :: s))) (c :: s) ltac:(lia)) as He.
  unfold on_data, mbind, M_bind. simpl data.
  destruct (consume_string_view (c :: s)) as [[k|e| |] s1]; simpl in *; try done.
  unfold require_value. simpl. destruct s1; [done|]. by case_bool_decide.
Qed.

Lemma skip_until_fuel_terminates fuel find st :
  (length (data st) + (if key_ st is Some _ then 1 else 0) < fuel)%nat →
  (skip_until_fuel fuel find st).1 ≠ Diverge.
Proof.
  revert st. induction fuel as [|fuel IH]; intros st Hf; [lia|]. cbn [skip_until_fuel].
  pose proof (consume_key_terminates st) as Hk. unfold mbind at 1, M_bind at 1.
  destruct (consume_key st) as [[b|e| |] st1] eqn:E; simpl in Hk; try done.
  destruct (skip_until_step _ _ _ E) as [Hb Hl].
  rewrite (bind_Ok cached_key _ _ (default [] (key_ st1)) st1) by done.
  destruct b; [|done]. destruct (Hb eq_refl) as [k Ek].
  destruct (true && _) eqn:Et; [|done].
  rewrite (bind_Ok flush_key _ _ (default [] (key_ st1)) (DictConsumer (data st1) None)) by done.
  pose proof (skip_value_terminates (data st1)) as Hs. unfold on_data, mbind, M_bind. simpl data.
  destruct (skip_value (data st1)) as [[[]|e| |] s2] eqn:Es; simpl in Hs; try done.
  apply IH. simpl. apply skip_value_fuel_consumes in Es as (u & Hne & Eu).
  apply (f_equal length) in Eu. rewrite length_app in Eu. destruct u; [done|].
  rewrite Ek in Hl. simpl in *. lia.
Qed.

(** ** The dict consumer as a cursor over the entries

    [dict_at tail st d]: [st] stands before the entries [d] of a dict that is
    followed by [tail], with or without the first key already read. *)
Definition entries_data (d : list (bytes * bt_value)) (tail : bytes) : bytes :=
  concat ((λ kv, bt_serialize_string kv.1 ++ bt_serialize kv.2) <$> d) ++ "e"%byte :: tail.

Inductive dict_at (tail : bytes) : dict_consumer → list (bytes * bt_value) → Prop :=
  | at_key d : dict_at tail (DictConsumer (entries_data d tail) None) d
  | at_value k v d :
      dict_at tail (DictConsumer (bt_serialize v ++ entries_data d tail) (Some k)) ((k, v) :: d).

Definition entries_ok : list (bytes * bt_value) → Prop :=
  Forall (λ kv, Z.of_nat (length kv.1) < 2 ^ 64 ∧ bt_encodable kv.2).

(** The entries that remain once every key below [find] is skipped. *)
Fixpoint drop_below (find : bytes) (d : list (bytes * bt_value)) : list (bytes * bt_value) :=
  match d with
  | (k, v) :: d' => if bytes_ltb k find then drop_below find d' else d
  | [] => []
  end.

Lemma entries_data_cons k v d tail :
  entries_data ((k, v) :: d) tail = bt_serialize_string k ++ bt_serialize v ++ entries_data d tail.
Proof. unfold entries_data. rewrite fmap_cons. cbn [concat fst snd]. by rewrite <-!app_assoc. Qed.

Lemma entries_data_ctor d tail :
  map_sorted d = true →
  bt_dict_consumer_ctor (bt_serialize (bt_dict d) ++ tail)
  = Ok (DictConsumer (entries_data d tail) None).
Proof.
  intros Hd. cbn [bt_serialize]. rewrite bt_serialize_dict_sorted by (by apply map_sorted_nodup).
  rewrite merge_sort_map_sorted by done. cbn [app]. rewrite <-app_assoc. cbn [app].
  unfold bt_dict_consumer_ctor. fold (entries_data d tail).
  assert (∃ c r, entries_data d tail = c :: r) as (c & r & ->).
  { unfold entries_data. destruct (concat _); simpl; eauto. }
  cbn [length Nat.ltb Nat.leb]. by rewrite bool_decide_eq_true_2 by done.
Qed.

Lemma length_entries_data d tail : (length d < length (entries_data d tail))%nat.
Proof.
  induction d as [|[k v] d IH]; [unfold entries_data; simpl; lia|].
  rewrite entries_data_cons, !length_app.
  destruct (bt_serialize_string_head k) as (x & y & r & -> & _). simpl. lia.
Qed.

Lemma consume_key_at tail st k v d :
  Z.of_nat (length k) < 2 ^ 64 → dict_at tail st ((k, v) :: d) →
  consume_key st = (Ok true, DictConsumer (bt_serialize v ++ entries_data d tail) (Some k)).
Proof.
  intros Hk H. inversion H; subst; clear H; [|done].
  destruct (bt_serialize_string_head k) as (x & y & r & E & Hx). unfold consume_key. cbn [key_ data].
  rewrite entries_data_cons.
  pose proof (bt_deserialize_serialize_string k (bt_serialize v ++ entries_data d tail) Hk) as Hd.
  rewrite E in *. cbn [app] in *. rewrite bool_decide_eq_false_2 by (by apply digit_not_e).
  rewrite (bind_Ok _ _ _ k (DictConsumer (bt_serialize v ++ entries_data d tail) None)).
  - rewrite (bind_Ok (set_key k) _ _ tt
      (DictConsumer (bt_serialize v ++ entries_data d tail) (Some k))) by done.
    destruct (bt_serialize_head v) as (x2 & y2 & r2 & -> & Hne). unfold require_value. cbn [data app].
    by rewrite bool_decide_eq_false_2 by done.
  - unfold on_data. cbn [data key_]. by rewrite (consume_string_view_Ok _ _ _ Hd).
Qed.

Lemma consume_key_end tail st : dict_at tail st [] → consume_key st = (Ok false, st).
Proof. intros H. inversion H; subst. done. Qed.

(** A [next_*] method on an entry of its type: the test accepts the value's first
    byte, the parser consumes exactly the value. *)
Lemma next_with_at {A} tail st k v d (test : parser bool) (p : parser A) a :
  Z.of_nat (length k) < 2 ^ 64 → dict_at tail st ((k, v) :: d) →
  test (bt_serialize v ++ entries_data d tail) = (Ok true, bt_serialize v ++ entries_data d tail) →
  p (bt_serialize v ++ entries_data d tail) = (Ok a, entries_data d tail) →
  next_with (key_and test) p st = (Ok (k, a), DictConsumer (entries_data d tail) None).
Proof.
  intros Hk Hat Ht Hp. unfold next_with.
  rewrite (bind_Ok _ _ _ tt (DictConsumer (bt_serialize v ++ entries_data d tail) (Some k))).
  - rewrite (bind_Ok _ _ _ a (DictConsumer (entries_data d tail) (Some k)));
      [done|]. unfold on_data. cbn [data key_]. by rewrite Hp.
  - apply require_true. unfold key_and. rewrite (bind_Ok _ _ _ _ _ (consume_key_at _ _ _ _ _ Hk Hat)).
    unfold on_data. cbn [data key_]. by rewrite Ht.
Qed.

(** On an entry of another type it throws, and the entry is still there. *)
Lemma next_with_mismatch {A} tail st k v d (test : parser bool) (p : parser A) :
  Z.of_nat (length k) < 2 ^ 64 → dict_at tail st ((k, v) :: d) →
  test (bt_serialize v ++ entries_data d tail) = (Ok false, bt_serialize v ++ entries_data d tail) →
  ∃ st', next_with (key_and test) p st = (Throw bt_deserialize_invalid_type, st') ∧
    dict_at tail st' ((k, v) :: d).
Proof.
  intros Hk Hat Ht. eexists. split; [|apply at_value].
  unfold next_with, require, key_and, mbind, M_bind.
  rewrite (consume_key_at _ _ _ _ _ Hk Hat). unfold on_data. cbn [data key_]. by rewrite Ht.
Qed.

(** First bytes of the encodings, as the type tests see them. *)
Lemma is_string_string x r :
  is_string (bt_serialize_string x ++ r) = (Ok true, bt_serialize_string x ++ r).
Proof.
  destruct (bt_serialize_string_head x) as (c & c2 & r2 & -> & Hc). cbn [app]. unfold is_string.
  rewrite (bind_Ok front _ _ c (c :: c2 :: r2 ++ r)) by done. by rewrite Hc.
Qed.

Lemma next_string_at tail st k x d v :
  Z.of_nat (length k) < 2 ^ 64 → Z.of_nat (length x) < 2 ^ 64 →
  bt_serialize v = bt_serialize_string x → dict_at tail st ((k, v) :: d) →
  next_string st = (Ok (k, x), DictConsumer (entries_data d tail) None).
Proof.
  intros Hk Hx Hv Hat. unfold next_string, dict_is_string, key_and.
  rewrite (bind_Ok _ _ _ true (DictConsumer (bt_serialize v ++ entries_data d tail) (Some k))).
  - rewrite (bind_Ok _ _ _ x (DictConsumer (entries_data d tail) (Some k))); [done|].
    unfold on_data. cbn [data key_]. rewrite Hv.
    by rewrite (consume_string_view_Ok _ _ _ (bt_deserialize_serialize_string _ _ Hx)).
  - rewrite (bind_Ok _ _ _ _ _ (consume_key_at _ _ _ _ _ Hk Hat)).
    unfold on_data. cbn [data key_]. by rewrite Hv, is_string_string.
Qed.

Lemma consume_integer_at t z r :
  it_ok t → it_range t z → z ≠ it_min int64_t →
  consume_integer t (bt_serialize_int z ++ r) = (Ok z, r).
Proof.
  intros Ht Hr Hm. unfold consume_integer.
  rewrite (bind_Ok _ _ _ tt (bt_serialize_int z ++ r)).
  - apply on_copy_Ok. pose proof (int_codec_ok t Ht) as Hok.
    by apply (codec_roundtrip (BtCodecOk := Hok)).
  - apply require_true. by destruct (bt_serialize_int_head z) as (y & r2 & ->).
Qed.

Lemma consume_list_at l r :
  bt_encodable (bt_list l) →
  consume_list bt_deserialize_value (bt_serialize (bt_list l) ++ r) = (Ok (bt_norm <$> l), r).
Proof.
  intros [Hwf Hm]. rewrite bt_wf_list in Hwf. rewrite bt_no_int64_min_list in Hm.
  unfold consume_list. rewrite (bind_Ok _ _ _ tt (bt_serialize (bt_list l) ++ r)).
  - apply on_copy_Ok. apply (codec_roundtrip (c := list_codec value_codec)).
    rewrite Forall_forall in *. intros v Hv. by split; auto.
  - apply require_true. cbn [bt_serialize].
    by destruct (bt_serialize_list_head bt_serialize l) as (y & r2 & ->).
Qed.

(** [consume_list_data] and [consume_dict_data] return the encoded container. *)
Lemma consume_list_data_at l r :
  bt_encodable (bt_list l) →
  consume_list_data (bt_serialize (bt_list l) ++ r) = (Ok (bt_serialize (bt_list l)), r).
Proof.
  intros Hl. pose proof (bt_deserialize_serialize _ r Hl) as H. unfold bt_deserialize_value in H.
  cbn [bt_deserialize_fuel] in H. unfold consume_list_data.
  set (s := bt_serialize (bt_list l) ++ r) in *.
  assert (∃ y r2, s = "l"%byte :: y :: r2) as (y & r2 & Es).
  { unfold s. cbn [bt_serialize]. destruct (bt_serialize_list_head bt_serialize l) as (y & r2 & ->).
    simpl. eauto. }
  assert (∃ l', bt_deserialize_list (bt_deserialize_fuel (length s)) s = (Ok l', r)) as [l' Hl'].
  { rewrite Es in *. unfold bt_value_body in H.
    rewrite bool_decide_eq_false_2, bool_decide_eq_true_2 in H by done. inv_bind.
    unfold mret, M_ret in H. simplify_eq. eauto. }
  apply (list_data_agrees _ (skip_value_fuel (length s))) in Hl' as (u & Eu & Hc).
  - rewrite Hc. repeat f_equal. unfold s in Eu. by apply app_inv_tail in Eu.
  - apply bt_deserialize_fuel_consumes.
  - intros. by eapply skip_value_fuel_agrees.
Qed.

Lemma consume_dict_data_at d r :
  bt_encodable (bt_dict d) →
  consume_dict_data (bt_serialize (bt_dict d) ++ r) = (Ok (bt_serialize (bt_dict d)), r).
Proof.
  intros Hd. pose proof (bt_deserialize_serialize _ r Hd) as H. unfold bt_deserialize_value in H.
  cbn [bt_deserialize_fuel] in H. unfold consume_dict_data.
  set (s := bt_serialize (bt_dict d) ++ r) in *.
  assert (∃ y r2, s = "d"%byte :: y :: r2) as (y & r2 & Es).
  { unfold s. cbn [bt_serialize]. destruct (bt_serialize_dict_head bt_serialize d) as (y & r2 & ->).
    simpl. eauto. }
  assert (∃ d', bt_deserialize_dict (bt_deserialize_fuel (length s)) s = (Ok d', r)) as [d' Hd'].
  { rewrite Es in *. unfold bt_value_body in H.
    rewrite bool_decide_eq_true_2 in H by done. inv_bind.
    unfold mret, M_ret in H. simplify_eq. eauto. }
  apply (dict_data_agrees _ (skip_value_fuel (length s))) in Hd' as (u & Eu & Hc).
  - rewrite Hc. repeat f_equal. unfold s in Eu. by apply app_inv_tail in Eu.
  - apply bt_deserialize_fuel_consumes.
  - intros. by eapply skip_value_fuel_agrees.
Qed.

(** ** [skip_until] *)
Lemma skip_until_fuel_at tail find fuel st d :
  entries_ok d → dict_at tail st d → (length d < fuel)%nat →
  ∃ st', skip_until_fuel fuel find st
    = (Ok (bytes_eqb (match drop_below find d with (k, _) :: _ => k | [] => [] end) find), st') ∧
    dict_at tail st' (drop_below find d).
Proof.
  intros Hd. revert st fuel. induction Hd as [|[k v] d [Hk Hv] Hd IH]; intros st fuel Hat Hf;
    (destruct fuel as [|fuel]; [simpl in Hf; lia|]); cbn [skip_until_fuel drop_below].
  - rewrite (bind_Ok _ _ _ _ _ (consume_key_end _ _ Hat)). inversion Hat; subst.
    eexists. split; [done|constructor].
  - simpl in Hk, Hv. rewrite (bind_Ok _ _ _ _ _ (consume_key_at _ _ _ _ _ Hk Hat)).
    erewrite (bind_Ok cached_key) by done. cbn [key_ default].
    unfold id. cbn [andb]. destruct (bytes_ltb k find) eqn:Eb.
    + cbv iota. erewrite (bind_Ok flush_key) by done. cbn [data].
      rewrite (bind_Ok _ _ _ tt (DictConsumer (entries_data d tail) None)).
      * apply IH; [constructor|simpl in Hf; lia].
      * unfold on_data. cbn [data key_].
        by rewrite (skip_value_agrees _ _ _ (bt_deserialize_serialize v _ Hv)).
    + eexists. split; [done|constructor].
Qed.

Lemma skip_until_at tail find st d :
  entries_ok d → dict_at tail st d →
  ∃ st', skip_until find st
    = (Ok (bytes_eqb (match drop_below find d with (k, _) :: _ => k | [] => [] end) find), st') ∧
    dict_at tail st' (drop_below find d).
Proof.
  intros Hd Hat. apply skip_until_fuel_at; [done..|]. destruct Hat as [d|k v d]; cbn [data].
  - pose proof (length_entries_data d tail). lia.
  - rewrite length_app. pose proof (length_entries_data d tail). simpl. lia.
Qed.

Lemma drop_below_ok find d : entries_ok d → entries_ok (drop_below find d).
Proof.
  intros H. induction H as [|[k v] d H1 H2 IH]; [constructor|]. cbn [drop_below].
  destruct (bytes_ltb k find); [done|by constructor].
Qed.

Lemma drop_below_sorted find d : map_sorted d = true → map_sorted (drop_below find d) = true.
Proof.
  induction d as [|[k v] d IH]; [done|]. intros Hs. cbn [drop_below].
  destruct (bytes_ltb k find); [|done]. apply map_sorted_cons in Hs as [_ Hs]. auto.
Qed.

(** No key from [find] on is lost by the skipping. *)
Lemma map_find_drop_below find k d :
  bytes_le find k → map_find k (drop_below find d) = map_find k d.
Proof.
  intros Hk. induction d as [|[k2 v] d IH]; [done|]. cbn [drop_below map_find].
  destruct (bytes_ltb k2 find) eqn:E; [|done]. rewrite IH.
  destruct (bytes_eqb k2 k) eqn:E2; [|done]. apply bytes_eqb_eq in E2 as ->.
  unfold bytes_le in Hk. congruence.
Qed.

(** In a sorted dict, the head left by the skipping is the key sought exactly
    when the dict has it. *)
Lemma drop_below_head find d :
  map_sorted d = true → find ≠ [] →
  bytes_eqb (match drop_below find d with (k, _) :: _ => k | [] => [] end) find
  = bool_decide (is_Some (map_find find d)).
Proof.
  intros Hs Hne. rewrite <-(map_find_drop_below find find d) by apply bytes_ltb_irrefl.
  pose proof (drop_below_sorted find d Hs) as Hs'.
  assert (match drop_below find d with (k, _) :: _ => bytes_ltb k find = false | [] => True end) as Hh.
  { clear. induction d as [|[k v] d IH]; [done|]. cbn [drop_below].
    by destruct (bytes_ltb k find) eqn:E. }
  destruct (drop_below find d) as [|[k v] d']; cbn [map_find].
  - rewrite bool_decide_eq_false_2 by (by intros []). unfold bytes_eqb.
    by rewrite bool_decide_eq_false_2 by done.
  - destruct (bytes_eqb k find) eqn:E; [by rewrite bool_decide_eq_true_2 by done|].
    apply map_sorted_cons in Hs' as [Hb _]. rewrite (map_find_below find d').
    + by rewrite bool_decide_eq_false_2 by (by intros []).
    + destruct (bytes_ltb find k) eqn:E2; [by eapply key_below_trans|].
      rewrite (bytes_ltb_total _ _ Hh E2), bytes_eqb_refl in E. done.
Qed.

(** ** Reading one entry *)
Lemma dict_at_size tail st k v d : dict_at tail st ((k, v) :: d) → (length (data st) <? 2)%nat = false.
Proof.
  intros H. inversion H; subst; cbn [data].
  - rewrite entries_data_cons. by destruct (bt_serialize_string_head k) as (x & y & r & -> & _).
  - by destruct (bt_serialize_head v) as (x & y & r & -> & _).
Qed.

Lemma next_data_at tail st k v d (test : parser bool) (p : parser bytes) a :
  Z.of_nat (length k) < 2 ^ 64 → dict_at tail st ((k, v) :: d) →
  test (bt_serialize v ++ entries_data d tail) = (Ok true, bt_serialize v ++ entries_data d tail) →
  p (bt_serialize v ++ entries_data d tail) = (Ok a, entries_data d tail) →
  next_data (key_and test) p st = (Ok (k, a), DictConsumer (entries_data d tail) None).
Proof.
  intros Hk Hat Ht Hp. unfold next_data. rewrite (dict_at_size _ _ _ _ _ Hat).
  rewrite (bind_Ok _ _ _ tt (DictConsumer (bt_serialize v ++ entries_data d tail) (Some k))).
  - erewrite (bind_Ok flush_key) by done.
    rewrite (bind_Ok _ _ _ a (DictConsumer (entries_data d tail) None)); [done|].
    unfold on_data. cbn [data key_]. by rewrite Hp.
  - apply require_true. unfold key_and. rewrite (bind_Ok _ _ _ _ _ (consume_key_at _ _ _ _ _ Hk Hat)).
    unfold on_data. cbn [data key_]. by rewrite Ht.
Qed.

Lemma is_list_list l r : is_list (bt_serialize (bt_list l) ++ r) = (Ok true, bt_serialize (bt_list l) ++ r).
Proof. cbn [bt_serialize]. by destruct (bt_serialize_list_head bt_serialize l) as (y & r2 & ->). Qed.

Lemma is_dict_dict d r : is_dict (bt_serialize (bt_dict d) ++ r) = (Ok true, bt_serialize (bt_dict d) ++ r).
Proof. cbn [bt_serialize]. by destruct (bt_serialize_dict_head bt_serialize d) as (y & r2 & ->). Qed.

Lemma is_integer_int z r :
  is_integer (bt_serialize_int z ++ r) = (Ok true, bt_serialize_int z ++ r).
Proof. by destruct (bt_serialize_int_head z) as (y & r2 & ->). Qed.

(** The first byte tells the types apart. *)
Lemma is_integer_other v r :
  (match v with bt_int64 _ | bt_uint64 _ => False | _ => True end) →
  is_integer (bt_serialize v ++ r) = (Ok false, bt_serialize v ++ r).
Proof.
  intros Hv. destruct v as [x|x|z|z|l|d]; try done; cbn [bt_serialize].
  all: destruct (bt_serialize_string_head x) as (c & c2 & r2 & -> & Hc); cbn [app];
    unfold is_integer; rewrite (bind_Ok front _ _ c (c :: c2 :: r2 ++ r)) by done;
    rewrite bool_decide_eq_false_2; [done|]; intros ->; discriminate Hc.
Qed.

Lemma consume_dict_at d r :
  bt_encodable (bt_dict d) →
  consume_dict bt_deserialize_value (bt_serialize (bt_dict d) ++ r) = (Ok (dict_norm bt_norm d), r).
Proof.
  intros [Hwf Hm]. rewrite bt_wf_dict in Hwf. rewrite bt_no_int64_min_dict in Hm. destruct Hwf as [Hs Hwf].
  unfold consume_dict. rewrite (bind_Ok _ _ _ tt (bt_serialize (bt_dict d) ++ r)).
  - apply on_copy_Ok. apply (codec_roundtrip (c := dict_codec value_codec)).
    split; [by apply map_sorted_nodup|]. rewrite Forall_forall in *. intros kv Hkv.
    destruct (Hwf kv Hkv). split; [done|]. by split; auto.
  - apply require_true. apply is_dict_dict.
Qed.

(** ** Properties *)

(** The value skipping of the consumers agrees with decoding: wherever
    [bt_deserialize] accepts a value, [skip_value] accepts it and stops at the
    same byte. *)
Theorem skip_value_sound s v s' :
  bt_deserialize_value s = (Ok v, s') → skip_value s = (Ok tt, s').
Proof. apply skip_value_agrees. Qed.

Lemma skip_value_sound_witness : skip_value (B "d1:ali1e2:xyee3:end") = (Ok tt, B "3:end").
Proof.
  apply (skip_value_sound _ (bt_dict [(B "a", bt_list [bt_uint64 1; bt_string (B "xy")])])).
  vm_compute. reflexivity.
Defined.

(** C29. The consumers end on every input, well formed or not: skipping a value,
    and seeking a key from any state of a dict consumer. *)
Theorem consumers_terminate s st find :
  (skip_value s).1 ≠ Diverge ∧ (skip_until find st).1 ≠ Diverge.
Proof.
  split; [apply skip_value_terminates|]. apply skip_until_fuel_terminates.
  destruct (key_ st); lia.
Qed.

Lemma drop_below_split find d :
  ∃ skipped, d = skipped ++ drop_below find d ∧ Forall (λ kv, bytes_ltb kv.1 find = true) skipped ∧
    (∀ kv, head (drop_below find d) = Some kv → bytes_ltb kv.1 find = false).
Proof.
  induction d as [|[k v] d (sk & E & Hs & Hh)]; [by exists []|]. cbn [drop_below]. destruct (bytes_ltb k find) eqn:Ek.
  - exists ((k, v) :: sk). cbn [app]. rewrite <-E. split_and!; [done|by constructor|done].
  - exists []. split_and!; [done|done|]. by intros kv [= <-].
Qed.

(** C28. [skip_until] for a non-empty key on a sorted dict is a search.  From any cursor
    position it answers whether the key is among the remaining entries, and leaves the
    cursor before the first entry whose key is not below it (the entry itself when it is
    there), or at the end; what it passed over are exactly the entries with smaller keys.
    So lookups made in increasing key order see the whole dict.  (The empty key at the
    end of a dict is answered wrongly, see [skip_until_empty_at_end].) *)
Theorem skip_until_finds tail st d find :
  entries_ok d → map_sorted d = true → dict_at tail st d → find ≠ [] →
  ∃ st' skipped d', skip_until find st = (Ok (bool_decide (is_Some (map_find find d))), st') ∧
    dict_at tail st' d' ∧ entries_ok d' ∧ map_sorted d' = true ∧
    d = skipped ++ d' ∧ Forall (λ kv, bytes_ltb kv.1 find = true) skipped ∧
    (∀ kv, head d' = Some kv → bytes_ltb kv.1 find = false) ∧
    (∀ v, map_find find d = Some v → head d' = Some (find, v)).
Proof.
  intros Hok Hs Hat Hne. destruct (skip_until_at tail find st d Hok Hat) as (st' & E & Hat').
  rewrite drop_below_head in E by done. destruct (drop_below_split find d) as (sk & Ed & Hsk & Hh). exists st', sk, (drop_below find d).
  split_and!; [done|done|by apply drop_below_ok|by apply drop_below_sorted|done|done|done|].
  intros v Hv. pose proof (drop_below_head find d Hs Hne) as Hd. rewrite bool_decide_eq_true_2 in Hd by eauto.
  rewrite <-(map_find_drop_below find find d) in Hv by apply bytes_ltb_irrefl.
  destruct (drop_below find d) as [|[k2 v2] d2]; [done|]. cbn [map_find] in Hv.
  rewrite Hd in Hv. injection Hv as ->. by apply bytes_eqb_eq in Hd as ->.
Qed.

Lemma skip_until_finds_witness :
  let d := [(B "a", bt_uint64 1); (B "c", bt_string (B "x"))] in
  ∃ st' skipped d', skip_until (B "b") (DictConsumer (entries_data d []) None) = (Ok false, st') ∧
    dict_at [] st' d' ∧ d = skipped ++ d' ∧ Forall (λ kv, bytes_ltb kv.1 (B "b") = true) skipped ∧
    (∀ kv, head d' = Some kv → bytes_ltb kv.1 (B "b") = false).
Proof.
  intros d. destruct (skip_until_finds [] (DictConsumer (entries_data d []) None) d (B "b")) as (st' & sk & d' & E & H1 & _ & _ & H2 & H3 & H4 & _).
  - unfold entries_ok, d. repeat first [apply Forall_nil_2 | apply Forall_cons_2 | split]; vm_compute; done.
  - vm_compute. reflexivity.
  - apply at_key.
  - discriminate.
  - exists st', sk, d'. split_and!; [exact E|exact H1|exact H2|exact H3|exact H4].
Defined.

(** Reading an entry with the method of its type returns its key and value
    (or, for the [_data] methods, the value's exact encoding) and leaves the
    cursor before the next entry. *)
Theorem next_reads_entry tail st k v d :
  entries_ok ((k, v) :: d) → dict_at tail st ((k, v) :: d) →
  ∃ st', dict_at tail st' d ∧
  match v with
  | bt_string x | bt_string_view x => next_string st = (Ok (k, x), st')
  | bt_int64 z | bt_uint64 z => ∀ t, it_ok t → it_range t z → next_integer t st = (Ok (k, z), st')
  | bt_list l =>
      next_list bt_deserialize_value st = (Ok (k, bt_norm <$> l), st') ∧
      next_list_data st = (Ok (k, bt_serialize v), st')
  | bt_dict e =>
      next_dict bt_deserialize_value st = (Ok (k, dict_norm bt_norm e), st') ∧
      next_dict_data st = (Ok (k, bt_serialize v), st')
  end.
Proof.
  intros Hok Hat. apply Forall_cons in Hok as [[Hk Hv] _]. cbn [fst snd] in *.
  exists (DictConsumer (entries_data d tail) None). split; [constructor|].
  destruct v as [x|x|z|z|l|e].
  - by apply (next_string_at tail st k x d (bt_string x)); [|apply Hv|..].
  - by apply (next_string_at tail st k x d (bt_string_view x)); [|apply Hv|..].
  - intros t Ht Hr. eapply next_with_at; [done..|apply is_integer_int|].
    apply consume_integer_at; [done..|apply Hv].
  - intros t Ht Hr. eapply next_with_at; [done..|apply is_integer_int|].
    apply consume_integer_at; [done..|]. destruct Hv as [[Hz _] _].
    change (it_min uint64_t) with 0 in Hz. change (it_min int64_t) with (- 2 ^ 63). lia.
  - split; [eapply next_with_at|eapply next_data_at]; try done; try apply is_list_list.
    + by apply consume_list_at.
    + by apply consume_list_data_at.
  - split; [eapply next_with_at|eapply next_data_at]; try done; try apply is_dict_dict.
    + by apply consume_dict_at.
    + by apply consume_dict_data_at.
Qed.

Lemma next_reads_entry_witness :
  let v := bt_list [bt_uint64 7] in
  let st := DictConsumer (entries_data [(B "k", v)] (B "!")) None in
  ∃ st', dict_at (B "!") st' [] ∧
    next_list bt_deserialize_value st = (Ok (B "k", bt_norm <$> [bt_uint64 7]), st') ∧
    next_list_data st = (Ok (B "k", bt_serialize v), st').
Proof.
  intros v st. apply (next_reads_entry (B "!") st (B "k") v []).
  - unfold entries_ok. repeat first [apply Forall_nil_2 | apply Forall_cons_2 | split]; vm_compute; done.
  - apply at_key.
Defined.

(** Asking for an integer where the next value has another type throws
    [bt_deserialize_invalid_type] and loses nothing: the cursor still stands before
    the same entry. *)
Theorem next_integer_wrong_type tail st k v d t :
  entries_ok ((k, v) :: d) → dict_at tail st ((k, v) :: d) →
  (match v with bt_int64 _ | bt_uint64 _ => False | _ => True end) →
  ∃ st', next_integer t st = (Throw bt_deserialize_invalid_type, st') ∧ dict_at tail st' ((k, v) :: d).
Proof.
  intros Hok Hat Hv. apply Forall_cons in Hok as [[Hk _] _].
  eapply next_with_mismatch; [done..|]. by apply is_integer_other.
Qed.

Lemma next_integer_wrong_type_witness :
  let d := [(B "k", bt_string (B "v"))] in
  ∃ st', next_integer c_int (DictConsumer (entries_data d []) None)
    = (Throw bt_deserialize_invalid_type, st') ∧ dict_at [] st' d.
Proof.
  intros d. apply (next_integer_wrong_type [] _ (B "k") (bt_string (B "v")) [] c_int).
  - unfold entries_ok. repeat first [apply Forall_nil_2 | apply Forall_cons_2 | split]; vm_compute; done.
  - apply at_key.
  - exact I.
Defined.

(** [get_int] is a checked conversion for every target type but [uint64_t]: the
    stored integer when it is in range, [std::overflow_error] otherwise. *)
Theorem get_int_checked t z signed :
  it_ok t → t ≠ uint64_t →
  it_range (if (signed : bool) then int64_t else uint64_t) z →
  get_int t (if signed then bt_int64 z else bt_uint64 z)
  = if (it_min t <=? z) && (z <=? it_max t) then Ok z else Throw overflow_error.
Proof.
  intros Ht Hu Hz. pose proof (it_max_le t Ht) as Hmax. pose proof (it_min_ge t Ht) as Hmin.
  assert (it_max t < 2 ^ 63) as Hmax2.
  { destruct t as [sg w]. unfold it_ok, it_max in *. cbn [it_signed it_bits] in *.
    assert (sg = true ∨ w <= 63) as Hw.
    { destruct (decide (w = 64)) as [->|]; [|lia]. left. destruct sg; [done|by destruct Hu]. }
    destruct sg.
    - assert (2 ^ (w - 1) <= 2 ^ 63) by (apply Z.pow_le_mono_r; lia). lia.
    - assert (2 ^ w <= 2 ^ 63) by (apply Z.pow_le_mono_r; lia). lia. }
  unfold get_int. destruct signed; unfold it_range in Hz.
  - change (it_min int64_t) with (- 2 ^ 63) in Hz. change (it_max int64_t) with (2 ^ 63 - 1) in Hz.
    rewrite !it_cast_int64 by lia.
    destruct (decide (t = int64_t)) as [->|Hne].
    + rewrite bool_decide_eq_true_2 by done. rewrite it_cast_int64 by lia. cbn [negb andb].
      by destruct (_ && _) eqn:E; [|unfold it_min, it_max in E; simpl in E; lia].
    + rewrite bool_decide_eq_false_2 by done. cbn [negb andb].
      destruct (_ || _) eqn:E1, (_ && _) eqn:E2; try done; try lia.
      rewrite it_cast_id; [done|done|unfold it_range; lia].
  - change (it_min uint64_t) with 0 in Hz. change (it_max uint64_t) with (2 ^ 64 - 1) in Hz.
    rewrite it_cast_uint64 by lia. rewrite bool_decide_eq_false_2 by done. cbn [negb andb].
    destruct (_ <? _) eqn:E1, (_ && _) eqn:E2; try done; try lia.
    rewrite it_cast_id; [done|done|unfold it_range; lia].
Qed.

Lemma get_int_checked_witness :
  get_int int8_t (bt_int64 (-129)) = Throw overflow_error ∧ get_int int8_t (bt_uint64 127) = Ok 127.
Proof.
  split.
  - apply (get_int_checked int8_t (-129) true); [vm_compute; done|discriminate|vm_compute; done].
  - apply (get_int_checked int8_t 127 false); [vm_compute; done|discriminate|vm_compute; done].
Defined.

(** [get_int<uint64_t>] rejects every value stored as [int64_t], non-negative
    ones included: the upper bound is converted to [int64_t] and becomes -1. *)
Theorem get_int_uint64_rejects_signed z : get_int uint64_t (bt_int64 z) = Throw overflow_error.
Proof.
  unfold get_int. rewrite bool_decide_eq_false_2 by done.
  change (it_cast int64_t (it_max uint64_t)) with (-1).
  change (it_cast int64_t (it_min uint64_t)) with 0. cbn [negb andb].
  by destruct (_ || _) eqn:E; [|lia].
Qed.

(** [get_tuple] never succeeds on a tuple type with a sub-tuple: the test that
    should reject a value that is not a list rejects one that is. *)
Theorem get_tuple_no_subtuple pre ts post v :
  match get_tuple (pre ++ elem_tuple ts :: post) v with Ok _ => False | _ => True end.
Proof.
  unfold get_tuple. destruct v as [| | | |l|]; try done. cbn. unfold get_tuple_sized.
  destruct (negb _) eqn:E; [done|]. apply negb_false_iff, bool_decide_eq_true in E.
  revert l E. induction pre as [|t pre IH]; intros [|x l] E; try done; cbn [app get_tuple_impl].
  - cbn [get_tuple_impl_one]. by destruct x.
  - specialize (IH l ltac:(simpl in E; lia)). destruct (get_tuple_impl_one t x); [|done..]. cbn.
    by destruct (get_tuple_impl get_tuple_impl_one (pre ++ elem_tuple ts :: post) l).
Qed.

(** Seeking the empty key at the end of a dict reports a match: the null
    cached key compares equal to it. *)
Theorem skip_until_empty_at_end :
  (st ← bt_dict_consumer_ctor (B "de"); (skip_until [] st).1) = Ok true.
Proof. vm_compute. reflexivity. Qed.
