(* ===== verification/BtNested.v ===== *)
(** bt_serialize.h: descending into nested containers with the consumers, which return
    a consumer over the part of the buffer that encodes the inner list or dict. *)
From S2P Require Import Prelude BtValue BtSerialize BtCodec BtConsumer.
Open Scope Z_scope.

(** ** [bt_dict_consumer] *)

(** [is_negative_integet] *)
Definition dict_is_negative_integer : M dict_consumer bool :=
  b ← dict_is_integer; if (b : bool) then on_data is_negative_integer else mret false.
(** [operator bool] *)
Definition dict_more : M dict_consumer bool := b ← dict_is_finished; mret (negb b).

Definition next_list_consumer : M dict_consumer (bytes * bytes) :=
  '(k, data) ← next_list_data; c ← liftM (bt_list_consumer_ctor data); mret (k, c).
Definition next_dict_consumer : M dict_consumer (bytes * dict_consumer) :=
  '(k, data) ← next_dict_data; c ← liftM (bt_dict_consumer_ctor data); mret (k, c).
Definition consume_list_consumer : M dict_consumer bytes :=
  data ← dict_consume_list_data; liftM (bt_list_consumer_ctor data).
Definition consume_dict_consumer : M dict_consumer dict_consumer :=
  data ← dict_consume_dict_data; liftM (bt_dict_consumer_ctor data).
Definition dict_consume_dict {T} (deser : parser T) : M dict_consumer (list (bytes * T)) :=
  '(_, v) ← next_dict deser; mret v.

(** ** A client that only uses consumers

    It tests the type of the next value, takes it with the method of that type, and goes
    into an inner container with a consumer of its own ([inside]), in place of decoding
    into a [bt_value]. *)
Definition inside {S C A} (p : M C A) (c : C) : M S A := λ s, ((p c).1, s).

Section walk.
Context (walk_list : parser (list bt_value)) (walk_dict : M dict_consumer (list (bytes * bt_value))).

Definition walk_element : parser bt_value :=
  b1 ← is_string; if (b1 : bool) then s ← consume_string_view; mret (bt_string s) else
  b2 ← is_integer; if (b2 : bool) then
    neg ← is_negative_integer;
    if (neg : bool) then z ← consume_integer int64_t; mret (bt_int64 z) else z ← consume_integer uint64_t; mret (bt_uint64 z)
  else
  b3 ← is_list; if (b3 : bool) then data ← consume_list_data; c ← liftM (bt_list_consumer_ctor data); l ← inside walk_list c; mret (bt_list l)
  else data ← consume_dict_data; c ← liftM (bt_dict_consumer_ctor data); d ← inside walk_dict c; mret (bt_dict d).

Definition walk_entry : M dict_consumer (bytes * bt_value) :=
  b1 ← dict_is_string; if (b1 : bool) then '(k, s) ← next_string; mret (k, bt_string s) else
  b2 ← dict_is_integer; if (b2 : bool) then
    neg ← dict_is_negative_integer;
    if (neg : bool) then '(k, z) ← next_integer int64_t; mret (k, bt_int64 z) else '(k, z) ← next_integer uint64_t; mret (k, bt_uint64 z)
  else
  b3 ← dict_is_list; if (b3 : bool) then '(k, c) ← next_list_consumer; l ← inside walk_list c; mret (k, bt_list l)
  else '(k, c) ← next_dict_consumer; d ← inside walk_dict c; mret (k, bt_dict d).
End walk.

(** [while (!c.is_finished())] and [while (d)]: a unit of fuel per element and per level. *)
Fixpoint walk (fuel : nat) : parser (list bt_value) * M dict_consumer (list (bytes * bt_value)) :=
  match fuel with
  | O => (λ s, (Diverge, s), λ s, (Diverge, s))
  | S fuel =>
      let w := walk fuel in
      (b ← is_finished; if (b : bool) then mret [] else v ← walk_element w.1 w.2; l ← w.1; mret (v :: l),
       b ← dict_more; if (b : bool) then kv ← walk_entry w.1 w.2; d ← w.2; mret (kv :: d) else mret [])
  end.
Definition walk_value (fuel : nat) : parser bt_value := walk_element (walk fuel).1 (walk fuel).2.

(** ** The tests *)
Definition holds_string (v : bt_value) : bool := match v with bt_string _ | bt_string_view _ => true | _ => false end.
Definition holds_int (v : bt_value) : bool := match v with bt_int64 _ | bt_uint64 _ => true | _ => false end.
Definition holds_list (v : bt_value) : bool := match v with bt_list _ => true | _ => false end.

Lemma test_front (f : byte → bool) c s : mbind (M:=M bytes) (λ c, mret (f c)) front (c :: s) = (Ok (f c), c :: s).
Proof. done. Qed.

Lemma tests_at v r (s := bt_serialize v ++ r) :
  is_finished s = (Ok false, s) ∧ is_string s = (Ok (holds_string v), s) ∧ is_integer s = (Ok (holds_int v), s) ∧ is_list s = (Ok (holds_list v), s).
Proof.
  subst s. destruct v as [x|x|z|z|l|d]; cbn [bt_serialize holds_string holds_int holds_list].
  1,2: destruct (bt_serialize_string_head x) as (c & y & r' & -> & Hc); cbn [app]; unfold is_finished, is_string, is_integer, is_list;
    rewrite !test_front, Hc, !bool_decide_eq_false_2 by (intros ->; discriminate Hc); done.
  - by destruct (bt_serialize_int_head z) as (y & r' & ->).
  - by destruct (bt_serialize_int_head z) as (y & r' & ->).
  - by destruct (bt_serialize_list_head bt_serialize l) as (y & r' & ->).
  - by destruct (bt_serialize_dict_head bt_serialize d) as (y & r' & ->).
Qed.

Lemma is_negative_at z r : is_negative_integer (bt_serialize_int z ++ r) = (Ok (z <? 0), bt_serialize_int z ++ r).
Proof.
  unfold is_negative_integer. rewrite (bind_Ok _ _ _ _ _ (is_integer_int z r)). unfold bt_serialize_int, print_int.
  destruct (z <? 0) eqn:E; [done|]. destruct (print_nat_spec z) as (Hne & Hds & _); [lia|].
  destruct (print_nat z) as [|c ds]; [done|]. apply Forall_cons in Hds as [Hc _]. erewrite (bind_Ok getS) by done.
  rewrite (bool_decide_eq_false_2 (_ !! 1%nat = _)), andb_false_r; [done|]. intros [= ->]. discriminate Hc.
Qed.

(** On a dict cursor a test reads the key first, and the cursor stays before the entry. *)
Lemma key_and_at tail st k v d (test : parser bool) b :
  Z.of_nat (length k) < 2 ^ 64 → dict_at tail st ((k, v) :: d) →
  test (bt_serialize v ++ entries_data d tail) = (Ok b, bt_serialize v ++ entries_data d tail) →
  key_and test st = (Ok b, DictConsumer (bt_serialize v ++ entries_data d tail) (Some k)).
Proof.
  intros Hk Hat Ht. unfold key_and. rewrite (bind_Ok _ _ _ _ _ (consume_key_at _ _ _ _ _ Hk Hat)). unfold on_data. cbn [data key_]. by rewrite Ht.
Qed.

(** ** Inner consumers *)
Definition elements_data (l : list bt_value) (tail : bytes) : bytes := concat (bt_serialize <$> l) ++ "e"%byte :: tail.

Lemma elements_data_cons v l tail : elements_data (v :: l) tail = bt_serialize v ++ elements_data l tail.
Proof. unfold elements_data. cbn [fmap list_fmap concat]. by rewrite <-app_assoc. Qed.

Lemma list_ctor_at l : bt_list_consumer_ctor (bt_serialize (bt_list l)) = Ok (elements_data l []).
Proof. done. Qed.
Lemma dict_ctor_at d : map_sorted d = true → bt_dict_consumer_ctor (bt_serialize (bt_dict d)) = Ok (DictConsumer (entries_data d []) None).
Proof. intros Hd. rewrite <-(app_nil_r (bt_serialize _)). by apply entries_data_ctor. Qed.

(** An inner container is shorter than what holds it. *)
Lemma inner_list_size l : length (bt_serialize (bt_list l)) = S (length (elements_data l [])).
Proof. done. Qed.
Lemma inner_dict_size d : map_sorted d = true → length (bt_serialize (bt_dict d)) = S (length (entries_data d [])).
Proof.
  intros Hd. pose proof (dict_ctor_at d Hd) as E. cbn [bt_serialize] in *. unfold bt_dict_consumer_ctor in E.
  destruct (bt_serialize_dict_head bt_serialize d) as (y & r & Es). rewrite Es in *. cbn [app length] in *.
  rewrite bool_decide_eq_true_2 in E by done. injection E as E. by rewrite <-E.
Qed.

Lemma encodable_list l : bt_encodable (bt_list l) → Forall bt_encodable l.
Proof. intros [Hw%bt_wf_list Hm%bt_no_int64_min_list]. rewrite Forall_forall in *. by split; auto. Qed.
Lemma encodable_dict d : bt_encodable (bt_dict d) → map_sorted d = true ∧ entries_ok d.
Proof.
  intros [[Hs Hw]%bt_wf_dict Hm%bt_no_int64_min_dict]. split; [done|]. unfold entries_ok. rewrite Forall_forall in *. intros kv Hkv.
  destruct (Hw kv Hkv). split; [done|]. split; auto.
Qed.

(** What the walk of the parts must do for the elements shorter than [n]. *)
Definition walks (n : nat) (w : parser (list bt_value) * M dict_consumer (list (bytes * bt_value))) : Prop :=
  (∀ l tail, Forall bt_encodable l → (length (elements_data l tail) <= n)%nat →
    w.1 (elements_data l tail) = (Ok (bt_norm <$> l), "e"%byte :: tail)) ∧
  (∀ d tail, entries_ok d → (length (entries_data d tail) <= n)%nat →
    w.2 (DictConsumer (entries_data d tail) None) = (Ok ((λ kv, (kv.1, bt_norm kv.2)) <$> d), DictConsumer ("e"%byte :: tail) None)).

Lemma walk_element_at n w v r :
  walks n w → bt_encodable v → (length (bt_serialize v) <= S n)%nat →
  walk_element w.1 w.2 (bt_serialize v ++ r) = (Ok (bt_norm v), r).
Proof.
  intros [Hl Hd] Hv Hn. destruct (tests_at v r) as (_ & T1 & T2 & T3). unfold walk_element. rewrite (bind_Ok _ _ _ _ _ T1).
  destruct v as [x|x|z|z|l|d]; cbn [holds_string holds_int holds_list] in *.
  1,2: rewrite (bind_Ok _ _ _ _ _ (consume_string_view_Ok _ _ _ (bt_deserialize_serialize_string x r ltac:(apply Hv)))); done.
  - rewrite (bind_Ok _ _ _ _ _ T2). cbn [bt_serialize]. rewrite (bind_Ok _ _ _ _ _ (is_negative_at z r)). destruct Hv as [Hz Hm]. cbn [bt_norm].
    destruct (z <? 0) eqn:E.
    + by rewrite (bind_Ok _ _ _ _ _ (consume_integer_at int64_t z r ltac:(done) Hz Hm)).
    + rewrite (bind_Ok _ _ _ z r); [done|]. apply consume_integer_at; [done| |done]. unfold bt_wf, it_range, it_min, it_max in *. cbn in *. lia.
  - rewrite (bind_Ok _ _ _ _ _ T2). cbn [bt_serialize]. rewrite (bind_Ok _ _ _ _ _ (is_negative_at z r)). destruct Hv as [Hz _].
    unfold bt_wf, it_range, it_min, it_max in Hz. cbn in Hz. replace (z <? 0) with false by lia.
    rewrite (bind_Ok _ _ _ z r); [done|]. apply consume_integer_at; [done|..]; unfold it_range, it_min, it_max; cbn; lia.
  - rewrite (bind_Ok _ _ _ _ _ T2), (bind_Ok _ _ _ _ _ T3), (bind_Ok _ _ _ _ _ (consume_list_data_at l r Hv)), list_ctor_at.
    rewrite inner_list_size in Hn. unfold liftM, inside, mbind, M_bind. by rewrite Hl; [|by apply encodable_list|lia].
  - rewrite (bind_Ok _ _ _ _ _ T2), (bind_Ok _ _ _ _ _ T3), (bind_Ok _ _ _ _ _ (consume_dict_data_at d r Hv)).
    destruct (encodable_dict d Hv) as [Hs Hok]. rewrite dict_ctor_at by done. rewrite inner_dict_size in Hn by done.
    unfold liftM, inside, mbind, M_bind. by rewrite Hd; [|done|lia].
Qed.

Lemma walk_entry_at n w k v d tail :
  walks n w → entries_ok ((k, v) :: d) → (length (bt_serialize v) <= S n)%nat →
  walk_entry w.1 w.2 (DictConsumer (bt_serialize v ++ entries_data d tail) (Some k)) = (Ok (k, bt_norm v), DictConsumer (entries_data d tail) None).
Proof.
  intros [Hl Hd] [[Hk Hv] _]%Forall_cons Hn. cbn [fst snd] in *. set (st := DictConsumer _ _). assert (dict_at tail st ((k, v) :: d)) as Hat by constructor.
  destruct (tests_at v (entries_data d tail)) as (_ & T1 & T2 & T3). unfold walk_entry, dict_is_string, dict_is_integer, dict_is_list, next_integer.
  apply (key_and_at _ _ _ _ _ _ _ Hk Hat) in T1, T2, T3. fold st in T1, T2, T3. rewrite (bind_Ok _ _ _ _ _ T1).
  assert (∀ z, bt_serialize v = bt_serialize_int z → dict_is_negative_integer st = (Ok (z <? 0), st)) as Hneg.
  { intros z Ez. unfold dict_is_negative_integer, dict_is_integer.
    erewrite (bind_Ok (key_and _)) by (eapply key_and_at; [done|done|rewrite Ez; apply is_integer_int]). unfold on_data, st. cbn [data key_]. by rewrite Ez, is_negative_at. }
  assert (∀ t z, bt_serialize v = bt_serialize_int z → it_ok t → it_range t z → z ≠ it_min int64_t →
    next_with dict_is_integer (consume_integer t) st = (Ok (k, z), DictConsumer (entries_data d tail) None)) as Hint.
  { intros t z Ez Ht Hz Hm. eapply next_with_at; [done|done|rewrite Ez; apply is_integer_int|rewrite Ez; by apply consume_integer_at]. }
  destruct v as [x|x|z|z|l|e]; cbn [holds_string holds_int holds_list] in *.
  1,2: assert (next_string st = (Ok (k, x), DictConsumer (entries_data d tail) None)) as E
    by (eapply next_string_at; [done|apply Hv| |exact Hat]; done); by rewrite (bind_Ok _ _ _ _ _ E).
  - rewrite (bind_Ok _ _ _ _ _ T2), (bind_Ok _ _ _ _ _ (Hneg z eq_refl)). destruct Hv as [Hz Hm]. cbn [bt_norm]. destruct (z <? 0) eqn:E.
    + by rewrite (bind_Ok _ _ _ _ _ (Hint int64_t z eq_refl ltac:(done) Hz Hm)).
    + erewrite bind_Ok; [|apply Hint; [done|done| |done]]; [done|]. unfold bt_wf, it_range, it_min, it_max in *. cbn in *. lia.
  - rewrite (bind_Ok _ _ _ _ _ T2), (bind_Ok _ _ _ _ _ (Hneg z eq_refl)). destruct Hv as [Hz _].
    unfold bt_wf, it_range, it_min, it_max in Hz. cbn in Hz. replace (z <? 0) with false by lia.
    erewrite bind_Ok; [|apply Hint; [done|done|..]]; [done|..]; unfold it_range, it_min, it_max; cbn; lia.
  - rewrite (bind_Ok _ _ _ _ _ T2), (bind_Ok _ _ _ _ _ T3). rewrite inner_list_size in Hn. unfold next_list_consumer, next_list_data, dict_is_list.
    assert (next_data (key_and is_list) consume_list_data st = (Ok (k, bt_serialize (bt_list l)), DictConsumer (entries_data d tail) None)) as E
      by (eapply next_data_at; [done|done|apply is_list_list|by apply consume_list_data_at]).
    unfold liftM, inside, mbind, M_bind. rewrite E, list_ctor_at. cbn. by rewrite Hl; [|by apply encodable_list|lia].
  - rewrite (bind_Ok _ _ _ _ _ T2), (bind_Ok _ _ _ _ _ T3). destruct (encodable_dict e Hv) as [Hs Hok]. rewrite inner_dict_size in Hn by done.
    unfold next_dict_consumer, next_dict_data, dict_is_dict.
    assert (next_data (key_and is_dict) consume_dict_data st = (Ok (k, bt_serialize (bt_dict e)), DictConsumer (entries_data d tail) None)) as E
      by (eapply next_data_at; [done|done|apply is_dict_dict|by apply consume_dict_data_at]).
    unfold liftM, inside, mbind, M_bind. rewrite E, dict_ctor_at by done. cbn. by rewrite Hd; [|done|lia].
Qed.

(** Fuel for the length of the encoding is enough. *)
Lemma walk_walks n : walks n (walk n).
Proof.
  induction n as [|n IH]; split.
  - intros l tail _. unfold elements_data. rewrite length_app. cbn. lia.
  - intros d tail _ H. pose proof (length_entries_data d tail). lia.
  - intros [|v l] tail Hl Hn; [done|]. apply Forall_cons in Hl as [Hv Hl]. rewrite elements_data_cons in *. rewrite length_app in Hn. cbn [walk fst].
    destruct (tests_at v (elements_data l tail)) as (T & _). destruct (bt_serialize_head v) as (x & y & r & E & _).
    assert (2 <= length (bt_serialize v))%nat by (rewrite E; cbn; lia).
    rewrite (bind_Ok _ _ _ _ _ T), (bind_Ok _ _ _ _ _ (walk_element_at n _ v _ IH Hv ltac:(lia))).
    by rewrite (bind_Ok _ _ _ _ _ (proj1 IH l tail Hl ltac:(lia))).
  - intros [|[k v] d] tail Hd Hn; [done|]. pose proof Hd as [[Hk Hv] Hd']%Forall_cons. cbn [fst snd] in *.
    rewrite entries_data_cons, !length_app in Hn. destruct (bt_serialize_string_head k) as (x & y & r & E & _).
    assert (2 <= length (bt_serialize_string k))%nat by (rewrite E; cbn; lia). cbn [walk snd].
    assert (dict_more (DictConsumer (entries_data ((k, v) :: d) tail) None) = (Ok true, DictConsumer (bt_serialize v ++ entries_data d tail) (Some k))) as T.
    { unfold dict_more, dict_is_finished, mbind, M_bind. by erewrite consume_key_at by (done || apply at_key). }
    rewrite (bind_Ok _ _ _ _ _ T), (bind_Ok _ _ _ _ _ (walk_entry_at n _ k v d tail IH Hd ltac:(lia))).
    by rewrite (bind_Ok _ _ _ _ _ (proj2 IH d tail Hd' ltac:(lia))).
Qed.

(** ** Properties *)

(** C25. The consumers see what the decoder does: a client that walks an encoded value
    with the consumers alone, testing types, taking strings and integers and descending
    into lists and dicts through the inner consumers, gets exactly the value
    [bt_deserialize] returns, dicts in the same order, and ends at the same byte. *)
Theorem consumers_walk v rest n :
  bt_encodable v → (length (bt_serialize v) <= n)%nat →
  walk_value n (bt_serialize v ++ rest) = bt_deserialize_value (bt_serialize v ++ rest).
Proof.
  intros Hv Hn. unfold walk_value. rewrite (walk_element_at n) by (first [apply walk_walks|done|lia]).
  symmetry. by apply bt_deserialize_serialize.
Qed.

Lemma consumers_walk_witness :
  let v := bt_dict [(B "a", bt_list [bt_int64 (-7); bt_dict [(B "k", bt_string (B "x"))]]); (B "b", bt_uint64 3)] in
  walk_value (length (bt_serialize v)) (bt_serialize v ++ B "!") = bt_deserialize_value (bt_serialize v ++ B "!") ∧
  (bt_deserialize_value (bt_serialize v ++ B "!")).2 = B "!".
Proof.
  intros v. split; [|vm_compute; reflexivity]. apply (consumers_walk v (B "!") (length (bt_serialize v))); [|lia].
  split; vm_compute; intuition discriminate.
Defined.
