(* ===== verification/Address.v ===== *)
(** address.h / address.cpp: parsing and printing of the augmented ZMQ
    addresses, with or without a curve pubkey, in plain and QR form. *)
From S2P Require Import Prelude BtValue BtSerialize BtCodec Hex Base32z Base64.
Open Scope Z_scope.

(** ** Data *)
Inductive proto : Type := proto_tcp | proto_tcp_curve | proto_ipc | proto_ipc_curve.
Inductive encoding : Type := enc_hex | enc_base32z | enc_base64 | enc_BASE32Z.

#[export] Instance proto_eq_dec : EqDecision proto.
Proof. solve_decision. Defined.
#[export] Instance encoding_eq_dec : EqDecision encoding.
Proof. solve_decision. Defined.

Record address : Type := Address {
  protocol : proto;
  host : bytes;
  port : Z;
  socket : bytes;
  pubkey : bytes
}.

#[export] Instance address_eq_dec : EqDecision address.
Proof. solve_decision. Defined.

Definition default_address : address := Address proto_tcp [] 0 [] [].

Definition curve_proto (p : proto) : bool := bool_decide (p = proto_tcp_curve) || bool_decide (p = proto_ipc_curve).
Definition tcp_proto (p : proto) : bool := bool_decide (p = proto_tcp) || bool_decide (p = proto_tcp_curve).

Definition curve (a : address) : bool := curve_proto (protocol a).
Definition tcp (a : address) : bool := tcp_proto (protocol a).
Definition ipc (a : address) : bool := negb (tcp a).

Definition enc_length (enc : encoding) : nat :=
  if bool_decide (enc = enc_hex) then 64 else if bool_decide (enc = enc_base64) then 43 else 52.

(** ** Parsing *)

(** [if (!in.empty() && in.front() == '=') in.remove_prefix(1)]. *)
Definition eat_padding (s : bytes) : bytes :=
  match s with
  | c :: s' => if bool_decide (c = "="%byte) then s' else s
  | [] => []
  end.

Definition decode_pubkey (qr : bool) : parser bytes := λ s,
  if (64 <=? length s)%nat && is_hex (take 64 s) then (from_hex (take 64 s), drop 64 s)
  else if (52 <=? length s)%nat && is_base32z (take 52 s)
  then (Ok (from_base32z (take 52 s)), drop 52 s)
  else if negb qr && (43 <=? length s)%nat && is_base64 (take 43 s)
  then (Ok (from_base64 (take 43 s)), eat_padding (drop 43 s))
  else (Throw invalid_argument, s).

(** [":.1234567890abcdefABCDEF"] *)
Definition is_ipv6_char (c : byte) : bool := bool_decide (c ∈ B ":.1234567890abcdefABCDEF").

(** [host.front() = ...], [host.back() = ...] of the bracketed form. *)
Definition open_bracket (qr : bool) (c : byte) : bool :=
  bool_decide (c = "["%byte) || (qr && bool_decide (c = "$"%byte)).
Definition close_bracket (qr : bool) (c : byte) : bool :=
  bool_decide (c = "]"%byte) || (qr && bool_decide (c = "$"%byte)).

(** In QR mode a leading or trailing ['$'] of the host becomes a bracket. *)
Definition unqr_host (h : bytes) : bytes :=
  match h with
  | [] => []
  | c :: t =>
      let h := (if bool_decide (c = "$"%byte) then "["%byte else c) :: t in
      match last h with
      | Some d => if bool_decide (d = "$"%byte) then take (length h - 1) h ++ ["]"%byte] else h
      | None => h
      end
  end.

Definition parse_host (qr : bool) : parser bytes := λ addr,
  match addr with
  | [] => (UB, addr)
  | c :: t =>
      if open_bracket qr c then
        match find_first (λ c, negb (is_ipv6_char c)) t with
        | None => (Throw invalid_argument, addr)
        | Some p =>
            let pos := S p in
            if negb (close_bracket qr (default "000"%byte (addr !! pos))) then (Throw invalid_argument, addr)
            else
              let h := take (S pos) addr in
              (Ok (if qr then unqr_host h else h), drop (S pos) addr)
        end
      else
        match find_first (λ c, bool_decide (c = ":"%byte)) addr with
        | None => (Throw invalid_argument, addr)
        | Some O => (Throw invalid_argument, addr)
        | Some pos => (Ok (take pos addr), drop pos addr)
        end
  end.

(** [if (qr)]: the host is lower-cased. *)
Definition lower_host (qr : bool) (h : bytes) : bytes := if qr then to_lower <$> h else h.

(** [std::stoi] of a digit string: the value and the number of characters
    processed; [out_of_range] beyond [int]. *)
Definition stoi (digits : bytes) : outcome (Z * nat) :=
  let v := foldl (λ v c, v * 10 + (b2z c - b2z "0"%byte)) 0 digits in
  if it_max c_int <? v then Throw out_of_range else Ok (v, length digits).

Definition parse_port : parser Z := λ addr,
  match addr with
  | c :: ((_ :: _) as addr') =>
      if negb (bool_decide (c = ":"%byte)) then (Throw invalid_argument, addr)
      else
        match find_first (λ c, negb (is_digit c)) addr' with
        | Some O => (Throw invalid_argument, addr')
        | o =>
            let pos := default (length addr') o in
            match stoi (take pos addr') with
            | Ok (port_int, processed) =>
                if (port_int =? 0) || negb (bool_decide (processed = pos))
                then (Throw invalid_argument, addr')
                else if (port_int <? 0) || (it_max uint16_t <? port_int)
                then (Throw invalid_argument, addr')
                else (Ok (it_cast uint16_t port_int), drop pos addr')
            | Throw e => (Throw e, addr')
            | UB => (UB, addr')
            | Diverge => (Diverge, addr')
            end
        end
  | _ => (Throw invalid_argument, addr)
  end.

(** [if (!addr.empty()) throw std::invalid_argument]. *)
Definition expect_end : parser unit := λ addr,
  match addr with
  | [] => (Ok tt, addr)
  | _ => (Throw invalid_argument, addr)
  end.

(** The ['/'] before the pubkey, which must leave room for the shortest encoding. *)
Definition parse_slash (qr : bool) : parser unit := λ addr,
  match addr with
  | c :: addr' =>
      if (length addr <? 1 + enc_length (if qr then enc_base32z else enc_base64))%nat
         || negb (bool_decide (c = "/"%byte))
      then (Throw invalid_argument, addr) else (Ok tt, addr')
  | [] => (Throw invalid_argument, addr)
  end.

Definition parse_trailing_pubkey (qr expect_pubkey : bool) : parser bytes :=
  if expect_pubkey then _ ← parse_slash qr; pk ← decode_pubkey qr; _ ← expect_end; mret pk
  else _ ← expect_end; mret [].

Definition parse_tcp (qr expect_pubkey : bool) : parser (bytes * Z * bytes) :=
  h ← parse_host qr; p ← parse_port; pk ← parse_trailing_pubkey qr expect_pubkey;
  mret (lower_host qr h, p, pk).

(** [addr.size() > n && addr[addr.size() - n - 1] == '/' && is_enc(last n bytes)]. *)
Definition pubkey_suffix (n : nat) (is_enc : bytes → bool) (addr : bytes) : bool :=
  (n <? length addr)%nat && bool_decide (addr !! (length addr - n - 1)%nat = Some "/"%byte)
  && is_enc (drop (length addr - n) addr).

Definition parse_unix (expect_pubkey : bool) : parser (bytes * bytes) := λ addr,
  if expect_pubkey then
    let b64_len := (if bool_decide (last addr = Some "="%byte) then 44 else 43)%nat in
    if pubkey_suffix 64 is_hex addr then
      match from_hex (drop (length addr - 64) addr) with
      | Ok pk => (Ok (take (length addr - 65) addr, pk), [])
      | Throw e => (Throw e, addr)
      | UB => (UB, addr)
      | Diverge => (Diverge, addr)
      end
    else if pubkey_suffix 52 is_base32z addr then
      (Ok (take (length addr - 53) addr, from_base32z (drop (length addr - 52) addr)), [])
    else if pubkey_suffix b64_len is_base64 addr then
      (Ok (take (length addr - b64_len - 1) addr, from_base64 (drop (length addr - b64_len) addr)), [])
    else (Throw invalid_argument, addr)
  else (Ok (addr, []), []).

(** The protocol names: [Some (protocol, qr)]. *)
Definition parse_proto (pro : bytes) : option (proto * bool) :=
  if bytes_eqb pro (B "tcp") then Some (proto_tcp, false)
  else if bytes_eqb pro (B "tcp+curve") || bytes_eqb pro (B "curve") then Some (proto_tcp_curve, false)
  else if bytes_eqb pro (B "ipc") then Some (proto_ipc, false)
  else if bytes_eqb pro (B "ipc+curve") then Some (proto_ipc_curve, false)
  else if bytes_eqb pro (B "TCP") then Some (proto_tcp, true)
  else if bytes_eqb pro (B "CURVE") then Some (proto_tcp_curve, true)
  else None.

Definition is_qr_char (c : byte) : bool := is_upper c || is_digit c || bool_decide (c ∈ B "$:/.-").

(** The trailing-garbage check that ends the constructor. *)
Definition to_end {A} (p : parser A) : parser A := r ← p; _ ← expect_end; mret r.

(** The rest of the constructor once protocol and remainder are known. *)
Definition parse_body (p : proto) (qr : bool) (addr : bytes) : outcome address :=
  if qr && negb (forallb is_qr_char addr) then Throw invalid_argument
  else if tcp_proto p then
    '(h, pt, pk) ← (to_end (parse_tcp qr (curve_proto p)) addr).1;
    mret (Address p h pt [] pk)
  else
    '(sock, pk) ← (to_end (parse_unix (curve_proto p)) addr).1;
    mret (Address p [] 0 sock pk).

Definition address_parse (addr : bytes) : outcome address :=
  match find_sub (B "://") addr with
  | None | Some O => Throw invalid_argument
  | Some protoend =>
      let pro := take protoend addr in
      let addr := drop (protoend + 3) addr in
      match addr with
      | [] => Throw invalid_argument
      | _ =>
          match parse_proto pro with
          | None => Throw invalid_argument
          | Some (p, qr) => parse_body p qr addr
          end
      end
  end.

(** [address(addr, pubkey)] *)
Definition set_pubkey (pk : bytes) (a : address) : outcome address :=
  if (length pk =? 0)%nat then
    let p := if bool_decide (protocol a = proto_tcp_curve) then proto_tcp
             else if bool_decide (protocol a = proto_tcp_curve) then proto_ipc
             else protocol a in
    Ok (Address p (host a) (port a) (socket a) pk)
  else if (length pk =? 32)%nat then
    let p := if bool_decide (protocol a = proto_tcp) then proto_tcp_curve
             else if bool_decide (protocol a = proto_ipc) then proto_ipc_curve
             else protocol a in
    Ok (Address p (host a) (port a) (socket a) pk)
  else Throw invalid_argument.

Definition address_parse_pubkey (addr pk : bytes) : outcome address :=
  a ← address_parse addr; set_pubkey pk a.

(** ** Printing *)
Definition encode_pubkey (enc : encoding) (a : address) : bytes :=
  match enc with
  | enc_hex => to_hex (pubkey a)
  | enc_base32z => to_base32z (pubkey a)
  | enc_BASE32Z => to_upper <$> to_base32z (pubkey a)
  | enc_base64 =>
      let pk := to_base64 (pubkey a) in
      if (length pk =? 44)%nat && bool_decide (last pk = Some "="%byte) then take 43 pk else pk
  end.

Definition host_port (a : address) : bytes := host a ++ B ":" ++ print_nat (port a).

Definition full_address (enc : encoding) (a : address) : bytes :=
  let pk := if curve a then encode_pubkey enc a else [] in
  match protocol a with
  | proto_tcp => B "tcp://" ++ host_port a
  | proto_tcp_curve => B "curve://" ++ host_port a ++ B "/" ++ pk
  | proto_ipc => B "ipc://" ++ socket a
  | proto_ipc_curve => B "ipc+curve://" ++ socket a ++ B "/" ++ pk
  end.

Definition zmq_address (a : address) : bytes :=
  if tcp a then B "tcp://" ++ host_port a else B "ipc://" ++ socket a.

(** [uc_host.front() == '[' && uc_host.back() == ']']: both become ['$']. *)
Definition qr_host (h : bytes) : bytes :=
  let uc := to_upper <$> h in
  if bool_decide (head uc = Some "["%byte) && bool_decide (last uc = Some "]"%byte)
  then <[0%nat := "$"%byte]> (<[(length uc - 1)%nat := "$"%byte]> uc) else uc.

Definition qr_address (a : address) : outcome bytes :=
  if negb (tcp a) then Throw logic_error
  else match host a with
  | [] => Throw logic_error
  | _ =>
      Ok ((if curve a then B "CURVE://" else B "TCP://") ++ qr_host (host a) ++ B ":" ++ print_nat (port a)
          ++ (if curve a then B "/" ++ encode_pubkey enc_BASE32Z a else []))
  end.

(** ** Comparison and factories *)
Definition address_eqb (a b : address) : bool :=
  if negb (bool_decide (protocol a = protocol b)) then false
  else if tcp a && (negb (bytes_eqb (host a) (host b)) || negb (port a =? port b)) then false
  else if ipc a && negb (bytes_eqb (socket a) (socket b)) then false
  else if curve a && negb (bytes_eqb (pubkey a) (pubkey b)) then false
  else true.

Definition address_tcp (h : bytes) (p : Z) : address := Address proto_tcp h p [] [].
Definition address_tcp_curve (h : bytes) (p : Z) (pk : bytes) : address := Address proto_tcp_curve h p [] pk.
Definition address_ipc (path : bytes) : address := Address proto_ipc [] 0 path [].
Definition address_ipc_curve (path pk : bytes) : address := Address proto_ipc_curve [] 0 path pk.

(** ** Addresses that can be written and read back *)
Definition host_plain (h : bytes) : Prop :=
  h ≠ [] ∧ Forall (λ c, c ≠ ":"%byte) h ∧ head h ≠ Some "["%byte.
Definition host_bracketed (h : bytes) : Prop :=
  ∃ inner, h = "["%byte :: inner ++ ["]"%byte] ∧ Forall (λ c, is_ipv6_char c = true) inner.
Definition host_ok (h : bytes) : Prop := host_plain h ∨ host_bracketed h.
Definition port_ok (p : Z) : Prop := 1 <= p <= 65535.

Definition address_ok (a : address) : Prop :=
  match protocol a with
  | proto_tcp => host_ok (host a) ∧ port_ok (port a)
  | proto_tcp_curve => host_ok (host a) ∧ port_ok (port a) ∧ length (pubkey a) = 32%nat
  | proto_ipc => socket a ≠ []
  | proto_ipc_curve => length (pubkey a) = 32%nat
  end.

(** The fields the protocol does not use, reset. *)
Definition address_norm (a : address) : address :=
  Address (protocol a) (if tcp a then host a else []) (if tcp a then port a else 0)
    (if tcp a then [] else socket a) (if curve a then pubkey a else []).

(** ** The protocol prefix *)
Lemma address_parse_prefix pro p qr r :
  (pro, p, qr) ∈ [(B "tcp", proto_tcp, false); (B "curve", proto_tcp_curve, false);
    (B "tcp+curve", proto_tcp_curve, false); (B "ipc", proto_ipc, false);
    (B "ipc+curve", proto_ipc_curve, false); (B "TCP", proto_tcp, true); (B "CURVE", proto_tcp_curve, true)] →
  r ≠ [] → address_parse (pro ++ B "://" ++ r) = parse_body p qr r.
Proof.
  intros H Hr. destruct r as [|c r]; [done|].
  rewrite !elem_of_cons, elem_of_nil in H.
  destruct_or! H; try done; injection H as -> -> ->; reflexivity.
Qed.

(** ** Port *)
Lemma find_first_digits ds r :
  digits ds → no_digit_head r → r ≠ [] →
  find_first (λ c, negb (is_digit c)) (ds ++ r) = Some (length ds).
Proof.
  intros Hds Hr Hne. destruct r as [|c r]; [done|]. apply find_first_app.
  - eapply Forall_impl; [exact Hds|]. by intros x ->.
  - simpl in Hr. by rewrite Hr.
Qed.

Lemma it_cast_port p : port_ok p → it_cast uint16_t p = p.
Proof.
  unfold port_ok. intros Hp. apply it_cast_id; [done|]. unfold it_range.
  change (it_min uint16_t) with 0. change (it_max uint16_t) with 65535. lia.
Qed.

Lemma parse_port_ok p r :
  port_ok p → no_digit_head r → parse_port (":"%byte :: print_nat p ++ r) = (Ok p, r).
Proof.
  unfold port_ok. intros Hp Hr. destruct (print_nat_spec p) as (Hne & Hds & Hv); [lia|].
  set (ds := print_nat p) in *. clearbody ds.
  assert (stoi ds = Ok (p, length ds)) as Hs.
  { unfold stoi. fold (dec_value 0 ds). rewrite Hv. change (it_max c_int) with 2147483647.
    by destruct (_ <? p) eqn:E; [lia|]. }
  assert (default (length (ds ++ r)) (find_first (λ c, negb (is_digit c)) (ds ++ r)) = length ds ∧
          find_first (λ c, negb (is_digit c)) (ds ++ r) ≠ Some 0%nat) as [Hpos Hnz].
  { destruct r as [|c r].
    - rewrite app_nil_r. destruct (find_first _ ds) eqn:E; [|done].
      apply find_first_Some in E as (_ & c & Hc & Hf). rewrite Forall_forall in Hds.
      rewrite Hds in Hf by (by eapply list_elem_of_lookup_2). done.
    - rewrite find_first_digits by done. split; [done|]. by destruct ds. }
  unfold parse_port. destruct (ds ++ r) as [|x s] eqn:Es; [by destruct ds|]. rewrite <-Es in *.
  rewrite bool_decide_eq_true_2 by done. cbn [negb].
  destruct (find_first _ (ds ++ r)) as [[|n]|] eqn:Ef; [done|..]; cbn zeta; rewrite Hpos;
    rewrite take_app_length, Hs, drop_app_length; change (it_max uint16_t) with 65535;
    rewrite bool_decide_eq_true_2 by done; replace ((p =? 0) || negb true) with false by lia;
    replace ((p <? 0) || (65535 <? p)) with false by lia;
    by rewrite it_cast_port.
Qed.

(** ** Host *)
Lemma parse_host_plain qr h r :
  h ≠ [] → Forall (λ c, c ≠ ":"%byte) h →
  match head h with Some c => open_bracket qr c = false | None => True end →
  parse_host qr (h ++ ":"%byte :: r) = (Ok h, ":"%byte :: r).
Proof.
  intros Hne Hc Hh. destruct h as [|c h]; [done|]. cbn [head] in Hh. unfold parse_host.
  assert (find_first (λ c, bool_decide (c = ":"%byte)) ((c :: h) ++ ":"%byte :: r)
          = Some (length (c :: h))) as Hf.
  { apply find_first_app; [|done]. eapply Forall_impl; [exact Hc|].
    intros x Hx. by apply bool_decide_eq_false. }
  cbn [app] in *. rewrite Hh, Hf. cbn [length].
  rewrite (app_comm_cons h (":"%byte :: r) c).
  by rewrite (take_app_length (c :: h)), (drop_app_length (c :: h)).
Qed.

Lemma parse_host_brackets qr o inner cl r :
  open_bracket qr o = true → close_bracket qr cl = true →
  Forall (λ c, is_ipv6_char c = true) inner → is_ipv6_char cl = false →
  parse_host qr (o :: inner ++ cl :: r)
  = (Ok (if qr then unqr_host (o :: inner ++ [cl]) else o :: inner ++ [cl]), r).
Proof.
  intros Ho Hcl Hin Hnc. unfold parse_host. rewrite Ho.
  rewrite (find_first_app _ inner cl r);
    [|eapply Forall_impl; [exact Hin|]; by intros x ->|by rewrite Hnc].
  cbn zeta. change ((o :: inner ++ cl :: r) !! S (length inner)) with ((inner ++ cl :: r) !! length inner).
  rewrite list_lookup_middle by done. cbn [default]. unfold id. rewrite Hcl. cbn [negb].
  replace (o :: inner ++ cl :: r) with ((o :: inner ++ [cl]) ++ r)
    by (cbn [app]; by rewrite <-app_assoc).
  assert (S (S (length inner)) = length (o :: inner ++ [cl])) as ->
    by (cbn [length]; rewrite length_app; simpl; lia).
  by rewrite take_app_length, drop_app_length.
Qed.

Lemma parse_host_ok h r :
  host_ok h → parse_host false (h ++ ":"%byte :: r) = (Ok h, ":"%byte :: r).
Proof.
  intros [(Hne & Hc & Hh)|(inner & -> & Hin)].
  - apply parse_host_plain; [done..|]. destruct h as [|c h]; [done|]. cbn in *.
    unfold open_bracket. rewrite bool_decide_eq_false_2 by congruence. done.
  - cbn [app]. rewrite <-app_assoc. cbn [app]. by rewrite parse_host_brackets.
Qed.

(** ** Pubkeys *)
Section pubkey32.
Context (a : address) (Hpk : length (pubkey a) = 32%nat).

Lemma pubkey_base64_shape :
  encode_pubkey enc_base64 a = to_b64 <$> to_base64_digits (pubkey a) ∧
  length (encode_pubkey enc_base64 a) = 43%nat.
Proof using Hpk.
  pose proof (length_to_base64_digits (pubkey a)) as Hl.
  destruct (to_base64_bits (pubkey a)) as (_ & Hp & _). rewrite Hpk in Hl.
  assert (to_base64_padding (pubkey a) = 1%nat ∧ length (to_base64_digits (pubkey a)) = 43%nat)
    as [E1 E2] by lia.
  cbn [encode_pubkey]. unfold to_base64. rewrite E1. cbn [replicate].
  rewrite length_app, length_fmap, E2, last_snoc. cbn [length Nat.add Nat.eqb andb].
  rewrite bool_decide_eq_true_2 by done.
  rewrite take_app_length' by (by rewrite length_fmap). by rewrite length_fmap.
Qed.

Lemma length_encode_pubkey enc : length (encode_pubkey enc a) = enc_length enc.
Proof using Hpk.
  destruct enc; cbn [encode_pubkey]; cbn.
  - by rewrite length_to_hex, Hpk.
  - by rewrite length_to_base32z, Hpk.
  - apply pubkey_base64_shape.
  - by rewrite length_fmap, length_to_base32z, Hpk.
Qed.

Lemma base32z_pubkey enc :
  enc = enc_base32z ∨ enc = enc_BASE32Z →
  is_base32z (encode_pubkey enc a) = true ∧ from_base32z (encode_pubkey enc a) = pubkey a.
Proof using Type.
  pose proof (is_base32z_to_base32z (pubkey a)) as Hb.
  intros [->| ->]; cbn [encode_pubkey].
  - by rewrite from_to_base32z.
  - destruct (from_base32z_upper _ Hb) as [-> ->]. by rewrite from_to_base32z.
Qed.

Lemma base64_pubkey :
  is_base64 (encode_pubkey enc_base64 a) = true ∧ from_base64 (encode_pubkey enc_base64 a) = pubkey a ∧
  last (encode_pubkey enc_base64 a) ≠ Some "="%byte.
Proof using Hpk.
  destruct pubkey_base64_shape as [-> _].
  pose proof (is_base64_digits (pubkey a) 0 ltac:(by left)) as H1.
  pose proof (from_base64_digits (pubkey a) 0) as H2. cbn [replicate] in H1, H2.
  rewrite app_nil_r in H1, H2. split_and!; [done..|].
  destruct (to_base64_bits (pubkey a)) as (HF & _ & _).
  destruct (last (to_b64 <$> to_base64_digits (pubkey a))) as [c|] eqn:E; [|done].
  apply last_Some_elem_of, list_elem_of_fmap in E as (d & -> & Hd). rewrite Forall_forall in HF.
  destruct (from_to_b64 d (HF d Hd)) as (_ & _ & Hne). congruence.
Qed.

(** A pubkey is read back from each of its encodings. *)
Lemma decode_encode_pubkey enc :
  decode_pubkey false (encode_pubkey enc a) = (Ok (pubkey a), []).
Proof using Hpk.
  pose proof (length_encode_pubkey enc) as Hl. unfold decode_pubkey. rewrite Hl.
  destruct enc.
  - change (enc_length enc_hex) with 64%nat in *.
    rewrite (take_ge _ 64), (drop_ge _ 64) by lia.
    cbn [encode_pubkey]. by rewrite is_hex_to_hex, from_hex_to_hex.
  - change (enc_length enc_base32z) with 52%nat in *.
    rewrite (take_ge _ 52), (drop_ge _ 52) by lia.
    by destruct (base32z_pubkey enc_base32z ltac:(by left)) as [-> ->].
  - change (enc_length enc_base64) with 43%nat in *.
    rewrite (take_ge _ 43), (drop_ge _ 43) by lia.
    by destruct base64_pubkey as (-> & -> & _).
  - change (enc_length enc_BASE32Z) with 52%nat in *.
    rewrite (take_ge _ 52), (drop_ge _ 52) by lia.
    by destruct (base32z_pubkey enc_BASE32Z ltac:(by right)) as [-> ->].
Qed.

Lemma decode_encode_pubkey_qr :
  decode_pubkey true (encode_pubkey enc_BASE32Z a) = (Ok (pubkey a), []).
Proof using Hpk.
  pose proof (length_encode_pubkey enc_BASE32Z) as Hl. unfold decode_pubkey. rewrite Hl.
  change (enc_length enc_BASE32Z) with 52%nat in *.
    rewrite (take_ge _ 52), (drop_ge _ 52) by lia.
  by destruct (base32z_pubkey enc_BASE32Z ltac:(by right)) as [-> ->].
Qed.

Lemma parse_trailing_pubkey_ok qr enc :
  decode_pubkey qr (encode_pubkey enc a) = (Ok (pubkey a), []) →
  (qr = true → enc = enc_BASE32Z) →
  parse_trailing_pubkey qr true ("/"%byte :: encode_pubkey enc a) = (Ok (pubkey a), []).
Proof using Hpk.
  intros Hd Hq. unfold parse_trailing_pubkey.
  rewrite (bind_Ok (parse_slash qr) _ _ tt (encode_pubkey enc a)).
  - by rewrite (bind_Ok _ _ _ _ _ Hd).
  - unfold parse_slash. cbn [length]. rewrite (length_encode_pubkey enc).
    rewrite bool_decide_eq_true_2 by done.
    assert ((S (enc_length enc) <? 1 + enc_length (if qr then enc_base32z else enc_base64))%nat = false) as ->;
      [|done].
    destruct qr; [by rewrite Hq|]. by destruct enc.
Qed.
End pubkey32.

(** ** Unix sockets *)
Lemma suffix_slash (sock pk : bytes) n :
  (length pk < n)%nat → (n <= length (sock ++ "/"%byte :: pk))%nat →
  "/"%byte ∈ drop (length (sock ++ "/"%byte :: pk) - n) (sock ++ "/"%byte :: pk).
Proof.
  intros Hn Hl. rewrite length_app in *. cbn [length] in *. apply list_elem_of_lookup.
  exists (length sock - (length sock + S (length pk) - n))%nat. rewrite lookup_drop.
  replace (_ + (_ - _))%nat with (length sock) by lia. by apply list_lookup_middle.
Qed.

Lemma pubkey_suffix_false is_enc f sock pk n :
  (∀ s, is_enc s = true → forallb f s = true) → f "/"%byte = false → (length pk < n)%nat →
  pubkey_suffix n is_enc (sock ++ "/"%byte :: pk) = false.
Proof.
  intros Hf Hs Hn. unfold pubkey_suffix.
  destruct (n <? length (sock ++ "/"%byte :: pk))%nat eqn:El; [|done]. cbn [andb].
  destruct (is_enc _) eqn:E; [|by rewrite andb_false_r].
  apply Hf in E. rewrite forallb_forall in E.
  pose proof (suffix_slash sock pk n Hn ltac:(lia)) as Hin. apply list_elem_of_In, E in Hin. congruence.
Qed.

Lemma sock_split (sock pk : bytes) n :
  length pk = n →
  let s := sock ++ "/"%byte :: pk in
  drop (length s - n) s = pk ∧ take (length s - n - 1) s = sock ∧
  (n <? length s)%nat = true ∧ s !! (length s - n - 1)%nat = Some "/"%byte.
Proof.
  intros <-. cbv zeta. rewrite length_app. cbn [length].
  replace (length sock + S (length pk) - length pk - 1)%nat with (length sock) by lia.
  replace (length sock + S (length pk) - length pk)%nat with (length (sock ++ ["/"%byte]))
    by (rewrite length_app; simpl; lia).
  split_and!.
  - replace (sock ++ "/"%byte :: pk) with ((sock ++ ["/"%byte]) ++ pk) by (by rewrite <-app_assoc).
    apply drop_app_length.
  - apply take_app_length.
  - apply Nat.ltb_lt. lia.
  - by apply list_lookup_middle.
Qed.

Lemma is_hex_digits s : is_hex s = true → forallb is_hex_digit s = true.
Proof. unfold is_hex. rewrite is_hex_it_spec. by intros [_ ?]%andb_true_iff. Qed.

Lemma is_base32z_chars s : is_base32z s = true → forallb is_b32z_char s = true.
Proof. by rewrite is_base32z_forallb. Qed.

Lemma pubkey_suffix_here is_enc (sock pk : bytes) n :
  length pk = n → pubkey_suffix n is_enc (sock ++ "/"%byte :: pk) = is_enc pk.
Proof.
  intros Hn. destruct (sock_split sock pk n Hn) as (E1 & _ & E3 & E4).
  unfold pubkey_suffix. by rewrite E1, E3, E4, bool_decide_eq_true_2.
Qed.

Lemma last_app_cons {A} (l : list A) x r : r ≠ [] → last (l ++ x :: r) = last r.
Proof. intros Hr. rewrite last_app, last_cons. by destruct r as [|y r] using rev_ind; [|rewrite last_snoc]. Qed.

Lemma parse_unix_ok a enc :
  length (pubkey a) = 32%nat →
  parse_unix true (socket a ++ "/"%byte :: encode_pubkey enc a) = (Ok (socket a, pubkey a), []).
Proof.
  intros Hpk. pose proof (length_encode_pubkey a Hpk enc) as Hl. unfold parse_unix.
  destruct (sock_split (socket a) _ _ Hl) as (E1 & E2 & _ & _).
  destruct enc.
  - change (enc_length enc_hex) with 64%nat in *.
    rewrite (pubkey_suffix_here is_hex _ _ 64 Hl), E1. cbn [encode_pubkey] in *.
    rewrite is_hex_to_hex, from_hex_to_hex.
    replace (_ - 65)%nat with (length (socket a ++ "/"%byte :: to_hex (pubkey a)) - 64 - 1)%nat by lia.
    by rewrite E2.
  - change (enc_length enc_base32z) with 52%nat in *.
    rewrite (pubkey_suffix_false is_hex is_hex_digit);
      [|apply is_hex_digits|done|rewrite Hl; lia].
    rewrite (pubkey_suffix_here is_base32z _ _ 52 Hl), E1.
    destruct (base32z_pubkey a enc_base32z ltac:(by left)) as [-> ->].
    replace (_ - 53)%nat with (length (socket a ++ "/"%byte :: encode_pubkey enc_base32z a) - 52 - 1)%nat by lia.
    by rewrite E2.
  - change (enc_length enc_base64) with 43%nat in *.
    rewrite (pubkey_suffix_false is_hex is_hex_digit); [|apply is_hex_digits|done|rewrite Hl; lia].
    rewrite (pubkey_suffix_false is_base32z is_b32z_char);
      [|apply is_base32z_chars|done|rewrite Hl; lia].
    destruct (base64_pubkey a Hpk) as (Hb & Hf & Hla).
    rewrite last_app_cons by (by intros E; rewrite E in Hl).
    rewrite bool_decide_eq_false_2 by done.
    by rewrite (pubkey_suffix_here is_base64 _ _ 43 Hl), E1, E2, Hb, Hf.
  - change (enc_length enc_BASE32Z) with 52%nat in *.
    rewrite (pubkey_suffix_false is_hex is_hex_digit);
      [|apply is_hex_digits|done|rewrite Hl; lia].
    rewrite (pubkey_suffix_here is_base32z _ _ 52 Hl), E1.
    destruct (base32z_pubkey a enc_BASE32Z ltac:(by right)) as [-> ->].
    replace (_ - 53)%nat with (length (socket a ++ "/"%byte :: encode_pubkey enc_BASE32Z a) - 52 - 1)%nat by lia.
    by rewrite E2.
Qed.

(** ** The round trip *)
Lemma to_end_Ok {A} (p : parser A) s x : p s = (Ok x, []) → to_end p s = (Ok x, []).
Proof. intros H. unfold to_end. by rewrite (bind_Ok _ _ _ _ _ H). Qed.

Lemma parse_tcp_ok qr pk_expected h h' p tail pk :
  parse_host qr (h ++ ":"%byte :: print_nat p ++ tail) = (Ok h', ":"%byte :: print_nat p ++ tail) →
  port_ok p → no_digit_head tail → parse_trailing_pubkey qr pk_expected tail = (Ok pk, []) →
  parse_tcp qr pk_expected (h ++ ":"%byte :: print_nat p ++ tail) = (Ok (lower_host qr h', p, pk), []).
Proof.
  intros Hh Hp Ht Hk. unfold parse_tcp. rewrite (bind_Ok _ _ _ _ _ Hh).
  rewrite (bind_Ok _ _ _ _ _ (parse_port_ok p tail Hp Ht)). by rewrite (bind_Ok _ _ _ _ _ Hk).
Qed.

Lemma host_port_app a tail : host_port a ++ tail = host a ++ ":"%byte :: print_nat (port a) ++ tail.
Proof. unfold host_port. by rewrite <-!app_assoc. Qed.

Lemma parse_full_address a enc :
  address_ok a → address_parse (full_address enc a) = Ok (address_norm a).
Proof.
  intros Ha. destruct a as [p h pt sock pk]. unfold address_ok, full_address, address_norm in *.
  cbn [protocol] in *. destruct p; cbn [curve tcp protocol curve_proto tcp_proto host port socket pubkey] in *.
  - destruct Ha as [Hh Hp]. etrans; [apply (address_parse_prefix (B "tcp") proto_tcp false); [set_solver|by destruct h]|].
    unfold parse_body. cbn [andb]. cbv beta iota.
    rewrite <-(app_nil_r (host_port _)), host_port_app. cbn [host port].
    rewrite (to_end_Ok _ _ (h, pt, [])); [done|].
    by apply (parse_tcp_ok false false h h pt [] []); [apply parse_host_ok|..].
  - destruct Ha as (Hh & Hp & Hk).
    etrans; [apply (address_parse_prefix (B "curve") proto_tcp_curve false); [set_solver|by destruct h]|].
    unfold parse_body. cbn [andb]. cbv beta iota. rewrite host_port_app. cbn [host port app].
    rewrite (to_end_Ok _ _ (h, pt, pk)); [done|].
    apply (parse_tcp_ok false true h h pt _ pk); [by apply parse_host_ok|done|done|].
    set (a := Address proto_tcp_curve h pt sock pk).
    by apply (parse_trailing_pubkey_ok a Hk false enc (decode_encode_pubkey a Hk enc)).
  - etrans; [apply (address_parse_prefix (B "ipc") proto_ipc false); [set_solver|done]|done].
  - etrans; [apply (address_parse_prefix (B "ipc+curve") proto_ipc_curve false); [set_solver|by destruct sock]|].
    unfold parse_body. cbn [andb]. cbv beta iota.
    rewrite (to_end_Ok _ _ (sock, pk)); [done|].
    by apply (parse_unix_ok (Address proto_ipc_curve h pt sock pk) enc).
Qed.

(** ** QR form *)
Definition qr_host_ok (h : bytes) : Prop :=
  (host_plain h ∧ head h ≠ Some "$"%byte ∧ Forall (λ c, is_qr_char (to_upper c) = true) h)
  ∨ host_bracketed h.

Definition qr_ok (a : address) : Prop :=
  tcp a = true ∧ qr_host_ok (host a) ∧ port_ok (port a) ∧
  (curve a = true → length (pubkey a) = 32%nat).

Lemma to_lower_upper c : to_lower (to_upper c) = to_lower c.
Proof.
  assert (bool_decide (to_lower (to_upper c) = to_lower c) = true) as H by by_bytes c.
  by apply bool_decide_eq_true in H.
Qed.

Lemma to_upper_other c d : is_upper d = false → is_lower d = false → to_upper c = d → c = d.
Proof.
  intros Hu Hl <-. unfold to_upper in *. destruct (is_lower c) eqn:E; [|done].
  exfalso. revert Hu. unfold is_upper, is_lower in *.
  change (b2z "a"%byte) with 97 in *. change (b2z "z"%byte) with 122 in *.
  change (b2z "A"%byte) with 65 in *. change (b2z "Z"%byte) with 90 in *.
  rewrite b2z_z2b_small by lia. lia.
Qed.

Lemma ipv6_upper c : is_ipv6_char c = true → is_ipv6_char (to_upper c) && is_qr_char (to_upper c) = true.
Proof. revert c. apply byte_forall_in. vm_compute. reflexivity. Qed.

Lemma b32z_upper_qr c : is_b32z_char c = true → is_qr_char (to_upper c) = true.
Proof. revert c. apply byte_forall_in. vm_compute. reflexivity. Qed.

Lemma digit_qr c : is_digit c = true → is_qr_char c = true.
Proof. unfold is_qr_char. intros ->. by rewrite orb_true_r. Qed.

Lemma qr_host_plain h : host_plain h → qr_host h = to_upper <$> h.
Proof.
  intros (_ & _ & Hh). unfold qr_host. destruct h as [|c h]; [done|]. cbn [fmap list_fmap head] in *.
  rewrite bool_decide_eq_false_2; [done|]. intros [= E]. apply to_upper_other in E; [|done..].
  congruence.
Qed.

Lemma qr_host_bracketed inner :
  qr_host ("["%byte :: inner ++ ["]"%byte]) = "$"%byte :: (to_upper <$> inner) ++ ["$"%byte].
Proof.
  unfold qr_host. rewrite fmap_cons, fmap_app. change (to_upper "["%byte) with "["%byte.
  change (to_upper <$> ["]"%byte]) with ["]"%byte]. cbv zeta.
  rewrite (app_comm_cons (to_upper <$> inner) ["]"%byte] "["%byte), last_snoc.
  cbn [app head]. rewrite !bool_decide_eq_true_2 by done. cbn [andb length].
  rewrite length_app. cbn [length].
  replace (S (length (to_upper <$> inner) + 1) - 1)%nat with (S (length (to_upper <$> inner))) by lia.
  change (<[S ?n := ?x]> (?c :: ?l)) with (c :: <[n := x]> l).
  rewrite insert_app_r_alt by lia. by rewrite Nat.sub_diag.
Qed.

(** What the parser makes of a QR-encoded host. *)
Lemma parse_qr_host h r :
  qr_host_ok h →
  ∃ h', parse_host true (qr_host h ++ ":"%byte :: r) = (Ok h', ":"%byte :: r) ∧
    to_lower <$> h' = to_lower <$> h ∧ forallb is_qr_char (qr_host h) = true.
Proof.
  intros [(Hp & Hd & Hq)|(inner & -> & Hin)].
  - rewrite (qr_host_plain h Hp). exists (to_upper <$> h). destruct Hp as (Hne & Hc & Hb).
    split_and!.
    + apply parse_host_plain; [by destruct h| |].
      * apply Forall_fmap. eapply Forall_impl; [exact Hc|]. intros x Hx E.
        by apply to_upper_other in E.
      * destruct h as [|c h]; [done|]. cbn in *. unfold open_bracket.
        rewrite !bool_decide_eq_false_2; [done|intros E; apply to_upper_other in E; [congruence|done..]..].
    + rewrite <-list_fmap_compose. apply list_fmap_ext. intros i x _. apply to_lower_upper.
    + apply forallb_forall. intros x Hx%list_elem_of_In.
      apply list_elem_of_fmap in Hx as (y & -> & Hy). rewrite Forall_forall in Hq. auto.
  - rewrite qr_host_bracketed. exists ("["%byte :: (to_upper <$> inner) ++ ["]"%byte]).
    assert (Forall (λ c, is_ipv6_char c = true) (to_upper <$> inner)) as Hin'.
    { apply Forall_fmap. eapply Forall_impl; [exact Hin|].
      intros x Hx%ipv6_upper. by apply andb_true_iff in Hx as [? _]. }
    split_and!.
    + cbn [app]. rewrite <-app_assoc. cbn [app]. rewrite parse_host_brackets by done.
      unfold unqr_host. rewrite bool_decide_eq_true_2 by done. cbv zeta.
      rewrite (app_comm_cons _ ["$"%byte] "["%byte), last_snoc, bool_decide_eq_true_2 by done.
      by rewrite length_app, Nat.add_sub, take_app_length.
    + rewrite !fmap_cons, !fmap_app, <-list_fmap_compose. f_equal. f_equal.
      apply list_fmap_ext. intros i x _. apply to_lower_upper.
    + cbn [forallb]. rewrite forallb_app. change (is_qr_char "$"%byte) with true. cbn [forallb andb].
      rewrite andb_true_r. apply forallb_forall. intros x Hx%list_elem_of_In.
      apply list_elem_of_fmap in Hx as (y & -> & Hy). rewrite Forall_forall in Hin.
      apply Hin, ipv6_upper, andb_true_iff in Hy as [_ ?]. done.
Qed.

Definition lower_address (a : address) : address :=
  Address (protocol a) (to_lower <$> host a) (port a) (socket a) (pubkey a).

Lemma print_nat_qr p : 0 <= p → forallb is_qr_char (print_nat p) = true.
Proof.
  intros Hp. destruct (print_nat_spec p Hp) as (_ & Hds & _). apply forallb_forall.
  intros x Hx%list_elem_of_In. rewrite Forall_forall in Hds. by apply digit_qr, Hds.
Qed.

Lemma pubkey_qr a : forallb is_qr_char (encode_pubkey enc_BASE32Z a) = true.
Proof.
  cbn [encode_pubkey]. pose proof (is_base32z_to_base32z (pubkey a)) as H.
  rewrite is_base32z_forallb, forallb_forall in H. apply forallb_forall. intros x Hx%list_elem_of_In.
  apply list_elem_of_fmap in Hx as (y & -> & Hy). by apply b32z_upper_qr, H, list_elem_of_In.
Qed.

Lemma qr_address_parse a :
  qr_ok a → ∃ s, qr_address a = Ok s ∧ address_parse s = Ok (address_norm (lower_address a)).
Proof.
  destruct a as [p h pt sock pk]. intros (Ht & Hh & Hp & Hk). cbn [host port pubkey] in *.
  destruct (parse_qr_host h (print_nat pt ++ (if curve_proto p then B "/" ++ encode_pubkey enc_BASE32Z
    (Address p h pt sock pk) else [])) Hh) as (h' & Eh & El & Hq).
  assert (h ≠ []) as Hne by (by destruct Hh as [[[? _] _]|(i & -> & _)]).
  unfold qr_address. rewrite Ht. cbn [negb host]. destruct h as [|c h]; [done|].
  assert (0 <= pt) as Hpt by (unfold port_ok in Hp; lia).
  eexists. split; [done|]. unfold lower_address, address_norm. cbn [protocol host port socket pubkey].
  unfold tcp, curve in *. cbn [protocol] in *. destruct p; try done.
  - etrans; [apply (address_parse_prefix (B "TCP") proto_tcp true); [set_solver|]|].
    { by destruct (qr_host (c :: h)). }
    unfold parse_body. rewrite !forallb_app, Hq, print_nat_qr by done. cbn [andb negb forallb].
    change (curve_proto proto_tcp) with false in *. cbv beta iota in *. rewrite app_nil_r in *.
    change (B ":" ++ print_nat pt) with (":"%byte :: print_nat pt).
    rewrite (to_end_Ok _ _ (to_lower <$> h', pt, [])); [by rewrite El|].
    rewrite <-(app_nil_r (print_nat pt)) in *.
    by apply (parse_tcp_ok true false _ h' pt [] []).
  - etrans; [apply (address_parse_prefix (B "CURVE") proto_tcp_curve true); [set_solver|]|].
    { by destruct (qr_host (c :: h)). }
    unfold parse_body. change (curve_proto proto_tcp_curve) with true in *. cbv beta iota in *.
    rewrite !forallb_app, Hq, print_nat_qr, pubkey_qr by done. cbn [andb negb forallb].
    rewrite (to_end_Ok _ _ (to_lower <$> h', pt, pk)); [by rewrite El|].
    apply (parse_tcp_ok true true _ h' pt); [done|done|done|].
    specialize (Hk eq_refl). set (a := Address proto_tcp_curve (c :: h) pt sock pk).
    by apply (parse_trailing_pubkey_ok a Hk true enc_BASE32Z (decode_encode_pubkey_qr a Hk)).
Qed.

(** ** What parsing guarantees *)
Lemma parse_host_nonempty qr s h s' : parse_host qr s = (Ok h, s') → h ≠ [].
Proof.
  unfold parse_host. destruct s as [|c t]; [done|]. destruct (open_bracket qr c).
  - destruct (find_first _ t) as [p|]; [|done]. cbv zeta. destruct (negb _); [done|].
    intros [= <- _]. destruct qr; [|done]. cbn [take unqr_host]. cbv zeta.
    destruct (last _) as [d|]; [|done]. case_bool_decide; [|done]. by intros [_ ?]%app_eq_nil.
  - destruct (find_first _ (c :: t)) as [[|p]|]; [done| |done]. by intros [= <- _].
Qed.

Lemma stoi_nonneg ds v n : digits ds → stoi ds = Ok (v, n) → 0 <= v.
Proof.
  intros Hds. unfold stoi. cbv zeta. destruct (_ <? _); [done|]. intros [= <- _].
  apply (dec_value_ge 0 ds); [lia|done].
Qed.

Lemma parse_port_range s p s' : parse_port s = (Ok p, s') → port_ok p.
Proof.
  unfold parse_port. destruct s as [|c [|c2 s]]; [done..|]. destruct (negb _); [done|].
  set (addr := c2 :: s). clearbody addr. intros H.
  assert (∃ pos v n, stoi (take pos addr) = Ok (v, n) ∧ (v =? 0) = false ∧
    (v <? 0) || (it_max uint16_t <? v) = false ∧ p = it_cast uint16_t v) as (pos & v & n & Hs & H1 & H2 & ->).
  { destruct (find_first _ addr) as [[|q]|]; [done|..]; cbv zeta in H;
      (destruct (stoi _) as [[v n]|e| |] eqn:Es; [|done..]);
      (destruct (v =? 0) eqn:E1; [done|]); cbn [orb] in H; (destruct (negb _); [done|]);
      (destruct ((v <? 0) || _) eqn:E2; [done|]); injection H as <- _; by eauto 10. }
  change (it_max uint16_t) with 65535 in H2. unfold port_ok. rewrite it_cast_port; unfold port_ok; lia.
Qed.

Lemma b64_data_all s : forallb is_b64_char s = true → b64_data s = s.
Proof.
  unfold b64_data. induction s as [|c s IH]; [done|]. cbn [forallb]. intros [Hc Hs]%andb_true_iff.
  rewrite filter_cons_True by (by apply is_b64_char_not_pad). by rewrite IH.
Qed.

(** A base64 pubkey of 43 characters, or of 44 ending in padding, has 32 bytes; 31
    if both final characters are padding. *)
Lemma b64_pubkey_43 s :
  length s = 43%nat → is_base64 s = true → length (from_base64 s) = 32%nat.
Proof.
  intros Hl. unfold is_base64, b64_strip_padding. rewrite Hl. cbn [Nat.eqb negb andb Nat.modulo].
  change (43 mod 4 =? 0)%nat with false. cbv iota. intros H.
  by rewrite length_from_base64, b64_data_all, Hl.
Qed.

Lemma drop_last2 (s : bytes) n x y :
  length s = S (S n) → s !! n = Some x → s !! S n = Some y → s = take n s ++ [x; y].
Proof.
  intros Hl Hx Hy. rewrite <-(take_drop n s) at 1. f_equal.
  rewrite (drop_S s x n Hx), (drop_S s y (S n) Hy), drop_ge by lia. done.
Qed.

Lemma b64_pubkey_44 s :
  length s = 44%nat → last s = Some "="%byte → is_base64 s = true →
  length (from_base64 s) = 32%nat ∨ length (from_base64 s) = 31%nat.
Proof.
  intros Hl Hlast. unfold is_base64, b64_strip_padding. rewrite Hl.
  cbn [Nat.eqb negb andb]. change (44 mod 4 =? 0)%nat with true. cbv iota zeta.
  change (44 - 1)%nat with 43%nat. change (44 - 2)%nat with 42%nat.
  assert (s !! 43%nat = Some "="%byte) as H43
    by (rewrite last_lookup, Hl in Hlast; exact Hlast).
  destruct (lookup_lt_is_Some_2 s 42%nat ltac:(lia)) as [x Hx].
  rewrite H43, bool_decide_eq_true_2 by done. rewrite Hx. intros H.
  pose proof (drop_last2 s 42 x _ Hl Hx H43) as Es. rewrite length_from_base64.
  case_bool_decide as Hc; [injection Hc as ->|].
  - rewrite Es, b64_data_app, (b64_data_all _ H). change (b64_data ["="; "="]%byte) with (@nil byte).
    rewrite app_nil_r, length_take, Hl. by right.
  - assert (take 43 s = take 42 s ++ [x]) as E43 by (by rewrite (take_S_r s 42 x Hx)).
    rewrite Es. change [x; "="%byte] with ([x] ++ ["="%byte]). rewrite app_assoc, <-E43.
    rewrite b64_data_app, (b64_data_all _ H). change (b64_data ["="%byte]) with (@nil byte).
    rewrite app_nil_r, length_take, Hl. by left.
Qed.

Lemma from_hex_64 s pk :
  length s = 64%nat → is_hex s = true → from_hex s = Ok pk → length pk = 32%nat.
Proof. intros Hl Hh. destruct (to_hex_from_hex s Hh) as (b & -> & _ & Hb). intros [= <-]. lia. Qed.

Lemma decode_pubkey_length qr s pk s' : decode_pubkey qr s = (Ok pk, s') → length pk = 32%nat.
Proof.
  unfold decode_pubkey.
  destruct ((64 <=? length s)%nat && _) eqn:E1.
  { apply andb_true_iff in E1 as [Hl Hh]. intros [= H _].
    eapply from_hex_64; [|exact Hh|exact H]. rewrite length_take. lia. }
  destruct ((52 <=? length s)%nat && _) eqn:E2.
  { intros [= <- _]. rewrite length_from_base32z, length_take.
    replace (52 `min` length s)%nat with 52%nat by lia. done. }
  destruct (negb qr && _ && _) eqn:E3; [|done].
  apply andb_true_iff in E3 as [Hl Hb]. intros [= <- _]. apply b64_pubkey_43; [|done].
  rewrite length_take. lia.
Qed.

Lemma parse_trailing_pubkey_length qr e s pk s' :
  parse_trailing_pubkey qr e s = (Ok pk, s') → if e then length pk = 32%nat else pk = [].
Proof.
  unfold parse_trailing_pubkey. destruct e; intros H; inv_bind; unfold mret, M_ret in H.
  - injection H as <- _. by eapply decode_pubkey_length.
  - by injection H as <- _.
Qed.

Lemma parse_unix_pubkey e s sock pk s' :
  parse_unix e s = (Ok (sock, pk), s') →
  if e then length pk = 32%nat ∨ length pk = 31%nat else pk = [].
Proof.
  assert (∀ n f, pubkey_suffix n f s = true → length (drop (length s - n) s) = n ∧
    f (drop (length s - n) s) = true) as Hsuf.
  { intros n f [[Hn _]%andb_true_iff Hf]%andb_true_iff. split; [rewrite length_drop; lia|done]. }
  unfold parse_unix. destruct e; [|by intros [= _ <- _]]. cbv zeta.
  destruct (pubkey_suffix 64 _ s) eqn:E1.
  { apply Hsuf in E1 as [Hl Hh]. destruct (from_hex _) as [b|e| |] eqn:Eh; [|done..].
    intros [= _ <- _]. left. by eapply from_hex_64. }
  destruct (pubkey_suffix 52 _ s) eqn:E2.
  { apply Hsuf in E2 as [Hl _]. intros [= _ <- _]. left. by rewrite length_from_base32z, Hl. }
  case_bool_decide as Hlast.
  - destruct (pubkey_suffix 44 _ s) eqn:E3; [|done]. apply Hsuf in E3 as [Hl Hb].
    intros [= _ <- _]. apply b64_pubkey_44; [done| |done].
    rewrite last_lookup, Hl. rewrite lookup_drop. rewrite last_lookup in Hlast.
    rewrite length_drop in Hl. rewrite <-Hlast. f_equal. lia.
  - destruct (pubkey_suffix 43 _ s) eqn:E3; [|done]. apply Hsuf in E3 as [Hl Hb].
    intros [= _ <- _]. left. by apply b64_pubkey_43.
Qed.

Lemma to_lower_other c d : is_upper d = false → is_lower d = false → to_lower c = d → c = d.
Proof.
  intros Hu Hl <-. unfold to_lower in *. destruct (is_upper c) eqn:E; [|done].
  exfalso. revert Hl. unfold is_upper, is_lower in *.
  change (b2z "a"%byte) with 97 in *. change (b2z "z"%byte) with 122 in *.
  change (b2z "A"%byte) with 65 in *. change (b2z "Z"%byte) with 90 in *.
  rewrite b2z_z2b_small by lia. lia.
Qed.

Lemma ipv6_lower c : is_ipv6_char c = true → is_ipv6_char (to_lower c) = true.
Proof. revert c. apply byte_forall_in. vm_compute. reflexivity. Qed.

Lemma host_ok_lower qr h : host_ok h → host_ok (lower_host qr h).
Proof.
  destruct qr; [|done]. cbn [lower_host]. intros [(Hne & Hc & Hh)|(inner & -> & Hin)].
  - left. split_and!; [by destruct h| |].
    + apply Forall_fmap. eapply Forall_impl; [exact Hc|]. intros x Hx E. by apply to_lower_other in E.
    + destruct h as [|c h]; [done|]. cbn in *. intros [= E]. apply to_lower_other in E; [|done..]. congruence.
  - right. exists (to_lower <$> inner). rewrite fmap_cons, fmap_app. split; [done|].
    apply Forall_fmap. eapply Forall_impl; [exact Hin|]. apply ipv6_lower.
Qed.

(** Decides comparisons of literal bytes. *)
Ltac decide_bytes :=
  repeat first [rewrite bool_decide_eq_true_2 by done | rewrite bool_decide_eq_false_2 by done].

Lemma unqr_brackets o inner cl :
  open_bracket true o = true → close_bracket true cl = true →
  unqr_host (o :: inner ++ [cl]) = "["%byte :: inner ++ ["]"%byte].
Proof.
  intros Ho Hc. unfold open_bracket, close_bracket in *. cbn [andb] in *.
  apply orb_true_iff in Ho as [Ho|Ho]; apply bool_decide_eq_true in Ho as ->;
    apply orb_true_iff in Hc as [Hc|Hc]; apply bool_decide_eq_true in Hc as ->;
    unfold unqr_host; cbv zeta; decide_bytes;
    rewrite (app_comm_cons inner _ "["%byte), last_snoc; decide_bytes; try done;
    by rewrite length_app, Nat.add_sub, take_app_length.
Qed.

(** A parsed host can be printed and parsed again. *)
Lemma parse_host_host_ok qr s h s' : parse_host qr s = (Ok h, s') → host_ok h.
Proof.
  unfold parse_host. destruct s as [|c t]; [done|]. destruct (open_bracket qr c) eqn:Eo.
  - destruct (find_first _ t) as [p|] eqn:Ef; [|done]. cbv zeta.
    apply find_first_Some in Ef as (Hin & d & Hd & _).
    change ((c :: t) !! S p) with (t !! p). rewrite Hd. cbn [default]. unfold id.
    destruct (close_bracket qr d) eqn:Ec; [|done]. cbn [negb].
    assert (take (S (S p)) (c :: t) = c :: take p t ++ [d]) as ->
      by (cbn [take]; by rewrite (take_S_r t p d Hd)).
    intros [= <- _]. right. exists (take p t). split.
    + destruct qr; [by apply unqr_brackets|]. unfold open_bracket, close_bracket in *.
      rewrite andb_false_l, orb_false_r in *. apply bool_decide_eq_true in Eo as ->.
      by apply bool_decide_eq_true in Ec as ->.
    + eapply Forall_impl; [exact Hin|]. intros x. apply negb_false_iff.
  - destruct (find_first _ (c :: t)) as [[|p]|] eqn:Ef; [done| |done].
    apply find_first_Some in Ef as (Hin & _). intros [= <- _]. left. split_and!; [done| |].
    + eapply Forall_impl; [exact Hin|]. intros x. apply bool_decide_eq_false.
    + cbn. intros [= ->]. done.
Qed.

Definition parsed_ok (a : address) : Prop :=
  match protocol a with
  | proto_tcp => host_ok (host a) ∧ port_ok (port a) ∧ socket a = [] ∧ pubkey a = []
  | proto_tcp_curve => host_ok (host a) ∧ port_ok (port a) ∧ socket a = [] ∧ length (pubkey a) = 32%nat
  | proto_ipc => host a = [] ∧ port a = 0 ∧ socket a ≠ [] ∧ pubkey a = []
  | proto_ipc_curve => host a = [] ∧ port a = 0 ∧
      (length (pubkey a) = 32%nat ∨ length (pubkey a) = 31%nat)
  end.

Lemma parse_body_ok p qr s a : s ≠ [] → parse_body p qr s = Ok a → protocol a = p ∧ parsed_ok a.
Proof.
  intros Hne. unfold parse_body. destruct (qr && _); [done|]. destruct (tcp_proto p) eqn:Et.
  - destruct (to_end _ s) as [o s'] eqn:E. cbn [fst]. intros H. inv_bind. destruct a0 as [[h pt] pk].
    injection H as <-. subst o. unfold to_end, parse_tcp in E. inv_bind. unfold mret, M_ret in *. simplify_eq.
    split; [done|]. apply parse_host_host_ok in E2. apply (host_ok_lower qr) in E2.
    apply parse_port_range in E3. apply parse_trailing_pubkey_length in E4.
    by destruct p.
  - destruct (to_end _ s) as [o s'] eqn:E. cbn [fst]. intros H. inv_bind. destruct a0 as [sock pk].
    injection H as <-. subst o. unfold to_end in E. inv_bind. unfold mret, M_ret in *. simplify_eq.
    split; [done|]. pose proof (parse_unix_pubkey _ _ _ _ _ E0) as Hpk. destruct p; try done.
    cbn in E0. injection E0 as <- _ _. by split_and!.
Qed.

Lemma address_parse_ok s a : address_parse s = Ok a → parsed_ok a.
Proof.
  unfold address_parse. destruct (find_sub _ s) as [[|n]|]; [done| |done]. cbv zeta.
  destruct (drop _ s) as [|c r]; [done|]. destruct (parse_proto _) as [[p qr]|]; [|done].
  intros H. by apply parse_body_ok in H as [_ ?].
Qed.

(** ** Failures are exceptions of two classes *)
Definition parse_error (e : exn) : Prop := e = invalid_argument ∨ e = out_of_range.
Definition fails_well {A} (o : outcome A) : Prop :=
  match o with Ok _ => True | Throw e => parse_error e | UB | Diverge => False end.

Lemma fails_well_bind {A C} (p : parser A) (f : A → parser C) s :
  fails_well (p s).1 → (∀ a s', p s = (Ok a, s') → fails_well (f a s').1) → fails_well ((p ≫= f) s).1.
Proof.
  unfold mbind, M_bind. destruct (p s) as [[a|e| |] s'] eqn:E; cbn; try done. intros _ H. by apply H.
Qed.

Lemma fails_well_host qr s : s ≠ [] → fails_well (parse_host qr s).1.
Proof.
  intros Hs. unfold parse_host. destruct s as [|c t]; [done|]. cbv zeta.
  repeat case_match; cbn; try done; by left.
Qed.

Lemma fails_well_port s : fails_well (parse_port s).1.
Proof.
  unfold parse_port, stoi. cbv zeta. repeat case_match; simplify_eq; cbn; try done;
    by first [left; done|right; done].
Qed.

Lemma fails_well_end s : fails_well (expect_end s).1.
Proof. unfold expect_end. case_match; cbn; [done|by left]. Qed.

Lemma fails_well_hex s : is_hex s = true → fails_well (from_hex s).
Proof. intros H. by destruct (to_hex_from_hex s H) as (b & -> & _). Qed.

Lemma fails_well_decode qr s : fails_well (decode_pubkey qr s).1.
Proof.
  unfold decode_pubkey. destruct (_ && is_hex _) eqn:E.
  - apply andb_true_iff in E as [_ E]. by apply fails_well_hex.
  - repeat case_match; cbn; try done; by left.
Qed.

Lemma fails_well_trailing qr e s : fails_well (parse_trailing_pubkey qr e s).1.
Proof.
  unfold parse_trailing_pubkey. destruct e; repeat (apply fails_well_bind; [|intros ? ? _]); try done;
    try apply fails_well_end; try apply fails_well_decode.
  unfold parse_slash. repeat case_match; cbn; try done; by left.
Qed.

Lemma fails_well_unix e s : fails_well (parse_unix e s).1.
Proof.
  unfold parse_unix. destruct e; [|done]. cbv zeta. destruct (pubkey_suffix 64 is_hex s) eqn:E.
  - apply andb_true_iff in E as [_ E]. apply fails_well_hex in E. by destruct (from_hex _).
  - repeat case_match; cbn; try done; by left.
Qed.

Lemma address_parse_fails_well s : fails_well (address_parse s).
Proof.
  unfold address_parse. destruct (find_sub _ s) as [[|n]|]; [by left| |by left]. cbv zeta.
  destruct (drop _ s) as [|c r]; [by left|]. destruct (parse_proto _) as [[p qr]|]; [|by left].
  unfold parse_body. destruct (qr && _); [by left|]. destruct (tcp_proto p).
  - assert (fails_well (to_end (parse_tcp qr (curve_proto p)) (c :: r)).1) as H.
    { unfold to_end, parse_tcp. repeat (apply fails_well_bind; [|intros ? ? _]); try done;
        try apply fails_well_end; try apply fails_well_port; try apply fails_well_trailing.
      by apply fails_well_host. }
    by destruct (to_end _ _) as [[[[? ?] ?]|e| |] ?].
  - assert (fails_well (to_end (parse_unix (curve_proto p)) (c :: r)).1) as H.
    { unfold to_end. repeat (apply fails_well_bind; [|intros ? ? _]); try done;
        try apply fails_well_end. apply fails_well_unix. }
    by destruct (to_end _ _) as [[[? ?]|e| |] ?].
Qed.

(** ** [operator==] *)
Lemma address_eqb_spec a b : address_eqb a b = true ↔ address_norm a = address_norm b.
Proof.
  destruct a as [p h pt s k], b as [p2 h2 pt2 s2 k2].
  unfold address_eqb, address_norm, ipc, tcp, curve. cbn [protocol host port socket pubkey].
  case_bool_decide as Hp; cbn [negb]; [subst p2|split; [done|by intros [= ? _]]].
  unfold bytes_eqb.
  destruct p; [change (tcp_proto _) with true; change (curve_proto _) with false
    |change (tcp_proto _) with true; change (curve_proto _) with true
    |change (tcp_proto _) with false; change (curve_proto _) with false
    |change (tcp_proto _) with false; change (curve_proto _) with true];
    cbn; repeat case_bool_decide; cbn; destruct (Z.eqb_spec pt pt2); cbn;
    split; intros Hx; congruence.
Qed.

#[export] Instance address_equiv : Equiv address := λ a b, address_eqb a b = true.

#[export] Instance address_equivalence : Equivalence (≡@{address}).
Proof.
  unfold equiv, address_equiv. split.
  - intros a. by apply address_eqb_spec.
  - intros a b. rewrite !address_eqb_spec. done.
  - intros a b c. rewrite !address_eqb_spec. congruence.
Qed.

Lemma full_address_norm enc a : full_address enc (address_norm a) = full_address enc a.
Proof. by destruct a as [[] h pt s k]; destruct enc. Qed.

(** Equal addresses print alike, so printing can be rewritten under [operator==]. *)
#[export] Instance full_address_proper enc : Proper ((≡) ==> (=)) (full_address enc).
Proof.
  intros a b H. unfold equiv, address_equiv in H. apply address_eqb_spec in H.
  by rewrite <-(full_address_norm enc a), H, full_address_norm.
Qed.

Lemma parsed_norm a : parsed_ok a → address_norm a = a.
Proof.
  destruct a as [[] h pt s k]; unfold parsed_ok, address_norm; cbn; intros H; destruct_and! H; by subst.
Qed.

(** ** Properties *)

(** C37. Printing and parsing are inverse: for every address with a well-formed
    host, a port in 1-65535 and a 32-byte key, and for every pubkey encoding, the
    constructor applied to [full_address] gives the address back (fields its
    protocol does not use reset). *)
Theorem address_roundtrip a enc :
  address_ok a → address_parse (full_address enc a) = Ok (address_norm a).
Proof. apply parse_full_address. Qed.

Lemma address_roundtrip_witness :
  let a := address_tcp_curve (B "[::ffff:1.2.3.4]") 65535 (replicate 32 (z2b 255)) in
  address_parse (full_address enc_base64 a) = Ok (address_norm a).
Proof.
  apply (address_roundtrip _ enc_base64). split; [|split; [done|vm_compute; reflexivity]].
  right. exists (B "::ffff:1.2.3.4"). split; [reflexivity|].
  repeat first [apply Forall_nil_2|apply Forall_cons_2; [reflexivity|]].
Defined.

(** The QR form of every TCP address whose host consists of QR characters
    (bracketed IPv6 included) exists and parses back to the address with its host
    in lower case. *)
Theorem qr_address_roundtrip a :
  qr_ok a → ∃ s, qr_address a = Ok s ∧ address_parse s = Ok (address_norm (lower_address a)).
Proof. apply qr_address_parse. Qed.

Lemma qr_address_roundtrip_witness :
  let a := address_tcp_curve (B "Example-1.org") 443 (replicate 32 (z2b 7)) in
  ∃ s, qr_address a = Ok s ∧ address_parse s = Ok (address_norm (lower_address a)).
Proof.
  apply (qr_address_roundtrip (address_tcp_curve (B "Example-1.org") 443 (replicate 32 (z2b 7)))).
  split; [reflexivity|]. split; [|split; [done|reflexivity]]. left.
  split; [split; [done|split; [|done]]|split; [done|]];
    repeat first [apply Forall_nil_2|apply Forall_cons_2; [first [reflexivity|discriminate]|]].
Defined.

(** C38. Whatever string is parsed, the result is well formed: TCP addresses have a
    non-empty host and a port in 1-65535, plaintext addresses no pubkey, and a
    pubkey has 32 bytes (or 31, for unix sockets only); and unless the pubkey has
    31 bytes the address can be printed in any encoding and parses back to itself. *)
Theorem address_parse_wf s a :
  address_parse s = Ok a →
  parsed_ok a ∧
  (length (pubkey a) ≠ 31%nat → ∀ enc, address_parse (full_address enc a) = Ok a).
Proof.
  intros H%address_parse_ok. split; [done|]. intros Hl enc.
  rewrite <-(parsed_norm a H) at 2. apply parse_full_address.
  unfold parsed_ok, address_ok in *. destruct (protocol a); naive_solver.
Qed.

Lemma address_parse_wf_witness :
  let a := Address proto_tcp (B "ab.c") 80 [] [] in
  parsed_ok a ∧ (length (pubkey a) ≠ 31%nat → ∀ enc, address_parse (full_address enc a) = Ok a).
Proof.
  apply (address_parse_wf (B "TCP://AB.C:0080")).
  vm_compute. reflexivity.
Defined.

(** Parsing never has undefined behaviour and always returns: it gives an
    address or throws [std::invalid_argument] or [std::out_of_range]. *)
Theorem address_parse_total s :
  match address_parse s with
  | Ok _ => True
  | Throw e => e = invalid_argument ∨ e = out_of_range
  | UB | Diverge => False
  end.
Proof. apply address_parse_fails_well. Qed.

(** [operator==] compares what the protocol uses: two printable addresses are
    equal exactly when their full addresses are the same string, in any encoding. *)
Theorem address_eq_full a b enc :
  address_ok a → address_ok b →
  (address_eqb a b = true ↔ full_address enc a = full_address enc b).
Proof.
  intros Ha Hb. split; [apply full_address_proper|]. intros H. apply address_eqb_spec.
  pose proof (parse_full_address a enc Ha) as Ea. rewrite H, (parse_full_address b enc Hb) in Ea.
  congruence.
Qed.

Lemma address_eq_full_witness :
  let a := Address proto_ipc (B "h") 1 (B "x.sock") (B "junk") in
  let b := address_ipc (B "x.sock") in
  address_eqb a b = true ↔ full_address enc_hex a = full_address enc_hex b.
Proof.
  intros a b. apply (address_eq_full a b enc_hex); discriminate.
Defined.

(** [set_pubkey] keeps protocol and key consistent on a TCP address and when a
    key is added: the protocol is a curve one exactly when the key is not empty; any
    other key length is rejected. *)
Theorem set_pubkey_consistent a pk :
  match set_pubkey pk a with
  | Ok a' => (length pk = 0 ∨ length pk = 32)%nat ∧ pubkey a' = pk ∧ tcp a' = tcp a ∧
      (protocol a ≠ proto_ipc_curve → curve a' = negb (bool_decide (pk = [])))
  | Throw e => e = invalid_argument ∧ length pk ≠ 0%nat ∧ length pk ≠ 32%nat
  | _ => False
  end.
Proof.
  unfold set_pubkey, tcp, curve. destruct (length pk =? 0)%nat eqn:E0.
  - assert (pk = []) as -> by (destruct pk; [done|discriminate]).
    destruct a as [[] ? ? ? ?]; cbn; split_and!; try done; by left.
  - destruct (length pk =? 32)%nat eqn:E1; [|split_and!; [done|lia..]].
    assert (pk ≠ []) by (intros ->; discriminate). rewrite (bool_decide_eq_false_2 (pk = [])) by done.
    destruct a as [[] ? ? ? ?]; cbn; split_and!; try done; right; lia.
Qed.

(** Removing the pubkey of an [ipc+curve] address leaves it a curve address
    with an empty key: the second test of [set_pubkey] repeats the first. *)
Theorem set_pubkey_ipc_not_downgraded path pk :
  set_pubkey [] (address_ipc_curve path pk) = Ok (address_ipc_curve path []).
Proof. reflexivity. Qed.

(** A unix address whose base64 key ends in two padding characters is accepted
    with a key of 31 bytes. *)
Theorem parse_unix_short_key :
  address_parse (B "ipc+curve://s/" ++ replicate 42 "A"%byte ++ B "==")
  = Ok (address_ipc_curve (B "s") (replicate 31 (z2b 0))).
Proof. vm_compute. reflexivity. Qed.

(** A port that does not fit [int] makes the constructor throw
    [std::out_of_range], which the documentation does not mention. *)
Theorem parse_port_out_of_range : address_parse (B "tcp://h:2147483648") = Throw out_of_range.
Proof. vm_compute. reflexivity. Qed.

(** C39. The three encodings of keys are invertible on every byte string: decoding what
    was encoded gives it back, the encoding passes the format's validity test and has
    the documented length, and the tables are only indexed within their bounds. *)
Theorem encodings_roundtrip (s : bytes) :
  (from_hex (to_hex s) = Ok s ∧ is_hex (to_hex s) = true ∧ length (to_hex s) = (2 * length s)%nat ∧
   Forall (λ i, 0 <= i < Z.of_nat (length (to_hex_lut hex_lut))) (to_hex_indices s)) ∧
  (from_base32z (to_base32z s) = s ∧ is_base32z (to_base32z s) = true ∧ length (to_base32z s) = ((length s * 8 + 4) / 5)%nat ∧
   Forall (λ d, 0 <= d < Z.of_nat (length (to_b32z_lut b32z_lut))) (to_base32z_digits s)) ∧
  (from_base64 (to_base64 s) = s ∧ is_base64 (to_base64 s) = true ∧ length (to_base64 s) = ((length s + 2) / 3 * 4)%nat ∧
   Forall (λ d, 0 <= d < Z.of_nat (length (to_b64_lut b64_lut))) (to_base64_digits s)).
Proof.
  pose proof (hex_roundtrip s) as (? & ? & ? & ?). pose proof (base32z_roundtrip s) as (? & ? & ? & ? & _).
  pose proof (base64_roundtrip s) as (? & _ & ? & ? & ? & _). by split_and!.
Qed.
