(* ===== verification/Commands.v ===== *)
(** auth.h, arqmamq-internal.h, arqmamq.cpp: access levels, and the registry of
    command categories, commands and aliases that is set up before [start()] and
    consulted for every incoming message. *)
From S2P Require Import Prelude.
Open Scope Z_scope.

(** ** Access levels (auth.h) *)
Inductive AuthLevel : Type := denied | none | basic | admin.

#[export] Instance AuthLevel_eq_dec : EqDecision AuthLevel.
Proof. solve_decision. Defined.

(** The enumerators' underlying values: [<] and [>] on the enum compare them. *)
Definition auth_val (a : AuthLevel) : Z :=
  match a with denied => 0 | none => 1 | basic => 2 | admin => 3 end.

Record Access : Type := mkAccess { auth : AuthLevel; remote_sn : bool; local_sn : bool }.

Definition default_access : Access := mkAccess none false false.

Definition to_string (a : AuthLevel) : bytes :=
  match a with
  | denied => B "denied"
  | none => B "none"
  | basic => B "basic"
  | admin => B "admin"
  end.

Definition auth_from_string (a : bytes) : AuthLevel :=
  if bytes_eqb a (B "none") then none
  else if bytes_eqb a (B "basic") then basic
  else if bytes_eqb a (B "admin") then admin
  else denied.

(** ** Categories

    A user callback ([std::function]) is known to the proxy by its identity only. *)
Abbreviation callback := nat.

Record category : Type := mkCategory {
  access : Access;
  commands : gmap bytes (callback * bool);  (* callback and is_request *)
  reserved_threads : Z;                     (* unsigned int *)
  active_threads : Z;                       (* unsigned int *)
  max_queue : Z;                            (* int *)
  queued : Z                                (* int *)
}.

Definition MAX_CATEGORY_LENGTH : nat := 50.
Definition MAX_COMMAND_LENGTH : nat := 200.

(** [started] is [proxy_thread.joinable()]. *)
Record registry : Type := mkRegistry {
  started : bool;
  categories : gmap bytes category;
  command_aliases : gmap bytes bytes
}.

Definition empty_registry : registry := mkRegistry false ∅ ∅.

Definition set_categories (f : gmap bytes category → gmap bytes category) : M registry unit := λ r,
  (Ok tt, mkRegistry (started r) (f (categories r)) (command_aliases r)).
Definition set_aliases (f : gmap bytes bytes → gmap bytes bytes) : M registry unit := λ r,
  (Ok tt, mkRegistry (started r) (categories r) (f (command_aliases r))).

Definition throw_if (b : bool) (e : exn) : M registry unit := if b then throwM e else mret tt.

Definition check_not_started : M registry unit :=
  r ← getS; throw_if (started r) logic_error.

(** [find('.')] *)
Definition find_dot (s : bytes) : option nat := find_first (λ c, bool_decide (c = "."%byte)) s.

Definition new_category (access_level : Access) (reserved mq : Z) : category :=
  mkCategory access_level ∅ reserved 0 mq 0.

Definition add_category (name : bytes) (access_level : Access) (reserved mq : Z) : M registry unit :=
  _ ← check_not_started;
  _ ← throw_if (MAX_CATEGORY_LENGTH <? length name)%nat runtime_error;
  _ ← throw_if (bool_decide (name = []) || bool_decide (is_Some (find_dot name))) runtime_error;
  r ← getS;
  _ ← throw_if (bool_decide (is_Some (categories r !! name))) runtime_error;
  set_categories (λ cs, <[name := new_category access_level reserved mq]> cs).

Definition set_commands (f : gmap bytes (callback * bool) → gmap bytes (callback * bool)) (c : category) : category :=
  mkCategory (access c) (f (commands c)) (reserved_threads c) (active_threads c) (max_queue c) (queued c).

Definition full_name (cat name : bytes) : bytes := cat ++ "."%byte :: name.

(** The category must exist: [categories.find(category)] or throw. *)
Definition find_category (cat : bytes) (e : exn) : M registry category :=
  r ← getS;
  match categories r !! cat with
  | Some c => mret c
  | None => throwM e
  end.

Definition add_command (cat name : bytes) (cb : callback) : M registry unit :=
  _ ← check_not_started;
  _ ← throw_if (MAX_COMMAND_LENGTH <? length name)%nat runtime_error;
  c ← find_category cat runtime_error;
  r ← getS;
  _ ← throw_if (bool_decide (is_Some (command_aliases r !! full_name cat name))) runtime_error;
  _ ← throw_if (bool_decide (is_Some (commands c !! name))) runtime_error;
  set_categories (λ cs, <[cat := set_commands (λ m, <[name := (cb, false)]> m) c]> cs).

(** [add_command], then [categories.at(category).commands.at(name).second = true]. *)
Definition add_request_command (cat name : bytes) (cb : callback) : M registry unit :=
  _ ← add_command cat name cb;
  c ← find_category cat out_of_range;
  match commands c !! name with
  | Some (cb', _) => set_categories (λ cs, <[cat := set_commands (λ m, <[name := (cb', true)]> m) c]> cs)
  | None => throwM out_of_range
  end.

(** Would the alias [from] hide a command that exists? *)
Definition alias_masks (r : registry) (from : bytes) : bool :=
  match find_dot from with
  | Some fromdot =>
      match categories r !! take fromdot from with
      | Some c => bool_decide (is_Some (commands c !! drop (S fromdot) from))
      | None => false
      end
  | None => false
  end.

Definition add_command_alias (from to : bytes) : M registry unit :=
  _ ← check_not_started;
  _ ← throw_if (bool_decide (from = [])) runtime_error;
  _ ← throw_if (bool_decide (find_dot from = Some 0%nat)) runtime_error;
  _ ← throw_if (bool_decide (find_dot to = Some 0%nat) || bool_decide (find_dot to = None)) runtime_error;
  r ← getS;
  _ ← throw_if (alias_masks r from) runtime_error;
  _ ← throw_if (bool_decide (is_Some (command_aliases r !! from))) runtime_error;
  set_aliases (λ al, <[from := to]> al).

(** ** Lookup

    [get_command] returns the category and command found and the command name,
    which it replaces by the alias target. *)
Definition resolve_alias (r : registry) (command : bytes) : bytes :=
  default command (command_aliases r !! command).

Definition lookup_command (r : registry) (command : bytes) : option (bytes * bytes) :=
  match find_dot command with
  | None | Some O => None
  | Some dot =>
      let catname := take dot command in
      let cmd := drop (S dot) command in
      match categories r !! catname with
      | None => None
      | Some c => if bool_decide (is_Some (commands c !! cmd)) then Some (catname, cmd) else None
      end
  end.

Definition get_command (r : registry) (command : bytes) : option (bytes * bytes) * bytes :=
  if (MAX_CATEGORY_LENGTH + 1 + MAX_COMMAND_LENGTH <? length command)%nat then (None, command)
  else let command := resolve_alias r command in (lookup_command r command, command).

(** ** Worker counts (before [start()])

    [set_batch_threads], [set_reply_threads] and [set_general_threads] share their
    shape: a lower bound, then the assignment. *)
Record thread_config : Type := mkThreads {
  general_workers_cfg : Z; batch_jobs_reserved_cfg : Z; reply_jobs_reserved_cfg : Z
}.

Definition set_batch_threads (is_started : bool) (threads : Z) (t : thread_config) : outcome thread_config :=
  if is_started then Throw logic_error
  else if threads <? -1 then Throw out_of_range
  else Ok (mkThreads (general_workers_cfg t) threads (reply_jobs_reserved_cfg t)).

Definition set_reply_threads (is_started : bool) (threads : Z) (t : thread_config) : outcome thread_config :=
  if is_started then Throw logic_error
  else if threads <? -1 then Throw out_of_range
  else Ok (mkThreads (general_workers_cfg t) (batch_jobs_reserved_cfg t) threads).

Definition set_general_threads (is_started : bool) (threads : Z) (t : thread_config) : outcome thread_config :=
  if is_started then Throw logic_error
  else if threads <? 1 then Throw out_of_range
  else Ok (mkThreads threads (batch_jobs_reserved_cfg t) (reply_jobs_reserved_cfg t)).

(** ** Invariant

    Category names are short, non-empty and free of dots, command names short, and
    no alias is the full name of a command. *)
Record registry_ok (r : registry) : Prop := {
  ok_category n c : categories r !! n = Some c →
    n ≠ [] ∧ find_dot n = None ∧ (length n <= MAX_CATEGORY_LENGTH)%nat;
  ok_command n c m x : categories r !! n = Some c → commands c !! m = Some x →
    (length m <= MAX_COMMAND_LENGTH)%nat;
  ok_alias n c m x : categories r !! n = Some c → commands c !! m = Some x →
    command_aliases r !! full_name n m = None
}.

Lemma find_dot_full n m : n ≠ [] → find_dot n = None →
  find_dot (full_name n m) = Some (length n) ∧ length n ≠ 0%nat ∧
  take (length n) (full_name n m) = n ∧ drop (S (length n)) (full_name n m) = m.
Proof.
  intros Hne Hd. unfold find_dot in *. apply find_first_None in Hd. unfold full_name. split_and!.
  - apply find_first_app; [done|]. by rewrite bool_decide_eq_true.
  - by destruct n.
  - apply take_app_length.
  - replace (S (length n)) with (length (n ++ ["."%byte])) by (rewrite length_app; simpl; lia).
    replace (n ++ "."%byte :: m) with ((n ++ ["."%byte]) ++ m) by (by rewrite <-app_assoc).
    apply drop_app_length.
Qed.

(** A name with a dot is the full name of the parts around its first dot. *)
Lemma full_name_split s dot : find_dot s = Some dot → s = full_name (take dot s) (drop (S dot) s).
Proof.
  intros H. apply find_first_Some in H as (_ & c & Hc & Hd). apply bool_decide_eq_true in Hd as ->.
  unfold full_name. rewrite <-(drop_S s _ dot Hc). by rewrite take_drop.
Qed.

(** The equations of the checks, which turn an operation into nested
    conditionals. *)
Lemma throw_if_bind {A} b e (f : unit → M registry A) r :
  (throw_if b e ≫= f) r = if b then (Throw e, r) else f tt r.
Proof. by destruct b. Qed.

Lemma check_not_started_bind {A} (f : unit → M registry A) r :
  (check_not_started ≫= f) r = if started r then (Throw logic_error, r) else f tt r.
Proof. unfold check_not_started, mbind, M_bind, getS, throw_if. by destruct (started r). Qed.

Lemma getS_bind {A} (f : registry → M registry A) r : (getS ≫= f) r = f r r.
Proof. done. Qed.

Lemma find_category_bind {A} cat e (f : category → M registry A) r :
  (find_category cat e ≫= f) r
  = match categories r !! cat with Some c => f c r | None => (Throw e, r) end.
Proof. unfold find_category, mbind, M_bind, getS. by destruct (categories r !! cat). Qed.

(** What each operation does: it throws and changes nothing, or its checks passed. *)
Lemma add_category_inv name a res mq r o r' :
  add_category name a res mq r = (o, r') →
  (r' = r ∧ ∃ e, o = Throw e) ∨
  (o = Ok tt ∧ started r = false ∧ (length name <= MAX_CATEGORY_LENGTH)%nat ∧ name ≠ [] ∧
   find_dot name = None ∧ categories r !! name = None ∧
   r' = mkRegistry (started r) (<[name := new_category a res mq]> (categories r)) (command_aliases r)).
Proof.
  unfold add_category. rewrite check_not_started_bind, !throw_if_bind, getS_bind, throw_if_bind.
  destruct (started r) eqn:Es; [intros [= <- <-]; left; by eauto|].
  destruct (_ <? length name)%nat eqn:El; [intros [= <- <-]; left; by eauto|].
  destruct (_ || _) eqn:Ed; [intros [= <- <-]; left; by eauto|].
  destruct (bool_decide (is_Some (categories r !! name))) eqn:Ec; [intros [= <- <-]; left; by eauto|].
  intros [= <- <-]. right. apply orb_false_iff in Ed as [Hn Hd].
  apply bool_decide_eq_false in Hn, Hd, Ec. apply eq_None_not_Some in Hd, Ec.
  apply Nat.ltb_ge in El. split_and!; try done; by rewrite Es.
Qed.

Lemma add_command_inv cat name cb r o r' :
  add_command cat name cb r = (o, r') →
  (r' = r ∧ ∃ e, o = Throw e) ∨
  ∃ c, o = Ok tt ∧ started r = false ∧ (length name <= MAX_COMMAND_LENGTH)%nat ∧
    categories r !! cat = Some c ∧ command_aliases r !! full_name cat name = None ∧
    commands c !! name = None ∧
    r' = mkRegistry (started r)
      (<[cat := set_commands (λ m, <[name := (cb, false)]> m) c]> (categories r)) (command_aliases r).
Proof.
  unfold add_command. rewrite check_not_started_bind, throw_if_bind, find_category_bind.
  destruct (started r) eqn:Es; [intros [= <- <-]; left; by eauto|].
  destruct (_ <? length name)%nat eqn:El; [intros [= <- <-]; left; by eauto|].
  destruct (categories r !! cat) as [c|] eqn:Ec; [|intros [= <- <-]; left; by eauto].
  rewrite getS_bind, !throw_if_bind.
  destruct (bool_decide _) eqn:Ea; [intros [= <- <-]; left; by eauto|].
  destruct (bool_decide (is_Some (commands c !! name))) eqn:Em; [intros [= <- <-]; left; by eauto|].
  intros [= <- <-]. right. apply bool_decide_eq_false, eq_None_not_Some in Ea, Em.
  exists c. apply Nat.ltb_ge in El. split_and!; try done; by rewrite Es.
Qed.

(** On success the request flag is set on the command just added. *)
Lemma add_request_command_inv cat name cb r o r' :
  add_request_command cat name cb r = (o, r') →
  (r' = r ∧ ∃ e, o = Throw e) ∨
  ∃ c, o = Ok tt ∧ started r = false ∧ (length name <= MAX_COMMAND_LENGTH)%nat ∧
    categories r !! cat = Some c ∧ command_aliases r !! full_name cat name = None ∧
    commands c !! name = None ∧
    r' = mkRegistry (started r)
      (<[cat := set_commands (λ m, <[name := (cb, true)]> m) c]> (categories r)) (command_aliases r).
Proof.
  unfold add_request_command. unfold mbind at 1, M_bind at 1.
  destruct (add_command cat name cb r) as [o1 r1] eqn:E.
  apply add_command_inv in E as [[-> [e ->]]|(c & -> & H1 & H2 & H3 & H4 & H5 & ->)].
  { intros [= <- <-]. left; by eauto. }
  rewrite find_category_bind. cbn [categories]. rewrite lookup_insert_eq. cbn [commands set_commands].
  rewrite lookup_insert_eq. intros [= <- <-]. right. exists c. split_and!; try done.
  unfold set_commands. cbn. by rewrite insert_insert_eq, insert_insert_eq.
Qed.

Lemma add_command_alias_inv from to r o r' :
  add_command_alias from to r = (o, r') →
  (r' = r ∧ ∃ e, o = Throw e) ∨
  (o = Ok tt ∧ started r = false ∧ alias_masks r from = false ∧ find_dot from ≠ Some 0%nat ∧
   command_aliases r !! from = None ∧
   r' = mkRegistry (started r) (categories r) (<[from := to]> (command_aliases r))).
Proof.
  unfold add_command_alias. rewrite check_not_started_bind, !throw_if_bind, getS_bind, !throw_if_bind.
  destruct (started r) eqn:Es; [intros [= <- <-]; left; by eauto|].
  destruct (bool_decide (from = [])) eqn:E1; [intros [= <- <-]; left; by eauto|].
  destruct (bool_decide (find_dot from = _)) eqn:E2; [intros [= <- <-]; left; by eauto|].
  destruct (_ || _); [intros [= <- <-]; left; by eauto|].
  destruct (alias_masks r from) eqn:E3; [intros [= <- <-]; left; by eauto|].
  destruct (bool_decide (is_Some (command_aliases r !! from))) eqn:E4; [intros [= <- <-]; left; by eauto|].
  intros [= <- <-]. right. apply bool_decide_eq_false in E1, E2, E4. apply eq_None_not_Some in E4.
  split_and!; try done. by rewrite Es.
Qed.

(** ** The operations keep the invariant *)
Inductive registry_op : Type :=
  | op_category (name : bytes) (a : Access) (reserved mq : Z)
  | op_command (cat name : bytes) (cb : callback)
  | op_request_command (cat name : bytes) (cb : callback)
  | op_alias (from to : bytes).

Definition run_op (op : registry_op) : M registry unit :=
  match op with
  | op_category name a reserved mq => add_category name a reserved mq
  | op_command cat name cb => add_command cat name cb
  | op_request_command cat name cb => add_request_command cat name cb
  | op_alias from to => add_command_alias from to
  end.

(** A setup sequence; a call that throws leaves the registry for the next one. *)
Definition run_ops (ops : list registry_op) (r : registry) : registry :=
  foldl (λ r op, (run_op op r).2) r ops.

Lemma registry_ok_empty : registry_ok empty_registry.
Proof. split; intros *; cbn; by rewrite lookup_empty. Qed.

Lemma registry_ok_add_commands r cat c name x :
  registry_ok r → categories r !! cat = Some c → (length name <= MAX_COMMAND_LENGTH)%nat →
  command_aliases r !! full_name cat name = None →
  registry_ok (mkRegistry (started r)
    (<[cat := set_commands (λ m, <[name := x]> m) c]> (categories r)) (command_aliases r)).
Proof.
  intros [H1 H2 H3] Hc Hn Ha. split; cbn.
  - intros n c' [[<- <-]|[_ ?]]%lookup_insert_Some; eauto.
  - intros n c' m y [[<- <-]|[_ ?]]%lookup_insert_Some; [|eauto]. cbn.
    intros [[<- <-]|[_ ?]]%lookup_insert_Some; eauto.
  - intros n c' m y [[<- <-]|[_ ?]]%lookup_insert_Some; [|eauto]. cbn.
    intros [[<- <-]|[_ ?]]%lookup_insert_Some; eauto.
Qed.

Lemma run_op_ok op r o r' : registry_ok r → run_op op r = (o, r') → registry_ok r'.
Proof.
  intros Hr. destruct op as [name a res mq|cat name cb|cat name cb|from to]; cbn [run_op].
  - intros [[-> _]|(_ & _ & Hl & Hne & Hd & Hc & ->)]%add_category_inv; [done|].
    destruct Hr as [H1 H2 H3]. split; cbn.
    + intros n c [[<- <-]|[_ ?]]%lookup_insert_Some; eauto.
    + intros n c m x [[<- <-]|[_ ?]]%lookup_insert_Some; [cbn; by rewrite lookup_empty|eauto].
    + intros n c m x [[<- <-]|[_ ?]]%lookup_insert_Some; [cbn; by rewrite lookup_empty|eauto].
  - intros [[-> _]|(c & _ & _ & Hl & Hc & Ha & _ & ->)]%add_command_inv; [done|].
    by apply registry_ok_add_commands.
  - intros [[-> _]|(c & _ & _ & Hl & Hc & Ha & _ & ->)]%add_request_command_inv; [done|].
    by apply registry_ok_add_commands.
  - intros [[-> _]|(_ & _ & Hm & _ & Ha & ->)]%add_command_alias_inv; [done|].
    destruct Hr as [H1 H2 H3]. split; cbn; [by eauto..|].
    intros n c m x Hn Hx. destruct (H1 n c Hn) as (Hne & Hd & _).
    apply lookup_insert_None. split; [by eauto|]. intros ->.
    destruct (find_dot_full n m Hne Hd) as (E1 & _ & E2 & E3).
    unfold alias_masks in Hm. rewrite E1, E2, Hn, E3, Hx in Hm. by rewrite bool_decide_eq_true_2 in Hm.
Qed.

Lemma run_ops_ok ops r : registry_ok r → registry_ok (run_ops ops r).
Proof.
  revert r. induction ops as [|op ops IH]; intros r Hr; [done|]. cbn. apply IH.
  destruct (run_op op r) as [o r'] eqn:E. by eapply run_op_ok.
Qed.

Lemma lookup_command_sound r s cat cmd :
  lookup_command r s = Some (cat, cmd) →
  s = full_name cat cmd ∧ ∃ c x, categories r !! cat = Some c ∧ commands c !! cmd = Some x.
Proof.
  unfold lookup_command. destruct (find_dot s) as [[|dot]|] eqn:Ed; [done| |done]. cbv zeta.
  destruct (categories r !! take (S dot) s) as [c|] eqn:Ec; [|done].
  case_bool_decide as Hx; [|done]. destruct Hx as [x Hx]. intros [= <- <-].
  split; [by apply full_name_split|]. eauto.
Qed.

Lemma lookup_command_complete r cat cmd c x :
  registry_ok r → categories r !! cat = Some c → commands c !! cmd = Some x →
  lookup_command r (full_name cat cmd) = Some (cat, cmd).
Proof.
  intros Hr Hc Hx. destruct (ok_category r Hr _ _ Hc) as (Hne & Hd & _).
  destruct (find_dot_full cat cmd Hne Hd) as (E1 & E2 & E3 & E4).
  unfold lookup_command. rewrite E1. destruct (length cat) as [|k] eqn:El; [done|].
  cbv zeta. rewrite E3, Hc, E4, Hx. by rewrite bool_decide_eq_true_2.
Qed.

Lemma resolve_alias_command r cat cmd c x :
  registry_ok r → categories r !! cat = Some c → commands c !! cmd = Some x →
  resolve_alias r (full_name cat cmd) = full_name cat cmd.
Proof. intros Hr Hc Hx. unfold resolve_alias. by rewrite (ok_alias r Hr _ _ _ _ Hc Hx). Qed.

(** ** Properties *)

(** However the registry was set up, every registered command is reachable
    under its full name: no alias hides it, its name is not too long, and the first
    dot splits it into its own category and command. *)
Theorem registered_command_found ops cat cmd c x :
  let r := run_ops ops empty_registry in
  categories r !! cat = Some c → commands c !! cmd = Some x →
  get_command r (full_name cat cmd) = (Some (cat, cmd), full_name cat cmd).
Proof.
  intros r Hc Hx. pose proof (run_ops_ok ops _ registry_ok_empty) as Hr. fold r in Hr.
  unfold get_command.
  destruct (_ <? _)%nat eqn:El.
  { exfalso. apply Nat.ltb_lt in El. destruct (ok_category r Hr _ _ Hc) as (_ & _ & H1).
    pose proof (ok_command r Hr _ _ _ _ Hc Hx) as H2.
    unfold full_name in El. rewrite length_app in El. cbn [length] in El. lia. }
  cbv zeta. rewrite (resolve_alias_command r cat cmd c x) by done.
  by rewrite (lookup_command_complete r cat cmd c x).
Qed.

Lemma registered_command_found_witness :
  let r := run_ops [op_category (B "rpc") default_access 0 200; op_alias (B "old") (B "rpc.ping");
                    op_request_command (B "rpc") (B "ping") 7] empty_registry in
  get_command r (B "rpc.ping") = (Some (B "rpc", B "ping"), B "rpc.ping").
Proof.
  intros r. eapply (registered_command_found
    [op_category (B "rpc") default_access 0 200; op_alias (B "old") (B "rpc.ping");
     op_request_command (B "rpc") (B "ping") 7] (B "rpc") (B "ping")).
  - vm_compute. reflexivity.
  - vm_compute. reflexivity.
Defined.

(** [get_command] only returns commands that exist: what it finds is a
    registered command of a registered category, named by the (possibly
    alias-replaced) command string. *)
Theorem get_command_sound r command cat cmd command' :
  get_command r command = (Some (cat, cmd), command') →
  command' = full_name cat cmd ∧
  (command_aliases r !! command = Some command' ∨
   command_aliases r !! command = None ∧ command' = command) ∧
  ∃ c x, categories r !! cat = Some c ∧ commands c !! cmd = Some x.
Proof.
  unfold get_command. destruct (_ <? _)%nat; [done|]. cbv zeta. intros [= Hl <-].
  apply lookup_command_sound in Hl as [Hs Hx]. split_and!; [done| |done].
  unfold resolve_alias. destruct (command_aliases r !! command); [by left|by right].
Qed.

Lemma get_command_sound_witness :
  let r := run_ops [op_category (B "rpc") default_access 0 200; op_alias (B "old") (B "rpc.ping");
                    op_command (B "rpc") (B "ping") 7] empty_registry in
  B "rpc.ping" = full_name (B "rpc") (B "ping") ∧
  (command_aliases r !! B "old" = Some (B "rpc.ping") ∨
   command_aliases r !! B "old" = None ∧ B "rpc.ping" = B "old") ∧
  ∃ c x, categories r !! B "rpc" = Some c ∧ commands c !! B "ping" = Some x.
Proof.
  intros r. apply (get_command_sound r (B "old") (B "rpc") (B "ping") (B "rpc.ping")).
  vm_compute. reflexivity.
Defined.

(** The registration calls keep the registry's invariant (short, dot-free
    category names, short command names, no alias that masks a command), and one
    that throws changes nothing. *)
Theorem registry_op_safe op r o r' :
  registry_ok r → run_op op r = (o, r') →
  registry_ok r' ∧ (o ≠ Ok tt → r' = r) ∧ (started r = true → o = Throw logic_error ∧ r' = r).
Proof.
  intros Hr H. split_and!; [by eapply run_op_ok| |].
  - destruct op; cbn [run_op] in H;
      [apply add_category_inv in H|apply add_command_inv in H|apply add_request_command_inv in H
      |apply add_command_alias_inv in H]; naive_solver.
  - intros Hst. destruct op; cbn [run_op] in H.
    1,2,4: revert H; unfold add_category, add_command, add_command_alias;
      rewrite check_not_started_bind, Hst; by intros [= <- <-].
    revert H. unfold add_request_command, add_command. unfold mbind at 1, M_bind at 1.
    rewrite check_not_started_bind, Hst. by intros [= <- <-].
Qed.

Lemma registry_op_safe_witness :
  let r := empty_registry in
  let r' := (run_op (op_category (B "c") default_access 1 0) r).2 in
  registry_ok r' ∧ (Ok tt ≠ Ok tt → r' = r) ∧ (started r = true → Ok tt = Throw logic_error ∧ r' = r).
Proof.
  intros r r'. apply (registry_op_safe (op_category (B "c") default_access 1 0) r (Ok tt) r').
  - apply registry_ok_empty.
  - vm_compute. reflexivity.
Defined.

(** The names of the levels a connection can hold round trip through the ZMTP
    metadata, and any other string means [denied]. *)
Theorem auth_level_roundtrip a s :
  auth_from_string (to_string a) = a ∧ (auth_from_string s ≠ denied → s = to_string (auth_from_string s)).
Proof.
  split; [by destruct a|]. unfold auth_from_string.
  repeat match goal with
  | |- context [bytes_eqb s ?x] => destruct (bytes_eqb s x) eqn:?E
  end; try done; intros _; by apply bytes_eqb_eq.
Qed.
