(* ===== verification/Connections.v ===== *)
(** connections.h, connections.cpp, auth.cpp: connection identities, the peer
    table, opening and closing of connections with the renumbering of every stored
    connection index, and the set of active service nodes. *)
From S2P Require Import Prelude Commands.
Open Scope Z_scope.

(** ** [ConnectionID] *)
Record ConnectionID : Type := mkConn { id : Z; pk : bytes; route : bytes }.

#[export] Instance ConnectionID_eq_dec : EqDecision ConnectionID.
Proof. solve_decision. Defined.

Definition SN_ID : Z := -1.
Definition sn (c : ConnectionID) : bool := id c =? SN_ID.

(** [ConnectionID(pubkey)]: only 32-byte keys. *)
Definition conn_of_pubkey (pubkey : bytes) : outcome ConnectionID :=
  if negb (length pubkey =? 32)%nat then Throw runtime_error else Ok (mkConn SN_ID pubkey []).
Definition conn_of_id (n : Z) : ConnectionID := mkConn n [] [].
Definition conn_bool (c : ConnectionID) : bool := negb (id c =? 0).
Definition unrouted (c : ConnectionID) : ConnectionID := mkConn (id c) (pk c) [].

Definition conn_eqb (a o : ConnectionID) : bool :=
  if sn a && sn o then bytes_eqb (pk a) (pk o)
  else (id a =? id o) && bytes_eqb (route a) (route o).

Definition conn_ltb (a o : ConnectionID) : bool :=
  if sn a && sn o then bytes_ltb (pk a) (pk o)
  else (id a <? id o) || ((id a =? id o) && bytes_ltb (route a) (route o)).

(** [std::hash<ConnectionID>], over the hash functions of the parts. *)
Definition conn_hash (already_hashed hash_string : bytes → Z) (hash_id : Z → Z) (c : ConnectionID) : Z :=
  if sn c then already_hashed (pk c) else (hash_id (id c) + hash_string (route c)) mod 2 ^ 64.

(** ** The proxy's connection tables *)

(** A zmq socket is known by an identity and its type. *)
Inductive socket_type : Type := router | dealer.
Record zmq_socket : Type := mkSocket { sock_id : nat; sock_type : socket_type }.

(** Times are milliseconds of the steady clock. *)
Record peer_info : Type := mkPeer {
  peer_pubkey : bytes;
  service_node : bool;
  auth_level : AuthLevel;
  conn_index : nat;
  peer_route : bytes;
  last_activity : Z;
  idle_expiry : Z
}.

Definition outgoing (p : peer_info) : bool := bool_decide (peer_route p = []).

Record pending_connect : Type := mkPendingConnect {
  pc_index : nat; pc_conn_id : Z; pc_timeout : Z; pc_success : callback; pc_failure : callback
}.

Record bind_data : Type := mkBind { bind_addr : bytes; bind_curve : bool; bind_index : nat; bind_allow : callback }.

(** How long a closed socket goes on delivering what was sent: the time given, the
    setting [CLOSE_LINGER], or the same at the end of the proxy thread, which does not
    test for negative values. *)
Inductive linger : Type := linger_ms (ms : Z) | close_linger | quit_linger.

(** The multimap and the maps are sequences in iteration order; [closed] are the sockets
    that were closed, each with the time it was given. *)
Record conns : Type := mkConns {
  connections : list zmq_socket;
  peers : list (ConnectionID * peer_info);
  conn_index_to_id : list ConnectionID;
  incoming_conn_index : list (ConnectionID * nat);
  pending_connects : list pending_connect;
  bind : list bind_data;
  pollitems_stale : bool;
  active_service_nodes : gset bytes;
  next_socket : nat;
  closed : list (zmq_socket * linger)
}.

(** The new index of [i] once element [index] is erased; [None] for the element
    itself. *)
Definition reindex (index i : nat) : option nat :=
  if (index =? i)%nat then None else Some (if (index <? i)%nat then (i - 1)%nat else i).

(** [update_connection_indices(c, index, get_index)]. *)
Definition update_connection_indices {A} (get : A → nat) (set : nat → A → A) (index : nat) : list A → list A :=
  omap (λ x, (λ i, set i x) <$> reindex index (get x)).

Definition set_conn_index (i : nat) (p : peer_info) : peer_info :=
  mkPeer (peer_pubkey p) (service_node p) (auth_level p) i (peer_route p) (last_activity p) (idle_expiry p).

Definition update_peers (index : nat) : list (ConnectionID * peer_info) → list (ConnectionID * peer_info) :=
  update_connection_indices (λ p, conn_index p.2) (λ i p, (p.1, set_conn_index i p.2)) index.
Definition update_pending (index : nat) : list pending_connect → list pending_connect :=
  update_connection_indices pc_index
    (λ i p, mkPendingConnect i (pc_conn_id p) (pc_timeout p) (pc_success p) (pc_failure p)) index.
Definition update_bind (index : nat) : list bind_data → list bind_data :=
  update_connection_indices bind_index
    (λ i b, mkBind (bind_addr b) (bind_curve b) i (bind_allow b)) index.
Definition update_incoming (index : nat) : list (ConnectionID * nat) → list (ConnectionID * nat) :=
  update_connection_indices snd (λ i p, (p.1, i)) index.

(** [connections[index]] out of range is undefined. *)
Definition proxy_close_connection (index : nat) (l : linger) (cs : conns) : outcome conns :=
  if negb (index <? length (connections cs))%nat then UB
  else if negb (index <? length (conn_index_to_id cs))%nat then UB
  else Ok (mkConns
    (delete index (connections cs))
    (update_peers index (peers cs))
    (delete index (conn_index_to_id cs))
    (update_incoming index (incoming_conn_index cs))
    (update_pending index (pending_connects cs))
    (update_bind index (bind cs))
    true (active_service_nodes cs) (next_socket cs)
    (closed cs ++ ((λ s, (s, l)) <$> option_list (connections cs !! index)))).

Definition set_peers (ps : list (ConnectionID * peer_info)) (cs : conns) : conns :=
  mkConns (connections cs) ps (conn_index_to_id cs) (incoming_conn_index cs) (pending_connects cs)
    (bind cs) (pollitems_stale cs) (active_service_nodes cs) (next_socket cs) (closed cs).

Definition set_active (f : gset bytes → gset bytes) (cs : conns) : conns :=
  mkConns (connections cs) (peers cs) (conn_index_to_id cs) (incoming_conn_index cs) (pending_connects cs)
    (bind cs) (pollitems_stale cs) (f (active_service_nodes cs)) (next_socket cs) (closed cs).

(** ** [proxy_disconnect]: the first outgoing peer of that identity. *)
Definition find_outgoing (c : ConnectionID) (ps : list (ConnectionID * peer_info)) : option peer_info :=
  snd <$> List.find (λ p, conn_eqb p.1 c && outgoing p.2) ps.

Definition proxy_disconnect (c : ConnectionID) (l : linger) (cs : conns) : outcome conns :=
  match find_outgoing c (peers cs) with
  | Some peer => proxy_close_connection (conn_index peer) l cs
  | None => Ok cs
  end.

(** ** [proxy_expire_idle_peers]

    [pre] are the peers the iterator has passed, [post] those from [++it] on.
    Closing renumbers both sides; if the element the iterator then points to were
    erased, dereferencing it would be undefined. *)
Fixpoint expire_idle (now : Z) (fuel : nat) (pre post : list (ConnectionID * peer_info)) (cs : conns) : outcome conns :=
  match fuel with
  | O => Diverge
  | S fuel' =>
      match post with
      | [] => Ok cs
      | p :: post' =>
          if outgoing p.2 && (idle_expiry p.2 <? now - last_activity p.2) then
            let index := conn_index p.2 in
            if existsb (λ q, (conn_index q.2 =? index)%nat) (take 1 post') then UB
            else cs' ← proxy_close_connection index close_linger cs;
                 expire_idle now fuel' (update_peers index pre) (update_peers index post') cs'
          else expire_idle now fuel' (pre ++ [p]) post' cs
      end
  end.

Definition proxy_expire_idle_peers (now : Z) (cs : conns) : outcome conns :=
  expire_idle now (S (length (peers cs))) [] (peers cs) cs.

(** ** [proxy_connect_sn]

    [sn_lookup] is the user's address lookup, [connect_ok] whether zmq's
    [connect] accepts an address.  The result is the index in [connections] of the
    socket and the routing prefix, or nothing. *)
Section connect.
Context (sn_lookup : bytes → bytes) (connect_ok : bytes → bool).

(** The first peer of that identity not excluded by the options. *)
Definition usable_peer (incoming_only outgoing_only : bool) (p : peer_info) : bool :=
  negb (incoming_only && outgoing p) && negb (outgoing_only && negb (outgoing p)).

Fixpoint touch_peer (c : ConnectionID) (incoming_only outgoing_only : bool) (keep_alive now : Z)
    (ps : list (ConnectionID * peer_info)) : option (peer_info * list (ConnectionID * peer_info)) :=
  match ps with
  | [] => None
  | (c', p) :: ps' =>
      if conn_eqb c' c && usable_peer incoming_only outgoing_only p then
        let p' := if outgoing p
          then mkPeer (peer_pubkey p) (service_node p) (auth_level p) (conn_index p) (peer_route p) now
                 (if idle_expiry p <? keep_alive then keep_alive else idle_expiry p)
          else p in
        Some (p', (c', p') :: ps')
      else '(q, ps'') ← touch_peer c incoming_only outgoing_only keep_alive now ps';
           mret (q, (c', p) :: ps'')
  end.

(** The new outgoing socket and the peer that stands for it. *)
Definition add_outgoing (c : ConnectionID) (p : peer_info) (cs : conns) : conns :=
  mkConns (connections cs ++ [mkSocket (next_socket cs) dealer]) (peers cs ++ [(c, p)])
    (conn_index_to_id cs ++ [c]) (incoming_conn_index cs) (pending_connects cs) (bind cs) true
    (active_service_nodes cs) (S (next_socket cs)) (closed cs).

Definition proxy_connect_sn (remote connect_hint : bytes)
    (optional incoming_only outgoing_only : bool) (keep_alive now : Z) (cs : conns)
    : outcome (option (nat * bytes) * conns) :=
  remote_cid ← conn_of_pubkey remote;
  match touch_peer remote_cid incoming_only outgoing_only keep_alive now (peers cs) with
  | Some (p, ps) => Ok (Some (conn_index p, peer_route p), set_peers ps cs)
  | None =>
      if optional || incoming_only then Ok (None, cs)
      else
        let addr := if bool_decide (connect_hint = []) then sn_lookup remote else connect_hint in
        if bool_decide (addr = []) then Ok (None, cs)
        else if negb (connect_ok addr) then Ok (None, cs)
        else
          let p := mkPeer remote true none (length (connections cs)) [] now keep_alive in
          let cs' := add_outgoing remote_cid p cs in
          Ok (Some (length (connections cs), []), cs')
  end.

(** [proxy_connect_remote], its arguments decoded: the failure case schedules the
    failure callback and changes no table. *)
Definition proxy_connect_remote (conn_id : Z) (remote remote_pubkey : bytes) (level : AuthLevel)
    (on_connect on_failure : callback) (timeout now : Z) (cs : conns) : outcome (bool * conns) :=
  if (conn_id =? -1) || bool_decide (remote = []) then Throw runtime_error
  else if negb (connect_ok remote) then Ok (false, cs)
  else
    let idx := length (connections cs) in
    let p := mkPeer remote_pubkey false level idx [] now (24 * 3600 * 1000 * 10 * 365) in
    let cs1 := add_outgoing (mkConn conn_id remote_pubkey []) p cs in
    Ok (true, mkConns (connections cs1) (peers cs1) (conn_index_to_id cs1) (incoming_conn_index cs1)
      (pending_connects cs1 ++ [mkPendingConnect idx conn_id (now + timeout) on_connect on_failure])
      (bind cs1) (pollitems_stale cs1) (active_service_nodes cs1) (next_socket cs1) (closed cs1)).
End connect.

(** ** Active service nodes *)

(** [equal_range(c)]: every iteration erases the element it stands on, then closes
    its connection if it is outgoing. *)
Definition erase_peer (c : ConnectionID) (ps : list (ConnectionID * peer_info)) : option (peer_info * list (ConnectionID * peer_info)) :=
  match list_find (λ p, conn_eqb p.1 c = true) ps with
  | Some (i, p) => Some (p.2, delete i ps)
  | None => None
  end.

Fixpoint drop_peers (fuel : nat) (c : ConnectionID) (cs : conns) : outcome conns :=
  match fuel with
  | O => Diverge
  | S fuel' =>
      match erase_peer c (peers cs) with
      | None => Ok cs
      | Some (p, ps) =>
          let cs := set_peers ps cs in
          cs ← (if outgoing p then proxy_close_connection (conn_index p) close_linger cs else Ok cs);
          drop_peers fuel' c cs
      end
  end.

Definition remove_sn (pubkey : bytes) (cs : conns) : outcome conns :=
  c ← conn_of_pubkey pubkey;
  let cs := set_active (λ a, a ∖ {[pubkey]}) cs in
  drop_peers (S (length (peers cs))) c cs.

Fixpoint remove_sns (pubkeys : list bytes) (cs : conns) : outcome conns :=
  match pubkeys with
  | [] => Ok cs
  | p :: rest => cs ← remove_sn p cs; remove_sns rest cs
  end.

Definition proxy_update_active_sns_clean (added removed : gset bytes) (cs : conns) : outcome conns :=
  cs ← remove_sns (elements removed) cs;
  Ok (set_active (λ a, a ∪ added) cs).

Definition key_size (p : bytes) : Prop := length p = 32%nat.

(** The filters are applied to [removed] first, with [added] as given. *)
Definition proxy_update_active_sns (added removed : gset bytes) (cs : conns) : outcome conns :=
  let removed := filter (λ p, key_size p ∧ p ∈ active_service_nodes cs ∧ p ∉ added) removed in
  let added := filter (λ p, key_size p ∧ p ∉ active_service_nodes cs) added in
  proxy_update_active_sns_clean added removed cs.

(** The loop that collects the removed keys stops as soon as the sizes agree. *)
Fixpoint collect_removed (pubkeys : gset bytes) (n_active n_added : nat) (active : list bytes) (removed : gset bytes) : gset bytes :=
  match active with
  | [] => removed
  | p :: rest =>
      let removed := if decide (p ∈ pubkeys) then removed else {[p]} ∪ removed in
      if (n_active + n_added - size removed =? size pubkeys)%nat then removed
      else collect_removed pubkeys n_active n_added rest removed
  end.

Definition proxy_set_active_sns (pubkeys : gset bytes) (cs : conns) : outcome conns :=
  let pubkeys := filter key_size pubkeys in
  let active := active_service_nodes cs in
  let added := filter (λ p, p ∉ active) pubkeys in
  if bool_decide (added = ∅) && (size active =? size pubkeys)%nat then Ok cs
  else
    let removed := collect_removed pubkeys (size active) (size added) (elements active) ∅ in
    proxy_update_active_sns_clean added removed cs.

(** ** Listening *)

(** [listen_curve] and [listen_plain], before [start()]; the index is set when the
    proxy binds. *)
Definition listen (is_started curve_ : bool) (bind_addr_ : bytes) (allow : callback) (binds : list bind_data)
    : outcome (list bind_data) :=
  if is_started then Throw logic_error else Ok (binds ++ [mkBind bind_addr_ curve_ 0 allow]).

(** [incoming_conn_index[c] = i] *)
Definition assign_incoming (c : ConnectionID) (i : nat) (l : list (ConnectionID * nat)) : list (ConnectionID * nat) :=
  match list_find (λ p, conn_eqb p.1 c = true) l with
  | Some (j, (c', _)) => <[j := (c', i)]> l
  | None => l ++ [(c, i)]
  end.

(** The loop of [proxy_loop] over [bind]; [bind_ok] is whether zmq's [bind] accepts
    an address.  The elements already bound are in [bind cs]. *)
Fixpoint bind_sockets (bind_ok : bytes → bool) (next_conn_id : Z) (todo : list bind_data) (cs : conns) : outcome (Z * conns) :=
  match todo with
  | [] => Ok (next_conn_id, cs)
  | b :: todo' =>
      if negb (bind_ok (bind_addr b)) then Throw zmq_error_t
      else
        let index := length (connections cs) in
        let conn_id := conn_of_id next_conn_id in
        bind_sockets bind_ok (next_conn_id + 1) todo'
          (mkConns (connections cs ++ [mkSocket (next_socket cs) router]) (peers cs) (conn_index_to_id cs ++ [conn_id])
             (assign_incoming conn_id index (incoming_conn_index cs)) (pending_connects cs)
             (bind cs ++ [mkBind (bind_addr b) (bind_curve b) index (bind_allow b)])
             (pollitems_stale cs) (active_service_nodes cs) (S (next_socket cs)) (closed cs))
  end.

(** The tables of an instance that has not started; service nodes may already be set. *)
Definition fresh_conns (active : gset bytes) : conns := mkConns [] [] [] [] [] [] true active 0 [].

Definition proxy_bind (bind_ok : bytes → bool) (binds : list bind_data) (active : gset bytes) : outcome conns :=
  '(_, cs) ← bind_sockets bind_ok 1 binds (fresh_conns active);
  Ok (mkConns (connections cs) (peers cs) (conn_index_to_id cs) (incoming_conn_index cs) (pending_connects cs) (bind cs)
        true (active_service_nodes cs) (next_socket cs) (closed cs)).

(** [rebuild_pollitems]: three internal sockets, then every connection. *)
Inductive poll_source : Type := poll_command | poll_workers | poll_zap | poll_conn (s : zmq_socket).
Definition rebuild_pollitems (cs : conns) : list poll_source * conns :=
  ([poll_command; poll_workers; poll_zap] ++ (poll_conn <$> connections cs),
   mkConns (connections cs) (peers cs) (conn_index_to_id cs) (incoming_conn_index cs) (pending_connects cs) (bind cs)
     false (active_service_nodes cs) (next_socket cs) (closed cs)).

(** ** Erasing an index *)
Lemma reindex_inj index i j k : reindex index i = Some k → reindex index j = Some k → i = j.
Proof. unfold reindex. repeat case_match; intros; simplify_eq; lia. Qed.

Lemma reindex_Some index i : i ≠ index → ∃ j, reindex index i = Some j.
Proof. intros. unfold reindex. destruct (index =? i)%nat eqn:E; [lia|eauto]. Qed.

(** What was at [i] is found at the new index of [i]. *)
Lemma reindex_lookup {A} (l : list A) index i j :
  (index < length l)%nat → reindex index i = Some j → delete index l !! j = l !! i.
Proof.
  intros Hl. unfold reindex. destruct (index =? i)%nat eqn:E; [done|]. intros [= <-].
  destruct (index <? i)%nat eqn:E2.
  - rewrite list_lookup_delete_ge by lia. f_equal. lia.
  - by rewrite list_lookup_delete_lt by lia.
Qed.

Lemma elem_of_update {A} (get : A → nat) set index l y :
  y ∈ update_connection_indices get set index l ↔
  ∃ x j, x ∈ l ∧ reindex index (get x) = Some j ∧ y = set j x.
Proof.
  unfold update_connection_indices. rewrite list_elem_of_omap. split.
  - intros (x & Hx & E). destruct (reindex index (get x)) as [j|] eqn:Ej; [|done].
    injection E as <-. eauto.
  - intros (x & j & Hx & Ej & ->). exists x. rewrite Ej. done.
Qed.

(** Every reference in [l] is to a socket of type [t]. *)
Definition refs {A} (cs : list zmq_socket) (get : A → nat) (t : socket_type) (l : list A) : Prop :=
  ∀ x, x ∈ l → ∃ s, cs !! get x = Some s ∧ sock_type s = t.

Lemma refs_update {A} cs (get : A → nat) set t l index :
  (∀ i x, get (set i x) = i) → (index < length cs)%nat →
  refs cs get t l → refs (delete index cs) get t (update_connection_indices get set index l).
Proof.
  intros Hg Hi H y (x & j & Hx & Hj & ->)%elem_of_update. destruct (H x Hx) as (s & Hs & Ht).
  exists s. rewrite Hg, (reindex_lookup _ _ _ _ Hi Hj). done.
Qed.

(** ** Invariant *)
Definition outgoing_indices (ps : list (ConnectionID * peer_info)) : list nat :=
  omap (λ p, if outgoing p.2 then Some (conn_index p.2) else None) ps.

Record conns_ok (cs : conns) : Prop := {
  ok_ids : length (conn_index_to_id cs) = length (connections cs);
  ok_outgoing c p : (c, p) ∈ peers cs → outgoing p = true →
    ∃ s c', connections cs !! conn_index p = Some s ∧ sock_type s = dealer ∧
            conn_index_to_id cs !! conn_index p = Some c' ∧ conn_eqb c c' = true;
  ok_unique : NoDup (outgoing_indices (peers cs));
  ok_incoming c p : (c, p) ∈ peers cs → outgoing p = false →
    ∃ s, connections cs !! conn_index p = Some s ∧ sock_type s = router;
  ok_pending : refs (connections cs) pc_index dealer (pending_connects cs);
  ok_listening : refs (connections cs) snd router (incoming_conn_index cs);
  ok_bind : refs (connections cs) bind_index router (bind cs);
  ok_active : ∀ p, p ∈ active_service_nodes cs → key_size p
}.

Lemma ok_peer_index cs c p : conns_ok cs → (c, p) ∈ peers cs → (conn_index p < length (connections cs))%nat.
Proof.
  intros Hok Hp. destruct (outgoing p) eqn:E.
  - destruct (ok_outgoing cs Hok c p Hp E) as (s & _ & Hs & _). by eapply lookup_lt_Some.
  - destruct (ok_incoming cs Hok c p Hp E) as (s & Hs & _). by eapply lookup_lt_Some.
Qed.

Lemma outgoing_indices_update index ps :
  outgoing_indices (update_peers index ps) = omap (reindex index) (outgoing_indices ps).
Proof.
  unfold outgoing_indices, update_peers, update_connection_indices.
  induction ps as [|[c p] ps IH]; [done|]. cbn [omap list_omap fst snd].
  destruct (reindex index (conn_index p)) as [j|] eqn:Ej; cbn.
  - unfold outgoing in *. cbn. destruct (bool_decide (peer_route p = [])); cbn; rewrite ?Ej; [by f_equal|done].
  - unfold outgoing in *. destruct (bool_decide (peer_route p = [])); cbn; rewrite ?Ej; done.
Qed.

Lemma NoDup_omap_reindex index l : NoDup l → NoDup (omap (reindex index) l).
Proof.
  induction 1 as [|x l Hx Hl IH]; [constructor|]. cbn.
  destruct (reindex index x) as [j|] eqn:E; [|done]. constructor; [|done].
  intros (y & Hy & Ey)%list_elem_of_omap. by rewrite (reindex_inj _ _ _ _ E Ey) in Hx.
Qed.

Lemma close_connection_ok index l cs :
  conns_ok cs → (index < length (connections cs))%nat →
  ∃ cs', proxy_close_connection index l cs = Ok cs' ∧ conns_ok cs' ∧
    connections cs' = delete index (connections cs) ∧ peers cs' = update_peers index (peers cs) ∧
    active_service_nodes cs' = active_service_nodes cs.
Proof.
  intros Hok Hi. unfold proxy_close_connection. rewrite (ok_ids cs Hok).
  replace (index <? length (connections cs))%nat with true by lia. cbn [negb].
  eexists. split; [done|]. split_and!; [|done..].
  assert (∀ c q, (c, q) ∈ update_peers index (peers cs) →
    ∃ p j, (c, p) ∈ peers cs ∧ reindex index (conn_index p) = Some j ∧ q = set_conn_index j p) as Hup.
  { intros c q ([c' p] & j & Hp & Hj & [= -> ->])%elem_of_update. eauto. }
  split; cbn.
  - pose proof (ok_ids cs Hok) as Hl.
    rewrite !length_delete by (apply lookup_lt_is_Some_2; lia). lia.
  - intros c q (p & j & Hp & Hj & ->)%Hup Ho. cbn.
    destruct (ok_outgoing cs Hok c p Hp Ho) as (s & c' & H1 & H2 & H3 & H4). exists s, c'.
    rewrite (reindex_lookup (connections cs) _ _ _ Hi Hj), (reindex_lookup (conn_index_to_id cs) _ _ _
      ltac:(rewrite (ok_ids cs Hok); exact Hi) Hj). done.
  - rewrite outgoing_indices_update. apply NoDup_omap_reindex, (ok_unique cs Hok).
  - intros c q (p & j & Hp & Hj & ->)%Hup Ho. cbn.
    destruct (ok_incoming cs Hok c p Hp Ho) as (s & H1 & H2). exists s.
    by rewrite (reindex_lookup _ _ _ _ Hi Hj).
  - apply refs_update; [done|done|apply (ok_pending cs Hok)].
  - apply refs_update; [done|done|apply (ok_listening cs Hok)].
  - apply refs_update; [done|done|apply (ok_bind cs Hok)].
  - apply (ok_active cs Hok).
Qed.

(** ** The peers and their sockets, without the numbering *)
Definition peer_view (cs : conns) : list (ConnectionID * peer_info * option zmq_socket) :=
  (λ p, (p.1, set_conn_index 0 p.2, connections cs !! conn_index p.2)) <$> peers cs.

(** Closing a connection no peer uses changes no peer's socket. *)
Lemma update_peers_view index (cs : list zmq_socket) (ps : list (ConnectionID * peer_info)) :
  (index < length cs)%nat → Forall (λ p, conn_index p.2 ≠ index) ps →
  (λ p, (p.1, set_conn_index 0 p.2, delete index cs !! conn_index p.2)) <$> update_peers index ps
  = (λ p, (p.1, set_conn_index 0 p.2, cs !! conn_index p.2)) <$> ps.
Proof.
  intros Hi H. induction H as [|[c p] ps Hp H IH]; [done|].
  unfold update_peers, update_connection_indices in *. cbn [omap list_omap fst snd] in *.
  destruct (reindex_Some index (conn_index p) Hp) as [j Hj]. rewrite Hj. cbn.
  rewrite (reindex_lookup _ _ _ _ Hi Hj). by f_equal.
Qed.

Lemma length_omap_le {A C} (f : A → option C) l : (length (omap f l) <= length l)%nat.
Proof. induction l as [|x l IH]; cbn; [lia|]. destruct (f x); cbn; lia. Qed.

(** ** Removing a service node's peers *)
Lemma erase_peer_Some c ps p ps' :
  erase_peer c ps = Some (p, ps') →
  ∃ l1 l2 c', ps = l1 ++ (c', p) :: l2 ∧ ps' = l1 ++ l2 ∧ conn_eqb c' c = true ∧
    Forall (λ q, conn_eqb q.1 c = false) l1.
Proof.
  unfold erase_peer. destruct (list_find _ ps) as [[i [c' q]]|] eqn:E; [|done]. intros [= <- <-].
  apply list_find_Some in E as (Hi & Hc & Hmin). exists (take i ps), (drop (S i) ps), c'. split_and!.
  - rewrite <-(take_drop i ps) at 1. f_equal. by apply drop_S.
  - apply delete_take_drop.
  - done.
  - apply Forall_forall. intros x Hx. apply list_elem_of_lookup in Hx as [j Hj].
    apply lookup_take_Some in Hj as [Hj Hlt]. by apply not_true_is_false, (Hmin j x Hj Hlt).
Qed.

Lemma erase_peer_None c ps : erase_peer c ps = None → Forall (λ q, conn_eqb q.1 c = false) ps.
Proof.
  unfold erase_peer. destruct (list_find _ ps) as [[i q]|] eqn:E; [done|]. intros _.
  apply list_find_None in E. eapply Forall_impl; [exact E|]. intros q. apply not_true_is_false.
Qed.

Lemma outgoing_indices_app l1 l2 :
  outgoing_indices (l1 ++ l2) = outgoing_indices l1 ++ outgoing_indices l2.
Proof. apply omap_app. Qed.

Lemma elem_of_outgoing_indices c p ps :
  (c, p) ∈ ps → outgoing p = true → conn_index p ∈ outgoing_indices ps.
Proof. intros Hp Ho. apply list_elem_of_omap. exists (c, p). split; [done|]. cbn [snd]. by rewrite Ho. Qed.

Lemma conns_ok_erase cs l1 x l2 :
  conns_ok cs → peers cs = l1 ++ x :: l2 → conns_ok (set_peers (l1 ++ l2) cs).
Proof.
  intros Hok Hp. assert (∀ y, y ∈ l1 ++ l2 → y ∈ peers cs) as Hsub by (rewrite Hp; set_solver).
  destruct Hok as [H1 H2 H3 H4 H5 H6 H7 H8]. split; cbn; eauto.
  rewrite Hp, outgoing_indices_app in H3. rewrite outgoing_indices_app.
  unfold outgoing_indices at 2 in H3. cbn [omap list_omap] in H3.
  destruct (outgoing x.2); [|done].
  apply NoDup_app in H3 as (Ha & Hb & Hc). apply NoDup_cons in Hc as [_ Hc].
  apply NoDup_app. split_and!; [done| |done]. intros i Hi Hi'. apply (Hb i Hi). by right.
Qed.

(** No other peer uses the connection of an outgoing peer. *)
Lemma outgoing_unused cs l1 c p l2 :
  conns_ok cs → peers cs = l1 ++ (c, p) :: l2 → outgoing p = true →
  Forall (λ q, conn_index q.2 ≠ conn_index p) (l1 ++ l2).
Proof.
  intros Hok Hp Ho. apply Forall_forall. intros [c' q] Hq Heq. cbn in Heq.
  assert ((c', q) ∈ peers cs) as Hq' by (rewrite Hp; set_solver).
  assert ((c, p) ∈ peers cs) as Hp' by (rewrite Hp; set_solver).
  destruct (outgoing q) eqn:Eq.
  - pose proof (ok_unique cs Hok) as Hn. rewrite Hp, outgoing_indices_app in Hn.
    unfold outgoing_indices at 2 in Hn. cbn [omap list_omap snd] in Hn. rewrite Ho in Hn.
    apply NoDup_app in Hn as (_ & Hd & Hn). apply NoDup_cons in Hn as [Hn _].
    apply elem_of_app in Hq as [Hq|Hq]; apply elem_of_outgoing_indices in Hq; [|done| |done].
    + apply (Hd _ Hq). rewrite Heq. by left.
    + rewrite Heq in Hq. by apply Hn.
  - destruct (ok_outgoing cs Hok c p Hp' Ho) as (s & _ & Hs & Ht & _).
    destruct (ok_incoming cs Hok c' q Hq' Eq) as (s' & Hs' & Ht'). rewrite Heq in Hs'. congruence.
Qed.

(** A view without the entries of [c]. *)
Definition not_conn (c : ConnectionID) (x : ConnectionID * peer_info * option zmq_socket) : Prop :=
  conn_eqb x.1.1 c = false.

#[export] Instance not_conn_dec c x : Decision (not_conn c x).
Proof. unfold not_conn. apply _. Defined.

Lemma filter_not_conn_all c v : Forall (not_conn c) v → filter (not_conn c) v = v.
Proof.
  intros H. induction H as [|x v Hx H IH]; [done|]. rewrite filter_cons_True by done. by rewrite IH.
Qed.

Lemma peer_view_erase cs l1 x l2 c :
  peers cs = l1 ++ x :: l2 → conn_eqb x.1 c = true →
  filter (not_conn c) (peer_view (set_peers (l1 ++ l2) cs)) = filter (not_conn c) (peer_view cs).
Proof.
  intros Hp Hc. unfold peer_view. cbn. rewrite Hp, !fmap_app, fmap_cons, !filter_app.
  rewrite filter_cons_False; [done|]. unfold not_conn. cbn. by rewrite Hc.
Qed.

Lemma drop_peers_ok c fuel cs :
  conns_ok cs → (length (peers cs) < fuel)%nat →
  ∃ cs', drop_peers fuel c cs = Ok cs' ∧ conns_ok cs' ∧
    active_service_nodes cs' = active_service_nodes cs ∧
    peer_view cs' = filter (not_conn c) (peer_view cs).
Proof.
  revert cs. induction fuel as [|fuel IH]; intros cs Hok Hf; [lia|]. cbn [drop_peers].
  destruct (erase_peer c (peers cs)) as [[p ps]|] eqn:E.
  - apply erase_peer_Some in E as (l1 & l2 & c' & Hp & -> & Hc & _).
    pose proof (conns_ok_erase _ _ _ _ Hok Hp) as Hok'. cbv zeta.
    assert (length (l1 ++ l2) < length (peers cs))%nat as Hlen
      by (rewrite Hp, !length_app; simpl; lia).
    destruct (outgoing p) eqn:Eo.
    + assert ((c', p) ∈ peers cs) as Hin by (rewrite Hp; set_solver).
      destruct (close_connection_ok (conn_index p) close_linger (set_peers (l1 ++ l2) cs) Hok'
        (ok_peer_index cs c' p Hok Hin)) as (cs1 & -> & Hok1 & Hc1 & Hp1 & Ha1).
      cbn [mbind outcome_bind]. destruct (IH cs1 Hok1) as (cs' & E' & Hok2 & Ha2 & Hv2).
      { rewrite Hp1. cbn [peers set_peers]. unfold update_peers, update_connection_indices.
        pose proof (length_omap_le (λ x : ConnectionID * peer_info,
          (λ i, (x.1, set_conn_index i x.2)) <$> reindex (conn_index p) (conn_index x.2)) (l1 ++ l2)) as Hle.
        lia. }
      exists cs'. split_and!; [done|done|by rewrite Ha2, Ha1|].
      rewrite Hv2, <-(peer_view_erase cs l1 (c', p) l2 c Hp Hc). f_equal.
      unfold peer_view. rewrite Hc1, Hp1. cbn [peers set_peers connections].
      apply update_peers_view; [by apply (ok_peer_index cs c' p)|by apply (outgoing_unused cs l1 c' p l2)].
    + cbn [mbind outcome_bind]. destruct (IH _ Hok') as (cs' & E' & Hok2 & Ha2 & Hv2); [cbn; lia|].
      exists cs'. split_and!; [done|done|done|].
      by rewrite Hv2, (peer_view_erase cs l1 (c', p) l2 c Hp Hc).
  - exists cs. split_and!; [done|done|done|]. symmetry. apply filter_not_conn_all.
    unfold peer_view. apply Forall_fmap. eapply Forall_impl; [by apply erase_peer_None|]. by intros x.
Qed.

(** ** Removing and adding service nodes *)

(** A peer entry of a service node whose key is in [removed]. *)
Definition sn_of (removed : gset bytes) (x : ConnectionID * peer_info * option zmq_socket) : Prop :=
  sn x.1.1 = true ∧ pk x.1.1 ∈ removed.

#[export] Instance sn_of_dec removed x : Decision (sn_of removed x).
Proof. unfold sn_of. apply _. Defined.

Lemma not_conn_sn p x : not_conn (mkConn SN_ID p []) x ↔ ¬ sn_of {[p]} x.
Proof.
  unfold not_conn, sn_of, conn_eqb. cbn. destruct (sn x.1.1) eqn:E; cbn.
  - rewrite elem_of_singleton. unfold bytes_eqb. rewrite bool_decide_eq_false. naive_solver.
  - unfold sn in E. rewrite E. naive_solver.
Qed.

Lemma conn_of_pubkey_ok p : key_size p → conn_of_pubkey p = Ok (mkConn SN_ID p []).
Proof. unfold key_size, conn_of_pubkey. by intros ->. Qed.

Lemma remove_sns_ok l cs :
  conns_ok cs → Forall key_size l →
  ∃ cs', remove_sns l cs = Ok cs' ∧ conns_ok cs' ∧
    active_service_nodes cs' = active_service_nodes cs ∖ list_to_set l ∧
    peer_view cs' = filter (λ x, ¬ sn_of (list_to_set l) x) (peer_view cs).
Proof.
  intros Hok Hl. revert cs Hok. induction Hl as [|p l Hp Hl IH]; intros cs Hok; cbn [remove_sns].
  - exists cs. split_and!; [done|done|set_solver|]. symmetry.
    rewrite (list_filter_iff _ (λ _, True)); [|unfold sn_of; set_solver].
    clear. induction (peer_view cs) as [|x v IHv]; [done|]. rewrite filter_cons_True by done. by rewrite IHv.
  - unfold remove_sn. rewrite (conn_of_pubkey_ok p Hp). cbn [mbind outcome_bind]. cbv zeta.
    assert (conns_ok (set_active (λ a, a ∖ {[p]}) cs)) as Hok1.
    { destruct Hok as [H1 H2 H3 H4 H5 H6 H7 H8]. split; cbn; eauto. intros q Hq. apply H8. set_solver. }
    destruct (drop_peers_ok (mkConn SN_ID p []) _ _ Hok1 (Nat.lt_succ_diag_r _)) as (cs1 & -> & Hok2 & Ha & Hv).
    cbn. destruct (IH cs1 Hok2) as (cs' & -> & Hok3 & Ha' & Hv'). exists cs'.
    split_and!; [done|done|rewrite Ha', Ha; cbn; set_solver|].
    rewrite Hv', Hv, list_filter_filter. apply list_filter_iff. intros x.
    rewrite not_conn_sn. unfold sn_of. set_solver.
Qed.

Lemma update_active_clean_ok added removed cs :
  conns_ok cs → (∀ p, p ∈ added → key_size p) → (∀ p, p ∈ removed → key_size p) →
  ∃ cs', proxy_update_active_sns_clean added removed cs = Ok cs' ∧ conns_ok cs' ∧
    active_service_nodes cs' = active_service_nodes cs ∖ removed ∪ added ∧
    peer_view cs' = filter (λ x, ¬ sn_of removed x) (peer_view cs).
Proof.
  intros Hok Ha Hr. unfold proxy_update_active_sns_clean.
  destruct (remove_sns_ok (elements removed) cs Hok) as (cs1 & -> & Hok1 & Ha1 & Hv1).
  { apply Forall_forall. intros p Hp. apply Hr. set_solver. }
  cbn. eexists. split; [done|]. rewrite list_to_set_elements_L in *. split_and!.
  - destruct Hok1 as [H1 H2 H3 H4 H5 H6 H7 H8]. split; cbn; eauto. set_solver.
  - cbn. by rewrite Ha1.
  - exact Hv1.
Qed.

(** The early exit is taken only when nothing is left to collect. *)
Lemma collect_removed_spec (P A : gset bytes) l R :
  R ⊆ A ∖ P → A ∖ P ⊆ R ∪ list_to_set l → list_to_set l ⊆ A →
  collect_removed P (size A) (size (P ∖ A)) l R = A ∖ P.
Proof.
  revert R. induction l as [|p l IH]; intros R HR Hsub Hl; cbn [collect_removed].
  - apply set_eq. set_solver.
  - set (R' := if decide (p ∈ P) then R else {[p]} ∪ R).
    assert (R' ⊆ A ∖ P ∧ A ∖ P ⊆ R' ∪ list_to_set l) as [HR' Hsub'].
    { unfold R'. destruct (decide (p ∈ P)); set_solver. }
    cbv zeta. destruct (_ =? _)%nat eqn:E; [|apply IH; [done|done|set_solver]].
    apply Nat.eqb_eq in E.
    pose proof (size_union_alt P A). pose proof (size_union_alt A P).
    pose proof (subseteq_size R' (A ∖ P) HR') as Hle.
    assert (P ∪ A = A ∪ P) as Eu by set_solver.
    apply set_subseteq_size_eq; [done|]. rewrite Eu in *. lia.
Qed.

Lemma update_active_sns_ok added removed cs :
  conns_ok cs →
  ∃ cs', proxy_update_active_sns added removed cs = Ok cs' ∧ conns_ok cs' ∧
    active_service_nodes cs' = active_service_nodes cs ∖ (removed ∖ added) ∪ filter key_size added ∧
    peer_view cs' = filter (λ x, ¬ sn_of (active_service_nodes cs ∩ (removed ∖ added)) x) (peer_view cs).
Proof.
  intros Hok. unfold proxy_update_active_sns. cbv zeta.
  pose proof (ok_active cs Hok) as Hks. set (act := active_service_nodes cs) in *.
  destruct (update_active_clean_ok (filter (λ p, key_size p ∧ p ∉ act) added)
    (filter (λ p, key_size p ∧ p ∈ act ∧ p ∉ added) removed) cs Hok) as (cs' & -> & Hok' & Ha & Hv);
    [set_solver..|].
  exists cs'. split_and!; [done|done| |].
  - rewrite Ha. fold act. apply set_eq. intros p.
    rewrite !elem_of_union, !elem_of_difference, !elem_of_filter.
    specialize (Hks p). destruct (decide (p ∈ act)), (decide (p ∈ added)), (decide (p ∈ removed)); naive_solver.
  - rewrite Hv. apply list_filter_iff. intros x. unfold sn_of.
    rewrite elem_of_filter, elem_of_intersection, elem_of_difference. specialize (Hks (pk x.1.1)). naive_solver.
Qed.

Lemma set_active_sns_ok pubkeys cs :
  conns_ok cs →
  ∃ cs', proxy_set_active_sns pubkeys cs = Ok cs' ∧ conns_ok cs' ∧
    active_service_nodes cs' = filter key_size pubkeys ∧
    peer_view cs' = filter (λ x, ¬ sn_of (active_service_nodes cs ∖ filter key_size pubkeys) x) (peer_view cs).
Proof.
  intros Hok. unfold proxy_set_active_sns. cbv zeta.
  pose proof (ok_active cs Hok) as Hks. set (act := active_service_nodes cs) in *.
  set (P := filter key_size pubkeys).
  assert (filter (λ p, p ∉ act) P = P ∖ act) as -> by (apply set_eq; set_solver).
  destruct (bool_decide (P ∖ act = ∅) && (size act =? size P)%nat) eqn:E.
  - apply andb_true_iff in E as [E1 E2]. apply bool_decide_eq_true in E1. apply Nat.eqb_eq in E2.
    assert (P = act) as EP by (apply set_subseteq_size_eq; [set_solver|lia]).
    exists cs. split_and!; [done|done|done|]. rewrite EP.
    symmetry. rewrite (list_filter_iff _ (λ _, True)); [|unfold sn_of; set_solver].
    clear. induction (peer_view cs) as [|x v IHv]; [done|]. rewrite filter_cons_True by done. by rewrite IHv.
  - rewrite collect_removed_spec by set_solver.
    destruct (update_active_clean_ok (P ∖ act) (act ∖ P) cs Hok) as (cs' & -> & Hok' & Ha & Hv); [set_solver..|].
    exists cs'. split_and!; [done|done| |done].
    rewrite Ha. fold act. apply set_eq. intros p. rewrite elem_of_union, !elem_of_difference.
    destruct (decide (p ∈ P)), (decide (p ∈ act)); naive_solver.
Qed.

(** ** Expiry *)
Definition view_of (socks : list zmq_socket) (ps : list (ConnectionID * peer_info)) :=
  (λ p, (p.1, set_conn_index 0 p.2, socks !! conn_index p.2)) <$> ps.

(** Idle for longer than its limit, which only ends outgoing connections. *)
Definition expired (now : Z) (x : ConnectionID * peer_info * option zmq_socket) : Prop :=
  outgoing x.1.2 = true ∧ idle_expiry x.1.2 < now - last_activity x.1.2.

#[export] Instance expired_dec now x : Decision (expired now x).
Proof. unfold expired. apply _. Defined.

Lemma reindex_self index : reindex index index = None.
Proof. unfold reindex. by rewrite Nat.eqb_refl. Qed.

Lemma expire_idle_ok now fuel pre post cs :
  conns_ok cs → peers cs = pre ++ post → (length post < fuel)%nat →
  ∃ cs', expire_idle now fuel pre post cs = Ok cs' ∧ conns_ok cs' ∧
    active_service_nodes cs' = active_service_nodes cs ∧
    peer_view cs' = view_of (connections cs) pre ++ filter (λ x, ¬ expired now x) (view_of (connections cs) post).
Proof.
  revert pre post cs. induction fuel as [|fuel IH]; intros pre post cs Hok Hp Hf; [lia|].
  cbn [expire_idle]. destruct post as [|[c p] post].
  { exists cs. split_and!; [done..|]. unfold peer_view, view_of. by rewrite Hp, !app_nil_r. }
  cbn [snd]. set (x := (c, set_conn_index 0 p, connections cs !! conn_index p)).
  assert (view_of (connections cs) ((c, p) :: post) = x :: view_of (connections cs) post) as Ev by done.
  destruct (outgoing p && _) eqn:E.
  - apply andb_true_iff in E as [Eo Ei]. cbv zeta.
    assert ((c, p) ∈ peers cs) as Hin by (rewrite Hp; set_solver).
    pose proof (outgoing_unused cs pre c p post Hok Hp Eo) as Hun. apply Forall_app in Hun as [Hun1 Hun2].
    assert (existsb (λ q, (conn_index q.2 =? conn_index p)%nat) (take 1 post) = false) as ->.
    { destruct post as [|q post']; [done|]. cbn. apply Forall_cons in Hun2 as [Hq _].
      rewrite orb_false_r. lia. }
    pose proof (ok_peer_index cs c p Hok Hin) as Hi.
    destruct (close_connection_ok (conn_index p) close_linger cs Hok Hi) as (cs1 & -> & Hok1 & Hc1 & Hp1 & Ha1).
    cbn [mbind outcome_bind].
    assert (peers cs1 = update_peers (conn_index p) pre ++ update_peers (conn_index p) post) as Hp1'.
    { rewrite Hp1, Hp. unfold update_peers, update_connection_indices. rewrite omap_app.
      cbn [omap list_omap snd]. by rewrite reindex_self. }
    destruct (IH _ _ _ Hok1 Hp1') as (cs' & -> & Hok' & Ha' & Hv').
    { cbn in Hf. eapply Nat.le_lt_trans; [apply length_omap_le|lia]. }
    exists cs'. split_and!; [done|done|by rewrite Ha', Ha1|].
    rewrite Hv', Hc1, Ev. unfold view_of. rewrite !update_peers_view by done.
    rewrite filter_cons_False; [done|]. unfold expired, x. cbn [fst snd].
    intros Hn. apply Hn. split; [exact Eo|]. cbn. lia.
  - destruct (IH (pre ++ [(c, p)]) post cs Hok) as (cs' & -> & Hok' & Ha' & Hv').
    { by rewrite <-app_assoc. }
    { cbn in Hf. lia. }
    exists cs'. split_and!; [done..|]. rewrite Hv', Ev. unfold view_of at 1. rewrite fmap_app, <-app_assoc.
    f_equal. rewrite filter_cons_True; [done|]. unfold expired, x. cbn [fst snd].
    intros [H1 H2]. change (outgoing (set_conn_index 0 p)) with (outgoing p) in H1. cbn in H2.
    rewrite H1 in E. cbn in E. lia.
Qed.

(** ** Opening *)
Lemma touch_peer_split c io oo ka now ps p' ps' :
  touch_peer c io oo ka now ps = Some (p', ps') →
  ∃ l1 l2 c' p, ps = l1 ++ (c', p) :: l2 ∧ ps' = l1 ++ (c', p') :: l2 ∧ conn_eqb c' c = true ∧
    usable_peer io oo p' = true ∧ conn_index p' = conn_index p ∧ peer_route p' = peer_route p ∧
    Forall (λ q, conn_eqb q.1 c && usable_peer io oo q.2 = false) l1.
Proof.
  revert p' ps'. induction ps as [|[c1 p1] ps IH]; intros p' ps'; cbn [touch_peer]; [done|].
  destruct (conn_eqb c1 c && usable_peer io oo p1) eqn:E.
  - apply andb_true_iff in E as [E1 E2]. cbv zeta. intros [= <- <-].
    exists [], ps, c1, p1. destruct (outgoing p1); split_and!; done.
  - destruct (touch_peer c io oo ka now ps) as [[q qs]|] eqn:Et; [|done]. cbn. intros [= <- <-].
    destruct (IH _ _ eq_refl) as (l1 & l2 & c' & p & -> & -> & H1 & H2 & H3 & H4 & H5).
    exists ((c1, p1) :: l1), l2, c', p. split_and!; try done. by apply Forall_cons_2.
Qed.

Lemma outgoing_route p q : peer_route p = peer_route q → outgoing p = outgoing q.
Proof. unfold outgoing. by intros ->. Qed.

Lemma conns_ok_replace cs l1 c p p' l2 :
  conns_ok cs → peers cs = l1 ++ (c, p) :: l2 → conn_index p' = conn_index p →
  peer_route p' = peer_route p → conns_ok (set_peers (l1 ++ (c, p') :: l2) cs).
Proof.
  intros Hok Hp Hi Hr. destruct Hok as [H1 H2 H3 H4 H5 H6 H7 H8].
  assert (∀ c0 q, (c0, q) ∈ l1 ++ (c, p') :: l2 →
    ∃ q0, (c0, q0) ∈ peers cs ∧ conn_index q = conn_index q0 ∧ outgoing q = outgoing q0) as Hsub.
  { intros c0 q. rewrite Hp, elem_of_app, elem_of_cons.
    intros [Hq|[[= -> ->]|Hq]]; [exists q; set_solver| |exists q; set_solver].
    exists p. split_and!; [set_solver|done|by apply outgoing_route]. }
  split; cbn; [done| | | |done..].
  - intros c0 q (q0 & Hq & Ei & Eo)%Hsub Ho. rewrite Ei. apply H2; [done|congruence].
  - rewrite Hp, outgoing_indices_app in H3. rewrite outgoing_indices_app.
    unfold outgoing_indices at 2 in H3. unfold outgoing_indices at 2. cbn [omap list_omap snd] in *.
    by rewrite (outgoing_route p' p Hr), Hi.
  - intros c0 q (q0 & Hq & Ei & Eo)%Hsub Ho. rewrite Ei. apply (H4 c0); [done|congruence].
Qed.

Lemma conn_eqb_refl c : conn_eqb c c = true.
Proof. unfold conn_eqb. rewrite Z.eqb_refl, !bytes_eqb_refl. by destruct (sn c && sn c). Qed.

Lemma refs_app {A} cs s (get : A → nat) t l : refs cs get t l → refs (cs ++ [s]) get t l.
Proof. intros H x Hx. destruct (H x Hx) as (s' & Hs & Ht). exists s'. split; [|done]. by apply lookup_app_l_Some. Qed.

Lemma conns_ok_add c p cs :
  conns_ok cs → conn_index p = length (connections cs) → peer_route p = [] →
  conns_ok (add_outgoing c p cs).
Proof.
  intros Hok Hi Hr. pose proof (λ c' p', ok_peer_index cs c' p' Hok) as Hlt.
  assert (outgoing p = true) as Ho by (unfold outgoing; by rewrite Hr).
  destruct Hok as [H1 H2 H3 H4 H5 H6 H7 H8]. split; cbn.
  - rewrite !length_app. cbn. lia.
  - intros c' p' Hin Hout. apply elem_of_app in Hin as [Hin|Hin].
    + destruct (H2 c' p' Hin Hout) as (s & c2 & E1 & E2 & E3 & E4). exists s, c2.
      split_and!; [by apply lookup_app_l_Some|done|by apply lookup_app_l_Some|done].
    + apply list_elem_of_singleton in Hin. injection Hin as -> ->.
      exists (mkSocket (next_socket cs) dealer), c. rewrite Hi. split_and!; [|done| |apply conn_eqb_refl].
      * by rewrite lookup_app_r, Nat.sub_diag.
      * by rewrite <-H1, lookup_app_r, Nat.sub_diag.
  - rewrite outgoing_indices_app. apply NoDup_app. split_and!; [done| |].
    + intros i (q & Hq & Eq)%list_elem_of_omap Hi'. destruct q as [c' q]. cbn in Eq.
      destruct (outgoing q); [|done]. injection Eq as <-. apply Hlt in Hq.
      unfold outgoing_indices in Hi'. cbn in Hi'. rewrite Ho in Hi'. apply list_elem_of_singleton in Hi'. lia.
    + unfold outgoing_indices. cbn. rewrite Ho. by apply NoDup_singleton.
  - intros c' p' Hin Hout. apply elem_of_app in Hin as [Hin|Hin].
    + destruct (H4 c' p' Hin Hout) as (s & E1 & E2). exists s. split; [by apply lookup_app_l_Some|done].
    + apply list_elem_of_singleton in Hin. injection Hin as -> ->. congruence.
  - by apply refs_app.
  - by apply refs_app.
  - by apply refs_app.
  - done.
Qed.

(** Peers can be forgotten: the tables stay consistent. *)
Lemma outgoing_indices_sublist ps ps' : ps `sublist_of` ps' → outgoing_indices ps `sublist_of` outgoing_indices ps'.
Proof.
  induction 1 as [|p ps ps' H IH|p ps ps' H IH]; unfold outgoing_indices in *; cbn [omap list_omap]; [done| |];
    destruct (outgoing p.2); try done; by constructor.
Qed.

Lemma conns_ok_sub ps cs : conns_ok cs → ps `sublist_of` peers cs → conns_ok (set_peers ps cs).
Proof.
  intros [H1 H2 H3 H4 H5 H6 H7 H8] Hs. split; cbn; try done.
  - intros c p Hp. apply H2. by eapply elem_of_sublist.
  - eapply sublist_NoDup; [exact H3|by apply outgoing_indices_sublist].
  - intros c p Hp. apply (H4 c). by eapply elem_of_sublist.
Qed.

(** Binding establishes the invariant, listener by listener. *)
Lemma refs_snoc {A} cs s (get : A → nat) t l x :
  refs cs get t l → get x = length cs → sock_type s = t → refs (cs ++ [s]) get t (l ++ [x]).
Proof.
  intros H Hx Hs y [Hy|Hy]%elem_of_app; [by eapply refs_app|]. apply list_elem_of_singleton in Hy as ->.
  exists s. by rewrite Hx, lookup_app_r, Nat.sub_diag.
Qed.

Lemma refs_assign_incoming cs s c l :
  refs cs snd router l → sock_type s = router → refs (cs ++ [s]) snd router (assign_incoming c (length cs) l).
Proof.
  intros H Hs. unfold assign_incoming. case_match eqn:E; [|by apply refs_snoc]. destruct p as [j [c' i]].
  intros y Hy. apply list_elem_of_lookup in Hy as [k Hk]. apply list_lookup_insert_Some in Hk as [(_ & <- & _)|[_ Hk]].
  - exists s. cbn. by rewrite lookup_app_r, Nat.sub_diag.
  - eapply refs_app; [exact H|]. by eapply list_elem_of_lookup_2.
Qed.

Lemma bind_sockets_ok bind_ok n todo cs n' cs' :
  conns_ok cs → bind_sockets bind_ok n todo cs = Ok (n', cs') → conns_ok cs'.
Proof.
  revert n cs. induction todo as [|b todo IH]; intros n cs Hok; cbn [bind_sockets]; [by intros [= _ <-]|].
  destruct (negb _); [done|]. cbv zeta. apply IH. destruct Hok as [H1 H2 H3 H4 H5 H6 H7 H8]. split; cbn.
  - rewrite !length_app. cbn. lia.
  - intros c p Hp Ho. destruct (H2 c p Hp Ho) as (s & c' & E1 & E2 & E3 & E4). exists s, c'.
    split_and!; [by apply lookup_app_l_Some|done|by apply lookup_app_l_Some|done].
  - done.
  - intros c p Hp Ho. destruct (H4 c p Hp Ho) as (s & E1 & E2). exists s. split; [by apply lookup_app_l_Some|done].
  - by apply refs_app.
  - by apply refs_assign_incoming.
  - by apply refs_snoc.
  - done.
Qed.

Lemma proxy_bind_ok bind_ok binds active cs :
  (∀ p, p ∈ active → key_size p) → proxy_bind bind_ok binds active = Ok cs → conns_ok cs.
Proof.
  intros Ha. unfold proxy_bind. destruct (bind_sockets _ _ _ _) as [[n cs1]| | |] eqn:E; try done. cbn. intros [= <-].
  apply bind_sockets_ok in E; [by destruct E|]. split; cbn; try done; try set_solver; constructor.
Qed.

(** Disconnecting and connecting to a remote. *)
Lemma proxy_disconnect_ok c l cs : conns_ok cs → ∃ cs', proxy_disconnect c l cs = Ok cs' ∧ conns_ok cs'.
Proof.
  intros Hok. unfold proxy_disconnect, find_outgoing. destruct (List.find _ (peers cs)) as [[c' p]|] eqn:E; cbn; [|eauto].
  apply find_some in E as [Hin%list_elem_of_In _].
  destruct (close_connection_ok (conn_index p) l cs Hok) as (cs' & E & Hok' & _); [by eapply ok_peer_index|eauto].
Qed.

Lemma proxy_connect_remote_ok connect_ok conn_id remote pk_ level f g timeout now cs :
  conns_ok cs → conn_id ≠ -1 → remote ≠ [] →
  ∃ ok cs', proxy_connect_remote connect_ok conn_id remote pk_ level f g timeout now cs = Ok (ok, cs') ∧ conns_ok cs'.
Proof.
  intros Hok Hid Hr. unfold proxy_connect_remote. rewrite bool_decide_eq_false_2 by done.
  destruct (conn_id =? -1) eqn:E; [lia|]. cbn [orb]. destruct (negb _); [by eexists _, _|]. cbv zeta.
  eexists _, _. split; [done|]. destruct (conns_ok_add (mkConn conn_id pk_ [])
    (mkPeer pk_ false level (length (connections cs)) [] now (24 * 3600 * 1000 * 10 * 365)) cs Hok eq_refl eq_refl)
    as [H1 H2 H3 H4 H5 H6 H7 H8]. split; try done. cbn. by apply refs_snoc; [apply (ok_pending cs Hok)|..].
Qed.

(** What [proxy_connect_sn] does: use the first usable peer, open a connection, or
    nothing. *)
Definition connect_reuses (c : ConnectionID) (inc out : bool) (res : option (nat * bytes)) (cs cs' : conns) : Prop :=
  ∃ l1 l2 c' p p', peers cs = l1 ++ (c', p) :: l2 ∧ cs' = set_peers (l1 ++ (c', p') :: l2) cs ∧
    conn_eqb c' c = true ∧ usable_peer inc out p' = true ∧ conn_index p' = conn_index p ∧ peer_route p' = peer_route p ∧
    Forall (λ q, conn_eqb q.1 c && usable_peer inc out q.2 = false) l1 ∧ res = Some (conn_index p', peer_route p').
Definition connect_opens (c : ConnectionID) (inc : bool) (res : option (nat * bytes)) (cs cs' : conns) : Prop :=
  ∃ p, inc = false ∧ conn_index p = length (connections cs) ∧ peer_route p = [] ∧
    cs' = add_outgoing c p cs ∧ res = Some (length (connections cs), []).

Lemma connect_sn_cases sn_lookup connect_ok remote hint optional inc out keep_alive now cs :
  key_size remote → let c := mkConn SN_ID remote [] in
  ∃ res cs', proxy_connect_sn sn_lookup connect_ok remote hint optional inc out keep_alive now cs = Ok (res, cs') ∧
    (connect_reuses c inc out res cs cs' ∨ connect_opens c inc res cs cs' ∨ res = None ∧ cs' = cs).
Proof.
  intros Hk c. unfold proxy_connect_sn. rewrite (conn_of_pubkey_ok remote Hk). cbn [mbind outcome_bind].
  destruct (touch_peer _ _ _ _ _ (peers cs)) as [[p ps]|] eqn:E.
  - apply touch_peer_split in E as (l1 & l2 & c' & p0 & Hp & -> & Hc & Hu & Hi & Hr & Hf).
    eexists _, _. split; [done|]. left. exists l1, l2, c', p0, p. done.
  - destruct (optional || inc) eqn:Eo; [eexists _, _; eauto|]. cbv zeta.
    case_bool_decide; [eexists _, _; eauto|]. destruct (negb (connect_ok _)); [eexists _, _; eauto|].
    eexists _, _. split; [done|]. right. left. apply orb_false_iff in Eo as [_ ->].
    eexists (mkPeer remote true none (length (connections cs)) [] now keep_alive). done.
Qed.

Lemma connect_reuses_ok c inc out res cs cs' : connect_reuses c inc out res cs cs' → conns_ok cs → conns_ok cs'.
Proof. intros (l1 & l2 & c' & p & p' & Hp & -> & _ & _ & Hi & Hr & _) Hok. by eapply conns_ok_replace. Qed.

Lemma connect_opens_ok c inc res cs cs' : connect_opens c inc res cs cs' → conns_ok cs → conns_ok cs'.
Proof. intros (p & _ & Hi & Hr & -> & _) Hok. by apply conns_ok_add. Qed.

(** ** [ConnectionID] comparison *)

(** The part of an identity the comparisons look at. *)
Definition conn_key (c : ConnectionID) : Z * bytes := if sn c then (SN_ID, pk c) else (id c, route c).

Lemma conn_eqb_key a o : conn_eqb a o = true ↔ conn_key a = conn_key o.
Proof.
  unfold conn_eqb, conn_key. destruct (sn a) eqn:Ea, (sn o) eqn:Eo; cbn [andb].
  - rewrite bytes_eqb_eq. split; [by intros ->|by intros [= ->]].
  - unfold sn in *. split; [intros [? _]%andb_true_iff; lia|intros [= E _]; lia].
  - unfold sn in *. split; [intros [? _]%andb_true_iff; lia|intros [= E _]; lia].
  - rewrite andb_true_iff, bytes_eqb_eq, Z.eqb_eq. split; [by intros [-> ->]|by intros [= -> ->]].
Qed.

Definition key_ltb (a o : Z * bytes) : bool := (a.1 <? o.1) || ((a.1 =? o.1) && bytes_ltb a.2 o.2).

Lemma conn_ltb_key a o : conn_ltb a o = key_ltb (conn_key a) (conn_key o).
Proof.
  unfold conn_ltb, conn_key, key_ltb. destruct (sn a) eqn:Ea, (sn o) eqn:Eo; cbn [andb fst snd]; [|..].
  - by rewrite Z.ltb_irrefl, Z.eqb_refl.
  - unfold sn in *. apply Z.eqb_eq in Ea. rewrite Ea. rewrite Z.eqb_sym in Eo. by rewrite Eo.
  - unfold sn in *. apply Z.eqb_eq in Eo. rewrite Eo. by rewrite Ea.
  - done.
Qed.

Lemma key_ltb_trichotomy a o :
  (key_ltb a o = true ∧ a ≠ o ∧ key_ltb o a = false) ∨ (key_ltb a o = false ∧ a = o ∧ key_ltb o a = false) ∨
  (key_ltb a o = false ∧ a ≠ o ∧ key_ltb o a = true).
Proof.
  destruct a as [i x], o as [j y]. unfold key_ltb. cbn.
  destruct (Z.lt_total i j) as [Hl|[->|Hg]].
  - left. split_and!; [lia|congruence + (intros [= ? _]; lia)|lia].
  - rewrite Z.ltb_irrefl, Z.eqb_refl. cbn.
    destruct (bytes_ltb x y) eqn:E1, (bytes_ltb y x) eqn:E2.
    + pose proof (bytes_ltb_trans _ _ _ E1 E2) as C. by rewrite bytes_ltb_irrefl in C.
    + left. split_and!; [done| |done]. intros [= ->]. by rewrite bytes_ltb_irrefl in E1.
    + right; right. split_and!; [done| |done]. intros [= ->]. by rewrite bytes_ltb_irrefl in E2.
    + right; left. by rewrite (bytes_ltb_total _ _ E1 E2).
  - right; right. split_and!; [lia|intros [= ? _]; lia|lia].
Qed.

Lemma key_ltb_trans a b c : key_ltb a b = true → key_ltb b c = true → key_ltb a c = true.
Proof.
  destruct a as [i x], b as [j y], c as [k z]. unfold key_ltb. cbn.
  rewrite !orb_true_iff, !andb_true_iff, !Z.eqb_eq, !Z.ltb_lt.
  intros [H1|[-> H1]] [H2|[-> H2]]; [left; lia|left; lia|left; lia|right].
  split; [done|]. by eapply bytes_ltb_trans.
Qed.

(** ** Properties *)

(** [ConnectionID] comparison is sound for every container that uses it: [==]
    is an equivalence, [<] a strict total order on its classes (exactly one of
    [<], [==], [>] holds, and it is transitive), and equal identities hash alike,
    whatever the hash functions of the parts are. *)
Theorem connection_id_order already_hashed hash_string hash_id a b c :
  (conn_eqb a a = true ∧ conn_eqb a b = conn_eqb b a ∧
   (conn_eqb a b = true → conn_eqb b c = true → conn_eqb a c = true)) ∧
  ((conn_ltb a b = true ∧ conn_eqb a b = false ∧ conn_ltb b a = false) ∨
   (conn_ltb a b = false ∧ conn_eqb a b = true ∧ conn_ltb b a = false) ∨
   (conn_ltb a b = false ∧ conn_eqb a b = false ∧ conn_ltb b a = true)) ∧
  (conn_ltb a b = true → conn_ltb b c = true → conn_ltb a c = true) ∧
  (conn_eqb a b = true →
   conn_hash already_hashed hash_string hash_id a = conn_hash already_hashed hash_string hash_id b).
Proof.
  assert (∀ x y, conn_eqb x y = bool_decide (conn_key x = conn_key y)) as He.
  { intros x y. apply eq_true_iff_eq. by rewrite conn_eqb_key, bool_decide_eq_true. }
  rewrite !conn_ltb_key. split_and!.
  - apply conn_eqb_refl.
  - rewrite !He. by apply bool_decide_ext.
  - rewrite !conn_eqb_key. congruence.
  - rewrite He. destruct (key_ltb_trichotomy (conn_key a) (conn_key b)) as [(H1 & H2 & H3)|[(H1 & H2 & H3)|(H1 & H2 & H3)]].
    + left. by rewrite bool_decide_eq_false_2.
    + right; left. by rewrite bool_decide_eq_true_2.
    + right; right. by rewrite bool_decide_eq_false_2.
  - apply key_ltb_trans.
  - rewrite conn_eqb_key. unfold conn_key, conn_hash. destruct (sn a) eqn:Ea, (sn b) eqn:Eb.
    + by intros [= ->].
    + unfold sn in *. intros [= E _]. lia.
    + unfold sn in *. intros [= E _]. lia.
    + by intros [= -> ->].
Qed.

(** The empty tables, and one listener with two outgoing service nodes, for the
    concrete instances below. *)
Definition key32 (n : Z) : bytes := replicate 32 (z2b n).
Definition no_conns : conns := mkConns [mkSocket 0 router] [] [conn_of_id 1] [(conn_of_id 1, 0%nat)] [] [] true ∅ 1 [].
Definition two_peers : conns :=
  add_outgoing (mkConn SN_ID (key32 2) []) (mkPeer (key32 2) true none 2 [] 5 100)
    (add_outgoing (mkConn SN_ID (key32 1) []) (mkPeer (key32 1) true none 1 [] 0 100)
      (set_active (λ _, {[key32 1; key32 2]}) no_conns)).

Lemma no_conns_ok : conns_ok no_conns.
Proof.
  split; cbn; try done; try (by intros ? ? ?%elem_of_nil); try (by intros ? ?%elem_of_nil).
  - constructor.
  - intros x Hx. apply list_elem_of_singleton in Hx as ->. by exists (mkSocket 0 router).
Qed.

Lemma two_peers_ok : conns_ok two_peers.
Proof.
  unfold two_peers. repeat (apply conns_ok_add; [|reflexivity|reflexivity]).
  destruct no_conns_ok as [H1 H2 H3 H4 H5 H6 H7 H8]. split; cbn; try done.
  intros p Hp. apply elem_of_union in Hp as [Hp|Hp]; apply elem_of_singleton in Hp as ->; reflexivity.
Qed.

(** A table refers to the same sockets as before, under their new numbers, except for
    what belonged to the closed connection [index]. *)
Definition renumbered {A} (get : A → nat) (set : nat → A → A) (index : nat) (l l' : list A) : Prop :=
  ∀ y, y ∈ l' ↔ ∃ x j, x ∈ l ∧ reindex index (get x) = Some j ∧ y = set j x.

(** C30. Closing a connection keeps the tables consistent and every other reference
    pointing at the same socket.  Every socket but the closed one is found under its new
    number, with the identity it had; the peers, the pending connects, the bound
    addresses and the listeners that are left are exactly those that referred to another
    connection, each with the new number of the same socket and otherwise unchanged; the
    active service nodes stay; and the closed socket was given the linger time. *)
Theorem close_connection_consistent index l cs :
  conns_ok cs → (index < length (connections cs))%nat →
  ∃ cs' s, proxy_close_connection index l cs = Ok cs' ∧ conns_ok cs' ∧
    connections cs !! index = Some s ∧ closed cs' = closed cs ++ [(s, l)] ∧
    (length (connections cs') + 1 = length (connections cs))%nat ∧
    (∀ i, i ≠ index → ∃ j, reindex index i = Some j ∧
      connections cs' !! j = connections cs !! i ∧ conn_index_to_id cs' !! j = conn_index_to_id cs !! i) ∧
    renumbered (λ p, conn_index p.2) (λ i p, (p.1, set_conn_index i p.2)) index (peers cs) (peers cs') ∧
    renumbered pc_index (λ i p, mkPendingConnect i (pc_conn_id p) (pc_timeout p) (pc_success p) (pc_failure p)) index
      (pending_connects cs) (pending_connects cs') ∧
    renumbered bind_index (λ i b, mkBind (bind_addr b) (bind_curve b) i (bind_allow b)) index (bind cs) (bind cs') ∧
    renumbered snd (λ i p, (p.1, i)) index (incoming_conn_index cs) (incoming_conn_index cs') ∧
    active_service_nodes cs' = active_service_nodes cs.
Proof.
  intros Hok Hi. destruct (close_connection_ok index l cs Hok Hi) as (cs' & E & Hok' & Hc & _).
  destruct (lookup_lt_is_Some_2 _ _ Hi) as [s Hs]. exists cs', s. split_and!; [done|done|done|..].
  all: unfold proxy_close_connection in E; rewrite (ok_ids cs Hok) in E; replace (index <? length (connections cs))%nat with true in E by lia;
    injection E as <-; cbn [closed connections conn_index_to_id peers pending_connects bind incoming_conn_index active_service_nodes].
  - by rewrite Hs.
  - rewrite length_delete by done. lia.
  - intros i Hne. destruct (reindex_Some index i Hne) as [j Hj]. exists j. split; [done|].
    split; apply reindex_lookup; rewrite ?(ok_ids cs Hok); done.
  - intros y. apply elem_of_update.
  - intros y. apply elem_of_update.
  - intros y. apply elem_of_update.
  - intros y. apply elem_of_update.
  - done.
Qed.

Lemma close_connection_consistent_witness :
  ∃ cs' s, proxy_close_connection 1 (linger_ms 500) two_peers = Ok cs' ∧ conns_ok cs' ∧
    connections two_peers !! 1%nat = Some s ∧ closed cs' = [(s, linger_ms 500)] ∧
    renumbered (λ p, conn_index p.2) (λ i p, (p.1, set_conn_index i p.2)) 1 (peers two_peers) (peers cs') ∧
    renumbered snd (λ i p, (p.1, i)) 1 (incoming_conn_index two_peers) (incoming_conn_index cs').
Proof.
  destruct (close_connection_consistent 1 (linger_ms 500) two_peers) as (cs' & s & H1 & H2 & H3 & H4 & _ & _ & H5 & _ & _ & H6 & _).
  - apply two_peers_ok.
  - cbn. lia.
  - exists cs', s. split_and!; [exact H1|exact H2|exact H3|exact H4|exact H5|exact H6].
Defined.

(** [set_active_sns] makes the active set exactly the 32-byte keys given, never
    fails, and drops exactly the peers of the service nodes that left (closing
    their outgoing connections): every other peer keeps its socket.  The shortcuts
    on set sizes lose nothing. *)
Theorem set_active_sns_exact pubkeys cs :
  conns_ok cs →
  ∃ cs', proxy_set_active_sns pubkeys cs = Ok cs' ∧ conns_ok cs' ∧
    active_service_nodes cs' = filter key_size pubkeys ∧
    peer_view cs' = filter (λ x, ¬ sn_of (active_service_nodes cs ∖ filter key_size pubkeys) x) (peer_view cs).
Proof. apply set_active_sns_ok. Qed.

Lemma set_active_sns_exact_witness :
  ∃ cs', proxy_set_active_sns {[key32 2; key32 3; B "short"]} two_peers = Ok cs' ∧ conns_ok cs' ∧
    active_service_nodes cs' = filter key_size {[key32 2; key32 3; B "short"]} ∧
    peer_view cs' = filter (λ x, ¬ sn_of (active_service_nodes two_peers ∖
      filter key_size {[key32 2; key32 3; B "short"]}) x) (peer_view two_peers).
Proof.
  apply (set_active_sns_exact {[key32 2; key32 3; B "short"]} two_peers).
  apply two_peers_ok.
Defined.

(** C33. [update_active_sns] applies the difference, an addition winning over a
    removal of the same key; bad keys are ignored and only the peers of keys really
    removed are dropped. *)
Theorem update_active_sns_exact added removed cs :
  conns_ok cs →
  ∃ cs', proxy_update_active_sns added removed cs = Ok cs' ∧ conns_ok cs' ∧
    active_service_nodes cs' = active_service_nodes cs ∖ (removed ∖ added) ∪ filter key_size added ∧
    peer_view cs' = filter (λ x, ¬ sn_of (active_service_nodes cs ∩ (removed ∖ added)) x) (peer_view cs).
Proof. apply update_active_sns_ok. Qed.

Lemma update_active_sns_exact_witness :
  ∃ cs', proxy_update_active_sns {[key32 1]} {[key32 1; key32 2]} two_peers = Ok cs' ∧ conns_ok cs' ∧
    active_service_nodes cs' = active_service_nodes two_peers ∖ ({[key32 1; key32 2]} ∖ {[key32 1]})
      ∪ filter key_size {[key32 1]} ∧
    peer_view cs' = filter (λ x, ¬ sn_of (active_service_nodes two_peers ∩
      ({[key32 1; key32 2]} ∖ {[key32 1]})) x) (peer_view two_peers).
Proof.
  apply (update_active_sns_exact {[key32 1]} {[key32 1; key32 2]} two_peers).
  apply two_peers_ok.
Defined.

(** The idle sweep closes exactly the outgoing connections idle for longer than
    their limit: it has no dangling iterator, every other peer keeps its socket, and
    the tables stay consistent. *)
Theorem expire_idle_exact now cs :
  conns_ok cs →
  ∃ cs', proxy_expire_idle_peers now cs = Ok cs' ∧ conns_ok cs' ∧
    peer_view cs' = filter (λ x, ¬ expired now x) (peer_view cs).
Proof.
  intros Hok. destruct (expire_idle_ok now (S (length (peers cs))) [] (peers cs) cs Hok eq_refl)
    as (cs' & E & Hok' & _ & Hv); [lia|]. by exists cs'.
Qed.

Lemma expire_idle_exact_witness :
  ∃ cs', proxy_expire_idle_peers 103 two_peers = Ok cs' ∧ conns_ok cs' ∧
    peer_view cs' = filter (λ x, ¬ expired 103 x) (peer_view two_peers).
Proof.
  apply (expire_idle_exact 103 two_peers).
  apply two_peers_ok.
Defined.

(** C31. [proxy_connect_sn] keeps the tables consistent and what it returns can be
    used: the index of an open socket that belongs to a peer entry of that service
    node, with that peer's route, respecting the incoming-only and outgoing-only
    options; if it returns nothing it changed nothing. *)
Theorem connect_sn_consistent sn_lookup connect_ok remote hint optional inc out keep_alive now cs :
  conns_ok cs → key_size remote →
  ∃ res cs', proxy_connect_sn sn_lookup connect_ok remote hint optional inc out keep_alive now cs = Ok (res, cs') ∧
    conns_ok cs' ∧
    match res with
    | Some (i, r) => (i < length (connections cs'))%nat ∧ (inc = true → r ≠ []) ∧ (out = true → r = []) ∧
        ∃ c p, (c, p) ∈ peers cs' ∧ conn_eqb c (mkConn SN_ID remote []) = true ∧ conn_index p = i ∧ peer_route p = r
    | None => cs' = cs
    end.
Proof.
  intros Hok Hk. destruct (connect_sn_cases sn_lookup connect_ok remote hint optional inc out keep_alive now cs Hk)
    as (res & cs' & E & [Hc|[Hc|[-> ->]]]); [| |by exists None, cs].
  - exists res, cs'. split; [done|]. pose proof (connect_reuses_ok _ _ _ _ _ _ Hc Hok) as Hok'.
    destruct Hc as (l1 & l2 & c' & p0 & p & Hp & -> & Hc & Hu & Hi & Hr & _ & ->). split_and!; [done|..].
    + apply (ok_peer_index _ c' p Hok'). cbn. set_solver.
    + intros ->. unfold usable_peer, outgoing in Hu. cbn in Hu. intros E'.
      rewrite bool_decide_eq_true_2 in Hu by done. done.
    + intros ->. unfold usable_peer, outgoing in Hu. rewrite andb_true_l in Hu.
      apply andb_true_iff in Hu as [_ Hu]. rewrite negb_involutive in Hu. by apply bool_decide_eq_true in Hu.
    + exists c', p. split_and!; [cbn; set_solver|done..].
  - exists res, cs'. split; [done|]. pose proof (connect_opens_ok _ _ _ _ _ Hc Hok) as Hok'.
    destruct Hc as (p & -> & Hi & Hr & -> & ->). split_and!; [done|cbn; rewrite length_app; cbn; lia|done|done|].
    eexists _, p. split; [cbn; apply elem_of_app; right; by left|]. by rewrite conn_eqb_refl.
Qed.

Lemma connect_sn_consistent_witness :
  ∃ res cs', proxy_connect_sn (λ _, B "tcp://sn:1") (λ _, true) (key32 9) [] false false true 300 7 two_peers
      = Ok (res, cs') ∧ conns_ok cs' ∧
    match res with
    | Some (i, r) => (i < length (connections cs'))%nat ∧ (false = true → r ≠ []) ∧ (true = true → r = []) ∧
        ∃ c p, (c, p) ∈ peers cs' ∧ conn_eqb c (mkConn SN_ID (key32 9) []) = true ∧ conn_index p = i ∧ peer_route p = r
    | None => cs' = two_peers
    end.
Proof.
  apply (connect_sn_consistent (λ _, B "tcp://sn:1") (λ _, true) (key32 9) [] false false true 300 7 two_peers).
  - apply two_peers_ok.
  - reflexivity.
Defined.
