(* ===== verification/Helpers.v ===== *)
(** The small helpers the components share: the byte type of an output iterator
    (byte_type.h), the hash of a public key (auth.h), the printing of connection
    identities, access levels and addresses (connections.cpp, auth.cpp, address.cpp), and
    the chained registration of commands ([CatHelper], arqmamq.h). *)
From S2P Require Import Prelude Hex BtValue BtSerialize BtCodec Address Commands Connections.
Open Scope Z_scope.

(** ** [byte_type]

    [container_type]: the value type of [OutputIt::container_type], if there is one;
    [reference]: what [iterator_traits<OutputIt>::reference] refers to, if it is a
    reference.  With both the specializations are ambiguous: [None]. *)
Definition byte_type (container_type reference : option int_type) : option int_type :=
  match container_type, reference with
  | None, None => Some int8_t
  | Some value_type, None => Some value_type
  | None, Some t => Some t
  | Some _, Some _ => None
  end.

(** [static_cast<byte_type_t<OutputIt>>(byte)], as the decoders store a byte. *)
Definition store_byte (t : int_type) (b : byte) : Z := it_cast t (b2z b).

(** ** [already_hashed]

    Shorter strings are given to [std::hash]; of the others the first eight bytes are
    copied into a (little-endian) [size_t]. *)
Fixpoint le_value (s : bytes) : Z := match s with [] => 0 | c :: s => b2z c + 256 * le_value s end.
Definition already_hashed (std_hash : bytes → Z) (s : bytes) : Z :=
  if (length s <? 8)%nat then std_hash s else le_value (take 8 s).

(** ** Printing *)

(** [operator<<] of a [ConnectionID], an [AuthLevel] and an [address]. *)
Definition print_conn (conn : ConnectionID) : bytes :=
  if negb (bool_decide (pk conn = []))
  then (if sn conn then B "SN " else B "non-SN authenticated remote ") ++ to_hex (pk conn)
  else B "unauthenticated remote [" ++ print_int (id conn) ++ B "]".
Definition print_auth (a : AuthLevel) : bytes := to_string a.
Definition print_address (a : address) : bytes := full_address enc_base32z a.

(** ** [CatHelper]

    [add_category] returns the helper, and each call returns it again. *)
Definition CatHelper : Type := bytes.
Definition cat_add_command (cat : CatHelper) (name : bytes) (cb : callback) : M registry CatHelper :=
  _ ← add_command cat name cb; mret cat.
Definition cat_add_request_command (cat : CatHelper) (name : bytes) (cb : callback) : M registry CatHelper :=
  _ ← add_request_command cat name cb; mret cat.

(** [arqmq.add_category(...).add_command(...)...]: name, callback and whether it is a
    request, for each call of the chain. *)
Fixpoint cat_chain (cat : CatHelper) (calls : list (bytes * callback * bool)) : M registry CatHelper :=
  match calls with
  | [] => mret cat
  | (name, cb, request) :: calls =>
      cat ← (if (request : bool) then cat_add_request_command cat name cb else cat_add_command cat name cb); cat_chain cat calls
  end.

(** ** Lemmas *)

(** Read as an unsigned byte, a stored byte is the byte. *)
Lemma store_byte_read t b : 8 <= it_bits t → store_byte t b mod 256 = b2z b.
Proof.
  intros Ht. unfold store_byte, it_cast. pose proof (b2z_range b) as Hb.
  assert (2 ^ it_bits t = 2 ^ (it_bits t - 8) * 256) as E.
  { change 256 with (2 ^ 8). rewrite <-Z.pow_add_r by lia. f_equal. lia. }
  assert (1 <= 2 ^ (it_bits t - 8)) by (apply (Z.pow_le_mono_r 2 0); lia).
  rewrite (Z.mod_small (b2z b)) by lia. destruct (_ && _).
  - rewrite E, <-Z.add_opp_r, <-Z.mul_opp_l, Z.mod_add by done. by apply Z.mod_small.
  - by apply Z.mod_small.
Qed.

Lemma le_value_range s : 0 <= le_value s < 256 ^ Z.of_nat (length s).
Proof.
  induction s as [|c s IH]; [done|]. cbn [le_value length]. pose proof (b2z_range c). rewrite Nat2Z.inj_succ, Z.pow_succ_r by lia. lia.
Qed.

Lemma le_value_inj s t : length s = length t → le_value s = le_value t → s = t.
Proof.
  revert t. induction s as [|c s IH]; intros [|d t] Hl; try done. cbn [le_value]. intros E.
  pose proof (b2z_range c). pose proof (b2z_range d). assert (b2z c = b2z d ∧ le_value s = le_value t) as [Ec Es] by lia.
  f_equal; [by apply (inj b2z)|by apply IH; [injection Hl|]].
Qed.

(** The hash of a key is a [size_t], and collides exactly for keys with the same eight
    first bytes. *)
Lemma already_hashed_pubkey std_hash s t :
  length s = 32%nat → length t = 32%nat →
  0 <= already_hashed std_hash s < 2 ^ 64 ∧ (already_hashed std_hash s = already_hashed std_hash t ↔ take 8 s = take 8 t).
Proof.
  intros Hs Ht. unfold already_hashed. rewrite Hs, Ht. cbn [Nat.ltb Nat.leb]. assert (length (take 8 s) = 8%nat) as L by (rewrite length_take; lia).
  split; [pose proof (le_value_range (take 8 s)) as H; rewrite L in H; exact H|]. split; [|by intros ->].
  apply le_value_inj. rewrite L, length_take. lia.
Qed.

Lemma to_hex_inj s t : to_hex s = to_hex t → s = t.
Proof. intros E. pose proof (from_hex_to_hex s) as H. rewrite E, from_hex_to_hex in H. by injection H. Qed.

(** The log line of a remote tells it from every other: the key and kind of an
    authenticated one, the id of an unauthenticated one. *)
Theorem printed_remote_known a b :
  print_conn a = print_conn b →
  pk a = pk b ∧ (pk a ≠ [] → sn a = sn b) ∧ (pk a = [] → id a = id b).
Proof.
  unfold print_conn. destruct (decide (pk a = [])) as [Ea|Ea], (decide (pk b = [])) as [Eb|Eb];
    rewrite ?(bool_decide_eq_true_2 (pk a = [])), ?(bool_decide_eq_true_2 (pk b = [])),
      ?(bool_decide_eq_false_2 (pk a = [])), ?(bool_decide_eq_false_2 (pk b = [])) by done; cbn [negb].
  - intros E%app_inv_head%app_inv_tail%print_int_inj. by rewrite Ea, Eb.
  - by destruct (sn b).
  - by destruct (sn a).
  - destruct (sn a), (sn b); try done; intros E%app_inv_head%to_hex_inj; done.
Qed.

(** One call of a chain adds one command that was not there. *)
Lemma cat_call_inv cat name cb (request : bool) r h r' :
  (if request then cat_add_request_command cat name cb else cat_add_command cat name cb) r = (Ok h, r') →
  ∃ c, h = cat ∧ categories r !! cat = Some c ∧ commands c !! name = None ∧ command_aliases r' = command_aliases r ∧
    categories r' !! cat = Some (set_commands (λ m, <[name := (cb, request)]> m) c).
Proof.
  destruct request; unfold cat_add_request_command, cat_add_command; intros (u & r1 & E & [= <- <-])%bind_Ok_inv;
    [apply add_request_command_inv in E as [[_ [e ?]]|(c & _ & _ & _ & Hc & _ & Hn & ->)]
    |apply add_command_inv in E as [[_ [e ?]]|(c & _ & _ & _ & Hc & _ & Hn & ->)]]; try done;
    exists c; split_and!; try done; cbn [categories]; by rewrite lookup_insert_eq.
Qed.

(** A chain that does not throw registers all its commands, with their callbacks, and
    keeps those the category had. *)
Theorem cat_chain_registers cat calls r h r' c :
  cat_chain cat calls r = (Ok h, r') → categories r !! cat = Some c →
  h = cat ∧ command_aliases r' = command_aliases r ∧
  ∃ c', categories r' !! cat = Some c' ∧ commands c ⊆ commands c' ∧
    ∀ name cb request, (name, cb, request) ∈ calls → commands c' !! name = Some (cb, request).
Proof.
  revert r c. induction calls as [|[[name cb] request] calls IH]; intros r c; cbn [cat_chain].
  - intros [= <- <-] Hc. split_and!; [done|done|]. exists c. split_and!; [done|done|]. by intros ??? ?%elem_of_nil.
  - intros (h1 & r1 & E & Hrest)%bind_Ok_inv Hc. apply cat_call_inv in E as (c0 & -> & Hc0 & Hn & Ha & Hc1).
    rewrite Hc in Hc0. injection Hc0 as <-. destruct (IH r1 _ Hrest Hc1) as (-> & Ha' & c' & Hc' & Hsub & Hall). cbn [set_commands commands] in Hsub.
    split_and!; [done|by rewrite Ha'|]. exists c'. split_and!; [done| |].
    + etrans; [by apply insert_subseteq|exact Hsub].
    + intros n b q [[= -> -> ->]|Hin]%elem_of_cons; [|by apply Hall]. eapply lookup_weaken; [apply lookup_insert_eq|exact Hsub].
Qed.

Lemma cat_chain_registers_witness :
  let r := (add_category (B "rpc") default_access 0 200 empty_registry).2 in
  let r' := (cat_chain (B "rpc") [(B "a", 1%nat, false); (B "b", 2%nat, true)] r).2 in
  ∃ c', categories r' !! B "rpc" = Some c' ∧ commands c' !! B "b" = Some (2%nat, true).
Proof.
  intros r r'. destruct (cat_chain_registers (B "rpc") [(B "a", 1%nat, false); (B "b", 2%nat, true)] r (B "rpc") r' (new_category default_access 0 200))
    as (_ & _ & c' & Hc & _ & Hall); [vm_compute; reflexivity|vm_compute; reflexivity|].
  exists c'. split; [exact Hc|]. apply Hall. right. left.
Defined.
