(* ===== verification/Control.v ===== *)
(** arqmamq.h, message.h, connections.cpp, jobs.cpp, proxy.cpp: the control
    messages between client threads and the proxy: the dictionaries that [send],
    [request], [connect_sn], [connect_remote], [disconnect] and [add_timer] build, and
    the unpacking of them by the proxy's handlers. *)
From S2P Require Import Prelude BtValue BtSerialize BtCodec BtConsumer BtNested Commands Connections Address.
Open Scope Z_scope.

(** ** Objects passed by address

    [reinterpret_cast] between addresses and [uintptr_t].  The callbacks in the messages
    of this file are addresses of function objects; Loop.v moves the objects to the heap
    and takes them out of it. *)
Definition uintptr_t : int_type := uint64_t.
Definition ptr_to_int (p : nat) : Z := Z.of_nat p.
Definition int_to_ptr (ptrval : Z) : nat := Z.to_nat ptrval.

(** [bool], [uintptr_t], [long long] and [milliseconds::count()] as values. *)
Definition bt_bool (b : bool) : bt_value := bt_of_int c_bool (if b then 1 else 0).
Definition bt_ptr (f : callback) : bt_value := bt_of_int uintptr_t (ptr_to_int f).
Definition bt_count (n : Z) : bt_value := bt_of_int int64_t n.

(** ** Send options *)
Inductive send_opt : Type :=
  | so_part (arg : bytes)                  (* a string-like argument *)
  | so_data_parts (l : list bytes)
  | so_hint (connect_hint : bytes)
  | so_optional (is_optional : bool)
  | so_incoming (is_incoming : bool)
  | so_outgoing (is_outgoing : bool)
  | so_keep_alive (time : Z)
  | so_request_timeout (time : Z)
  | so_queue_failure (f : callback)
  | so_queue_full (f : callback)
  | so_maybe (o : option send_opt).        (* std::optional<T> *)

Abbreviation dict := (list (bytes * bt_value)).

Fixpoint apply_send_option (o : send_opt) (pc : list bt_value * dict) : list bt_value * dict :=
  let (parts, control_data) := pc in
  match o with
  | so_part arg => (parts ++ [bt_string_view arg], control_data)
  | so_data_parts l => (parts ++ (bt_string <$> l), control_data)
  | so_hint h => (parts, map_assign (B "hint") (bt_string h) control_data)
  | so_optional b => (parts, map_assign (B "optional") (bt_bool b) control_data)
  | so_incoming b => (parts, map_assign (B "incoming") (bt_bool b) control_data)
  | so_outgoing b => (parts, map_assign (B "outgoing") (bt_bool b) control_data)
  | so_keep_alive t => (parts, map_assign (B "keep_alive") (bt_count t) control_data)
  | so_request_timeout t => (parts, map_assign (B "request_timeout") (bt_count t) control_data)
  | so_queue_failure f => (parts, map_assign (B "send_fail") (bt_ptr f) control_data)
  | so_queue_full f => (parts, map_assign (B "send_full_q") (bt_ptr f) control_data)
  | so_maybe (Some o) => apply_send_option o pc
  | so_maybe None => pc
  end.

(** The fold over the argument pack is left to right. *)
Definition build_send (to : ConnectionID) (cmd : bytes) (opts : list send_opt) : dict :=
  let '(parts, control_data) := foldl (λ pc o, apply_send_option o pc) ([bt_string_view cmd], []) opts in
  let control_data :=
    if sn to then map_assign (B "conn_pubkey") (bt_string (pk to)) control_data
    else map_assign (B "conn_route") (bt_string (route to))
           (map_assign (B "conn_id") (bt_of_int int64_t (id to)) control_data) in
  map_assign (B "send") (bt_list parts) control_data.

(** What [send] and [request] pass to the proxy with ["SEND"]. *)
Definition send_control_data (to : ConnectionID) (cmd : bytes) (opts : list send_opt) : bytes :=
  bt_serialize (bt_dict (build_send to cmd opts)).

Definition request_dict (reply_tag : bytes) (to : ConnectionID) (cmd : bytes) (f : callback) (opts : list send_opt) : dict :=
  let control_data := build_send to cmd (so_part reply_tag :: opts) in
  let control_data := map_assign (B "request") (bt_bool true) control_data in
  let control_data := map_assign (B "request_callback") (bt_ptr f) control_data in
  map_assign (B "request_tag") (bt_string_view reply_tag) control_data.

Definition request_control_data (reply_tag : bytes) (to : ConnectionID) (cmd : bytes) (f : callback) (opts : list send_opt) : bytes :=
  bt_serialize (bt_dict (request_dict reply_tag to cmd f opts)).

(** ** [Message] *)
Record Message : Type := mkMessage {
  m_data : list bytes;
  m_conn : ConnectionID;
  m_reply_tag : bytes;
  m_access : Access;
  m_remote : bytes
}.

(** [DeferredSend]: the parts of a message needed to answer it later. *)
Record DeferredSend : Type := mkDeferred { ds_conn : ConnectionID; ds_reply_tag : bytes }.
Definition send_later (m : Message) : DeferredSend := mkDeferred (m_conn m) (m_reply_tag m).

Definition optional_unless_sn (c : ConnectionID) : send_opt := so_optional (negb (sn c)).

Definition send_back (m : Message) (command : bytes) (args : list send_opt) : bytes :=
  send_control_data (m_conn m) command (optional_unless_sn (m_conn m) :: args).
Definition deferred_back (d : DeferredSend) (command : bytes) (args : list send_opt) : bytes :=
  send_control_data (ds_conn d) command (optional_unless_sn (ds_conn d) :: args).

(** The reply tag is asserted not to be empty. *)
Definition send_reply (m : Message) (args : list send_opt) : outcome bytes :=
  if bool_decide (m_reply_tag m = []) then UB
  else Ok (send_control_data (m_conn m) (B "REPLY")
             (so_part (m_reply_tag m) :: optional_unless_sn (m_conn m) :: args)).
Definition deferred_reply (d : DeferredSend) (args : list send_opt) : outcome bytes :=
  if bool_decide (ds_reply_tag d = []) then UB
  else Ok (send_control_data (ds_conn d) (B "REPLY")
             (so_part (ds_reply_tag d) :: optional_unless_sn (ds_conn d) :: args)).

Definition send_request (reply_tag : bytes) (m : Message) (cmd : bytes) (f : callback) (args : list send_opt) : bytes :=
  request_control_data reply_tag (m_conn m) cmd f (optional_unless_sn (m_conn m) :: args).
Definition deferred_request (reply_tag : bytes) (d : DeferredSend) (cmd : bytes) (f : callback) (args : list send_opt) : bytes :=
  request_control_data reply_tag (ds_conn d) cmd f (optional_unless_sn (ds_conn d) :: args).

(** [make_random_string]: the generator's outputs [rng 0, rng 1, ...] in memory
    order (little endian), cut to [size] bytes. *)
Definition le_bytes (x : Z) : bytes := (λ i, z2b (x / 2 ^ (8 * i))) <$> seqZ 0 8.

Fixpoint random_loop (fuel : nat) (rng : nat → Z) (i : nat) (size : nat) (rando : bytes) : outcome bytes :=
  match fuel with
  | O => Diverge
  | S fuel' =>
      if (length rando <? size)%nat
      then random_loop fuel' rng (S i) size (rando ++ take (Nat.min (size - length rando) 8) (le_bytes (rng i)))
      else Ok rando
  end.

Definition make_random_string (rng : nat → Z) (size : nat) : outcome bytes :=
  random_loop (S size) rng 0 size [].

(** ** Connect options

    [remote] distinguishes [connect_remote] from [connect_sn]; the option that does
    not apply is only logged. *)
Inductive connect_opt : Type :=
  | co_auth (a : AuthLevel)
  | co_ephemeral_routing_id (use : bool)
  | co_timeout (time : Z)
  | co_keep_alive (time : Z)
  | co_hint (address_ : bytes)
  | co_time (time : Z)                     (* deprecated: a bare duration *)
  | co_string (hint : bytes).              (* deprecated: a bare string *)

Definition apply_connect_option (remote : bool) (opts : dict) (o : connect_opt) : dict :=
  match o with
  | co_auth a => if remote then map_assign (B "auth_level") (bt_of_int c_int (auth_val a)) opts else opts
  | co_ephemeral_routing_id use => map_assign (B "ephemeral_rid") (bt_bool use) opts
  | co_timeout t => if remote then map_assign (B "timeout") (bt_count t) opts else opts
  | co_keep_alive t => if negb remote then map_assign (B "keep_alive") (bt_count t) opts else opts
  | co_hint h => if negb remote then map_assign (B "hint") (bt_string h) opts else opts
  | co_time t => if remote then map_assign (B "timeout") (bt_count t) opts
                 else map_assign (B "keep_alive") (bt_count t) opts
  | co_string h => if negb remote then map_assign (B "hint") (bt_string_view h) opts else opts
  end.

Definition DEFAULT_SEND_KEEP_ALIVE : Z := 30000.
Definition DEFAULT_CONNECT_SN_KEEP_ALIVE : Z := 300000.
Definition REMOTE_CONNECT_TIMEOUT : Z := 10000.
Definition DEFAULT_REQUEST_TIMEOUT : Z := 15000.

(** [connect_remote]: the id it returns is [next_conn_id++]. *)
Definition connect_remote_dict (remote : address) (on_connect on_failure : callback) (next_conn_id : Z)
    (options : list connect_opt) : dict :=
  let opts := foldl (apply_connect_option true) [] options in
  let opts := map_assign (B "conn_id") (bt_of_int int64_t next_conn_id) opts in
  let opts := map_assign (B "connect") (bt_ptr on_connect) opts in
  let opts := map_assign (B "failure") (bt_ptr on_failure) opts in
  let opts := if curve remote then map_assign (B "pubkey") (bt_string (pubkey remote)) opts else opts in
  map_assign (B "remote") (bt_string (zmq_address remote)) opts.

Definition connect_remote (remote : address) (on_connect on_failure : callback) (next_conn_id : Z)
    (options : list connect_opt) : ConnectionID * bytes :=
  (conn_of_id next_conn_id, bt_serialize (bt_dict (connect_remote_dict remote on_connect on_failure next_conn_id options))).

(** The overloads that take the address as a string, with or without a key. *)
Definition connect_remote_string (remote : bytes) (on_connect on_failure : callback) (next_conn_id : Z)
    (auth_level : AuthLevel) (timeout : Z) : outcome (ConnectionID * bytes) :=
  a ← address_parse remote;
  Ok (connect_remote a on_connect on_failure next_conn_id [co_auth auth_level; co_timeout timeout]).

Definition connect_remote_pubkey (remote : bytes) (on_connect on_failure : callback) (next_conn_id : Z)
    (pubkey : bytes) (auth_level : AuthLevel) (timeout : Z) : outcome (ConnectionID * bytes) :=
  a ← address_parse remote; a ← set_pubkey pubkey a;
  Ok (connect_remote a on_connect on_failure next_conn_id [co_auth auth_level; co_timeout timeout]).

(** [connect_sn]: the key is converted to a [ConnectionID] after the message went out. *)
Definition connect_sn_dict (EPHEMERAL_ROUTING_ID : bool) (pubkey : bytes) (options : list connect_opt) : dict :=
  let opts := [(B "ephemeral_rid", bt_bool EPHEMERAL_ROUTING_ID);
               (B "keep_alive", bt_count DEFAULT_CONNECT_SN_KEEP_ALIVE)] in
  map_assign (B "pubkey") (bt_string_view pubkey) (foldl (apply_connect_option false) opts options).

Definition connect_sn (EPHEMERAL_ROUTING_ID : bool) (pubkey : bytes) (options : list connect_opt) : outcome ConnectionID * bytes :=
  (conn_of_pubkey pubkey, bt_serialize (bt_dict (connect_sn_dict EPHEMERAL_ROUTING_ID pubkey options))).

Definition disconnect_dict (c : ConnectionID) (linger : Z) : dict :=
  [(B "conn_id", bt_of_int int64_t (id c)); (B "linger_ms", bt_count linger); (B "pubkey", bt_string (pk c))].
Definition disconnect (c : ConnectionID) (linger : Z) : bytes := bt_serialize (bt_dict (disconnect_dict c linger)).

(** [add_timer] on a started instance: the list [TIMER] carries. *)
Definition timer_list (timer_id : Z) (job : callback) (interval : Z) (squelch : bool) (thread : option Z) : list bt_value :=
  [bt_of_int c_int timer_id; bt_ptr job; bt_count interval; bt_bool squelch; bt_of_int c_int (default 0 thread)].
Definition timer_control_data (timer_id : Z) (job : callback) (interval : Z) (squelch : bool) (thread : option Z) : bytes :=
  bt_serialize (bt_list (timer_list timer_id job interval squelch thread)).

(** ** Unpacking

    [if (data.skip_until(key)) x = data.consume_...()]. *)
Definition opt_field {A} (key : bytes) (rd : M dict_consumer A) : M dict_consumer (option A) :=
  b ← skip_until key; if (b : bool) then v ← rd; mret (Some v) else mret None.

(** [if (!data.skip_until(key)) throw std::runtime_error; x = data.consume_...()]. *)
Definition required_field {A} (key : bytes) (rd : M dict_consumer A) : M dict_consumer A :=
  b ← skip_until key; if (b : bool) then rd else throwM runtime_error.

Definition read_bool : M dict_consumer bool := z ← dict_consume_integer c_bool; mret (negb (z =? 0)).
Definition read_ptr : M dict_consumer callback := z ← dict_consume_integer uintptr_t; mret (int_to_ptr z).
(** [data.consume_list_consumer()]: a consumer of the elements. *)
Definition read_list_consumer : M dict_consumer bytes := consume_list_consumer.
(** [std::chrono::milliseconds{data.consume_integer<uint64_t>()}]: the count is an
    [int64_t]. *)
Definition read_ms : M dict_consumer Z := z ← dict_consume_integer uint64_t; mret (it_cast int64_t z).

(** What [proxy_send] reads.  [sa_request] is the callback, the tag and the timeout. *)
Record send_args : Type := mkSend {
  sa_conn : ConnectionID;
  sa_hint : bytes;
  sa_incoming : bool;
  sa_keep_alive : Z;
  sa_optional : bool;
  sa_outgoing : bool;
  sa_request : option (callback * bytes * Z);
  sa_send : bytes;                         (* the list consumer of the parts *)
  sa_nosend : option callback;
  sa_noqueue : option callback
}.

(** The destination: [conn_id] or [conn_pubkey], not both; -1 is not a valid id. *)
Definition read_conn : M dict_consumer ConnectionID :=
  i ← opt_field (B "conn_id") (dict_consume_integer int64_t);
  if bool_decide (i = Some (-1)) then throwM runtime_error
  else
    b ← skip_until (B "conn_pubkey");
    match b, i with
    | true, Some _ => throwM runtime_error
    | true, None => p ← dict_consume_string; mret (mkConn SN_ID p [])
    | false, None => throwM runtime_error
    | false, Some n => mret (mkConn n [] [])
    end.

Definition read_request (request : bool) : M dict_consumer (option (callback * bytes * Z)) :=
  if request then
    f ← required_field (B "request_callback") read_ptr;
    tag ← required_field (B "request_tag") dict_consume_string;
    timeout ← opt_field (B "request_timeout") read_ms;
    mret (Some (f, tag, default DEFAULT_REQUEST_TIMEOUT timeout))
  else mret None.

Definition parse_send : M dict_consumer send_args :=
  c ← read_conn;
  rt ← opt_field (B "conn_route") dict_consume_string;
  hint ← opt_field (B "hint") dict_consume_string;
  incoming ← opt_field (B "incoming") read_bool;
  keep_alive ← opt_field (B "keep_alive") read_ms;
  optional ← opt_field (B "optional") read_bool;
  outgoing ← opt_field (B "outgoing") read_bool;
  request ← opt_field (B "request") read_bool;
  rq ← read_request (default false request);
  send ← required_field (B "send") read_list_consumer;
  nosend ← opt_field (B "send_fail") read_ptr;
  noqueue ← opt_field (B "send_full_q") read_ptr;
  mret (mkSend (mkConn (id c) (pk c) (default [] rt)) (default [] hint) (default false incoming)
          (default DEFAULT_SEND_KEEP_ALIVE keep_alive) (default false optional) (default false outgoing)
          rq send nosend noqueue).

(** What [proxy_reply] reads: the destination and the parts. *)
Definition parse_reply : M dict_consumer (ConnectionID * bytes) :=
  c ← read_conn; send ← required_field (B "send") read_list_consumer; mret (c, send).

(** What [proxy_connect_sn] reads; [keep_alive] has no default. *)
Record connect_sn_args : Type := mkConnectSn {
  cs_ephemeral_rid : bool; cs_hint : bytes; cs_incoming : bool; cs_keep_alive : option Z;
  cs_optional : bool; cs_outgoing : bool; cs_pubkey : bytes
}.

Definition parse_connect_sn (EPHEMERAL_ROUTING_ID : bool) : M dict_consumer connect_sn_args :=
  ephemeral_rid ← opt_field (B "ephemeral_rid") read_bool;
  hint ← opt_field (B "hint") dict_consume_string;
  incoming ← opt_field (B "incoming") read_bool;
  keep_alive ← opt_field (B "keep_alive") read_ms;
  optional ← opt_field (B "optional") read_bool;
  outgoing ← opt_field (B "outgoing_only") read_bool;
  remote_pk ← required_field (B "pubkey") dict_consume_string;
  mret (mkConnectSn (default EPHEMERAL_ROUTING_ID ephemeral_rid) (default [] hint) (default false incoming)
          keep_alive (default false optional) (default false outgoing) remote_pk).

Record connect_remote_args : Type := mkConnectRemote {
  cr_auth_level : Z; cr_conn_id : Z; cr_connect : option callback; cr_ephemeral_rid : bool;
  cr_failure : option callback; cr_pubkey : bytes; cr_remote : bytes; cr_timeout : Z
}.

(** [assert(remote_pubkey.size() == 32 || remote_pubkey.empty())] *)
Definition check_pubkey (p : option bytes) : M dict_consumer unit :=
  match p with
  | Some p => if (length p =? 32)%nat || bool_decide (p = []) then mret tt else ubM
  | None => mret tt
  end.

Definition parse_connect_remote (EPHEMERAL_ROUTING_ID : bool) : M dict_consumer connect_remote_args :=
  auth_level ← opt_field (B "auth_level") (dict_consume_integer c_int);
  conn_id ← opt_field (B "conn_id") (dict_consume_integer int64_t);
  on_connect ← opt_field (B "connect") read_ptr;
  ephemeral_rid ← opt_field (B "ephemeral_rid") read_bool;
  on_failure ← opt_field (B "failure") read_ptr;
  pubkey ← opt_field (B "pubkey") dict_consume_string;
  _ ← check_pubkey pubkey;
  remote ← opt_field (B "remote") dict_consume_string;
  timeout ← opt_field (B "timeout") read_ms;
  mret (mkConnectRemote (default (auth_val none) auth_level) (default (-1) conn_id) on_connect
          (default EPHEMERAL_ROUTING_ID ephemeral_rid) on_failure (default [] pubkey) (default [] remote)
          (default REMOTE_CONNECT_TIMEOUT timeout)).

(** What [proxy_disconnect] reads: the identity and the linger time. *)
Definition parse_disconnect : M dict_consumer (ConnectionID * Z) :=
  conn_id ← opt_field (B "conn_id") (dict_consume_integer int64_t);
  linger ← opt_field (B "linger_ms") (dict_consume_integer int64_t);
  pubkey ← opt_field (B "pubkey") dict_consume_string;
  let connid := mkConn (default (-1) conn_id) (default [] pubkey) [] in
  if sn connid && negb (length (pk connid) =? 32)%nat then throwM runtime_error
  else mret (connid, default 1000 linger).

(** A handler taking a [bt_dict_consumer] is called with a view. *)
Definition unpack {A} (rd : M dict_consumer A) (data : bytes) : outcome A :=
  st ← bt_dict_consumer_ctor data; (rd st).1.

Record timer_args : Type := mkTimerArgs {
  ta_id : Z; ta_func : callback; ta_interval : Z; ta_squelch : bool; ta_thread : Z
}.

(** [proxy_timer(bt_list_consumer)]: five integers and nothing else. *)
Definition timer_body : parser timer_args :=
  timer_id ← consume_integer c_int;
  func ← consume_integer uintptr_t;
  interval ← consume_integer uint64_t;
  squelch ← consume_integer c_bool;
  thread ← consume_integer c_int;
  fin ← is_finished;
  if (fin : bool)
  then mret (mkTimerArgs timer_id (int_to_ptr func) (it_cast int64_t interval) (negb (squelch =? 0)) thread)
  else throwM runtime_error.

Definition parse_timer (data : bytes) : outcome timer_args :=
  l ← bt_list_consumer_ctor data; (timer_body l).1.

(** ** [build_send_parts]

    The route, if any, then the strings of the list; every string consumes at least
    two bytes, which bounds the fuel. *)
Fixpoint send_parts_loop (fuel : nat) : parser (list bytes) :=
  match fuel with
  | O => λ s, (Diverge, s)
  | S fuel' =>
      b ← is_finished;
      if (b : bool) then mret [] else x ← consume_string_view; r ← send_parts_loop fuel'; mret (x :: r)
  end.

Definition build_send_parts (send route_ : bytes) : outcome (list bytes) :=
  parts ← (send_parts_loop (S (length send)) send).1;
  Ok (if bool_decide (route_ = []) then parts else route_ :: parts).

(** ** Reading fields in increasing key order

    [cursor D lo st]: of the dict [D], the entries with a key above [lo] are still
    ahead of [st]. *)
Definition cursor (D : dict) (lo : bytes) (st : dict_consumer) : Prop :=
  ∃ d, dict_at [] st d ∧ entries_ok d ∧ map_sorted d = true ∧
    ∀ k, bytes_ltb lo k = true → map_find k d = map_find k D.

(** [reads rd f]: on an entry whose value [f] accepts, [rd] returns what [f] makes of
    it and goes past the entry. *)
Definition reads {A} (rd : M dict_consumer A) (f : bt_value → option A) : Prop :=
  ∀ st k v d a, entries_ok ((k, v) :: d) → dict_at [] st ((k, v) :: d) → f v = Some a →
    ∃ st', rd st = (Ok a, st') ∧ dict_at [] st' d.

Lemma skip_until_cursor D lo key st :
  cursor D lo st → bytes_ltb lo key = true → key ≠ [] →
  ∃ st' d, skip_until key st = (Ok (bool_decide (is_Some (map_find key D))), st') ∧
    dict_at [] st' d ∧ entries_ok d ∧ map_sorted d = true ∧
    (∀ v, map_find key D = Some v → ∃ d2, d = (key, v) :: d2) ∧
    (∀ k, bytes_ltb key k = true → map_find k d = map_find k D).
Proof.
  intros (d & Hat & Hok & Hs & Hf) Hlo Hne.
  destruct (skip_until_at [] key st d Hok Hat) as (st' & E & Hat').
  rewrite drop_below_head in E by done. rewrite (Hf key Hlo) in E.
  exists st', (drop_below key d). split_and!; [done|done|by apply drop_below_ok|by apply drop_below_sorted| |].
  - intros v Hv. pose proof (drop_below_head key d Hs Hne) as Hh.
    rewrite (Hf key Hlo), bool_decide_eq_true_2 in Hh by eauto. rewrite <-(Hf key Hlo) in Hv.
    rewrite <-(map_find_drop_below key key d) in Hv by apply bytes_ltb_irrefl.
    destruct (drop_below key d) as [|[k2 v2] d2]; [done|]. cbn [map_find] in Hv.
    rewrite Hh in Hv. injection Hv as ->. apply bytes_eqb_eq in Hh as ->. eauto.
  - intros k Hk. rewrite map_find_drop_below by by apply bytes_ltb_le.
    apply Hf. by eapply bytes_ltb_trans.
Qed.

(** Going past the entry sought keeps the greater keys ahead. *)
Lemma cursor_past D key v d2 st' :
  dict_at [] st' d2 → entries_ok ((key, v) :: d2) → map_sorted ((key, v) :: d2) = true →
  (∀ k, bytes_ltb key k = true → map_find k ((key, v) :: d2) = map_find k D) → cursor D key st'.
Proof.
  intros Hat Hok Hs Hf. exists d2. apply Forall_cons in Hok as [_ Hok].
  apply map_sorted_cons in Hs as [_ Hs]. split_and!; [done..|].
  intros k Hk. rewrite <-Hf by done. cbn [map_find]. destruct (bytes_eqb key k) eqn:E; [|done].
  apply bytes_eqb_eq in E as ->. by rewrite bytes_ltb_irrefl in Hk.
Qed.

Lemma opt_field_cursor {A} D lo key (rd : M dict_consumer A) f st :
  reads rd f → cursor D lo st → bytes_ltb lo key = true → key ≠ [] →
  (∀ v, map_find key D = Some v → is_Some (f v)) →
  ∃ st', opt_field key rd st = (Ok (map_find key D ≫= f), st') ∧ cursor D key st'.
Proof.
  intros Hrd Hc Hlo Hne Hv. destruct (skip_until_cursor D lo key st Hc Hlo Hne) as (st1 & d & E & Hat & Hok & Hs & Hh & Hf).
  unfold opt_field. rewrite (bind_Ok _ _ _ _ _ E). destruct (map_find key D) as [v|] eqn:Em.
  - rewrite bool_decide_eq_true_2 by eauto. destruct (Hh v eq_refl) as [d2 ->].
    destruct (Hv v eq_refl) as [a Ea]. destruct (Hrd st1 key v d2 a Hok Hat Ea) as (st2 & E2 & Hat2).
    exists st2. rewrite (bind_Ok _ _ _ _ _ E2). split; [cbn; by rewrite Ea|]. by eapply cursor_past.
  - rewrite bool_decide_eq_false_2 by (by intros []). exists st1. split; [done|]. by exists d.
Qed.

Lemma required_field_cursor {A} D lo key (rd : M dict_consumer A) f st v a :
  reads rd f → cursor D lo st → bytes_ltb lo key = true → key ≠ [] →
  map_find key D = Some v → f v = Some a →
  ∃ st', required_field key rd st = (Ok a, st') ∧ cursor D key st'.
Proof.
  intros Hrd Hc Hlo Hne Hv Ha. destruct (skip_until_cursor D lo key st Hc Hlo Hne) as (st1 & d & E & Hat & Hok & Hs & Hh & Hf).
  unfold required_field. rewrite (bind_Ok _ _ _ _ _ E). rewrite bool_decide_eq_true_2 by eauto.
  destruct (Hh v Hv) as [d2 ->]. destruct (Hrd st1 key v d2 a Hok Hat Ha) as (st2 & E2 & Hat2).
  exists st2. split; [done|]. by eapply cursor_past.
Qed.

(** A key that is missing is an error. *)
Lemma required_field_missing {A} D lo key (rd : M dict_consumer A) st :
  cursor D lo st → bytes_ltb lo key = true → key ≠ [] → map_find key D = None →
  (required_field key rd st).1 = Throw runtime_error.
Proof.
  intros Hc Hlo Hne Hv. destruct (skip_until_cursor D lo key st Hc Hlo Hne) as (st1 & d & E & _).
  unfold required_field. rewrite (bind_Ok _ _ _ _ _ E), Hv. by rewrite bool_decide_eq_false_2 by (by intros []).
Qed.

Lemma cursor_start D :
  map_sorted D = true → entries_ok D →
  ∃ st, bt_dict_consumer_ctor (bt_serialize (bt_dict D)) = Ok st ∧ cursor D [] st.
Proof.
  intros Hs Hok. exists (DictConsumer (entries_data D []) None). split.
  - rewrite <-(app_nil_r (bt_serialize _)). by apply entries_data_ctor.
  - exists D. split_and!; [constructor|done..].
Qed.

(** What each reader makes of a value. *)
Definition as_string (v : bt_value) : option bytes :=
  match v with bt_string x | bt_string_view x => Some x | _ => None end.
Definition as_int (t : int_type) (v : bt_value) : option Z :=
  match v with
  | bt_int64 z | bt_uint64 z => if (it_min t <=? z) && (z <=? it_max t) then Some z else None
  | _ => None
  end.
Definition as_list (v : bt_value) : option bytes :=
  match v with bt_list l => Some (concat (bt_serialize <$> l) ++ ["e"%byte]) | _ => None end.
Definition as_bool (v : bt_value) : option bool := (λ z, negb (z =? 0)) <$> as_int c_bool v.
Definition as_ptr (v : bt_value) : option callback := int_to_ptr <$> as_int uintptr_t v.
Definition as_ms (v : bt_value) : option Z := it_cast int64_t <$> as_int uint64_t v.

Lemma reads_map {A C} (rd : M dict_consumer A) f (g : A → C) :
  reads rd f → reads (a ← rd; mret (g a)) (λ v, g <$> f v).
Proof.
  intros H st k v d c Hok Hat Hc. destruct (f v) as [a|] eqn:Ea; [|done]. injection Hc as <-.
  destruct (H st k v d a Hok Hat Ea) as (st' & E & Hat'). exists st'. split; [|done].
  by rewrite (bind_Ok _ _ _ _ _ E).
Qed.

Lemma reads_string : reads dict_consume_string as_string.
Proof.
  intros st k v d a Hok Hat Ha. apply Forall_cons in Hok as [[Hk Hv] _]. cbn [fst snd] in *.
  exists (DictConsumer (entries_data d []) None). split; [|constructor]. unfold dict_consume_string.
  rewrite (bind_Ok _ _ _ (k, a) (DictConsumer (entries_data d []) None)); [done|].
  destruct v; try done; injection Ha as ->; (eapply next_string_at; [| | |exact Hat]); [done|apply Hv|done|done|apply Hv|done].
Qed.

Lemma reads_int t : it_ok t → reads (dict_consume_integer t) (as_int t).
Proof.
  intros Ht st k v d a Hok Hat Ha. apply Forall_cons in Hok as [[Hk Hv] _]. cbn [fst snd] in *.
  exists (DictConsumer (entries_data d []) None). split; [|constructor]. unfold dict_consume_integer.
  rewrite (bind_Ok _ _ _ (k, a) (DictConsumer (entries_data d []) None)); [done|].
  unfold next_integer. assert (it_range t a ∧ a ≠ it_min int64_t ∧ bt_serialize v = bt_serialize_int a) as (Hr & Hm & Es).
  { destruct v as [| |z|z| |]; try done; cbn [as_int] in Ha; destruct (_ && _) eqn:E; [|done| |done];
      injection Ha as ->; (split; [unfold it_range; lia|]); (split; [|done]); [apply Hv|].
    destruct Hv as [[Hz _] _]. change (it_min uint64_t) with 0 in Hz. change (it_min int64_t) with (- 2 ^ 63). lia. }
  eapply next_with_at; [done..| |]; rewrite Es; [apply is_integer_int|by apply consume_integer_at].
Qed.

Lemma reads_list : reads read_list_consumer as_list.
Proof.
  intros st k v d a Hok Hat Ha. apply Forall_cons in Hok as [[Hk Hv] _]. cbn [fst snd] in *.
  exists (DictConsumer (entries_data d []) None). split; [|constructor]. unfold read_list_consumer, consume_list_consumer, dict_consume_list_data.
  destruct v as [| | | |l|]; try done. injection Ha as <-.
  rewrite (bind_Ok _ _ _ (bt_serialize (bt_list l)) (DictConsumer (entries_data d []) None)); [done|].
  rewrite (bind_Ok _ _ _ (k, bt_serialize (bt_list l)) (DictConsumer (entries_data d []) None)); [done|].
  eapply next_data_at; [done..|apply is_list_list|by apply consume_list_data_at].
Qed.

Lemma reads_bool : reads read_bool as_bool.
Proof. apply (reads_map (dict_consume_integer c_bool) _ (λ z, negb (z =? 0))), reads_int. done. Qed.
Lemma reads_ptr : reads read_ptr as_ptr.
Proof. apply (reads_map (dict_consume_integer uintptr_t) _ int_to_ptr), reads_int. done. Qed.
Lemma reads_ms : reads read_ms as_ms.
Proof. apply (reads_map (dict_consume_integer uint64_t) _ (it_cast int64_t)), reads_int. done. Qed.

Create HintDb control.
#[export] Hint Resolve reads_string reads_int reads_list reads_bool reads_ptr reads_ms : control.

(** ** What the options say *)

(** The options inside [std::optional]s that are set. *)
Fixpoint flat (o : send_opt) : list send_opt :=
  match o with
  | so_maybe (Some o) => flat o
  | so_maybe None => []
  | _ => [o]
  end.

Definition flatten (opts : list send_opt) : list send_opt := opts ≫= flat.

(** The last option that [sel] selects. *)
Definition last_of {O A} (sel : O → option A) (opts : list O) : option A :=
  foldl (λ acc o, match sel o with Some a => Some a | None => acc end) None opts.

Definition parts_of (o : send_opt) : list bytes :=
  match o with so_part a => [a] | so_data_parts l => l | _ => [] end.
Definition sel_hint (o : send_opt) := match o with so_hint h => Some h | _ => None end.
Definition sel_optional (o : send_opt) := match o with so_optional b => Some b | _ => None end.
Definition sel_incoming (o : send_opt) := match o with so_incoming b => Some b | _ => None end.
Definition sel_outgoing (o : send_opt) := match o with so_outgoing b => Some b | _ => None end.
Definition sel_keep_alive (o : send_opt) := match o with so_keep_alive t => Some t | _ => None end.
Definition sel_request_timeout (o : send_opt) := match o with so_request_timeout t => Some t | _ => None end.
Definition sel_queue_failure (o : send_opt) := match o with so_queue_failure f => Some f | _ => None end.
Definition sel_queue_full (o : send_opt) := match o with so_queue_full f => Some f | _ => None end.

(** The request a message is meant to be: what the proxy is to do with [opts]. *)
Definition send_meaning (to : ConnectionID) (rq : option (callback * bytes)) (send : bytes) (opts : list send_opt) : send_args :=
  let os := flatten opts in
  mkSend (if sn to then mkConn SN_ID (pk to) [] else mkConn (id to) [] (route to))
    (default [] (last_of sel_hint os)) (default false (last_of sel_incoming os))
    (default DEFAULT_SEND_KEEP_ALIVE (last_of sel_keep_alive os)) (default false (last_of sel_optional os))
    (default false (last_of sel_outgoing os))
    ((λ r, (r.1, r.2, default DEFAULT_REQUEST_TIMEOUT (last_of sel_request_timeout os))) <$> rq)
    send (last_of sel_queue_failure os) (last_of sel_queue_full os).

(** What C++ guarantees of the arguments (sizes, addresses) and what the caller has
    to: times are not negative. *)
Definition size_ok (s : bytes) : Prop := Z.of_nat (length s) < 2 ^ 64.
Definition time_ok (t : Z) : Prop := 0 <= t < 2 ^ 63.
Definition ptr_ok (f : callback) : Prop := Z.of_nat f < 2 ^ 64.

Definition send_opt_ok (o : send_opt) : Prop :=
  match o with
  | so_part a => size_ok a
  | so_data_parts l => Forall size_ok l
  | so_hint h => size_ok h
  | so_keep_alive t | so_request_timeout t => time_ok t
  | so_queue_failure f | so_queue_full f => ptr_ok f
  | _ => True
  end.

Definition dest_ok (to : ConnectionID) : Prop :=
  - 2 ^ 63 < id to < 2 ^ 63 ∧ size_ok (pk to) ∧ size_ok (route to).

(** The entry an option writes. *)
Definition field_of (o : send_opt) : option (bytes * bt_value) :=
  match o with
  | so_hint h => Some (B "hint", bt_string h)
  | so_optional b => Some (B "optional", bt_bool b)
  | so_incoming b => Some (B "incoming", bt_bool b)
  | so_outgoing b => Some (B "outgoing", bt_bool b)
  | so_keep_alive t => Some (B "keep_alive", bt_count t)
  | so_request_timeout t => Some (B "request_timeout", bt_count t)
  | so_queue_failure f => Some (B "send_fail", bt_ptr f)
  | so_queue_full f => Some (B "send_full_q", bt_ptr f)
  | _ => None
  end.

Definition connect_field (remote : bool) (o : connect_opt) : option (bytes * bt_value) :=
  match o with
  | co_auth a => if remote then Some (B "auth_level", bt_of_int c_int (auth_val a)) else None
  | co_ephemeral_routing_id use => Some (B "ephemeral_rid", bt_bool use)
  | co_timeout t => if remote then Some (B "timeout", bt_count t) else None
  | co_keep_alive t => if remote then None else Some (B "keep_alive", bt_count t)
  | co_hint h => if remote then None else Some (B "hint", bt_string h)
  | co_time t => Some (if remote then B "timeout" else B "keep_alive", bt_count t)
  | co_string h => if remote then None else Some (B "hint", bt_string_view h)
  end.

Definition write_with {O} (fld : O → option (bytes * bt_value)) (cd : dict) (o : O) : dict :=
  match fld o with Some (k, v) => map_assign k v cd | None => cd end.
Abbreviation write_field := (write_with field_of).

(** The elements of a list of strings, as a list consumer sees them. *)
Definition encode_parts (l : list bytes) : bytes := concat (bt_serialize_string <$> l) ++ ["e"%byte].

Lemma last_of_cons {O A} (sel : O → option A) o opts :
  last_of sel (o :: opts) = match last_of sel opts with Some a => Some a | None => sel o end.
Proof.
  assert (∀ acc, foldl (λ acc o, match sel o with Some a => Some a | None => acc end) acc opts
                 = match last_of sel opts with Some a => Some a | None => acc end) as H.
  { unfold last_of. induction opts as [|o' opts IH]; intros acc; cbn [foldl]; [done|].
    rewrite (IH (match sel o' with Some a => Some a | None => acc end)), (IH (match sel o' with Some a => Some a | None => None end)).
    by destruct (foldl _ None opts), (sel o'). }
  unfold last_of at 1. cbn. rewrite H. by destruct (last_of sel opts), (sel o).
Qed.

(** Applying an option writes its field and appends its parts. *)
Definition is_str (v : bt_value) : Prop := ∃ x, size_ok x ∧ (v = bt_string x ∨ v = bt_string_view x).

Lemma apply_send_option_flat o ps cd :
  Forall send_opt_ok (flat o) →
  ∃ qs, apply_send_option o (ps, cd) = (ps ++ qs, foldl write_field cd (flat o)) ∧
    bt_serialize <$> qs = bt_serialize_string <$> (flat o ≫= parts_of) ∧ Forall is_str qs.
Proof.
  revert o. fix IH 1. intros [a|l|h|b|b|b|t|t|f|f|[o|]] Hok;
    try (exists []; rewrite app_nil_r; split_and!; [reflexivity|reflexivity|constructor]).
  - exists [bt_string_view a]. split_and!; [done|done|]. apply Forall_singleton. exists a.
    apply Forall_cons in Hok as [Hok _]. split; [exact Hok|by right].
  - exists (bt_string <$> l). apply Forall_cons in Hok as [Hok _]. split_and!; [done| |].
    + cbn. rewrite app_nil_r, <-list_fmap_compose. done.
    + apply Forall_fmap. eapply Forall_impl; [exact Hok|]. intros x Hx. exists x. auto.
  - exact (IH o Hok).
Qed.

Lemma apply_send_options_flat opts ps cd :
  Forall send_opt_ok (flatten opts) →
  ∃ qs, foldl (λ pc o, apply_send_option o pc) (ps, cd) opts
        = (ps ++ qs, foldl write_field cd (flatten opts)) ∧
    bt_serialize <$> qs = bt_serialize_string <$> (flatten opts ≫= parts_of) ∧ Forall is_str qs.
Proof.
  revert ps cd. induction opts as [|o opts IH]; intros ps cd Hok.
  - exists []. rewrite app_nil_r. split_and!; [done|done|constructor].
  - change (flatten (o :: opts)) with (flat o ++ flatten opts) in *. apply Forall_app in Hok as [Ho Hok]. cbn [foldl].
    destruct (apply_send_option_flat o ps cd Ho) as (qs1 & -> & E1 & H1).
    destruct (IH (ps ++ qs1) (foldl write_field cd (flat o)) Hok) as (qs2 & -> & E2 & H2).
    exists (qs1 ++ qs2). rewrite foldl_app, app_assoc. split_and!; [done| |by apply Forall_app].
    rewrite fmap_app, E1, E2, bind_app, fmap_app. done.
Qed.

(** ** Well-formedness of the dictionaries *)
Definition dict_ok (D : dict) : Prop := map_sorted D = true ∧ entries_ok D.

Lemma dict_ok_nil : dict_ok [].
Proof. split; [done|constructor]. Qed.

Lemma entries_ok_assign k v D : Z.of_nat (length k) < 2 ^ 64 → bt_encodable v → entries_ok D → entries_ok (map_assign k v D).
Proof.
  intros Hk Hv H. assert (∀ E, entries_ok E → entries_ok ((k, v) :: E)) as Hc by (intros; by apply Forall_cons_2).
  induction H as [|[k2 v2] D H2 H IH]; cbn [map_assign]; [by apply Hc, Forall_nil_2|].
  repeat case_match; [by apply Hc, Forall_cons_2|by apply Forall_cons_2|by apply Hc].
Qed.

Lemma dict_ok_assign k v D : Z.of_nat (length k) < 2 ^ 64 → bt_encodable v → dict_ok D → dict_ok (map_assign k v D).
Proof. intros Hk Hv [H1 H2]. split; [by apply map_sorted_assign|by apply entries_ok_assign]. Qed.

Lemma encodable_string x : size_ok x → bt_encodable (bt_string x).
Proof. by split. Qed.
Lemma encodable_view x : size_ok x → bt_encodable (bt_string_view x).
Proof. by split. Qed.
Lemma encodable_bool b : bt_encodable (bt_bool b).
Proof. split; [|done]. by destruct b; vm_compute. Qed.

Lemma bt_ptr_eq f : ptr_ok f → bt_ptr f = bt_uint64 (Z.of_nat f).
Proof. intros H. unfold ptr_ok in H. unfold bt_ptr, bt_of_int, ptr_to_int. cbn. f_equal. apply Z.mod_small. lia. Qed.
Lemma bt_signed_eq t z : it_signed t = true → - 2 ^ 63 < z < 2 ^ 63 → bt_of_int t z = bt_int64 z.
Proof. intros Ht H. unfold bt_of_int. rewrite Ht. f_equal. apply it_cast_id; [done|]. unfold it_range, it_min, it_max. cbn [it_signed it_bits int64_t]. lia. Qed.
Lemma encodable_int64 z : - 2 ^ 63 < z < 2 ^ 63 → bt_encodable (bt_int64 z).
Proof. intros H. split; cbn [bt_wf bt_no_int64_min]; unfold it_range, it_min, it_max; cbn [it_signed it_bits int64_t]; lia. Qed.

Lemma encodable_ptr f : ptr_ok f → bt_encodable (bt_ptr f).
Proof. intros H. rewrite bt_ptr_eq by done. split; [|done]. unfold ptr_ok in H. cbn [bt_wf]. unfold it_range, it_min, it_max. cbn [it_signed it_bits uint64_t]. lia. Qed.
Lemma encodable_signed t z : it_signed t = true → - 2 ^ 63 < z < 2 ^ 63 → bt_encodable (bt_of_int t z).
Proof. intros Ht H. rewrite bt_signed_eq by done. by apply encodable_int64. Qed.
Lemma encodable_count t : time_ok t → bt_encodable (bt_count t).
Proof. unfold time_ok. intros H. apply encodable_signed; [done|lia]. Qed.

#[export] Hint Resolve dict_ok_nil dict_ok_assign encodable_string encodable_view encodable_bool encodable_ptr
  encodable_signed encodable_count : control.
(** Side conditions on literal keys. *)
#[export] Hint Extern 1 (Z.of_nat (length (B _)) < 2 ^ 64) => (vm_compute; reflexivity) : control.

Lemma dict_ok_fields os D : Forall send_opt_ok os → dict_ok D → dict_ok (foldl write_field D os).
Proof.
  intros H. revert D. induction H as [|o os Ho H IH]; intros D HD; [done|]. cbn [foldl]. apply IH.
  unfold write_with. destruct o; cbn [field_of] in *; auto with control.
Qed.

Lemma encodable_parts ps : Forall is_str ps → bt_encodable (bt_list ps).
Proof.
  intros H. unfold bt_encodable. rewrite bt_wf_list, bt_no_int64_min_list.
  split; (eapply Forall_impl; [exact H|]); intros v (x & Hx & [-> | ->]); done.
Qed.

(** Looking a field up finds the last option that wrote it. *)
Lemma find_fields {O A} (fld : O → option (bytes * bt_value)) k (sel : O → option A) (inj : A → bt_value) os D :
  (∀ o, match fld o with Some (k', v) => if bytes_eqb k' k then Some v else None | None => None end
        = inj <$> sel o) →
  map_find k (foldl (write_with fld) D os) = match last_of sel os with Some a => Some (inj a) | None => map_find k D end.
Proof.
  revert D. induction os as [|o os IH]; intros D H; [done|]. cbn [foldl].
  rewrite IH by done. rewrite last_of_cons.
  destruct (last_of sel os); [done|]. specialize (H o). unfold write_with.
  destruct (fld o) as [[k' v]|]; [rewrite map_find_assign; destruct (bytes_eqb k' k)|]; destruct (sel o); cbn in H; congruence.
Qed.

(** ** Unpacking a dictionary *)
Definition readable {A} (D : dict) (key : bytes) (f : bt_value → option A) : Prop :=
  ∀ v, map_find key D = Some v → is_Some (f v).

(** Runs the next field read of the goal, advancing the cursor. *)
Ltac next_field :=
  match goal with
  | Hc : cursor ?D ?lo ?st |- context [@mbind _ _ _ _ _ (opt_field ?key ?rd) ?st] =>
      let st' := fresh "st" in let E := fresh "E" in let Hc' := fresh "Hc" in let Hrd := fresh in
      eassert (reads rd _) as Hrd by solve [eauto with control];
      destruct (opt_field_cursor D lo key rd _ st Hrd Hc) as (st' & E & Hc');
        [vm_compute; reflexivity|discriminate|assumption|];
      rewrite (bind_Ok _ _ _ _ _ E); clear E Hc Hrd; cbv beta
  | Hc : cursor ?D ?lo ?st |- context [@mbind _ _ _ _ _ (required_field ?key ?rd) ?st] =>
      let st' := fresh "st" in let E := fresh "E" in let Hc' := fresh "Hc" in let Hrd := fresh in
      eassert (reads rd _) as Hrd by solve [eauto with control];
      edestruct (λ v a, required_field_cursor D lo key rd _ st v a Hrd Hc) as (st' & E & Hc');
        [vm_compute; reflexivity|discriminate|eassumption|eassumption|];
      rewrite (bind_Ok _ _ _ _ _ E); clear E Hc Hrd; cbv beta
  end.

(** The destination a dict names. *)
Definition names_conn (D : dict) (c : ConnectionID) : Prop :=
  (map_find (B "conn_id") D = Some (bt_int64 (id c)) ∧ map_find (B "conn_pubkey") D = None ∧
   id c ≠ -1 ∧ - 2 ^ 63 < id c < 2 ^ 63 ∧ pk c = []) ∨
  (map_find (B "conn_id") D = None ∧ map_find (B "conn_pubkey") D = Some (bt_string (pk c)) ∧ id c = -1).

Lemma read_conn_cursor D c st :
  cursor D [] st → names_conn D c →
  ∃ st', read_conn st = (Ok (mkConn (id c) (pk c) []), st') ∧ cursor D (B "conn_pubkey") st'.
Proof.
  intros Hc Hn. unfold read_conn.
  assert (readable D (B "conn_id") (as_int int64_t)) as Hr.
  { intros v Hv. destruct Hn as [(E & _ & _ & Hr & _)|(E & _)]; [|congruence]. rewrite E in Hv. injection Hv as <-.
    cbn [as_int]. unfold it_min, it_max. cbn [it_signed it_bits int64_t]. destruct (_ && _) eqn:Eb; [eauto|lia]. }
  assert (it_ok int64_t) by done. next_field.
  destruct Hn as [(E & Ep & Hm & Hr' & Hpk)|(E & Ep & Hid)]; rewrite E.
  - cbn [mbind option_bind as_int]. unfold it_min, it_max. cbn [it_signed it_bits int64_t].
    destruct (_ && _) eqn:Eb; [|lia]. rewrite bool_decide_eq_false_2 by congruence.
    destruct (skip_until_cursor D _ (B "conn_pubkey") _ Hc0) as (st' & d & E2 & Hat & Hok & Hs & _ & Hf); [vm_compute; reflexivity|discriminate|].
    rewrite (bind_Ok _ _ _ _ _ E2), Ep, bool_decide_eq_false_2 by (by intros []). exists st'. rewrite Hpk. split; [done|by exists d].
  - cbn [mbind option_bind]. rewrite bool_decide_eq_false_2 by done.
    destruct (skip_until_cursor D _ (B "conn_pubkey") _ Hc0) as (st' & d & E2 & Hat & Hok & Hs & Hh & Hf); [vm_compute; reflexivity|discriminate|].
    rewrite (bind_Ok _ _ _ _ _ E2), bool_decide_eq_true_2 by eauto. destruct (Hh _ Ep) as [d2 ->].
    destruct (reads_string _ _ _ _ (pk c) Hok Hat eq_refl) as (st3 & E3 & Hat3).
    rewrite (bind_Ok _ _ _ _ _ E3). exists st3. rewrite Hid. split; [done|by eapply cursor_past].
Qed.

Section parse_send.
Context (D : dict) (c : ConnectionID) (ps : list bt_value).
Context (HD : dict_ok D) (Hconn : names_conn D c) (Hsend : map_find (B "send") D = Some (bt_list ps)).
Context (Hroute : readable D (B "conn_route") as_string) (Hhint : readable D (B "hint") as_string).
Context (Hinc : readable D (B "incoming") as_bool) (Hka : readable D (B "keep_alive") as_ms).
Context (Hopt : readable D (B "optional") as_bool) (Hout : readable D (B "outgoing") as_bool).
Context (Hreq : readable D (B "request") as_bool) (Htime : readable D (B "request_timeout") as_ms).
Context (Hfail : readable D (B "send_fail") as_ptr) (Hfull : readable D (B "send_full_q") as_ptr).

Lemma read_request_cursor (rq : option (callback * bytes)) st :
  cursor D (B "request") st →
  match rq with
  | Some (f, tag) => ptr_ok f ∧ map_find (B "request_callback") D = Some (bt_ptr f) ∧
                     map_find (B "request_tag") D = Some (bt_string_view tag)
  | None => True
  end →
  ∃ st' lo, read_request (if rq is Some _ then true else false) st
    = (Ok ((λ r, (r.1, r.2, default DEFAULT_REQUEST_TIMEOUT (map_find (B "request_timeout") D ≫= as_ms))) <$> rq), st')
    ∧ cursor D lo st' ∧ bytes_ltb lo (B "send") = true.
Proof using Htime.
  intros Hc Hrq. destruct rq as [[f tag]|]; [|by exists st, (B "request")]. destruct Hrq as (Hp & Hf & Ht).
  unfold read_request. assert (as_ptr (bt_ptr f) = Some f) as Ef.
  { rewrite bt_ptr_eq by done. unfold as_ptr, as_int, it_min, it_max, int_to_ptr. cbn [it_signed it_bits uintptr_t uint64_t].
    unfold ptr_ok in Hp. destruct (_ && _) eqn:E; [|lia]. cbn. by rewrite Nat2Z.id. }
  assert (as_string (bt_string_view tag) = Some tag) as Et by done.
  next_field. next_field. next_field. eexists _, _. split; [done|]. by split.
Qed.

Lemma parse_send_dict (rq : option (callback * bytes)) :
  default false (map_find (B "request") D ≫= as_bool) = (if rq is Some _ then true else false) →
  match rq with
  | Some (f, tag) => ptr_ok f ∧ map_find (B "request_callback") D = Some (bt_ptr f) ∧
                     map_find (B "request_tag") D = Some (bt_string_view tag)
  | None => True
  end →
  unpack parse_send (bt_serialize (bt_dict D)) = Ok (mkSend
    (mkConn (id c) (pk c) (default [] (map_find (B "conn_route") D ≫= as_string)))
    (default [] (map_find (B "hint") D ≫= as_string)) (default false (map_find (B "incoming") D ≫= as_bool))
    (default DEFAULT_SEND_KEEP_ALIVE (map_find (B "keep_alive") D ≫= as_ms))
    (default false (map_find (B "optional") D ≫= as_bool)) (default false (map_find (B "outgoing") D ≫= as_bool))
    ((λ r, (r.1, r.2, default DEFAULT_REQUEST_TIMEOUT (map_find (B "request_timeout") D ≫= as_ms))) <$> rq)
    (concat (bt_serialize <$> ps) ++ ["e"%byte])
    (map_find (B "send_fail") D ≫= as_ptr) (map_find (B "send_full_q") D ≫= as_ptr)).
Proof using All.
  intros Erq Hrq. destruct HD as [Hs Hok]. destruct (cursor_start D Hs Hok) as (st & E & Hc).
  unfold unpack. rewrite E. cbn [mbind outcome_bind]. unfold parse_send.
  destruct (read_conn_cursor D c st Hc Hconn) as (st1 & E1 & Hc1). rewrite (bind_Ok _ _ _ _ _ E1). clear E1 Hc.
  do 7 next_field. rewrite Erq.
  edestruct (read_request_cursor rq) as (st9 & lo & E9 & Hc9 & Hlo); [eassumption|exact Hrq|]. rewrite (bind_Ok _ _ _ _ _ E9).
  clear E9. edestruct (required_field_cursor D lo (B "send") read_list_consumer as_list st9) as (st10 & E10 & Hc10);
    [apply reads_list|exact Hc9|exact Hlo|discriminate|exact Hsend|reflexivity|].
  rewrite (bind_Ok _ _ _ _ _ E10). clear E10. do 2 next_field. reflexivity.
Qed.
End parse_send.

(** ** The round trip *)
(** A field written by the options [os] and read back by [f]. *)
Lemma field_read {O A} (fld : O → option (bytes * bt_value)) (ok : O → Prop) D D0 k (sel : O → option A)
    (f : bt_value → option A) (a0 : option A) os :
  (∀ o, ok o → match fld o with
               | Some (k', v) => if bytes_eqb k' k then is_Some (f v) ∧ sel o = f v else sel o = None
               | None => sel o = None
               end) →
  Forall ok os → map_find k D0 ≫= f = a0 → readable D0 k f →
  map_find k D = map_find k (foldl (write_with fld) D0 os) →
  map_find k D ≫= f = (match last_of sel os with Some a => Some a | None => a0 end) ∧ readable D k f.
Proof.
  intros Hw Hok. revert D0 a0. induction Hok as [|o os Ho Hok IH]; intros D0 a0 E0 R0 E; unfold readable; rewrite E; [done|].
  cbn [foldl] in *. rewrite last_of_cons.
  destruct (IH (write_with fld D0 o) (match sel o with Some a => Some a | None => a0 end)) as [E1 R1]; [| |done|].
  - specialize (Hw o Ho). unfold write_with. destruct (fld o) as [[k' v]|]; [|by rewrite Hw].
    rewrite map_find_assign. destruct (bytes_eqb k' k); [|by rewrite Hw]. destruct Hw as [[a Ha] ->]. cbn. by rewrite Ha.
  - specialize (Hw o Ho). intros v'. unfold write_with. destruct (fld o) as [[k' v]|]; [|apply R0].
    rewrite map_find_assign. destruct (bytes_eqb k' k); [|apply R0]. intros [= <-]. by destruct Hw.
  - rewrite <-E. split; [|exact R1]. rewrite E1. by destruct (last_of sel os).
Qed.

Lemma as_bool_bt b : as_bool (bt_bool b) = Some b.
Proof. by destruct b. Qed.
Lemma as_ms_bt t : time_ok t → as_ms (bt_count t) = Some t.
Proof.
  unfold time_ok. intros H. unfold bt_count. rewrite bt_signed_eq by (done || lia).
  unfold as_ms, as_int, it_min, it_max. cbn [it_signed it_bits uint64_t]. destruct (_ && _) eqn:E; [|lia].
  cbn [fmap option_fmap option_map]. f_equal. apply it_cast_id; [done|]. unfold it_range, it_min, it_max. cbn [it_signed it_bits int64_t]. lia.
Qed.
Lemma as_ptr_bt f : ptr_ok f → as_ptr (bt_ptr f) = Some f.
Proof.
  intros Hp. rewrite bt_ptr_eq by done. unfold as_ptr, as_int, it_min, it_max, int_to_ptr. cbn [it_signed it_bits uintptr_t uint64_t].
  unfold ptr_ok in Hp. destruct (_ && _) eqn:E; [|lia]. cbn. by rewrite Nat2Z.id.
Qed.

(** An option's field is read back as the option says. *)
Ltac read_back :=
  intros o Ho; destruct o as [];
  repeat match goal with a : AuthLevel |- _ => destruct a end;
  try done; cbn [field_of connect_field]; rewrite bytes_eqb_refl, ?as_bool_bt, ?as_ms_bt, ?as_ptr_bt by done;
  (split; [by eexists|done]).

Definition option_keys : list bytes :=
  [B "hint"; B "incoming"; B "keep_alive"; B "optional"; B "outgoing"; B "request_timeout"; B "send_fail"; B "send_full_q"].

Lemma parse_send_meaning D to rq opts ps :
  dict_ok D → Forall send_opt_ok (flatten opts) → map_find (B "send") D = Some (bt_list ps) →
  names_conn D (if sn to then mkConn SN_ID (pk to) [] else mkConn (id to) [] (route to)) →
  map_find (B "conn_route") D = (if sn to then None else Some (bt_string (route to))) →
  (∀ k, k ∈ option_keys → map_find k D = map_find k (foldl write_field [] (flatten opts))) →
  map_find (B "request") D = (if rq is Some _ then Some (bt_bool true) else None) →
  match rq with
  | Some (f, tag) => ptr_ok f ∧ map_find (B "request_callback") D = Some (bt_ptr f) ∧
                     map_find (B "request_tag") D = Some (bt_string_view tag)
  | None => True
  end →
  unpack parse_send (bt_serialize (bt_dict D))
  = Ok (send_meaning to rq (concat (bt_serialize <$> ps) ++ ["e"%byte]) opts).
Proof.
  intros HD Hok Hsend Hconn Hroute Hopts Hreq Hrq. unfold send_meaning.
  destruct (field_read field_of send_opt_ok D [] (B "hint") sel_hint as_string None (flatten opts)) as [E1 R1];
    [solve [read_back]|done|done|done|apply Hopts; set_solver|].
  destruct (field_read field_of send_opt_ok D [] (B "incoming") sel_incoming as_bool None (flatten opts)) as [E2 R2];
    [solve [read_back]|done|done|done|apply Hopts; set_solver|].
  destruct (field_read field_of send_opt_ok D [] (B "keep_alive") sel_keep_alive as_ms None (flatten opts)) as [E3 R3];
    [solve [read_back]|done|done|done|apply Hopts; set_solver|].
  destruct (field_read field_of send_opt_ok D [] (B "optional") sel_optional as_bool None (flatten opts)) as [E4 R4];
    [solve [read_back]|done|done|done|apply Hopts; set_solver|].
  destruct (field_read field_of send_opt_ok D [] (B "outgoing") sel_outgoing as_bool None (flatten opts)) as [E5 R5];
    [solve [read_back]|done|done|done|apply Hopts; set_solver|].
  destruct (field_read field_of send_opt_ok D [] (B "request_timeout") sel_request_timeout as_ms None (flatten opts)) as [E6 R6];
    [solve [read_back]|done|done|done|apply Hopts; set_solver|].
  destruct (field_read field_of send_opt_ok D [] (B "send_fail") sel_queue_failure as_ptr None (flatten opts)) as [E7 R7];
    [solve [read_back]|done|done|done|apply Hopts; set_solver|].
  destruct (field_read field_of send_opt_ok D [] (B "send_full_q") sel_queue_full as_ptr None (flatten opts)) as [E8 R8];
    [solve [read_back]|done|done|done|apply Hopts; set_solver|].
  assert (readable D (B "conn_route") as_string) as R0.
  { intros v. rewrite Hroute. destruct (sn to); [done|]. intros [= <-]. by eexists. }
  assert (readable D (B "request") as_bool) as R9.
  { intros v. rewrite Hreq. destruct rq; [|done]. intros [= <-]. by eexists. }
  rewrite (parse_send_dict D _ ps HD Hconn Hsend R0 R1 R2 R3 R4 R5 R9 R6 R7 R8 rq); [|by rewrite Hreq; destruct rq|exact Hrq].
  rewrite E1, E2, E3, E4, E5, E6, E7, E8, Hroute. unfold send_meaning.
  repeat match goal with |- context [match ?x with Some a => Some a | None => None end] => replace (match x with Some a => Some a | None => None end) with x by (by destruct x) end.
  by destruct (sn to).
Qed.

Lemma encode_parts_eq ps l : bt_serialize <$> ps = bt_serialize_string <$> l → concat (bt_serialize <$> ps) ++ ["e"%byte] = encode_parts l.
Proof. unfold encode_parts. by intros ->. Qed.

Definition conn_keys : list bytes := [B "conn_id"; B "conn_pubkey"; B "conn_route"].

Lemma no_field {O} (fld : O → option (bytes * bt_value)) k os D :
  (∀ o, if fld o is Some (k', _) then bytes_eqb k' k = false else True) →
  map_find k (foldl (write_with fld) D os) = map_find k D.
Proof.
  intros H. rewrite (find_fields fld k (λ _, @None unit) (λ _, bt_list []) os D).
  - assert (last_of (λ _, @None unit) os = None) as ->; [|done].
    induction os as [|o os IH]; [done|]. rewrite last_of_cons. by rewrite IH.
  - intros o. specialize (H o). destruct (fld o) as [[k' v]|]; [by rewrite H|done].
Qed.

Lemma build_send_ok to cmd opts :
  dest_ok to → size_ok cmd → Forall send_opt_ok (flatten opts) →
  let D := build_send to cmd opts in
  ∃ ps, dict_ok D ∧ map_find (B "send") D = Some (bt_list ps) ∧
    bt_serialize <$> ps = bt_serialize_string <$> (cmd :: (flatten opts ≫= parts_of)) ∧
    names_conn D (if sn to then mkConn SN_ID (pk to) [] else mkConn (id to) [] (route to)) ∧
    map_find (B "conn_route") D = (if sn to then None else Some (bt_string (route to))) ∧
    ∀ k, k ∉ B "send" :: conn_keys → map_find k D = map_find k (foldl write_field [] (flatten opts)).
Proof.
  intros (Hid & Hpk & Hrt) Hcmd Hok. unfold build_send.
  destruct (apply_send_options_flat opts [bt_string_view cmd] [] Hok) as (qs & -> & Eq & Hq). cbv zeta.
  pose proof (dict_ok_fields _ [] Hok dict_ok_nil) as HD. exists (bt_string_view cmd :: qs). cbn [app].
  assert (bt_encodable (bt_list (bt_string_view cmd :: qs))) as Hl.
  { apply encodable_parts, Forall_cons_2; [|done]. exists cmd. auto. }
  assert (∀ k, k ∈ conn_keys → map_find k (foldl write_field [] (flatten opts)) = None) as Hno.
  { intros k Hk. apply no_field. intros o. unfold conn_keys in Hk. rewrite !elem_of_cons, elem_of_nil in Hk.
    destruct o; try done; cbn [field_of]; destruct Hk as [-> |[-> |[-> |[]]]]; done. }
  rewrite bt_signed_eq by done. split_and!.
  - apply dict_ok_assign; [by vm_compute|done|]. destruct (sn to); [auto with control|].
    repeat apply dict_ok_assign; try done. by apply encodable_int64.
  - by rewrite map_find_assign, bytes_eqb_refl.
  - by rewrite fmap_cons, Eq.
  - unfold names_conn. destruct (sn to) eqn:Esn; [right|left]; rewrite !map_find_assign; cbn [id pk].
    + rewrite (Hno (B "conn_id")) by (unfold conn_keys; set_solver). done.
    + rewrite (Hno (B "conn_pubkey")) by (unfold conn_keys; set_solver). unfold sn, SN_ID in Esn. split_and!; try done; lia.
  - destruct (sn to); rewrite !map_find_assign; [|done]. by rewrite (Hno (B "conn_route")) by (unfold conn_keys; set_solver).
  - intros k Hk. unfold conn_keys in Hk. rewrite !not_elem_of_cons in Hk. destruct Hk as (H1 & H2 & H3 & H4 & _).
    assert (∀ k', k ≠ k' → bytes_eqb k' k = false) as Hne by (intros k' Hk'; unfold bytes_eqb; by apply bool_decide_eq_false_2).
    rewrite map_find_assign, (Hne (B "send")) by done. destruct (sn to); rewrite !map_find_assign, !Hne by done; done.
Qed.

Lemma option_keys_apart k : k ∈ option_keys → k ∉ B "send" :: conn_keys.
Proof.
  unfold option_keys, conn_keys. rewrite !elem_of_cons, elem_of_nil.
  intros [-> |[-> |[-> |[-> |[-> |[-> |[-> |[-> |[]]]]]]]]]; by apply (bool_decide_unpack _).
Qed.

Lemma send_parts_loop_at l fuel r :
  Forall size_ok l → (length l < fuel)%nat →
  send_parts_loop fuel (concat (bt_serialize_string <$> l) ++ "e"%byte :: r) = (Ok l, "e"%byte :: r).
Proof.
  intros H. revert fuel. induction H as [|x l Hx H IH]; intros [|fuel] Hf; cbn [length] in Hf; try lia; [done|].
  cbn [send_parts_loop]. rewrite fmap_cons. cbn [concat]. rewrite <-app_assoc.
  set (rest := concat (bt_serialize_string <$> l) ++ _). destruct (bt_serialize_string_head x) as (a & b & q & E & Ha).
  rewrite (bind_Ok is_finished _ _ false (bt_serialize_string x ++ rest)).
  - rewrite (bind_Ok _ _ _ x rest) by (by apply consume_string_view_Ok, bt_deserialize_serialize_string).
    subst rest. rewrite (bind_Ok _ _ _ l ("e"%byte :: r)); [done|]. apply IH. lia.
  - rewrite E. cbn [app]. unfold is_finished. rewrite (bind_Ok front _ _ a (a :: b :: q ++ rest)) by done.
    by rewrite bool_decide_eq_false_2 by by apply digit_not_e.
Qed.

Lemma build_send_parts_encode l rt :
  Forall size_ok l → build_send_parts (encode_parts l) rt = Ok (if bool_decide (rt = []) then l else rt :: l).
Proof.
  intros H. unfold build_send_parts, encode_parts. rewrite send_parts_loop_at; [done|done|].
  rewrite length_app. assert (length l <= length (concat (bt_serialize_string <$> l)))%nat; [|cbn; lia].
  clear H. induction l as [|x l IH]; [done|]. rewrite fmap_cons. cbn [concat length]. rewrite length_app.
  destruct (bt_serialize_string_head x) as (a & b & q & -> & _). cbn [length]. lia.
Qed.

(** The parts a list of options appends, all of legal size. *)
Lemma parts_size os : Forall send_opt_ok os → Forall size_ok (os ≫= parts_of).
Proof.
  intros H. induction H as [|o os Ho H IH]; [constructor|]. cbn [mbind list_bind]. apply Forall_app. split; [|done].
  destruct o; cbn [parts_of]; try constructor; try done; constructor.
Qed.

Lemma send_roundtrip_ok to cmd opts :
  dest_ok to → size_ok cmd → Forall send_opt_ok (flatten opts) →
  unpack parse_send (send_control_data to cmd opts)
  = Ok (send_meaning to None (encode_parts (cmd :: (flatten opts ≫= parts_of))) opts).
Proof.
  intros Hto Hcmd Hok. destruct (build_send_ok to cmd opts Hto Hcmd Hok) as (ps & HD & Hs & Eps & Hc & Hr & Hf).
  unfold send_control_data. rewrite <-(encode_parts_eq _ _ Eps). apply parse_send_meaning; try done.
  - intros k Hk. by apply Hf, option_keys_apart.
  - rewrite Hf by by apply (bool_decide_unpack _). apply no_field. by intros [].
Qed.

Lemma request_roundtrip_ok tag to cmd f opts :
  dest_ok to → size_ok cmd → size_ok tag → ptr_ok f → Forall send_opt_ok (flatten opts) →
  unpack parse_send (request_control_data tag to cmd f opts)
  = Ok (send_meaning to (Some (f, tag)) (encode_parts (cmd :: tag :: (flatten opts ≫= parts_of))) opts).
Proof.
  intros Hto Hcmd Htag Hptr Hok.
  destruct (build_send_ok to cmd (so_part tag :: opts) Hto Hcmd) as (ps & HD & Hs & Eps & Hc & Hr & Hf).
  { by apply Forall_cons_2. }
  change (flatten (so_part tag :: opts)) with (so_part tag :: flatten opts) in *.
  change ((so_part tag :: flatten opts) ≫= parts_of) with (tag :: (flatten opts ≫= parts_of)) in Eps.
  unfold request_control_data. rewrite <-(encode_parts_eq _ _ Eps). unfold request_dict.
  set (D := build_send to cmd (so_part tag :: opts)) in *. apply parse_send_meaning; try done.
  - auto 10 with control.
  - by rewrite !map_find_assign.
  - unfold names_conn in *. by rewrite !map_find_assign.
  - by rewrite !map_find_assign.
  - intros k Hk. rewrite !map_find_assign, <-Hf by by apply option_keys_apart.
    unfold option_keys in Hk. rewrite !elem_of_cons, elem_of_nil in Hk.
    by destruct Hk as [-> |[-> |[-> |[-> |[-> |[-> |[-> |[-> |[]]]]]]]]].
  - by rewrite !map_find_assign.
  - by rewrite !map_find_assign.
Qed.

(** ** Connecting and disconnecting *)
Definition connect_opt_ok (o : connect_opt) : Prop :=
  match o with
  | co_timeout t | co_keep_alive t | co_time t => time_ok t
  | co_hint h | co_string h => size_ok h
  | _ => True
  end.

Lemma apply_connect_options remote opts D :
  foldl (apply_connect_option remote) D opts = foldl (write_with (connect_field remote)) D opts.
Proof.
  revert D. induction opts as [|o opts IH]; intros D; [done|]. cbn [foldl]. rewrite IH. f_equal.
  by destruct o, remote.
Qed.

Lemma dict_ok_connect remote os D : Forall connect_opt_ok os → dict_ok D → dict_ok (foldl (write_with (connect_field remote)) D os).
Proof.
  intros H. revert D. induction H as [|o os Ho H IH]; intros D HD; [done|]. cbn [foldl]. apply IH.
  assert (∀ a, bt_encodable (bt_of_int c_int (auth_val a))) by (intros []; by vm_compute).
  unfold write_with. destruct o, remote; cbn [connect_field] in *; auto with control.
Qed.

Definition sel_auth (o : connect_opt) := match o with co_auth a => Some (auth_val a) | _ => None end.
Definition sel_rid (o : connect_opt) := match o with co_ephemeral_routing_id b => Some b | _ => None end.
Definition sel_timeout (o : connect_opt) := match o with co_timeout t | co_time t => Some t | _ => None end.
Definition sel_idle (o : connect_opt) := match o with co_keep_alive t | co_time t => Some t | _ => None end.
Definition sel_address (o : connect_opt) := match o with co_hint h | co_string h => Some h | _ => None end.

Definition connect_remote_meaning (eph : bool) (remote : address) (on_connect on_failure : callback) (n : Z)
    (opts : list connect_opt) : connect_remote_args :=
  mkConnectRemote (default (auth_val none) (last_of sel_auth opts)) n (Some on_connect) (default eph (last_of sel_rid opts))
    (Some on_failure) (if curve remote then pubkey remote else []) (zmq_address remote)
    (default REMOTE_CONNECT_TIMEOUT (last_of sel_timeout opts)).

Definition connect_sn_meaning (eph : bool) (pubkey : bytes) (opts : list connect_opt) : connect_sn_args :=
  mkConnectSn (default eph (last_of sel_rid opts)) (default [] (last_of sel_address opts)) false
    (Some (default DEFAULT_CONNECT_SN_KEEP_ALIVE (last_of sel_idle opts))) false false pubkey.

(** Reads of a field whose entry is known. *)
Lemma readable_known {A} D k (f : bt_value → option A) v a : map_find k D = Some v → f v = Some a → readable D k f.
Proof. intros H Hf v'. rewrite H. intros [= <-]. by exists a. Qed.
Lemma readable_none {A} D k (f : bt_value → option A) : map_find k D = None → readable D k f.
Proof. intros H v. by rewrite H. Qed.

Lemma as_int_signed t z : it_range t z → - 2 ^ 63 < z < 2 ^ 63 → as_int t (bt_int64 z) = Some z.
Proof. unfold it_range, as_int. intros H _. by destruct (_ && _) eqn:E; [|lia]. Qed.

Lemma option_or_none {A} (o : option A) : match o with Some a => Some a | None => None end = o.
Proof. by destruct o. Qed.

Lemma connect_remote_ok eph remote on_connect on_failure n opts :
  - 2 ^ 63 < n < 2 ^ 63 → ptr_ok on_connect → ptr_ok on_failure → Forall connect_opt_ok opts →
  (curve remote = true → length (pubkey remote) = 32%nat) → size_ok (zmq_address remote) →
  unpack (parse_connect_remote eph) (connect_remote remote on_connect on_failure n opts).2
  = Ok (connect_remote_meaning eph remote on_connect on_failure n opts).
Proof.
  intros Hn Hc Hf Hok Hpk Hza. cbn [connect_remote snd]. unfold connect_remote_dict. rewrite apply_connect_options.
  rewrite bt_signed_eq by done. set (D0 := foldl _ [] opts). cbv zeta. set (D := map_assign (B "remote") _ _).
  assert (size_ok (pubkey remote) ∨ curve remote = false) as Hps.
  { destruct (curve remote); [left|by right]. unfold size_ok. rewrite Hpk by done. lia. }
  assert (dict_ok D) as HD.
  { assert (dict_ok D0) by (apply dict_ok_connect; auto with control).
    assert (bt_encodable (bt_int64 n)) by by apply encodable_int64. subst D.
    destruct (curve remote); [destruct Hps; [|done]|]; auto 10 with control. }
  assert (∀ k, k ∈ [B "auth_level"; B "ephemeral_rid"; B "timeout"] → map_find k D = map_find k D0) as HD0.
  { intros k Hk. subst D. rewrite !elem_of_cons, elem_of_nil in Hk.
    destruct (curve remote), Hk as [-> |[-> |[-> |[]]]]; by rewrite !map_find_assign. }
  destruct (field_read (connect_field true) connect_opt_ok D [] (B "auth_level") sel_auth (as_int c_int) None opts) as [E1 R1];
    [solve [read_back]|done|done|done|apply HD0; set_solver|].
  destruct (field_read (connect_field true) connect_opt_ok D [] (B "ephemeral_rid") sel_rid as_bool None opts) as [E2 R2];
    [solve [read_back]|done|done|done|apply HD0; set_solver|].
  destruct (field_read (connect_field true) connect_opt_ok D [] (B "timeout") sel_timeout as_ms None opts) as [E3 R3];
    [solve [read_back]|done|done|done|apply HD0; set_solver|].
  assert (map_find (B "conn_id") D = Some (bt_int64 n)) as E4 by (subst D; destruct (curve remote); by rewrite !map_find_assign).
  assert (map_find (B "connect") D = Some (bt_ptr on_connect)) as E5 by (subst D; destruct (curve remote); by rewrite !map_find_assign).
  assert (map_find (B "failure") D = Some (bt_ptr on_failure)) as E6 by (subst D; destruct (curve remote); by rewrite !map_find_assign).
  assert (map_find (B "remote") D = Some (bt_string (zmq_address remote))) as E7 by (subst D; by rewrite map_find_assign).
  assert (map_find (B "pubkey") D = if curve remote then Some (bt_string (pubkey remote)) else None) as E8.
  { subst D. destruct (curve remote); rewrite !map_find_assign; [done|]. cbn. apply (no_field (connect_field true) _ opts []). by intros []. }
  assert (it_range int64_t n) as Hr by (unfold it_range, it_min, it_max; cbn [it_signed it_bits int64_t]; lia).
  pose proof (readable_known D _ (as_int int64_t) _ n E4 (as_int_signed _ _ Hr Hn)) as R4.
  pose proof (readable_known D _ as_ptr _ _ E5 (as_ptr_bt _ Hc)) as R5.
  pose proof (readable_known D _ as_ptr _ _ E6 (as_ptr_bt _ Hf)) as R6.
  pose proof (readable_known D _ as_string _ _ E7 eq_refl) as R7.
  assert (readable D (B "pubkey") as_string) as R8 by (intros v; rewrite E8; destruct (curve remote); [intros [= <-]; by eexists|done]).
  destruct HD as [HDs HDe]. destruct (cursor_start D HDs HDe) as (st & E & Hcur). unfold unpack. rewrite E. cbn [mbind outcome_bind].
  unfold parse_connect_remote. assert (it_ok c_int) by done. assert (it_ok int64_t) by done. do 6 next_field.
  rewrite (bind_Ok (check_pubkey _) _ _ tt st5).
  2:{ rewrite E8. destruct (curve remote) eqn:Ec; cbn [mbind option_bind as_string check_pubkey]; [rewrite Hpk by done|]; reflexivity. }
  do 2 next_field. unfold mret, M_ret. cbn [fst]. rewrite E1, E2, E3, E4, E5, E6, E7, E8. cbn [mbind option_bind].
  rewrite !option_or_none, (as_int_signed _ _ Hr Hn), !as_ptr_bt by done. unfold connect_remote_meaning. by destruct (curve remote).
Qed.

Lemma connect_sn_ok eph pubkey opts :
  size_ok pubkey → Forall connect_opt_ok opts →
  unpack (parse_connect_sn eph) (connect_sn eph pubkey opts).2 = Ok (connect_sn_meaning eph pubkey opts).
Proof.
  intros Hpk Hok. cbn [connect_sn snd]. unfold connect_sn_dict. rewrite apply_connect_options.
  set (D0 := [_; _]). set (D := map_assign _ _ _).
  assert (dict_ok D) as HD.
  { assert (dict_ok D0); [|subst D; auto using dict_ok_connect with control].
    split; [done|]. repeat apply Forall_cons_2; [split; [done|apply encodable_bool]|split; [done|by apply encodable_count]|by apply Forall_nil_2]. }
  assert (∀ k, k ≠ B "pubkey" → map_find k D = map_find k (foldl (write_with (connect_field false)) D0 opts)) as HD0.
  { intros k Hk. subst D. rewrite map_find_assign. destruct (bytes_eqb (B "pubkey") k) eqn:Eb; [by apply bytes_eqb_eq in Eb|done]. }
  destruct (field_read (connect_field false) connect_opt_ok D D0 (B "ephemeral_rid") sel_rid as_bool (Some eph) opts)
    as [E1 R1]; [solve [read_back]|done|apply as_bool_bt|by intros v [= <-]; rewrite as_bool_bt|by apply HD0|].
  destruct (field_read (connect_field false) connect_opt_ok D D0 (B "hint") sel_address as_string None opts)
    as [E2 R2]; [solve [read_back]|done|done|done|by apply HD0|].
  destruct (field_read (connect_field false) connect_opt_ok D D0 (B "keep_alive") sel_idle as_ms (Some DEFAULT_CONNECT_SN_KEEP_ALIVE) opts)
    as [E3 R3]; [solve [read_back]|done|done|by intros v [= <-]|by apply HD0|].
  assert (∀ k, k ∈ [B "incoming"; B "optional"; B "outgoing_only"] → map_find k D = None) as Hno.
  { intros k Hk. rewrite !elem_of_cons, elem_of_nil in Hk.
    destruct Hk as [-> |[-> |[-> |[]]]]; rewrite HD0 by done; rewrite (no_field (connect_field false)); try done; by intros []. }
  pose proof (readable_none D _ as_bool (Hno (B "incoming") ltac:(set_solver))) as R4.
  pose proof (readable_none D _ as_bool (Hno (B "optional") ltac:(set_solver))) as R5.
  pose proof (readable_none D _ as_bool (Hno (B "outgoing_only") ltac:(set_solver))) as R6.
  assert (map_find (B "pubkey") D = Some (bt_string_view pubkey)) as E7 by (subst D; by rewrite map_find_assign).
  assert (as_string (bt_string_view pubkey) = Some pubkey) as F7 by done.
  destruct HD as [HDs HDe]. destruct (cursor_start D HDs HDe) as (st & E & Hcur). unfold unpack. rewrite E. cbn [mbind outcome_bind].
  unfold parse_connect_sn. do 7 next_field. unfold mret, M_ret. cbn [fst]. rewrite E1, E2, E3.
  rewrite (Hno (B "incoming")), (Hno (B "optional")), (Hno (B "outgoing_only")) by set_solver.
  rewrite option_or_none. unfold connect_sn_meaning. by destruct (last_of sel_rid opts), (last_of sel_idle opts).
Qed.

Lemma disconnect_ok c linger :
  - 2 ^ 63 < id c < 2 ^ 63 → - 2 ^ 63 < linger < 2 ^ 63 → size_ok (pk c) → (sn c = true → length (pk c) = 32%nat) →
  unpack parse_disconnect (disconnect c linger) = Ok (mkConn (id c) (pk c) [], linger).
Proof.
  intros Hi Hl Hp Hs. unfold disconnect. set (D := disconnect_dict c linger).
  assert (dict_ok D) as [HDs HDe].
  { split; [done|]. unfold D, disconnect_dict, bt_count.
    repeat apply Forall_cons_2; [split; [done|by apply encodable_signed]..|split; [done|by apply encodable_string]|by apply Forall_nil_2]. }
  assert (∀ z, - 2 ^ 63 < z < 2 ^ 63 → as_int int64_t (bt_of_int int64_t z) = Some z) as Hz.
  { intros z Hz. rewrite bt_signed_eq by done. apply as_int_signed; [|done].
    unfold it_range, it_min, it_max. cbn [it_signed it_bits int64_t]. lia. }
  pose proof (readable_known D (B "conn_id") (as_int int64_t) _ (id c) eq_refl (Hz _ Hi)) as R1.
  pose proof (readable_known D (B "linger_ms") (as_int int64_t) _ linger eq_refl (Hz _ Hl)) as R2.
  pose proof (readable_known D (B "pubkey") as_string _ (pk c) eq_refl eq_refl) as R3.
  destruct (cursor_start D HDs HDe) as (st & E & Hcur). unfold unpack. rewrite E. cbn [mbind outcome_bind].
  unfold parse_disconnect. assert (it_ok int64_t) by done. do 3 next_field.
  change (map_find (B "conn_id") D) with (Some (bt_of_int int64_t (id c))).
  change (map_find (B "linger_ms") D) with (Some (bt_count linger)).
  change (map_find (B "pubkey") D) with (Some (bt_string (pk c))). unfold bt_count. cbn [mbind option_bind]. rewrite !Hz by done.
  cbn [as_string from_option Datatypes.id]. cbv zeta. unfold sn in *. cbn [id pk].
  destruct (id c =? SN_ID) eqn:Ei; [rewrite Hs by done|]; reflexivity.
Qed.

Lemma timer_ok timer_id job interval squelch thread :
  - 2 ^ 31 <= timer_id < 2 ^ 31 → ptr_ok job → time_ok interval → - 2 ^ 31 <= default 0 thread < 2 ^ 31 →
  parse_timer (timer_control_data timer_id job interval squelch thread)
  = Ok (mkTimerArgs timer_id job interval squelch (default 0 thread)).
Proof.
  intros Hid Hj Hi Ht. unfold time_ok, ptr_ok in *. unfold timer_control_data, timer_list, bt_count.
  rewrite !bt_signed_eq, bt_ptr_eq by (done || lia). unfold bt_bool, bt_of_int. cbn [it_signed c_bool].
  replace (it_cast uint64_t (if squelch then 1 else 0)) with (if squelch then 1 else 0) by (by destruct squelch).
  unfold parse_timer. cbn [bt_serialize bt_serialize_list fmap list_fmap concat bt_list_consumer_ctor]. 
  unfold bt_serialize_list. cbn [fmap list_fmap concat bt_serialize]. rewrite <-!app_assoc. cbn [app].
  unfold bt_list_consumer_ctor. rewrite bool_decide_eq_true_2 by done. cbn [negb mbind outcome_bind].
  assert (∀ t z r, it_ok t → it_min t <= z <= it_max t → - 2 ^ 63 < z → consume_integer t (bt_serialize_int z ++ r) = (Ok z, r)) as Hci.
  { intros t z r H1 H2 H3. apply consume_integer_at; [done|done|]. unfold it_min. cbn [it_signed it_bits int64_t]. lia. }
  unfold timer_body.
  rewrite (bind_Ok _ _ _ _ _ (Hci c_int timer_id _ ltac:(done) ltac:(cbn; lia) ltac:(lia))).
  rewrite (bind_Ok _ _ _ _ _ (Hci uintptr_t (Z.of_nat job) _ ltac:(done) ltac:(unfold it_min, it_max; cbn [it_signed it_bits uintptr_t uint64_t]; lia) ltac:(lia))).
  rewrite (bind_Ok _ _ _ _ _ (Hci uint64_t interval _ ltac:(done) ltac:(unfold it_min, it_max; cbn [it_signed it_bits uint64_t]; lia) ltac:(lia))).
  rewrite (bind_Ok _ _ _ _ _ (Hci c_bool (if squelch then 1 else 0) _ ltac:(done) ltac:(by destruct squelch) ltac:(by destruct squelch))).
  rewrite (bind_Ok _ _ _ _ _ (Hci c_int (default 0 thread) _ ltac:(done) ltac:(cbn; lia) ltac:(lia))).
  rewrite (bind_Ok is_finished _ _ true ["e"%byte]) by done. unfold mret, M_ret. cbn [fst]. unfold int_to_ptr.
  rewrite Nat2Z.id, it_cast_id; [by destruct squelch|done|]. unfold it_range, it_min, it_max. cbn [it_signed it_bits int64_t]. lia.
Qed.

(** ** Random strings *)
Lemma length_le_bytes x : length (le_bytes x) = 8%nat.
Proof. done. Qed.

Lemma random_loop_ok fuel rng i size rando :
  (length rando <= size)%nat → (size - length rando < fuel)%nat →
  ∃ r, random_loop fuel rng i size rando = Ok r ∧ length r = size.
Proof.
  revert i rando. induction fuel as [|fuel IH]; intros i rando Hl Hf; [lia|]. cbn [random_loop].
  destruct (length rando <? size)%nat eqn:E; [|exists rando; split; [done|lia]].
  apply IH; rewrite length_app, length_take, length_le_bytes; lia.
Qed.

(** ** Properties *)

(** What [send] puts into its control message is what the proxy acts on: for
    every destination and every sequence of options, unpacking the dictionary gives
    the destination, the last value of each option or its default, no request, and a
    list that yields the command and the data parts in order, after the route if there
    is one. *)
Theorem send_roundtrip to cmd opts rt :
  dest_ok to → size_ok cmd → Forall send_opt_ok (flatten opts) →
  ∃ a, unpack parse_send (send_control_data to cmd opts) = Ok a ∧
    a = send_meaning to None (sa_send a) opts ∧
    build_send_parts (sa_send a) rt
    = Ok ((if bool_decide (rt = []) then [] else [rt]) ++ cmd :: (flatten opts ≫= parts_of)).
Proof.
  intros Hto Hcmd Hok. eexists. split; [by apply send_roundtrip_ok|]. split; [done|].
  unfold send_meaning. cbn [sa_send]. rewrite build_send_parts_encode; [by destruct (bool_decide _)|].
  apply Forall_cons_2; [done|by apply parts_size].
Qed.

Lemma send_roundtrip_witness :
  let to := mkConn 7 [] (B "r") in
  let opts := [so_part (B "x"); so_maybe (Some (so_keep_alive 5)); so_hint (B "h"); so_keep_alive 9; so_data_parts [B "y"; B "z"]] in
  ∃ a, unpack parse_send (send_control_data to (B "c.d") opts) = Ok a ∧ a = send_meaning to None (sa_send a) opts ∧
    build_send_parts (sa_send a) (B "r") = Ok [B "r"; B "c.d"; B "x"; B "y"; B "z"].
Proof.
  intros to opts. apply (send_roundtrip to (B "c.d") opts (B "r")).
  - split_and!; by vm_compute.
  - by vm_compute.
  - repeat first [apply Forall_nil_2 | apply Forall_cons_2]; by vm_compute.
Defined.

(** A [request] reaches the proxy with its callback, its tag and its timeout, and
    the tag is the first data part of the message, where the remote expects it. *)
Theorem request_roundtrip tag to cmd f opts rt :
  dest_ok to → size_ok cmd → size_ok tag → ptr_ok f → Forall send_opt_ok (flatten opts) →
  ∃ a, unpack parse_send (request_control_data tag to cmd f opts) = Ok a ∧
    a = send_meaning to (Some (f, tag)) (sa_send a) opts ∧
    build_send_parts (sa_send a) rt
    = Ok ((if bool_decide (rt = []) then [] else [rt]) ++ cmd :: tag :: (flatten opts ≫= parts_of)).
Proof.
  intros Hto Hcmd Htag Hf Hok. eexists. split; [by apply request_roundtrip_ok|]. split; [done|].
  unfold send_meaning. cbn [sa_send]. rewrite build_send_parts_encode; [by destruct (bool_decide _)|].
  repeat (apply Forall_cons_2; [done|]). by apply parts_size.
Qed.

Lemma request_roundtrip_witness :
  let to := mkConn SN_ID (key32 3) [] in
  let opts := [so_request_timeout 100; so_part (B "x")] in
  ∃ a, unpack parse_send (request_control_data (B "tag") to (B "c.d") 12 opts) = Ok a ∧
    a = send_meaning to (Some (12%nat, B "tag")) (sa_send a) opts ∧
    build_send_parts (sa_send a) [] = Ok [B "c.d"; B "tag"; B "x"].
Proof.
  intros to opts. apply (request_roundtrip (B "tag") to (B "c.d") 12 opts []).
  - split_and!; by vm_compute.
  - by vm_compute.
  - by vm_compute.
  - by vm_compute.
  - repeat first [apply Forall_nil_2 | apply Forall_cons_2]; by vm_compute.
Defined.

(** [connect_remote] and [connect_sn] reach the proxy as they were meant: the
    callbacks, the id, the address and its key, the last value of each option that
    applies (an option of the other kind of connection is ignored) and the documented
    defaults for the rest. *)
Theorem connect_roundtrip eph remote on_connect on_failure n pubkey_ opts :
  - 2 ^ 63 < n < 2 ^ 63 → ptr_ok on_connect → ptr_ok on_failure → Forall connect_opt_ok opts →
  (curve remote = true → length (pubkey remote) = 32%nat) → size_ok (zmq_address remote) → size_ok pubkey_ →
  unpack (parse_connect_remote eph) (connect_remote remote on_connect on_failure n opts).2
    = Ok (connect_remote_meaning eph remote on_connect on_failure n opts) ∧
  unpack (parse_connect_sn eph) (connect_sn eph pubkey_ opts).2 = Ok (connect_sn_meaning eph pubkey_ opts).
Proof. intros. split; [by apply connect_remote_ok|by apply connect_sn_ok]. Qed.

Lemma connect_roundtrip_witness :
  let remote := address_tcp_curve (B "localhost") 4567 (key32 5) in
  let opts := [co_timeout 100; co_auth basic; co_hint (B "h"); co_keep_alive 50; co_time 70] in
  unpack (parse_connect_remote true) (connect_remote remote 3 4 9 opts).2
    = Ok (mkConnectRemote (auth_val basic) 9 (Some 3%nat) true (Some 4%nat) (key32 5) (B "tcp://localhost:4567") 70) ∧
  unpack (parse_connect_sn true) (connect_sn true (key32 6) opts).2
    = Ok (mkConnectSn true (B "h") false (Some 70) false false (key32 6)).
Proof.
  intros remote opts. apply (connect_roundtrip true remote 3 4 9 (key32 6) opts).
  - lia.
  - by vm_compute.
  - by vm_compute.
  - repeat first [apply Forall_nil_2 | apply Forall_cons_2]; by vm_compute.
  - done.
  - by vm_compute.
  - by vm_compute.
Defined.

(** Disconnecting and adding a timer reach the proxy unchanged. *)
Theorem disconnect_timer_roundtrip c linger timer_id job interval squelch thread :
  - 2 ^ 63 < id c < 2 ^ 63 → - 2 ^ 63 < linger < 2 ^ 63 → size_ok (pk c) → (sn c = true → length (pk c) = 32%nat) →
  - 2 ^ 31 <= timer_id < 2 ^ 31 → ptr_ok job → time_ok interval → - 2 ^ 31 <= default 0 thread < 2 ^ 31 →
  unpack parse_disconnect (disconnect c linger) = Ok (mkConn (id c) (pk c) [], linger) ∧
  parse_timer (timer_control_data timer_id job interval squelch thread)
    = Ok (mkTimerArgs timer_id job interval squelch (default 0 thread)).
Proof. intros. split; [by apply disconnect_ok|by apply timer_ok]. Qed.

Lemma disconnect_timer_roundtrip_witness :
  unpack parse_disconnect (disconnect (mkConn 4 [] (B "r")) 1000) = Ok (mkConn 4 [] [], 1000) ∧
  parse_timer (timer_control_data 3 8 250 true (Some 2)) = Ok (mkTimerArgs 3 8 250 true 2).
Proof. apply (disconnect_timer_roundtrip (mkConn 4 [] (B "r")) 1000 3 8 250 true (Some 2)); try (by vm_compute); cbn; lia. Defined.

(** A send or reply command whose destination is not exactly one of [conn_id] and
    [conn_pubkey], or whose [conn_id] is -1, is refused with [std::runtime_error]. *)
Theorem send_destination_checked D :
  dict_ok D → readable D (B "conn_id") (as_int int64_t) →
  map_find (B "conn_id") D ≫= as_int int64_t = Some (-1) ∨
  (is_Some (map_find (B "conn_id") D) ↔ is_Some (map_find (B "conn_pubkey") D)) →
  unpack parse_send (bt_serialize (bt_dict D)) = Throw runtime_error ∧
  unpack parse_reply (bt_serialize (bt_dict D)) = Throw runtime_error.
Proof.
  intros [Hs Hok] Hr Hbad. destruct (cursor_start D Hs Hok) as (st & E & Hc). unfold unpack. rewrite E. cbn [mbind outcome_bind].
  assert ((read_conn st).1 = Throw runtime_error) as Hc'.
  { unfold read_conn. assert (it_ok int64_t) by done. next_field.
    destruct (bool_decide _) eqn:Eb; [done|]. apply bool_decide_eq_false in Eb.
    destruct (skip_until_cursor D _ (B "conn_pubkey") _ Hc0) as (st' & d & E2 & _); [vm_compute; reflexivity|discriminate|].
    rewrite (bind_Ok _ _ _ _ _ E2). destruct Hbad as [Hbad|Hbad]; [done|].
    destruct (map_find (B "conn_id") D) as [v|] eqn:Ev, (map_find (B "conn_pubkey") D) as [w|] eqn:Ew.
    - rewrite bool_decide_eq_true_2 by eauto. destruct (Hr v Ev) as [z Hz]. cbn. by rewrite Hz.
    - destruct Hbad as [Hbad _]. by destruct Hbad; [eauto|].
    - destruct Hbad as [_ Hbad]. by destruct Hbad; [eauto|].
    - rewrite bool_decide_eq_false_2 by (by intros []). done. }
  unfold parse_send, parse_reply. unfold mbind, M_bind. destruct (read_conn st) as [[] st1]; cbn in Hc'; try done. by injection Hc' as ->.
Qed.

Lemma send_destination_checked_witness :
  let D := [(B "conn_id", bt_int64 3); (B "conn_pubkey", bt_string (key32 1)); (B "send", bt_list [])] in
  unpack parse_send (bt_serialize (bt_dict D)) = Throw runtime_error ∧
  unpack parse_reply (bt_serialize (bt_dict D)) = Throw runtime_error.
Proof.
  intros D. apply (send_destination_checked D).
  - split; [by vm_compute|]. unfold entries_ok, D. repeat first [apply Forall_nil_2 | apply Forall_cons_2 | split]; vm_compute; done.
  - intros v [= <-]. by eexists.
  - right. vm_compute. split; by eexists.
Defined.

(** [make_random_string(size)] ends and gives exactly [size] bytes, whatever the
    generator. *)
Theorem random_string_size rng size : ∃ r, make_random_string rng size = Ok r ∧ length r = size.
Proof. apply random_loop_ok; cbn; lia. Qed.

(** A negative time is accepted by the client and refused by the proxy, outside of
    any [try]. *)
Example negative_keep_alive :
  unpack parse_send (send_control_data (conn_of_id 5) (B "a.b") [so_keep_alive (-1)]) = Throw bt_deserialize_invalid.
Proof. vm_compute. reflexivity. Qed.
