(* ===== verification/Auth.v ===== *)
(** auth.cpp, arqmamq.cpp: the access check of incoming commands, the ZAP
    handler that authenticates incoming connections, and the metadata by which a
    connection's key and level reach the command check. *)
From S2P Require Import Prelude Hex BtValue BtSerialize BtCodec Commands Connections.
Open Scope Z_scope.

(** ** [proxy_check_auth] *)

(** What [get_command] found: the category and whether the command is a request. *)
Definition cat_call : Type := option (category * bool).

Definition check_auth_error (local_service_node : bool) (peer : peer_info) (call : cat_call)
    (data : list bytes) : option bytes :=
  match call with
  | None => Some (B "UNKNOWNCOMMAND")
  | Some (cat, is_request) =>
      if auth_val (auth_level peer) <? auth_val (auth (access cat)) then Some (B "FORBIDDEN")
      else if local_sn (access cat) && negb local_service_node then Some (B "NOT_A_SERVICE_NODE")
      else if remote_sn (access cat) && negb (service_node peer) then Some (B "FORBIDDEN_SN")
      else if is_request && bool_decide (data = []) then Some (B "NO_REPLY_TAG")
      else None
  end.

(** The parts of the error message: a route for incoming connections, the error,
    then the reply tag of a request or the command. *)
Definition auth_error_message (outgoing_conn : bool) (peer : peer_info) (cmd : bytes) (call : cat_call)
    (data : list bytes) (reply : bytes) : list bytes :=
  (if outgoing_conn then [] else [peer_route peer]) ++ [reply] ++
  match call, data with
  | Some (_, true), tag :: _ => [B "REPLY"; tag]
  | _, _ => [cmd]
  end.

(** [None]: allowed; [Some parts]: refused, and [parts] sent to the peer. *)
Definition proxy_check_auth (local_service_node outgoing_conn : bool) (peer : peer_info) (cmd : bytes)
    (call : cat_call) (data : list bytes) : option (list bytes) :=
  auth_error_message outgoing_conn peer cmd call data <$>
    check_auth_error local_service_node peer call data.

(** proxy.cpp: the replies the other end recognises as errors. *)
Definition is_error_response (cmd : bytes) : bool :=
  bytes_eqb cmd (B "FORBIDDEN") || bytes_eqb cmd (B "FORBIDDEN_SN") || bytes_eqb cmd (B "NOT_A_SERVICE_NODE")
  || bytes_eqb cmd (B "UNKNOWNCOMMAND") || bytes_eqb cmd (B "NO_REPLY_TAG").

(** ** ZAP *)
Definition u32_be (n : Z) : bytes :=
  (λ i, z2b (Z.land (Z.shiftr n i) 255)) <$> [24; 16; 8; 0].

(** The [assert] on the key is an abort. *)
Definition zmtp_metadata (key value : bytes) : outcome bytes :=
  if (2 <? length key)%nat && (length key <=? 255)%nat && is_prefix (B "X-") key
  then Ok (z2b (Z.of_nat (length key)) :: key ++ u32_be (Z.of_nat (length value)) ++ value)
  else UB.

(** A listening address as ZAP sees it; [allow] is the user's [AllowFunc], which may
    return any value of the enum's underlying type. *)
Record zap_bind : Type := mkZapBind { zb_curve : bool; zb_allow : bytes → bytes → bool → Z }.

Definition auth_of_val (v : Z) : option AuthLevel :=
  if v =? 0 then Some denied else if v =? 1 then Some none else if v =? 2 then Some basic
  else if v =? 3 then Some admin else None.

Definition level_string (v : Z) : bytes :=
  match auth_of_val v with Some a => to_string a | None => B "(unknown)" end.

Definition zap_frame (frames : list bytes) (i : nat) : bytes := default [] (frames !! i).

(** [bt_deserialize<size_t>] of the domain; any exception leaves [(size_t) -1]. *)
Definition zap_bind_id (domain : bytes) : Z :=
  match bt_deserialize_int uint64_t domain with
  | (Ok n, _) => n
  | _ => 2 ^ 64 - 1
  end.

Definition zap_response (rid code text user metadata : bytes) : list bytes :=
  [B "1.0"; rid; code; text; user; metadata].

(** The mechanism and frame count the bound address requires. *)
Definition zap_mechanism_ok (b : zap_bind) (frames : list bytes) : bool :=
  if zb_curve b then (length frames =? 7)%nat && bytes_eqb (zap_frame frames 5) (B "CURVE")
  else (length frames =? 6)%nat && bytes_eqb (zap_frame frames 5) (B "NULL").

Definition zap_accept (active : gset bytes) (b : zap_bind) (rid : bytes) (frames : list bytes) : outcome (list bytes) :=
  let ip := zap_frame frames 3 in
  let pubkey := if zb_curve b then zap_frame frames 6 else [] in
  let is_sn := zb_curve b && bool_decide (pubkey ∈ active) in
  let level := zb_allow b ip pubkey is_sn in
  let user_id := if zb_curve b then to_hex pubkey else [] in
  if (level <=? auth_val denied) || (auth_val admin <? level)
  then Ok (zap_response rid (B "400") (B "Access denied") [] [])
  else metadata ← zmtp_metadata (B "X-AuthLevel") (level_string level);
       Ok (zap_response rid (B "200") [] user_id metadata).

(** One iteration of [process_zap_requests]: the reply to the request [frames]. *)
Definition process_zap_request (binds : list zap_bind) (active : gset bytes) (frames : list bytes) : outcome (list bytes) :=
  let rid := if (2 <=? length frames)%nat then zap_frame frames 1 else [] in
  if (length frames <? 6)%nat || negb (bytes_eqb (zap_frame frames 0) (B "1.0"))
  then Ok (zap_response rid (B "500") (B "Internal error: invalid auth request") [] [])
  else
    let domain := zap_frame frames 2 in
    let bind_id := zap_bind_id domain in
    match (if bind_id <? Z.of_nat (length binds) then binds !! Z.to_nat bind_id else None) with
    | None => Ok (zap_response rid (B "400") (B "Unknown authentication domain: " ++ domain) [] [])
    | Some b =>
        if negb (zap_mechanism_ok b frames)
        then Ok (zap_response rid (B "500") (B "Invalid authentication request mechanism") [] [])
        else if zb_curve b && negb (length (zap_frame frames 6) =? 32)%nat
        then Ok (zap_response rid (B "500") (B "Invalid public key size for CURVE authentication") [] [])
        else zap_accept active b rid frames
    end.

(** ** [extract_metadata]

    [user_id] and [x_auth] are the message's [User-Id] and [X-AuthLevel] properties;
    [gets] throws when there is none, which the handlers swallow. *)
Definition extract_metadata (user_id x_auth : option bytes) : outcome (bytes * AuthLevel) :=
  pubkey ← match user_id with
           | Some hex =>
               if negb (length hex =? 64)%nat then Ok []
               else if negb (is_hex hex) then UB
               else from_hex hex
           | None => Ok []
           end;
  Ok (pubkey, match x_auth with Some a => auth_from_string a | None => none end).

(** The peer record of an incoming message (proxy_to_worker). *)
Definition incoming_peer (active : gset bytes) (index : nat) (rt : bytes) (user_id x_auth : option bytes) : outcome peer_info :=
  '(pubkey, level) ← extract_metadata user_id x_auth;
  Ok (mkPeer pubkey (bool_decide (length pubkey = 32%nat) && bool_decide (pubkey ∈ active)) level index rt 0 0).

(** ** ZMTP metadata as the peer library reads it

    The wire format of one property (ZMTP 3.0): name size octet, name, four-byte
    value size in network order, value. *)
Definition be_value (s : bytes) : Z := foldl (λ v c, v * 256 + b2z c) 0 s.

Definition zmtp_decode (s : bytes) : option (bytes * bytes) :=
  match s with
  | n :: r =>
      let name := take (Z.to_nat (b2z n)) r in
      let r := drop (Z.to_nat (b2z n)) r in
      let len := Z.to_nat (be_value (take 4 r)) in
      let r := drop 4 r in
      if (length r =? len)%nat then Some (name, r) else None
  | [] => None
  end.

Lemma be_value_u32 n : 0 <= n < 2 ^ 32 → be_value (u32_be n) = n.
Proof.
  intros Hn. unfold be_value, u32_be. cbn [fmap list_fmap foldl].
  assert (∀ i, 0 <= i → b2z (z2b (Z.land (Z.shiftr n i) 255)) = n / 2 ^ i mod 256) as E.
  { intros i Hi. rewrite b2z_z2b. change 255 with (Z.ones 8). rewrite Z.land_ones, Z.shiftr_div_pow2 by lia.
    change (2 ^ 8) with 256. apply Z.mod_mod. lia. }
  rewrite !E by lia. change (2 ^ 0) with 1. rewrite Z.div_1_r.
  change (2 ^ 24) with (256 * (256 * 256)). change (2 ^ 16) with (256 * 256). change (2 ^ 8) with 256.
  rewrite <-!Z.div_div by lia. change (2 ^ 32) with (256 * (256 * (256 * 256))) in Hn.
  pose proof (Z.div_mod n 256). pose proof (Z.div_mod (n / 256) 256).
  pose proof (Z.div_mod (n / 256 / 256) 256).
  rewrite (Z.mod_small (n / 256 / 256 / 256)); [lia|].
  split; [repeat apply Z.div_pos; lia|]. repeat (apply Z.div_lt_upper_bound; [lia|]). lia.
Qed.

Lemma zmtp_decode_metadata key value s :
  zmtp_metadata key value = Ok s → Z.of_nat (length value) < 2 ^ 32 → zmtp_decode s = Some (key, value).
Proof.
  unfold zmtp_metadata. destruct (_ && _) eqn:E; [|done]. intros Hs Hv.
  assert (s = z2b (Z.of_nat (length key)) :: key ++ u32_be (Z.of_nat (length value)) ++ value) as ->
    by congruence.
  apply andb_true_iff in E as [[_ Hl]%andb_true_iff _]. apply Nat.leb_le in Hl.
  unfold zmtp_decode. cbv zeta. rewrite b2z_z2b_small by lia. rewrite Nat2Z.id.
  rewrite take_app_length, drop_app_length.
  rewrite (take_app_length' (u32_be _) value 4) by done. rewrite (drop_app_length' (u32_be _) value 4) by done.
  rewrite be_value_u32 by lia. rewrite Nat2Z.id. by rewrite Nat.eqb_refl.
Qed.

Lemma auth_of_val_range v : 0 < v <= 3 → ∃ a, auth_of_val v = Some a ∧ auth_val a = v ∧ a ≠ denied.
Proof.
  intros Hv. unfold auth_of_val.
  destruct (decide (v = 1)) as [->|]; [by exists none|]. destruct (decide (v = 2)) as [->|]; [by exists basic|].
  assert (v = 3) as -> by lia. by exists admin.
Qed.

Lemma auth_from_level v a : auth_of_val v = Some a → auth_from_string (level_string v) = a.
Proof. unfold level_string. intros ->. by destruct a. Qed.

(** ** Properties *)

(** C34. The access check lets a command through exactly when it exists, the peer's
    level reaches the category's, the service-node restrictions hold and a request has
    its tag; otherwise the peer is sent an error that its own proxy recognises as one.
    (A command that passes may still be dropped when the queue of its category is full.)
    *)
Theorem check_auth_exact local out peer cmd call data :
  (proxy_check_auth local out peer cmd call data = None ↔
   ∃ cat is_request, call = Some (cat, is_request) ∧
     auth_val (auth (access cat)) <= auth_val (auth_level peer) ∧
     (local_sn (access cat) = true → local = true) ∧
     (remote_sn (access cat) = true → service_node peer = true) ∧
     (is_request = true → data ≠ [])) ∧
  (∀ parts, proxy_check_auth local out peer cmd call data = Some parts →
   ∃ reply, is_error_response reply = true ∧ parts !! (if out then 0 else 1)%nat = Some reply).
Proof.
  unfold proxy_check_auth, check_auth_error. split.
  - destruct call as [[cat is_request]|]; [|split; [done|by intros (? & ? & ? & _)]].
    destruct (_ <? _) eqn:E1; [split; [done|intros (? & ? & [= <- <-] & ? & _); lia]|].
    destruct (local_sn (access cat)) eqn:E2, local; cbn [andb negb];
      try (by split; [|intros (? & ? & [= <- <-] & _ & Hx & _); rewrite E2 in Hx; by specialize (Hx eq_refl)]);
      (destruct (remote_sn (access cat)) eqn:E3, (service_node peer) eqn:E4; cbn [andb negb];
       try (by split; [|intros (? & ? & [= <- <-] & _ & _ & Hx & _); rewrite E3 in Hx; by specialize (Hx eq_refl)]));
      (destruct is_request; cbn [andb]; [case_bool_decide as Hd|]; cbn;
       [by split; [|intros (? & ? & [= <- <-] & _ & _ & _ & Hx); by specialize (Hx eq_refl)]|..];
       (split; [intros _|done]); eexists _, _; (split; [done|]); split_and!; try lia; congruence).
  - intros parts.
    destruct (match call with Some _ => _ | None => _ end) as [reply|] eqn:E; [|done]. intros [= <-].
    exists reply. split; [|by destruct out].
    destruct call as [[cat is_request]|]; [|by injection E as <-].
    repeat case_match; simplify_eq; done.
Qed.

Lemma zap_response_lookup rid code text user metadata :
  zap_response rid code text user metadata !! 2%nat = Some code ∧
  zap_response rid code text user metadata !! 4%nat = Some user ∧
  zap_response rid code text user metadata !! 5%nat = Some metadata.
Proof. done. Qed.

Lemma zap_accept_cases active b rid frames :
  let pubkey := if zb_curve b then zap_frame frames 6 else [] in
  let level := zb_allow b (zap_frame frames 3) pubkey (zb_curve b && bool_decide (pubkey ∈ active)) in
  (¬ (0 < level <= 3) ∧ zap_accept active b rid frames = Ok (zap_response rid (B "400") (B "Access denied") [] [])) ∨
  ∃ a metadata, auth_val a = level ∧ a ≠ denied ∧
    zmtp_decode metadata = Some (B "X-AuthLevel", to_string a) ∧
    zap_accept active b rid frames
    = Ok (zap_response rid (B "200") [] (if zb_curve b then to_hex pubkey else []) metadata).
Proof.
  intros pubkey level. unfold zap_accept. fold pubkey. fold level.
  change (auth_val denied) with 0. change (auth_val admin) with 3. cbv zeta.
  destruct (_ || _) eqn:E; [left; split; [lia|done]|right].
  destruct (auth_of_val_range level ltac:(lia)) as (a & Ea & Hv & Hne).
  assert (level_string level = to_string a) as Els by (unfold level_string; by rewrite Ea). rewrite Els.
  destruct (zmtp_metadata (B "X-AuthLevel") (to_string a)) as [m|e| |] eqn:Em.
  - exists a, m. split_and!; [done|done| |done]. by eapply zmtp_decode_metadata; [|destruct a].
  - unfold zmtp_metadata in Em. by destruct a.
  - unfold zmtp_metadata in Em. by destruct a.
  - unfold zmtp_metadata in Em. by destruct a.
Qed.

(** Every ZAP request gets a six-frame reply with the protocol version and the
    request's id, and is accepted (status 200) only if its domain is a bound
    address, it uses that address's mechanism, a curve key has 32 bytes and the
    address's [AllowFunc] returned a level from [none] to [admin]. *)
Theorem zap_reply binds active frames :
  ∃ rid code text user metadata,
    process_zap_request binds active frames = Ok (zap_response rid code text user metadata) ∧
    ((2 <= length frames)%nat → rid = zap_frame frames 1) ∧
    (code = B "200" → ∃ b i,
      binds !! i = Some b ∧ zap_mechanism_ok b frames = true ∧
      (zb_curve b = true → length (zap_frame frames 6) = 32%nat) ∧
      let pubkey := if zb_curve b then zap_frame frames 6 else [] in
      1 <= zb_allow b (zap_frame frames 3) pubkey (zb_curve b && bool_decide (pubkey ∈ active)) <= 3).
Proof.
  unfold process_zap_request. cbv zeta. set (rid := if (2 <=? length frames)%nat then _ else _).
  assert ((2 <= length frames)%nat → rid = zap_frame frames 1) as Hrid.
  { intros H. unfold rid. by replace (2 <=? length frames)%nat with true by lia. }
  destruct (_ || _); [eexists rid, _, _, _, _; by split_and!|].
  destruct (if zap_bind_id (zap_frame frames 2) <? Z.of_nat (length binds)
            then binds !! Z.to_nat (zap_bind_id (zap_frame frames 2)) else None) as [b|] eqn:Eb;
    [|eexists rid, _, _, _, _; by split_and!].
  destruct (zap_mechanism_ok b frames) eqn:Em; cbn [negb]; [|eexists rid, _, _, _, _; by split_and!].
  destruct (zb_curve b && _) eqn:Ek; [eexists rid, _, _, _, _; by split_and!|].
  destruct (zap_accept_cases active b rid frames) as [[Hl ->]|(a & m & Ha & Hne & _ & ->)];
    [eexists rid, _, _, _, _; by split_and!|].
  eexists rid, _, _, _, _. split_and!; [done|done|]. intros _.
  destruct (zap_bind_id (zap_frame frames 2) <? _); [|done].
  exists b, (Z.to_nat (zap_bind_id (zap_frame frames 2))). split_and!; [done|done| | |].
  - intros Hc. rewrite Hc in Ek. cbn in Ek. lia.
  - rewrite <-Ha. destruct a; cbn; try lia. done.
  - rewrite <-Ha. destruct a; cbn; lia.
Qed.

(** C36. The identity of an accepted curve connection reaches the command check
    unchanged: from the user id and the metadata of the reply, [extract_metadata]
    recovers the 32-byte key and the level the [AllowFunc] granted, and the peer is a
    service node exactly when its key is in the active set. *)
Theorem zap_identity_roundtrip active b rid frames resp index rt :
  zb_curve b = true → length (zap_frame frames 6) = 32%nat →
  zap_accept active b rid frames = Ok resp → resp !! 2%nat = Some (B "200") →
  ∃ user metadata name level_str peer,
    resp !! 4%nat = Some user ∧ resp !! 5%nat = Some metadata ∧
    zmtp_decode metadata = Some (name, level_str) ∧ name = B "X-AuthLevel" ∧
    incoming_peer active index rt (Some user) (Some level_str) = Ok peer ∧
    peer_pubkey peer = zap_frame frames 6 ∧
    auth_val (auth_level peer)
    = zb_allow b (zap_frame frames 3) (zap_frame frames 6) (bool_decide (zap_frame frames 6 ∈ active)) ∧
    service_node peer = bool_decide (zap_frame frames 6 ∈ active).
Proof.
  intros Hc Hk Hz Hs. pose proof (zap_accept_cases active b rid frames) as H. rewrite Hc in H. cbv zeta in H.
  destruct H as [[_ E]|(a & m & Ha & Hne & Hd & E)]; rewrite E in Hz; injection Hz as <-; [done|].
  set (k := zap_frame frames 6) in *.
  eexists (to_hex k), m, (B "X-AuthLevel"), (to_string a), _. split_and!; [done|done|done|done| | | |].
  - unfold incoming_peer, extract_metadata. rewrite length_to_hex, Hk, is_hex_to_hex, from_hex_to_hex. reflexivity.
  - done.
  - rewrite andb_true_l in Ha. rewrite <-Ha. by destruct a.
  - cbn. by rewrite bool_decide_eq_true_2.
Qed.

Lemma zap_identity_roundtrip_witness :
  let b := mkZapBind true (λ _ _ is_sn, if is_sn then 3 else 1) in
  let frames := [B "1.0"; B "7"; B "i0e"; B "127.0.0.1"; []; B "CURVE"; key32 5] in
  let resp := match zap_accept {[key32 5]} b (B "7") frames with Ok r => r | _ => [] end in
  ∃ user metadata name level_str peer,
    resp !! 4%nat = Some user ∧ resp !! 5%nat = Some metadata ∧
    zmtp_decode metadata = Some (name, level_str) ∧ name = B "X-AuthLevel" ∧
    incoming_peer {[key32 5]} 0 (B "r") (Some user) (Some level_str) = Ok peer ∧
    peer_pubkey peer = key32 5 ∧
    auth_val (auth_level peer) = zb_allow b (B "127.0.0.1") (key32 5) (bool_decide (key32 5 ∈@{gset bytes} {[key32 5]})) ∧
    service_node peer = bool_decide (key32 5 ∈@{gset bytes} {[key32 5]}).
Proof.
  intros b frames resp.
  apply (zap_identity_roundtrip {[key32 5]} b (B "7") frames resp 0 (B "r")).
  - reflexivity.
  - reflexivity.
  - vm_compute. reflexivity.
  - vm_compute. reflexivity.
Defined.
