(* ===== verification/Net.v ===== *)
(** proxy.cpp, connections.cpp, arqmamq-internal.h: the proxy's traffic with peers:
    sending messages and replies, outstanding requests, the built-in commands, the
    periodic cleanup and the requests to connect and disconnect. *)
From S2P Require Import Prelude BtValue BtSerialize BtCodec BtConsumer Commands Connections Control Auth.
Open Scope Z_scope.

(** ** Effects

    The lambdas the handlers schedule, and what else a handler does besides changing
    its tables. *)
Inductive closure : Type :=
  | cl_reply (cb : callback) (success : bool) (data : list bytes)     (* callback(success, data) *)
  | cl_connected (cb : callback) (c : ConnectionID)                   (* on_success(conn) *)
  | cl_connect_failed (cb : callback) (c : ConnectionID)              (* on_failure(conn, what) *)
  | cl_send_failed (cb : callback) (err : option Z)                   (* callback(&error) or callback(nullptr) *)
  | cl_call (cb : callback).                                          (* callback() *)

Inductive effect : Type :=
  | eff_reply_job (c : closure)                       (* proxy_schedule_reply_job *)
  | eff_job (c : closure)                             (* job(): BATCH on the thread's control socket *)
  | eff_message (s : zmq_socket) (parts : list bytes) (* accepted by the socket in full *).

#[export] Instance closure_eq_dec : EqDecision closure.
Proof. solve_decision. Defined.
#[export] Instance socket_type_eq_dec : EqDecision socket_type.
Proof. solve_decision. Defined.
#[export] Instance zmq_socket_eq_dec : EqDecision zmq_socket.
Proof. solve_decision. Defined.
#[export] Instance effect_eq_dec : EqDecision effect.
Proof. solve_decision. Defined.

(** The tables of connections and of requests that wait for a reply: the deadline and
    the callback by tag. *)
Record net : Type := mkNet {
  tables : conns;
  pending_requests : gmap bytes (Z * callback)
}.
Definition with_tables (cs : conns) (n : net) : net := mkNet cs (pending_requests n).
Definition with_requests (r : gmap bytes (Z * callback)) (n : net) : net := mkNet (tables n) r.

(** ** Sending

    [zmq_send i s part more] is what zmq answers to the [i]-th part sent. *)
Inductive send_result : Type := send_done | send_again | send_error (num : Z).
Inductive parts_result : Type := parts_sent | parts_blocked | parts_error (num : Z).

Definition EHOSTUNREACH : Z := 113.

Section send.
Context (zmq_send : nat → zmq_socket → bytes → bool → send_result).
Context (sn_lookup : bytes → bytes) (connect_ok : bytes → bool).

Fixpoint send_message_parts (i : nat) (sock : zmq_socket) (parts : list bytes) : parts_result * nat :=
  match parts with
  | [] => (parts_sent, i)
  | msg :: rest =>
      match zmq_send i sock msg (negb (bool_decide (rest = []))) with
      | send_done => send_message_parts (S i) sock rest
      | send_again => (parts_blocked, S i)
      | send_error num => (parts_error num, S i)
      end
  end.

(** [send_routed_message] and [send_direct_message] without data; an empty [msg] is
    an empty frame. *)
Definition send_routed_message (i : nat) (sock : zmq_socket) (route_ msg : bytes) : outcome (parts_result * nat) :=
  if bool_decide (route_ = []) then UB else Ok (send_message_parts i sock [route_; msg]).
Definition send_direct_message (i : nat) (sock : zmq_socket) (msg : bytes) : parts_result * nat :=
  send_message_parts i sock [msg].

(** The socket to send to: its index, and the identity with the route to use. *)
Definition send_target (a : send_args) (now : Z) (c : ConnectionID) (cs : conns)
    : outcome (option (nat * ConnectionID) * conns) :=
  if sn c then
    r ← proxy_connect_sn sn_lookup connect_ok (pk c) (sa_hint a) (sa_optional a) (sa_incoming a)
          (sa_outgoing a) (sa_keep_alive a) now cs;
    Ok (match r.1 with Some (index, rt) => Some (index, mkConn (id c) (pk c) rt) | None => None end, r.2)
  else if negb (bool_decide (route c = [])) then
    Ok ((λ p : ConnectionID * nat, (p.2, c)) <$> List.find (λ p, conn_eqb p.1 (unrouted c)) (incoming_conn_index cs), cs)
  else Ok ((λ p : ConnectionID * peer_info, (conn_index p.2, c)) <$> List.find (λ p, conn_eqb p.1 c) (peers cs), cs).

(** The peer that is no longer reachable is forgotten.  The result says whether to
    try again.  For a service node the loop over its peers does not advance: unless
    the first one has the route, it never ends. *)
Definition forget_peer (c : ConnectionID) (cs : conns) : outcome (bool * conns) :=
  match list_find (λ p, conn_eqb p.1 c = true) (peers cs) with
  | None => Ok (false, cs)
  | Some (i, (_, p)) =>
      if negb (sn c) then Ok (false, set_peers (delete i (peers cs)) cs)
      else if bytes_eqb (peer_route p) (route c) then Ok (true, set_peers (delete i (peers cs)) cs)
      else Diverge
  end.

(** The [while (retry)] loop.  The result: whether the message was sent, the tables,
    what is left of [callback_nosend], and the effects. *)
Fixpoint send_loop (fuel i : nat) (a : send_args) (now : Z) (c : ConnectionID) (cs : conns)
    : outcome (bool * conns * option callback * list effect) :=
  match fuel with
  | O => Diverge
  | S fuel' =>
      '(target, cs) ← send_target a now c cs;
      match target with
      | None => Ok (false, cs, sa_nosend a, [])
      | Some (index, c) =>
          match connections cs !! index with
          | None => UB
          | Some sock =>
              parts ← build_send_parts (sa_send a) (route c);
              let (res, i) := send_message_parts i sock parts in
              match res with
              | parts_sent => Ok (true, cs, sa_nosend a, [eff_message sock parts])
              | parts_blocked => Ok (false, cs, sa_nosend a, [])
              | parts_error num =>
                  '(retry, cs) ← (if (num =? EHOSTUNREACH) && negb (bool_decide (route c = []))
                                  then forget_peer c cs else Ok (false, cs));
                  if (retry : bool) then send_loop fuel' i a now c cs
                  else Ok (false, cs, None,
                           match sa_nosend a with Some f => [eff_job (cl_send_failed f (Some num))] | None => [] end)
              end
          end
      end
  end.

(** A retry follows the removal of a peer, which bounds their number. *)
Definition proxy_send (a : send_args) (now : Z) (n : net) : outcome (net * list effect) :=
  '(sent, cs, nosend, effs) ← send_loop (S (length (peers (tables n)))) 0 a now (sa_conn a) (tables n);
  let '(reqs, effs) :=
    match sa_request a with
    | None => (pending_requests n, effs)
    | Some (f, tag, timeout) =>
        if (sent : bool) then
          (match pending_requests n !! tag with        (* unordered_map::insert keeps an existing entry *)
           | Some _ => pending_requests n
           | None => <[tag := (now + timeout, f)]> (pending_requests n)
           end, effs)
        else (pending_requests n, effs ++ [eff_job (cl_reply f false [B "TIMEOUT"])])
    end in
  let effs :=
    if sent then effs
    else match nosend, sa_noqueue a with
         | Some f, _ => effs ++ [eff_job (cl_send_failed f None)]
         | None, Some f => effs ++ [eff_job (cl_call f)]
         | None, None => effs
         end in
  Ok (mkNet cs reqs, effs).

(** [proxy_reply]: the peers of the identity, until one takes the message; [pre] are
    the peers passed. *)
Fixpoint reply_loop (i : nat) (c : ConnectionID) (send : bytes) (socks : list zmq_socket)
    (pre rest : list (ConnectionID * peer_info)) : outcome (list (ConnectionID * peer_info) * list effect) :=
  match rest with
  | [] => Ok (pre, [])
  | (c', p) :: rest' =>
      if conn_eqb c' c then
        match socks !! conn_index p with
        | None => UB
        | Some sock =>
            parts ← build_send_parts send (peer_route p);
            let (res, i) := send_message_parts i sock parts in
            match res with
            | parts_sent => Ok (pre ++ rest, [eff_message sock parts])
            | parts_blocked => Ok (pre ++ rest, [])
            | parts_error num =>
                if num =? EHOSTUNREACH then reply_loop i c send socks pre rest'
                else reply_loop i c send socks (pre ++ [(c', p)]) rest'
            end
        end
      else reply_loop i c send socks (pre ++ [(c', p)]) rest'
  end.

Definition proxy_reply (c : ConnectionID) (send : bytes) (n : net) : outcome (net * list effect) :=
  let cs := tables n in
  '(ps, effs) ← reply_loop 0 c send (connections cs) [] (peers cs);
  Ok (with_tables (set_peers ps cs) n, effs).

(** ** Built-in commands *)

(** A request is answered: its callback is scheduled and it is forgotten. *)
Definition answer_request (tag : bytes) (success : bool) (data : list bytes) (n : net) : net * list effect :=
  match pending_requests n !! tag with
  | Some (_, f) => (with_requests (delete tag (pending_requests n)) n, [eff_reply_job (cl_reply f success data)])
  | None => (n, [])
  end.

Definition handle_hello (index : nat) (n : net) : outcome (net * list effect) :=
  let cs := tables n in
  match list_find (λ pc, (pc_index pc =? index)%nat = true) (pending_connects cs) with
  | None => Ok (n, [])
  | Some (i, pc) =>
      match List.find (λ p, conn_eqb p.1 (conn_of_id (pc_conn_id pc))) (peers cs) with
      | None => Ok (n, [])
      | Some _ =>
          match conn_index_to_id cs !! index with
          | None => UB
          | Some conn =>
              Ok (with_tables (mkConns (connections cs) (peers cs) (conn_index_to_id cs) (incoming_conn_index cs)
                    (delete i (pending_connects cs)) (bind cs) (pollitems_stale cs) (active_service_nodes cs)
                    (next_socket cs) (closed cs)) n,
                  [eff_reply_job (cl_connected (pc_success pc) conn)])
          end
      end
  end.

(** [proxy_handle_builtin]: whether the message was a built-in one. *)
Definition proxy_handle_builtin (index : nat) (parts : list bytes) (n : net) : outcome (bool * net * list effect) :=
  match connections (tables n) !! index with
  | None => UB
  | Some sock =>
      let incoming := match sock_type sock with router => 1%nat | dealer => 0%nat end in
      match parts !! incoming with
      | None => Ok (true, n, [])                       (* parts.size() < 1 + incoming *)
      | Some cmd =>
          if bytes_eqb cmd (B "REPLY") then
            match parts !! (1 + incoming)%nat with
            | None => Ok (true, n, [])
            | Some tag =>
                let (n, effs) := answer_request tag true (drop (2 + incoming) parts) n in Ok (true, n, effs)
            end
          else if bytes_eqb cmd (B "HI") then
            if (incoming =? 0)%nat then Ok (true, n, [])
            else
              let route_ := default [] (parts !! 0%nat) in
              '(res, _) ← send_routed_message 0 sock route_ (B "HELLO");
              Ok (true, n, if res is parts_sent then [eff_message sock [route_; B "HELLO"]] else [])
          else if bytes_eqb cmd (B "HELLO") then
            if (incoming =? 1)%nat then Ok (true, n, [])
            else '(n, effs) ← handle_hello index n; Ok (true, n, effs)
          else if bytes_eqb cmd (B "BYE") then
            if (incoming =? 0)%nat then cs ← proxy_close_connection index (linger_ms 0) (tables n); Ok (true, with_tables cs n, [])
            else Ok (true, n, [])
          else if is_error_response cmd then
            if (length parts =? 1 + incoming)%nat && bytes_eqb cmd (B "UNKNOWNCOMMAND") then Ok (true, n, [])
            else if (length parts =? 3 + incoming)%nat && bytes_eqb (default [] (parts !! (1 + incoming)%nat)) (B "REPLY") then
              let (n, effs) := answer_request (default [] (parts !! (2 + incoming)%nat)) false [cmd] n in
              Ok (true, n, effs)
            else Ok (true, n, [])
          else Ok (false, n, [])
      end
  end.

(** ** [proxy_conn_cleanup] *)

(** A connection attempt that timed out: its failure callback is scheduled, the
    element is erased, and then read again to find the connection to close. *)
Fixpoint time_out_connects (now : Z) (pcs : list pending_connect) : outcome unit :=
  match pcs with
  | [] => Ok tt
  | pc :: rest => if pc_timeout pc <? now then UB else time_out_connects now rest
  end.

Definition request_expired (now : Z) (r : bytes * (Z * callback)) : bool := r.2.1 <? now.

Definition time_out_requests (now : Z) (n : net) : net * list effect :=
  (with_requests (filter (λ r, request_expired now r = false) (pending_requests n)) n,
   (λ r, eff_job (cl_reply r.2.2 false [B "TIMEOUT"]))
     <$> filter (λ r, request_expired now r = true) (map_to_list (pending_requests n))).

Definition proxy_conn_cleanup (now : Z) (n : net) : outcome (net * list effect) :=
  cs ← proxy_expire_idle_peers now (tables n);
  _ ← time_out_connects now (pending_connects cs);
  Ok (time_out_requests now (with_tables cs n)).

(** ** Connecting and disconnecting, from the unpacked arguments *)

(** [keep_alive] is not initialised when the key is missing. *)
Definition handle_connect_sn (a : connect_sn_args) (now : Z) (n : net) : outcome (net * list effect) :=
  match cs_keep_alive a with
  | None => UB
  | Some keep_alive =>
      '(_, cs) ← proxy_connect_sn sn_lookup connect_ok (cs_pubkey a) (cs_hint a) (cs_optional a) (cs_incoming a)
                   (cs_outgoing a) keep_alive now (tables n);
      Ok (with_tables cs n, [])
  end.

(** The failure to connect schedules the failure callback; success sends ["HI"].  A
    missing callback is the empty function, number 0; levels other than the
    enumerators are not sent by any client. *)
Definition handle_connect_remote (a : connect_remote_args) (now : Z) (n : net) : outcome (net * list effect) :=
  match auth_of_val (cr_auth_level a) with
  | None => UB
  | Some level =>
      '(ok, cs) ← proxy_connect_remote connect_ok (cr_conn_id a) (cr_remote a) (cr_pubkey a) level
                    (default 0%nat (cr_connect a)) (default 0%nat (cr_failure a)) (cr_timeout a) now (tables n);
      if (ok : bool) then
        let sock := mkSocket (next_socket (tables n)) dealer in
        match (send_direct_message 0 sock (B "HI")).1 with
        | parts_sent => Ok (with_tables cs n, [eff_message sock [B "HI"]])
        | parts_blocked => Ok (with_tables cs n, [])
        | parts_error _ => Throw zmq_error_t
        end
      else Ok (with_tables cs n, [eff_reply_job (cl_connect_failed (default 0%nat (cr_failure a)) (conn_of_id (cr_conn_id a)))])
  end.

Definition handle_disconnect (c : ConnectionID) (linger : Z) (n : net) : outcome (net * list effect) :=
  cs ← proxy_disconnect c (linger_ms linger) (tables n); Ok (with_tables cs n, []).
End send.

(** ** The traffic as a state machine

    What the outside answers while an input is handled: zmq's send results, the
    user's address lookup, whether zmq accepts an address, and the time. *)
Record env : Type := mkEnv {
  env_send : nat → zmq_socket → bytes → bool → send_result;
  env_lookup : bytes → bytes;
  env_connect : bytes → bool;
  env_now : Z
}.

Inductive net_input : Type :=
  | ni_send (a : send_args)
  | ni_reply (c : ConnectionID) (send : bytes)
  | ni_message (index : nat) (parts : list bytes)       (* to [proxy_handle_builtin] *)
  | ni_cleanup
  | ni_connect_sn (a : connect_sn_args)
  | ni_connect_remote (a : connect_remote_args)
  | ni_disconnect (c : ConnectionID) (linger : Z)
  | ni_set_sns (pubkeys : gset bytes)
  | ni_update_sns (added removed : gset bytes).

Definition net_step (e : env) (i : net_input) (n : net) : outcome (net * list effect) :=
  match i with
  | ni_send a => proxy_send (env_send e) (env_lookup e) (env_connect e) a (env_now e) n
  | ni_reply c send => proxy_reply (env_send e) c send n
  | ni_message index parts => x ← proxy_handle_builtin (env_send e) index parts n; Ok (x.1.2, x.2)
  | ni_cleanup => proxy_conn_cleanup (env_now e) n
  | ni_connect_sn a => handle_connect_sn (env_lookup e) (env_connect e) a (env_now e) n
  | ni_connect_remote a => handle_connect_remote (env_send e) (env_connect e) a (env_now e) n
  | ni_disconnect c linger => handle_disconnect c linger n
  | ni_set_sns pubkeys => cs ← proxy_set_active_sns pubkeys (tables n); Ok (with_tables cs n, [])
  | ni_update_sns added removed => cs ← proxy_update_active_sns added removed (tables n); Ok (with_tables cs n, [])
  end.

(** A run: the inputs one after the other, with all their effects. *)
Fixpoint net_run (ins : list (env * net_input)) (n : net) : outcome (net * list effect) :=
  match ins with
  | [] => Ok (n, [])
  | (e, i) :: rest =>
      x ← net_step e i n;
      y ← net_run rest x.1;
      Ok (y.1, x.2 ++ y.2)
  end.
