(* ===== verification/NetInv.v ===== *)
(** The traffic with peers: sending ends and is accounted for, the tables stay
    consistent, and every request is answered exactly once. *)
From S2P Require Import Prelude BtValue BtSerialize BtCodec BtConsumer Commands Connections Control Auth Net.
Open Scope Z_scope.

(** ** The send loop *)
Section send.
Context (zmq_send : nat → zmq_socket → bytes → bool → send_result).
Context (sn_lookup : bytes → bytes) (connect_ok : bytes → bool).

(** A message ready to be sent: its parts are strings, a service node is named by a
    32-byte key. *)
Definition send_args_ok (a : send_args) (parts : list bytes) : Prop :=
  sa_send a = encode_parts parts ∧ Forall size_ok parts ∧ (sn (sa_conn a) = true → key_size (pk (sa_conn a))).

(** The peers reached through a listening socket. *)
Definition incoming_peers (cs : conns) : list (ConnectionID * peer_info) := filter (λ p, outgoing p.2 = false) (peers cs).

Lemma incoming_peers_le cs : (length (incoming_peers cs) <= length (peers cs))%nat.
Proof. unfold incoming_peers. apply length_filter. Qed.

(** What finding the socket does to the tables. *)
Definition target_ok (a : send_args) (c : ConnectionID) (cs cs' : conns) (index : nat) (c' : ConnectionID) : Prop :=
  conns_ok cs' ∧ length (incoming_peers cs') = length (incoming_peers cs) ∧
  (index < length (connections cs'))%nat ∧ id c' = id c ∧ pk c' = pk c ∧
  (sn c = true → sa_incoming a = false → route c' ≠ [] →
   ∃ l1 l2 c0 p, peers cs' = l1 ++ (c0, p) :: l2 ∧ conn_eqb c0 c' = true ∧ peer_route p = route c' ∧
     Forall (λ q, conn_eqb q.1 c' = false) l1).

Lemma conn_eqb_sn a b b' : sn b = true → id b' = id b → pk b' = pk b → conn_eqb a b' = true ↔ conn_eqb a b = true.
Proof.
  intros Hb Hi Hp. rewrite !conn_eqb_key. unfold conn_key.
  assert (sn b' = true) as -> by (unfold sn in *; congruence). by rewrite Hb, Hp.
Qed.

Lemma send_target_ok a now c cs :
  conns_ok cs → (sn c = true → key_size (pk c)) →
  ∃ t cs', send_target sn_lookup connect_ok a now c cs = Ok (t, cs') ∧
    match t with
    | None => conns_ok cs'
    | Some (index, c') => target_ok a c cs cs' index c'
    end.
Proof using.
  intros Hok Hk. unfold send_target. destruct (sn c) eqn:Esn.
  - destruct (connect_sn_cases sn_lookup connect_ok (pk c) (sa_hint a) (sa_optional a) (sa_incoming a) (sa_outgoing a)
      (sa_keep_alive a) now cs (Hk eq_refl)) as (res & cs' & -> & Hc). cbn [mbind outcome_bind fst snd].
    assert (∀ x rt, conn_eqb x (mkConn SN_ID (pk c) []) = true ↔ conn_eqb x (mkConn (id c) (pk c) rt) = true) as Heq.
    { intros x rt. symmetry. apply conn_eqb_sn; [done| |done]. unfold sn, SN_ID in *. cbn. lia. }
    destruct Hc as [Hc|[Hc|[-> ->]]]; [| |by eexists _, _].
    + pose proof (connect_reuses_ok _ _ _ _ _ _ Hc Hok) as Hok'.
      destruct Hc as (l1 & l2 & c0 & p0 & p & Hp & -> & Hc & Hu & Hi & Hr & Hf & ->). eexists _, _. split; [done|].
      split_and!; cbn [id pk route peers set_peers]; [done| | |done|done|].
      * unfold incoming_peers. cbn. rewrite Hp, !filter_app, !filter_cons. cbn. rewrite (outgoing_route p p0 Hr).
        repeat case_decide; rewrite !length_app; done.
      * apply (ok_peer_index _ c0 p Hok'). cbn. set_solver.
      * intros _ Hinc Hne. exists l1, l2, c0, p. split_and!; [done|by apply Heq|done|].
        eapply Forall_impl; [exact Hf|]. intros [c1 q] Hq. cbn [fst snd] in *. apply not_true_iff_false.
        intros H%Heq. rewrite H in Hq. cbn [andb] in Hq. unfold usable_peer in *. rewrite Hinc in *. cbn [andb negb] in *.
        destruct (sa_outgoing a); [|done]. cbn [andb] in *. unfold outgoing in Hu. by rewrite (bool_decide_eq_false_2 (peer_route p = [])) in Hu.
    + pose proof (connect_opens_ok _ _ _ _ _ Hc Hok) as Hok'. destruct Hc as (p & Hinc & Hi & Hr & -> & ->).
      eexists _, _. split; [done|]. split_and!; cbn [id pk route]; [done| | |done|done|by intros _ _ []].
      * unfold incoming_peers. cbn. rewrite filter_app, filter_cons_False, filter_nil, app_nil_r; [done|].
        cbn. unfold outgoing. by rewrite Hr.
      * cbn. rewrite length_app. cbn. lia.
  - case_bool_decide; cbn [negb].
    + eexists _, _. split; [done|]. destruct (List.find _ (peers cs)) as [[c0 p]|] eqn:Ef; cbn; [|done].
      apply find_some in Ef as [Hin%list_elem_of_In _]. split_and!; [done|done| |done|done|congruence]. by eapply ok_peer_index.
    + eexists _, _. split; [done|]. destruct (List.find _ (incoming_conn_index cs)) as [[c0 j]|] eqn:Ef; cbn; [|done].
      apply find_some in Ef as [Hin%list_elem_of_In _]. split_and!; [done|done| |done|done|congruence].
      destruct (ok_listening cs Hok _ Hin) as (s & Hs & _). by eapply lookup_lt_Some.
Qed.

Lemma list_find_split {A} (P : A → Prop) `{∀ x, Decision (P x)} l1 x l2 :
  Forall (λ y, ¬ P y) l1 → P x → list_find P (l1 ++ x :: l2) = Some (length l1, x).
Proof.
  intros Hl Hx. apply list_find_Some. split_and!; [by rewrite lookup_app_r, Nat.sub_diag|done|].
  intros j y Hj Hlt. rewrite lookup_app_l in Hj by done. rewrite Forall_forall in Hl. apply Hl. by eapply list_elem_of_lookup_2.
Qed.

Lemma forget_peer_ok c cs :
  conns_ok cs → route c ≠ [] →
  (sn c = true → ∃ l1 l2 c0 p, peers cs = l1 ++ (c0, p) :: l2 ∧ conn_eqb c0 c = true ∧ peer_route p = route c ∧
     Forall (λ q, conn_eqb q.1 c = false) l1) →
  ∃ retry cs', forget_peer c cs = Ok (retry, cs') ∧ conns_ok cs' ∧
    (retry = true → sn c = true ∧ (length (incoming_peers cs') < length (incoming_peers cs))%nat).
Proof.
  intros Hok Hne Hsn. unfold forget_peer. destruct (sn c) eqn:Esn.
  - destruct (Hsn eq_refl) as (l1 & l2 & c0 & p & Hp & Hc & Hr & Hf). rewrite Hp.
    rewrite (list_find_split (λ p, conn_eqb p.1 c = true) l1 (c0, p) l2); [|eapply Forall_impl; [exact Hf|]; by intros ? ->|done].
    cbn [negb]. rewrite Hr, bytes_eqb_refl, delete_middle. eexists _, _. split; [done|]. split.
    + apply conns_ok_sub; [done|]. rewrite Hp. apply sublist_app; [done|by constructor].
    + intros _. split; [done|]. unfold incoming_peers. cbn [peers set_peers]. rewrite Hp, !filter_app, filter_cons_True, !length_app; [cbn; lia|].
      cbn. unfold outgoing. rewrite Hr. by apply bool_decide_eq_false_2.
  - case_match eqn:E; [|by eexists _, _]. destruct p as [i [c0 p]]. cbn [negb]. eexists _, _. split; [done|]. split; [|done].
    apply conns_ok_sub; [done|apply sublist_delete].
Qed.

(** How an attempt ends: sent in full, not sent, or failed with an error that was
    passed to [callback_nosend]. *)
Definition report (a : send_args) (num : Z) : list effect :=
  match sa_nosend a with Some f => [eff_job (cl_send_failed f (Some num))] | None => [] end.

Inductive delivered (a : send_args) (parts : list bytes) : bool → option callback → list effect → Prop :=
  | dl_sent sock rt : delivered a parts true (sa_nosend a) [eff_message sock ((if bool_decide (rt = []) then [] else [rt]) ++ parts)]
  | dl_unsent : delivered a parts false (sa_nosend a) []
  | dl_failed num : delivered a parts false None (report a num).

Lemma send_loop_ok a parts now c cs fuel i :
  conns_ok cs → sa_send a = encode_parts parts → Forall size_ok parts → (sn c = true → key_size (pk c)) →
  (sn c = true → sa_incoming a = false) → (length (incoming_peers cs) < fuel)%nat →
  ∃ sent cs' nosend effs, send_loop zmq_send sn_lookup connect_ok fuel i a now c cs = Ok (sent, cs', nosend, effs) ∧
    conns_ok cs' ∧ delivered a parts sent nosend effs.
Proof.
  intros Hok Ha Hps Hk Hinc. revert i c cs Hok Hk Hinc. induction fuel as [|fuel IH]; intros i c cs Hok Hk Hinc Hf; [lia|].
  cbn [send_loop]. destruct (send_target_ok a now c cs Hok Hk) as ([[index c']|] & cs1 & -> & Ht); cbn [mbind outcome_bind];
    [|eexists _, _, _, _; split; [done|]; split; [done|constructor]].
  destruct Ht as (Hok1 & Hlen & Hidx & Hid & Hpk & Hfirst). destruct (lookup_lt_is_Some_2 _ _ Hidx) as [sock ->].
  rewrite Ha, build_send_parts_encode by done. cbn [mbind outcome_bind].
  assert (sn c' = sn c) as Hsn by (unfold sn; by rewrite Hid).
  destruct (send_message_parts zmq_send i sock _) as [[| |num] i'].
  - eexists _, _, _, _. split; [done|]. split; [done|].
    replace (if bool_decide (route c' = []) then parts else route c' :: parts)
      with ((if bool_decide (route c' = []) then [] else [route c']) ++ parts) by (by destruct (bool_decide _)). constructor.
  - eexists _, _, _, _. split; [done|]. split; [done|constructor].
  - destruct (num =? EHOSTUNREACH) eqn:En; [case_bool_decide as Hr|]; cbn [andb negb mbind outcome_bind].
    + eexists _, _, _, _. split; [done|]. split; [done|apply (dl_failed a parts num)].
    + destruct (forget_peer_ok c' cs1 Hok1 Hr) as (retry & cs2 & -> & Hok2 & Hretry).
      { intros Hs. rewrite Hsn in Hs. by apply Hfirst; [|apply Hinc|]. }
      cbn [mbind outcome_bind]. destruct retry.
      * destruct (Hretry eq_refl) as [_ Hlt]. apply IH; [done|by rewrite Hsn, Hpk|by rewrite Hsn|lia].
      * eexists _, _, _, _. split; [done|]. split; [done|apply (dl_failed a parts num)].
    + eexists _, _, _, _. split; [done|]. split; [done|apply (dl_failed a parts num)].
Qed.

(** What the handler adds once the loop has ended. *)
Definition request_failed (a : send_args) : list effect :=
  match sa_request a with Some (f, _, _) => [eff_job (cl_reply f false [B "TIMEOUT"])] | None => [] end.
Definition not_sent (nosend noqueue : option callback) : list effect :=
  match nosend, noqueue with
  | Some f, _ => [eff_job (cl_send_failed f None)]
  | None, Some f => [eff_job (cl_call f)]
  | None, None => []
  end.
Definition register (a : send_args) (now : Z) (r : gmap bytes (Z * callback)) : gmap bytes (Z * callback) :=
  match sa_request a with
  | Some (f, tag, timeout) => if r !! tag is Some _ then r else <[tag := (now + timeout, f)]> r
  | None => r
  end.

Lemma proxy_send_ok a parts now n :
  conns_ok (tables n) → send_args_ok a parts → (sn (sa_conn a) = true → sa_incoming a = false) →
  ∃ n' effs, proxy_send zmq_send sn_lookup connect_ok a now n = Ok (n', effs) ∧ conns_ok (tables n') ∧
    ((∃ sock rt, effs = [eff_message sock ((if bool_decide (rt = []) then [] else [rt]) ++ parts)] ∧
                 pending_requests n' = register a now (pending_requests n)) ∨
     (pending_requests n' = pending_requests n ∧
      (effs = request_failed a ++ not_sent (sa_nosend a) (sa_noqueue a) ∨
       ∃ num, effs = report a num ++ request_failed a ++ not_sent None (sa_noqueue a)))).
Proof.
  intros Hok (Ha & Hps & Hk) Hinc. unfold proxy_send.
  destruct (send_loop_ok a parts now (sa_conn a) (tables n) (S (length (peers (tables n)))) 0)
    as (sent & cs' & nosend & effs & -> & Hok' & Hd); [done..| |].
  { pose proof (incoming_peers_le (tables n)). lia. }
  cbn [mbind outcome_bind]. unfold register, request_failed.
  destruct Hd as [sock rt| |num]; destruct (sa_request a) as [[[f tag] timeout]|] eqn:Erq; cbv zeta;
    (eexists _, _; split; [reflexivity|]; split; [done|]); cbn [pending_requests].
  - left. exists sock, rt. split; [done|]. by destruct (pending_requests n !! tag).
  - left. by exists sock, rt.
  - right. split; [done|]. left. by destruct (sa_nosend a), (sa_noqueue a).
  - right. split; [done|]. left. by destruct (sa_nosend a), (sa_noqueue a).
  - right. split; [done|]. right. exists num. destruct (sa_noqueue a); cbn; by rewrite <-?app_assoc, ?app_nil_r.
  - right. split; [done|]. right. exists num. destruct (sa_noqueue a); cbn; by rewrite ?app_nil_r.
Qed.
End send.

(** ** Replies *)
Lemma reply_loop_ok zmq_send i c parts socks pre rest :
  Forall size_ok parts → (∀ c' p, (c', p) ∈ rest → (conn_index p < length socks)%nat) →
  ∃ ps effs, reply_loop zmq_send i c (encode_parts parts) socks pre rest = Ok (ps, effs) ∧ ps `sublist_of` pre ++ rest ∧
    (effs = [] ∨ ∃ sock rt, effs = [eff_message sock ((if bool_decide (rt = []) then [] else [rt]) ++ parts)]).
Proof.
  intros Hps. revert i pre. induction rest as [|[c' p] rest IH]; intros i pre Hlt; cbn [reply_loop].
  { exists pre, []. rewrite app_nil_r. eauto. }
  assert (∀ c0 q, (c0, q) ∈ rest → (conn_index q < length socks)%nat) as Hlt' by (intros c0 q Hq; apply (Hlt c0); by right).
  assert (pre ++ (c', p) :: rest = (pre ++ [(c', p)]) ++ rest) as Eapp by (by rewrite <-app_assoc).
  destruct (conn_eqb c' c); [|rewrite Eapp; by apply IH].
  destruct (lookup_lt_is_Some_2 socks (conn_index p)) as [sock ->]; [by apply (Hlt c'); left|].
  rewrite build_send_parts_encode by done. cbn [mbind outcome_bind].
  destruct (send_message_parts _ _ _ _) as [[| |num] i'].
  - eexists _, _. split; [done|]. split; [done|]. right. exists sock, (peer_route p). by destruct (bool_decide _).
  - eexists _, _. split; [done|]. split; [done|by left].
  - destruct (num =? EHOSTUNREACH); [|rewrite Eapp; by apply IH].
    destruct (IH i' pre Hlt') as (ps & effs & E & Hs & He). exists ps, effs. split_and!; [done| |done].
    etrans; [exact Hs|]. apply sublist_app; [done|by constructor].
Qed.

Lemma proxy_reply_ok zmq_send c parts n :
  conns_ok (tables n) → Forall size_ok parts →
  ∃ n' effs, proxy_reply zmq_send c (encode_parts parts) n = Ok (n', effs) ∧ conns_ok (tables n') ∧
    pending_requests n' = pending_requests n ∧
    (effs = [] ∨ ∃ sock rt, effs = [eff_message sock ((if bool_decide (rt = []) then [] else [rt]) ++ parts)]).
Proof.
  intros Hok Hps. unfold proxy_reply. cbv zeta.
  destruct (reply_loop_ok zmq_send 0 c parts (connections (tables n)) [] (peers (tables n)) Hps) as (ps & effs & -> & Hs & He).
  { intros c' p Hp. by eapply ok_peer_index. }
  cbn [mbind outcome_bind]. eexists _, _. split; [done|]. split_and!; [by apply conns_ok_sub|done|done].
Qed.

(** ** Built-in commands *)
Lemma conns_ok_pending pcs cs :
  conns_ok cs → pcs `sublist_of` pending_connects cs →
  conns_ok (mkConns (connections cs) (peers cs) (conn_index_to_id cs) (incoming_conn_index cs) pcs (bind cs)
    (pollitems_stale cs) (active_service_nodes cs) (next_socket cs) (closed cs)).
Proof.
  intros [H1 H2 H3 H4 H5 H6 H7 H8] Hs. split; cbn; try done. intros pc Hpc. apply H5. by eapply elem_of_sublist.
Qed.

Lemma handle_hello_ok index n :
  conns_ok (tables n) → (index < length (connections (tables n)))%nat →
  ∃ n' effs, handle_hello index n = Ok (n', effs) ∧ conns_ok (tables n') ∧ pending_requests n' = pending_requests n.
Proof.
  intros Hok Hi. unfold handle_hello. cbv zeta. case_match eqn:E; [|eauto]. destruct p as [i pc].
  destruct (List.find _ _); [|eauto]. destruct (lookup_lt_is_Some_2 (conn_index_to_id (tables n)) index) as [c ->]; [by rewrite (ok_ids _ Hok)|].
  eexists _, _. split; [done|]. split; [|done]. apply conns_ok_pending; [done|apply sublist_delete].
Qed.

(** zmq gives every client of a listening socket a non-empty identity. *)
Definition routed (cs : conns) (index : nat) (parts : list bytes) : Prop :=
  ∀ s, connections cs !! index = Some s → sock_type s = router → parts !! 0%nat ≠ Some [].

Lemma answer_request_tables tag success data n : tables (answer_request tag success data n).1 = tables n.
Proof. unfold answer_request. by destruct (pending_requests n !! tag) as [[]|]. Qed.

Lemma handle_builtin_ok zmq_send index parts n :
  conns_ok (tables n) → (index < length (connections (tables n)))%nat → routed (tables n) index parts →
  ∃ b n' effs, proxy_handle_builtin zmq_send index parts n = Ok (b, n', effs) ∧ conns_ok (tables n').
Proof.
  intros Hok Hi Hr. unfold proxy_handle_builtin. destruct (lookup_lt_is_Some_2 _ _ Hi) as [sock Es]. rewrite Es.
  cbv zeta. set (inc := match sock_type sock with router => 1%nat | dealer => 0%nat end).
  destruct (parts !! inc) as [cmd|] eqn:Ecmd; [|by eexists _, _, _].
  assert (∀ tag success data, conns_ok (tables (answer_request tag success data n).1)) as Hans by (intros; by rewrite answer_request_tables).
  destruct (bytes_eqb cmd (B "REPLY")).
  { destruct (parts !! (1 + inc)%nat) as [tag|]; [|by eexists _, _, _].
    specialize (Hans tag true (drop (2 + inc) parts)). destruct (answer_request _ _ _ _) as [n' effs]. by eexists _, _, _. }
  destruct (bytes_eqb cmd (B "HI")).
  { destruct (inc =? 0)%nat eqn:Einc; [by eexists _, _, _|]. unfold send_routed_message.
    assert (inc = 1%nat) as E1 by (subst inc; by destruct (sock_type sock)). rewrite E1 in Ecmd.
    destruct parts as [|rt rest]; [done|]. cbn [lookup list_lookup default].
    assert (sock_type sock = router) as Ert by (subst inc; by destruct (sock_type sock)).
    specialize (Hr sock Es Ert). cbn in Hr. cbn [from_option Datatypes.id].
    rewrite bool_decide_eq_false_2 by (by intros ->). cbn [mbind outcome_bind].
    destruct (send_message_parts _ _ _ _) as [res i]. by eexists _, _, _. }
  destruct (bytes_eqb cmd (B "HELLO")).
  { destruct (inc =? 1)%nat; [by eexists _, _, _|]. destruct (handle_hello_ok index n Hok Hi) as (n' & effs & -> & Hok' & _).
    cbn. by eexists _, _, _. }
  destruct (bytes_eqb cmd (B "BYE")).
  { destruct (inc =? 0)%nat; [|by eexists _, _, _]. destruct (close_connection_ok index (linger_ms 0) (tables n) Hok Hi) as (cs' & -> & Hok' & _).
    cbn. by eexists _, _, _. }
  destruct (is_error_response cmd); [|by eexists _, _, _].
  destruct (_ && _); [by eexists _, _, _|]. destruct (_ && _); [|by eexists _, _, _].
  specialize (Hans (default [] (parts !! (2 + inc)%nat)) false [cmd]).
  destruct (answer_request _ _ _ _) as [n' effs]. by eexists _, _, _.
Qed.

(** ** Cleanup *)
Definition connects_in_time (now : Z) (cs : conns) : Prop := Forall (λ pc, now <= pc_timeout pc) (pending_connects cs).

Lemma close_in_time now index l cs cs' :
  proxy_close_connection index l cs = Ok cs' → connects_in_time now cs → connects_in_time now cs'.
Proof.
  unfold proxy_close_connection. destruct (negb _); [done|]. destruct (negb _); [done|]. intros [= <-] H. unfold connects_in_time in *. cbn.
  rewrite Forall_forall in *. intros pc (x & j & Hx & _ & ->)%elem_of_update. cbn. by apply H.
Qed.

Lemma expire_in_time now t fuel pre post cs cs' :
  expire_idle t fuel pre post cs = Ok cs' → connects_in_time now cs → connects_in_time now cs'.
Proof.
  revert pre post cs. induction fuel as [|fuel IH]; intros pre post cs; cbn [expire_idle]; [done|].
  destruct post as [|p post]; [by intros [= <-]|]. destruct (_ && _); [|apply IH]. cbv zeta. destruct (existsb _ _); [done|].
  intros H Ht. apply outcome_bind_Ok_inv in H as (cs1 & E1 & E2). eapply IH; [exact E2|]. by eapply close_in_time.
Qed.

Lemma time_out_connects_ok now pcs : Forall (λ pc, now <= pc_timeout pc) pcs → time_out_connects now pcs = Ok tt.
Proof. induction 1 as [|pc pcs H Hs IH]; cbn; [done|]. by destruct (_ <? _) eqn:E; [lia|]. Qed.

Lemma conn_cleanup_ok now n :
  conns_ok (tables n) → connects_in_time now (tables n) →
  ∃ cs', proxy_expire_idle_peers now (tables n) = Ok cs' ∧ conns_ok cs' ∧
    proxy_conn_cleanup now n = Ok (time_out_requests now (with_tables cs' n)).
Proof.
  intros Hok Ht. unfold proxy_conn_cleanup, proxy_expire_idle_peers.
  destruct (expire_idle_ok now (S (length (peers (tables n)))) [] (peers (tables n)) (tables n) Hok eq_refl)
    as (cs' & E & Hok' & _); [lia|]. exists cs'. rewrite E. cbn [mbind outcome_bind]. split_and!; [done|done|].
  rewrite time_out_connects_ok; [done|]. exact (expire_in_time _ _ _ _ _ _ _ E Ht).
Qed.

(** ** Steps *)
Definition net_enabled (e : env) (i : net_input) (n : net) : Prop :=
  match i with
  | ni_send a => (∃ parts, send_args_ok a parts) ∧ (sn (sa_conn a) = true → sa_incoming a = false)
  | ni_reply _ send => ∃ parts, send = encode_parts parts ∧ Forall size_ok parts
  | ni_message index parts => (index < length (connections (tables n)))%nat ∧ routed (tables n) index parts
  | ni_cleanup => connects_in_time (env_now e) (tables n)
  | ni_connect_sn a => is_Some (cs_keep_alive a) ∧ key_size (cs_pubkey a)
  | ni_connect_remote a =>
      is_Some (auth_of_val (cr_auth_level a)) ∧ cr_conn_id a ≠ -1 ∧ cr_remote a ≠ [] ∧
      ∀ s num, env_send e 0 s (B "HI") false ≠ send_error num
  | ni_disconnect _ _ | ni_set_sns _ | ni_update_sns _ _ => True
  end.

Lemma net_step_ok e i n :
  conns_ok (tables n) → net_enabled e i n → ∃ n' effs, net_step e i n = Ok (n', effs) ∧ conns_ok (tables n').
Proof.
  intros Hok He. destruct i as [a|c send|index parts| |a|a|c|pubkeys|added removed]; cbn [net_step net_enabled] in *.
  - destruct He as [[parts Ha] Hinc].
    destruct (proxy_send_ok (env_send e) (env_lookup e) (env_connect e) a parts (env_now e) n Hok Ha Hinc) as (n' & effs & E & H & _). eauto.
  - destruct He as (parts & -> & Hps). destruct (proxy_reply_ok (env_send e) c parts n Hok Hps) as (n' & effs & E & H & _). eauto.
  - destruct He as [Hi Hr]. destruct (handle_builtin_ok (env_send e) index parts n Hok Hi Hr) as (b & n' & effs & -> & H). cbn. eauto.
  - destruct (conn_cleanup_ok (env_now e) n Hok He) as (cs' & _ & H & E). rewrite E. eauto.
  - destruct He as [[ka Eka] Hk]. unfold handle_connect_sn. rewrite Eka.
    destruct (connect_sn_cases (env_lookup e) (env_connect e) (cs_pubkey a) (cs_hint a) (cs_optional a) (cs_incoming a) (cs_outgoing a)
      ka (env_now e) (tables n) Hk) as (res & cs' & -> & Hc). cbn. eexists _, _. split; [done|].
    destruct Hc as [Hc|[Hc|[_ ->]]]; [by eapply connect_reuses_ok|by eapply connect_opens_ok|done].
  - destruct He as ([l El] & Hid & Hr & Hhi). unfold handle_connect_remote. rewrite El.
    destruct (proxy_connect_remote_ok (env_connect e) (cr_conn_id a) (cr_remote a) (cr_pubkey a) l (default 0%nat (cr_connect a))
      (default 0%nat (cr_failure a)) (cr_timeout a) (env_now e) (tables n) Hok Hid Hr) as (ok & cs' & -> & Hok'). cbn [mbind outcome_bind].
    destruct ok; [|eauto]. unfold send_direct_message. cbn [send_message_parts]. cbv zeta. rewrite bool_decide_eq_true_2 by done. cbn [negb].
    specialize (Hhi (mkSocket (next_socket (tables n)) dealer)). destruct (env_send e 0 _ _ _) eqn:E; cbn; [eauto|eauto|by destruct (Hhi num)].
  - unfold handle_disconnect. destruct (proxy_disconnect_ok c (linger_ms linger) (tables n) Hok) as (cs' & -> & Hok'). cbn. eauto.
  - destruct (set_active_sns_ok pubkeys (tables n) Hok) as (cs' & -> & Hok' & _). cbn. eauto.
  - destruct (update_active_sns_ok added removed (tables n) Hok) as (cs' & -> & Hok' & _). cbn. eauto.
Qed.

(** The states the traffic of a started proxy goes through. *)
Inductive net_reach (active : gset bytes) (binds : list bind_data) (bind_ok : bytes → bool) : net → Prop :=
  | net_start cs : (∀ p, p ∈ active → key_size p) → proxy_bind bind_ok binds active = Ok cs → net_reach active binds bind_ok (mkNet cs ∅)
  | net_next e i n n' effs : net_reach active binds bind_ok n → net_enabled e i n → net_step e i n = Ok (n', effs) →
      net_reach active binds bind_ok n'.

Lemma net_reach_ok active binds bind_ok n : net_reach active binds bind_ok n → conns_ok (tables n).
Proof.
  induction 1 as [cs Ha E|e i n n' effs _ IH He E]; [by eapply proxy_bind_ok|].
  destruct (net_step_ok e i n IH He) as (n2 & effs2 & E2 & H). rewrite E in E2. by injection E2 as -> ->.
Qed.

(** ** Properties *)
Definition demo_env : env := mkEnv (λ _ _ _ _, send_done) (λ _, B "tcp://sn:1") (λ _, true) 100.
Definition demo_binds : list bind_data := [mkBind (B "tcp://*:4567") true 0 1].
Definition demo_request : send_args :=
  mkSend (mkConn SN_ID (key32 9) []) [] false 30000 false false (Some (5%nat, B "tag", 15000))
    (encode_parts [B "a.b"; B "tag"]) (Some 7%nat) None.
Definition demo_net : net := mkNet two_peers ∅.

Lemma demo_request_ok : send_args_ok demo_request [B "a.b"; B "tag"].
Proof. split_and!; [done| |done]. repeat first [apply Forall_nil_2 | apply Forall_cons_2]; by vm_compute. Qed.

(** The traffic of a started proxy never fails and keeps its tables consistent: in
    every state it can reach, every input that can occur (a message to send, a reply,
    a peer's built-in command, the cleanup, connecting and disconnecting, a new set of
    service nodes) is handled to the end, whatever zmq answers, with no exception and no
    access to a socket or connection that is not there. *)
Theorem traffic_never_fails active binds bind_ok e i n :
  net_reach active binds bind_ok n → net_enabled e i n →
  conns_ok (tables n) ∧ ∃ n' effs, net_step e i n = Ok (n', effs) ∧ net_reach active binds bind_ok n'.
Proof.
  intros Hr He. pose proof (net_reach_ok _ _ _ _ Hr) as Hok. split; [done|].
  destruct (net_step_ok e i n Hok He) as (n' & effs & E & _). exists n', effs. split; [done|]. by eapply net_next.
Qed.

Lemma traffic_never_fails_witness :
  let n := mkNet (mkConns [mkSocket 0 router] [] [conn_of_id 1] [(conn_of_id 1, 0%nat)] [] [mkBind (B "tcp://*:4567") true 0 1] true ∅ 1 []) ∅ in
  conns_ok (tables n) ∧ ∃ n' effs, net_step demo_env (ni_send demo_request) n = Ok (n', effs) ∧
    net_reach ∅ demo_binds (λ _, true) n'.
Proof.
  intros n. apply (traffic_never_fails ∅ demo_binds (λ _, true) demo_env (ni_send demo_request) n).
  - apply net_start; [set_solver|]. vm_compute. reflexivity.
  - split; [|done]. exists [B "a.b"; B "tag"]. apply demo_request_ok.
Defined.



(** An attempt that has timed out makes the cleanup read the list element it has just
    erased. *)
Lemma time_out_connects_late now pcs : ¬ Forall (λ pc, now <= pc_timeout pc) pcs → time_out_connects now pcs = UB.
Proof.
  induction pcs as [|pc pcs IH]; intros Hn; [by destruct Hn|]. cbn. destruct (_ <? _) eqn:E; [done|].
  apply IH. intros Hf. apply Hn. constructor; [lia|done].
Qed.

(** C20. What the periodic cleanup does.  It first closes the outgoing peers whose idle time
    has passed their limit, and no others.  If a connection attempt that is left has then
    timed out, the cleanup is undefined (it reads the element it has just erased).
    Otherwise the requests past their deadline are removed, each has its callback
    scheduled with [false] exactly once, nothing else is scheduled, and the other
    requests stay. *)
Theorem cleanup_exact now n :
  conns_ok (tables n) →
  ∃ cs, proxy_expire_idle_peers now (tables n) = Ok cs ∧ conns_ok cs ∧
    peer_view cs = filter (λ x, ¬ expired now x) (peer_view (tables n)) ∧
    ((∃ pc, pc ∈ pending_connects cs ∧ pc_timeout pc < now) ∧ proxy_conn_cleanup now n = UB ∨
     connects_in_time now cs ∧
     ∃ n' late, proxy_conn_cleanup now n = Ok (n', (λ r, eff_job (cl_reply r.2.2 false [B "TIMEOUT"])) <$> late) ∧ tables n' = cs ∧
       NoDup late ∧ (∀ tag r, (tag, r) ∈ late ↔ pending_requests n !! tag = Some r ∧ r.1 < now) ∧
       (∀ tag r, pending_requests n' !! tag = Some r ↔ pending_requests n !! tag = Some r ∧ now <= r.1)).
Proof.
  intros Hok. destruct (expire_idle_ok now (S (length (peers (tables n)))) [] (peers (tables n)) (tables n) Hok eq_refl)
    as (cs & E & Hok' & _ & Hv); [lia|]. change (proxy_expire_idle_peers now (tables n) = Ok cs) in E. exists cs. split_and!; [done|done|done|].
  unfold proxy_conn_cleanup. rewrite E. cbn [mbind outcome_bind]. destruct (decide (connects_in_time now cs)) as [Ht|Ht].
  - right. split; [done|]. rewrite time_out_connects_ok by done. cbn [mbind outcome_bind]. unfold time_out_requests.
    eexists _, _. split_and!; [done|done|apply NoDup_filter, NoDup_map_to_list|..]; cbn [pending_requests with_requests with_tables]; intros tag r.
    + rewrite list_elem_of_filter, elem_of_map_to_list. unfold request_expired. cbn. split; intros [H1 H2]; split; (done || lia).
    + rewrite map_lookup_filter_Some. unfold request_expired. cbn. split; intros [H1 H2]; (split; [done|lia]).
  - left. rewrite time_out_connects_late by done. split; [|done].
    apply not_Forall_Exists, Exists_exists in Ht as (pc & Hpc & Hl); [|intros x; apply _]. exists pc. split; [done|]. cbn in Hl. lia.
Qed.

Lemma cleanup_exact_witness :
  let n := mkNet two_peers {[B "t" := (50, 3%nat); B "u" := (500, 4%nat)]} in
  ∃ cs n' late, proxy_expire_idle_peers 103 two_peers = Ok cs ∧ tables n' = cs ∧
    proxy_conn_cleanup 103 n = Ok (n', (λ r, eff_job (cl_reply r.2.2 false [B "TIMEOUT"])) <$> late) ∧ NoDup late ∧
    (B "t", (50, 3%nat)) ∈ late ∧ pending_requests n' !! B "u" = Some (500, 4%nat).
Proof.
  intros n. destruct (cleanup_exact 103 n) as (cs & E & _ & _ & [[_ E']|(_ & n' & late & E' & Hn & Hnd & Hl & Hp)]).
  - apply two_peers_ok.
  - vm_compute in E'. discriminate E'.
  - exists cs, n', late. split_and!; [exact E|exact Hn|exact E'|exact Hnd|apply Hl; split; [vm_compute; reflexivity|reflexivity]|].
    apply Hp. split; [vm_compute; reflexivity|discriminate].
Defined.

(** A service node with an outgoing and an incoming connection, and the same for a
    message restricted to incoming connections. *)
Definition demo_sn : conns :=
  mkConns [mkSocket 0 router; mkSocket 1 dealer]
    [(mkConn SN_ID (key32 9) [], mkPeer (key32 9) true none 1 [] 0 1000);
     (mkConn SN_ID (key32 9) [], mkPeer (key32 9) true none 0 (B "r") 0 1000)]
    [conn_of_id 1; mkConn SN_ID (key32 9) []] [(conn_of_id 1, 0%nat)] [] [] true ∅ 2 [].
Definition demo_incoming_only : send_args :=
  mkSend (mkConn SN_ID (key32 9) []) [] true 30000 false false None (encode_parts [B "a.b"]) None None.

(** A message restricted to incoming connections can hang the proxy: when the
    connection it was sent on has vanished and the node's first peer entry is another
    one, the loop over the entries never ends. *)
Theorem incoming_send_hangs sn_lookup connect_ok now :
  proxy_send (λ _ _ _ _, send_error EHOSTUNREACH) sn_lookup connect_ok demo_incoming_only now (mkNet demo_sn ∅) = Diverge.
Proof. vm_compute. reflexivity. Qed.

(** An error of zmq other than a full queue while the new connection sends ["HI"] is
    not caught by [proxy_connect_remote]. *)
Example hello_send_throws :
  handle_connect_remote (λ _ _ _ _, send_error 5) (λ _, true)
    (mkConnectRemote 0 7 (Some 1%nat) true (Some 2%nat) [] (B "tcp://localhost:4567") 10000) 100 demo_net
  = Throw zmq_error_t.
Proof. vm_compute. reflexivity. Qed.

(** A connection attempt that times out makes the cleanup read the list element
    it has just erased. *)
Theorem connect_timeout_undefined now n cs pc :
  proxy_expire_idle_peers now (tables n) = Ok cs → pc ∈ pending_connects cs → pc_timeout pc < now →
  proxy_conn_cleanup now n = UB.
Proof.
  intros E Hin Ht. unfold proxy_conn_cleanup. rewrite E. cbn [mbind outcome_bind].
  rewrite time_out_connects_late; [done|]. intros Hf. rewrite Forall_forall in Hf. specialize (Hf pc Hin). lia.
Qed.

Lemma connect_timeout_undefined_witness :
  let pc := mkPendingConnect 0 5 60 1 2 in
  let cs := mkConns [mkSocket 0 dealer] [] [conn_of_id 5] [] [pc] [] true ∅ 1 [] in
  proxy_conn_cleanup 100 (mkNet cs ∅) = UB.
Proof.
  intros pc cs. apply (connect_timeout_undefined 100 (mkNet cs ∅) cs pc).
  - reflexivity.
  - by left.
  - reflexivity.
Defined.
