(* ===== verification/Sockets.v ===== *)
(** The edges of the program (arqmamq.h, arqmamq.cpp, arqmamq-internal.h, connections.cpp,
    proxy.cpp): the options its sockets get, how a message becomes frames and frames a
    message, the files of unix sockets, and the log. *)
From S2P Require Import Prelude Hex BtValue BtSerialize BtCodec Address Commands Connections Control Auth Net.
Open Scope Z_scope.

(** ** Settings: the public fields, with times in milliseconds *)
Record settings : Type := mkSettings {
  HANDSHAKE_TIME : Z;
  EPHEMERAL_ROUTING_ID : bool;
  MAX_MSG_SIZE : Z;
  MAX_SOCKETS : Z;
  RECONNECT_INTERVAL : Z;
  RECONNECT_INTERVAL_MAX : Z;
  CLOSE_LINGER : Z;
  CONN_CHECK_INTERVAL : Z;
  CONN_HEARTBEAT : Z;
  CONN_HEARTBEAT_TIMEOUT : Z;
  STARTUP_UMASK : Z;
  SOCKET_GID : Z;
  SOCKET_UID : Z
}.
Definition default_settings : settings :=
  mkSettings 10000 false (1 * 1024 * 1024) 10000 250 5000 5000 250 15000 30000 (-1) (-1) (-1).

(** The [ZMQ_LINGER] of a closed socket: [linger > 0ms ? (int) linger.count() : 0], and
    [CLOSE_LINGER] itself at the end of the proxy thread. *)
Definition linger_option (c : settings) (l : linger) : Z :=
  let clamp ms := if 0 <? ms then it_cast c_int ms else 0 in
  match l with linger_ms ms => clamp ms | close_linger => clamp (CLOSE_LINGER c) | quit_linger => it_cast c_int (CLOSE_LINGER c) end.

(** ** Socket options, in the order they are set *)
Inductive sockopt : Type :=
  | o_reconnect_ivl (ms : Z)
  | o_reconnect_ivl_max (ms : Z)
  | o_handshake_ivl (ms : Z)
  | o_maxmsgsize (n : Z)
  | o_heartbeat_ivl (ms : Z)
  | o_heartbeat_timeout (ms : Z)
  | o_curve_serverkey (key : bytes)
  | o_curve_publickey (key : bytes)
  | o_curve_secretkey (key : bytes)
  | o_curve_server (b : bool)
  | o_routing_id (rid : bytes)
  | o_zap_domain (domain : bytes)
  | o_router_handover (b : bool)
  | o_router_mandatory (b : bool).

(** [(int) duration.count()] *)
Definition int_count (ms : Z) : Z := it_cast c_int ms.

Definition setup_external_socket (c : settings) : list sockopt :=
  [o_reconnect_ivl (int_count (RECONNECT_INTERVAL c));
   o_reconnect_ivl_max (int_count (RECONNECT_INTERVAL_MAX c));
   o_handshake_ivl (int_count (HANDSHAKE_TIME c));
   o_maxmsgsize (MAX_MSG_SIZE c)] ++
  if 0 <? CONN_HEARTBEAT c then
    o_heartbeat_ivl (int_count (CONN_HEARTBEAT c)) ::
    (if 0 <? CONN_HEARTBEAT_TIMEOUT c then [o_heartbeat_timeout (int_count (CONN_HEARTBEAT_TIMEOUT c))] else [])
  else [].

Section keys.
Context (c : settings) (pubkey privkey : bytes).

Definition setup_outgoing_socket (remote_pubkey : bytes) (use_ephemeral_routing_id : bool) : list sockopt :=
  setup_external_socket c ++
  (if bool_decide (remote_pubkey = []) then []
   else [o_curve_serverkey remote_pubkey; o_curve_publickey pubkey; o_curve_secretkey privkey]) ++
  (if use_ephemeral_routing_id then [] else [o_routing_id ("L"%byte :: pubkey)]).

(** The options of the listener number [i] of [proxy_loop]. *)
Definition setup_listener (i : nat) (b : bind_data) : list sockopt :=
  setup_external_socket c ++ [o_zap_domain (bt_serialize_int (Z.of_nat i))] ++
  (if bind_curve b then [o_curve_server true; o_curve_publickey pubkey; o_curve_secretkey privkey] else []) ++
  [o_router_handover true; o_router_mandatory true].

(** Every listener. *)
Definition setup_listeners (binds : list bind_data) : list (list sockopt) := imap setup_listener binds.
End keys.

(** What zmq keeps of an option: the last value set. *)
Definition last_set {A} (get : sockopt → option A) (opts : list sockopt) : option A := last (omap get opts).
Definition get_zap_domain (o : sockopt) : option bytes := match o with o_zap_domain d => Some d | _ => None end.
Definition get_routing_id (o : sockopt) : option bytes := match o with o_routing_id d => Some d | _ => None end.
Definition get_serverkey (o : sockopt) : option bytes := match o with o_curve_serverkey k => Some k | _ => None end.
Definition get_publickey (o : sockopt) : option bytes := match o with o_curve_publickey k => Some k | _ => None end.
Definition get_curve_server (o : sockopt) : option bool := match o with o_curve_server b => Some b | _ => None end.
Definition get_heartbeat (o : sockopt) : option Z := match o with o_heartbeat_ivl z => Some z | _ => None end.
Definition get_heartbeat_timeout (o : sockopt) : option Z := match o with o_heartbeat_timeout z => Some z | _ => None end.

(** ** Frames *)
Definition frame : Type := bytes * bool.           (* a part and its [more] flag *)

(** What [send_message_parts] passes to zmq: [sndmore] on all parts but the last. *)
Fixpoint frames_of (parts : list bytes) : list frame :=
  match parts with [] => [] | msg :: rest => (msg, negb (bool_decide (rest = []))) :: frames_of rest end.

(** [recv_message_parts] on the frames that wait: whether a message was received, the
    parts appended to [parts], and the frames left. *)
Fixpoint recv_message_parts (queue : list frame) (parts : list bytes) : bool * list bytes * list frame :=
  match queue with
  | [] => (false, parts, [])
  | (msg, more) :: queue => if more then recv_message_parts queue (parts ++ [msg]) else (true, parts ++ [msg], queue)
  end.

(** [detail::send_control] and [route_control]. *)
Definition control_frames (cmd data : bytes) : list frame :=
  if bool_decide (data = []) then [(cmd, false)] else [(cmd, true); (data, false)].
Definition route_control (identity cmd data : bytes) : list frame := (identity, true) :: control_frames cmd data.

(** [peer_address]: [gets] throws when the message has no such property. *)
Definition peer_address (gets : outcome bytes) : bytes := match gets with Ok a => a | _ => B "(unknown)" end.

(** ** The files of unix sockets *)

(** While the listeners bind, the process has another umask when one is asked for. *)
Definition bind_umask (c : settings) (umask : Z) : Z := if 0 <=? STARTUP_UMASK c then STARTUP_UMASK c else umask.
Definition umask_after (c : settings) (umask : Z) : Z :=
  let saved_umask := if 0 <=? STARTUP_UMASK c then umask else -1 in
  let now := bind_umask c umask in
  if saved_umask =? -1 then now else saved_umask.

(** Then they get their owner; [chown] is whether the call succeeds.  The result lists
    the files, with the user and group. *)
Fixpoint chown_sockets (c : settings) (chown : bytes → bool) (binds : list bind_data) : outcome (list (bytes * Z * Z)) :=
  match binds with
  | [] => Ok []
  | b :: binds =>
      addr ← address_parse (bind_addr b);
      if ipc addr then
        if chown (socket addr) then r ← chown_sockets c chown binds; Ok ((socket addr, SOCKET_UID c, SOCKET_GID c) :: r)
        else Throw runtime_error
      else chown_sockets c chown binds
  end.
Definition set_owners (c : settings) (chown : bytes → bool) (binds : list bind_data) : outcome (list (bytes * Z * Z)) :=
  if negb (SOCKET_GID c =? -1) || negb (SOCKET_UID c =? -1) then chown_sockets c chown binds else Ok [].

(** ** The log *)
Inductive LogLevel : Type := fatal | error | warn | info | debug | trace.
Definition level_value (l : LogLevel) : Z := match l with fatal => 0 | error => 1 | warn => 2 | info => 3 | debug => 4 | trace => 5 end.
Definition print_level (l : LogLevel) : bytes :=
  match l with
  | trace => B "trace" | debug => B "debug" | info => B "info" | warn => B "warn" | error => B "ERROR" | fatal => B "FATAL"
  end.

(** [std::string_view::rfind] *)
Definition starts_with (pat s : bytes) : bool := bytes_eqb (take (length pat) s) pat.
Fixpoint rfind (pat s : bytes) : option nat :=
  match s with
  | [] => if starts_with pat [] then Some 0%nat else None
  | _ :: s' => match rfind pat s' with Some i => Some (S i) | None => if starts_with pat s then Some 0%nat else None end
  end.

Definition LOG_PREFIX : bytes := B "arqmamq/".
Definition trim_log_filenames (local_file : bytes) : bytes :=
  match rfind LOG_PREFIX local_file with Some chop => drop chop local_file | None => local_file end.

(** [log_level(level)] and [log_level()], on the atomic [log_lvl], which starts at
    [warn]. *)
Definition initial_log_level : LogLevel := warn.
Definition set_log_level (level : LogLevel) : M LogLevel unit := λ _, (Ok tt, level).
Definition get_log_level : M LogLevel LogLevel := getS.

(** What the logger is called with, if it is. *)
Definition log (log_level lvl : LogLevel) (file : bytes) (line : Z) (stuff : list bytes) : option (LogLevel * bytes * Z * bytes) :=
  if level_value log_level <? level_value lvl then None else Some (lvl, trim_log_filenames file, line, concat stuff).

Example log_trims : log debug warn (B "/src/arqmamq/arqmamq/proxy.cpp") 12 [B "a"; B "b"] = Some (warn, B "arqmamq/proxy.cpp", 12, B "ab").
Proof. vm_compute. reflexivity. Qed.

(** ** Frames *)
Lemma recv_frames parts acc rest : parts ≠ [] → recv_message_parts (frames_of parts ++ rest) acc = (true, acc ++ parts, rest).
Proof.
  revert acc. induction parts as [|m parts IH]; intros acc Hne; [done|]. cbn [frames_of app recv_message_parts].
  destruct parts as [|m' parts]; [done|]. rewrite bool_decide_eq_false_2 by done. cbn [negb]. rewrite IH by done. by rewrite <-app_assoc.
Qed.

(** All parts went when zmq took each frame, with its flag. *)
Lemma send_parts_frames zmq_send i sock parts j :
  send_message_parts zmq_send i sock parts = (parts_sent, j) ↔
  j = (i + length parts)%nat ∧ ∀ k m more, frames_of parts !! k = Some (m, more) → zmq_send (i + k)%nat sock m more = send_done.
Proof.
  revert i. induction parts as [|m parts IH]; intros i; cbn [send_message_parts frames_of length].
  { rewrite Nat.add_0_r. split; [intros [= <-]; split; done|]. by intros [-> _]. }
  set (more := negb (bool_decide (parts = []))). destruct (zmq_send i sock m more) eqn:E.
  - rewrite IH. split.
    + intros [-> Hk]. split; [lia|]. intros [|k] m' more'; cbn [lookup list_lookup]; [intros [= <- <-]; by rewrite Nat.add_0_r|].
      intros Hf. rewrite Nat.add_succ_r. by apply (Hk k).
    + intros [-> Hk]. split; [lia|]. intros k m' more' Hf. specialize (Hk (S k) m' more' Hf). by rewrite Nat.add_succ_r in Hk.
  - split; [done|]. intros [_ Hk]. specialize (Hk 0%nat m more eq_refl). rewrite Nat.add_0_r in Hk. congruence.
  - split; [done|]. intros [_ Hk]. specialize (Hk 0%nat m more eq_refl). rewrite Nat.add_0_r in Hk. congruence.
Qed.

(** A message the sender reports as sent is received whole: the receiver gets exactly
    its parts, and what follows on the connection is left for the next message. *)
Theorem framing_roundtrip zmq_send i sock parts j rest :
  send_message_parts zmq_send i sock parts = (parts_sent, j) → parts ≠ [] →
  (∀ k m more, frames_of parts !! k = Some (m, more) → zmq_send (i + k)%nat sock m more = send_done) ∧
  recv_message_parts (frames_of parts ++ rest) [] = (true, parts, rest).
Proof. intros [_ Hk]%send_parts_frames Hne. split; [done|]. by rewrite recv_frames. Qed.

(** A control message to a worker is one message: its route, the command, and the data
    if there is any. *)
Lemma route_control_frames identity cmd data :
  route_control identity cmd data = frames_of (identity :: cmd :: if bool_decide (data = []) then [] else [data]).
Proof. unfold route_control, control_frames. by case_bool_decide. Qed.

(** ** Options *)
Lemma external_options c :
  omap get_zap_domain (setup_external_socket c) = [] ∧ omap get_routing_id (setup_external_socket c) = [] ∧
  omap get_serverkey (setup_external_socket c) = [] ∧ omap get_curve_server (setup_external_socket c) = [].
Proof. unfold setup_external_socket. destruct (0 <? CONN_HEARTBEAT c), (0 <? CONN_HEARTBEAT_TIMEOUT c); by split_and!. Qed.

(** A heartbeat timeout is only set together with the heartbeat it belongs to. *)
Lemma heartbeat_options c z :
  last_set get_heartbeat_timeout (setup_external_socket c) = Some z → 0 < CONN_HEARTBEAT_TIMEOUT c ∧ is_Some (last_set get_heartbeat (setup_external_socket c)).
Proof.
  unfold last_set, setup_external_socket. destruct (0 <? CONN_HEARTBEAT c); [|done]. destruct (0 <? CONN_HEARTBEAT_TIMEOUT c) eqn:E; [|done].
  intros _. split; [lia|]. by eexists.
Qed.

(** The identity an outgoing connection has: a routing id zmq does not reserve, unless
    zmq is to pick one, and the remote's key exactly when there is one. *)
Lemma outgoing_options c pubkey privkey remote e :
  last_set get_routing_id (setup_outgoing_socket c pubkey privkey remote e) = (if e then None else Some ("L"%byte :: pubkey)) ∧
  last_set get_serverkey (setup_outgoing_socket c pubkey privkey remote e) = (if bool_decide (remote = []) then None else Some remote).
Proof.
  destruct (external_options c) as (_ & E2 & E3 & _). unfold last_set, setup_outgoing_socket.
  rewrite !omap_app, E2, E3. case_bool_decide; by destruct e.
Qed.

Lemma listener_options c pubkey privkey i b :
  last_set get_zap_domain (setup_listener c pubkey privkey i b) = Some (bt_serialize_int (Z.of_nat i)) ∧
  last_set get_curve_server (setup_listener c pubkey privkey i b) = (if bind_curve b then Some true else None).
Proof.
  destruct (external_options c) as (E1 & _ & _ & E4). unfold last_set, setup_listener. rewrite !omap_app, E1, E4.
  by destruct (bind_curve b).
Qed.

Lemma zap_bind_id_domain i : Z.of_nat i < 2 ^ 64 → zap_bind_id (bt_serialize_int (Z.of_nat i)) = Z.of_nat i.
Proof.
  intros Hi. unfold zap_bind_id. pose proof (int_codec_ok uint64_t ltac:(unfold it_ok; cbn; lia)) as Hok.
  pose proof (codec_roundtrip (BtCodecOk := Hok) (Z.of_nat i) []) as E. cbn [int_codec bt_ser bt_deser] in E. rewrite app_nil_r in E.
  rewrite E; [done|]. unfold it_range, it_min, it_max. cbn. lia.
Qed.

(** ** Authentication of a connection *)

(** What zmq asks about a connection to a listener with these options (the ZAP
    specification): the version, the listener's domain, and the mechanism of its
    options with the client's key. *)
Record zmq_asks (opts : list sockopt) (frames : list bytes) : Prop := {
  za_version : zap_frame frames 0 = B "1.0";
  za_domain : last_set get_zap_domain opts = Some (zap_frame frames 2);
  za_curve : last_set get_curve_server opts = Some true →
    length frames = 7%nat ∧ zap_frame frames 5 = B "CURVE" ∧ length (zap_frame frames 6) = 32%nat;
  za_null : last_set get_curve_server opts = None → length frames = 6%nat ∧ zap_frame frames 5 = B "NULL"
}.

(** C35. A connection is judged by the address it came in on: the domain a listener is
    given leads the ZAP handler back to that listener's own entry, whatever the others
    are, so that a request zmq makes for a connection to it is answered with that
    entry's [AllowFunc], and is accepted exactly when this returns a level from [none]
    to [admin]. *)
Theorem listener_authenticates c pubkey privkey (binds : list bind_data) (zbinds : list zap_bind) i opts z active frames :
  setup_listeners c pubkey privkey binds !! i = Some opts → zbinds !! i = Some z → zb_curve <$> zbinds = bind_curve <$> binds →
  Z.of_nat (length zbinds) <= 2 ^ 64 → zmq_asks opts frames →
  let key := if zb_curve z then zap_frame frames 6 else [] in
  let level := zb_allow z (zap_frame frames 3) key (zb_curve z && bool_decide (key ∈ active)) in
  ∃ code text user metadata,
    process_zap_request zbinds active frames = Ok (zap_response (zap_frame frames 1) code text user metadata) ∧
    (code = B "200" ↔ 1 <= level <= 3).
Proof.
  intros Ho Hz Hboth Hlen [Hv Hd Hcv Hnull] key level. pose proof (lookup_lt_Some _ _ _ Hz) as Hi.
  unfold setup_listeners in Ho. rewrite list_lookup_imap in Ho. destruct (binds !! i) as [b|] eqn:Hb; [|done]. injection Ho as <-.
  assert (zb_curve z = bind_curve b) as Hcurve.
  { assert ((zb_curve <$> zbinds) !! i = (bind_curve <$> binds) !! i) as E by by rewrite Hboth. rewrite !list_lookup_fmap, Hz, Hb in E. by injection E. }
  destruct (listener_options c pubkey privkey i b) as [Ed Ec]. rewrite Ed in Hd. injection Hd as Hd. rewrite Ec in Hcv, Hnull.
  assert (zap_mechanism_ok z frames = true ∧ (6 <= length frames)%nat ∧ (zb_curve z = true → length (zap_frame frames 6) = 32%nat)) as (Hm & Hl & Hk).
  { unfold zap_mechanism_ok. rewrite Hcurve. destruct (bind_curve b).
    - destruct (Hcv eq_refl) as (-> & -> & ->). split_and!; [vm_compute; reflexivity|lia|done].
    - destruct (Hnull eq_refl) as (-> & ->). split_and!; [vm_compute; reflexivity|lia|done]. }
  unfold process_zap_request. cbv zeta. replace (2 <=? length frames)%nat with true by lia. rewrite Hv, <-Hd, bytes_eqb_refl.
  replace (length frames <? 6)%nat with false by lia. cbn [orb negb]. rewrite zap_bind_id_domain by lia.
  replace (Z.of_nat i <? Z.of_nat (length zbinds)) with true by lia. rewrite Nat2Z.id, Hz, Hm. cbn [negb].
  replace (zb_curve z && negb (length (zap_frame frames 6) =? 32)%nat) with false
    by (destruct (zb_curve z); [by rewrite Hk|done]).
  destruct (zap_accept_cases active z (zap_frame frames 1) frames) as [[Hn ->]|(a & m & Ha & Hne & _ & ->)].
  - eexists _, _, _, _. split; [done|]. split; [intros E; vm_compute in E; discriminate E|intros H; exfalso; apply Hn; unfold level, key in H; lia].
  - eexists _, _, _, _. split; [done|]. split; [intros _|done]. unfold level, key. rewrite <-Ha. destruct a; cbn; try lia. done.
Qed.

(** Two listeners, the second without encryption and only for local clients. *)
Definition demo_zbinds : list zap_bind :=
  [mkZapBind true (λ _ _ sn, if sn then 2 else 1); mkZapBind false (λ ip _ _, if bytes_eqb ip (B "127.0.0.1") then 3 else 0)].
Definition demo_listen : list bind_data := [mkBind (B "tcp://*:2000") true 0 0%nat; mkBind (B "ipc:///tmp/a.sock") false 0 1%nat].
Definition demo_request : list bytes := [B "1.0"; B "r"; B "i1e"; B "127.0.0.1"; []; B "NULL"].

Lemma listener_authenticates_witness :
  ∃ code text user metadata,
    process_zap_request demo_zbinds ∅ demo_request = Ok (zap_response (B "r") code text user metadata) ∧
    (code = B "200" ↔ 1 <= 3 <= 3).
Proof.
  apply (listener_authenticates default_settings (B "pub") (B "sec") demo_listen demo_zbinds 1
    (setup_listener default_settings (B "pub") (B "sec") 1 (mkBind (B "ipc:///tmp/a.sock") false 0 1%nat))
    (mkZapBind false (λ ip _ _, if bytes_eqb ip (B "127.0.0.1") then 3 else 0)) ∅ demo_request); try (vm_compute; reflexivity); [cbn; lia|].
  split; try (vm_compute; reflexivity); intros E; [vm_compute in E; discriminate E|]. split; vm_compute; reflexivity.
Defined.

(** ** Files *)

(** The umask is put back. *)
Lemma umask_restored c umask : 0 <= umask → umask_after c umask = umask.
Proof. intros Hu. unfold umask_after, bind_umask. destruct (0 <=? STARTUP_UMASK c); [|done]. by destruct (umask =? -1) eqn:E; [lia|]. Qed.

(** When an owner is asked for, every unix socket gets it, and nothing else does. *)
Lemma owners_exact c chown binds r :
  set_owners c chown binds = Ok r → SOCKET_GID c ≠ -1 ∨ SOCKET_UID c ≠ -1 →
  ∀ f, f ∈ r ↔ ∃ b a, b ∈ binds ∧ address_parse (bind_addr b) = Ok a ∧ ipc a = true ∧ f = (socket a, SOCKET_UID c, SOCKET_GID c).
Proof.
  unfold set_owners. intros E Hask. replace (negb (SOCKET_GID c =? -1) || negb (SOCKET_UID c =? -1)) with true in E by (destruct Hask; lia).
  clear Hask. revert r E. induction binds as [|b binds IH]; intros r E; cbn [chown_sockets] in E.
  { injection E as <-. intros f. split; [by intros ?%elem_of_nil|]. by intros (b & a & ?%elem_of_nil & _). }
  inv_bind. rename a into addr, E0 into Ea.
  assert (∀ r0 : list (bytes * Z * Z), (∀ f, f ∈ r0 ↔ ∃ b a, b ∈ binds ∧ address_parse (bind_addr b) = Ok a ∧ ipc a = true ∧ f = (socket a, SOCKET_UID c, SOCKET_GID c)) →
    ∀ f, (ipc addr = true ∧ f = (socket addr, SOCKET_UID c, SOCKET_GID c) ∨ f ∈ r0) ↔
      ∃ b0 a, b0 ∈ b :: binds ∧ address_parse (bind_addr b0) = Ok a ∧ ipc a = true ∧ f = (socket a, SOCKET_UID c, SOCKET_GID c)) as Hone.
  { intros r0 Hr f. rewrite Hr. split.
    - intros [[Hi ->]|(b0 & a & Hb & H)]; [exists b, addr; split_and!; try done; by left|exists b0, a; split; [by right|done]].
    - intros (b0 & a & [->|Hb]%elem_of_cons & Hp & Hi & ->); [left; rewrite Ea in Hp; injection Hp as ->; by split|right; by exists b0, a]. }
  destruct (ipc addr) eqn:Ei.
  - destruct (chown (socket addr)); [|done]. inv_bind. injection E as <-. intros f. rewrite <-(Hone a) by by apply IH. rewrite elem_of_cons. tauto.
  - intros f. rewrite <-(Hone r) by by apply IH. naive_solver.
Qed.

(** Asking for an owner requires every bound address to be one the [address] class can
    parse: a TCP port chosen by zmq, which it can not, ends the proxy thread. *)
Theorem owner_breaks_wildcard_port c chown :
  SOCKET_GID c ≠ -1 → set_owners c chown [mkBind (B "tcp://127.0.0.1:*") false 0 0%nat] = Throw invalid_argument.
Proof.
  intros Hg. unfold set_owners. replace (SOCKET_GID c =? -1) with false by lia. cbn [negb orb chown_sockets bind_addr].
  assert (address_parse (B "tcp://127.0.0.1:*") = Throw invalid_argument) as -> by (vm_compute; reflexivity). done.
Qed.

(** ** The log *)
Lemma rfind_spec pat s :
  match rfind pat s with
  | Some i => (i <= length s)%nat ∧ starts_with pat (drop i s) = true ∧ ∀ j, (i < j <= length s)%nat → starts_with pat (drop j s) = false
  | None => ∀ j, (j <= length s)%nat → starts_with pat (drop j s) = false
  end.
Proof.
  induction s as [|c s IH]; cbn [rfind].
  - destruct (starts_with pat []) eqn:E; [split_and!; [done|done|cbn; lia]|]. intros j Hj. by rewrite drop_nil.
  - destruct (rfind pat s) as [i|].
    + destruct IH as (H1 & H2 & H3). split_and!; [cbn; lia|done|]. intros [|j] Hj; [lia|]. apply H3. cbn in Hj. lia.
    + destruct (starts_with pat (c :: s)) eqn:E.
      * split_and!; [cbn; lia|done|]. intros [|j] Hj; [lia|]. apply IH. cbn in Hj. lia.
      * intros [|j] Hj; [done|]. apply IH. cbn in Hj. lia.
Qed.

(** The file name given to the logger is an end of the source's (which is what makes
    handing out its pointer sound), and begins with the last occurrence of the
    prefix. *)
Theorem trim_log_filenames_suffix file :
  ∃ dir, file = dir ++ trim_log_filenames file ∧
    (trim_log_filenames file = file ∧ (∀ j, (j <= length file)%nat → starts_with LOG_PREFIX (drop j file) = false) ∨
     starts_with LOG_PREFIX (trim_log_filenames file) = true ∧
       ∀ j, (length dir < j <= length file)%nat → starts_with LOG_PREFIX (drop j file) = false).
Proof.
  unfold trim_log_filenames. pose proof (rfind_spec LOG_PREFIX file) as H. destruct (rfind LOG_PREFIX file) as [i|].
  - destruct H as (H1 & H2 & H3). exists (take i file). rewrite take_drop. split; [done|]. right. split; [done|]. rewrite length_take. intros j Hj. apply H3. lia.
  - exists []. split; [done|]. by left.
Qed.
