(* ===== verification/RequestSpec.v ===== *)
(** Requests and their replies, abstractly: a table of open requests that are opened
    and closed one at a time, and the proof that the proxy's traffic implements it. *)
From S2P Require Import Prelude BtValue BtSerialize BtCodec BtConsumer Commands Connections Control Auth Net NetInv.
Open Scope Z_scope.

(** ** The specification *)

(** The call of a reply callback: the callback, success, the data. *)
Definition reply : Type := callback * bool * list bytes.

(** One step: a request is opened, refused at once because it could not be sent, or
    closed with an answer.  The labels are the callbacks of new requests and the
    replies made. *)
Inductive req_step : gmap bytes callback → list callback → list reply → gmap bytes callback → Prop :=
  | rq_open m tag f : m !! tag = None → req_step m [f] [] (<[tag := f]> m)
  | rq_refuse m f : req_step m [f] [(f, false, [B "TIMEOUT"])] m
  | rq_close m tag f success data : m !! tag = Some f → req_step m [] [(f, success, data)] (delete tag m).

Inductive req_star : gmap bytes callback → list callback → list reply → gmap bytes callback → Prop :=
  | rq_refl m : req_star m [] [] m
  | rq_trans m1 m2 m3 fs1 fs2 rs1 rs2 :
      req_step m1 fs1 rs1 m2 → req_star m2 fs2 rs2 m3 → req_star m1 (fs1 ++ fs2) (rs1 ++ rs2) m3.

Lemma req_star_one m fs rs m' : req_step m fs rs m' → req_star m fs rs m'.
Proof. intros H. rewrite <-(app_nil_r fs), <-(app_nil_r rs). eapply rq_trans; [exact H|constructor]. Qed.

Lemma req_star_trans m1 m2 m3 fs1 fs2 rs1 rs2 :
  req_star m1 fs1 rs1 m2 → req_star m2 fs2 rs2 m3 → req_star m1 (fs1 ++ fs2) (rs1 ++ rs2) m3.
Proof. induction 1 as [m|? ? ? ? ? ? ? Hs H IH]; intros H2; [done|]. rewrite <-!app_assoc. eapply rq_trans; [exact Hs|auto]. Qed.

(** The callbacks of the open requests, in no particular order. *)
Definition open_callbacks (m : gmap bytes callback) : list callback := (map_to_list m).*2.

Lemma open_callbacks_insert m tag f : m !! tag = None → open_callbacks (<[tag := f]> m) ≡ₚ f :: open_callbacks m.
Proof. intros H. unfold open_callbacks. by rewrite map_to_list_insert by done. Qed.

Lemma open_callbacks_delete m tag f : m !! tag = Some f → open_callbacks m ≡ₚ f :: open_callbacks (delete tag m).
Proof.
  intros H. rewrite <-(insert_delete_id m tag f) at 1 by done. apply open_callbacks_insert, lookup_delete_eq.
Qed.

(** Every callback ever issued is called once, or still waits. *)
Lemma req_star_once m fs rs m' :
  req_star m fs rs m' → open_callbacks m ++ fs ≡ₚ (rs.*1).*1 ++ open_callbacks m'.
Proof.
  induction 1 as [m|m1 m2 m3 fs1 fs2 rs1 rs2 Hs _ IH]; [by rewrite app_nil_r|]. rewrite !fmap_app, <-app_assoc, <-IH.
  destruct Hs as [m tag f Hm|m f|m tag f success data Hm]; cbn.
  - rewrite open_callbacks_insert by done. by rewrite <-Permutation_middle.
  - by rewrite <-Permutation_middle.
  - by rewrite (open_callbacks_delete m tag f Hm).
Qed.

(** Closing several requests. *)
Lemma close_all success data (l : list (bytes * callback)) m :
  NoDup l.*1 → (∀ tag f, (tag, f) ∈ l → m !! tag = Some f) →
  req_star m [] ((λ x, (x.2, success, data)) <$> l) (foldl (λ m x, delete x.1 m) m l).
Proof.
  revert m. induction l as [|[tag f] l IH]; intros m Hnd Hl; [constructor|]. cbn [foldl fmap list_fmap fst] in *.
  apply NoDup_cons in Hnd as [Hni Hnd].
  apply (rq_trans m (delete tag m) _ [] [] [(f, success, data)]); [constructor; apply Hl; by left|]. apply IH; [done|].
  intros tag' f' H'. rewrite lookup_delete_ne; [apply Hl; by right|]. intros ->. apply Hni. apply list_elem_of_fmap. by exists (tag', f').
Qed.

Lemma lookup_delete_all (l : list (bytes * callback)) (m : gmap bytes callback) k :
  foldl (λ m x, delete x.1 m) m l !! k = if decide (k ∈ l.*1) then None else m !! k.
Proof.
  revert m. induction l as [|[tag f] l IH]; intros m; [by rewrite decide_False by (cbn; set_solver)|]. cbn [foldl fst]. rewrite IH.
  destruct (decide (k ∈ l.*1)) as [Hk|Hk]; [by rewrite decide_True by (cbn; set_solver)|].
  destruct (decide (k = tag)) as [->|Hne]; [rewrite lookup_delete_eq, decide_True by (cbn; set_solver); done|].
  rewrite lookup_delete_ne by done. by rewrite decide_False by (cbn; set_solver).
Qed.

Lemma NoDup_filter_keys {A} (P : bytes * A → Prop) `{∀ x, Decision (P x)} (l : list (bytes * A)) :
  NoDup l.*1 → NoDup (filter P l).*1.
Proof.
  induction l as [|x l IH]; [done|]. cbn [fmap list_fmap]. intros [Hx Hl]%NoDup_cons. rewrite filter_cons.
  case_decide; [|auto]. cbn [fmap list_fmap]. apply NoDup_cons. split; [|auto]. intros (y & Ey & Hy)%list_elem_of_fmap.
  apply Hx, list_elem_of_fmap. exists y. split; [done|]. by apply list_elem_of_filter in Hy as [_ Hy].
Qed.

(** ** The implementation *)

(** The table without the deadlines, the replies among the effects, and the requests
    an input makes. *)
Definition open_requests (n : net) : gmap bytes callback := snd <$> pending_requests n.

Definition reply_of (e : effect) : option reply :=
  match e with
  | eff_reply_job (cl_reply f success data) | eff_job (cl_reply f success data) => Some (f, success, data)
  | _ => None
  end.
Definition replies (effs : list effect) : list reply := omap reply_of effs.

Definition issued (i : net_input) : list callback :=
  match i with
  | ni_send a => match sa_request a with Some (f, _, _) => [f] | None => [] end
  | _ => []
  end.

(** The tag of a new request is not in use: tags are 15 random bytes. *)
Definition fresh_tag (i : net_input) (n : net) : Prop :=
  match i with
  | ni_send a => match sa_request a with Some (_, tag, _) => pending_requests n !! tag = None | None => True end
  | _ => True
  end.

Lemma replies_app l1 l2 : replies (l1 ++ l2) = replies l1 ++ replies l2.
Proof. apply omap_app. Qed.

Lemma send_loop_replies zmq_send lookup_ connect fuel i a now c cs sent cs' ns effs :
  send_loop zmq_send lookup_ connect fuel i a now c cs = Ok (sent, cs', ns, effs) → replies effs = [].
Proof.
  revert i c cs. induction fuel as [|fuel IH]; intros i c cs; cbn [send_loop]; [done|].
  intros H. apply outcome_bind_Ok_inv in H as ([[[index c']|] cs1] & _ & H); [|by simplify_eq].
  destruct (connections cs1 !! index) as [sock|]; [|done].
  apply outcome_bind_Ok_inv in H as (parts & _ & H). destruct (send_message_parts _ _ _ _) as [[| |num] i'].
  - by simplify_eq.
  - by simplify_eq.
  - apply outcome_bind_Ok_inv in H as ([retry cs2] & _ & H). destruct retry; [by eapply IH|]. simplify_eq. by destruct (sa_nosend a).
Qed.

Lemma send_refines e a n n' effs :
  net_step e (ni_send a) n = Ok (n', effs) → fresh_tag (ni_send a) n →
  req_star (open_requests n) (issued (ni_send a)) (replies effs) (open_requests n').
Proof.
  cbn [net_step fresh_tag issued]. unfold proxy_send. intros H Hf.
  apply outcome_bind_Ok_inv in H as ([[[sent cs] ns] effs0] & Hl & H). apply send_loop_replies in Hl.
  assert (∀ l, replies (match ns, sa_noqueue a with
    | Some f, _ => l ++ [eff_job (cl_send_failed f None)] | None, Some f => l ++ [eff_job (cl_call f)] | None, None => l end) = replies l) as Hn.
  { intros l. destruct ns, (sa_noqueue a); rewrite ?replies_app, ?app_nil_r; done. }
  destruct (sa_request a) as [[[f tag] timeout]|]; destruct sent; cbv zeta beta in H; injection H as <- <-;
    rewrite ?Hn, ?replies_app, ?Hl; unfold open_requests; cbn [pending_requests app].
  - rewrite Hf, fmap_insert. apply req_star_one, rq_open. by rewrite lookup_fmap, Hf.
  - apply req_star_one, rq_refuse.
  - constructor.
  - constructor.
Qed.

Lemma answer_refines tag success data n :
  req_star (open_requests n) [] (replies (answer_request tag success data n).2) (open_requests (answer_request tag success data n).1).
Proof.
  unfold answer_request, open_requests. destruct (pending_requests n !! tag) as [[t f]|] eqn:E; cbn [fst snd pending_requests with_requests]; [|constructor].
  rewrite fmap_delete. apply req_star_one, rq_close. by rewrite lookup_fmap, E.
Qed.

Lemma hello_refines index n n' effs :
  handle_hello index n = Ok (n', effs) → replies effs = [] ∧ open_requests n' = open_requests n.
Proof.
  unfold handle_hello. cbv zeta. case_match; [|by intros [= <- <-]]. destruct p as [i pc].
  destruct (List.find _ _); [|by intros [= <- <-]]. destruct (_ !! index); [|done]. by intros [= <- <-].
Qed.

Lemma builtin_refines zmq_send index parts n b n' effs :
  proxy_handle_builtin zmq_send index parts n = Ok (b, n', effs) →
  req_star (open_requests n) [] (replies effs) (open_requests n').
Proof.
  unfold proxy_handle_builtin. destruct (connections _ !! index) as [sock|]; [|done]. cbv zeta.
  set (inc := match sock_type sock with router => 1%nat | dealer => 0%nat end).
  destruct (parts !! inc) as [cmd|]; [|intros [= _ <- <-]; constructor].
  destruct (bytes_eqb cmd (B "REPLY")).
  { destruct (parts !! (1 + inc)%nat) as [tag|]; [|intros [= _ <- <-]; constructor].
    pose proof (answer_refines tag true (drop (2 + inc) parts) n) as Ha.
    destruct (answer_request _ _ _ _) as [n1 effs1]. by intros [= _ <- <-]. }
  destruct (bytes_eqb cmd (B "HI")).
  { destruct (inc =? 0)%nat; [intros [= _ <- <-]; constructor|]. intros H. apply outcome_bind_Ok_inv in H as ([res j] & _ & H).
    injection H as _ <- <-. destruct res; constructor. }
  destruct (bytes_eqb cmd (B "HELLO")).
  { destruct (inc =? 1)%nat; [intros [= _ <- <-]; constructor|]. intros H. apply outcome_bind_Ok_inv in H as ([n1 effs1] & E & H).
    injection H as _ <- <-. apply hello_refines in E as [-> ->]. constructor. }
  destruct (bytes_eqb cmd (B "BYE")).
  { destruct (inc =? 0)%nat; [|intros [= _ <- <-]; constructor]. intros H. apply outcome_bind_Ok_inv in H as (cs & _ & H).
    injection H as _ <- <-. constructor. }
  destruct (is_error_response cmd); [|intros [= _ <- <-]; constructor].
  destruct (_ && _); [intros [= _ <- <-]; constructor|]. destruct (_ && _); [|intros [= _ <- <-]; constructor].
  pose proof (answer_refines (default [] (parts !! (2 + inc)%nat)) false [cmd] n) as Ha.
  destruct (answer_request _ _ _ _) as [n1 effs1]. by intros [= _ <- <-].
Qed.

Lemma time_out_refines now n :
  req_star (open_requests n) [] (replies (time_out_requests now n).2) (open_requests (time_out_requests now n).1).
Proof.
  unfold time_out_requests. cbn [fst snd].
  set (l := filter (λ r, request_expired now r = true) (map_to_list (pending_requests n))).
  set (l' := (λ r : bytes * (Z * callback), (r.1, r.2.2)) <$> l).
  assert (replies ((λ r, eff_job (cl_reply r.2.2 false [B "TIMEOUT"])) <$> l) = (λ x : bytes * callback, (x.2, false, [B "TIMEOUT"])) <$> l') as ->.
  { subst l'. generalize l. clear. induction l as [|r l IH]; [done|]. cbn in *. by f_equal. }
  assert (l'.*1 = l.*1) as Ekeys by (subst l'; rewrite <-list_fmap_compose; done).
  assert (∀ tag f, (tag, f) ∈ l' → ∃ t, pending_requests n !! tag = Some (t, f) ∧ t < now) as Hl'.
  { intros tag f ([k [t g]] & [= -> ->] & [Hx Hin]%list_elem_of_filter)%list_elem_of_fmap. apply elem_of_map_to_list in Hin.
    exists t. split; [done|]. unfold request_expired in Hx. cbn in Hx. lia. }
  assert (open_requests (with_requests (filter (λ r, request_expired now r = false) (pending_requests n)) n)
          = foldl (λ m x, delete x.1 m) (open_requests n) l') as ->.
  { apply map_eq. intros k. rewrite lookup_delete_all. unfold open_requests. cbn [pending_requests with_requests]. rewrite !lookup_fmap.
    destruct (decide (k ∈ l'.*1)) as [Hk|Hk].
    - apply list_elem_of_fmap in Hk as ([k' f] & -> & Hk). destruct (Hl' k' f Hk) as (t & E & Ht). cbn [fst].
      rewrite map_lookup_filter, E. cbn. rewrite option_guard_False; [done|]. unfold request_expired. cbn. lia.
    - rewrite map_lookup_filter. destruct (pending_requests n !! k) as [[t f]|] eqn:E; [|done]. cbn.
      rewrite option_guard_True; [done|]. destruct (request_expired now (k, (t, f))) eqn:Ex; [|done]. exfalso. apply Hk.
      rewrite Ekeys. apply list_elem_of_fmap. exists (k, (t, f)). split; [done|]. apply list_elem_of_filter.
      split; [done|]. by apply elem_of_map_to_list. }
  apply close_all.
  - rewrite Ekeys. subst l. apply NoDup_filter_keys, NoDup_fst_map_to_list.
  - intros tag f H. destruct (Hl' tag f H) as (t & E & _). unfold open_requests. by rewrite lookup_fmap, E.
Qed.

(** ** The refinement *)
Lemma net_step_refines e i n n' effs :
  net_step e i n = Ok (n', effs) → fresh_tag i n → req_star (open_requests n) (issued i) (replies effs) (open_requests n').
Proof.
  destruct i as [a|c send|index parts| |a|a|c|pubkeys|added removed]; intros H Hf; [by eapply send_refines|..]; cbn [net_step issued] in *.
  - unfold proxy_reply in H. cbv zeta in H. apply outcome_bind_Ok_inv in H as ([ps effs0] & E & H). injection H as <- <-.
    assert (replies effs0 = []) as ->; [|constructor]. clear Hf. revert E. generalize 0%nat, (@nil (ConnectionID * peer_info)).
    induction (peers (tables n)) as [|[c' p] rest IH]; intros i pre; cbn [reply_loop]; [by intros [= _ <-]|].
    destruct (conn_eqb c' c); [|apply IH]. destruct (_ !! conn_index p); [|done]. intros E.
    apply outcome_bind_Ok_inv in E as (parts & _ & E). destruct (send_message_parts _ _ _ _) as [[| |num] i'];
      [by injection E as _ <-|by injection E as _ <-|]. destruct (num =? EHOSTUNREACH); by eapply IH.
  - apply outcome_bind_Ok_inv in H as ([[b n1] effs1] & E & H). injection H as <- <-. by eapply builtin_refines.
  - unfold proxy_conn_cleanup in H. apply outcome_bind_Ok_inv in H as (cs & _ & H). apply outcome_bind_Ok_inv in H as ([] & _ & H).
    pose proof (time_out_refines (env_now e) (with_tables cs n)) as Ht. injection H as <- <-. exact Ht.
  - unfold handle_connect_sn in H. destruct (cs_keep_alive a); [|done]. apply outcome_bind_Ok_inv in H as ([res cs] & _ & H).
    injection H as <- <-. constructor.
  - unfold handle_connect_remote in H. destruct (auth_of_val _); [|done]. apply outcome_bind_Ok_inv in H as ([ok cs] & _ & H).
    destruct ok; [|injection H as <- <-; constructor]. cbv zeta in H.
    destruct (fst (send_direct_message (env_send e) 0 _ _)); [|  |done]; injection H as <- <-; constructor.
  - unfold handle_disconnect in H. apply outcome_bind_Ok_inv in H as (cs & _ & H). injection H as <- <-. constructor.
  - apply outcome_bind_Ok_inv in H as (cs & _ & H). injection H as <- <-. constructor.
  - apply outcome_bind_Ok_inv in H as (cs & _ & H). injection H as <- <-. constructor.
Qed.

(** The tags of the requests of a run are not in use when they are made. *)
Fixpoint tags_fresh (ins : list (env * net_input)) (n : net) : Prop :=
  match ins with
  | [] => True
  | (e, i) :: rest => fresh_tag i n ∧ ∀ n' effs, net_step e i n = Ok (n', effs) → tags_fresh rest n'
  end.

Definition all_issued (ins : list (env * net_input)) : list callback := ins ≫= (λ x, issued x.2).

Lemma net_run_refines ins n n' effs :
  net_run ins n = Ok (n', effs) → tags_fresh ins n →
  req_star (open_requests n) (all_issued ins) (replies effs) (open_requests n').
Proof.
  revert n effs. induction ins as [|[e i] ins IH]; intros n effs H Hf; cbn [net_run tags_fresh] in *.
  { injection H as <- <-. constructor. }
  apply outcome_bind_Ok_inv in H as ([n1 effs1] & E1 & H). apply outcome_bind_Ok_inv in H as ([n2 effs2] & E2 & H).
  cbn [fst snd] in *. injection H as <- <-. destruct Hf as [Hf1 Hf2]. rewrite replies_app.
  eapply req_star_trans; [by eapply net_step_refines|]. apply IH; [done|by eapply Hf2].
Qed.

(** ** Properties *)

(** C11. The proxy's requests implement the specification: along every run of its
    traffic that returns and in which no request is issued with a tag that is still
    pending (tags are random), whatever zmq answers and whatever peers send, the table
    of pending requests evolves by opening requests, refusing them or closing them with
    one reply, and the reply callbacks it schedules are exactly the replies of those
    steps. *)
Theorem requests_refine ins n n' effs :
  net_run ins n = Ok (n', effs) → tags_fresh ins n →
  req_star (open_requests n) (all_issued ins) (replies effs) (open_requests n').
Proof. apply net_run_refines. Qed.

(** A request, its reply, and the same reply again. *)
Definition demo_run : list (env * net_input) :=
  [(demo_env, ni_send demo_request);
   (demo_env, ni_message 0 [B "c"; B "REPLY"; B "tag"; B "x"]);
   (demo_env, ni_message 0 [B "c"; B "REPLY"; B "tag"; B "y"])].

Lemma demo_run_fresh : tags_fresh demo_run demo_net.
Proof.
  split; [done|]. intros n1 e1 _. split; [done|]. intros n2 e2 _. split; [done|]. done.
Qed.

Definition demo_final : net * list effect :=
  match net_run demo_run demo_net with Ok x => x | _ => (demo_net, []) end.

Lemma demo_run_ok : net_run demo_run demo_net = Ok (demo_final.1, demo_final.2).
Proof. vm_compute. reflexivity. Qed.

Lemma requests_refine_witness :
  req_star (open_requests demo_net) (all_issued demo_run) (replies demo_final.2) (open_requests demo_final.1).
Proof.
  apply (requests_refine demo_run demo_net demo_final.1 demo_final.2).
  - apply demo_run_ok.
  - apply demo_run_fresh.
Defined.

Example demo_replies : replies demo_final.2 = [(5%nat, true, [B "x"])].
Proof. vm_compute. reflexivity. Qed.

(** C18. Every request is answered at most once and never lost: the callbacks of the
    requests made during a run are, each as often as it was passed, those that were
    scheduled with a reply and those whose request is still pending. *)
Theorem requests_answered_once ins cs n' effs :
  net_run ins (mkNet cs ∅) = Ok (n', effs) → tags_fresh ins (mkNet cs ∅) →
  all_issued ins ≡ₚ ((replies effs).*1).*1 ++ ((map_to_list (pending_requests n')).*2).*2.
Proof.
  intros H Hf. pose proof (req_star_once _ _ _ _ (net_run_refines _ _ _ _ H Hf)) as Hp.
  unfold open_requests in Hp. cbn [pending_requests] in Hp. rewrite fmap_empty in Hp. unfold open_callbacks in Hp.
  rewrite map_to_list_empty in Hp. cbn [fmap list_fmap app] in Hp. rewrite Hp, map_to_list_fmap. f_equiv.
  rewrite <-!list_fmap_compose. done.
Qed.

Lemma requests_answered_once_witness :
  all_issued demo_run ≡ₚ ((replies demo_final.2).*1).*1 ++ ((map_to_list (pending_requests demo_final.1)).*2).*2.
Proof.
  apply (requests_answered_once demo_run two_peers demo_final.1 demo_final.2).
  - apply demo_run_ok.
  - apply demo_run_fresh.
Defined.

(** A reply reaches its request: a [REPLY] with a pending tag on any open
    connection schedules that request's callback with [true] and the data that follow,
    one of the error responses for it schedules it with [false] and the error, and the
    request is forgotten; a tag that is not pending changes nothing. *)
Theorem reply_reaches_request zmq_send index sock rt tag data err n :
  connections (tables n) !! index = Some sock → is_error_response err = true →
  let prefix := match sock_type sock with router => [rt] | dealer => [] end in
  let answered success d := match pending_requests n !! tag with
    | Some (_, f) => Ok (true, with_requests (delete tag (pending_requests n)) n, [eff_reply_job (cl_reply f success d)])
    | None => Ok (true, n, [])
    end in
  proxy_handle_builtin zmq_send index (prefix ++ B "REPLY" :: tag :: data) n = answered true data ∧
  proxy_handle_builtin zmq_send index (prefix ++ [err; B "REPLY"; tag]) n = answered false [err].
Proof.
  intros Hs He. cbv zeta. unfold proxy_handle_builtin. rewrite Hs. cbv zeta.
  assert (∀ x, is_error_response x = true →
    bytes_eqb x (B "REPLY") = false ∧ bytes_eqb x (B "HI") = false ∧ bytes_eqb x (B "HELLO") = false ∧ bytes_eqb x (B "BYE") = false) as Herr.
  { intros x Hx. unfold is_error_response in Hx. rewrite !orb_true_iff, !bytes_eqb_eq in Hx.
    destruct Hx as [[[[-> | ->] | ->] | ->] | ->]; done. }
  destruct (Herr err He) as (E1 & E2 & E3 & E4).
  assert (∀ success d, (let (n0, effs) := answer_request tag success d n in Ok (true, n0, effs)) = 
    match pending_requests n !! tag with
    | Some (_, f) => Ok (true, with_requests (delete tag (pending_requests n)) n, [eff_reply_job (cl_reply f success d)])
    | None => Ok (true, n, [])
    end) as Ha by (intros; unfold answer_request; by destruct (pending_requests n !! tag) as [[]|]).
  destruct (sock_type sock); cbn -[B]; rewrite bytes_eqb_refl, E1, E2, E3, E4, He, <-!Ha; done.
Qed.

Lemma reply_reaches_request_witness :
  let n := mkNet two_peers {[B "tag" := (500, 3%nat)]} in
  let zmq_send := λ (_ : nat) (_ : zmq_socket) (_ : bytes) (_ : bool), send_done in
  proxy_handle_builtin zmq_send 0 [B "route"; B "REPLY"; B "tag"; B "x"] n
    = Ok (true, with_requests (delete (B "tag") (pending_requests n)) n, [eff_reply_job (cl_reply 3 true [B "x"])]) ∧
  proxy_handle_builtin zmq_send 0 [B "route"; B "FORBIDDEN"; B "REPLY"; B "tag"] n
    = Ok (true, with_requests (delete (B "tag") (pending_requests n)) n, [eff_reply_job (cl_reply 3 false [B "FORBIDDEN"])]).
Proof.
  intros n zmq_send. apply (reply_reaches_request zmq_send 0 (mkSocket 0 router) (B "route") (B "tag") [B "x"] (B "FORBIDDEN") n); reflexivity.
Defined.
