(* ===== verification/Batch.v ===== *)
(** batch.h: batches of jobs with an optional completion function. *)
From S2P Require Import Prelude Commands.
Open Scope Z_scope.

(** ** Results *)

(** [job_result<R>]: the value, or the exception [get()] rethrows; user values and
    exceptions are opaque. *)
Section results.
Context {V E : Type}.

Record job_result : Type := mkResult { value : option V; exc : option E }.

Definition empty_result : job_result := mkResult None None.
Definition set_value (v : V) (r : job_result) : job_result := mkResult (Some v) (exc r).
Definition set_exception (e : E) (r : job_result) : job_result := mkResult (value r) (Some e).

(** [get()]: rethrow, or move the value out. *)
Definition get_result (r : job_result) : E + option V :=
  match exc r with
  | Some e => inl e
  | None => inr (value r)
  end.

(** [job_result<R>] for a reference: the address of the object, not initialized, so that
    [get()] before a value or an exception was set is undefined. *)
Record ref_result : Type := mkRefResult { value_ptr : option nat; ref_exc : option E }.
Definition ref_set_value (v : nat) (r : ref_result) : ref_result := mkRefResult (Some v) (ref_exc r).
Definition ref_set_exception (e : E) (r : ref_result) : ref_result := mkRefResult (value_ptr r) (Some e).
Definition ref_get (r : ref_result) : option (E + nat) :=
  match ref_exc r with Some e => Some (inl e) | None => inr <$> value_ptr r end.

(** [job_result<void>]: no value. *)
Record void_result : Type := mkVoidResult { void_exc : option E }.
Definition void_set_exception (e : E) (r : void_result) : void_result := mkVoidResult (Some e).
Definition void_get (r : void_result) : E + unit := match void_exc r with Some e => inl e | None => inr () end.

(** What [run_job] does with them: the function is called, and [set_value] is not for
    [void]. *)
Definition ref_run (called : nat + E) (r : ref_result) : ref_result :=
  match called with inl v => ref_set_value v r | inr e => ref_set_exception e r end.
Definition void_run (called : unit + E) (r : void_result) : void_result :=
  match called with inl _ => r | inr e => void_set_exception e r end.

(** After the job has run, [get()] is defined and gives what the function did. *)
Lemma ref_run_get called : ref_get (ref_run called (mkRefResult None None)) = Some (match called with inl v => inr v | inr e => inl e end).
Proof. by destruct called. Qed.
Lemma void_run_get called : void_get (void_run called (mkVoidResult None)) = match called with inl _ => inr () | inr e => inl e end.
Proof. by destruct called as [[]|]. Qed.
End results.
Arguments job_result : clear implicits.
Arguments ref_result : clear implicits.
Arguments void_result : clear implicits.

(** ** [Batch<R>] *)
Inductive BatchState : Type := running | complete_ | done_.

#[export] Instance BatchState_eq_dec : EqDecision BatchState.
Proof. solve_decision. Defined.

Record BatchStatus : Type := mkStatus { bs_state : BatchState; bs_thread : Z }.

Record batch (V E : Type) : Type := mkBatch {
  jobs : list (callback * Z);        (* the function and the thread it is tied to *)
  results : list (job_result V E);
  complete : option callback;
  jobs_outstanding : Z;              (* size_t *)
  complete_in_thread : Z;
  b_started : bool;
  tagged_thread_jobs : bool
}.
Arguments mkBatch {V E} _ _ _ _ _ _ _.
Arguments jobs {V E} _.
Arguments results {V E} _.
Arguments complete {V E} _.
Arguments jobs_outstanding {V E} _.
Arguments complete_in_thread {V E} _.
Arguments b_started {V E} _.
Arguments tagged_thread_jobs {V E} _.

Section batch_ops.
Context {V E : Type}.
Implicit Types b : batch V E.

Definition new_batch : batch V E := mkBatch [] [] None 0 0 false false.

(** The private [add_job(job, thread_id)]. *)
Definition add_job_thread (job : callback) (thread_id : Z) (b : batch V E) : batch V E :=
  mkBatch (jobs b ++ [(job, thread_id)]) (results b ++ [empty_result]) (complete b)
    ((jobs_outstanding b + 1) mod 2 ^ 64) (complete_in_thread b) (b_started b)
    (if thread_id =? 0 then tagged_thread_jobs b else true).

(** [add_job(job, optional<TaggedThreadID>)] *)
Definition add_job (job : callback) (thread : option Z) (b : batch V E) : outcome (batch V E) :=
  if b_started b then Throw logic_error
  else if bool_decide (thread = Some (-1)) then Throw logic_error
  else Ok (add_job_thread job (default 0 thread) b).

Definition completion (comp : callback) (thread : option Z) (b : batch V E) : outcome (batch V E) :=
  if b_started b then Throw logic_error
  else if bool_decide (is_Some (complete b)) then Throw logic_error
  else Ok (mkBatch (jobs b) (results b) (Some comp) (jobs_outstanding b) (default 0 thread)
             (b_started b) (tagged_thread_jobs b)).

Definition batch_size (b : batch V E) : nat * bool := (length (jobs b), tagged_thread_jobs b).
Definition threads (b : batch V E) : list Z := snd <$> jobs b.

(** [run_job(i)], with the user function's outcome given by [call]: a value, or an
    exception that is stored. *)
Definition run_job (call : callback → V + E) (i : nat) (b : batch V E) : outcome (batch V E) :=
  match jobs b !! i, results b !! i with
  | Some (f, _), Some r =>
      let r := match call f with inl v => set_value v r | inr e => set_exception e r end in
      Ok (mkBatch (jobs b) (<[i := r]> (results b)) (complete b) (jobs_outstanding b)
            (complete_in_thread b) (b_started b) (tagged_thread_jobs b))
  | _, _ => UB
  end.

Definition set_outstanding (n : Z) (b : batch V E) : batch V E :=
  mkBatch (jobs b) (results b) (complete b) n (complete_in_thread b) (b_started b) (tagged_thread_jobs b).

(** [job_finished]: the decrement wraps. *)
Definition job_finished (b : batch V E) : BatchStatus * batch V E :=
  let n := (jobs_outstanding b - 1) mod 2 ^ 64 in
  let b := set_outstanding n b in
  if negb (n =? 0) then (mkStatus running 0, b)
  else match complete b with
       | Some _ => (mkStatus complete_ (complete_in_thread b), b)
       | None => (mkStatus done_ 0, b)
       end.

(** [job_completion]: calls the completion function with the results. *)
Definition job_completion (b : batch V E) : option (callback * list (job_result V E)) :=
  (λ f, (f, results b)) <$> complete b.

(** What the proxy relies on when it takes a batch over. *)
Record batch_ok b : Prop := {
  bok_outstanding : jobs_outstanding b = Z.of_nat (length (jobs b));
  bok_results : length (results b) = length (jobs b);
  bok_tagged : tagged_thread_jobs b = existsb (λ t, negb (t =? 0)) (threads b)
}.

Lemma batch_ok_new : batch_ok new_batch.
Proof. by split. Qed.

Lemma batch_ok_add_thread job t b :
  batch_ok b → Z.of_nat (length (jobs b)) + 1 < 2 ^ 64 → batch_ok (add_job_thread job t b).
Proof.
  intros [H1 H2 H3] Hl. split; cbn.
  - rewrite length_app. cbn. rewrite H1, Z.mod_small; lia.
  - rewrite !length_app. cbn. lia.
  - unfold threads in *. cbn. rewrite fmap_app, existsb_app, <-H3. cbn.
    destruct (t =? 0); cbn; by rewrite ?orb_false_r, ?orb_true_r.
Qed.

(** The statuses of finishing [n] jobs, one after the other. *)
Fixpoint finish_all (n : nat) (b : batch V E) : list BatchState * batch V E :=
  match n with
  | O => ([], b)
  | S n' => let (s, b1) := job_finished b in let (l, b2) := finish_all n' b1 in (bs_state s :: l, b2)
  end.

Lemma job_finished_more b :
  1 < jobs_outstanding b < 2 ^ 64 →
  job_finished b = (mkStatus running 0, set_outstanding (jobs_outstanding b - 1) b).
Proof.
  intros H. unfold job_finished. cbv zeta. rewrite Z.mod_small by lia.
  by destruct (_ =? 0) eqn:Ez; [lia|].
Qed.

Lemma job_finished_last b :
  jobs_outstanding b = 1 →
  job_finished b = (match complete b with
                    | Some _ => mkStatus complete_ (complete_in_thread b)
                    | None => mkStatus done_ 0
                    end, set_outstanding 0 b).
Proof. intros H. unfold job_finished. cbv zeta. rewrite H. cbn. by destruct (complete b). Qed.

Lemma finish_all_spec n b :
  jobs_outstanding b = Z.of_nat (S n) → jobs_outstanding b < 2 ^ 64 →
  (finish_all (S n) b).1 = replicate n running ++ [if complete b is Some _ then complete_ else done_].
Proof.
  revert b. induction n as [|n IH]; intros b Hb Hlt; cbn [finish_all].
  - rewrite (job_finished_last b) by lia. by destruct (complete b).
  - rewrite (job_finished_more b) by lia.
    specialize (IH (set_outstanding (jobs_outstanding b - 1) b)). cbn [finish_all] in IH.
    destruct (job_finished (set_outstanding (jobs_outstanding b - 1) b)) as [s b1].
    destruct (finish_all n b1) as [l b2]. cbn in *. rewrite IH by lia. done.
Qed.

(** Running every job once, in any order, fills the results in job order. *)
Fixpoint run_jobs (call : callback → V + E) (order : list nat) (b : batch V E) : outcome (batch V E) :=
  match order with
  | [] => Ok b
  | i :: order' => b ← run_job call i b; run_jobs call order' b
  end.

Definition result_of (call : callback → V + E) (f : callback) : job_result V E :=
  match call f with inl v => mkResult (Some v) None | inr e => mkResult None (Some e) end.

Lemma run_jobs_spec call order b :
  (∀ i, i ∈ order → (i < length (jobs b))%nat) → length (results b) = length (jobs b) →
  NoDup order → (∀ i, i ∈ order → results b !! i = Some empty_result) →
  ∃ b', run_jobs call order b = Ok b' ∧ jobs b' = jobs b ∧ complete b' = complete b ∧
    length (results b') = length (jobs b) ∧
    ∀ i, results b' !! i = if decide (i ∈ order) then result_of call <$> (fst <$> jobs b !! i) else results b !! i.
Proof.
  intros Hin Hlen Hnd. revert b Hin Hlen. induction Hnd as [|i order Hi Hnd IH]; intros b Hin Hlen Hemp.
  - exists b. split_and!; [done..|]. intros i. by destruct (decide (i ∈ [])) as [?%elem_of_nil|].
  - cbn [run_jobs]. unfold run_job.
    destruct (lookup_lt_is_Some_2 (jobs b) i) as [[f t] Ef]; [apply Hin; by left|].
    rewrite Ef, (Hemp i) by (by left). cbv zeta. cbn [mbind outcome_bind].
    set (b1 := mkBatch _ _ _ _ _ _ _). destruct (IH b1) as (b' & -> & Hj & Hc & Hl & Hr).
    + intros j Hj. apply Hin. by right.
    + cbn. by rewrite length_insert.
    + intros j Hj. cbn. rewrite list_lookup_insert_ne by (by intros ->). apply Hemp. by right.
    + exists b'. split_and!; [done..|]. intros j. rewrite Hr. cbn [jobs results b1].
      destruct (decide (j = i)) as [->|Hne].
      * rewrite decide_False by done. rewrite decide_True by (by left).
        rewrite list_lookup_insert_eq by (rewrite Hlen; apply Hin; by left). rewrite Ef. cbn.
        unfold result_of. by destruct (call f).
      * rewrite list_lookup_insert_ne by done.
        destruct (decide (j ∈ order)); [rewrite decide_True by (by right)|rewrite decide_False by set_solver]; done.
Qed.
End batch_ops.

(** ** Properties *)

(** A batch finishes exactly once: of the [n] calls to [job_finished] for its
    [n] jobs, all but the last report [running], and the last reports [complete] if
    there is a completion function and [done] otherwise. *)
Theorem batch_finishes_once {V E} (b : batch V E) n :
  batch_ok b → length (jobs b) = S n → Z.of_nat (S n) < 2 ^ 64 →
  (finish_all (S n) b).1 = replicate n running ++ [if complete b is Some _ then complete_ else done_].
Proof.
  intros Hb Hn Hlt. pose proof (bok_outstanding b Hb). apply finish_all_spec; lia.
Qed.

Lemma batch_finishes_once_witness :
  let b : batch nat nat := add_job_thread 3 0 (add_job_thread 4 2 new_batch) in
  (finish_all 2 b).1 = [running; done_].
Proof.
  intros b. apply (batch_finishes_once b 1).
  - apply batch_ok_add_thread; [apply batch_ok_add_thread; [apply batch_ok_new|]|]; vm_compute; reflexivity.
  - reflexivity.
  - vm_compute. reflexivity.
Defined.

(** C40. Whatever the order in which the workers run the jobs of a batch whose results are
    still empty, the completion function (if the batch has one) is called with one
    result per job, in the order the jobs were added; reading a result gives the job's
    value or rethrows the exception of that job. *)
Theorem batch_results_in_order {V E} (call : callback → V + E) (b : batch V E) order :
  order ≡ₚ seq 0 (length (jobs b)) → results b = replicate (length (jobs b)) empty_result →
  ∃ b' rs, run_jobs call order b = Ok b' ∧
    job_completion b' = (λ f, (f, rs)) <$> complete b ∧
    (get_result <$> rs) = (λ j, match call j.1 with inl v => inr (Some v) | inr e => inl e end) <$> jobs b.
Proof.
  intros Hp Hr. destruct (run_jobs_spec call order b) as (b' & E' & Hj & Hc & Hl & Hres).
  - intros i Hi. rewrite Hp in Hi. apply elem_of_seq in Hi. lia.
  - by rewrite Hr, length_replicate.
  - rewrite Hp. apply NoDup_seq.
  - intros i Hi. rewrite Hp in Hi. apply elem_of_seq in Hi. rewrite Hr. apply lookup_replicate_2. lia.
  - assert (results b' = result_of call <$> (fst <$> jobs b)) as ER.
    { apply list_eq. intros i. rewrite Hres, !list_lookup_fmap.
      destruct (decide (i ∈ order)) as [|Hi]; [done|].
      rewrite Hp, elem_of_seq in Hi. rewrite Hr.
      rewrite !lookup_ge_None_2; [done|lia|rewrite length_replicate; lia]. }
    exists b', (results b'). split_and!; [done|unfold job_completion; by rewrite Hc|]. rewrite ER, <-!list_fmap_compose. apply list_fmap_ext.
    intros i x _. unfold compose, result_of, get_result. by destruct (call x.1).
Qed.

Lemma batch_results_in_order_witness :
  let call := λ f : callback, if decide (f = 4%nat) then inr 99%nat else inl f in
  let b : batch nat nat := match completion 6 None (add_job_thread 3 0 (add_job_thread 4 2 new_batch)) with Ok b => b | _ => new_batch end in
  ∃ b' rs, run_jobs call [1; 0]%nat b = Ok b' ∧ job_completion b' = Some (6%nat, rs) ∧
    (get_result <$> rs) = [inl 99%nat; inr (Some 3%nat)].
Proof.
  intros call b. apply (batch_results_in_order call b [1; 0]%nat).
  - constructor.
  - reflexivity.
Defined.
