(* ===== verification/Admission.v ===== *)
(** The admission policy shared by the proxy's dispatch points, on its own: jobs
    of several kinds, each kind with reserved slots, and a pool of general slots.  A
    job is admitted when its kind has a reserved slot free or fewer than [general]
    jobs run at all.  The lemmas bound the number of jobs that can run. *)
From S2P Require Import Prelude.
Open Scope Z_scope.

Section admission.
Context {K : Type} `{EqDecision K}.
Context (kinds : list K) (reserved : K → Z) (general : Z).
Context (Hnd : NoDup kinds) (Hres : ∀ k, 0 <= reserved k).

(** How many of the running jobs are of kind [k]. *)
Definition cnt (k : K) (run : list K) : Z := Z.of_nat (length (filter (λ x, x = k) run)).

Definition sumZ (f : K → Z) (l : list K) : Z := foldr (λ k s, f k + s) 0 l.

(** The jobs beyond their kind's reservation: these occupy general slots. *)
Definition excess (run : list K) : Z := sumZ (λ k, Z.max 0 (cnt k run - reserved k)) kinds.

Definition slots : Z := general + sumZ reserved kinds.

Lemma cnt_cons k x run : cnt k (x :: run) = cnt k run + (if decide (x = k) then 1 else 0).
Proof.
  unfold cnt. destruct (decide (x = k)); [rewrite filter_cons_True by done|rewrite filter_cons_False by done];
    cbn [length]; lia.
Qed.

Lemma cnt_app k l run : cnt k (l ++ run) = cnt k l + cnt k run.
Proof. unfold cnt. rewrite filter_app, length_app. lia. Qed.

Lemma cnt_nonneg k run : 0 <= cnt k run.
Proof. unfold cnt. lia. Qed.

#[global] Instance cnt_proper k : Proper ((≡ₚ) ==> (=)) (cnt k).
Proof. intros l1 l2 H. unfold cnt. by rewrite H. Qed.

Lemma sumZ_add f g l : sumZ (λ k, f k + g k) l = sumZ f l + sumZ g l.
Proof. induction l as [|k l IH]; cbn; [done|]. unfold sumZ in *. lia. Qed.

Lemma sumZ_le f g l : (∀ k, k ∈ l → f k <= g k) → sumZ f l <= sumZ g l.
Proof.
  induction l as [|k l IH]; intros H; [done|]. unfold sumZ in *. cbn.
  pose proof (H k ltac:(by left)). specialize (IH ltac:(intros; apply H; by right)). lia.
Qed.

Lemma sumZ_ext f g l : (∀ k, k ∈ l → f k = g k) → sumZ f l = sumZ g l.
Proof. intros H. apply Z.le_antisymm; apply sumZ_le; intros k Hk; rewrite H by done; lia. Qed.

Lemma sumZ_indicator (x : K) (l : list K) v :
  NoDup l → sumZ (λ k, if decide (x = k) then v else 0) l = if decide (x ∈ l) then v else 0.
Proof.
  induction 1 as [|k l Hk Hl IH]; [done|]. unfold sumZ in *. cbn. rewrite IH.
  destruct (decide (x = k)) as [->|Hne].
  - rewrite decide_False by done. rewrite decide_True by (by left). lia.
  - destruct (decide (x ∈ l)); [rewrite decide_True by (by right)|rewrite decide_False by set_solver]; lia.
Qed.

Lemma sumZ_zero f l : (∀ k, f k = 0) → sumZ f l = 0.
Proof. intros H. induction l as [|k l IH]; [done|]. unfold sumZ in *. cbn. by rewrite H, IH. Qed.

(** Every running job has a kind in [kinds], so the counts add up. *)
Lemma sum_cnt run : (∀ k, k ∈ run → k ∈ kinds) → sumZ (λ k, cnt k run) kinds = Z.of_nat (length run).
Proof using Hnd Hres.
  induction run as [|x run IH]; intros H.
  - by apply sumZ_zero.
  - rewrite (sumZ_ext _ (λ k, cnt k run + (if decide (x = k) then 1 else 0))) by (intros; apply cnt_cons).
    rewrite sumZ_add, IH by set_solver. rewrite sumZ_indicator by done.
    rewrite decide_True by set_solver. cbn [length]. lia.
Qed.

#[global] Instance excess_proper : Proper ((≡ₚ) ==> (=)) excess.
Proof. intros l1 l2 H. apply sumZ_ext. intros k _. by rewrite H. Qed.

Lemma excess_cons_reserved x run : cnt x run < reserved x → excess (x :: run) = excess run.
Proof.
  intros Hx. apply sumZ_ext. intros k _. rewrite cnt_cons. destruct (decide (x = k)) as [->|]; lia.
Qed.

Lemma excess_cons_le x run : excess run <= excess (x :: run) <= excess run + 1.
Proof using Hnd Hres.
  split.
  - apply sumZ_le. intros k _. rewrite cnt_cons. destruct (decide (x = k)); lia.
  - etrans; [apply (sumZ_le _ (λ k, Z.max 0 (cnt k run - reserved k) + (if decide (x = k) then 1 else 0)))|].
    + intros k _. rewrite cnt_cons. destruct (decide (x = k)); lia.
    + rewrite sumZ_add, sumZ_indicator by done. unfold excess. destruct (decide (x ∈ kinds)); lia.
Qed.

Lemma excess_le_length run : (∀ k, k ∈ run → k ∈ kinds) → excess run <= Z.of_nat (length run).
Proof using Hnd Hres.
  intros H. rewrite <-sum_cnt by done. apply sumZ_le. intros k _.
  pose proof (cnt_nonneg k run). specialize (Hres k). lia.
Qed.

Lemma length_le_excess run :
  (∀ k, k ∈ run → k ∈ kinds) → Z.of_nat (length run) <= sumZ reserved kinds + excess run.
Proof using Hnd Hres.
  intros H. rewrite <-sum_cnt by done. unfold excess. rewrite <-sumZ_add. apply sumZ_le. intros k _. lia.
Qed.

(** An admitted job keeps the general slots from being oversubscribed and finds a
    slot. *)
Lemma slot_found x run :
  (∀ k, k ∈ run → k ∈ kinds) → x ∈ kinds → excess run <= general →
  cnt x run < reserved x ∨ Z.of_nat (length run) < general →
  excess (x :: run) <= general ∧ Z.of_nat (length run) < slots.
Proof using Hnd Hres.
  intros Hrun Hx Hex Hadm.
  assert (excess (x :: run) <= general) as Hex'.
  { destruct Hadm as [Hr|Hg]; [by rewrite excess_cons_reserved|].
    pose proof (excess_le_length run Hrun). pose proof (excess_cons_le x run). lia. }
  split; [done|]. pose proof (length_le_excess (x :: run) ltac:(set_solver)) as Hl.
  cbn [length] in Hl. unfold slots. lia.
Qed.

Lemma release x run : excess (x :: run) <= general → excess run <= general.
Proof using Hnd Hres. pose proof (excess_cons_le x run). lia. Qed.

Lemma excess_nil : excess [] = 0.
Proof using Hres.
  apply sumZ_zero. intros k. specialize (Hres k). unfold cnt. cbn. lia.
Qed.
End admission.
