(* ===== verification/Scheduler.v ===== *)
(** worker.cpp, jobs.cpp, proxy.cpp, arqmamq.cpp: the proxy's dispatch of
    commands, injected tasks and batch jobs to worker threads, with its queues and
    its accounting of active threads.  All of this state belongs to the proxy thread,
    which runs one handler at a time; workers are seen through the messages they
    send. *)
From S2P Require Import Prelude BtValue BtSerialize BtCodec Commands Connections Auth Batch.
Open Scope Z_scope.

(** ** Data *)

(** Batches are owned through pointers; results are not inspected by the proxy. *)
Abbreviation ptr := nat.
Abbreviation batch_job := (nat * Z)%type.   (* the batch and the job number, -1 for completion *)
Abbreviation Batch := (batch unit unit).

(** [run_info::to_run]; a batch pointer that has been cleared is null. *)
Inductive to_run_t : Type :=
  | run_command (cb : callback) (is_request : bool)
  | run_batch (p : option ptr)
  | run_injected (cb : callback).

(** [cat] points to a category; [worker_thread] is [worker_thread.joinable()]. *)
Record run_info : Type := mkRun {
  is_batch_job : bool;
  is_reply_job : bool;
  is_tagged_thread_job : bool;
  is_injected : bool;
  cat : bytes;
  command : bytes;
  conn : ConnectionID;
  run_access : Access;
  remote : bytes;
  data_parts : list bytes;
  batch_jobno : Z;
  to_run : to_run_t;
  worker_thread : bool;
  worker_id : nat;
  worker_routing_id : bytes
}.

(** What a pending command runs: a registered command or an injected function. *)
Inductive pending_callback : Type :=
  | pending_cmd (cb : callback) (is_request : bool)
  | pending_fn (cb : callback).

Record pending_command : Type := mkPending {
  pc_cat : bytes;
  pc_command : bytes;
  pc_data_parts : list bytes;
  pc_callback : pending_callback;
  pc_conn : ConnectionID;
  pc_access : Access;
  pc_remote : bytes
}.

(** Messages and thread actions, in the order the proxy performs them. *)
Inductive event : Type :=
  | ev_spawn (worker : nat)               (* std::thread{worker_thread(id)} *)
  | ev_run (routing_id : bytes)           (* RUN to a waiting worker *)
  | ev_quit (routing_id : bytes)          (* QUIT to a worker *)
  | ev_completion (p : ptr)               (* in-proxy completion call *)
  | ev_delete (p : ptr)                   (* delete batch *)
  | ev_join (routing_id : bytes).         (* worker_thread.join() *)

Record sched : Type := mkSched {
  general_workers : Z;
  max_workers : Z;
  capacity : nat;                         (* workers.capacity() *)
  workers : list run_info;
  idle_workers : list nat;                (* back at the head *)
  tagged_workers : list (run_info * bool * list batch_job);
  batches : gset ptr;
  heap : gmap ptr Batch;                  (* the live Batch objects *)
  batch_jobs : list batch_job;
  reply_jobs : list batch_job;
  batch_jobs_active : Z;
  reply_jobs_active : Z;
  batch_jobs_reserved : Z;
  reply_jobs_reserved : Z;
  cats : gmap bytes category;
  pending_commands : list pending_command;
  proxy_skip_one_poll : bool;
  events : list event                     (* most recent first *)
}.

(** Field updates. *)
Definition with_max_workers (x : Z) (s : sched) : sched :=
  mkSched (general_workers s) x (capacity s) (workers s) (idle_workers s) (tagged_workers s) (batches s)
    (heap s) (batch_jobs s) (reply_jobs s) (batch_jobs_active s) (reply_jobs_active s)
    (batch_jobs_reserved s) (reply_jobs_reserved s) (cats s) (pending_commands s) (proxy_skip_one_poll s)
    (events s).
Definition with_workers (x : list run_info) (s : sched) : sched :=
  mkSched (general_workers s) (max_workers s) (capacity s) x (idle_workers s) (tagged_workers s) (batches
    s) (heap s) (batch_jobs s) (reply_jobs s) (batch_jobs_active s) (reply_jobs_active s)
    (batch_jobs_reserved s) (reply_jobs_reserved s) (cats s) (pending_commands s) (proxy_skip_one_poll s)
    (events s).
Definition with_idle_workers (x : list nat) (s : sched) : sched :=
  mkSched (general_workers s) (max_workers s) (capacity s) (workers s) x (tagged_workers s) (batches s)
    (heap s) (batch_jobs s) (reply_jobs s) (batch_jobs_active s) (reply_jobs_active s)
    (batch_jobs_reserved s) (reply_jobs_reserved s) (cats s) (pending_commands s) (proxy_skip_one_poll s)
    (events s).
Definition with_tagged_workers (x : list (run_info * bool * list batch_job)) (s : sched) : sched :=
  mkSched (general_workers s) (max_workers s) (capacity s) (workers s) (idle_workers s) x (batches s)
    (heap s) (batch_jobs s) (reply_jobs s) (batch_jobs_active s) (reply_jobs_active s)
    (batch_jobs_reserved s) (reply_jobs_reserved s) (cats s) (pending_commands s) (proxy_skip_one_poll s)
    (events s).
Definition with_batches (x : gset ptr) (s : sched) : sched :=
  mkSched (general_workers s) (max_workers s) (capacity s) (workers s) (idle_workers s) (tagged_workers
    s) x (heap s) (batch_jobs s) (reply_jobs s) (batch_jobs_active s) (reply_jobs_active s)
    (batch_jobs_reserved s) (reply_jobs_reserved s) (cats s) (pending_commands s) (proxy_skip_one_poll s)
    (events s).
Definition with_heap (x : gmap ptr Batch) (s : sched) : sched :=
  mkSched (general_workers s) (max_workers s) (capacity s) (workers s) (idle_workers s) (tagged_workers
    s) (batches s) x (batch_jobs s) (reply_jobs s) (batch_jobs_active s) (reply_jobs_active s)
    (batch_jobs_reserved s) (reply_jobs_reserved s) (cats s) (pending_commands s) (proxy_skip_one_poll s)
    (events s).
Definition with_batch_jobs (x : list batch_job) (s : sched) : sched :=
  mkSched (general_workers s) (max_workers s) (capacity s) (workers s) (idle_workers s) (tagged_workers
    s) (batches s) (heap s) x (reply_jobs s) (batch_jobs_active s) (reply_jobs_active s)
    (batch_jobs_reserved s) (reply_jobs_reserved s) (cats s) (pending_commands s) (proxy_skip_one_poll s)
    (events s).
Definition with_reply_jobs (x : list batch_job) (s : sched) : sched :=
  mkSched (general_workers s) (max_workers s) (capacity s) (workers s) (idle_workers s) (tagged_workers
    s) (batches s) (heap s) (batch_jobs s) x (batch_jobs_active s) (reply_jobs_active s)
    (batch_jobs_reserved s) (reply_jobs_reserved s) (cats s) (pending_commands s) (proxy_skip_one_poll s)
    (events s).
Definition with_batch_jobs_active (x : Z) (s : sched) : sched :=
  mkSched (general_workers s) (max_workers s) (capacity s) (workers s) (idle_workers s) (tagged_workers
    s) (batches s) (heap s) (batch_jobs s) (reply_jobs s) x (reply_jobs_active s) (batch_jobs_reserved s)
    (reply_jobs_reserved s) (cats s) (pending_commands s) (proxy_skip_one_poll s) (events s).
Definition with_reply_jobs_active (x : Z) (s : sched) : sched :=
  mkSched (general_workers s) (max_workers s) (capacity s) (workers s) (idle_workers s) (tagged_workers
    s) (batches s) (heap s) (batch_jobs s) (reply_jobs s) (batch_jobs_active s) x (batch_jobs_reserved s)
    (reply_jobs_reserved s) (cats s) (pending_commands s) (proxy_skip_one_poll s) (events s).
Definition with_cats (x : gmap bytes category) (s : sched) : sched :=
  mkSched (general_workers s) (max_workers s) (capacity s) (workers s) (idle_workers s) (tagged_workers
    s) (batches s) (heap s) (batch_jobs s) (reply_jobs s) (batch_jobs_active s) (reply_jobs_active s)
    (batch_jobs_reserved s) (reply_jobs_reserved s) x (pending_commands s) (proxy_skip_one_poll s)
    (events s).
Definition with_pending_commands (x : list pending_command) (s : sched) : sched :=
  mkSched (general_workers s) (max_workers s) (capacity s) (workers s) (idle_workers s) (tagged_workers
    s) (batches s) (heap s) (batch_jobs s) (reply_jobs s) (batch_jobs_active s) (reply_jobs_active s)
    (batch_jobs_reserved s) (reply_jobs_reserved s) (cats s) x (proxy_skip_one_poll s) (events s).
Definition with_proxy_skip_one_poll (x : bool) (s : sched) : sched :=
  mkSched (general_workers s) (max_workers s) (capacity s) (workers s) (idle_workers s) (tagged_workers
    s) (batches s) (heap s) (batch_jobs s) (reply_jobs s) (batch_jobs_active s) (reply_jobs_active s)
    (batch_jobs_reserved s) (reply_jobs_reserved s) (cats s) (pending_commands s) x (events s).
Definition with_events (x : list event) (s : sched) : sched :=
  mkSched (general_workers s) (max_workers s) (capacity s) (workers s) (idle_workers s) (tagged_workers
    s) (batches s) (heap s) (batch_jobs s) (reply_jobs s) (batch_jobs_active s) (reply_jobs_active s)
    (batch_jobs_reserved s) (reply_jobs_reserved s) (cats s) (pending_commands s) (proxy_skip_one_poll s)
    x.

Definition log_event (e : event) (s : sched) : sched := with_events (e :: events s) s.

(** [workers.size() - idle_workers.size()] *)
Definition active_workers (s : sched) : Z := Z.of_nat (length (workers s)) - Z.of_nat (length (idle_workers s)).

(** ** [run_info::load] and [reset] *)
Definition set_flags (b r t i : bool) (x : run_info) : run_info :=
  mkRun b r t i (cat x) (command x) (conn x) (run_access x) (remote x) (data_parts x) (batch_jobno x)
    (to_run x) (worker_thread x) (worker_id x) (worker_routing_id x).
Definition reset (x : run_info) : run_info := set_flags false false false false x.

Definition load_command (cat_ command_ : bytes) (conn_ : ConnectionID) (access_ : Access) (remote_ : bytes)
    (data_parts_ : list bytes) (cb : callback) (is_request : bool) (x : run_info) : run_info :=
  let x := reset x in
  mkRun (is_batch_job x) (is_reply_job x) (is_tagged_thread_job x) (is_injected x)
    cat_ command_ conn_ access_ remote_ data_parts_ (batch_jobno x) (run_command cb is_request)
    (worker_thread x) (worker_id x) (worker_routing_id x).

Definition load_injected (cat_ command_ remote_ : bytes) (cb : callback) (x : run_info) : run_info :=
  let x := set_flags false false false true (reset x) in
  mkRun (is_batch_job x) (is_reply_job x) (is_tagged_thread_job x) (is_injected x)
    cat_ command_ (conn_of_id 0) default_access remote_ (data_parts x) (batch_jobno x) (run_injected cb)
    (worker_thread x) (worker_id x) (worker_routing_id x).

Definition load_pending (p : pending_command) (x : run_info) : run_info :=
  match pc_callback p with
  | pending_fn f => load_injected (pc_cat p) (pc_command p) (pc_remote p) f x
  | pending_cmd cb is_request =>
      load_command (pc_cat p) (pc_command p) (pc_conn p) (pc_access p) (pc_remote p) (pc_data_parts p) cb is_request x
  end.

Definition load_batch (bj : batch_job) (reply_job : bool) (tagged_thread : Z) (x : run_info) : run_info :=
  let x := set_flags true reply_job (0 <? tagged_thread) false (reset x) in
  mkRun (is_batch_job x) (is_reply_job x) (is_tagged_thread_job x) (is_injected x)
    (cat x) (command x) (conn x) (run_access x) (remote x) (data_parts x) bj.2 (run_batch (Some bj.1))
    (worker_thread x) (worker_id x) (worker_routing_id x).

(** A default-constructed element with its identity set. *)
Definition fresh_worker (w : nat) : run_info :=
  mkRun false false false false [] [] (conn_of_id 0) default_access [] [] 0 (run_command 0 false)
    false w ("w"%byte :: print_nat (Z.of_nat w)).

(** ** Workers *)

(** [get_idle_worker]: the index of the worker to load.  The assertion that the
    vector does not reallocate (workers hold references into it) aborts. *)
Definition get_idle_worker (s : sched) : outcome (nat * sched) :=
  match idle_workers s with
  | [] =>
      let w := length (workers s) in
      if (w <? capacity s)%nat then Ok (w, with_workers (workers s ++ [fresh_worker w]) s) else UB
  | w :: rest => Ok (w, with_idle_workers rest s)
  end.

Definition set_joinable (b : bool) (x : run_info) : run_info :=
  mkRun (is_batch_job x) (is_reply_job x) (is_tagged_thread_job x) (is_injected x)
    (cat x) (command x) (conn x) (run_access x) (remote x) (data_parts x) (batch_jobno x) (to_run x)
    b (worker_id x) (worker_routing_id x).

(** [proxy_run_worker] on the element [x]: the element and what was done. *)
Definition proxy_run_worker (x : run_info) : run_info * event :=
  if worker_thread x then (x, ev_run (worker_routing_id x))
  else (set_joinable true x, ev_spawn (worker_id x)).

(** [proxy_run_worker(get_idle_worker().load(...))] *)
Definition run_on_idle (load : run_info → run_info) (s : sched) : outcome sched :=
  '(w, s) ← get_idle_worker s;
  match workers s !! w with
  | None => UB
  | Some x =>
      let (x, e) := proxy_run_worker (load x) in
      Ok (log_event e (with_workers (<[w := x]> (workers s)) s))
  end.

Definition set_active_threads (n : Z) (c : category) : category :=
  mkCategory (access c) (commands c) (reserved_threads c) n (max_queue c) (queued c).
Definition set_queued (n : Z) (c : category) : category :=
  mkCategory (access c) (commands c) (reserved_threads c) (active_threads c) (max_queue c) n.

(** Updates the category a reference points to. *)
Definition update_cat (name : bytes) (f : category → category) (s : sched) : outcome sched :=
  match cats s !! name with
  | Some c => Ok (with_cats (<[name := f c]> (cats s)) s)
  | None => UB
  end.

(** No reserved or general slot is free for the category. *)
Definition no_slot (c : category) (s : sched) : bool :=
  (reserved_threads c <=? active_threads c) && (general_workers s <=? active_workers s).

(** The queue-or-run decision shared by [proxy_to_worker] and [proxy_inject_task]:
    [load] fills the worker's [run_info], [p] is the queue entry. *)
Definition queue_command (p : pending_command) (c : category) (s : sched) : outcome sched :=
  if (0 <=? max_queue c) && (max_queue c <=? queued c) then Ok s
  else update_cat (pc_cat p) (λ c, set_queued (queued c + 1) c)
         (with_pending_commands (pending_commands s ++ [p]) s).

Definition start_command (name : bytes) (load : run_info → run_info) (s : sched) : outcome sched :=
  s ← run_on_idle load s;
  update_cat name (λ c, set_active_threads (active_threads c + 1) c) s.

Definition proxy_inject_task (name command_ remote_ : bytes) (cb : callback) (s : sched) : outcome sched :=
  match cats s !! name with
  | None => UB
  | Some c =>
      if no_slot c s
      then queue_command (mkPending name command_ [] (pending_fn cb) (conn_of_id 0) default_access remote_) c s
      else start_command name (load_injected name command_ remote_ cb) s
  end.

(** ** Batches *)
Definition push_job (reply : bool) (j : batch_job) (s : sched) : sched :=
  if reply then with_reply_jobs (reply_jobs s ++ [j]) s else with_batch_jobs (batch_jobs s ++ [j]) s.

(** A queue of a tagged worker, by its 1-based id. *)
Definition push_tagged (t : Z) (j : batch_job) (s : sched) : outcome sched :=
  match tagged_workers s !! Z.to_nat (t - 1) with
  | Some (r, b, q) => Ok (with_tagged_workers (<[Z.to_nat (t - 1) := (r, b, q ++ [j])]> (tagged_workers s)) s)
  | None => UB
  end.

Fixpoint queue_jobs (p : ptr) (i : nat) (ts : list Z) (s : sched) : outcome sched :=
  match ts with
  | [] => Ok s
  | t :: ts' =>
      s ← (if 0 <? t then push_tagged t (p, Z.of_nat i) s else Ok (push_job false (p, Z.of_nat i) s));
      queue_jobs p (S i) ts' s
  end.

Definition proxy_batch (p : ptr) (s : sched) : outcome sched :=
  match heap s !! p with
  | None => UB
  | Some b =>
      let s := with_batches ({[p]} ∪ batches s) s in
      let (n, tagged) := batch_size b in
      s ← (if tagged then queue_jobs p 0 (threads b) s else queue_jobs p 0 (replicate n 0) s);
      Ok (with_proxy_skip_one_poll true s)
  end.

(** [new Batch<void>] at a fresh address [p]. *)
Definition alloc_batch (p : ptr) (b : Batch) (s : sched) : sched := with_heap (<[p := b]> (heap s)) s.

Definition proxy_schedule_reply_job (p : ptr) (f : callback) (s : sched) : sched :=
  let s := alloc_batch p (add_job_thread f 0 new_batch) s in
  let s := with_batches ({[p]} ∪ batches s) s in
  with_proxy_skip_one_poll true (push_job true (p, 0) s).

(** [ArqmaMQ::batch] and [job]: the client moves the batch to a fresh address and
    sends the pointer to the proxy, which takes it over. *)
Definition submit_batch (p : ptr) (b : Batch) (s : sched) : outcome sched :=
  if ((batch_size b).1 =? 0)%nat then Throw logic_error else proxy_batch p (alloc_batch p b s).

Definition submit_job (p : ptr) (f : callback) (thread : option Z) (s : sched) : outcome sched :=
  if bool_decide (thread = Some (-1)) then Throw logic_error
  else b ← add_job f thread new_batch; proxy_batch p (alloc_batch p b s).

Definition jobs_queue (reply : bool) (s : sched) : list batch_job := if reply then reply_jobs s else batch_jobs s.
Definition jobs_reserved (reply : bool) (s : sched) : Z := if reply then reply_jobs_reserved s else batch_jobs_reserved s.
Definition jobs_active (reply : bool) (s : sched) : Z := if reply then reply_jobs_active s else batch_jobs_active s.
Definition set_jobs_queue (reply : bool) (q : list batch_job) (s : sched) : sched :=
  if reply then with_reply_jobs q s else with_batch_jobs q s.
Definition set_jobs_active (reply : bool) (n : Z) (s : sched) : sched :=
  if reply then with_reply_jobs_active n s else with_batch_jobs_active n s.

Definition batch_slot (reply : bool) (s : sched) : bool :=
  (active_workers s <? max_workers s)
  && ((jobs_active reply s <? jobs_reserved reply s) || (active_workers s <? general_workers s)).

(** [proxy_run_batch_jobs]: one iteration per queued job at most. *)
Fixpoint run_batch_jobs (fuel : nat) (reply : bool) (s : sched) : outcome sched :=
  match fuel with
  | O => Diverge
  | S fuel' =>
      match jobs_queue reply s with
      | [] => Ok s
      | j :: q =>
          if batch_slot reply s then
            s ← run_on_idle (load_batch j reply 0) s;
            let s := set_jobs_queue reply q s in
            run_batch_jobs fuel' reply (set_jobs_active reply (jobs_active reply s + 1) s)
          else Ok s
      end
  end.

Definition proxy_run_batch_jobs (reply : bool) (s : sched) : outcome sched :=
  run_batch_jobs (S (length (jobs_queue reply s))) reply s.

(** ** [proxy_process_queue] *)

(** The loop over the tagged workers, from index [i]. *)
Fixpoint run_tagged (n i : nat) (s : sched) : sched :=
  match n with
  | O => s
  | S n' =>
      let s := match tagged_workers s !! i with
        | Some (r, false, j :: q) =>
            let (r, e) := proxy_run_worker (load_batch j false (Z.of_nat (worker_id r)) r) in
            log_event e (with_tagged_workers (<[i := (r, true, q)]> (tagged_workers s)) s)
        | _ => s
        end in
      run_tagged n' (S i) s
  end.

(** The loop over the pending commands: [kept] are those passed over. *)
Fixpoint run_pending (kept rest : list pending_command) (s : sched) : outcome sched :=
  match rest with
  | [] => Ok (with_pending_commands kept s)
  | p :: rest' =>
      if active_workers s <? max_workers s then
        match cats s !! pc_cat p with
        | None => UB
        | Some c =>
            if (active_threads c <? reserved_threads c) || (active_workers s <? general_workers s) then
              s ← run_on_idle (load_pending p) s;
              if queued c - 1 <? 0 then UB
              else
                s ← update_cat (pc_cat p) (λ c, set_active_threads (active_threads c + 1) (set_queued (queued c - 1) c)) s;
                run_pending kept rest' s
            else run_pending (kept ++ [p]) rest' s
        end
      else Ok (with_pending_commands (kept ++ rest) s)
  end.

Definition proxy_process_queue (s : sched) : outcome sched :=
  if max_workers s =? 0 then Ok s
  else
    let s := run_tagged (length (tagged_workers s)) 0 s in
    s ← proxy_run_batch_jobs false s;
    s ← proxy_run_batch_jobs true s;
    run_pending [] (pending_commands s) s.

(** ** [proxy_worker_message] *)

(** The worker a routing id names: tagged or not, and the 0-based index. *)
Definition parse_route (s : sched) (route_ : bytes) : outcome (option (bool * nat)) :=
  match route_ with
  | t :: d :: _ =>
      if negb (bool_decide (t = "w"%byte) || bool_decide (t = "t"%byte)) || negb (is_digit d) then UB
      else
        let tagged := bool_decide (t = "t"%byte) in
        match extract_unsigned (tail route_) with
        | (Ok n, rest) =>
            let n := it_cast uint32_t n in
            if negb (bool_decide (rest = []))
               || (if tagged then (n =? 0) || (Z.of_nat (length (tagged_workers s)) <? n)
                   else Z.of_nat (length (workers s)) <=? n)
            then Ok None
            else Ok (Some (tagged, Z.to_nat (if tagged then n - 1 else n)))
        | (Throw e, _) => Throw e
        | (UB, _) => UB
        | (Diverge, _) => Diverge
        end
  | _ => UB
  end.

Definition get_run (tagged : bool) (w : nat) (s : sched) : option run_info :=
  if tagged then (λ x, x.1.1) <$> tagged_workers s !! w else workers s !! w.

Definition set_run (tagged : bool) (w : nat) (x : run_info) (s : sched) : sched :=
  if tagged then
    match tagged_workers s !! w with
    | Some (_, b, q) => with_tagged_workers (<[w := (x, b, q)]> (tagged_workers s)) s
    | None => s
    end
  else with_workers (<[w := x]> (workers s)) s.

(** A finished batch job frees its slot: the tagged worker, or the reply or batch
    count (asserted positive). *)
Definition release_slot (tagged : bool) (w : nat) (run : run_info) (s : sched) : outcome sched :=
  if tagged then
    match tagged_workers s !! w with
    | Some (r, _, q) => Ok (with_tagged_workers (<[w := (r, false, q)]> (tagged_workers s)) s)
    | None => UB
    end
  else if 0 <? jobs_active (is_reply_job run) s
  then Ok (set_jobs_active (is_reply_job run) (jobs_active (is_reply_job run) s - 1) s)
  else UB.

(** [batches.erase(batch); delete batch; run.to_run = nullptr] *)
Definition set_to_run (t : to_run_t) (x : run_info) : run_info :=
  mkRun (is_batch_job x) (is_reply_job x) (is_tagged_thread_job x) (is_injected x)
    (cat x) (command x) (conn x) (run_access x) (remote x) (data_parts x) (batch_jobno x) t
    (worker_thread x) (worker_id x) (worker_routing_id x).

Definition clear_job (tagged : bool) (w : nat) (run : run_info) (p : ptr) (s : sched) : sched :=
  let s := with_batches (batches s ∖ {[p]}) s in
  let s := log_event (ev_delete p) (with_heap (delete p (heap s)) s) in
  set_run tagged w (set_to_run (run_batch None) run) s.

(** The batch part of ["RAN"]: [run] has just run a job or the completion of [p]. *)
Definition batch_job_ran (tagged : bool) (w : nat) (run : run_info) (p : ptr) (s : sched) : outcome sched :=
  if batch_jobno run =? -1 then Ok (clear_job tagged w run p s)
  else
    match heap s !! p with
    | None => UB
    | Some b =>
        let (st, b) := job_finished b in
        let s := with_heap (<[p := b]> (heap s)) s in
        match bs_state st with
        | complete_ =>
            if bs_thread st =? -1
            then Ok (clear_job tagged w run p (log_event (ev_completion p) s))
            else if 0 <? bs_thread st then push_tagged (bs_thread st) (p, -1) s
            else Ok (push_job (is_reply_job run) (p, -1) s)
        | done_ => Ok (clear_job tagged w run p s)
        | running => Ok s
        end
    end.

Definition worker_ran (tagged : bool) (w : nat) (route_ : bytes) (s : sched) : outcome sched :=
  match get_run tagged w s with
  | None => UB
  | Some run =>
      s ← (if is_batch_job run then
             s ← release_slot tagged w run s;
             match to_run run with
             | run_batch (Some p) => batch_job_ran tagged w run p s
             | run_batch None => UB
             | _ => Throw bad_variant_access
             end
           else
             match cats s !! cat run with
             | Some c => if 0 <? active_threads c
                         then update_cat (cat run) (λ c, set_active_threads (active_threads c - 1) c) s
                         else UB
             | None => UB
             end);
      if max_workers s =? 0 then Ok (log_event (ev_quit route_) s)
      else if tagged then Ok s
      else Ok (with_idle_workers (w :: idle_workers s) s)
  end.

Definition proxy_worker_message (parts : list bytes) (s : sched) : outcome sched :=
  match parts with
  | [route_; cmd] =>
      target ← parse_route s route_;
      match target with
      | None => Ok s
      | Some (tagged, w) =>
          if bytes_eqb cmd (B "RAN") then worker_ran tagged w route_ s
          else if bytes_eqb cmd (B "QUITTING") then
            match get_run tagged w s with
            | Some run =>
                if worker_thread run then Ok (log_event (ev_join route_) (set_run tagged w (set_joinable false run) s))
                else Throw runtime_error   (* std::system_error: not joinable *)
            | None => UB
            end
          else Ok s
      end
  | _ => Ok s
  end.

(** ** Startup and shutdown *)

(** The part of [proxy_loop] that sizes the worker pool. *)
Definition proxy_start (t : thread_config) (cs : gmap bytes category)
    (tagged : list (run_info * bool * list batch_job)) : outcome sched :=
  if general_workers_cfg t <=? 0 then UB
  else
    let general := general_workers_cfg t in
    let batch_res := if batch_jobs_reserved_cfg t <? 0 then (general + 1) / 2 else batch_jobs_reserved_cfg t in
    let reply_res := if reply_jobs_reserved_cfg t <? 0 then (general + 7) / 8 else reply_jobs_reserved_cfg t in
    let max := foldr (λ nc m, m + reserved_threads nc.2) (general + batch_res + reply_res) (map_to_list cs) in
    Ok (mkSched general max (Z.to_nat max) [] [] tagged ∅ ∅ [] [] 0 0 batch_res reply_res cs [] false []).

(** The ["QUIT"] control command. *)
Definition proxy_quit_command (s : sched) : sched :=
  let s := with_max_workers 0 s in
  let s := foldl (λ s w, match workers s !! w with
                         | Some x => log_event (ev_quit (worker_routing_id x)) s
                         | None => s
                         end) s (rev (idle_workers s)) in
  let s := with_idle_workers [] s in
  foldl (λ s x, if (x.1.2 : bool) then s else log_event (ev_quit (worker_routing_id x.1.1)) s) s (tagged_workers s).

(** [add_tagged_thread] *)
Definition add_tagged_thread (is_started : bool) (name : bytes) (tagged : list (run_info * bool * list batch_job))
    : outcome (Z * list (run_info * bool * list batch_job)) :=
  if is_started then Throw logic_error
  else if bytes_eqb name (B "_proxy") || bool_decide (name = []) || bool_decide (Byte.x00 ∈ name) then Throw logic_error
  else
    let n := S (length tagged) in
    let x := fresh_worker n in
    let x := mkRun (is_batch_job x) (is_reply_job x) (is_tagged_thread_job x) (is_injected x)
      (cat x) (command x) (conn x) (run_access x) (remote x) (data_parts x) (batch_jobno x) (to_run x)
      true n ("t"%byte :: print_nat (Z.of_nat n)) in
    Ok (Z.of_nat n, tagged ++ [(x, false, [])]).

(** ** [proxy_to_worker] *)

(** An incoming message: its parts, the [User-Id], [X-AuthLevel] and [Peer-Address]
    properties zmq attaches, and the time. *)
Record incoming : Type := mkIncoming {
  in_parts : list bytes;
  in_user_id : option bytes;
  in_auth : option bytes;
  in_address : bytes;
  in_now : Z
}.

Definition set_auth_level (l : AuthLevel) (p : peer_info) : peer_info :=
  mkPeer (peer_pubkey p) (service_node p) l (conn_index p) (peer_route p) (last_activity p) (idle_expiry p).
Definition set_activity (t : Z) (p : peer_info) : peer_info :=
  mkPeer (peer_pubkey p) (service_node p) (auth_level p) (conn_index p) (peer_route p) t (idle_expiry p).

(** The peer, the tables (a service node's first message adds its entry) and the
    route that is left in [tmp_peer]: moving it into the table empties it. *)
Definition incoming_lookup (index : nat) (m : incoming) (rt : bytes) (cs : conns) : outcome (peer_info * bytes * conns) :=
  tmp ← incoming_peer (active_service_nodes cs) index rt (in_user_id m) (in_auth m);
  if service_node tmp then
    c ← conn_of_pubkey (peer_pubkey tmp);
    match list_find (λ q, conn_eqb q.1 c && (conn_index q.2 =? index)%nat && bytes_eqb (peer_route q.2) rt = true) (peers cs) with
    | Some (i, (c', p)) =>
        let p := set_auth_level (auth_level tmp) p in
        Ok (p, rt, set_peers (<[i := (c', p)]> (peers cs)) cs)
    | None => Ok (tmp, [], set_peers (peers cs ++ [(c, tmp)]) cs)
    end
  else Ok (tmp, rt, cs).

Definition locate_peer (out : bool) (index : nat) (m : incoming) (cs : conns) : outcome (option (peer_info * bytes * conns)) :=
  if out then
    match conn_index_to_id cs !! index with
    | None => UB
    | Some c =>
        match list_find (λ q, conn_eqb q.1 c = true) (peers cs) with
        | Some (_, (_, p)) => Ok (Some (p, [], cs))
        | None => Ok None
        end
    end
  else
    match in_parts m with
    | rt :: _ => x ← incoming_lookup index m rt cs; Ok (Some x)
    | [] => UB
    end.

(** [peer->activity()] for an outgoing connection. *)
Definition pump_activity (index : nat) (now : Z) (cs : conns) : conns :=
  match conn_index_to_id cs !! index with
  | Some c =>
      match list_find (λ q, conn_eqb q.1 c = true) (peers cs) with
      | Some (i, (c', p)) => set_peers (<[i := (c', set_activity now p)]> (peers cs)) cs
      | None => cs
      end
  | None => cs
  end.

(** [{service_node ? SN_ID : conn_index_to_id[conn_index].id, pubkey, route}] *)
Definition message_conn (index : nat) (p : peer_info) (rt : bytes) (cs : conns) : outcome ConnectionID :=
  if service_node p then Ok (mkConn SN_ID (peer_pubkey p) rt)
  else match conn_index_to_id cs !! index with
       | Some c => Ok (mkConn (id c) (peer_pubkey p) rt)
       | None => UB
       end.

(** The result: the tables, the scheduler and the error message sent, if any. *)
Definition proxy_to_worker (local_service_node : bool) (aliases : gmap bytes bytes) (index : nat)
    (m : incoming) (cs : conns) (s : sched) : outcome (conns * sched * option (list bytes)) :=
  match connections cs !! index with
  | None => UB
  | Some sock =>
      let out := match sock_type sock with dealer => true | router => false end in
      located ← locate_peer out index m cs;
      match located with
      | None => Ok (cs, s, None)
      | Some (peer, rt, cs) =>
          let command_part_index := if out then 0%nat else 1%nat in
          match in_parts m !! command_part_index with
          | None => UB
          | Some cmd =>
              let data := drop (S command_part_index) (in_parts m) in
              let '(found, command_) := get_command (mkRegistry true (cats s) aliases) cmd in
              let call := '(cn, cm) ← found; c ← cats s !! cn; x ← commands c !! cm; mret (c, snd x) in
              match proxy_check_auth local_service_node out peer cmd call data, found with
              | Some parts, _ => Ok (cs, s, Some parts)
              | None, None => UB
              | None, Some (cn, cm) =>
                  match cats s !! cn with
                  | None => UB
                  | Some c =>
                      match commands c !! cm with
                      | None => UB
                      | Some (cb, is_request) =>
                          let acc := mkAccess (auth_level peer) (service_node peer) local_service_node in
                          conn_ ← message_conn index peer rt cs;
                          if no_slot c s then
                            s ← queue_command (mkPending cn command_ data (pending_cmd cb is_request) conn_ acc (in_address m)) c s;
                            Ok (cs, s, None)
                          else if is_request && bool_decide (data = []) then Ok (cs, s, None)
                          else
                            s ← start_command cn (load_command cn command_ conn_ acc (in_address m) data cb is_request) s;
                            Ok (if out then pump_activity index (in_now m) cs else cs, s, None)
                      end
                  end
              end
          end
      end
  end.
