(* ===== verification/Dispatch.v ===== *)
(** What a round of dispatching starts: which workers are taken, what they are loaded
    with, and the signals sent to them, in order. *)
From S2P Require Import Prelude BtValue BtSerialize BtCodec Commands Connections Auth Batch Scheduler.
Open Scope Z_scope.

(** ** Starts on pool workers *)

(** A worker, the element it had before, and what was loaded onto it. *)
Abbreviation dispatch := (nat * run_info * (run_info → run_info))%type.

Definition start_run (a : dispatch) : run_info := (proxy_run_worker (a.2 a.1.2)).1.
Definition start_event (a : dispatch) : event := (proxy_run_worker (a.2 a.1.2)).2.

(** The worker [w], with the element [y], has nothing to do: it is idle, or it is yet
    to be created. *)
Definition free_worker (s : sched) (w : nat) (y : run_info) : Prop :=
  (w ∈ idle_workers s ∧ workers s !! w = Some y) ∨ ((length (workers s) <= w)%nat ∧ y = fresh_worker w).

(** From [s] to [s'] exactly the starts [l] were made: each on a different worker
    that was free, which holds the load now and is no longer idle; each worker was
    signalled, in the order of [l]; and no other worker was touched. *)
Record dispatched (l : list dispatch) (s s' : sched) : Prop := {
  st_events : events s' = reverse (start_event <$> l) ++ events s;
  st_once : NoDup l.*1.*1;
  st_free w y f : (w, y, f) ∈ l → free_worker s w y;
  st_loaded w y f : (w, y, f) ∈ l → workers s' !! w = Some (start_run (w, y, f)) ∧ w ∉ idle_workers s';
  st_others w : w ∉ l.*1.*1 → workers s' !! w = workers s !! w ∧ (w ∈ idle_workers s' ↔ w ∈ idle_workers s)
}.

Lemma dispatched_none s s' :
  workers s' = workers s → idle_workers s' = idle_workers s → events s' = events s → dispatched [] s s'.
Proof. intros Hw Hi He. split; [done|constructor| | |]; [by intros ? ? ? ?%elem_of_nil..|]. intros w _. by rewrite Hw, Hi. Qed.

Lemma elem_of_started (l : list dispatch) w : w ∈ l.*1.*1 ↔ ∃ y f, (w, y, f) ∈ l.
Proof.
  rewrite list_elem_of_fmap. setoid_rewrite list_elem_of_fmap. split.
  - intros ([w' y] & -> & ([[v z] f] & [= -> ->] & H)). by eauto.
  - intros (y & f & H). exists (w, y). split; [done|]. by exists (w, y, f).
Qed.

(** A free worker is not one that has just been given work. *)
Lemma free_not_started l s s' w y : dispatched l s s' → free_worker s' w y → w ∉ l.*1.*1.
Proof.
  intros H Hf (y' & f & Hin)%elem_of_started. destruct (st_loaded _ _ _ H _ _ _ Hin) as [Ew Hi].
  destruct Hf as [[? _]|[Hl _]]; [done|]. apply lookup_lt_Some in Ew. lia.
Qed.

Lemma free_before l s s' w y : dispatched l s s' → free_worker s' w y → free_worker s w y.
Proof.
  intros H Hf. destruct (st_others _ _ _ H w (free_not_started _ _ _ _ _ H Hf)) as [Ew Hi].
  destruct Hf as [[Hin Ey]|[Hl ->]]; [left; by rewrite <-Hi, <-Ew|right]. split; [|done].
  apply lookup_ge_None. rewrite <-Ew. by apply lookup_ge_None.
Qed.

Lemma dispatched_app l1 l2 s s1 s2 : dispatched l1 s s1 → dispatched l2 s1 s2 → dispatched (l1 ++ l2) s s2.
Proof.
  intros H1 H2.
  assert (∀ w, w ∈ l1.*1.*1 → w ∉ l2.*1.*1) as Hd.
  { intros w Hw (y & f & Hin)%elem_of_started. by eapply free_not_started; [exact H1|eapply st_free|]. }
  split.
  - rewrite (st_events _ _ _ H2), (st_events _ _ _ H1), fmap_app, reverse_app. by rewrite app_assoc.
  - rewrite !fmap_app. apply NoDup_app. split_and!; [apply (st_once _ _ _ H1)|done|apply (st_once _ _ _ H2)].
  - intros w y f [Hin|Hin]%elem_of_app; [by eapply st_free|]. eapply free_before; [exact H1|]. by eapply st_free.
  - intros w y f [Hin|Hin]%elem_of_app; [|by eapply st_loaded].
    destruct (st_others _ _ _ H2 w) as [-> ->]; [|by eapply st_loaded]. apply Hd, elem_of_started. by eauto.
  - intros w. rewrite !fmap_app, not_elem_of_app. intros [Hw1 Hw2].
    destruct (st_others _ _ _ H1 w Hw1) as [<- <-]. by apply (st_others _ _ _ H2).
Qed.

(** What is not in the pool may change in between. *)
Lemma dispatched_same l s s' s'' :
  dispatched l s s' → workers s'' = workers s' → idle_workers s'' = idle_workers s' → events s'' = events s' →
  dispatched l s s''.
Proof. intros H Hw Hi He. rewrite <-(app_nil_r l). eapply dispatched_app; [exact H|by apply dispatched_none]. Qed.

Lemma run_on_idle_dispatched load s s' :
  NoDup (idle_workers s) → run_on_idle load s = Ok s' → ∃ w y, dispatched [(w, y, load)] s s'.
Proof.
  intros Hnd. unfold run_on_idle, get_idle_worker. destruct (idle_workers s) as [|w rest] eqn:Ei.
  - destruct (_ <? _)%nat; [|done]. cbn [mbind outcome_bind workers with_workers].
    rewrite list_lookup_middle by done. set (w := length (workers s)). set (y := fresh_worker w).
    destruct (proxy_run_worker (load y)) as [x e] eqn:Ex. intros [= <-]. exists w, y.
    assert (∀ v, v ≠ w → (workers s ++ [x]) !! v = workers s !! v) as Hne.
    { intros v Hv. destruct (decide (v < w)%nat); [by rewrite lookup_app_l|].
      rewrite (lookup_ge_None_2 (workers s)) by lia. apply lookup_ge_None_2. rewrite length_app. cbn. lia. }
    split; cbn [events workers idle_workers log_event with_events with_workers fmap list_fmap].
    + unfold start_event. cbn. by rewrite Ex.
    + apply NoDup_singleton.
    + intros ? ? ? [= -> -> ->]%list_elem_of_singleton. right. by split.
    + intros ? ? ? [= -> -> ->]%list_elem_of_singleton. unfold start_run. cbn. rewrite Ex, Ei. split; [|set_solver].
      rewrite insert_app_r_alt, Nat.sub_diag by done. by apply list_lookup_middle.
    + intros v Hv%not_elem_of_cons. rewrite insert_app_r_alt, Nat.sub_diag by done. split; [|done]. apply Hne, Hv.
  - apply NoDup_cons in Hnd as [Hw _]. cbn [mbind outcome_bind workers with_idle_workers].
    destruct (workers s !! w) as [y|] eqn:Ey; [|done].
    destruct (proxy_run_worker (load y)) as [x e] eqn:Ex. intros [= <-]. exists w, y.
    split; cbn [events workers idle_workers log_event with_events with_workers with_idle_workers fmap list_fmap].
    + unfold start_event. cbn. by rewrite Ex.
    + apply NoDup_singleton.
    + intros ? ? ? [= -> -> ->]%list_elem_of_singleton. left. rewrite Ei. split; [by left|done].
    + intros ? ? ? [= -> -> ->]%list_elem_of_singleton. unfold start_run. cbn. rewrite Ex. split; [|done].
      apply list_lookup_insert_eq. by eapply lookup_lt_Some.
    + intros v [Hv _]%not_elem_of_cons. cbn in Hv. rewrite list_lookup_insert_ne, Ei by done. split; [done|].
      rewrite elem_of_cons. naive_solver.
Qed.

(** ** Tagged workers *)

(** An idle tagged worker with jobs queued is given the first one. *)
Definition tagged_start (x : run_info * bool * list batch_job) : option ((run_info * bool * list batch_job) * event) :=
  match x with
  | (r, false, j :: q) =>
      let (r', e) := proxy_run_worker (load_batch j false (Z.of_nat (worker_id r)) r) in Some ((r', true, q), e)
  | _ => None
  end.
Definition serve_tagged (x : run_info * bool * list batch_job) : run_info * bool * list batch_job :=
  from_option fst x (tagged_start x).
Definition tagged_events (tw : list (run_info * bool * list batch_job)) : list event :=
  omap (λ x, snd <$> tagged_start x) tw.

Lemma run_tagged_serves n i s :
  (i + n = length (tagged_workers s))%nat →
  run_tagged n i s
  = with_events (reverse (tagged_events (drop i (tagged_workers s))) ++ events s)
      (with_tagged_workers (take i (tagged_workers s) ++ (serve_tagged <$> drop i (tagged_workers s))) s).
Proof.
  revert i s. induction n as [|n IH]; intros i s Hl; cbn [run_tagged].
  { rewrite drop_ge, take_ge by lia. cbn. rewrite app_nil_r. by destruct s. }
  destruct (lookup_lt_is_Some_2 (tagged_workers s) i) as [x Ei]; [lia|].
  set (tw := tagged_workers s) in *. cbv zeta. rewrite Ei.
  set (s1 := match x with (r, false, j :: q) => _ | _ => s end).
  assert (s1 = with_events (reverse (tagged_events [x]) ++ events s) (with_tagged_workers (<[i := serve_tagged x]> tw) s)) as Es.
  { subst s1. unfold serve_tagged, tagged_events. destruct x as [[r []] [|j q]]; cbn;
      try (rewrite list_insert_id by done; by destruct s). by destruct (proxy_run_worker _) as [r' e]. }
  transitivity (run_tagged n (S i) s1); [by destruct x as [[r []] [|j q]]|].
  rewrite IH, Es; cbn [tagged_workers events with_events with_tagged_workers]; [|rewrite Es; cbn; rewrite length_insert; lia].
  assert (take (S i) (<[i := serve_tagged x]> tw) = take i tw ++ [serve_tagged x]) as ->.
  { rewrite (take_S_r _ _ (serve_tagged x)) by (apply list_lookup_insert_eq; lia). by rewrite take_insert_ge. }
  rewrite drop_insert_lt by lia. rewrite (drop_S tw x i Ei), fmap_cons, <-(app_assoc (take i tw)).
  assert (∀ l, tagged_events (x :: l) = tagged_events [x] ++ tagged_events l) as Hx.
  { intros l. unfold tagged_events. cbn. by destruct (snd <$> tagged_start x). }
  by rewrite (Hx (drop (S i) tw)), reverse_app, <-app_assoc.
Qed.
