(* ===== verification/BatchOwner.v ===== *)
(** Ownership of batches by the proxy: a live [Batch] object is one that has work
    queued or running, and its count of outstanding jobs is the number of its tasks. *)
From S2P Require Import Prelude Batch Scheduler.
Open Scope Z_scope.

(** The numbers of the tasks of one batch. *)
Definition numbers (p : ptr) (ts : list batch_job) : list Z := snd <$> filter (λ t, t.1 = p) ts.

#[export] Instance numbers_proper p : Proper ((≡ₚ) ==> (≡ₚ)) (numbers p).
Proof. intros l1 l2 H. unfold numbers. by rewrite H. Qed.

Lemma numbers_cons p q j ts : numbers p ((q, j) :: ts) = if decide (q = p) then j :: numbers p ts else numbers p ts.
Proof.
  unfold numbers. destruct (decide (q = p)); [by rewrite filter_cons_True|by rewrite filter_cons_False].
Qed.

Lemma numbers_app p l1 l2 : numbers p (l1 ++ l2) = numbers p l1 ++ numbers p l2.
Proof. unfold numbers. by rewrite filter_app, fmap_app. Qed.

Lemma elem_of_numbers p j ts : j ∈ numbers p ts ↔ (p, j) ∈ ts.
Proof.
  unfold numbers. rewrite list_elem_of_fmap. split.
  - intros ([q j'] & -> & [Hq H]%list_elem_of_filter). cbn in Hq. by subst.
  - intros H. exists (p, j). split; [done|]. by apply list_elem_of_filter.
Qed.

Lemma numbers_nil p ts : (∀ j, (p, j) ∉ ts) → numbers p ts = [].
Proof.
  intros H. destruct (numbers p ts) as [|j l] eqn:E; [done|]. exfalso.
  apply (H j), elem_of_numbers. rewrite E. by left.
Qed.

Section owned.
Context (ntag : nat).

(** A batch whose tasks have the numbers [js]: its completion alone, or jobs, one
    outstanding each; its completion thread exists. *)
Definition live (b : Batch) (js : list Z) : Prop :=
  complete_in_thread b <= Z.of_nat ntag ∧
  (js = [-1] ∧ is_Some (complete b) ∧ jobs_outstanding b = 0
   ∨ js ≠ [] ∧ jobs_outstanding b = Z.of_nat (length js) ∧ Z.of_nat (length js) < 2 ^ 64 ∧ NoDup js ∧
     ∀ j, j ∈ js → 0 <= j < Z.of_nat (length (jobs b))).

Record owned (h : gmap ptr Batch) (bs : gset ptr) (ts : list batch_job) : Prop := {
  own_dom : dom h = bs;
  own_task p j : (p, j) ∈ ts → p ∈ bs;
  own_live p b : h !! p = Some b → live b (numbers p ts)
}.

#[export] Instance live_proper b : Proper ((≡ₚ) ==> iff) (live b).
Proof.
  intros l1 l2 H. unfold live.
  assert (l1 = [-1] ↔ l2 = [-1]) as ->.
  { split; intros ->; [by apply Permutation_singleton_l in H|by apply Permutation_singleton_r in H]. }
  assert (l1 ≠ [] ↔ l2 ≠ []) as ->.
  { split; intros Hn ->; apply Hn; [by apply Permutation_nil_r in H|by apply Permutation_nil_l in H]. }
  rewrite H. setoid_rewrite H. done.
Qed.

#[export] Instance owned_proper h bs : Proper ((≡ₚ) ==> iff) (owned h bs).
Proof.
  assert (∀ l1 l2, l1 ≡ₚ l2 → owned h bs l1 → owned h bs l2) as H.
  { intros l1 l2 H [H1 H2 H3]. split; [done| |].
    - intros p j. rewrite <-H. apply H2.
    - intros p b Hb. rewrite <-H. by apply H3. }
  intros l1 l2 Hl. split; apply H; done.
Qed.

Lemma owned_empty : owned ∅ ∅ [].
Proof. split; [apply dom_empty_L|set_solver|set_solver]. Qed.

Lemma owned_lookup h bs ts p j : owned h bs ts → (p, j) ∈ ts → ∃ b, h !! p = Some b.
Proof. intros Ho Hj. apply (elem_of_dom h p). rewrite (own_dom _ _ _ Ho). by eapply own_task. Qed.

(** A batch the proxy takes over. *)
Definition fresh_batch (b : Batch) : Prop :=
  complete_in_thread b <= Z.of_nat ntag ∧ jobs b ≠ [] ∧
  jobs_outstanding b = Z.of_nat (length (jobs b)) ∧ Z.of_nat (length (jobs b)) < 2 ^ 64.

Definition job_tasks (p : ptr) (i n : nat) : list batch_job := (λ k, (p, Z.of_nat k)) <$> seq i n.

Lemma elem_of_job_tasks p i n q j : (q, j) ∈ job_tasks p i n ↔ q = p ∧ Z.of_nat i <= j < Z.of_nat (i + n).
Proof.
  unfold job_tasks. rewrite list_elem_of_fmap. setoid_rewrite elem_of_seq. split.
  - intros (k & [= -> ->] & ?). lia.
  - intros [-> ?]. exists (Z.to_nat j). split; [f_equal|]; lia.
Qed.

Lemma numbers_job_tasks p i n : numbers p (job_tasks p i n) = Z.of_nat <$> seq i n.
Proof.
  unfold job_tasks. revert i. induction n as [|n IH]; intros i; [done|]. cbn [seq]. rewrite !fmap_cons, numbers_cons.
  by rewrite decide_True, IH.
Qed.

Lemma owned_new h bs ts p b :
  owned h bs ts → p ∉ dom h → fresh_batch b →
  owned (<[p := b]> h) ({[p]} ∪ bs) (job_tasks p 0 (length (jobs b)) ++ ts).
Proof.
  intros [H1 H2 H3] Hp (Ht & Hne & Ho & Hl).
  assert (numbers p ts = []) as Hn by (apply numbers_nil; intros j Hj; apply Hp; rewrite H1; by eapply H2).
  split.
  - rewrite dom_insert_L. by rewrite H1.
  - intros q j [Hq%elem_of_job_tasks|Hq]%elem_of_app; [set_solver|]. apply H2 in Hq. set_solver.
  - intros q c. rewrite numbers_app. destruct (decide (q = p)) as [->|Hqp].
    + rewrite lookup_insert_eq. intros [= <-]. rewrite numbers_job_tasks, Hn, app_nil_r.
      split; [done|]. right. rewrite length_fmap, length_seq. split_and!; [|done|done| |].
      * intros E%(f_equal length). rewrite length_fmap, length_seq in E. by destruct (jobs b).
      * apply NoDup_fmap_2; [apply _|apply NoDup_seq].
      * intros j (k & -> & Hk%elem_of_seq)%list_elem_of_fmap. lia.
    + rewrite lookup_insert_ne by done. rewrite (numbers_nil q (job_tasks _ _ _)); [apply H3|].
      by intros j [? _]%elem_of_job_tasks.
Qed.

(** The last task of a batch goes with it. *)
Lemma owned_delete h bs ts p j :
  owned h bs ((p, j) :: ts) → numbers p ts = [] → owned (delete p h) (bs ∖ {[p]}) ts.
Proof.
  intros [H1 H2 H3] Hn. split.
  - by rewrite dom_delete_L, H1.
  - intros q i Hq. apply elem_of_difference. split; [apply (H2 q i); by right|].
    intros ->%elem_of_singleton. apply elem_of_numbers in Hq. rewrite Hn in Hq. by apply elem_of_nil in Hq.
  - intros q b Hb. destruct (decide (q = p)) as [->|Hqp]; [by rewrite lookup_delete_eq in Hb|].
    rewrite lookup_delete_ne in Hb by done. specialize (H3 q b Hb). by rewrite numbers_cons, decide_False in H3.
Qed.

(** The other batches do not notice a change to [p]. *)
Lemma owned_update h bs ts ts' p j b' :
  owned h bs ((p, j) :: ts) → live b' (numbers p ts') → (∀ q, q ≠ p → numbers q ts' = numbers q ts) →
  owned (<[p := b']> h) bs ts'.
Proof.
  intros [H1 H2 H3] Hl Hn. assert (p ∈ bs) as Hp by (apply (H2 p j); by left). split.
  - rewrite dom_insert_L, H1. set_solver.
  - intros q i Hq. destruct (decide (q = p)) as [->|Hqp]; [done|]. apply (H2 q i). right.
    apply elem_of_numbers. rewrite <-Hn by done. by apply elem_of_numbers.
  - intros q c. destruct (decide (q = p)) as [->|Hqp]; [rewrite lookup_insert_eq; by intros [= <-]|].
    rewrite lookup_insert_ne by done. intros Hc. apply H3 in Hc. rewrite numbers_cons, decide_False in Hc by done.
    by rewrite Hn.
Qed.

(** After the completion function, nothing of the batch is left. *)
Lemma owned_completed h bs ts p : owned h bs ((p, -1) :: ts) → numbers p ts = [].
Proof.
  intros Ho. destruct (owned_lookup _ _ _ p (-1) Ho) as [b Hb]; [by left|].
  apply (own_live _ _ _ Ho) in Hb as [_ Hl]. rewrite numbers_cons, decide_True in Hl by done.
  destruct Hl as [([= ->] & _)|(_ & _ & _ & _ & Hr)]; [done|]. specialize (Hr (-1) ltac:(by left)). lia.
Qed.

(** A job's end: the batch knows how many are left. *)
Lemma owned_job h bs ts p j b :
  owned h bs ((p, j) :: ts) → j ≠ -1 → h !! p = Some b →
  complete_in_thread b <= Z.of_nat ntag ∧
  jobs_outstanding b = Z.of_nat (S (length (numbers p ts))) ∧ jobs_outstanding b < 2 ^ 64 ∧
  NoDup (numbers p ts) ∧ (∀ i, i ∈ numbers p ts → 0 <= i < Z.of_nat (length (jobs b))) ∧
  0 <= j < Z.of_nat (length (jobs b)).
Proof.
  intros Ho Hj Hb. apply (own_live _ _ _ Ho) in Hb as [Ht Hl]. rewrite numbers_cons, decide_True in Hl by done.
  destruct Hl as [([= ->] & _)|(_ & Hs & Hlt & Hnd & Hr)]; [done|]. cbn [length] in *.
  apply NoDup_cons in Hnd as [_ Hnd]. split_and!; try done; try lia.
  - intros i Hi. apply Hr. by right.
  - by apply Hr; left.
  - apply Hr. by left.
Qed.
End owned.
