(* ===== verification/SchedulerInv.v ===== *)
(** The scheduler's invariants: the accounting of worker threads and the ownership
    of batches. *)
From S2P Require Import Prelude BtValue BtSerialize BtCodec Commands Connections Auth Batch Admission Scheduler Dispatch BatchOwner.
Open Scope Z_scope.

(** ** The busy workers *)

(** The elements of [ws], numbered from [i], whose number is not in [idle]. *)
Fixpoint busy_from (i : nat) (idle : list nat) (ws : list run_info) : list run_info :=
  match ws with
  | [] => []
  | x :: ws' => if decide (i ∈ idle) then busy_from (S i) idle ws' else x :: busy_from (S i) idle ws'
  end.

Abbreviation busy := (busy_from 0).

Lemma busy_nil ws : busy [] ws = ws.
Proof.
  generalize 0%nat. induction ws as [|x ws IH]; intros i; cbn [busy_from]; [done|].
  rewrite decide_False by set_solver. by rewrite IH.
Qed.

Lemma busy_from_ext i idle idle' ws :
  (∀ w, (i <= w)%nat → w ∈ idle ↔ w ∈ idle') → busy_from i idle ws = busy_from i idle' ws.
Proof.
  revert i. induction ws as [|x ws IH]; intros i H; cbn [busy_from]; [done|].
  rewrite (IH (S i)) by (intros; apply H; lia).
  destruct (decide (i ∈ idle)) as [Hi|Hi]; rewrite (H i) in Hi by done.
  - by rewrite decide_True.
  - by rewrite decide_False.
Qed.

(** A busy worker can be taken out. *)
Lemma busy_from_take i idle ws k r :
  ws !! k = Some r → (i + k)%nat ∉ idle → busy_from i idle ws ≡ₚ r :: busy_from i ((i + k)%nat :: idle) ws.
Proof.
  revert i k. induction ws as [|x ws IH]; intros i k Hk Hn; [done|]. destruct k as [|k]; cbn in Hk.
  - injection Hk as ->. rewrite Nat.add_0_r in *. cbn [busy_from]. rewrite decide_False by done.
    rewrite decide_True by (by left). constructor.
    rewrite (busy_from_ext (S i) (i :: idle) idle); [done|]. intros w Hw. rewrite elem_of_cons.
    split; [intros [?|?]; [lia|done]|by right].
  - cbn [busy_from]. replace (i + S k)%nat with (S i + k)%nat in * by lia.
    destruct (decide (i ∈ idle)) as [Hi|Hi].
    + rewrite decide_True by (by right). by apply IH.
    + rewrite decide_False by (rewrite elem_of_cons; intros [?|?]; [lia|done]).
      rewrite (IH (S i) k) by done. apply perm_swap.
Qed.

Lemma busy_take idle ws w r : ws !! w = Some r → w ∉ idle → busy idle ws ≡ₚ r :: busy (w :: idle) ws.
Proof. intros. by apply (busy_from_take 0). Qed.

(** Nor does an idle element matter. *)
Lemma busy_from_insert i idle ws k x :
  (i + k)%nat ∈ idle → busy_from i idle (<[k := x]> ws) = busy_from i idle ws.
Proof.
  revert i k. induction ws as [|y ws IH]; intros i k Hk; [done|]. destruct k as [|k]; cbn.
  - rewrite Nat.add_0_r in Hk. by rewrite !decide_True.
  - by rewrite IH by (by replace (S i + k)%nat with (i + S k)%nat by lia).
Qed.

Lemma busy_insert idle ws w x : w ∈ idle → busy idle (<[w := x]> ws) = busy idle ws.
Proof. intros. by apply busy_from_insert. Qed.

Lemma busy_length idle ws :
  NoDup idle → (∀ w, w ∈ idle → (w < length ws)%nat) →
  (length (busy idle ws) + length idle = length ws)%nat.
Proof.
  induction 1 as [|w idle Hw Hnd IH]; intros Hr; [rewrite busy_nil; cbn; lia|].
  destruct (lookup_lt_is_Some_2 ws w) as [r Er]; [apply Hr; by left|].
  rewrite <-IH by (intros; apply Hr; by right). rewrite (busy_take idle ws w r) by done. cbn. lia.
Qed.

Lemma busy_elem idle ws r : r ∈ busy idle ws → ∃ w, ws !! w = Some r ∧ w ∉ idle.
Proof.
  intros Hr. assert (∀ i, r ∈ busy_from i idle ws → ∃ w, ws !! w = Some r ∧ (i + w)%nat ∉ idle) as H; [|by apply (H 0%nat)].
  clear Hr. induction ws as [|x ws IH]; intros i Hr; cbn [busy_from] in Hr; [set_solver|].
  destruct (decide (i ∈ idle)).
  - destruct (IH _ Hr) as (w & ? & ?). exists (S w). by replace (i + S w)%nat with (S i + w)%nat by lia.
  - apply elem_of_cons in Hr as [->|Hr].
    + exists 0%nat. by rewrite Nat.add_0_r.
    + destruct (IH _ Hr) as (w & ? & ?). exists (S w). by replace (i + S w)%nat with (S i + w)%nat by lia.
Qed.

(** ** The pool *)
Record pool_ok (cap : nat) (idle : list nat) (ws : list run_info) : Prop := {
  pool_nodup : NoDup idle;
  pool_range : ∀ w, w ∈ idle → (w < length ws)%nat;
  pool_size : (length ws <= cap)%nat
}.

(** Dispatching loads one worker and signals it. *)
Lemma run_on_idle_busy load s s' cap :
  pool_ok cap (idle_workers s) (workers s) → (capacity s <= cap)%nat → run_on_idle load s = Ok s' →
  ∃ y e idle ws, s' = log_event e (with_workers ws (with_idle_workers idle s)) ∧
    busy idle ws ≡ₚ (proxy_run_worker (load y)).1 :: busy (idle_workers s) (workers s) ∧ pool_ok cap idle ws.
Proof.
  intros [Hnd Hr Hs] Hcap. unfold run_on_idle, get_idle_worker. destruct (idle_workers s) as [|w rest] eqn:Ei.
  - destruct (length (workers s) <? capacity s)%nat eqn:El; [|done]. cbn [mbind outcome_bind workers with_workers].
    rewrite list_lookup_middle by done. destruct (proxy_run_worker _) as [x e] eqn:Ex. intros [= <-].
    exists (fresh_worker (length (workers s))), e, [], (workers s ++ [x]). rewrite Ex, !busy_nil. split_and!.
    + rewrite insert_app_r_alt, Nat.sub_diag by done. cbn. unfold log_event, with_workers, with_idle_workers. cbn. by rewrite Ei.
    + cbn. symmetry. apply Permutation_cons_append.
    + split; [constructor|set_solver|]. rewrite length_app. cbn. lia.
  - apply NoDup_cons in Hnd as [Hw Hnd]. cbn [mbind outcome_bind workers with_idle_workers].
    destruct (workers s !! w) as [y|] eqn:Ey; [|done]. destruct (proxy_run_worker _) as [x e] eqn:Ex. intros [= <-].
    exists y, e, rest, (<[w := x]> (workers s)). rewrite Ex. split_and!; [done| |].
    + rewrite (busy_take rest _ w x); [| |done].
      * by rewrite busy_insert by (by left).
      * apply list_lookup_insert_eq. by eapply lookup_lt_Some.
    + split; [done| |by rewrite length_insert]. intros v Hv. rewrite length_insert. apply Hr. by right.
Qed.

(** A pool with room dispatches. *)
Lemma run_on_idle_ok load s :
  pool_ok (capacity s) (idle_workers s) (workers s) →
  (length (busy (idle_workers s) (workers s)) < capacity s)%nat →
  ∃ y e idle ws, run_on_idle load s = Ok (log_event e (with_workers ws (with_idle_workers idle s))) ∧
    busy idle ws ≡ₚ (proxy_run_worker (load y)).1 :: busy (idle_workers s) (workers s) ∧
    pool_ok (capacity s) idle ws.
Proof.
  intros Hp Hlt. assert (∃ s', run_on_idle load s = Ok s') as [s' E].
  { unfold run_on_idle, get_idle_worker. destruct (idle_workers s) as [|w rest] eqn:Ei.
    - rewrite busy_nil in Hlt. destruct (length (workers s) <? capacity s)%nat eqn:El; [|lia].
      cbn [mbind outcome_bind workers with_workers]. rewrite list_lookup_middle by done. destruct (proxy_run_worker _). by eauto.
    - destruct (lookup_lt_is_Some_2 (workers s) w) as [y Ey]; [apply (pool_range _ _ _ Hp); by left|].
      cbn [mbind outcome_bind workers with_idle_workers]. rewrite Ey. destruct (proxy_run_worker _). by eauto. }
  destruct (run_on_idle_busy load s s' _ Hp ltac:(done) E) as (y & e & idle & ws & -> & H). exists y, e, idle, ws. by split.
Qed.

(** A worker that has finished returns to the idle ones. *)
Lemma pool_release cap idle ws w r x :
  pool_ok cap idle ws → ws !! w = Some r → w ∉ idle →
  pool_ok cap (w :: idle) (<[w := x]> ws) ∧ busy idle ws ≡ₚ r :: busy (w :: idle) (<[w := x]> ws).
Proof.
  intros [Hnd Hr Hs] Ew Hw. split.
  - split; [by constructor| |by rewrite length_insert]. intros v. rewrite length_insert, elem_of_cons.
    intros [->|Hv]; [by eapply lookup_lt_Some|by apply Hr].
  - rewrite busy_insert by (by left). by apply busy_take.
Qed.

(** ** Accounting *)

(** The kinds of work that have reservations: batch jobs, reply jobs ([reply]), and
    the commands of a category. *)
Inductive kind : Type := k_job (reply : bool) | k_cat (name : bytes).

#[export] Instance kind_eq_dec : EqDecision kind.
Proof. solve_decision. Defined.

#[export] Instance k_cat_inj : Inj (=) (=) k_cat.
Proof. by intros x y [= ->]. Qed.

Definition kind_of (x : run_info) : kind :=
  if is_batch_job x then k_job (is_reply_job x) else k_cat (cat x).

Definition busy_runs (s : sched) : list run_info := busy (idle_workers s) (workers s).
Definition running (s : sched) : list kind := kind_of <$> busy_runs s.

(** The proxy's own books on a kind. *)
Definition active_of (k : kind) (s : sched) : option Z :=
  match k with
  | k_job reply => Some (jobs_active reply s)
  | k_cat n => active_threads <$> cats s !! n
  end.
Definition reserved_of (k : kind) (s : sched) : option Z :=
  match k with
  | k_job reply => Some (jobs_reserved reply s)
  | k_cat n => reserved_threads <$> cats s !! n
  end.

Definition pending_of (n : bytes) (ps : list pending_command) : Z :=
  Z.of_nat (length (filter (λ p, pc_cat p = n) ps)).

Lemma pending_of_app n l1 l2 : pending_of n (l1 ++ l2) = pending_of n l1 + pending_of n l2.
Proof. unfold pending_of. rewrite filter_app, length_app. lia. Qed.

Lemma pending_of_cons n p l : pending_of n (p :: l) = (if decide (pc_cat p = n) then 1 else 0) + pending_of n l.
Proof.
  unfold pending_of. destruct (decide (pc_cat p = n)); [rewrite filter_cons_True by done|rewrite filter_cons_False by done];
    cbn [length]; lia.
Qed.

Lemma pending_of_nil n : pending_of n [] = 0.
Proof. done. Qed.

(** Reduces field accesses and updates of the scheduler's state. *)
Ltac ss :=
  cbn [general_workers max_workers capacity workers idle_workers tagged_workers batches heap batch_jobs reply_jobs
       batch_jobs_active reply_jobs_active batch_jobs_reserved reply_jobs_reserved cats pending_commands
       proxy_skip_one_poll events with_max_workers with_workers with_idle_workers with_tagged_workers with_batches
       with_heap with_batch_jobs with_reply_jobs with_batch_jobs_active with_reply_jobs_active with_cats
       with_pending_commands with_proxy_skip_one_poll with_events log_event
       jobs_active jobs_reserved jobs_queue set_jobs_active set_jobs_queue push_job active_of reserved_of
       active_threads reserved_threads queued set_active_threads set_queued fst snd] in *.

(** ** Batch tasks *)

(** The batch job (or completion) a loaded worker is to run. *)
Definition run_task (x : run_info) : option batch_job :=
  match is_batch_job x, to_run x with
  | true, run_batch (Some p) => Some (p, batch_jobno x)
  | _, _ => None
  end.

Definition tagged_task (x : run_info * bool * list batch_job) : list batch_job :=
  x.2 ++ (if x.1.2 then option_list (run_task x.1.1) else []).

(** Every task the proxy holds: queued, or handed to a worker that has not
    reported back. *)
Definition pool_free_tasks (s : sched) : list batch_job :=
  batch_jobs s ++ reply_jobs s ++ (tagged_workers s ≫= tagged_task).
Definition tasks (s : sched) : list batch_job := pool_free_tasks s ++ omap run_task (busy_runs s).

Definition run_ok (x : run_info) : Prop := is_batch_job x = true → is_Some (run_task x).
Definition tagged_ok (x : run_info * bool * list batch_job) : Prop :=
  x.1.2 = true → is_batch_job x.1.1 = true ∧ is_Some (run_task x.1.1).
Definition runs_ok (s : sched) : Prop := Forall run_ok (busy_runs s) ∧ Forall tagged_ok (tagged_workers s).

(** From [s] to [s'] tasks only move between queues and workers. *)
Record moved (s s' : sched) : Prop := {
  mv_heap : heap s' = heap s;
  mv_batches : batches s' = batches s;
  mv_tagged : length (tagged_workers s') = length (tagged_workers s);
  mv_tasks : tasks s' ≡ₚ tasks s;
  mv_runs : runs_ok s → runs_ok s'
}.

#[export] Instance moved_preorder : PreOrder moved.
Proof.
  split; [by split|]. intros s1 s2 s3 [? ? ? ? ?] [? ? ? ? ?]. split; try congruence; try tauto. by etrans.
Qed.

Lemma run_task_signal x : run_task (proxy_run_worker x).1 = run_task x.
Proof. unfold proxy_run_worker. by destruct (worker_thread x). Qed.

Lemma is_batch_job_signal x : is_batch_job (proxy_run_worker x).1 = is_batch_job x.
Proof. unfold proxy_run_worker. by destruct (worker_thread x). Qed.

(** Loading a run that is no batch job onto a worker. *)
Lemma moved_plain s e idle ws x :
  is_batch_job x = false → busy idle ws ≡ₚ (proxy_run_worker x).1 :: busy_runs s →
  moved s (log_event e (with_workers ws (with_idle_workers idle s))).
Proof.
  intros Hx Hb. split; ss; try done.
  - unfold tasks, pool_free_tasks, busy_runs at 1. ss. rewrite Hb. cbn [omap list_omap]. rewrite run_task_signal.
    assert (run_task x = None) as -> by (unfold run_task; by rewrite Hx). done.
  - intros [Hr Ht]. split; [|done]. unfold busy_runs. ss. rewrite Hb. constructor; [|done].
    unfold run_ok. by rewrite is_batch_job_signal, Hx.
Qed.

(** Loading the first job of a queue onto a worker. *)
Lemma moved_batch s reply j q n e idle ws y :
  jobs_queue reply s = j :: q →
  busy idle ws ≡ₚ (proxy_run_worker (load_batch j reply 0 y)).1 :: busy_runs s →
  moved s (set_jobs_active reply n (set_jobs_queue reply q
             (log_event e (with_workers ws (with_idle_workers idle s))))).
Proof.
  intros Hq Hb.
  assert (run_task (proxy_run_worker (load_batch j reply 0 y)).1 = Some j) as Ht.
  { rewrite run_task_signal. by destruct j. }
  assert (omap run_task (busy idle ws) ≡ₚ j :: omap run_task (busy_runs s)) as Ho.
  { rewrite Hb. cbn [omap list_omap]. by rewrite Ht. }
  assert (runs_ok s → Forall run_ok (busy idle ws) ∧ Forall tagged_ok (tagged_workers s)) as Hr.
  { intros [Hr Hg]. split; [|done]. rewrite Hb. constructor; [|done]. unfold run_ok. rewrite Ht. by eauto. }
  destruct reply; ss; (split; ss; [done|done|done| |exact Hr]); unfold tasks, pool_free_tasks, busy_runs at 1; ss; rewrite Ho, Hq; solve_Permutation.
Qed.

(** Replacing the entry of a tagged worker. *)
Lemma tagged_tasks_insert (tw : list (run_info * bool * list batch_job)) i x y l :
  tw !! i = Some x → tagged_task x ≡ₚ l ++ tagged_task y →
  tw ≫= tagged_task ≡ₚ l ++ (<[i := y]> tw ≫= tagged_task).
Proof.
  intros Hi Hl. rewrite insert_take_drop by (by eapply lookup_lt_Some).
  rewrite <-(take_drop_middle tw i x) at 1 by done. rewrite !bind_app. cbn [mbind list_bind].
  rewrite Hl. solve_Permutation.
Qed.

Lemma tasks_tagged tw s :
  (tagged_workers s ≫= tagged_task) ≡ₚ (tw ≫= tagged_task) →
  tasks (with_tagged_workers tw s) ≡ₚ tasks s.
Proof. intros H. unfold tasks, pool_free_tasks. ss. by rewrite H. Qed.

(** An idle tagged worker is given the first job of its queue. *)
Lemma moved_tagged s i r j q t e :
  tagged_workers s !! i = Some (r, false, j :: q) →
  moved s (log_event e (with_tagged_workers
             (<[i := ((proxy_run_worker (load_batch j false t r)).1, true, q)]> (tagged_workers s)) s)).
Proof.
  intros Hi. set (r' := (proxy_run_worker _).1).
  assert (run_task r' = Some j) as Ht by (subst r'; rewrite run_task_signal; by destruct j).
  assert (is_batch_job r' = true) as Hb by (subst r'; by rewrite is_batch_job_signal).
  split; ss; try done.
  - apply length_insert.
  - apply (tasks_tagged _ s), (tagged_tasks_insert _ i (r, false, j :: q) (r', true, q) []); [done|].
    unfold tagged_task. ss. rewrite Ht. cbn [option_list app]. solve_Permutation.
  - intros [Hr Hg]. split; [done|]. ss. apply Forall_insert; [done|]. intros _. ss. rewrite Hb, Ht. by eauto.
Qed.

(** The loop over the tagged workers leaves none of them idle with work queued. *)
Lemma run_tagged_ok n i s :
  (i + n = length (tagged_workers s))%nat →
  ∃ tw ev, run_tagged n i s = with_events ev (with_tagged_workers tw s) ∧ moved s (run_tagged n i s) ∧
    (∀ k, (k < i)%nat → tw !! k = tagged_workers s !! k) ∧
    (∀ k r b q, (i <= k)%nat → tw !! k = Some (r, b, q) → b = false → q = []).
Proof.
  revert i s. induction n as [|n IH]; intros i s Hl; cbn [run_tagged].
  { exists (tagged_workers s), (events s). split_and!; [by destruct s|done|done|].
    intros k r b q Hk Ek. apply lookup_lt_Some in Ek. lia. }
  destruct (lookup_lt_is_Some_2 (tagged_workers s) i) as [[[r b] q] Ei]; [lia|]. rewrite Ei. cbv zeta.
  assert (∃ tw e x, match b, q with
    | false, j :: q' => let (r, e) := proxy_run_worker (load_batch j false (Z.of_nat (worker_id r)) r) in
        log_event e (with_tagged_workers (<[i := (r, true, q')]> (tagged_workers s)) s)
    | _, _ => s end = with_events e (with_tagged_workers tw s) ∧
    tw = <[i := x]> (tagged_workers s) ∧ (x.1.2 = false → x.2 = []) ∧ moved s (with_events e (with_tagged_workers tw s)))
    as (tw & e & x & E & Htw & Hx & Hm).
  { destruct b, q as [|j q]; try (exists (tagged_workers s), (events s); eexists; split_and!;
      [by destruct s|by rewrite list_insert_id|done|by destruct s]).
    pose proof (moved_tagged s i r j q (Z.of_nat (worker_id r))) as Hm.
    destruct (proxy_run_worker _) as [r' e]. eexists _, _, _. split_and!; [reflexivity|reflexivity|done|]. apply Hm, Ei. }
  replace (match b with true => s | false => _ end) with (with_events e (with_tagged_workers tw s)) by by destruct b, q.
  destruct (IH (S i) (with_events e (with_tagged_workers tw s))) as (tw' & ev & E' & Hm' & Hlow & Hhigh).
  { ss. rewrite Htw, length_insert. lia. }
  exists tw', ev. rewrite E' in *. ss. split_and!; [done|by etrans| |].
  - intros k Hk. rewrite Hlow, Htw by lia. apply list_lookup_insert_ne. lia.
  - intros k r0 b0 q0 Hk Ek Hb0. destruct (decide (k = i)) as [->|]; [|eapply (Hhigh k r0 b0 q0); [lia|done|done]].
    rewrite Hlow, Htw, list_lookup_insert_eq in Ek by lia. injection Ek as ->. by apply Hx.
Qed.

(** ** The effect of the batch part of [RAN] *)

(** [s] with the batch side of the state replaced. *)
Definition upd h bs bj rj tw ws ev (s : sched) : sched :=
  mkSched (general_workers s) (max_workers s) (capacity s) ws (idle_workers s) tw bs h bj rj (batch_jobs_active s)
    (reply_jobs_active s) (batch_jobs_reserved s) (reply_jobs_reserved s) (cats s) (pending_commands s)
    (proxy_skip_one_poll s) ev.

Definition put_worker (tagged : bool) (w : nat) (x : run_info) (s : sched) : list run_info :=
  if tagged then workers s else <[w := x]> (workers s).

(** [s'] differs from [s] in its batches, its queues, which have gained [added], and
    the entry of the worker [w]; a tagged worker [w] is idle. *)
Definition batch_effect (tagged : bool) (w : nat) (added : list batch_job) (s s' : sched) : Prop :=
  ∃ h bs bj rj tw x ev, s' = upd h bs bj rj tw (put_worker tagged w x s) ev s ∧
    length tw = length (tagged_workers s) ∧
    pool_free_tasks s' ≡ₚ added ++ pool_free_tasks s ∧
    (Forall tagged_ok (tagged_workers s) → Forall tagged_ok tw).

Lemma tagged_task_idle r q : tagged_task (r, false, q) = q.
Proof. apply app_nil_r. Qed.

Lemma push_tagged_ok t j s :
  0 < t <= Z.of_nat (length (tagged_workers s)) →
  ∃ tw, push_tagged t j s = Ok (with_tagged_workers tw s) ∧ length tw = length (tagged_workers s) ∧
    tw ≫= tagged_task ≡ₚ j :: (tagged_workers s ≫= tagged_task) ∧
    (Forall tagged_ok (tagged_workers s) → Forall tagged_ok tw).
Proof.
  intros Ht. unfold push_tagged. set (i := Z.to_nat (t - 1)).
  destruct (lookup_lt_is_Some_2 (tagged_workers s) i) as [[[r b] q] Ei]; [lia|]. rewrite Ei.
  eexists. split; [done|]. split_and!; [apply length_insert| |].
  - set (tw := <[i := _]> _). assert (tw !! i = Some (r, b, q ++ [j])) as Ei'.
    { apply list_lookup_insert_eq. by eapply lookup_lt_Some. }
    rewrite (tagged_tasks_insert tw i _ (r, b, q) [j] Ei'); [|unfold tagged_task; ss; solve_Permutation].
    subst tw. by rewrite list_insert_insert_eq, list_insert_id.
  - intros H. apply Forall_insert; [done|]. rewrite Forall_lookup in H. exact (H _ _ Ei).
Qed.

Lemma put_worker_id tagged w run s : get_run tagged w s = Some run → put_worker tagged w run s = workers s.
Proof. intros H. unfold put_worker. destruct tagged; [done|]. by apply list_insert_id. Qed.

Lemma clear_job_pool w run p h bs bj rj tw ws ev s :
  clear_job false w run p (upd h bs bj rj tw ws ev s)
  = upd (delete p h) (bs ∖ {[p]}) bj rj tw (<[w := set_to_run (run_batch None) run]> ws) (ev_delete p :: ev) s.
Proof. reflexivity. Qed.

Lemma clear_job_tagged w run p r b q h bs bj rj tw ws ev s :
  tw !! w = Some (r, b, q) →
  clear_job true w run p (upd h bs bj rj tw ws ev s)
  = upd (delete p h) (bs ∖ {[p]}) bj rj (<[w := (set_to_run (run_batch None) run, b, q)]> tw) ws (ev_delete p :: ev) s.
Proof.
  intros H. unfold clear_job, set_run. set (s1 := log_event _ _).
  assert (tagged_workers s1 = tw) as -> by reflexivity. by rewrite H.
Qed.

Section ran.
Context (tagged : bool) (w : nat) (run : run_info) (s : sched).
Context (Hget : get_run tagged w s = Some run).
Context (Hidle : tagged = true → ∃ r q, tagged_workers s !! w = Some (r, false, q)).

Lemma clear_job_effect p h bs ev :
  let s1 := upd h bs (batch_jobs s) (reply_jobs s) (tagged_workers s) (workers s) ev s in
  batch_effect tagged w [] s (clear_job tagged w run p s1) ∧
  heap (clear_job tagged w run p s1) = delete p h ∧ batches (clear_job tagged w run p s1) = bs ∖ {[p]}.
Proof using Hidle.
  clear Hget. intros s1. subst s1. destruct tagged.
  - destruct (Hidle eq_refl) as (r & q & Ew). rewrite (clear_job_tagged _ _ _ r false q) by done. split; [|done].
    eexists _, _, _, _, _, run, _. split_and!; [reflexivity|by rewrite length_insert| |].
    + unfold pool_free_tasks, upd. ss. cbn [app]. symmetry.
      by rewrite (tagged_tasks_insert _ w (r, false, q) (set_to_run (run_batch None) run, false, q) []).
    + intros H. by apply Forall_insert.
  - rewrite clear_job_pool. split; [|done]. eexists _, _, _, _, _, _, _. by split_and!.
Qed.

Lemma push_job_effect reply j h :
  batch_effect tagged w [j] s (push_job reply j (with_heap h s)).
Proof using Hget.
  exists h, (batches s), (batch_jobs (push_job reply j s)), (reply_jobs (push_job reply j s)), (tagged_workers s), run,
    (events s). rewrite put_worker_id by done.
  destruct reply; ss; (split_and!; [reflexivity|done|unfold pool_free_tasks, upd; ss; solve_Permutation|done]).
Qed.

Lemma push_tagged_effect t j h :
  0 < t <= Z.of_nat (length (tagged_workers s)) →
  ∃ s', push_tagged t j (with_heap h s) = Ok s' ∧ batch_effect tagged w [j] s s' ∧ heap s' = h ∧ batches s' = batches s.
Proof using Hget.
  intros Ht. destruct (push_tagged_ok t j (with_heap h s)) as (tw & E & Hl & Hp & Hf); [done|].
  eexists. split; [exact E|]. ss. split; [|done].
  exists h, (batches s), (batch_jobs s), (reply_jobs s), tw, run, (events s). rewrite put_worker_id by done.
  split_and!; [reflexivity|done| |done]. unfold pool_free_tasks, upd. ss. rewrite Hp. solve_Permutation.
Qed.

(** The end of a job or completion never touches a dead batch, and ownership is
    passed on: the batch is deleted with its last task. *)
Lemma batch_job_ran_ok p T :
  owned (length (tagged_workers s)) (heap s) (batches s) ((p, batch_jobno run) :: T) →
  ∃ s' added, batch_job_ran tagged w run p s = Ok s' ∧ batch_effect tagged w added s s' ∧
    Forall (λ t : batch_job, t.2 = -1) added ∧ owned (length (tagged_workers s)) (heap s') (batches s') (added ++ T).
Proof using Hget Hidle.
  intros Ho. unfold batch_job_ran. destruct (batch_jobno run =? -1) eqn:Ej.
  { apply Z.eqb_eq in Ej. rewrite Ej in Ho. exists (clear_job tagged w run p s), [].
    pose proof (clear_job_effect p (heap s) (batches s) (events s)) as H. cbv zeta in H.
    replace (upd _ _ _ _ _ _ _ _) with s in H by (by destruct s). destruct H as (He & -> & ->).
    split_and!; [done|done|done|]. eapply owned_delete; [exact Ho|by eapply owned_completed]. }
  apply Z.eqb_neq in Ej. destruct (owned_lookup _ _ _ _ p (batch_jobno run) Ho) as [b Eb]; [by left|].
  rewrite Eb. destruct (owned_job _ _ _ _ _ _ _ Ho Ej Eb) as (Ht & Hout & Hlt & Hnd & Hr & _).
  destruct (numbers p T) as [|j js] eqn:En.
  - rewrite (job_finished_last b) by (rewrite Hout; done). cbv zeta. destruct (complete b) as [comp|] eqn:Ec; cbn [bs_state bs_thread].
    + assert (owned (length (tagged_workers s)) (<[p := set_outstanding 0 b]> (heap s)) (batches s) ([(p, -1)] ++ T)) as Ho'.
      { eapply owned_update; [exact Ho| |].
        - cbn [app]. rewrite numbers_cons, decide_True, En by done. split; [done|]. left. cbn. rewrite Ec. by eauto.
        - intros q Hq. cbn [app]. by rewrite numbers_cons, decide_False. }
      destruct (complete_in_thread b =? -1) eqn:E1.
      * set (s1 := log_event _ _). exists (clear_job tagged w run p s1), [].
        destruct (clear_job_effect p (<[p := set_outstanding 0 b]> (heap s)) (batches s) (ev_completion p :: events s))
          as (He & Eh & Eb').
        change (upd _ _ _ _ _ _ _ _) with s1 in *. rewrite Eh, Eb'.
        split_and!; [done|done|done|]. rewrite delete_insert_eq. by eapply owned_delete.
      * destruct (0 <? complete_in_thread b) eqn:E2.
        -- destruct (push_tagged_effect (complete_in_thread b) (p, -1) (<[p := set_outstanding 0 b]> (heap s)))
             as (s' & E & He & Eh & Eb'); [lia|]. exists s', [(p, -1)]. rewrite Eh, Eb'. split_and!; [done|done|by constructor|done].
        -- eexists _, [(p, -1)]. split; [done|]. split; [apply push_job_effect|]. split; [by constructor|]. by destruct (is_reply_job run).
    + set (s1 := with_heap _ _). exists (clear_job tagged w run p s1), [].
      destruct (clear_job_effect p (<[p := set_outstanding 0 b]> (heap s)) (batches s) (events s)) as (He & Eh & Eb').
      change (upd _ _ _ _ _ _ _ _) with s1 in *. rewrite Eh, Eb'.
      split_and!; [done|done|done|]. rewrite delete_insert_eq. by eapply owned_delete.
  - rewrite (job_finished_more b) by (rewrite Hout in *; cbn [length] in *; lia). cbv zeta. cbn [bs_state].
    eexists _, []. split; [done|]. split.
    + eexists _, (batches s), (batch_jobs s), (reply_jobs s), (tagged_workers s), run, (events s).
      rewrite put_worker_id by done. split_and!; [reflexivity|done|done|done].
    + split; [done|]. ss. eapply owned_update; [exact Ho| |done]. cbn [app]. rewrite En. split; [done|]. right. cbn.
      rewrite Hout in *. cbn [length] in *. split_and!; try done; lia.
Qed.
End ran.

Section accounting.
Context (names : list bytes) (res : kind → Z) (gen : Z).
Context (Hnames : NoDup names) (Hres : ∀ k, 0 <= res k).

Definition kinds : list kind := k_job false :: k_job true :: (k_cat <$> names).

Lemma kinds_NoDup : NoDup kinds.
Proof using Hnames.
  clear Hres. unfold kinds. apply NoDup_cons. split; [set_solver|]. apply NoDup_cons. split; [set_solver|].
  by apply NoDup_fmap_2; [apply _|].
Qed.

Lemma elem_of_kinds_job reply : k_job reply ∈ kinds.
Proof using. clear Hres Hnames. unfold kinds. destruct reply; set_solver. Qed.

Lemma elem_of_kinds_cat n : k_cat n ∈ kinds ↔ n ∈ names.
Proof using. clear Hres Hnames. unfold kinds. set_solver. Qed.

(** The state of the pool and the queue, [pend] being the pending commands. *)
Record core (pend : list pending_command) (s : sched) : Prop := {
  a_general : general_workers s = gen;
  a_max : max_workers s = slots kinds res gen;
  a_cap : Z.of_nat (capacity s) = slots kinds res gen;
  a_cats n : is_Some (cats s !! n) ↔ n ∈ names;
  a_res k : k ∈ kinds → reserved_of k s = Some (res k);
  a_pool : pool_ok (capacity s) (idle_workers s) (workers s);
  a_kinds k : k ∈ running s → k ∈ kinds;
  a_excess : excess kinds res (running s) <= gen;
  a_queued n c : cats s !! n = Some c → queued c = pending_of n pend;
  a_pending p : p ∈ pend → pc_cat p ∈ names
}.

(** The books are right. *)
Definition counts (s : sched) : Prop := ∀ k, k ∈ kinds → active_of k s = Some (cnt k (running s)).

Definition acct (s : sched) : Prop := core (pending_commands s) s ∧ counts s.

Lemma active_workers_running pend s : core pend s → active_workers s = Z.of_nat (length (running s)).
Proof.
  intros Hc. destruct (a_pool _ _ Hc) as [Hnd Hr _]. unfold active_workers, running, busy_runs.
  rewrite length_fmap. pose proof (busy_length _ _ Hnd Hr). lia.
Qed.

(** A free slot for a kind. *)
Definition slot (k : kind) (s : sched) : Prop :=
  (∃ n, active_of k s = Some n ∧ n < res k) ∨ active_workers s < gen.

(** Dispatch to a free slot: a worker is found, loaded and signalled, and the pool
    stays within its slots. *)
Lemma dispatch pend k load s :
  core pend s → counts s → k ∈ kinds → slot k s → (∀ y, kind_of (load y) = k) →
  ∃ y e idle ws, let s1 := log_event e (with_workers ws (with_idle_workers idle s)) in
    run_on_idle load s = Ok s1 ∧
    busy_runs s1 ≡ₚ (proxy_run_worker (load y)).1 :: busy_runs s ∧
    core pend s1 ∧ running s1 ≡ₚ k :: running s.
Proof using Hnames Hres.
  intros Hc Hn Hk Hs Hl.
  destruct (slot_found kinds res gen kinds_NoDup Hres k (running s)) as [Hex Hlt].
  { apply (a_kinds _ _ Hc). } { done. } { apply (a_excess _ _ Hc). }
  { rewrite <-(active_workers_running _ _ Hc). destruct Hs as [(n & En & Hlt)|]; [left|by right].
    rewrite (Hn k Hk) in En. by injection En as <-. }
  destruct (run_on_idle_ok load s) as (y & e & idle & ws & E & Hb & Hp).
  { apply (a_pool _ _ Hc). }
  { pose proof (a_cap _ _ Hc). unfold running, busy_runs in Hlt. rewrite length_fmap in Hlt. lia. }
  exists y, e, idle, ws. intros s1.
  assert (running s1 ≡ₚ k :: running s) as Hr.
  { unfold running, busy_runs. subst s1. ss. rewrite Hb. rewrite fmap_cons. f_equiv.
    rewrite <-(Hl y). unfold proxy_run_worker. by destruct (worker_thread (load y)). }
  split_and!; [done|done| |done]. destruct Hc. split; subst s1; ss; try done.
  - intros k'. rewrite Hr. rewrite elem_of_cons. intros [->|?]; auto.
  - by rewrite Hr.
Qed.

(** Starting one more job of a kind keeps the books. *)
Lemma counts_start k s s' :
  counts s → running s' ≡ₚ k :: running s →
  (∀ k', k' ∈ kinds → active_of k' s' = (λ n, n + if decide (k = k') then 1 else 0) <$> active_of k' s) →
  counts s'.
Proof. intros Hc Hr Ha k' Hk'. rewrite Ha, (Hc k' Hk') by done. cbn. by rewrite Hr, cnt_cons. Qed.

Lemma counts_finish k s s' :
  counts s → running s ≡ₚ k :: running s' →
  (∀ k', k' ∈ kinds → active_of k' s' = (λ n, n - if decide (k = k') then 1 else 0) <$> active_of k' s) →
  counts s'.
Proof. intros Hc Hr Ha k' Hk'. rewrite Ha, (Hc k' Hk') by done. cbn. rewrite Hr, cnt_cons. f_equal. lia. Qed.

(** Changing a category's counters. *)
Lemma core_cat pend pend' n c c' s :
  core pend s → cats s !! n = Some c → reserved_threads c' = reserved_threads c →
  queued c' = pending_of n pend' → (∀ n', n' ≠ n → pending_of n' pend' = pending_of n' pend) →
  (∀ p, p ∈ pend' → pc_cat p ∈ names) →
  core pend' (with_cats (<[n := c']> (cats s)) s).
Proof.
  intros Hc En Hr Hq Hp Hin. destruct Hc as [H1 H2 H3 H4 H5 H6 H7 H8 H9 H10]. split; ss; try done.
  - intros n'. rewrite <-H4. destruct (decide (n' = n)) as [->|]; [rewrite lookup_insert_eq, En|by rewrite lookup_insert_ne].
    split; by eauto.
  - intros [r|n'] Hk; specialize (H5 _ Hk); ss; [done|].
    destruct (decide (n' = n)) as [->|]; [|by rewrite lookup_insert_ne].
    rewrite lookup_insert_eq. rewrite En in H5. cbn in *. by rewrite Hr.
  - intros n' c0. destruct (decide (n' = n)) as [->|].
    + rewrite lookup_insert_eq. by intros [= <-].
    + rewrite lookup_insert_ne, Hp by done. apply H9.
Qed.

Lemma active_of_cat n c c' s k d :
  cats s !! n = Some c → active_threads c' = active_threads c + d →
  active_of k (with_cats (<[n := c']> (cats s)) s) = (λ x, x + if decide (k_cat n = k) then d else 0) <$> active_of k s.
Proof.
  intros En Ha. destruct k as [r|n']; ss.
  - rewrite decide_False by done. cbn. by rewrite Z.add_0_r.
  - destruct (decide (k_cat n = k_cat n')) as [[= <-]|Hne].
    + rewrite lookup_insert_eq, En. cbn. by rewrite Ha.
    + rewrite lookup_insert_ne by congruence. destruct (cats s !! n'); cbn; [|done]. by rewrite Z.add_0_r.
Qed.

Lemma active_of_job reply k d s :
  active_of k (set_jobs_active reply (jobs_active reply s + d) s)
  = (λ x, x + if decide (k_job reply = k) then d else 0) <$> active_of k s.
Proof.
  destruct k as [r|n]; ss.
  - cbn. destruct (decide (k_job reply = k_job r)) as [[= <-]|Hne]; [by destruct reply|].
    rewrite Z.add_0_r. by destruct reply, r.
  - rewrite decide_False by done. destruct reply; ss; destruct (cats s !! n); cbn; by rewrite ?Z.add_0_r.
Qed.

Lemma start_command_ok n load s :
  acct s → n ∈ names → slot (k_cat n) s → (∀ y, is_batch_job (load y) = false ∧ cat (load y) = n) →
  ∃ s', start_command n load s = Ok s' ∧ acct s' ∧ moved s s' ∧ pending_commands s' = pending_commands s.
Proof using Hnames Hres.
  intros [Hc Hn] Hin Hs Hl.
  destruct (dispatch (pending_commands s) (k_cat n) load s) as (y & e & idle & ws & E & Hb & Hc1 & Hr1).
  { done. } { done. } { by apply elem_of_kinds_cat. } { done. } { intros y. unfold kind_of. by destruct (Hl y) as [-> ->]. }
  set (s1 := log_event _ _) in *. unfold start_command. rewrite E. cbn [mbind outcome_bind].
  unfold update_cat. destruct (proj2 (a_cats _ _ Hc1 n) Hin) as [c Ec]. rewrite Ec.
  eexists. split; [done|]. split; [split|split].
  - ss. apply core_cat with (pending_commands s) c; try done.
    + ss. by apply (a_queued _ _ Hc1).
    + apply (a_pending _ _ Hc1).
  - eapply counts_start; [exact Hn|exact Hr1|]. intros k' Hk'. by rewrite (active_of_cat n c _ s1 k' 1).
  - apply (moved_plain s e idle ws (load y)) in Hb; [|by apply Hl]. destruct Hb. by split.
  - done.
Qed.

Lemma queue_command_ok p c s :
  acct s → cats s !! pc_cat p = Some c →
  ∃ s', queue_command p c s = Ok s' ∧ acct s' ∧ moved s s'.
Proof.
  intros [Hc Hn] Ec. unfold queue_command. destruct (_ && _); [by exists s|].
  unfold update_cat. ss. rewrite Ec. eexists. split; [done|]. split; [split|].
  - ss. assert (core (pending_commands s ++ [p]) (with_cats (<[pc_cat p := set_queued (queued c + 1) c]> (cats s)) s)) as H.
    { apply core_cat with (pending_commands s) c; try done; ss.
      - rewrite pending_of_app, (a_queued _ _ Hc _ _ Ec), pending_of_cons, decide_True, pending_of_nil by done. lia.
      - intros n' Hn'. rewrite pending_of_app, pending_of_cons, decide_False, pending_of_nil by congruence. lia.
      - intros q. rewrite elem_of_app, list_elem_of_singleton. intros [Hq| ->]; [by apply (a_pending _ _ Hc)|].
        apply (a_cats _ _ Hc). by eauto. }
    by destruct H.
  - intros k Hk. specialize (Hn k Hk). etrans; [apply (active_of_cat (pc_cat p) c _ s k 0)|]; [done|ss; lia|].
    rewrite Hn. cbn. f_equal. destruct (decide _); apply Z.add_0_r.
  - by split.
Qed.

(** The slot tests of the dispatch points. *)
Lemma cat_slot pend n c s :
  core pend s → cats s !! n = Some c →
  (active_threads c < reserved_threads c ∨ active_workers s < general_workers s) ↔ slot (k_cat n) s.
Proof.
  intros Hc Ec. assert (n ∈ names) as Hin by (apply (a_cats _ _ Hc); by eauto).
  pose proof (a_res _ _ Hc (k_cat n) (proj2 (elem_of_kinds_cat n) Hin)) as Hr. unfold slot. ss.
  rewrite Ec in Hr |- *. injection Hr as Hr. rewrite (a_general _ _ Hc), Hr. cbn.
  split; [intros [?|?]; [left; by eauto|by right]|intros [(m & [= <-] & ?)|?]; [by left|by right]].
Qed.

Lemma no_slot_false n c s :
  acct s → cats s !! n = Some c → no_slot c s = false → n ∈ names ∧ slot (k_cat n) s.
Proof.
  intros [Hc Hn] Ec H. split; [apply (a_cats _ _ Hc); by eauto|].
  apply (cat_slot _ _ _ _ Hc Ec). unfold no_slot in H. lia.
Qed.

(** No slot is free for a kind; more work does not free one. *)
Definition full (k : kind) (run : list kind) : Prop := res k <= cnt k run ∧ gen <= Z.of_nat (length run).

Lemma full_grows k l run run' : run' ≡ₚ l ++ run → full k run → full k run'.
Proof.
  intros Hp [H1 H2]. unfold full. rewrite Hp, length_app, cnt_app. pose proof (cnt_nonneg k l). lia.
Qed.

Lemma slot_or_full pend k s : core pend s → counts s → k ∈ kinds → slot k s ∨ full k (running s).
Proof.
  intros Hc Hn Hk. unfold slot, full. rewrite (Hn k Hk), (active_workers_running _ _ Hc).
  destruct (Z_lt_ge_dec (cnt k (running s)) (res k)); [left; left; by eauto|].
  destruct (Z_lt_ge_dec (Z.of_nat (length (running s))) gen); [left; by right|right; lia].
Qed.

Lemma slot_not_full pend k s : core pend s → counts s → k ∈ kinds → slot k s → full k (running s) → False.
Proof.
  intros Hc Hn Hk Hs [H1 H2]. unfold slot in Hs. rewrite (Hn k Hk), (active_workers_running _ _ Hc) in Hs.
  destruct Hs as [(n & [= <-] & ?)|?]; lia.
Qed.

(** Where there is a slot, a worker is available. *)
Lemma slot_active pend k s : core pend s → counts s → k ∈ kinds → slot k s → active_workers s < max_workers s.
Proof using Hnames Hres.
  intros Hc Hn Hk Hs. rewrite (active_workers_running _ _ Hc), (a_max _ _ Hc).
  destruct (slot_found kinds res gen kinds_NoDup Hres k (running s)); try done.
  { apply (a_kinds _ _ Hc). } { apply (a_excess _ _ Hc). }
  unfold slot in Hs. rewrite (Hn k Hk), (active_workers_running _ _ Hc) in Hs.
  destruct Hs as [(n & [= <-] & ?)|?]; [by left|by right].
Qed.

Lemma batch_slot_slot pend reply s : core pend s → counts s → batch_slot reply s = true ↔ slot (k_job reply) s.
Proof using Hnames Hres.
  intros Hc Hn. pose proof (slot_active pend (k_job reply) s Hc Hn (elem_of_kinds_job reply)) as Ha.
  pose proof (a_res _ _ Hc (k_job reply) (elem_of_kinds_job reply)) as [= Hr].
  unfold batch_slot, slot in *. rewrite (a_general _ _ Hc). cbn [active_of] in *. rewrite Hr. split.
  - intros H. destruct (Z_lt_ge_dec (active_workers s) gen); [by right|]. left. eexists. split; [done|]. lia.
  - intros H. specialize (Ha H). destruct H as [(n & [= <-] & ?)|?]; lia.
Qed.

Lemma core_jobs pend reply n q s :
  core pend s → core pend (set_jobs_active reply n (set_jobs_queue reply q s)).
Proof. intros []. destruct reply; ss; split; ss; done. Qed.

(** The jobs [js] of a queue were started, in order. *)
Definition started_jobs (reply : bool) (js : list batch_job) (s s' : sched) : Prop :=
  ∃ l, dispatched l s s' ∧ l.*2 = (λ j, load_batch j reply 0) <$> js.

Lemma started_jobs_none reply s : started_jobs reply [] s s.
Proof. exists []. split; [by apply dispatched_none|done]. Qed.

Lemma started_jobs_cons reply j js s s1 s2 s' :
  NoDup (idle_workers s) → run_on_idle (load_batch j reply 0) s = Ok s1 →
  workers s2 = workers s1 → idle_workers s2 = idle_workers s1 → events s2 = events s1 →
  started_jobs reply js s2 s' → started_jobs reply (j :: js) s s'.
Proof.
  intros Hnd E Hw Hi He (l & Hl & Ef). destruct (run_on_idle_dispatched _ _ _ Hnd E) as (w & y & H1).
  exists ((w, y, load_batch j reply 0) :: l). split; [|by cbn; rewrite Ef].
  eapply (dispatched_app [_]); [by eapply dispatched_same|done].
Qed.

(** One round over a job queue: it ends, starts a prefix of the queue, and leaves a
    job only when there is no slot for it. *)
Lemma run_batch_jobs_ok fuel reply s :
  acct s → (length (jobs_queue reply s) < fuel)%nat →
  ∃ s' l started, run_batch_jobs fuel reply s = Ok s' ∧ acct s' ∧ moved s s' ∧
    running s' ≡ₚ l ++ running s ∧ jobs_queue reply s = started ++ jobs_queue reply s' ∧
    (jobs_queue reply s' = [] ∨ full (k_job reply) (running s')) ∧
    jobs_queue (negb reply) s' = jobs_queue (negb reply) s ∧ pending_commands s' = pending_commands s ∧
    tagged_workers s' = tagged_workers s ∧ started_jobs reply started s s'.
Proof using Hnames Hres.
  revert s. induction fuel as [|fuel IH]; intros s [Hc Hn] Hf; [lia|]. cbn [run_batch_jobs].
  destruct (jobs_queue reply s) as [|j q] eqn:Eq.
  { exists s, [], []. split_and!; try done; [by left|apply started_jobs_none]. }
  destruct (batch_slot reply s) eqn:Es; [apply (batch_slot_slot _ _ _ Hc Hn) in Es|].
  - destruct (dispatch (pending_commands s) (k_job reply) (load_batch j reply 0) s)
      as (y & e & idle & ws & E & Hb & Hc1 & Hr1); [done|done|apply elem_of_kinds_job|done|done|].
    rewrite E. cbn [mbind outcome_bind]. cbv zeta. set (s1 := log_event _ _) in *.
    set (s2 := set_jobs_active _ _ _).
    assert (moved s s2) as Hm by by apply (moved_batch s reply j q _ e idle ws y).
    assert (running s2 = running s1) as Er by by destruct reply.
    destruct (IH s2) as (s' & l & started & E' & Ha' & Hm' & Hr' & Hq' & Hf' & Ho' & Hp' & Ht' & Hs').
    + split; [destruct reply; by apply core_jobs|].
      eapply counts_start; [exact Hn|by rewrite Er|]. intros k' _. subst s2.
      rewrite active_of_job. by destruct reply, k' as [[]|].
    + subst s2 s1. destruct reply; ss; cbn [length] in Hf; lia.
    + exists s', (l ++ [k_job reply]), (j :: started). split_and!; try done.
      * by etrans.
      * by rewrite Hr', Er, Hr1, <-app_assoc.
      * cbn [app]. rewrite <-Hq'. by destruct reply.
      * rewrite Ho'. by destruct reply.
      * rewrite Hp'. by destruct reply.
      * rewrite Ht'. by destruct reply.
      * eapply started_jobs_cons; [apply (pool_nodup _ _ _ (a_pool _ _ Hc))|exact E| | | |exact Hs']; by destruct reply.
  - exists s, [], []. split_and!; try done; [|apply started_jobs_none]. right.
    destruct (slot_or_full _ _ _ Hc Hn (elem_of_kinds_job reply)) as [Hs|]; [|done].
    apply (batch_slot_slot _ _ _ Hc Hn) in Hs. congruence.
Qed.

(** The commands of one category, in order. *)
Definition of_cat (n : bytes) (ps : list pending_command) : list pending_command := filter (λ p, pc_cat p = n) ps.

Lemma of_cat_cons n p ps : of_cat n (p :: ps) = if decide (pc_cat p = n) then p :: of_cat n ps else of_cat n ps.
Proof.
  unfold of_cat. destruct (decide (pc_cat p = n)); [by rewrite filter_cons_True|by rewrite filter_cons_False].
Qed.

(** Starting the pending command [p]. *)
Lemma start_pending p c pend pend' s :
  core pend s → counts s → pend ≡ₚ p :: pend' → slot (k_cat (pc_cat p)) s → cats s !! pc_cat p = Some c →
  ∃ s1 s2, run_on_idle (load_pending p) s = Ok s1 ∧ 0 <= queued c - 1 ∧
    update_cat (pc_cat p) (λ c, set_active_threads (active_threads c + 1) (set_queued (queued c - 1) c)) s1 = Ok s2 ∧
    core pend' s2 ∧ counts s2 ∧ moved s s2 ∧ running s2 ≡ₚ k_cat (pc_cat p) :: running s ∧
    jobs_queue true s2 = jobs_queue true s ∧ jobs_queue false s2 = jobs_queue false s ∧
    tagged_workers s2 = tagged_workers s ∧ ∃ w y, dispatched [(w, y, load_pending p)] s s2.
Proof using Hnames Hres.
  intros Hc Hn Hp Hs Ec. assert (pc_cat p ∈ names) as Hin by (apply (a_cats _ _ Hc); by eauto).
  assert (∀ y, is_batch_job (load_pending p y) = false ∧ cat (load_pending p y) = pc_cat p) as Hl.
  { intros y. unfold load_pending. by destruct (pc_callback p). }
  destruct (dispatch pend (k_cat (pc_cat p)) (load_pending p) s) as (y & e & idle & ws & E & Hb & Hc1 & Hr1).
  { done. } { done. } { by apply elem_of_kinds_cat. } { done. } { intros y. unfold kind_of. by destruct (Hl y) as [-> ->]. }
  assert (∀ n, pending_of n pend = pending_of n (p :: pend')) as Hq by (intros n; unfold pending_of; by rewrite Hp).
  set (s1 := log_event _ _) in *. exists s1. unfold update_cat. assert (cats s1 !! pc_cat p = Some c) as Ec1 by done.
  rewrite Ec1. eexists. split; [done|]. pose proof (a_queued _ _ Hc _ _ Ec) as Hqc.
  rewrite Hq, pending_of_cons, decide_True in Hqc by done. split; [unfold pending_of in *; lia|]. split_and!; try done.
  - eapply core_cat; [exact Hc1|exact Ec1|done|ss; lia| |].
    + intros n' Hn'. rewrite Hq, pending_of_cons, decide_False by congruence. lia.
    + intros q Hqin. apply (a_pending _ _ Hc). rewrite Hp. by right.
  - eapply counts_start; [exact Hn|exact Hr1|]. intros k' Hk'. by rewrite (active_of_cat (pc_cat p) c _ s1 k' 1).
  - apply (moved_plain s e idle ws (load_pending p y)) in Hb; [|by apply Hl]. destruct Hb. by split.
  - destruct (run_on_idle_dispatched _ _ _ (pool_nodup _ _ _ (a_pool _ _ Hc)) E) as (w & y' & Hst). exists w, y'. by eapply dispatched_same.
Qed.

(** The loop over the pending commands: per category it starts a prefix, and it
    leaves a command only when there is no slot for it. *)
Lemma run_pending_ok kept rest s :
  core (kept ++ rest) s → counts s → (∀ p, p ∈ kept → full (k_cat (pc_cat p)) (running s)) →
  ∃ s' l left ps st, run_pending kept rest s = Ok s' ∧ acct s' ∧ moved s s' ∧ running s' ≡ₚ l ++ running s ∧
    pending_commands s' = kept ++ left ∧
    (∀ p, p ∈ kept ++ left → full (k_cat (pc_cat p)) (running s')) ∧
    (∀ n, of_cat n rest = of_cat n ps ++ of_cat n left ∧ (full (k_cat n) (running s) → of_cat n ps = [])) ∧
    jobs_queue true s' = jobs_queue true s ∧ jobs_queue false s' = jobs_queue false s ∧
    tagged_workers s' = tagged_workers s ∧ dispatched st s s' ∧ st.*2 = load_pending <$> ps ∧ ps `sublist_of` rest.
Proof using Hnames Hres.
  revert kept s. induction rest as [|p rest IH]; intros kept s Hc Hn Hk; cbn [run_pending].
  { rewrite app_nil_r in *. exists (with_pending_commands kept s), [], [], [], []. rewrite app_nil_r.
    split_and!; try done. { split; [by destruct Hc|done]. } { by apply dispatched_none. } }
  assert (pc_cat p ∈ names) as Hin by (apply (a_pending _ _ Hc); set_solver).
  destruct (proj2 (a_cats _ _ Hc _) Hin) as [c Ec]. rewrite Ec.
  pose proof (cat_slot _ _ _ _ Hc Ec) as Hsl.
  destruct (active_workers s <? max_workers s) eqn:Ea.
  - destruct (_ || _) eqn:Es.
    + assert (slot (k_cat (pc_cat p)) s) as Hs by (apply Hsl; lia).
      destruct (start_pending p c (kept ++ p :: rest) (kept ++ rest) s)
        as (s1 & s2 & E1 & Hq & E2 & Hc2 & Hn2 & Hm2 & Hr2 & Hj1 & Hj2 & Ht2 & w & y & Hst2); [done|done|solve_Permutation|done|done|].
      rewrite E1. cbn [mbind outcome_bind]. destruct (queued c - 1 <? 0) eqn:Eq; [lia|]. rewrite E2. cbn [mbind outcome_bind].
      destruct (IH kept s2) as (s' & l & left_ & ps & st & E' & Ha' & Hm' & Hr' & Hp' & Hf' & Ho' & ? & ? & ? & Hs' & Hl' & Hsub); [done|done| |].
      { intros q Hq'. by apply (full_grows _ [k_cat (pc_cat p)] (running s)); [|apply Hk]. }
      exists s', (l ++ [k_cat (pc_cat p)]), left_, (p :: ps), ((w, y, load_pending p) :: st). split_and!; try done; try congruence.
      * by etrans.
      * by rewrite Hr', Hr2, <-app_assoc.
      * intros n. destruct (Ho' n) as (Est & Hst). rewrite !of_cat_cons, Est.
        destruct (decide (pc_cat p = n)) as [<-|Hne]; (split; [done|]; intros Hfull).
        -- exfalso. eapply (slot_not_full _ (k_cat (pc_cat p)) s); eauto. by apply elem_of_kinds_cat.
        -- apply Hst. by apply (full_grows _ [k_cat (pc_cat p)] (running s)).
      * by eapply (dispatched_app [_]).
      * by rewrite !fmap_cons, Hl'.
      * by constructor.
    + assert (full (k_cat (pc_cat p)) (running s)) as Hfp.
      { destruct (slot_or_full _ (k_cat (pc_cat p)) s Hc Hn) as [Hs|]; [by apply elem_of_kinds_cat| |done].
        apply Hsl in Hs. lia. }
      destruct (IH (kept ++ [p]) s) as (s' & l & left_ & ps & st & E' & Ha' & Hm' & Hr' & Hp' & Hf' & Ho' & ? & ? & ? & ? & ? & ?).
      { by rewrite <-app_assoc. } { done. }
      { intros q. rewrite elem_of_app, list_elem_of_singleton. intros [?| ->]; [by apply Hk|done]. }
      rewrite <-app_assoc in Hp', Hf'. exists s', l, (p :: left_), ps, st. split_and!; try done; [|by constructor].
      intros n. destruct (Ho' n) as (Est & Hst). rewrite !of_cat_cons, Est.
      destruct (decide (pc_cat p = n)) as [<-|Hne]; [|done]. by rewrite (Hst Hfp).
  - exists (with_pending_commands (kept ++ p :: rest) s), [], (p :: rest), [], []. split_and!; try done.
    + split; [by destruct Hc|done].
    + intros q Hq. assert (pc_cat q ∈ names) as Hqn by by apply (a_pending _ _ Hc).
      destruct (slot_or_full _ (k_cat (pc_cat q)) s Hc Hn) as [Hs|]; [by apply elem_of_kinds_cat| |done].
      pose proof (slot_active _ _ _ Hc Hn (proj2 (elem_of_kinds_cat _) Hqn) Hs). lia.
    + by apply dispatched_none.
    + apply sublist_nil_l.
Qed.

Lemma acct_tagged tw ev s : acct s → acct (with_events ev (with_tagged_workers tw s)).
Proof. intros [[] ?]. by split; [split|]. Qed.

(** A round of the queues took the batch jobs [js], the reply jobs [rs] and the
    commands [ps] off them, in order, and started exactly these on pool workers, and
    the first job of every idle tagged worker on that worker. *)
Definition round_starts (s s' : sched) : Prop :=
  ∃ js rs ps l,
    batch_jobs s = js ++ batch_jobs s' ∧ reply_jobs s = rs ++ reply_jobs s' ∧
    (∀ n, of_cat n (pending_commands s) = of_cat n ps ++ of_cat n (pending_commands s')) ∧
    ps `sublist_of` pending_commands s ∧
    l.*2 = ((λ j, load_batch j false 0) <$> js) ++ ((λ j, load_batch j true 0) <$> rs) ++ (load_pending <$> ps) ∧
    tagged_workers s' = serve_tagged <$> tagged_workers s ∧
    dispatched l (with_events (reverse (tagged_events (tagged_workers s)) ++ events s) s) s'.

(** What a call of [proxy_process_queue] does: it leaves nothing that could have been
    started, and what it takes out of the queues it starts, in order. *)
Record served (s s' : sched) : Prop := {
  sv_tagged i r b q : tagged_workers s' !! i = Some (r, b, q) → b = false → q = [];
  sv_jobs reply : jobs_queue reply s' = [] ∨ full (k_job reply) (running s');
  sv_pending p : p ∈ pending_commands s' → full (k_cat (pc_cat p)) (running s');
  sv_started : round_starts s s'
}.

Lemma run_tagged_state s :
  run_tagged (length (tagged_workers s)) 0 s
  = with_events (reverse (tagged_events (tagged_workers s)) ++ events s) (with_tagged_workers (serve_tagged <$> tagged_workers s) s).
Proof. by rewrite run_tagged_serves. Qed.

Lemma process_queue_ok s :
  acct s → max_workers s ≠ 0 →
  ∃ s', proxy_process_queue s = Ok s' ∧ acct s' ∧ moved s s' ∧ served s s'.
Proof using Hnames Hres.
  intros Ha Hmax. unfold proxy_process_queue. destruct (max_workers s =? 0) eqn:Em; [lia|]. cbv zeta.
  destruct (run_tagged_ok (length (tagged_workers s)) 0 s) as (tw & ev & E0 & Hm0 & _ & Ht); [done|].
  pose proof (run_tagged_state s) as E0'. rewrite E0 in E0'. assert (tw = serve_tagged <$> tagged_workers s) as Etw by by injection E0'.
  assert (ev = reverse (tagged_events (tagged_workers s)) ++ events s) as Eev by by injection E0'. clear E0'.
  rewrite E0 in *. set (s0 := with_events _ _) in *. pose proof (acct_tagged tw ev s Ha) as Ha0. fold s0 in Ha0.
  destruct (run_batch_jobs_ok (S (length (jobs_queue false s0))) false s0)
    as (s1 & l1 & js & E1 & Ha1 & Hm1 & Hr1 & Hq1 & Hf1 & Ho1 & Hp1 & Ht1 & L1 & HL1 & EL1); [done|lia|].
  unfold proxy_run_batch_jobs. rewrite E1. cbn [mbind outcome_bind].
  destruct (run_batch_jobs_ok (S (length (jobs_queue true s1))) true s1)
    as (s2 & l2 & rs & E2 & [Hc2 Hn2] & Hm2 & Hr2 & Hq2 & Hf2 & Ho2 & Hp2 & Ht2 & L2 & HL2 & EL2); [done|lia|].
  rewrite E2. cbn [mbind outcome_bind].
  destruct (run_pending_ok [] (pending_commands s2) s2)
    as (s3 & l3 & left_ & ps & L3 & E3 & Ha3 & Hm3 & Hr3 & Hp3 & Hf3 & Ho3 & Hj3 & Hj3' & Ht3 & HL3 & EL3 & Hsub);
    [done|done|set_solver|].
  exists s3. cbn [negb] in *. split_and!; [done|done|by do 3 (etrans; [|eassumption])|]. split.
  - intros i r b q. rewrite Ht3, Ht2, Ht1. intros Hi. eapply Ht; [|exact Hi]. lia.
  - intros [].
    + rewrite Hj3. destruct Hf2 as [|Hf2]; [by left|right]. by eapply full_grows.
    + rewrite Hj3', Ho2. destruct Hf1 as [|Hf1]; [by left|right]. eapply full_grows, full_grows; [..|exact Hf1]; done.
  - intros p. rewrite Hp3. apply Hf3.
  - exists js, rs, ps, (L1 ++ L2 ++ L3). ss. split_and!.
    + by rewrite Hj3', Ho2, <-Hq1.
    + by rewrite Hj3, <-Hq2, Ho1.
    + intros n. rewrite Hp3. cbn [app]. rewrite <-(proj1 (Ho3 n)), Hp2, Hp1. done.
    + by rewrite Hp2, Hp1 in Hsub.
    + by rewrite !fmap_app, EL1, EL2, EL3.
    + by rewrite Ht3, Ht2, Ht1.
    + eapply dispatched_app; [|by eapply dispatched_app]. rewrite <-Eev. destruct HL1. by split.
Qed.

(** ** The invariant *)
Record inv (s : sched) : Prop := {
  inv_acct : acct s;
  inv_runs : runs_ok s;
  inv_owned : owned (length (tagged_workers s)) (heap s) (batches s) (tasks s)
}.

Lemma inv_moved s s' : inv s → acct s' → moved s s' → inv s'.
Proof.
  intros [_ Hr Ho] Ha [Hh Hb Ht Hp Hm]. split; [done|by apply Hm|]. by rewrite Hh, Hb, Ht, Hp.
Qed.

(** The worker [w] returns to the pool. *)
Lemma core_finish pend w run x h bs bj rj tw ev s :
  core pend s → workers s !! w = Some run → w ∉ idle_workers s →
  let s' := with_idle_workers (w :: idle_workers s) (upd h bs bj rj tw (<[w := x]> (workers s)) ev s) in
  core pend s' ∧ busy_runs s ≡ₚ run :: busy_runs s' ∧ running s ≡ₚ kind_of run :: running s'.
Proof using Hnames Hres.
  intros Hc Ew Hw s'. destruct (pool_release _ _ _ w run x (a_pool _ _ Hc) Ew Hw) as [Hp Hb].
  assert (running s ≡ₚ kind_of run :: running s') as Hr.
  { unfold running, busy_runs. subst s'. unfold upd. ss. by rewrite Hb. }
  split; [|done]. destruct Hc as [H1 H2 H3 H4 H5 H6 H7 H8 H9 H10]. split; try done.
  - intros k Hk. apply H7. rewrite Hr. by right.
  - rewrite Hr in H8. by eapply (release kinds res gen kinds_NoDup Hres).
Qed.

(** A busy worker's kind is on the books. *)
Lemma busy_kind w run s :
  acct s → workers s !! w = Some run → w ∉ idle_workers s →
  kind_of run ∈ kinds ∧ ∃ n, active_of (kind_of run) s = Some n ∧ 0 < n.
Proof.
  intros [Hc Hn] Ew Hw.
  assert (running s ≡ₚ kind_of run :: (kind_of <$> busy (w :: idle_workers s) (workers s))) as Hr.
  { unfold running, busy_runs. by rewrite (busy_take _ _ w run). }
  assert (kind_of run ∈ kinds) as Hk by (apply (a_kinds _ _ Hc); rewrite Hr; by left).
  split; [done|]. rewrite (Hn _ Hk). eexists. split; [done|]. rewrite Hr, cnt_cons, decide_True by done.
  pose proof (cnt_nonneg (kind_of run) (kind_of <$> busy (w :: idle_workers s) (workers s))). lia.
Qed.

(** The end of a run: its task is gone, and at most the completion of its batch was
    queued. *)
Definition ran_tasks (run : run_info) (s s' : sched) : Prop :=
  ∃ T added, tasks s ≡ₚ option_list (run_task run) ++ T ∧ tasks s' ≡ₚ added ++ T ∧ Forall (λ t : batch_job, t.2 = -1) added.

(** [RAN] from a pool worker that ran a command. *)
Lemma command_ran_ok w rt run s :
  inv s → max_workers s ≠ 0 → workers s !! w = Some run → w ∉ idle_workers s → is_batch_job run = false →
  ∃ s', worker_ran false w rt s = Ok s' ∧ inv s' ∧ ran_tasks run s s'.
Proof using Hnames Hres.
  intros [Ha Hr Ho] Hmax Ew Hw Hb. destruct (busy_kind w run s Ha Ew Hw) as (Hk & n & En & Hpos).
  destruct Ha as [Hc Hn]. unfold worker_ran, get_run. rewrite Ew, Hb. unfold kind_of in *. rewrite Hb in *.
  cbn [active_of] in En. destruct (cats s !! cat run) as [c|] eqn:Ec; [|done]. injection En as <-.
  destruct (0 <? active_threads c) eqn:E0; [|lia]. unfold update_cat. rewrite Ec. cbn [mbind outcome_bind].
  set (s0 := with_cats _ _). change (max_workers s0) with (max_workers s). destruct (max_workers s =? 0) eqn:Em; [lia|].
  eexists. split; [done|].
  assert (core (pending_commands s) s0) as Hc0.
  { apply (core_cat (pending_commands s) _ _ c); try done; [exact (a_queued _ _ Hc _ _ Ec)|apply (a_pending _ _ Hc)]. }
  destruct (core_finish (pending_commands s) w run run (heap s) (batches s) (batch_jobs s) (reply_jobs s) (tagged_workers s)
              (events s) s0) as (Hc1 & Hb1 & Hr1); [done..|].
  change (workers s0) with (workers s) in *. rewrite list_insert_id in * by done.
  set (s1 := with_idle_workers _ _) in *. change (with_idle_workers _ s0) with s1.
  change (busy_runs s0) with (busy_runs s) in Hb1. assert (run_task run = None) as Hn0 by (unfold run_task; by rewrite Hb).
  assert (tasks s1 ≡ₚ tasks s) as Htk by (unfold tasks; rewrite Hb1; cbn [omap list_omap]; by rewrite Hn0).
  split; [split; [split; [done|]| |]|].
  - eapply counts_finish; [exact Hn|by change (running s) with (running s0)|]. intros k' Hk'. unfold kind_of. rewrite Hb.
    etrans; [by apply (active_of_cat (cat run) c (set_active_threads (active_threads c - 1) c) s k' (-1))|].
    destruct (active_of k' s); [|done]. cbn. by destruct (decide _).
  - destruct Hr as [Hr Hg]. split; [|done]. rewrite Hb1 in Hr. by apply Forall_cons in Hr as [_ Hr].
  - by rewrite Htk.
  - exists (tasks s), []. rewrite Hn0. by split_and!.
Qed.

(** [RAN] from a pool worker that ran a batch job. *)
Lemma pool_job_ran_ok w rt run s :
  inv s → max_workers s ≠ 0 → workers s !! w = Some run → w ∉ idle_workers s → is_batch_job run = true →
  ∃ s', worker_ran false w rt s = Ok s' ∧ inv s' ∧ ran_tasks run s s'.
Proof using Hnames Hres.
  intros [Ha Hr Ho] Hmax Ew Hw Hb. destruct (busy_kind w run s Ha Ew Hw) as (Hk & n & En & Hpos).
  destruct Ha as [Hc Hn]. unfold worker_ran, get_run, release_slot. rewrite Ew, Hb.
  assert (busy_runs s ≡ₚ run :: busy (w :: idle_workers s) (workers s)) as Hbs by by apply busy_take.
  assert (is_Some (run_task run)) as [[p j] Et].
  { destruct Hr as [Hr _]. rewrite Hbs in Hr. apply Forall_cons in Hr as [Hr _]. by apply Hr. }
  assert (to_run run = run_batch (Some p) ∧ batch_jobno run = j) as [Etr Ejn].
  { unfold run_task in Et. rewrite Hb in Et. destruct (to_run run) as [|[]|]; try done. by injection Et as -> ->. }
  unfold kind_of in *. rewrite Hb in *. cbn [active_of] in En. injection En as <-.
  destruct (0 <? jobs_active (is_reply_job run) s) eqn:E0; [|lia]. cbn [mbind outcome_bind]. rewrite Etr.
  set (s0 := set_jobs_active _ _ s).
  assert (core (pending_commands s) s0) as Hc0.
  { pose proof (core_jobs _ (is_reply_job run) (jobs_active (is_reply_job run) s - 1) (jobs_queue (is_reply_job run) s) s Hc) as H.
    subst s0. destruct (is_reply_job run), s; exact H. }
  assert (∃ n m, s0 = with_batch_jobs_active n (with_reply_jobs_active m s)) as (n0 & m0 & Es0).
  { exists (batch_jobs_active s0), (reply_jobs_active s0). subst s0. by destruct (is_reply_job run), s. }
  assert (∀ k', active_of k' s0 = (λ n, n - if decide (k_job (is_reply_job run) = k') then 1 else 0) <$> active_of k' s) as Hac.
  { intros k'. subst s0. replace (jobs_active (is_reply_job run) s - 1) with (jobs_active (is_reply_job run) s + -1) by lia.
    rewrite active_of_job. destruct (active_of k' s); [|done]. cbn. by destruct (decide _). }
  clearbody s0. subst s0. set (s0 := with_batch_jobs_active _ _) in *.
  set (T := pool_free_tasks s ++ omap run_task (busy (w :: idle_workers s) (workers s))).
  assert (tasks s ≡ₚ (p, j) :: T) as HT.
  { unfold tasks. rewrite Hbs. cbn [omap list_omap]. rewrite Et. subst T. by rewrite Permutation_middle. }
  destruct (batch_job_ran_ok false w run s0 Ew ltac:(done) p T) as (s1 & added & E1 & He & Hadd & Ho1).
  { by rewrite Ejn, <-HT. }
  rewrite E1. cbn [mbind outcome_bind]. destruct He as (h & bs & bj & rj & tw & x & ev & -> & Hl & Hpf & Hg).
  unfold put_worker in *.
  destruct (core_finish (pending_commands s) w run x h bs bj rj tw ev s0 Hc0 Ew Hw) as (Hc1 & Hb1 & Hr1).
  set (s1 := upd _ _ _ _ _ _ _ _) in *. set (s2 := with_idle_workers _ _) in *.
  change (max_workers s1) with (max_workers s).
  destruct (max_workers s =? 0) eqn:Em; [lia|]. exists s2. split; [reflexivity|].
  assert (tasks s2 ≡ₚ added ++ T) as HT2.
  { assert (pool_free_tasks s2 = pool_free_tasks s1) as E2 by (unfold pool_free_tasks; ss; reflexivity).
    assert (busy_runs s2 = busy (w :: idle_workers s) (<[w := x]> (workers s))) as E3 by (unfold busy_runs; ss; reflexivity).
    unfold tasks. rewrite E2, E3, Hpf, busy_insert, <-app_assoc by (by left). reflexivity. }
  split; [split; [split| |]|].
  - exact Hc1.
  - eapply counts_finish; [exact Hn|exact Hr1|]. intros k' Hk'. unfold kind_of. rewrite Hb, <-Hac. by destruct k'.
  - destruct Hr as [Hr Hg0]. split; [|by apply Hg]. change (busy_runs s0) with (busy_runs s) in Hb1.
    rewrite Hb1 in Hr. by apply Forall_cons in Hr as [_ Hr].
  - change (tagged_workers s2) with tw. rewrite Hl. change (heap s2) with h. change (batches s2) with bs. by rewrite HT2.
  - exists T, added. by rewrite Et.
Qed.

(** [RAN] from a tagged worker. *)
Lemma tagged_job_ran_ok w rt run q s :
  inv s → max_workers s ≠ 0 → tagged_workers s !! w = Some (run, true, q) →
  ∃ s', worker_ran true w rt s = Ok s' ∧ inv s' ∧ ran_tasks run s s'.
Proof using Hnames Hres.
  intros [Ha [Hr Hg] Ho] Hmax Ew. unfold worker_ran, get_run, release_slot. rewrite Ew. cbn [fmap option_fmap option_map fst snd].
  destruct (proj1 (Forall_lookup _ _) Hg _ _ Ew eq_refl) as [Hb [[p j] Et]]. cbn [fst] in *. rewrite Hb. cbn [mbind outcome_bind].
  assert (to_run run = run_batch (Some p) ∧ batch_jobno run = j) as [Etr Ejn].
  { unfold run_task in Et. rewrite Hb in Et. destruct (to_run run) as [|[]|]; try done. by injection Et as -> ->. }
  rewrite Etr. set (s0 := with_tagged_workers _ s).
  assert (tagged_workers s0 !! w = Some (run, false, q)) as Ew0.
  { apply list_lookup_insert_eq. by eapply lookup_lt_Some. }
  set (T := tasks s0).
  assert (tasks s ≡ₚ (p, j) :: T) as HT.
  { unfold T, tasks, pool_free_tasks, s0. ss. rewrite (tagged_tasks_insert (tagged_workers s) w _ (run, false, q) [(p, j)] Ew).
    - change (busy_runs (with_tagged_workers _ s)) with (busy_runs s). solve_Permutation.
    - rewrite tagged_task_idle. unfold tagged_task. ss. rewrite Et. cbn. solve_Permutation. }
  assert (length (tagged_workers s0) = length (tagged_workers s)) as Hl0 by apply length_insert.
  destruct (batch_job_ran_ok true w run s0 ltac:(unfold get_run; by rewrite Ew0) ltac:(by eauto) p T)
    as (s1 & added & E1 & He & Hadd & Ho1).
  { rewrite Hl0, Ejn, <-HT. done. }
  rewrite E1. cbn [mbind outcome_bind]. destruct He as (h & bs & bj & rj & tw & x & ev & -> & Hl & Hpf & Hg').
  unfold put_worker in *. change (max_workers (upd _ _ _ _ _ _ _ s0)) with (max_workers s). destruct (max_workers s =? 0) eqn:Em; [lia|].
  eexists. split; [done|]. set (s1 := upd _ _ _ _ _ _ _ _) in *.
  assert (tasks s1 ≡ₚ added ++ T) as HT1 by (unfold T, tasks; rewrite Hpf, <-app_assoc; done). split; [split|].
  - destruct Ha as [[] ?]. by split; [split|].
  - split; [done|]. apply Hg', Forall_insert; [done|]. done.
  - change (tagged_workers s1) with tw. by rewrite Hl, HT1.
  - exists T, added. by rewrite Et.
Qed.

Lemma worker_ran_pool w rt run s :
  inv s → max_workers s ≠ 0 → workers s !! w = Some run → w ∉ idle_workers s →
  ∃ s', worker_ran false w rt s = Ok s' ∧ inv s' ∧ ran_tasks run s s'.
Proof using Hnames Hres.
  intros Hi Hmax Ew Hw. destruct (is_batch_job run) eqn:Hb; [by eapply pool_job_ran_ok|by eapply command_ran_ok].
Qed.

(** A batch's jobs are queued. *)
Lemma queue_jobs_ok p i ts s :
  Forall (λ t, t <= Z.of_nat (length (tagged_workers s))) ts →
  ∃ bj tw, queue_jobs p i ts s = Ok (upd (heap s) (batches s) bj (reply_jobs s) tw (workers s) (events s) s) ∧
    length tw = length (tagged_workers s) ∧
    bj ++ (tw ≫= tagged_task) ≡ₚ job_tasks p i (length ts) ++ batch_jobs s ++ (tagged_workers s ≫= tagged_task) ∧
    (Forall tagged_ok (tagged_workers s) → Forall tagged_ok tw).
Proof.
  revert i s. induction ts as [|t ts IH]; intros i s Hf; cbn [queue_jobs].
  { exists (batch_jobs s), (tagged_workers s). split_and!; [by destruct s|done..]. }
  apply Forall_cons in Hf as [Ht Hf].
  assert (∃ bj tw, (if 0 <? t then push_tagged t (p, Z.of_nat i) s else Ok (push_job false (p, Z.of_nat i) s))
    = Ok (with_tagged_workers tw (with_batch_jobs bj s)) ∧ length tw = length (tagged_workers s) ∧
      bj ++ (tw ≫= tagged_task) ≡ₚ (p, Z.of_nat i) :: batch_jobs s ++ (tagged_workers s ≫= tagged_task) ∧
      (Forall tagged_ok (tagged_workers s) → Forall tagged_ok tw)) as (bj & tw & E & Hl & Hp & Hg).
  { destruct (0 <? t) eqn:E0.
    - destruct (push_tagged_ok t (p, Z.of_nat i) s) as (tw & -> & Hl & Hp & Hg); [lia|].
      exists (batch_jobs s), tw. split_and!; [by destruct s|done|rewrite Hp; solve_Permutation|done].
    - exists (batch_jobs s ++ [(p, Z.of_nat i)]), (tagged_workers s). split_and!; [by destruct s|done|solve_Permutation|done]. }
  rewrite E. cbn [mbind outcome_bind].
  destruct (IH (S i) (with_tagged_workers tw (with_batch_jobs bj s))) as (bj' & tw' & E' & Hl' & Hp' & Hg'); [by ss; rewrite Hl|].
  ss. exists bj', tw'. split_and!; [done|congruence| |by auto].
  rewrite Hp', Hp. unfold job_tasks. cbn [length seq]. rewrite fmap_cons. solve_Permutation.
Qed.

Lemma threads_ok_app (b : Batch) n :
  Forall (λ t, t <= Z.of_nat n) (threads b) →
  Forall (λ t, t <= Z.of_nat n) (if (batch_size b).2 then threads b else replicate (batch_size b).1 0).
Proof. intros H. destruct (batch_size b).2; [done|]. apply Forall_replicate. lia. Qed.

(** The proxy takes over a batch. *)
Lemma proxy_batch_ok p b s :
  inv s → p ∉ dom (heap s) → fresh_batch (length (tagged_workers s)) b →
  Forall (λ t, t <= Z.of_nat (length (tagged_workers s))) (threads b) →
  ∃ s', proxy_batch p (alloc_batch p b s) = Ok s' ∧ inv s' ∧ tasks s' ≡ₚ job_tasks p 0 (length (jobs b)) ++ tasks s.
Proof.
  intros [Ha Hr Ho] Hp Hfr Hth. unfold proxy_batch. set (s0 := alloc_batch p b s).
  assert (heap s0 !! p = Some b) as -> by apply lookup_insert_eq. cbv zeta.
  destruct (queue_jobs_ok p 0 (if (batch_size b).2 then threads b else replicate (batch_size b).1 0)
              (with_batches ({[p]} ∪ batches s0) s0)) as (bj & tw & E & Hl & Hq & Hg).
  { by apply threads_ok_app. }
  assert (length (if (batch_size b).2 then threads b else replicate (batch_size b).1 0) = length (jobs b)) as Hlen.
  { destruct (batch_size b).2; [apply length_fmap|apply length_replicate]. }
  rewrite Hlen in Hq. destruct (batch_size b) as [n tagged]. ss.
  replace (if tagged then queue_jobs _ _ _ _ else _) with
    (queue_jobs p 0 (if tagged then threads b else replicate n 0) (with_batches ({[p]} ∪ batches s0) s0)) by by destruct tagged.
  rewrite E. cbn [mbind outcome_bind]. eexists. split; [reflexivity|]. set (s' := with_proxy_skip_one_poll _ _).
  assert (tasks s' ≡ₚ job_tasks p 0 (length (jobs b)) ++ tasks s) as Htk.
  { unfold tasks, pool_free_tasks. change (busy_runs s') with (busy_runs s). subst s'. unfold upd. ss.
    change (reply_jobs s0) with (reply_jobs s). change (batch_jobs s0) with (batch_jobs s) in Hq.
    change (tagged_workers s0) with (tagged_workers s) in Hq.
    assert (bj ++ reply_jobs s ++ (tw ≫= tagged_task) ≡ₚ reply_jobs s ++ (bj ++ (tw ≫= tagged_task))) as -> by solve_Permutation.
    rewrite Hq. solve_Permutation. }
  split; [split|done].
  - destruct Ha as [[] ?]. by split; [split|].
  - destruct Hr as [Hr Hg0]. split; [done|]. by apply Hg.
  - change (tagged_workers s') with tw. rewrite Hl, Htk. by apply owned_new.
Qed.

(** A reply job: a batch of its own. *)
Lemma schedule_reply_ok p f s : inv s → p ∉ dom (heap s) → inv (proxy_schedule_reply_job p f s).
Proof.
  intros [Ha Hr Ho] Hp. unfold proxy_schedule_reply_job, alloc_batch. ss. split.
  - destruct Ha as [[] ?]. by split; [split|].
  - done.
  - ss. pose proof (owned_new _ _ _ _ p (add_job_thread f 0 new_batch) Ho Hp) as Hn. cbn [jobs add_job_thread new_batch app length] in Hn.
    specialize (Hn ltac:(split_and!; cbn; try done; lia)). revert Hn. apply owned_proper.
    unfold tasks, pool_free_tasks, job_tasks. ss. cbn [seq fmap list_fmap]. change (busy_runs (mkSched _ _ _ _ _ _ _ _ _ _ _ _ _ _ _ _ _ _)) with (busy_runs s).
    solve_Permutation.
Qed.

Lemma inject_ok n command_ remote_ cb s :
  inv s → n ∈ names → ∃ s', proxy_inject_task n command_ remote_ cb s = Ok s' ∧ inv s'.
Proof using Hnames Hres.
  intros Hi Hn. pose proof (inv_acct _ Hi) as Ha. unfold proxy_inject_task.
  destruct (proj2 (a_cats _ _ (proj1 Ha) n) Hn) as [c Ec]. rewrite Ec. destruct (no_slot c s) eqn:En.
  - edestruct (queue_command_ok (mkPending n command_ [] (pending_fn cb) (conn_of_id 0) default_access remote_) c s)
      as (s' & E & Ha' & Hm); [done|done|]. exists s'. split; [done|]. by eapply inv_moved.
  - destruct (no_slot_false n c s Ha Ec En) as [_ Hs].
    destruct (start_command_ok n (load_injected n command_ remote_ cb) s) as (s' & E & Ha' & Hm & _); [done..|].
    exists s'. split; [done|]. by eapply inv_moved.
Qed.

(** An incoming message the proxy loop passes on: it names a connection, has a
    command part, and its user id is the one the ZAP handler set. *)
Definition message_ok (index : nat) (m : incoming) (cs : conns) : Prop :=
  ∃ sock, connections cs !! index = Some sock ∧ is_Some (conn_index_to_id cs !! index) ∧
    (sock_type sock = dealer → is_Some (in_parts m !! 0%nat)) ∧
    (sock_type sock = router → is_Some (in_parts m !! 1%nat) ∧ ∃ x, extract_metadata (in_user_id m) (in_auth m) = Ok x).

Lemma incoming_lookup_ok index m rt cs :
  (∃ x, extract_metadata (in_user_id m) (in_auth m) = Ok x) →
  ∃ p rt' cs', incoming_lookup index m rt cs = Ok (p, rt', cs') ∧ conn_index_to_id cs' = conn_index_to_id cs.
Proof.
  intros [[k l] E]. unfold incoming_lookup, incoming_peer. rewrite E. cbn [mbind outcome_bind].
  set (tmp := mkPeer _ _ _ _ _ _ _). destruct (service_node tmp) eqn:Es; [|by eauto].
  cbn in Es. apply andb_true_iff in Es as [Hlen%bool_decide_eq_true _].
  unfold conn_of_pubkey. cbn [peer_pubkey tmp]. rewrite Hlen. cbn [Nat.eqb negb mbind outcome_bind].
  repeat case_match; by eauto.
Qed.

Lemma locate_peer_ok index m cs sock :
  connections cs !! index = Some sock → message_ok index m cs →
  ∃ o, locate_peer (match sock_type sock with dealer => true | router => false end) index m cs = Ok o ∧
    ∀ p rt cs', o = Some (p, rt, cs') → conn_index_to_id cs' = conn_index_to_id cs.
Proof.
  intros Esock (sock' & Es & [c Ec] & Hd & Hr). rewrite Esock in Es. injection Es as <-. unfold locate_peer.
  destruct (sock_type sock) eqn:Et.
  - destruct (Hr eq_refl) as [[x Hx] Hm]. destruct (in_parts m) as [|rt parts]; [done|].
    destruct (incoming_lookup_ok index m rt cs Hm) as (p & rt' & cs' & -> & Hcs). cbn [mbind outcome_bind].
    eexists. split; [done|]. by intros ??? [= <- <- <-].
  - rewrite Ec. repeat case_match; eexists; (split; [done|]); naive_solver.
Qed.

Lemma message_conn_ok index p rt cs :
  is_Some (conn_index_to_id cs !! index) → ∃ c, message_conn index p rt cs = Ok c.
Proof. intros [c Ec]. unfold message_conn. rewrite Ec. destruct (service_node p); by eauto. Qed.

(** A command is dispatched, queued, dropped or refused, never lost track of. *)
Lemma to_worker_ok lsn aliases index m cs s :
  inv s → message_ok index m cs →
  ∃ cs' s' e, proxy_to_worker lsn aliases index m cs s = Ok (cs', s', e) ∧ inv s'.
Proof using Hnames Hres.
  intros Hi Hm. pose proof Hm as (sock & Esock & Hid & Hd & Hr). pose proof (inv_acct _ Hi) as Ha.
  unfold proxy_to_worker. rewrite Esock. cbv zeta.
  destruct (locate_peer_ok index m cs sock Esock Hm) as (o & -> & Hcs). cbn [mbind outcome_bind].
  destruct o as [[[peer rt] cs1]|]; [|by eauto]. specialize (Hcs _ _ _ eq_refl). rewrite <-Hcs in Hid.
  set (out := match sock_type sock with dealer => true | router => false end).
  assert (is_Some (in_parts m !! (if out then 0%nat else 1%nat))) as [cmd Ecmd].
  { subst out. destruct (sock_type sock); [by apply Hr|by apply Hd]. }
  rewrite Ecmd. destruct (get_command _ cmd) as [found command_] eqn:Eg. set (data := drop _ _).
  destruct found as [[cn cm]|]; [|by eauto].
  assert (∃ c x, cats s !! cn = Some c ∧ commands c !! cm = Some x) as (c & [cb rq] & Ec & Ex).
  { unfold get_command in Eg. destruct (_ <? _)%nat; [done|]. cbv zeta in Eg. injection Eg as Hl _.
    by apply lookup_command_sound in Hl as [_ Hx]. }
  destruct (proxy_check_auth _ _ _ _ _ _) as [parts|]; [by eauto|]. rewrite Ec, Ex.
  destruct (message_conn_ok index peer rt cs1 Hid) as [conn_ ->]. cbn [mbind outcome_bind].
  destruct (no_slot c s) eqn:En.
  - edestruct (queue_command_ok (mkPending cn command_ data (pending_cmd cb rq) conn_
       (mkAccess (auth_level peer) (service_node peer) lsn) (in_address m)) c s) as (s' & -> & Ha' & Hmv); [done|done|].
    cbn [mbind outcome_bind]. eexists _, _, _. split; [done|]. by eapply inv_moved.
  - destruct (rq && _); [by eauto|]. destruct (no_slot_false cn c s Ha Ec En) as [Hn Hs].
    edestruct (start_command_ok cn (load_command cn command_ conn_ (mkAccess (auth_level peer) (service_node peer) lsn)
       (in_address m) data cb rq) s) as (s' & -> & Ha' & Hmv & _); [done..|].
    cbn [mbind outcome_bind]. eexists _, _, _. split; [done|]. by eapply inv_moved.
Qed.
End accounting.
