(* ===== verification/Frame.v ===== *)
(** What the proxy's handlers tell the workers: every worker that becomes busy is
    started exactly once, by a new thread or by [RUN], and nothing else is started. *)
From S2P Require Import Prelude BtValue BtSerialize BtCodec Commands Connections Auth Batch Admission Scheduler BatchOwner SchedulerInv.
Open Scope Z_scope.

Lemma decide_ext_Z (P Q : Prop) `{Decision P} `{Decision Q} :
  (P ↔ Q) → (if decide P then 1 else 0) = (if decide Q then 1 else 0).
Proof. intros. by apply decide_ext. Qed.

(** ** Workers by name *)

(** The routing id of a worker: tagged workers are numbered from one. *)
Definition routing_id (tagged : bool) (w : nat) : bytes :=
  if tagged then "t"%byte :: print_nat (Z.of_nat (S w)) else "w"%byte :: print_nat (Z.of_nat w).

Lemma routing_id_inj t w t' w' : routing_id t w = routing_id t' w' → (t, w) = (t', w').
Proof.
  unfold routing_id. destruct t, t'; intros E; try discriminate E; injection E as E; apply print_nat_inj in E; try lia;
    f_equal; lia.
Qed.

(** 1 for a worker that was given something and has not reported back, else 0. *)
Definition busy_in (s : sched) (i : bool * nat) : Z :=
  if i.1 then match tagged_workers s !! i.2 with Some (_, true, _) => 1 | _ => 0 end
  else if decide ((i.2 < length (workers s))%nat ∧ i.2 ∉ idle_workers s) then 1 else 0.

(** 1 for an event that starts the worker, else 0. *)
Definition starts (i : bool * nat) (e : event) : Z :=
  match e with
  | ev_spawn v => if decide (i = (false, v)) then 1 else 0
  | ev_run r => if decide (r = routing_id i.1 i.2) then 1 else 0
  | _ => 0
  end.
Definition started (i : bool * nat) (k : list event) : Z := sumZ (starts i) k.

Lemma started_app i k k' : started i (k ++ k') = started i k + started i k'.
Proof. unfold started, sumZ. induction k as [|e k IH]; cbn; lia. Qed.

Lemma busy_in_range s i : 0 <= busy_in s i <= 1.
Proof. unfold busy_in. destruct i.1; [repeat case_match; lia|case_decide; lia]. Qed.

Lemma started_nonneg i k : 0 <= started i k.
Proof.
  unfold started, sumZ. induction k as [|e k IH]; cbn [foldr]; [lia|]. assert (0 <= starts i e); [|lia].
  destruct e; cbn; repeat case_decide; lia.
Qed.

(** Elements know their place, have a thread, and the idle list is one of them. *)
Record ids_ok (s : sched) : Prop := {
  ids_pool w r : workers s !! w = Some r →
    worker_id r = w ∧ worker_routing_id r = routing_id false w ∧ worker_thread r = true;
  ids_tagged w r b q : tagged_workers s !! w = Some (r, b, q) →
    worker_id r = S w ∧ worker_routing_id r = routing_id true w ∧ worker_thread r = true;
  ids_idle : NoDup (idle_workers s) ∧ ∀ w, w ∈ idle_workers s → (w < length (workers s))%nat
}.

(** What a worker is given to run is complete: a batch, an injected function, or a
    command, which has its reply tag when it is a request; so are the commands that
    wait. *)
Definition load_ok (x : run_info) : Prop :=
  match is_batch_job x, is_injected x, to_run x with
  | true, _, run_batch (Some _) | false, true, run_injected _ => True
  | false, false, run_command _ is_request => is_request = true → data_parts x ≠ []
  | _, _, _ => False
  end.
Definition pend_ok (p : pending_command) : Prop :=
  match pc_callback p with pending_cmd _ is_request => is_request = true → pc_data_parts p ≠ [] | pending_fn _ => True end.

Record loads_ok (s : sched) : Prop := {
  ld_run t w r : busy_in s (t, w) = 1 → get_run t w s = Some r → load_ok r;
  ld_pending p : p ∈ pending_commands s → pend_ok p
}.

(** Events of a handler that finishes nothing. *)
Definition quiet (e : event) : Prop :=
  match e with ev_spawn _ | ev_run _ => True | _ => False end.

(** A start event is about an element that exists. *)
Definition worker_exists (s : sched) (i : bool * nat) : Prop :=
  (i.2 < if i.1 then length (tagged_workers s) else length (workers s))%nat.
Definition names_worker (s : sched) (e : event) : Prop :=
  match e with
  | ev_spawn w => worker_exists s (false, w)
  | ev_run r => ∃ t w, r = routing_id t w ∧ worker_exists s (t, w)
  | _ => True
  end.

Lemma names_worker_weaken s s' e :
  (length (workers s) <= length (workers s'))%nat → length (tagged_workers s') = length (tagged_workers s) →
  names_worker s e → names_worker s' e.
Proof.
  intros Hw Ht. assert (∀ i, worker_exists s i → worker_exists s' i) as H.
  { intros [[] w]; unfold worker_exists; cbn; lia. }
  destruct e; cbn; try done; [apply H|]. intros (t & w & -> & He). eauto.
Qed.

(** The new events of a handler, newest first. *)
Record acts_with (k : list event) (s s' : sched) : Prop := {
  act_events : events s' = k ++ events s;
  act_quiet : Forall quiet k;
  act_busy i : busy_in s' i = busy_in s i + started i k;
  act_runs i r : busy_in s i = 1 → get_run i.1 i.2 s = Some r → get_run i.1 i.2 s' = Some r;
  act_ids : ids_ok s';
  act_heap : heap s ⊆ heap s';
  act_tagged : length (tagged_workers s') = length (tagged_workers s);
  act_loads : loads_ok s → loads_ok s';
  act_named e : e ∈ k → names_worker s' e;
  act_grow : (length (workers s) <= length (workers s'))%nat ∧
    ∀ w, (length (workers s) <= w < length (workers s'))%nat → ev_spawn w ∈ k
}.
Definition acts (s s' : sched) : Prop := ids_ok s → ∃ k, acts_with k s s'.

#[export] Instance acts_preorder : PreOrder acts.
Proof.
  split.
  - intros s Hi. exists []. split; try done; [intros i; cbn; lia|by intros e He%elem_of_nil|]. split; [done|lia].
  - intros s1 s2 s3 H1 H2 Hi. destruct (H1 Hi) as (k1 & [E1 Q1 B1 R1 I1 P1 T1 L1 N1 [G1 G1']]).
    destruct (H2 I1) as (k2 & [E2 Q2 B2 R2 I2 P2 T2 L2 N2 [G2 G2']]). exists (k2 ++ k1). split; try done.
    + by rewrite E2, E1, app_assoc.
    + by apply Forall_app.
    + intros i. rewrite B2, B1, started_app. lia.
    + intros i r Hb Hr. apply R2; [|by apply R1]. specialize (B1 i). pose proof (started_nonneg i k1). pose proof (busy_in_range s2 i). lia.
    + by etrans.
    + congruence.
    + auto.
    + intros e [He|He]%elem_of_app; [by apply N2|]. by eapply names_worker_weaken, N1.
    + split; [lia|]. intros w Hw. apply elem_of_app.
      destruct (decide (w < length (workers s2))%nat); [right; apply G1'; lia|left; apply G2'; lia].
Qed.

(** Changes of queues and counters. *)
Lemma acts_pending s s' :
  workers s' = workers s → idle_workers s' = idle_workers s → tagged_workers s' = tagged_workers s →
  events s' = events s → heap s ⊆ heap s' → (loads_ok s → ∀ p, p ∈ pending_commands s' → pend_ok p) → acts s s'.
Proof.
  intros E1 E2 E3 E4 E5 E6 Hi. assert (∀ i, busy_in s' i = busy_in s i) as Hb by (intros i; unfold busy_in; by rewrite E1, E2, E3).
  exists []. split; [by rewrite E4|constructor| | | |done|by rewrite E3| |by intros e He%elem_of_nil|rewrite E1; split; [done|lia]].
  - intros i. rewrite Hb. cbn. lia.
  - intros i r _. unfold get_run. by rewrite E1, E3.
  - destruct Hi as [H1 H2 H3]. split; rewrite ?E1, ?E2, ?E3; done.
  - intros Hl. split; [|by apply E6]. intros t w r. rewrite Hb. unfold get_run. rewrite E1, E3. apply (ld_run _ Hl).
Qed.

Lemma acts_same s s' :
  workers s' = workers s → idle_workers s' = idle_workers s → tagged_workers s' = tagged_workers s →
  events s' = events s → heap s ⊆ heap s' → pending_commands s' = pending_commands s → acts s s'.
Proof. intros ? ? ? ? ? E. apply acts_pending; try done. rewrite E. intros []. done. Qed.

(** Loading does not touch an element's identity, and what it loads is complete. *)
Definition loads (load : run_info → run_info) : Prop :=
  ∀ x, worker_id (load x) = worker_id x ∧ worker_routing_id (load x) = worker_routing_id x ∧
       worker_thread (load x) = worker_thread x ∧ load_ok (load x).

Lemma loads_batch j reply t : loads (load_batch j reply t).
Proof. by intros x. Qed.
Lemma loads_command cn cm c a r d cb (q : bool) : (q = true → d ≠ []) → loads (load_command cn cm c a r d cb q).
Proof. by intros H x. Qed.
Lemma loads_injected cn cm r cb : loads (load_injected cn cm r cb).
Proof. by intros x. Qed.
Lemma loads_pending p : pend_ok p → loads (load_pending p).
Proof.
  unfold pend_ok, load_pending. destruct (pc_callback p); intros H x; [by apply loads_command|by apply loads_injected].
Qed.

Create HintDb frame.
#[export] Hint Resolve loads_batch loads_command loads_injected loads_pending : frame.

Lemma load_ok_signal x : load_ok x → load_ok (proxy_run_worker x).1.
Proof. unfold proxy_run_worker. by destruct (worker_thread x). Qed.

Lemma starts_run i t w : starts i (ev_run (routing_id t w)) = if decide (i = (t, w)) then 1 else 0.
Proof.
  destruct i as [t' w']. cbn [starts fst snd].
  assert (routing_id t w = routing_id t' w' ↔ (t', w') = (t, w)) as H.
  { split; [intros E; by apply routing_id_inj in E|by intros [= -> ->]]. }
  by rewrite (decide_ext _ _ _ _ H).
Qed.

(** A pool worker that was idle or is new is loaded. *)
Lemma pool_loaded w x s s' :
  load_ok x → workers s' !! w = Some x → (∀ v, v ≠ w → workers s' !! v = workers s !! v) →
  tagged_workers s' = tagged_workers s → pending_commands s' = pending_commands s →
  (∀ i, i ≠ (false, w) → busy_in s' i = busy_in s i) → loads_ok s → loads_ok s'.
Proof.
  intros Hx Hw Hv Ht Hp Hb Hl. split; [|rewrite Hp; apply (ld_pending _ Hl)].
  intros t v r Hbv Hg. destruct (decide ((t, v) = (false, w))) as [[= -> ->]|Hne].
  - cbn in Hg. rewrite Hw in Hg. by injection Hg as <-.
  - rewrite Hb in Hbv by done. apply (ld_run _ Hl t v r Hbv). rewrite <-Hg. unfold get_run.
    destruct t; [by rewrite Ht|]. symmetry. apply Hv. congruence.
Qed.

(** A new element with a new thread. *)
Lemma spawn_acts x s :
  idle_workers s = [] → load_ok x → worker_id x = length (workers s) → worker_routing_id x = routing_id false (length (workers s)) →
  worker_thread x = true → acts s (log_event (ev_spawn (length (workers s))) (with_workers (workers s ++ [x]) s)).
Proof.
  intros Ei Hx E1 E2 E3. set (w := length (workers s)) in *. set (s' := log_event _ _).
  assert (length (workers s') = S w) as Hlen by (subst s' w; ss; rewrite length_app; cbn; lia).
  assert (∀ i, busy_in s' i = busy_in s i + if decide (i = (false, w)) then 1 else 0) as Hb.
  { intros [[] v]; unfold busy_in, s'; ss; rewrite ?Ei, ?length_app; cbn [length].
    - rewrite (decide_False (P := (true, v) = _)) by done. lia.
    - destruct (decide (v = w)) as [->|Hv].
      + rewrite decide_True by (split; [subst w; lia|set_solver]). rewrite decide_False by (subst w; lia). by rewrite decide_True.
      + rewrite (decide_False (P := (false, v) = _)) by congruence. rewrite Z.add_0_r.
        apply decide_ext_Z. subst w. split; intros [? ?]; (split; [lia|done]). }
  intros [H1 H2 H3]. exists [ev_spawn w]. split; ss; try done; [by constructor| | | | | |].
  - intros i. rewrite Hb. cbn. lia.
  - intros [[] v] r _; unfold get_run, s'; cbn [fst snd]; ss; [done|]. intros Hv. apply lookup_app_Some. by left.
  - split; subst s'; ss; rewrite ?Ei; [|done|split; [constructor|set_solver]].
    intros v r Hv. apply lookup_app_Some in Hv as [Hv|[Hv Hr]]; [by apply H1|].
    apply list_lookup_singleton_Some in Hr as [Hr <-]. by assert (v = w) as -> by (subst w; lia).
  - apply (pool_loaded w x); subst s'; ss; try done; [by rewrite list_lookup_middle| |].
    + intros v Hv. destruct (decide (v < w)%nat); [by rewrite lookup_app_l|].
      rewrite !lookup_ge_None_2; [done|subst w; lia|rewrite length_app; cbn; subst w; lia].
    + intros i Hi. rewrite Hb, decide_False by done. lia.
  - intros e ->%list_elem_of_singleton. cbn [names_worker]. unfold worker_exists. cbn [fst snd]. rewrite Hlen. lia.
  - rewrite Hlen. split; [subst w; lia|]. intros v Hv. assert (v = w) as -> by (subst w; lia). by left.
Qed.

(** An idle element whose thread is told to run. *)
Lemma rerun_acts w rest y x s :
  idle_workers s = w :: rest → workers s !! w = Some y → load_ok x →
  worker_id x = w → worker_routing_id x = routing_id false w → worker_thread x = true →
  acts s (log_event (ev_run (routing_id false w)) (with_workers (<[w := x]> (workers s)) (with_idle_workers rest s))).
Proof.
  intros Ei Ew Hx E1 E2 E3 [H1 H2 H3]. rewrite Ei in H3. destruct H3 as [[Hw Hnd]%NoDup_cons Hr]. set (s' := log_event _ _).
  assert (length (workers s') = length (workers s)) as Hlen by (subst s'; ss; apply length_insert).
  assert (∀ i, busy_in s' i = busy_in s i + if decide (i = (false, w)) then 1 else 0) as Hb.
  { intros [[] v]; unfold busy_in, s'; ss; rewrite ?Ei, ?length_insert.
    - rewrite (decide_False (P := (true, v) = _)) by done. lia.
    - pose proof (Hr w ltac:(by left)). destruct (decide (v = w)) as [->|Hv].
      + rewrite decide_True by done. rewrite decide_False by (intros [_ Hn]; apply Hn; by left). by rewrite decide_True.
      + rewrite (decide_False (P := (false, v) = _)) by congruence. rewrite Z.add_0_r.
        apply decide_ext_Z. rewrite elem_of_cons. naive_solver. }
  exists [ev_run (routing_id false w)]. split; ss; try done; [by constructor| | | | | |].
  - intros i. rewrite Hb. cbn [started sumZ foldr]. rewrite starts_run. lia.
  - intros [[] v] r Hbv; unfold get_run, s'; cbn [fst snd]; ss; [done|]. rewrite list_lookup_insert_ne; [done|]. intros ->.
    revert Hbv. unfold busy_in. cbn [fst snd]. rewrite Ei, decide_False; [done|]. intros [_ Hn]. apply Hn. by left.
  - split; subst s'; ss; [|done|split; [done|]; intros v Hv; rewrite length_insert; apply Hr; by right].
    intros v r Hv. destruct (decide (v = w)) as [->|Hvw].
    + rewrite list_lookup_insert_eq in Hv by (by eapply lookup_lt_Some). by injection Hv as <-.
    + rewrite list_lookup_insert_ne in Hv by done. by apply H1.
  - apply (pool_loaded w x); subst s'; ss; try done.
    + apply list_lookup_insert_eq. by eapply lookup_lt_Some.
    + intros v Hv. by apply list_lookup_insert_ne.
    + intros i Hi. rewrite Hb, decide_False by done. lia.
  - intros e ->%list_elem_of_singleton. exists false, w. split; [done|]. unfold worker_exists. cbn [fst snd]. rewrite Hlen.
    by eapply lookup_lt_Some.
  - rewrite Hlen. split; [done|lia].
Qed.

Lemma run_on_idle_acts load s s' : loads load → run_on_idle load s = Ok s' → acts s s'.
Proof.
  intros Hk E Hi. revert E. unfold run_on_idle, get_idle_worker. destruct (idle_workers s) as [|w rest] eqn:Ei.
  - destruct (_ <? _)%nat; [|done]. cbn [mbind outcome_bind]. ss. rewrite list_lookup_middle by done.
    set (w := length (workers s)). destruct (Hk (fresh_worker w)) as (E1 & E2 & E3 & E4).
    pose proof (load_ok_signal _ E4) as E5. revert E5. unfold proxy_run_worker. rewrite E3, E1.
    cbn [worker_thread fresh_worker worker_id fst]. set (x := set_joinable true _). intros E5 [= <-].
    rewrite insert_app_r_alt, Nat.sub_diag by done. by apply (spawn_acts x s Ei E5).
  - cbn [mbind outcome_bind]. ss. destruct (workers s !! w) as [y|] eqn:Ew; [|done].
    destruct (Hk y) as (E1 & E2 & E3 & E4), (ids_pool _ Hi _ _ Ew) as (I1 & I2 & I3). unfold proxy_run_worker. rewrite E3, I3, E2, I2.
    intros [= <-]. apply (rerun_acts w rest y (load y) s Ei Ew E4); by rewrite ?E1, ?E2, ?E3.
Qed.

(** ** The handlers *)

(** Changes that concern neither workers nor batches. *)
Ltac acts_same := apply acts_same; reflexivity.

Lemma update_cat_acts n f s s' : update_cat n f s = Ok s' → acts s s'.
Proof. unfold update_cat. destruct (cats s !! n); [|done]. intros [= <-]. acts_same. Qed.

Lemma start_command_acts n load s s' : loads load → start_command n load s = Ok s' → acts s s'.
Proof.
  intros Hk E. unfold start_command in E. inv_bind. etrans; [by eapply run_on_idle_acts|by eapply update_cat_acts].
Qed.

Lemma queue_command_acts p c s s' : pend_ok p → queue_command p c s = Ok s' → acts s s'.
Proof.
  intros Hp. unfold queue_command. destruct (_ && _); [by intros [= <-]|]. intros E.
  etrans; [|by eapply update_cat_acts]. apply acts_pending; try done. ss. intros Hl q [Hq|Hq]%elem_of_app; [by apply (ld_pending _ Hl)|].
  apply list_elem_of_singleton in Hq. by subst.
Qed.

Lemma run_batch_jobs_acts fuel reply s s' : run_batch_jobs fuel reply s = Ok s' → acts s s'.
Proof.
  revert s. induction fuel as [|fuel IH]; intros s; cbn [run_batch_jobs]; [done|].
  destruct (jobs_queue reply s) as [|j q]; [by intros [= <-]|]. destruct (batch_slot reply s); [|by intros [= <-]].
  intros E. inv_bind. etrans; [eapply run_on_idle_acts; [|done]; auto with frame|].
  etrans; [|by eapply IH]. destruct reply; acts_same.
Qed.

Lemma run_pending_acts kept rest s s' :
  (∀ p, p ∈ kept ++ rest → pend_ok p) → run_pending kept rest s = Ok s' → acts s s'.
Proof.
  revert kept s. induction rest as [|p rest IH]; intros kept s Hp; cbn [run_pending].
  { intros [= <-]. apply acts_pending; try done. ss. rewrite app_nil_r in Hp. done. }
  destruct (_ <? _); [|intros [= <-]; by apply acts_pending]. destruct (cats s !! pc_cat p) as [c|]; [|done].
  destruct (_ || _); [|apply IH; by rewrite <-app_assoc]. intros E. inv_bind.
  assert (pend_ok p) by (apply Hp, elem_of_app; right; by left). destruct (_ <? 0); [done|]. inv_bind.
  etrans; [eapply run_on_idle_acts; [|done]; auto with frame|]. etrans; [by eapply update_cat_acts|eapply IH; [|done]].
  intros q Hq. apply Hp. set_solver.
Qed.

(** An entry is replaced by one of the same worker. *)
Definition same_worker (x r : run_info) : Prop :=
  worker_id x = worker_id r ∧ worker_routing_id x = worker_routing_id r ∧ worker_thread x = worker_thread r.

Lemma tagged_replaced i r (b : bool) q r' (b' : bool) q' s s' :
  tagged_workers s !! i = Some (r, b, q) → same_worker r' r →
  tagged_workers s' = <[i := (r', b', q')]> (tagged_workers s) → workers s' = workers s → idle_workers s' = idle_workers s →
  ids_ok s →
  ids_ok s' ∧ ∀ v, busy_in s' v = busy_in s v + if decide (v = (true, i)) then (if b' then 1 else 0) - (if b then 1 else 0) else 0.
Proof.
  intros Ei (E1 & E2 & E3) Et Ew Eid [H1 H2 H3]. split.
  - split; rewrite ?Ew, ?Eid; try done. rewrite Et. intros w r0 b0 q0 Hw. destruct (decide (w = i)) as [->|Hv].
    + rewrite list_lookup_insert_eq in Hw by (by eapply lookup_lt_Some). injection Hw as <- <- <-.
      rewrite E1, E2, E3. by eapply H2.
    + rewrite list_lookup_insert_ne in Hw by done. by eapply H2.
  - intros [[] v]; unfold busy_in; cbn [fst snd]; rewrite ?Et, ?Ew, ?Eid;
      [|rewrite (decide_False (P := (false, v) = _)) by done; lia].
    destruct (decide (v = i)) as [->|Hv].
    + rewrite list_lookup_insert_eq by (by eapply lookup_lt_Some). rewrite Ei, decide_True by done. destruct b, b'; lia.
    + rewrite list_lookup_insert_ne, decide_False by congruence. lia.
Qed.

Lemma pool_replaced w r x s s' :
  workers s !! w = Some r → same_worker x r →
  workers s' = <[w := x]> (workers s) → tagged_workers s' = tagged_workers s → idle_workers s' = idle_workers s →
  ids_ok s → ids_ok s' ∧ ∀ v, busy_in s' v = busy_in s v.
Proof.
  intros Er (E1 & E2 & E3) Ew Et Eid [H1 H2 H3]. split.
  - split; rewrite ?Et, ?Eid, ?Ew, ?length_insert; try done. intros v r0 Hv. destruct (decide (v = w)) as [->|Hvw].
    + rewrite list_lookup_insert_eq in Hv by (by eapply lookup_lt_Some). injection Hv as <-. rewrite E1, E2, E3. by eapply H1.
    + rewrite list_lookup_insert_ne in Hv by done. by apply H1.
  - intros v. unfold busy_in. by rewrite Et, Eid, Ew, length_insert.
Qed.

Lemma acts_tagged i r (b : bool) q r' (b' : bool) q' k s :
  tagged_workers s !! i = Some (r, b, q) → (b' = true → load_ok r' ∨ b = true ∧ r' = r) → (b = true → r' = r) →
  (ids_ok s → same_worker r' r ∧ Forall quiet k ∧ (∀ e, e ∈ k → e = ev_run (routing_id true i)) ∧
    ∀ v, started v k = if decide (v = (true, i)) then (if b' then 1 else 0) - (if b then 1 else 0) else 0) →
  acts s (with_events (k ++ events s) (with_tagged_workers (<[i := (r', b', q')]> (tagged_workers s)) s)).
Proof.
  intros Ei Hld Hsame H Hi. destruct (H Hi) as (Hr & Hk & Hn & Hs). set (s' := with_events _ _).
  destruct (tagged_replaced i r b q r' b' q' s s' Ei Hr) as [Hi' Hb]; [done..|].
  assert (tagged_workers s' !! i = Some (r', b', q')) as Ei'.
  { apply list_lookup_insert_eq. by eapply lookup_lt_Some. }
  exists k. split; try done; [| |apply length_insert| | |].
  - intros v. by rewrite Hs.
  - intros [[] v] x Hbv; unfold get_run; cbn [fst snd]; [|done]. destruct (decide (v = i)) as [->|Hv].
    + rewrite Ei, Ei'. unfold busy_in in Hbv. cbn [fst snd] in Hbv. rewrite Ei in Hbv. destruct b; [|done]. cbn. by rewrite Hsame.
    + unfold s'. ss. by rewrite list_lookup_insert_ne.
  - intros Hl. split; [|apply (ld_pending _ Hl)]. intros t w x Hw Hg. destruct (decide ((t, w) = (true, i))) as [[= -> ->]|Hne].
    + unfold busy_in, get_run in *. cbn [fst snd] in *. rewrite Ei' in *. injection Hg as <-. destruct b'; [|done].
      destruct (Hld eq_refl) as [|[-> ->]]; [done|]. apply (ld_run _ Hl true i); unfold busy_in, get_run; cbn; by rewrite Ei.
    + rewrite Hb, decide_False, Z.add_0_r in Hw by done. apply (ld_run _ Hl t w x Hw). rewrite <-Hg. unfold get_run.
      destruct t; [|done]. f_equal. symmetry. apply list_lookup_insert_ne. congruence.
  - intros e ->%Hn. exists true, i. split; [done|]. unfold worker_exists. cbn. by eapply lookup_lt_Some.
  - split; [done|]. change (workers s') with (workers s). lia.
Qed.

Lemma run_tagged_acts n i s : acts s (run_tagged n i s).
Proof.
  revert i s. induction n as [|n IH]; intros i s; cbn [run_tagged]; [done|]. cbv zeta.
  etrans; [|apply IH]. destruct (tagged_workers s !! i) as [[[r []] [|j q]]|] eqn:Ei; try done.
  destruct (proxy_run_worker _) as [r' e] eqn:Er.
  apply (acts_tagged i r false (j :: q) r' true q [e]); [done| |done|].
  { intros _. left. pose proof (load_ok_signal (load_batch j false (Z.of_nat (worker_id r)) r) I) as Hl. by rewrite Er in Hl. }
  intros Hi.
  destruct (ids_tagged _ Hi _ _ _ _ Ei) as (I1 & I2 & I3). unfold proxy_run_worker in Er. cbn in Er. rewrite I3 in Er.
  injection Er as <- <-. split_and!; [done|by constructor|by intros e ->%list_elem_of_singleton; rewrite I2|]. intros v. rewrite I2. cbn [started sumZ foldr]. rewrite starts_run.
  by destruct (decide _).
Qed.

Lemma process_queue_acts s s' : loads_ok s → proxy_process_queue s = Ok s' → acts s s'.
Proof.
  unfold proxy_process_queue. intros Hl. destruct (_ =? 0); [by intros [= <-]|]. cbv zeta. intros E. inv_bind.
  assert (acts s a0) as Ha by (etrans; [apply run_tagged_acts|]; etrans; by eapply run_batch_jobs_acts).
  intros Hi. destruct (Ha Hi) as [k Hk]. revert Hi. change (acts s s'). etrans; [exact Ha|].
  eapply run_pending_acts; [|exact E]. intros p Hp. by apply (ld_pending _ (act_loads _ _ _ Hk Hl)).
Qed.

Lemma push_tagged_acts t j s s' : push_tagged t j s = Ok s' → acts s s'.
Proof.
  unfold push_tagged. destruct (tagged_workers s !! _) as [[[r b] q]|] eqn:Ei; [|done]. intros [= <-].
  apply (acts_tagged _ r b q r b (q ++ [j]) []) in Ei; [by destruct s|by intros ->; right|done|]. intros _. split_and!; try done; [by intros e He%elem_of_nil|].
  intros v. destruct (decide _), b; cbn; lia.
Qed.

Lemma queue_jobs_acts p i ts s s' : queue_jobs p i ts s = Ok s' → acts s s'.
Proof.
  revert i s. induction ts as [|t ts IH]; intros i s; cbn [queue_jobs]; [by intros [= <-]|]. intros E. inv_bind.
  etrans; [|by eapply IH]. destruct (0 <? t); [by eapply push_tagged_acts|]. injection E0 as <-. acts_same.
Qed.

Lemma alloc_acts p b s : p ∉ dom (heap s) → acts s (alloc_batch p b s).
Proof. intros Hp. apply acts_same; try done. cbn. apply insert_subseteq. by apply not_elem_of_dom. Qed.

Lemma proxy_batch_acts p s s' : proxy_batch p s = Ok s' → acts s s'.
Proof.
  unfold proxy_batch. destruct (heap s !! p) as [b|]; [|done]. cbv zeta. destruct (batch_size b) as [n tagged]. intros E.
  inv_bind. injection E as <-. transitivity a; [|acts_same]. transitivity (with_batches ({[p]} ∪ batches s) s); [acts_same|].
  destruct tagged; by eapply queue_jobs_acts.
Qed.

Lemma schedule_reply_acts p f s : p ∉ dom (heap s) → acts s (proxy_schedule_reply_job p f s).
Proof. intros Hp. transitivity (alloc_batch p (add_job_thread f 0 new_batch) s); [by apply alloc_acts|acts_same]. Qed.

(** ** A worker reports back *)

(** The batch side of [RAN]: what becomes of the heap and the events, newest first. *)
Definition ran_fate (j : batch_job) (h : gmap ptr Batch) : option (gmap ptr Batch * list event) :=
  let p := j.1 in
  if j.2 =? -1 then Some (delete p h, [ev_delete p])
  else
    b ← h !! p;
    let (st, b) := job_finished b in
    match bs_state st with
    | complete_ => if bs_thread st =? -1 then Some (delete p h, [ev_delete p; ev_completion p]) else Some (<[p := b]> h, [])
    | done_ => Some (delete p h, [ev_delete p])
    | Batch.running => Some (<[p := b]> h, [])
    end.

(** Nothing changes about who is busy, what the workers other than [i0] run, and what
    commands wait. *)
Definition same_runs (i0 : bool * nat) (s s' : sched) : Prop :=
  (∀ t w, (t, w) ≠ i0 → get_run t w s' = get_run t w s) ∧ pending_commands s' = pending_commands s.
Definition steady (i0 : bool * nat) (s s' : sched) : Prop :=
  same_runs i0 s s' ∧
  (ids_ok s → ids_ok s' ∧ (∀ i, busy_in s' i = busy_in s i) ∧ max_workers s' = max_workers s ∧
    length (tagged_workers s') = length (tagged_workers s)).

#[export] Instance same_runs_preorder i0 : PreOrder (same_runs i0).
Proof.
  split; [by split|]. intros s1 s2 s3 [H1 P1] [H2 P2]. split; [|congruence]. intros t w Hw. by rewrite H2, H1.
Qed.

#[export] Instance steady_preorder i0 : PreOrder (steady i0).
Proof.
  split; [by split|]. intros s1 s2 s3 [R1 H1] [R2 H2]. split; [by etrans|]. intros Hi.
  destruct (H1 Hi) as (I1 & B1 & M1 & T1), (H2 I1) as (I2 & B2 & M2 & T2).
  split_and!; [done| |congruence..]. intros i. by rewrite B2.
Qed.

Lemma steady_same i0 s s' :
  workers s' = workers s → idle_workers s' = idle_workers s → tagged_workers s' = tagged_workers s →
  max_workers s' = max_workers s → pending_commands s' = pending_commands s → steady i0 s s'.
Proof.
  intros E1 E2 E3 E4 E5. split; [split; [|done]; intros t w _; unfold get_run; by rewrite E1, E3|]. intros [H1 H2 H3]. split_and!; [split; rewrite ?E1, ?E2, ?E3; done| |done|by rewrite E3].
  intros i. unfold busy_in. by rewrite E1, E2, E3.
Qed.

Lemma steady_set_run tagged w r x s :
  get_run tagged w s = Some r → same_worker x r → steady (tagged, w) s (set_run tagged w x s).
Proof.
  intros Hg Hx. split.
  { split.
    - intros t v Hv. unfold get_run, set_run in *. destruct tagged, t.
      + destruct (tagged_workers s !! w) as [[[r' b] q]|]; [|done]. ss. by rewrite list_lookup_insert_ne by congruence.
      + by destruct (tagged_workers s !! w) as [[[r' b] q]|].
      + done.
      + ss. apply list_lookup_insert_ne. congruence.
    - unfold set_run. destruct tagged; [|done]. by destruct (tagged_workers s !! w) as [[[r' b] q]|]. }
  intros Hi. unfold get_run, set_run in *. destruct tagged.
  - destruct (tagged_workers s !! w) as [[[r' b] q]|] eqn:Ew; [|done]. injection Hg as ->.
    destruct (tagged_replaced w r b q x b q s (with_tagged_workers (<[w := (x, b, q)]> (tagged_workers s)) s)) as [Hi' Hb]; [done..|].
    split_and!; [done| |done|apply length_insert]. intros v. rewrite Hb. destruct (decide _), b; lia.
  - destruct (pool_replaced w r x s (with_workers (<[w := x]> (workers s)) s)) as [Hi' Hb]; [done..|]. done.
Qed.

Lemma steady_push_tagged i0 t j s s' :
  push_tagged t j s = Ok s' → steady i0 s s' ∧ heap s' = heap s ∧ events s' = events s.
Proof.
  unfold push_tagged. destruct (tagged_workers s !! _) as [[[r b] q]|] eqn:Ei; [|done]. intros [= <-]. split; [|done]. split.
  { split; [|done]. intros t' v _. unfold get_run. destruct t'; [|done]. ss. destruct (decide (v = Z.to_nat (t - 1))) as [->|Hv].
    - rewrite list_lookup_insert_eq by (by eapply lookup_lt_Some). by rewrite Ei.
    - by rewrite list_lookup_insert_ne. }
  intros Hi. destruct (tagged_replaced _ r b q r b (q ++ [j]) s
    (with_tagged_workers (<[Z.to_nat (t - 1) := (r, b, q ++ [j])]> (tagged_workers s)) s) Ei) as [Hi' Hb]; [done..|].
  split_and!; [done| |done|apply length_insert]. intros v. rewrite Hb. destruct (decide _), b; lia.
Qed.

Lemma clear_job_frame tagged w run p s :
  get_run tagged w s = Some run →
  steady (tagged, w) s (clear_job tagged w run p s) ∧ heap (clear_job tagged w run p s) = delete p (heap s) ∧
  events (clear_job tagged w run p s) = ev_delete p :: events s.
Proof.
  intros Hg. unfold clear_job. set (s1 := log_event _ _). split.
  - transitivity s1; [by apply steady_same|]. by apply (steady_set_run tagged w run).
  - unfold set_run. destruct tagged; [|done]. by destruct (tagged_workers s1 !! w) as [[[]]|].
Qed.

Lemma batch_job_ran_frame tagged w run p s s' :
  get_run tagged w s = Some run → batch_job_ran tagged w run p s = Ok s' →
  steady (tagged, w) s s' ∧ ∃ k, events s' = k ++ events s ∧ ran_fate (p, batch_jobno run) (heap s) = Some (heap s', k).
Proof.
  intros Hg. unfold batch_job_ran, ran_fate. cbn [fst snd]. destruct (batch_jobno run =? -1).
  { intros [= <-]. destruct (clear_job_frame tagged w run p s Hg) as (H1 & -> & ->). split; [done|]. by exists [ev_delete p]. }
  destruct (heap s !! p) as [b|] eqn:Eb; [|done]. cbn [mbind option_bind]. destruct (job_finished b) as [st b'] eqn:Ef. cbv zeta.
  set (s1 := with_heap _ s). assert (steady (tagged, w) s s1) as Hs by by apply steady_same.
  assert (∀ s2, heap s2 = heap s1 → get_run tagged w s2 = Some run → ∀ k, events s2 = k ++ events s → steady (tagged, w) s1 s2 →
    steady (tagged, w) s (clear_job tagged w run p s2) ∧ events (clear_job tagged w run p s2) = (ev_delete p :: k) ++ events s ∧
    heap (clear_job tagged w run p s2) = delete p (heap s)) as Hclear.
  { intros s2 Eh Hg2 k Ek Hs2. destruct (clear_job_frame tagged w run p s2 Hg2) as (H1 & -> & ->).
    split_and!; [by do 2 (etrans; [|eassumption])|by rewrite Ek|]. rewrite Eh. apply delete_insert_eq. }
  destruct (bs_state st).
  - intros [= <-]. split; [done|]. by exists [].
  - destruct (bs_thread st =? -1).
    + intros [= <-]. destruct (Hclear (log_event (ev_completion p) s1) eq_refl Hg [ev_completion p] eq_refl) as (H1 & -> & ->).
      { by apply steady_same. } split; [done|]. by exists [ev_delete p; ev_completion p].
    + destruct (0 <? bs_thread st); intros E.
      * apply (steady_push_tagged (tagged, w)) in E as (H1 & -> & ->). split; [by etrans|]. by exists [].
      * injection E as <-. split; [etrans; [exact Hs|]; by destruct (is_reply_job run); apply steady_same|].
        exists []. by destruct (is_reply_job run).
  - intros [= <-]. destruct (Hclear s1 eq_refl Hg [] eq_refl) as (H1 & -> & ->); [done|]. split; [done|]. by exists [ev_delete p].
Qed.

(** The worker returns to the idle ones. *)
Lemma idle_pushed w s :
  ids_ok s → busy_in s (false, w) = 1 →
  let s' := with_idle_workers (w :: idle_workers s) s in
  ids_ok s' ∧ ∀ i, busy_in s' i = busy_in s i - if decide (i = (false, w)) then 1 else 0.
Proof.
  intros [H1 H2 [H3 H4]] Hb s'. subst s'. unfold busy_in in *. cbn [fst snd] in *. case_decide as Hw; [|done]. destruct Hw as [Hw Hn]. split.
  - split; ss; try done. split; [by constructor|]. intros v [->|Hv]%elem_of_cons; [done|by apply H4].
  - intros [[] v]; ss; [rewrite decide_False by done; lia|]. destruct (decide (v = w)) as [->|Hv].
    + rewrite decide_False by (intros [_ Hx]; apply Hx; by left). rewrite decide_True by done. by rewrite decide_True.
    + rewrite (decide_False (P := (false, v) = _)) by congruence. rewrite Z.sub_0_r. apply decide_ext_Z.
      rewrite elem_of_cons. naive_solver.
Qed.

(** [RAN] makes its worker idle, starts nobody, and finishes at most the batch the
    worker was running. *)
Lemma worker_ran_frame tagged w rt s s' :
  ids_ok s → max_workers s ≠ 0 → busy_in s (tagged, w) = 1 → Forall tagged_ok (tagged_workers s) →
  worker_ran tagged w rt s = Ok s' →
  ids_ok s' ∧ (∀ i, busy_in s' i = busy_in s i - if decide (i = (tagged, w)) then 1 else 0) ∧
  length (tagged_workers s') = length (tagged_workers s) ∧ same_runs (tagged, w) s s' ∧
  ∃ run k, get_run tagged w s = Some run ∧ events s' = k ++ events s ∧
    if is_batch_job run
    then ∃ p, to_run run = run_batch (Some p) ∧ ran_fate (p, batch_jobno run) (heap s) = Some (heap s', k)
    else heap s' = heap s ∧ k = [].
Proof.
  intros Hi Hmax Hb Hg E. unfold worker_ran in E. destruct (get_run tagged w s) as [run|] eqn:Er; [|done]. inv_bind. rename a into s1.
  assert (Hm1 : max_workers s1 = max_workers s ∧ length (tagged_workers s1) = length (tagged_workers s) ∧ same_runs (tagged, w) s s1 ∧ (∃ k, events s1 = k ++ events s ∧
      if is_batch_job run
      then ∃ p, to_run run = run_batch (Some p) ∧ ran_fate (p, batch_jobno run) (heap s) = Some (heap s1, k)
      else heap s1 = heap s ∧ k = []) ∧
      ids_ok s1 ∧ ∀ i, busy_in s1 i = busy_in s i - if decide (tagged = true ∧ i = (tagged, w)) then 1 else 0).
  { destruct (is_batch_job run) eqn:Ejob.
    - unfold release_slot in E0. destruct tagged.
      + unfold get_run in Er. destruct (tagged_workers s !! w) as [[[r b] q]|] eqn:Ew; [|done]. injection Er as ->.
        unfold busy_in in Hb. cbn [fst snd] in Hb. rewrite Ew in Hb. destruct b; [|done]. cbn [mbind outcome_bind] in E0.
        set (s0 := with_tagged_workers _ s) in E0.
        destruct (tagged_replaced w run true q run false q s s0 Ew) as [Hi0 Hb0]; [done..|].
        destruct (to_run run) as [|[p|]|]; try done. apply batch_job_ran_frame in E0 as (Hst & k & Ek & Hf);
          [|unfold get_run; subst s0; ss; by rewrite list_lookup_insert_eq by (by eapply lookup_lt_Some)].
        destruct Hst as [Hrs Hst]. destruct (Hst Hi0) as (Hi1 & Hb1 & Hm1 & Hl1).
        split_and!; [done|rewrite Hl1; apply length_insert| |by eauto 10|done|].
        { etrans; [|exact Hrs]. split; [|done]. intros t v Hv. unfold get_run. subst s0. destruct t; [|done]. ss.
          by rewrite list_lookup_insert_ne by congruence. }
        intros i. rewrite Hb1, Hb0. repeat case_decide; naive_solver lia.
      + destruct (0 <? _); [|done]. cbn [mbind outcome_bind] in E0. set (s0 := set_jobs_active _ _ s) in E0.
        assert (steady (false, w) s s0 ∧ heap s0 = heap s ∧ events s0 = events s ∧ get_run false w s0 = Some run) as (Hs0 & Eh & Ee & Er0).
        { subst s0. destruct (is_reply_job run); (split; [by apply steady_same|done]). }
        clearbody s0. destruct (to_run run) as [|[p|]|]; try done. apply batch_job_ran_frame in E0 as (Hst & k & Ek & Hf); [|done].
        rewrite Eh, Ee in *. destruct Hs0 as [Hr0 Hs0], Hst as [Hr1 Hst].
        destruct (Hs0 Hi) as (Hi0 & Hb0 & Hm0 & Hl0), (Hst Hi0) as (Hi1 & Hb1 & Hm1 & Hl1).
        split_and!; [congruence|congruence|by etrans|by eauto 10|done|]. intros i. rewrite Hb1, Hb0, decide_False by naive_solver. lia.
    - destruct tagged.
      { unfold get_run in Er. destruct (tagged_workers s !! w) as [[[r b] q]|] eqn:Ew; [|done]. injection Er as ->.
        unfold busy_in in Hb. cbn [fst snd] in Hb. rewrite Ew in Hb. destruct b; [|done].
        destruct (proj1 (Forall_lookup _ _) Hg _ _ Ew eq_refl) as [Hj _]. cbn in Hj. congruence. }
      destruct (cats s !! cat run) as [c|] eqn:Ec; [|done]. destruct (0 <? _); [|done].
      unfold update_cat in E0. rewrite Ec in E0. injection E0 as <-. split_and!; [done|done|done|by exists []| |].
      + by apply (steady_same (false, w) s (with_cats _ s)).
      + intros i. rewrite decide_False by naive_solver. rewrite Z.sub_0_r. by apply (steady_same (false, w) s (with_cats _ s)). }
  destruct Hm1 as (Hm1 & Hl1 & Hrs & (k & Ek & Hk) & Hi1 & Hb1). rewrite Hm1 in E. destruct (max_workers s =? 0) eqn:Em; [lia|]. destruct tagged.
  - injection E as <-. split_and!; [done| |done|done|by eauto]. intros i. rewrite Hb1. repeat case_decide; naive_solver lia.
  - injection E as <-. destruct (idle_pushed w s1 Hi1) as [Hi2 Hb2].
    { rewrite Hb1, decide_False by naive_solver. lia. }
    split_and!; [done| |done|done|by eauto]. intros i. rewrite Hb2, Hb1, (decide_False (P := false = true ∧ _)) by naive_solver. lia.
Qed.

(** So the others run what they did. *)
Lemma worker_ran_loads i0 s s' :
  same_runs i0 s s' → (∀ i, busy_in s' i = busy_in s i - if decide (i = i0) then 1 else 0) → busy_in s i0 = 1 →
  loads_ok s → loads_ok s'.
Proof.
  intros [Hr Hp] Hb H0 Hl. split; [|rewrite Hp; apply (ld_pending _ Hl)]. intros t w r Hw Hg. rewrite Hb in Hw.
  case_decide as E; [subst; lia|]. rewrite Hr in Hg by done. apply (ld_run _ Hl t w r); [lia|done].
Qed.

(** ** The heap

    Only allocating and [RAN] change the batches. *)
Lemma run_on_idle_heap load s s' : run_on_idle load s = Ok s' → heap s' = heap s.
Proof.
  unfold run_on_idle, get_idle_worker. intros E. inv_bind. destruct a as [w s1].
  assert (heap s1 = heap s) as <- by (repeat case_match; simplify_eq; done).
  destruct (workers s1 !! w); [|done]. destruct (proxy_run_worker _). by injection E as <-.
Qed.

Lemma update_cat_heap n f s s' : update_cat n f s = Ok s' → heap s' = heap s.
Proof. unfold update_cat. destruct (cats s !! n); [|done]. by intros [= <-]. Qed.

Lemma start_command_heap n load s s' : start_command n load s = Ok s' → heap s' = heap s.
Proof. unfold start_command. intros E. inv_bind. etrans; [by eapply update_cat_heap|by eapply run_on_idle_heap]. Qed.

Lemma queue_command_heap p c s s' : queue_command p c s = Ok s' → heap s' = heap s.
Proof. unfold queue_command. destruct (_ && _); [by intros [= <-]|]. intros E. by etrans; [eapply update_cat_heap|]. Qed.

#[export] Hint Resolve run_on_idle_heap update_cat_heap start_command_heap queue_command_heap : frame.

Lemma inject_heap n command_ remote_ cb s s' : proxy_inject_task n command_ remote_ cb s = Ok s' → heap s' = heap s.
Proof. unfold proxy_inject_task. destruct (cats s !! n); [|done]. destruct (no_slot _ s); eauto with frame. Qed.

Lemma to_worker_heap lsn aliases index m cs s cs' s' e :
  proxy_to_worker lsn aliases index m cs s = Ok (cs', s', e) → heap s' = heap s.
Proof.
  unfold proxy_to_worker. intros E. destruct (connections cs !! index) as [sock|]; [|done]. cbv zeta in E. inv_bind.
  destruct a as [[[peer rt] cs1]|]; [|by simplify_eq]. case_match; [|done]. destruct (get_command _ _) as [found command_].
  destruct (proxy_check_auth _ _ _ _ _ _); [by simplify_eq|]. destruct found as [[cn cm]|]; [|done].
  destruct (cats s !! cn) as [c|]; [|done]. destruct (commands c !! cm) as [[cb rq]|]; [|done].
  inv_bind. destruct (no_slot _ s); inv_bind; [simplify_eq; eauto with frame|].
  destruct (_ && _); [by simplify_eq|]. inv_bind. simplify_eq. eauto with frame.
Qed.

Lemma run_batch_jobs_heap fuel reply s s' : run_batch_jobs fuel reply s = Ok s' → heap s' = heap s.
Proof.
  revert s. induction fuel as [|fuel IH]; intros s; cbn [run_batch_jobs]; [done|].
  destruct (jobs_queue reply s) as [|j q]; [by intros [= <-]|]. destruct (batch_slot reply s); [|by intros [= <-]].
  intros E. inv_bind. etrans; [by eapply IH|]. etrans; [|by eapply run_on_idle_heap]. by destruct reply.
Qed.

Lemma run_pending_heap kept rest s s' : run_pending kept rest s = Ok s' → heap s' = heap s.
Proof.
  revert kept s. induction rest as [|p rest IH]; intros kept s; cbn [run_pending]; [by intros [= <-]|].
  destruct (_ <? _); [|by intros [= <-]]. destruct (cats s !! pc_cat p) as [c|]; [|done].
  destruct (_ || _); [|apply IH]. intros E. inv_bind. destruct (_ <? 0); [done|]. inv_bind.
  etrans; [by eapply IH|]. etrans; [by eapply update_cat_heap|by eapply run_on_idle_heap].
Qed.

Lemma run_tagged_heap n i s : heap (run_tagged n i s) = heap s.
Proof.
  revert i s. induction n as [|n IH]; intros i s; cbn [run_tagged]; [done|]. cbv zeta. rewrite IH.
  destruct (tagged_workers s !! i) as [[[r []] [|j q]]|]; try done. by destruct (proxy_run_worker _).
Qed.

Lemma process_queue_heap s s' : proxy_process_queue s = Ok s' → heap s' = heap s.
Proof.
  unfold proxy_process_queue. destruct (_ =? 0); [by intros [= <-]|]. cbv zeta. intros E. inv_bind.
  etrans; [by eapply run_pending_heap|]. etrans; [by eapply run_batch_jobs_heap|]. etrans; [by eapply run_batch_jobs_heap|].
  apply run_tagged_heap.
Qed.

Lemma queue_jobs_heap p i ts s s' : queue_jobs p i ts s = Ok s' → heap s' = heap s.
Proof.
  revert i s. induction ts as [|t ts IH]; intros i s; cbn [queue_jobs]; [by intros [= <-]|]. intros E. inv_bind.
  etrans; [by eapply IH|]. destruct (0 <? t); [|by injection E0 as <-].
  unfold push_tagged in E0. destruct (tagged_workers s !! _) as [[[r b] q]|]; [|done]. by injection E0 as <-.
Qed.

Lemma proxy_batch_heap p s s' : proxy_batch p s = Ok s' → heap s' = heap s.
Proof.
  unfold proxy_batch. destruct (heap s !! p) as [b|]; [|done]. cbv zeta. destruct (batch_size b) as [n tagged]. intros E.
  inv_bind. injection E as <-. change (heap a = heap s). destruct tagged; by etrans; [eapply queue_jobs_heap|].
Qed.

Lemma ran_fate_dom j h h' k : ran_fate j h = Some (h', k) → dom h' ⊆ dom h.
Proof.
  unfold ran_fate. intros E. destruct (j.2 =? -1); [injection E as <- _; set_solver|].
  destruct (h !! j.1) as [b|] eqn:Eb; [|done]. cbn [mbind option_bind] in E. assert (j.1 ∈ dom h) by (apply elem_of_dom; eauto).
  destruct (job_finished b) as [st b']. destruct (bs_state st); [|destruct (bs_thread st =? -1)|]; injection E as <- _; set_solver.
Qed.

(** ** What becomes of jobs

    A handler that finishes nothing keeps the tasks of every batch there was, and a
    batch it brings has all its jobs outstanding. *)
Record jobs_kept (s s' : sched) : Prop := {
  jk_tasks p j : p ∈ dom (heap s) → (p, j) ∈ tasks s' ↔ (p, j) ∈ tasks s;
  jk_new p b : heap s' !! p = Some b → p ∉ dom (heap s) → jobs_outstanding b = Z.of_nat (length (jobs b))
}.
Definition advances (s s' : sched) : Prop := ids_ok s → (∃ k, acts_with k s s') ∧ jobs_kept s s'.

#[export] Instance advances_preorder : PreOrder advances.
Proof.
  split.
  - intros s Hi. split; [by apply (reflexivity (R := acts) s)|]. split; [done|]. intros p b Hb Hp. exfalso. apply Hp, elem_of_dom. by eauto.
  - intros s1 s2 s3 H1 H2 Hi. destruct (H1 Hi) as [[k1 A1] [T1 N1]], (H2 (act_ids _ _ _ A1)) as [[k2 A2] [T2 N2]]. split.
    { apply (transitivity (R := acts) (x := s1) (y := s2) (z := s3)); [by intros _; exists k1|by intros _; exists k2|done]. }
    split.
    + intros p j Hp. rewrite T2; [by apply T1|]. eapply subseteq_dom; [apply (act_heap _ _ _ A1)|done].
    + intros p b Hb Hp. destruct (heap s2 !! p) as [b2|] eqn:E2.
      * assert (heap s3 !! p = Some b2) as E3 by (by eapply lookup_weaken, (act_heap _ _ _ A2)). rewrite Hb in E3. injection E3 as <-. by eapply N1.
      * apply (N2 p b Hb). by apply not_elem_of_dom.
Qed.

Lemma advances_acts s s' : advances s s' → acts s s'.
Proof. intros H Hi. by apply H. Qed.

(** Tasks move. *)
Lemma advances_moved s s' : acts s s' → heap s' = heap s → (ids_ok s → tasks s' ≡ₚ tasks s) → advances s s'.
Proof.
  intros Ha Hh Ht Hi. split; [by apply Ha|]. split.
  - intros p j _. by rewrite (Ht Hi).
  - intros p b Hb Hp. rewrite Hh in Hb. exfalso. apply Hp, elem_of_dom. by eauto.
Qed.

(** A batch comes with its tasks. *)
Lemma advances_new p b n s s' :
  acts s s' → p ∉ dom (heap s) → heap s' = <[p := b]> (heap s) → jobs_outstanding b = Z.of_nat (length (jobs b)) →
  tasks s' ≡ₚ job_tasks p 0 n ++ tasks s → advances s s'.
Proof.
  intros Ha Hp Hh Hout Ht Hi. split; [by apply Ha|]. split.
  - intros q j Hq. rewrite Ht, elem_of_app, elem_of_job_tasks. split; [|by right]. intros [[-> _]|]; done.
  - intros q c. rewrite Hh. intros [(<- & <-)|(_ & Hc)]%lookup_insert_Some Hq; [done|]. exfalso. apply Hq, elem_of_dom. by eauto.
Qed.

Lemma ids_pool_ok s : ids_ok s → pool_ok (length (workers s) `max` capacity s) (idle_workers s) (workers s).
Proof. intros Hi. destruct (ids_idle _ Hi) as [H1 H2]. split; [done|done|lia]. Qed.

Lemma run_on_idle_tasks load s s' :
  (∀ y, is_batch_job (load y) = false) → ids_ok s → run_on_idle load s = Ok s' → tasks s' ≡ₚ tasks s.
Proof.
  intros Hl Hi E. destruct (run_on_idle_busy load s s' _ (ids_pool_ok s Hi) ltac:(lia) E) as (y & e & idle & ws & -> & Hb & _).
  by apply mv_tasks, (moved_plain s e idle ws (load y)).
Qed.

Lemma start_command_advances n load s s' :
  loads load → (∀ y, is_batch_job (load y) = false) → start_command n load s = Ok s' → advances s s'.
Proof.
  intros Hk Hl E. apply advances_moved; [by eapply start_command_acts|by eapply start_command_heap|]. intros Hi.
  unfold start_command in E. inv_bind. rewrite <-(run_on_idle_tasks load s a) by done.
  unfold update_cat in E. destruct (cats a !! n); [|done]. by injection E as <-.
Qed.

Lemma queue_command_advances p c s s' : pend_ok p → queue_command p c s = Ok s' → advances s s'.
Proof.
  intros Hp E. apply advances_moved; [by eapply queue_command_acts|by eapply queue_command_heap|]. intros _.
  unfold queue_command in E. destruct (_ && _); [by injection E as <-|]. unfold update_cat in E. case_match; [|done]. by injection E as <-.
Qed.

Lemma inject_advances n command_ remote_ cb s s' : proxy_inject_task n command_ remote_ cb s = Ok s' → advances s s'.
Proof.
  unfold proxy_inject_task. destruct (cats s !! n) as [c|]; [|done]. destruct (no_slot c s); intros E.
  - by eapply queue_command_advances; [|exact E].
  - eapply start_command_advances; [| |exact E]; [auto with frame|done].
Qed.

Lemma schedule_reply_advances p f s : p ∉ dom (heap s) → advances s (proxy_schedule_reply_job p f s).
Proof.
  intros Hp. apply (advances_new p (add_job_thread f 0 new_batch) 1); [by apply schedule_reply_acts|done|done|done|].
  unfold tasks, pool_free_tasks, job_tasks, proxy_schedule_reply_job, alloc_batch. ss. cbn [seq fmap list_fmap].
  change (busy_runs (mkSched _ _ _ _ _ _ _ _ _ _ _ _ _ _ _ _ _ _)) with (busy_runs s). solve_Permutation.
Qed.

Lemma to_worker_advances lsn aliases index m cs s cs' s' e :
  proxy_to_worker lsn aliases index m cs s = Ok (cs', s', e) → advances s s'.
Proof.
  unfold proxy_to_worker. intros E. destruct (connections cs !! index) as [sock|]; [|done]. cbv zeta in E. inv_bind.
  destruct a as [[[peer rt] cs1]|]; [|by simplify_eq]. case_match; [|done]. destruct (get_command _ _) as [found command_].
  set (data := drop _ _) in E. destruct found as [[cn cm]|]; [|by destruct (proxy_check_auth _ _ _ _ _ _); simplify_eq].
  destruct (proxy_check_auth _ _ _ _ _ _) eqn:Ea; [by simplify_eq|].
  destruct (cats s !! cn) as [c|] eqn:Ec; [|done]. destruct (commands c !! cm) as [[cb rq]|] eqn:Ex; [|done].
  assert (rq = true → data ≠ []) as Hrq.
  { intros -> Hd. unfold proxy_check_auth in Ea. cbn [mbind option_bind] in Ea. rewrite Ec in Ea. cbn [mbind option_bind] in Ea.
    rewrite Ex in Ea. cbn in Ea. rewrite Hd in Ea. by repeat case_match. }
  inv_bind. destruct (no_slot _ s); inv_bind.
  - simplify_eq. by eapply queue_command_advances; [|done].
  - destruct (_ && _); [by simplify_eq|]. inv_bind. simplify_eq. eapply start_command_advances; [| |done]; [auto with frame|done].
Qed.

Lemma inject_acts n command_ remote_ cb s s' : proxy_inject_task n command_ remote_ cb s = Ok s' → acts s s'.
Proof. intros E. by eapply advances_acts, inject_advances. Qed.

Lemma to_worker_acts lsn aliases index m cs s cs' s' e :
  proxy_to_worker lsn aliases index m cs s = Ok (cs', s', e) → acts s s'.
Proof. intros E. by eapply advances_acts, to_worker_advances. Qed.
