(* ===== verification/Proxy.v ===== *)
(** The proxy as a state machine: the inputs its loop handles one after the other,
    the states they lead to, and what holds in all of them. *)
From S2P Require Import Prelude BtValue BtSerialize BtCodec Commands Connections Auth Batch Admission Scheduler BatchOwner SchedulerInv Frame.
Open Scope Z_scope.

(** ** Inputs *)

(** What the loop receives: batches and jobs from clients (at a fresh address [p]),
    reply jobs, injected tasks, messages of peers, [RAN] from a worker, and the call
    of [proxy_process_queue] that ends each round. *)
Inductive input : Type :=
  | in_batch (p : ptr) (b : Batch)
  | in_job (p : ptr) (f : callback) (thread : option Z)
  | in_reply (p : ptr) (f : callback)
  | in_inject (name command_ remote_ : bytes) (cb : callback)
  | in_message (local_service_node : bool) (aliases : gmap bytes bytes) (index : nat) (m : incoming) (cs : conns)
  | in_ran (tagged : bool) (w : nat)
  | in_process.

Definition handle (i : input) (s : sched) : outcome sched :=
  match i with
  | in_batch p b => submit_batch p b s
  | in_job p f thread => submit_job p f thread s
  | in_reply p f => Ok (proxy_schedule_reply_job p f s)
  | in_inject n command_ remote_ cb => proxy_inject_task n command_ remote_ cb s
  | in_message lsn aliases index m cs => '(_, s, _) ← proxy_to_worker lsn aliases index m cs s; Ok s
  | in_ran tagged w => proxy_worker_message [routing_id tagged w; B "RAN"] s
  | in_process => proxy_process_queue s
  end.

(** Thread ids come from [add_tagged_thread], -1 being the proxy thread. *)
Definition thread_id_ok (s : sched) (t : Z) : Prop := -1 <= t <= Z.of_nat (length (tagged_workers s)).

(** The inputs that can occur: addresses of new batches are not in use, thread ids
    exist, a [RAN] comes from a worker that was given something to run, messages are
    those the loop passes on. *)
Definition enabled (i : input) (s : sched) : Prop :=
  match i with
  | in_batch p b =>
      p ∉ dom (heap s) ∧ batch_ok b ∧ jobs b ≠ [] ∧ Z.of_nat (length (jobs b)) < 2 ^ 64 ∧
      thread_id_ok s (complete_in_thread b) ∧ Forall (thread_id_ok s) (threads b)
  | in_job p f thread => p ∉ dom (heap s) ∧ (∀ t, thread = Some t → 0 < t <= Z.of_nat (length (tagged_workers s)))
  | in_reply p f => p ∉ dom (heap s)
  | in_inject n _ _ _ => is_Some (cats s !! n)
  | in_message _ _ index m cs => message_ok index m cs
  | in_ran false w => (w < length (workers s))%nat ∧ w ∉ idle_workers s
  | in_ran true w => Z.of_nat (S w) < 2 ^ 32 ∧ ∃ r q, tagged_workers s !! w = Some (r, true, q)
  | in_process => True
  end.

(** A freshly started proxy: nothing runs, nothing is queued. *)
Record start_ok (cs : gmap bytes category) (tagged : list (run_info * bool * list batch_job)) : Prop := {
  start_cats n c : cs !! n = Some c → 0 <= reserved_threads c ∧ active_threads c = 0 ∧ queued c = 0;
  start_tagged w r b q : tagged !! w = Some (r, b, q) →
    b = false ∧ q = [] ∧ worker_id r = S w ∧ worker_routing_id r = routing_id true w ∧ worker_thread r = true
}.

(** The tagged workers [add_tagged_thread] makes are such. *)
Lemma add_tagged_thread_start name cs tagged n tagged' :
  start_ok cs tagged → add_tagged_thread false name tagged = Ok (n, tagged') → start_ok cs tagged'.
Proof.
  intros [H1 H2]. unfold add_tagged_thread. destruct (_ || _); [done|]. cbv zeta. intros [= _ <-]. split; [done|].
  intros w r b q [Hw|[Hl Hw]]%lookup_app_Some; [by eapply H2|].
  apply list_lookup_singleton_Some in Hw as [Hw Hx]. assert (w = length tagged) as -> by lia. by injection Hx as <- <- <-.
Qed.

(** The states before [QUIT] of a proxy started with [t], [cs] and [tagged];
    [max_workers] is an [int].  After [QUIT] the proxy is shutting down (Shutdown.v). *)
Inductive reach (t : thread_config) (cs : gmap bytes category) (tagged : list (run_info * bool * list batch_job)) : sched → Prop :=
  | reach_start s : start_ok cs tagged → proxy_start t cs tagged = Ok s → max_workers s < 2 ^ 31 → reach t cs tagged s
  | reach_step i s s' : reach t cs tagged s → enabled i s → handle i s = Ok s' → reach t cs tagged s'.

(** ** The start state *)
Definition names_of (s : sched) : list bytes := (map_to_list (cats s)).*1.
Definition reserved_at (s : sched) (k : kind) : Z := default 0 (reserved_of k s).

Lemma names_NoDup s : NoDup (names_of s).
Proof. apply NoDup_fst_map_to_list. Qed.

Lemma elem_of_names s n : n ∈ names_of s ↔ is_Some (cats s !! n).
Proof.
  unfold names_of. rewrite list_elem_of_fmap. split.
  - intros ([k c] & -> & H%elem_of_map_to_list). by eexists.
  - intros [c H]. exists (n, c). by rewrite elem_of_map_to_list.
Qed.

Lemma sum_reserved s : 
  sumZ (reserved_at s) (k_cat <$> names_of s) = foldr (λ nc m, m + reserved_threads nc.2) 0 (map_to_list (cats s)).
Proof.
  unfold names_of. assert (∀ nc, nc ∈ map_to_list (cats s) → cats s !! nc.1 = Some nc.2) as H.
  { intros [n c] Hn. by apply elem_of_map_to_list in Hn. }
  induction (map_to_list (cats s)) as [|[n c] l IH]; [done|]. unfold sumZ in *. cbn. rewrite IH by set_solver.
  unfold reserved_at. cbn [reserved_of]. pose proof (H (n, c) ltac:(by left)) as Hn. cbn [fst snd] in Hn. rewrite Hn. cbn. lia.
Qed.

Lemma foldr_shift (l : list (bytes * category)) x :
  foldr (λ nc m, m + reserved_threads nc.2) x l = x + foldr (λ nc m, m + reserved_threads nc.2) 0 l.
Proof. induction l as [|nc l IH]; cbn; [lia|]. rewrite IH. lia. Qed.

Lemma idle_tagged_tasks (l : list (run_info * bool * list batch_job)) :
  (∀ x, x ∈ l → x.1.2 = false ∧ x.2 = []) → l ≫= tagged_task = [].
Proof.
  induction l as [|[[r b] q] l IH]; intros H; [done|]. cbn [mbind list_bind]. unfold tagged_task at 1.
  destruct (H (r, b, q)) as [Hb Hq]; [by left|]. cbn in Hb, Hq. subst. cbn. apply IH. intros x Hx. apply H. by right.
Qed.

Lemma start_tagged_idle cs tagged x : start_ok cs tagged → x ∈ tagged → x.1.2 = false ∧ x.2 = [].
Proof.
  intros [_ H] [w Hw]%list_elem_of_lookup. destruct x as [[r b] q]. destruct (H _ _ _ _ Hw) as (-> & -> & _). done.
Qed.

Lemma proxy_start_inv t cs tagged s :
  start_ok cs tagged → proxy_start t cs tagged = Ok s →
  (∀ k, 0 <= reserved_at s k) ∧ inv (names_of s) (reserved_at s) (general_workers s) s ∧ 0 < general_workers s.
Proof.
  intros Hst. pose proof (λ x, start_tagged_idle cs tagged x Hst) as Htg. destruct Hst as [Hcs _]. unfold proxy_start. destruct (_ <=? 0) eqn:Eg; [done|]. cbv zeta.
  set (general := general_workers_cfg t) in *.
  set (br := if batch_jobs_reserved_cfg t <? 0 then _ else _). set (rr := if reply_jobs_reserved_cfg t <? 0 then _ else _).
  assert (0 <= br) as Hbr by (subst br; destruct (batch_jobs_reserved_cfg t <? 0) eqn:E; [apply Z.div_pos|]; lia).
  assert (0 <= rr) as Hrr by (subst rr; destruct (reply_jobs_reserved_cfg t <? 0) eqn:E; [apply Z.div_pos|]; lia).
  intros [= <-]. set (s := mkSched _ _ _ _ _ _ _ _ _ _ _ _ _ _ _ _ _ _).
  assert (∀ k, 0 <= reserved_at s k) as Hres.
  { intros [[]|n]; unfold reserved_at, s; ss; cbn; [done..|]. destruct (cs !! n) as [c|] eqn:Ec; cbn; [by eapply Hcs|done]. }
  assert (max_workers s = slots (kinds (names_of s)) (reserved_at s) general) as Hmax.
  { unfold slots, kinds. cbn [sumZ foldr]. fold (sumZ (reserved_at s) (k_cat <$> names_of s)).
    rewrite sum_reserved. subst s. ss. rewrite foldr_shift. unfold reserved_at. ss. cbn. lia. }
  assert (0 <= slots (kinds (names_of s)) (reserved_at s) general) as Hpos.
  { unfold slots. assert (0 <= sumZ (reserved_at s) (kinds (names_of s))); [|lia].
    clear -Hres. induction (kinds (names_of s)) as [|k l IH]; [done|]. unfold sumZ in *. cbn. specialize (Hres k). lia. }
  split_and!; [done| |subst s; cbn; lia]. split.
  - split; [split|].
    + done.
    + done.
    + rewrite <-Hmax in *. subst s. ss. lia.
    + intros n. by rewrite elem_of_names.
    + intros [reply|n] Hk; [done|]. apply elem_of_kinds_cat, elem_of_names in Hk as [c Ec].
      unfold reserved_at. cbn [reserved_of]. by rewrite Ec.
    + split; [constructor|set_solver|]. subst s. ss. cbn. lia.
    + intros k Hk. by apply elem_of_nil in Hk.
    + change (running s) with (@nil kind). rewrite excess_nil by done. subst s. ss. lia.
    + intros n c Ec. by apply Hcs in Ec as (_ & _ & ->).
    + intros p Hp. by apply elem_of_nil in Hp.
    + intros [[]|n] Hk; [done..|]. apply elem_of_kinds_cat, elem_of_names in Hk as [c Ec]. cbn [active_of].
      rewrite Ec. apply Hcs in Ec as (_ & Ha & _). cbn [fmap option_fmap option_map]. by rewrite Ha.
  - split; [constructor|]. apply Forall_forall. intros x Hx Hb. apply Htg in Hx as [Hx _]. congruence.
  - assert (tasks s = []) as ->; [|apply owned_empty]. unfold tasks, pool_free_tasks. subst s. ss. cbn [app].
    by rewrite idle_tagged_tasks.
Qed.

(** ** Steps *)
(** A routing id is read back as the worker it names. *)
Lemma parse_route_id (tagged : bool) s w :
  (w < if tagged then length (tagged_workers s) else length (workers s))%nat → Z.of_nat (S w) < 2 ^ 32 →
  parse_route s (routing_id tagged w) = Ok (Some (tagged, w)).
Proof.
  intros Hw Hlt. unfold parse_route, routing_id. set (n := if tagged then S w else w).
  replace (if tagged then "t"%byte :: print_nat (Z.of_nat (S w)) else "w"%byte :: print_nat (Z.of_nat w))
    with ((if tagged then "t"%byte else "w"%byte) :: print_nat (Z.of_nat n)) by by destruct tagged.
  destruct (print_nat_spec (Z.of_nat n)) as (Hne & Hds & _); [lia|].
  assert (extract_unsigned (print_nat (Z.of_nat n)) = (Ok (Z.of_nat n), [])) as He.
  { rewrite <-(app_nil_r (print_nat _)). apply extract_unsigned_spec; [destruct tagged; lia|done]. }
  assert (it_cast uint32_t (Z.of_nat n) = Z.of_nat n) as Hc.
  { unfold it_cast. cbn [it_signed uint32_t andb it_bits]. apply Z.mod_small. destruct tagged; lia. }
  destruct (print_nat (Z.of_nat n)) as [|d ds] eqn:Ep; [done|]. apply Forall_cons in Hds as [Hd _].
  rewrite Hd. cbn [tail]. rewrite He, Hc. subst n. destruct tagged; cbn [bool_decide_eq_true negb orb].
  - rewrite (bool_decide_eq_true_2 ("t"%byte = "t"%byte)) by done. rewrite orb_true_r. cbn [negb orb].
    destruct (_ || _) eqn:E; [rewrite bool_decide_eq_true_2 in E by done; cbn [negb orb] in E; lia|].
    do 3 f_equal. lia.
  - rewrite (bool_decide_eq_false_2 ("w"%byte = "t"%byte)) by done. rewrite (bool_decide_eq_true_2 ("w"%byte = "w"%byte)) by done.
    cbn [negb orb]. rewrite (bool_decide_eq_true_2 ([] = [])) by done. cbn [negb orb].
    destruct (_ <=? _) eqn:E; [lia|]. do 3 f_equal. lia.
Qed.

Definition is_ran (i : input) : bool := match i with in_ran _ _ => true | _ => false end.

(** [RAN] of a worker that is busy reaches [worker_ran]. *)
Lemma handle_ran (tagged : bool) w s :
  (w < if tagged then length (tagged_workers s) else length (workers s))%nat → Z.of_nat (S w) < 2 ^ 32 →
  handle (in_ran tagged w) s = worker_ran tagged w (routing_id tagged w) s.
Proof.
  intros Hw Hlt. cbn [handle]. unfold proxy_worker_message. rewrite parse_route_id by done. cbn [mbind outcome_bind].
  by rewrite bytes_eqb_refl.
Qed.

Section steps.
Context (names : list bytes) (res : kind → Z) (gen : Z).
Context (Hnames : NoDup names) (Hres : ∀ k, 0 <= res k) (Hgen : 0 < gen) (Hslots : slots (kinds names) res gen < 2 ^ 31).

Lemma slots_pos : 0 < slots (kinds names) res gen.
Proof using Hres Hgen.
  unfold slots. assert (0 <= sumZ res (kinds names)); [|lia]. clear -Hres.
  induction (kinds names) as [|k l IH]; [done|]. unfold sumZ in *. cbn. specialize (Hres k). lia.
Qed.

Lemma ran_bound (tagged : bool) w s :
  inv names res gen s → enabled (in_ran tagged w) s →
  (w < if tagged then length (tagged_workers s) else length (workers s))%nat ∧ Z.of_nat (S w) < 2 ^ 32.
Proof using Hslots.
  intros Hi He. destruct tagged; cbn [enabled] in He.
  - destruct He as (Hw & r & q & Ew). split; [by eapply lookup_lt_Some|done].
  - destruct He as [Hw _]. split; [done|]. destruct (inv_acct _ _ _ _ Hi) as [Hc _].
    pose proof (pool_size _ _ _ (a_pool _ _ _ _ _ Hc)). pose proof (a_cap _ _ _ _ _ Hc). lia.
Qed.

(** A report ends what its worker ran. *)
Lemma ran_handled (tagged : bool) w s :
  inv names res gen s → enabled (in_ran tagged w) s →
  ∃ run s', get_run tagged w s = Some run ∧ handle (in_ran tagged w) s = Ok s' ∧ inv names res gen s' ∧ ran_tasks run s s'.
Proof using Hnames Hres Hgen Hslots.
  intros Hi He. destruct (ran_bound tagged w s Hi He) as [Hw Hlt]. rewrite handle_ran by done.
  assert (max_workers s ≠ 0) as Hmax by (rewrite (a_max _ _ _ _ _ (proj1 (inv_acct _ _ _ _ Hi))); pose proof slots_pos; lia).
  destruct tagged; cbn [enabled] in He; unfold get_run.
  - destruct He as (_ & r & q & Ew). rewrite Ew. exists r.
    destruct (tagged_job_ran_ok names res gen Hnames Hres w (routing_id true w) r q s Hi Hmax Ew) as (s' & ? & ? & ?). by exists s'.
  - destruct He as [_ Hid]. destruct (lookup_lt_is_Some_2 _ _ Hw) as [r Ew]. exists r.
    destruct (worker_ran_pool names res gen Hnames Hres w (routing_id false w) r s Hi Hmax Ew Hid) as (s' & ? & ? & ?). by exists s'.
Qed.

(** Every input that can occur is handled without undefined behaviour, failed
    assertion or exception, and the invariant is kept. *)
Lemma handle_ok i s : inv names res gen s → enabled i s → ∃ s', handle i s = Ok s' ∧ inv names res gen s'.
Proof using Hnames Hres Hgen Hslots.
  intros Hi He. pose proof slots_pos as Hpos. destruct (inv_acct _ _ _ _ Hi) as [Hc _].
  assert (max_workers s ≠ 0) as Hmax by (rewrite (a_max _ _ _ _ _ Hc); lia).
  destruct (is_ran i) eqn:Er.
  { destruct i as [| | | | |tagged w|]; try done. destruct (ran_handled tagged w s Hi He) as (run & s' & _ & E & Hi' & _). by eauto. }
  destruct i as [p b|p f thread|p f|n command_ remote_ cb|lsn aliases index m cs|tagged w|]; cbn [handle enabled] in *.
  - destruct He as (Hp & Hb & Hne & Hlt & Ht & Hth). unfold submit_batch, batch_size. cbn [fst].
    destruct (_ =? _)%nat eqn:E; [by destruct (jobs b)|].
    edestruct (proxy_batch_ok names res gen) as (s' & E' & Hi' & _); [exact Hi|exact Hp| | |exists s'; split; [exact E'|exact Hi']].
    + split_and!; [apply Ht|done|apply Hb|done].
    + eapply Forall_impl; [exact Hth|]. intros t [_ H]. done.
  - destruct He as (Hp & Ht). unfold submit_job, add_job.
    assert (∀ t, thread = Some t → 0 < t) as Hpos' by (intros t E; apply Ht in E; lia).
    rewrite bool_decide_eq_false_2 by (intros E; apply Hpos' in E; lia). cbn [b_started new_batch mbind outcome_bind].
    edestruct (proxy_batch_ok names res gen) as (s' & E' & Hi' & _); [exact Hi|exact Hp| | |exists s'; split; [exact E'|exact Hi']].
    + split_and!; cbn; try done; lia.
    + cbn. apply Forall_singleton. destruct thread as [t|]; cbn; [by apply Ht|lia].
  - eexists. split; [done|]. by apply schedule_reply_ok.
  - apply (inject_ok names res gen); [done..|]. by apply (a_cats _ _ _ _ _ Hc).
  - destruct (to_worker_ok names res gen Hnames Hres lsn aliases index m cs s Hi He) as (cs' & s' & e & -> & Hi').
    cbn. by eauto.
  - done.
  - destruct (process_queue_ok names res gen Hnames Hres s (inv_acct _ _ _ _ Hi) Hmax) as (s' & E & Ha & Hm & _).
    exists s'. split; [done|]. by eapply inv_moved.
Qed.
End steps.

Lemma reach_inv t cs tagged s :
  reach t cs tagged s →
  ∃ names res gen, NoDup names ∧ (∀ k, 0 <= res k) ∧ 0 < gen ∧ slots (kinds names) res gen < 2 ^ 31 ∧ inv names res gen s.
Proof.
  induction 1 as [s Hst Hs Hmax|i s s' _ (names & res & gen & Hn & Hr & Hg & Hsl & Hi) He E].
  - destruct (proxy_start_inv t cs tagged s Hst Hs) as (Hres & Hi & Hg).
    exists (names_of s), (reserved_at s), (general_workers s). split_and!; try done; [apply names_NoDup|].
    rewrite <-(a_max _ _ _ _ _ (proj1 (inv_acct _ _ _ _ Hi))). done.
  - exists names, res, gen. split_and!; try done.
    destruct (handle_ok names res gen Hn Hr Hg Hsl i s Hi He) as (s2 & E2 & Hi2). rewrite E in E2. by injection E2 as ->.
Qed.

(** ** Which workers are busy *)
Lemma start_ids t cs tagged s : start_ok cs tagged → proxy_start t cs tagged = Ok s → ids_ok s.
Proof.
  intros [_ H]. unfold proxy_start. destruct (_ <=? 0); [done|]. cbv zeta. intros [= <-]. split; ss.
  - done.
  - intros w r b q Hw. by destruct (H _ _ _ _ Hw) as (_ & _ & ?).
  - split; [constructor|set_solver].
Qed.

Lemma start_loads t cs tagged s : start_ok cs tagged → proxy_start t cs tagged = Ok s → loads_ok s.
Proof.
  intros Hst Hs. pose proof (λ x, start_tagged_idle cs tagged x Hst) as H. revert Hs.
  unfold proxy_start. destruct (_ <=? 0); [done|]. cbv zeta. intros [= <-]. split.
  - intros [] w r Hb Hg; unfold busy_in, get_run in *; ss; [|done].
    destruct (tagged !! w) as [[[r' []] q]|] eqn:Ew; try done. by destruct (H _ (list_elem_of_lookup_2 _ _ _ Ew)).
  - intros p Hp. by apply elem_of_nil in Hp.
Qed.

Lemma handle_acts i s s' : loads_ok s → enabled i s → is_ran i = false → handle i s = Ok s' → acts s s'.
Proof.
  intros Hl He Hr E. destruct i as [p b|p f thread|p f|n command_ remote_ cb|lsn aliases index m cs|tagged w|]; cbn [handle enabled] in *.
  - unfold submit_batch in E. destruct (_ =? _)%nat; [done|]. transitivity (alloc_batch p b s); [by apply alloc_acts, He|by eapply proxy_batch_acts].
  - unfold submit_job in E. case_bool_decide; [done|]. inv_bind. transitivity (alloc_batch p a s); [by apply alloc_acts, He|by eapply proxy_batch_acts].
  - injection E as <-. by apply schedule_reply_acts.
  - by eapply inject_acts.
  - inv_bind. destruct a as [[cs' s1] e]. injection E as <-. by eapply to_worker_acts.
  - done.
  - by eapply process_queue_acts.
Qed.

Lemma ran_busy tagged w s : enabled (in_ran tagged w) s → busy_in s (tagged, w) = 1.
Proof.
  unfold busy_in. destruct tagged; cbn [enabled fst snd].
  - by intros (_ & r & q & ->).
  - intros H. by rewrite decide_True.
Qed.

#[export] Instance sumZ_proper (f : kind → Z) : Proper ((≡ₚ) ==> (=)) (sumZ f).
Proof. intros l1 l2 H. unfold sumZ. induction H; cbn; lia. Qed.

(** The slots, as the proxy's settings give them. *)
Definition total_slots (s : sched) : Z :=
  general_workers s + batch_jobs_reserved s + reply_jobs_reserved s
  + foldr (λ nc m, m + reserved_threads nc.2) 0 (map_to_list (cats s)).

Lemma slots_total names res gen pend s :
  NoDup names → core names res gen pend s → slots (kinds names) res gen = total_slots s.
Proof.
  intros Hn Hc. unfold total_slots. rewrite <-sum_reserved.
  assert (names ≡ₚ names_of s) as Hp.
  { apply NoDup_Permutation; [done|apply names_NoDup|]. intros n. by rewrite elem_of_names, (a_cats _ _ _ _ _ Hc). }
  rewrite <-Hp. rewrite (a_general _ _ _ _ _ Hc). unfold slots, kinds. cbn [sumZ foldr].
  pose proof (a_res _ _ _ _ _ Hc (k_job false) (elem_of_kinds_job _ _)) as [= Hb].
  pose proof (a_res _ _ _ _ _ Hc (k_job true) (elem_of_kinds_job _ _)) as [= Hr]. ss. rewrite Hb, Hr.
  assert (sumZ res (k_cat <$> names) = sumZ (reserved_at s) (k_cat <$> names)) as E.
  { apply sumZ_ext. intros k Hk. unfold reserved_at. rewrite (a_res _ _ _ _ _ Hc k); [done|]. unfold kinds. set_solver. }
  unfold sumZ in *. rewrite E. lia.
Qed.

(** ** Properties *)

(** The running proxy never fails: in every state it can reach, every input that
    can occur (a batch, a job, a reply job, an injected task, a peer's message, a
    worker's [RAN], a round of the queues) is handled to the end, with no assertion
    failing, no exception and no access to a worker, category or batch that does not
    exist. *)
Theorem proxy_never_fails t cs tagged s i :
  reach t cs tagged s → enabled i s → ∃ s', handle i s = Ok s' ∧ reach t cs tagged s'.
Proof.
  intros Hr He. destruct (reach_inv _ _ _ _ Hr) as (names & res & gen & Hn & Hres & Hg & Hsl & Hi).
  destruct (handle_ok names res gen Hn Hres Hg Hsl i s Hi He) as (s' & E & _). exists s'. split; [done|].
  by eapply reach_step.
Qed.

(** C16. The worker pool is bounded: up to [QUIT] there are never more workers than
    general slots plus the reservations of batch jobs, reply jobs and all categories, so
    the vector never outgrows the space reserved at startup (workers hold references
    into it). After [QUIT] it can, see [quit_overflows_workers]. *)
Theorem worker_pool_bounded t cs tagged s :
  reach t cs tagged s →
  Z.of_nat (length (workers s)) <= max_workers s ∧ max_workers s = total_slots s ∧
  Z.of_nat (capacity s) = max_workers s.
Proof.
  intros Hr. destruct (reach_inv _ _ _ _ Hr) as (names & res & gen & Hn & Hres & Hg & Hsl & [[Hc _] _ _]).
  rewrite <-(slots_total names res gen _ s Hn Hc), (a_cap _ _ _ _ _ Hc), (a_max _ _ _ _ _ Hc).
  pose proof (pool_size _ _ _ (a_pool _ _ _ _ _ Hc)). pose proof (a_cap _ _ _ _ _ Hc). lia.
Qed.

(** The busy workers of a kind. *)
Definition busy_count (k : kind) (s : sched) : Z := Z.of_nat (length (filter (λ x, kind_of x = k) (busy_runs s))).

Lemma busy_count_cnt k s : busy_count k s = cnt k (running s).
Proof.
  unfold busy_count, cnt, running. f_equal. induction (busy_runs s) as [|x l IH]; [done|]. rewrite fmap_cons, !filter_cons.
  destruct (decide (kind_of x = k)); cbn [length]; lia.
Qed.

(** C12. The proxy's books are exact: in every state reachable before [QUIT] (which
    forgets the idle workers) the active counts of batch jobs, reply jobs and every
    category equal the number of busy workers running such work, a category's [queued]
    equals the number of its pending commands, and [active_workers()] is the number of
    busy workers. *)
Theorem scheduler_books_exact t cs tagged s :
  reach t cs tagged s →
  active_workers s = Z.of_nat (length (busy_runs s)) ∧
  (∀ reply, jobs_active reply s = busy_count (k_job reply) s) ∧
  (∀ n c, cats s !! n = Some c →
    active_threads c = busy_count (k_cat n) s ∧ queued c = pending_of n (pending_commands s)).
Proof.
  intros Hr. destruct (reach_inv _ _ _ _ Hr) as (names & res & gen & Hn & Hres & Hg & Hsl & [[Hc Hb] _ _]). split_and!.
  - rewrite (active_workers_running _ _ _ _ _ Hc). unfold running. by rewrite length_fmap.
  - intros reply. rewrite busy_count_cnt. by injection (Hb (k_job reply) (elem_of_kinds_job _ _)).
  - intros n c Ec. rewrite busy_count_cnt. split; [|by apply (a_queued _ _ _ _ _ Hc)].
    assert (n ∈ names) as Hin by (apply (a_cats _ _ _ _ _ Hc); by eauto).
    pose proof (Hb (k_cat n) (proj2 (elem_of_kinds_cat _ _) Hin)) as H. ss. rewrite Ec in H. by injection H.
Qed.

(** C17. Reservations are honoured until [QUIT]: while a category runs fewer commands
    than it has reserved threads, a task injected for it starts at once on some worker,
    whatever else is running, and nothing is queued. *)
Theorem reserved_task_starts t cs tagged s n c command_ remote_ cb :
  reach t cs tagged s → cats s !! n = Some c → active_threads c < reserved_threads c →
  ∃ s' x, proxy_inject_task n command_ remote_ cb s = Ok s' ∧ pending_commands s' = pending_commands s ∧
    busy_runs s' ≡ₚ x :: busy_runs s ∧ to_run x = run_injected cb ∧ kind_of x = k_cat n ∧
    cats s' !! n = Some (set_active_threads (active_threads c + 1) c).
Proof.
  intros Hr Ec Hlt. destruct (reach_inv _ _ _ _ Hr) as (names & res & gen & Hn & Hres & Hg & Hsl & [[Hc Hb] _ _]).
  unfold proxy_inject_task. rewrite Ec. assert (no_slot c s = false) as E0 by (unfold no_slot; lia). rewrite E0.
  destruct (no_slot_false names res gen n c s (conj Hc Hb) Ec E0) as [Hin Hs]. unfold start_command.
  destruct (dispatch names res gen Hn Hres (pending_commands s) (k_cat n) (load_injected n command_ remote_ cb) s)
    as (y & e & idle & ws & E & Hbs & _ & _); [done|done|by apply elem_of_kinds_cat|done|done|].
  rewrite E. cbn [mbind outcome_bind]. unfold update_cat. ss. rewrite Ec.
  eexists _, (proxy_run_worker (load_injected n command_ remote_ cb y)).1. split_and!; [done|done|exact Hbs| | |].
  - unfold proxy_run_worker. by destruct (worker_thread _).
  - unfold proxy_run_worker. by destruct (worker_thread _).
  - ss. apply lookup_insert_eq.
Qed.

(** C13. Batches are neither leaked nor used after deletion: the live [Batch] objects
    are exactly the ones in [batches] and exactly the ones with a task queued or
    running.  A live batch either has jobs left, each queued or running once with its
    count of outstanding jobs equal to their number, or has no job left and exactly
    one completion task. *)
Theorem batches_owned t cs tagged s :
  reach t cs tagged s →
  dom (heap s) = batches s ∧
  (∀ p, p ∈ batches s ↔ ∃ j, (p, j) ∈ tasks s) ∧
  ∀ p b, heap s !! p = Some b →
    (numbers p (tasks s) = [-1] ∧ is_Some (complete b) ∧ jobs_outstanding b = 0) ∨
    (jobs_outstanding b = Z.of_nat (length (numbers p (tasks s))) ∧ 0 < jobs_outstanding b ∧
     NoDup (numbers p (tasks s)) ∧ ∀ j, j ∈ numbers p (tasks s) → 0 <= j < Z.of_nat (length (jobs b))).
Proof.
  intros Hr. destruct (reach_inv _ _ _ _ Hr) as (names & res & gen & _ & _ & _ & _ & [_ _ Ho]).
  split_and!; [by apply (own_dom _ _ _ _ Ho)| |].
  - intros p. split; [|intros [j Hj]; by eapply own_task].
    rewrite <-(own_dom _ _ _ _ Ho), elem_of_dom. intros [b Eb]. destruct (own_live _ _ _ _ Ho p b Eb) as [_ Hl].
    assert (numbers p (tasks s) ≠ []) as Hne by (destruct Hl as [(-> & _)|(? & _)]; done).
    destruct (numbers p (tasks s)) as [|j js] eqn:E; [done|]. exists j. apply elem_of_numbers. rewrite E. by left.
  - intros p b Eb. destruct (own_live _ _ _ _ Ho p b Eb) as [_ [(? & ? & ?)|(Hne & Hj & Hlt & Hnd & Hr')]]; [by left|].
    right. split_and!; try done. rewrite Hj. destruct (numbers p (tasks s)); [done|]. cbn. lia.
Qed.

(** C14. A round of [proxy_process_queue] before [QUIT] ends; what it takes off the
    queues it starts, and it leaves nothing that could have been started
    ([round_starts]).  Batch jobs and reply jobs are taken from the front of their
    queues, pending commands in queue order, of each category from the front; these are
    loaded in that order, each onto a different worker that was idle or is newly
    created, which is signalled; no other worker is touched, and every idle tagged
    worker is given the first job of its queue.  Afterwards an idle tagged worker has
    an empty queue, batch or reply jobs are left only when there is no slot for them,
    and so is every pending command. *)
Theorem process_queue_work_conserving t cs tagged s :
  reach t cs tagged s →
  ∃ s', proxy_process_queue s = Ok s' ∧
    (∀ i r q, tagged_workers s' !! i = Some (r, false, q) → q = []) ∧
    (∀ reply, jobs_queue reply s' = [] ∨ batch_slot reply s' = false) ∧
    (∀ p, p ∈ pending_commands s' → ∃ c, cats s' !! pc_cat p = Some c ∧ no_slot c s' = true) ∧
    round_starts s s'.
Proof.
  intros Hr. destruct (reach_inv _ _ _ _ Hr) as (names & res & gen & Hn & Hres & Hg & Hsl & Hi).
  pose proof (slots_pos names res gen Hres Hg) as Hpos.
  destruct (process_queue_ok names res gen Hn Hres s (inv_acct _ _ _ _ Hi)) as (s' & E & [Hc Hb] & _ & [S1 S2 S3 S4]).
  { rewrite (a_max _ _ _ _ _ (proj1 (inv_acct _ _ _ _ Hi))). lia. }
  exists s'. split_and!; [done| | | |done].
  - intros i r q Ei. by eapply S1.
  - intros reply. destruct (S2 reply) as [|Hf]; [by left|right]. apply not_true_is_false. intros Hs.
    eapply (slot_not_full names res gen _ (k_job reply) s'); [done|done|apply elem_of_kinds_job| |done].
    by apply (batch_slot_slot names res gen Hn Hres _ _ _ Hc Hb).
  - intros p Hp. pose proof (S3 p Hp) as Hf. pose proof (a_pending _ _ _ _ _ Hc p Hp) as Hin.
    destruct (proj2 (a_cats _ _ _ _ _ Hc _) Hin) as [c Ec]. exists c. split; [done|].
    destruct (no_slot c s') eqn:En; [done|]. exfalso.
    destruct (no_slot_false names res gen _ c s' (conj Hc Hb) Ec En) as [_ Hs].
    eapply (slot_not_full names res gen _ (k_cat (pc_cat p)) s'); [done|done|by apply elem_of_kinds_cat|done|done].
Qed.

(** ** A concrete run

    One general slot, no slots for jobs, a category ["a"] with a reserved thread and
    one ["d"] without, and a tagged thread. *)
Definition demo_threads : thread_config := mkThreads 1 0 0.
Definition demo_cat (reserved : Z) : category := mkCategory default_access ∅ reserved 0 (-1) 0.
Definition demo_cats : gmap bytes category := <[B "a" := demo_cat 1]> (<[B "d" := demo_cat 0]> ∅).
Definition ok_or {A} (d : A) (o : outcome A) : A := match o with Ok a => a | _ => d end.
Definition demo_tagged : list (run_info * bool * list batch_job) :=
  (ok_or (0, []) (add_tagged_thread false (B "x") [])).2.

Definition no_sched : sched := mkSched 0 0 0 [] [] [] ∅ ∅ [] [] 0 0 0 0 ∅ [] false [].
Definition demo_batch : Batch := add_job_thread 5 1 (add_job_thread 4 0 new_batch).

Definition demo0 : sched := ok_or no_sched (proxy_start demo_threads demo_cats demo_tagged).
Definition demo1 : sched := ok_or no_sched (handle (in_batch 7 demo_batch) demo0).
Definition demo2 : sched := ok_or no_sched (handle in_process demo1).
Definition demo3 : sched := ok_or no_sched (handle (in_inject (B "d") (B "c") (B "r") 9) demo2).

Lemma demo_start : start_ok demo_cats demo_tagged.
Proof.
  apply (add_tagged_thread_start (B "x") demo_cats [] 1); [|vm_compute; reflexivity]. split; [|done].
  intros n c. unfold demo_cats. rewrite !lookup_insert_Some, lookup_empty. naive_solver (vm_compute; congruence || done).
Qed.

Lemma demo0_reach : reach demo_threads demo_cats demo_tagged demo0.
Proof. apply reach_start; [apply demo_start|vm_compute; reflexivity|vm_compute; reflexivity]. Qed.

Lemma demo1_reach : reach demo_threads demo_cats demo_tagged demo1.
Proof.
  apply (reach_step _ _ _ (in_batch 7 demo_batch) demo0); [apply demo0_reach| |vm_compute; reflexivity].
  cbn [enabled]. split_and!; [| |done|done| |].
  - apply not_elem_of_dom. vm_compute. reflexivity.
  - apply batch_ok_add_thread; [apply batch_ok_add_thread; [apply batch_ok_new|]|]; vm_compute; reflexivity.
  - done.
  - repeat constructor; vm_compute; done.
Qed.

Lemma demo_reach : reach demo_threads demo_cats demo_tagged demo3.
Proof.
  apply (reach_step _ _ _ (in_inject (B "d") (B "c") (B "r") 9) demo2); [|vm_compute; by eauto|vm_compute; reflexivity].
  apply (reach_step _ _ _ in_process demo1); [apply demo1_reach|done|vm_compute; reflexivity].
Qed.

Lemma proxy_never_fails_witness :
  ∃ s', handle (in_ran false 0) demo3 = Ok s' ∧ reach demo_threads demo_cats demo_tagged s'.
Proof.
  apply (proxy_never_fails demo_threads demo_cats demo_tagged demo3 (in_ran false 0) demo_reach).
  split; [vm_compute; lia|]. apply (bool_decide_unpack _). vm_compute. exact I.
Defined.

Lemma worker_pool_bounded_witness :
  Z.of_nat (length (workers demo3)) <= max_workers demo3 ∧ max_workers demo3 = total_slots demo3 ∧
  Z.of_nat (capacity demo3) = max_workers demo3.
Proof. apply (worker_pool_bounded demo_threads demo_cats demo_tagged demo3 demo_reach). Defined.

Lemma scheduler_books_exact_witness :
  active_workers demo3 = Z.of_nat (length (busy_runs demo3)) ∧
  (∀ reply, jobs_active reply demo3 = busy_count (k_job reply) demo3) ∧
  (∀ n c, cats demo3 !! n = Some c →
    active_threads c = busy_count (k_cat n) demo3 ∧ queued c = pending_of n (pending_commands demo3)).
Proof. apply (scheduler_books_exact demo_threads demo_cats demo_tagged demo3 demo_reach). Defined.

Lemma reserved_task_starts_witness :
  ∃ s' x, proxy_inject_task (B "a") (B "x") (B "y") 3 demo3 = Ok s' ∧ pending_commands s' = pending_commands demo3 ∧
    busy_runs s' ≡ₚ x :: busy_runs demo3 ∧ to_run x = run_injected 3 ∧ kind_of x = k_cat (B "a") ∧
    cats s' !! B "a" = Some (set_active_threads 1 (demo_cat 1)).
Proof.
  apply (reserved_task_starts demo_threads demo_cats demo_tagged demo3 (B "a") (demo_cat 1) (B "x") (B "y") 3 demo_reach);
    vm_compute; reflexivity.
Defined.

Lemma batches_owned_witness :
  dom (heap demo3) = batches demo3 ∧
  (∀ p, p ∈ batches demo3 ↔ ∃ j, (p, j) ∈ tasks demo3) ∧
  ∀ p b, heap demo3 !! p = Some b →
    (numbers p (tasks demo3) = [-1] ∧ is_Some (complete b) ∧ jobs_outstanding b = 0) ∨
    (jobs_outstanding b = Z.of_nat (length (numbers p (tasks demo3))) ∧ 0 < jobs_outstanding b ∧
     NoDup (numbers p (tasks demo3)) ∧ ∀ j, j ∈ numbers p (tasks demo3) → 0 <= j < Z.of_nat (length (jobs b))).
Proof. apply (batches_owned demo_threads demo_cats demo_tagged demo3 demo_reach). Defined.

Lemma process_queue_work_conserving_witness :
  jobs_queue false demo1 = [(7%nat, 0)] ∧ ∃ s', proxy_process_queue demo1 = Ok s' ∧
    (∀ i r q, tagged_workers s' !! i = Some (r, false, q) → q = []) ∧
    (∀ reply, jobs_queue reply s' = [] ∨ batch_slot reply s' = false) ∧
    (∀ p, p ∈ pending_commands s' → ∃ c, cats s' !! pc_cat p = Some c ∧ no_slot c s' = true) ∧
    round_starts demo1 s'.
Proof. split; [vm_compute; reflexivity|]. apply (process_queue_work_conserving demo_threads demo_cats demo_tagged demo1 demo1_reach). Defined.

(** The whole life of a batch: both jobs run, the second to end deletes it; the
    queued command is started by the next round. *)
Example demo_batch_deleted :
  match (s ← handle (in_ran false 0) demo3; s ← handle (in_ran true 0) s; handle in_process s) with
  | Ok s => batches s = ∅ ∧ heap s = ∅ ∧ tasks s = [] ∧ pending_commands s = [] ∧ ev_delete 7 ∈ events s
  | _ => False
  end.
Proof. vm_compute. split_and!; try reflexivity. by repeat (left || right). Qed.

(** Both slots of the pool have been used and are idle again. *)
Definition demo_inject (name : bytes) : input := in_inject name (B "c") (B "r") 9.
Definition full1 : sched := ok_or no_sched (handle (demo_inject (B "d")) demo0).
Definition full2 : sched := ok_or no_sched (handle (demo_inject (B "a")) full1).
Definition full3 : sched := ok_or no_sched (handle (in_ran false 0) full2).
Definition demo_full : sched := ok_or no_sched (handle (in_ran false 1) full3).

Lemma demo_full_reach : reach demo_threads demo_cats demo_tagged demo_full.
Proof.
  apply (reach_step _ _ _ (in_ran false 1) full3); [| |vm_compute; reflexivity].
  - apply (reach_step _ _ _ (in_ran false 0) full2); [| |vm_compute; reflexivity].
    + apply (reach_step _ _ _ (demo_inject (B "a")) full1); [|vm_compute; by eauto|vm_compute; reflexivity].
      apply (reach_step _ _ _ (demo_inject (B "d")) demo0); [apply demo0_reach|vm_compute; by eauto|vm_compute; reflexivity].
    + apply (bool_decide_unpack _). vm_compute. exact I.
  - apply (bool_decide_unpack _). vm_compute. exact I.
Qed.

(** After [QUIT] the bound is lost: idle workers are told to quit and forgotten,
    but their elements stay in the vector, so a task for a category with a free
    reserved thread asks for one worker more than there is room for, and the assertion
    in [get_idle_worker] fails. *)
Theorem quit_overflows_workers :
  reach demo_threads demo_cats demo_tagged demo_full ∧
  proxy_inject_task (B "a") (B "c") (B "r") 9 (proxy_quit_command demo_full) = UB.
Proof. split; [apply demo_full_reach|vm_compute; reflexivity]. Qed.
