(* ===== verification/Timers.v ===== *)
(** jobs.cpp: timers, which put a job in the batch queues whenever zmq reports them
    due, and the squelching of a timer whose last job has not ended. *)
From S2P Require Import Prelude BtValue BtSerialize BtCodec Commands Connections Control Auth Batch Admission Scheduler BatchOwner SchedulerInv Frame Proxy.
Open Scope Z_scope.

(** ** Data *)
Record timer_data : Type := mkTimer {
  td_function : callback;
  td_squelch : bool;
  td_running : bool;
  td_thread : Z
}.

(** [timer_jobs] by zmq's timer id, [timer_zmq_id] by ours.  The completion function
    of a squelched timer's batch is a closure over the timer's id: [closures] has what
    the batch at an address captured. *)
Record timers : Type := mkTimers {
  timers_created : bool;
  timer_jobs : gmap Z timer_data;
  timer_zmq_id : gmap Z Z;
  closures : gmap ptr Z
}.

(** Calls to zmq, and jobs that run on the proxy thread itself. *)
Inductive timer_effect : Type :=
  | te_add (zmq_id interval : Z)          (* zmq_timers_add *)
  | te_cancel (zmq_id : Z)                (* zmq_timers_cancel *)
  | te_call (f : callback).               (* func() in the proxy thread *)

Definition no_timers : timers := mkTimers false ∅ ∅ ∅.

(** ** Operations *)

(** [proxy_timer]: [zmq_id] is what [zmq_timers_add] returns, -1 for an error.  The
    interval is converted to [size_t]. *)
Definition proxy_timer (zmq_id id : Z) (job : callback) (interval : Z) (squelch : bool) (thread : Z) (t : timers)
    : outcome (timers * list timer_effect) :=
  if zmq_id =? -1 then Throw zmq_error_t
  else Ok (mkTimers true (<[zmq_id := mkTimer job squelch false thread]> (timer_jobs t)) (<[id := zmq_id]> (timer_zmq_id t))
             (closures t), [te_add zmq_id (interval mod 2 ^ 64)]).

(** [add_timer]: a new id; a running proxy is sent a [TIMER] command, before that the
    timer is added directly.  The result: the id, [next_timer_id], the command's data
    if one is sent, the timers and the effects. *)
Definition add_timer (joinable : bool) (zmq_id next_timer_id : Z) (job : callback) (interval : Z) (squelch : bool)
    (thread : option Z) (t : timers) : outcome (Z * Z * option bytes * timers * list timer_effect) :=
  let id := next_timer_id in
  let next := it_cast c_int (next_timer_id + 1) in
  if joinable then Ok (id, next, Some (timer_control_data id job interval squelch thread), t, [])
  else '(t, effs) ← proxy_timer zmq_id id job interval squelch (default 0 thread) t; Ok (id, next, None, t, effs).

Definition proxy_timer_del (id : Z) (t : timers) : timers * list timer_effect :=
  if negb (timers_created t) then (t, [])
  else match timer_zmq_id t !! id with
       | None => (t, [])
       | Some zmq_id => (mkTimers true (timer_jobs t) (delete id (timer_zmq_id t)) (closures t), [te_cancel zmq_id])
       end.

Definition cancel_timer (joinable : bool) (id : Z) (t : timers) : option bytes * timers * list timer_effect :=
  if joinable then (Some (bt_serialize_int id), t, [])
  else let (t, effs) := proxy_timer_del id t in (None, t, effs).

Definition set_running (b : bool) (d : timer_data) : timer_data := mkTimer (td_function d) (td_squelch d) b (td_thread d).

(** The closure the batch holds as its completion function. *)
Definition timer_completion : callback := 0%nat.

(** The batch of one firing: the job on its thread, and for a squelched timer the
    completion function, which runs in the proxy. *)
Definition timer_batch (d : timer_data) : outcome Batch :=
  let b := add_job_thread (td_function d) (td_thread d) new_batch in
  if td_squelch d then completion timer_completion (Some (-1)) b else Ok b.

(** [_queue_timer_job]: zmq calls it with the id of a timer that is due; [p] is the
    address of a new batch. *)
Definition _queue_timer_job (p : ptr) (timer_id : Z) (t : timers) (s : sched) : outcome (timers * sched * list timer_effect) :=
  match timer_jobs t !! timer_id with
  | None => Ok (t, s, [])
  | Some d =>
      if td_squelch d && td_running d then Ok (t, s, [])
      else if td_thread d =? -1 then Ok (t, s, [te_call (td_function d)])
      else
        b ← timer_batch d;
        let t := if td_squelch d
                 then mkTimers (timers_created t) (<[timer_id := set_running true d]> (timer_jobs t)) (timer_zmq_id t)
                        (<[p := timer_id]> (closures t))
                 else t in
        let s := alloc_batch p b s in
        let s := with_batches ({[p]} ∪ batches s) s in
        if bool_decide (batch_size b = (1%nat, 0 <? td_thread d)) then
          s ← (if 0 <? td_thread d then push_tagged (td_thread d) (p, 0) s else Ok (push_job false (p, 0) s));
          Ok (t, s, [])
        else UB
  end.

(** The completion function of the batch at [p], called by the proxy: the timer may
    fire again.  The closure goes with the batch. *)
Definition timer_completed (p : ptr) (t : timers) : timers :=
  match closures t !! p with
  | None => t
  | Some timer_id =>
      mkTimers (timers_created t)
        (match timer_jobs t !! timer_id with
         | Some d => <[timer_id := set_running false d]> (timer_jobs t)
         | None => timer_jobs t
         end)
        (timer_zmq_id t) (delete p (closures t))
  end.

(** ** Together with the scheduler *)

(** The in-proxy completions among a handler's events, oldest first. *)
Definition completions (k : list event) : list ptr :=
  omap (λ e, match e with ev_completion p => Some p | _ => None end) (rev k).

Definition new_events (s s' : sched) : list event := take (length (events s') - length (events s)) (events s').

Definition timed_handle (i : input) (t : timers) (s : sched) : outcome (timers * sched) :=
  s' ← handle i s;
  Ok (foldl (λ t p, timer_completed p t) t (completions (new_events s s')), s').

Inductive timed_input : Type :=
  | ti_add (zmq_id id : Z) (job : callback) (interval : Z) (squelch : bool) (thread : Z)
  | ti_del (id : Z)
  | ti_fire (p : ptr) (timer_id : Z)
  | ti_sched (i : input).

Definition timed_step (i : timed_input) (ts : timers * sched) : outcome (timers * sched * list timer_effect) :=
  let (t, s) := ts in
  match i with
  | ti_add zmq_id id job interval squelch thread =>
      '(t, effs) ← proxy_timer zmq_id id job interval squelch thread t; Ok (t, s, effs)
  | ti_del id => let (t, effs) := proxy_timer_del id t in Ok (t, s, effs)
  | ti_fire p timer_id => _queue_timer_job p timer_id t s
  | ti_sched i => '(t, s) ← timed_handle i t s; Ok (t, s, [])
  end.

(** zmq numbers its timers without reusing a number; addresses of new batches are not
    in use; thread ids exist. *)
Definition timed_enabled (i : timed_input) (ts : timers * sched) : Prop :=
  match i with
  | ti_add zmq_id _ _ _ _ thread => zmq_id ≠ -1 ∧ zmq_id ∉ dom (timer_jobs ts.1) ∧ thread_id_ok ts.2 thread
  | ti_del _ => True
  | ti_fire p _ => p ∉ dom (heap ts.2)
  | ti_sched i => enabled i ts.2
  end.

(** Timers set before the proxy runs: none has fired yet, and their threads exist. *)
Definition idle_timers (nt : nat) (t : timers) : Prop :=
  closures t = ∅ ∧ ∀ z d, timer_jobs t !! z = Some d → td_running d = false ∧ -1 <= td_thread d <= Z.of_nat nt.

Lemma idle_no_timers nt : idle_timers nt no_timers.
Proof. split; [done|]. intros z d Hd. cbn in Hd. by rewrite lookup_empty in Hd. Qed.

(** The states before [QUIT]. *)
Inductive timed_reach (th : thread_config) (cs : gmap bytes category) (tagged : list (run_info * bool * list batch_job))
    : timers * sched → Prop :=
  | timed_start t s : start_ok cs tagged → proxy_start th cs tagged = Ok s → max_workers s < 2 ^ 31 →
      idle_timers (length tagged) t → timed_reach th cs tagged (t, s)
  | timed_next i ts ts' effs : timed_reach th cs tagged ts → timed_enabled i ts → timed_step i ts = Ok (ts', effs) →
      timed_reach th cs tagged ts'.

(** ** The invariant *)

(** The batch of a squelched timer: one job, then the completion in the proxy. *)
Definition one_shot (b : Batch) : Prop :=
  jobs_outstanding b = 1 ∧ length (jobs b) = 1%nat ∧ is_Some (complete b) ∧ complete_in_thread b = -1.

(** A squelched timer is marked running exactly while a batch of it is alive, and
    there is never more than one. *)
Record timers_ok (t : timers) (s : sched) : Prop := {
  tk_closure p z : closures t !! p = Some z →
    (∃ b, heap s !! p = Some b ∧ one_shot b) ∧
    ∃ d, timer_jobs t !! z = Some d ∧ td_squelch d = true ∧ td_running d = true;
  tk_one p q z : closures t !! p = Some z → closures t !! q = Some z → p = q;
  tk_running z d : timer_jobs t !! z = Some d → td_running d = true → ∃ p, closures t !! p = Some z;
  tk_thread z d : timer_jobs t !! z = Some d → thread_id_ok s (td_thread d)
}.

Lemma new_events_app s s' k : events s' = k ++ events s → new_events s s' = k.
Proof.
  intros E. unfold new_events. rewrite E, length_app, Nat.add_sub. apply take_app_length.
Qed.

Lemma completions_quiet k : Forall quiet k → completions k = [].
Proof.
  intros H. unfold completions. apply Forall_rev in H. induction H as [|e l He _ IH]; [done|].
  destruct e; try done; exact IH.
Qed.

Lemma timers_ok_acts k t s s' : acts_with k s s' → timers_ok t s → timers_ok t s'.
Proof.
  intros Ha [H1 H2 H3 H4]. pose proof (act_heap _ _ _ Ha) as Hh. pose proof (act_tagged _ _ _ Ha) as Ht. split; [|done|done|].
  - intros p z Hp. destruct (H1 p z Hp) as [(b & Hb & Ho) Hd]. split; [|done]. exists b. split; [|done].
    by eapply lookup_weaken.
  - intros z d Hd. unfold thread_id_ok in *. rewrite Ht. by eapply H4.
Qed.

(** A one-shot batch has its one job queued or running. *)
Lemma one_shot_job n h bs ts p j b : owned n h bs ts → h !! p = Some b → one_shot b → (p, j) ∈ ts → j = 0.
Proof.
  intros Ho Hb (Hout & Hl & _) Hj%elem_of_numbers. destruct (own_live _ _ _ _ Ho p b Hb) as [_ [(_ & _ & H)|(_ & Hn & _ & _ & Hr)]].
  - lia.
  - apply Hr in Hj. lia.
Qed.

(** The batch of a timer that is not done is among those alive; its end frees the
    timer. *)
Lemma timers_ok_fate p j t s s' k :
  timers_ok t s → ran_fate (p, j) (heap s) = Some (heap s', k) →
  (∀ b, heap s !! p = Some b → one_shot b → j = 0) → length (tagged_workers s') = length (tagged_workers s) →
  timers_ok (foldl (λ t p, timer_completed p t) t (completions k)) s'.
Proof.
  intros [H1 H2 H3 H4] Hf Hj Hl.
  assert (∀ z d, timer_jobs t !! z = Some d → thread_id_ok s' (td_thread d)) as H4'.
  { intros z d Hd. unfold thread_id_ok in *. rewrite Hl. by eapply H4. }
  destruct (closures t !! p) as [z|] eqn:Ep.
  - destruct (H1 p z Ep) as [(b & Hb & Hs) (d & Hd & Hsq & Hr)]. rewrite (Hj b Hb Hs) in Hf. unfold ran_fate in Hf.
    destruct Hs as (Hout & _ & [comp Hc] & Ht). cbn [fst snd Z.eqb] in Hf. rewrite Hb in Hf. cbn [mbind option_bind] in Hf.
    rewrite (job_finished_last b Hout) in Hf. cbv zeta in Hf. rewrite Hc in Hf. cbn [bs_state bs_thread] in Hf. rewrite Ht in Hf.
    cbn [Z.eqb Pos.eqb] in Hf. injection Hf as Hh <-. cbn. unfold timer_completed. rewrite Ep, Hd. split; cbn.
    + intros q z' [Hqp Hq]%lookup_delete_Some. destruct (H1 q z' Hq) as [(b' & Hb' & Hs') Hd']. split.
      * exists b'. split; [|done]. rewrite <-Hh. by rewrite lookup_delete_ne.
      * rewrite lookup_insert_ne; [done|]. intros ->. by apply Hqp, (H2 p q z').
    + intros q q' z' [_ Hq]%lookup_delete_Some [_ Hq']%lookup_delete_Some. by eapply H2.
    + intros z' d' [(<- & <-)|(Hz & Hd')]%lookup_insert_Some Hr'; [done|]. destruct (H3 z' d' Hd' Hr') as [q Hq].
      exists q. apply lookup_delete_Some. split; [|done]. intros <-. rewrite Ep in Hq. by injection Hq.
    + intros z' d' [(<- & <-)|(Hz & Hd')]%lookup_insert_Some; [by eapply (H4' z d)|by eapply H4'].
  - assert (foldl (λ t p, timer_completed p t) t (completions k) = t ∧ ∀ q, q ≠ p → heap s' !! q = heap s !! q) as [-> Hh].
    { unfold ran_fate in Hf. cbn [fst snd] in Hf. destruct (j =? -1); [injection Hf as <- <-|].
      { split; [done|]. intros q Hq. by rewrite lookup_delete_ne. }
      destruct (heap s !! p) as [b|]; [|done]. cbn [mbind option_bind] in Hf. destruct (job_finished b) as [st b'].
      destruct (bs_state st); [|destruct (bs_thread st =? -1)|]; injection Hf as <- <-; cbn; unfold timer_completed; rewrite ?Ep;
        (split; [done|]); intros q Hq; by rewrite ?lookup_delete_ne, ?lookup_insert_ne by done. }
    split; [|done|done|done]. intros q z Hq. destruct (H1 q z Hq) as [(b & Hb & Hs) Hd]. split; [|done].
    exists b. split; [|done]. rewrite Hh; [done|]. intros ->. congruence.
Qed.

(** The job a busy worker runs is one of the tasks. *)
Lemma busy_run_task (tagged : bool) w run p s :
  busy_in s (tagged, w) = 1 → get_run tagged w s = Some run → is_batch_job run = true → to_run run = run_batch (Some p) →
  (p, batch_jobno run) ∈ tasks s.
Proof.
  intros Hb Hg Hj Ht. assert (run_task run = Some (p, batch_jobno run)) as Hr by (unfold run_task; by rewrite Hj, Ht).
  unfold busy_in, get_run, tasks, pool_free_tasks in *. cbn [fst snd] in *. rewrite !elem_of_app. destruct tagged.
  - destruct (tagged_workers s !! w) as [[[r b] q]|] eqn:Ew; [|done]. injection Hg as ->. destruct b; [|done].
    left. right. right. apply list_elem_of_bind. exists (run, true, q). split; [|by eapply list_elem_of_lookup_2].
    unfold tagged_task. cbn. rewrite Hr. apply elem_of_app. right. by left.
  - right. apply list_elem_of_omap. exists run. split; [|done]. case_decide as Hw; [|done]. destruct Hw as [_ Hn].
    unfold busy_runs. rewrite (busy_take _ _ w run Hg Hn). by left.
Qed.

(** The batch of a firing has one job. *)
Lemma timer_batch_spec d :
  0 <= td_thread d →
  ∃ b, timer_batch d = Ok b ∧ batch_size b = (1%nat, 0 <? td_thread d) ∧ threads b = [td_thread d] ∧
    jobs_outstanding b = 1 ∧ complete_in_thread b <= 0 ∧ (td_squelch d = true → one_shot b).
Proof.
  intros H0. unfold timer_batch. set (b := add_job_thread _ _ _).
  assert (batch_size b = (1%nat, 0 <? td_thread d)) as Hsz.
  { subst b. unfold batch_size. cbn. f_equal. destruct (td_thread d =? 0) eqn:E; lia. }
  destruct (td_squelch d); eexists; (split; [reflexivity|]); split_and!; try done.
Qed.

(** A squelched timer that is not running starts. *)
Lemma timers_ok_fired p b z d t s :
  timers_ok t s → closures t !! p = None → heap s !! p = Some b → one_shot b →
  timer_jobs t !! z = Some d → td_squelch d = true → td_running d = false →
  timers_ok (mkTimers (timers_created t) (<[z := set_running true d]> (timer_jobs t)) (timer_zmq_id t) (<[p := z]> (closures t))) s.
Proof.
  intros [H1 H2 H3 H4] Hp Hb Hs Hd Hsq Hr.
  assert (∀ q, closures t !! q ≠ Some z) as Hno.
  { intros q Hq. destruct (H1 q z Hq) as [_ (d' & Hd' & _ & Hr')]. congruence. }
  split; cbn.
  - intros q z' [(<- & <-)|(Hq & Hz)]%lookup_insert_Some.
    + split; [by eauto|]. exists (set_running true d). by rewrite lookup_insert_eq.
    + destruct (H1 q z' Hz) as [Hb' Hd']. split; [done|]. rewrite lookup_insert_ne; [done|]. intros <-. by apply (Hno q).
  - intros q q' z' [(<- & <-)|(Hq & Hz)]%lookup_insert_Some [(<- & E')|(Hq' & Hz')]%lookup_insert_Some; [done| | |by eapply H2].
    + by apply Hno in Hz'.
    + rewrite <-E' in Hz. by apply Hno in Hz.
  - intros z' d' [(<- & <-)|(Hz & Hd')]%lookup_insert_Some Hr'; [exists p; by rewrite lookup_insert_eq|].
    destruct (H3 z' d' Hd' Hr') as [q Hq]. exists q. rewrite lookup_insert_ne; [done|]. intros <-. congruence.
  - intros z' d' [(<- & <-)|(Hz & Hd')]%lookup_insert_Some; [by apply (H4 z d)|by eapply H4].
Qed.

(** ** Steps *)
Section steps.
Context (names : list bytes) (res : kind → Z) (gen : Z).
Context (Hnames : NoDup names) (Hres : ∀ k, 0 <= res k) (Hgen : 0 < gen) (Hslots : slots (kinds names) res gen < 2 ^ 31).

Record timed_ok (ts : timers * sched) : Prop := {
  to_inv : inv names res gen ts.2;
  to_ids : ids_ok ts.2;
  to_loads : loads_ok ts.2;
  to_timers : timers_ok ts.1 ts.2
}.

Lemma inv_skip b s : inv names res gen (with_proxy_skip_one_poll b s) → inv names res gen s.
Proof. intros [[[] ?] ? ?]. by split; [split; [split|]|..]. Qed.

(** A batch with one job is queued the way [proxy_batch] does it. *)
Lemma timer_enqueued p b thread s :
  inv names res gen s → p ∉ dom (heap s) → 0 <= thread <= Z.of_nat (length (tagged_workers s)) →
  batch_size b = (1%nat, 0 <? thread) → threads b = [thread] → jobs_outstanding b = 1 → complete_in_thread b <= 0 →
  let s1 := with_batches ({[p]} ∪ batches s) (alloc_batch p b s) in
  ∃ s2, (if 0 <? thread then push_tagged thread (p, 0) s1 else Ok (push_job false (p, 0) s1)) = Ok s2 ∧
    inv names res gen s2 ∧ acts s s2 ∧ heap s2 = <[p := b]> (heap s) ∧ tasks s2 ≡ₚ (p, 0) :: tasks s.
Proof.
  intros Hi Hp Hth Hsz Hthr Hout Hc s1.
  assert (acts s s1) as Ha by (transitivity (alloc_batch p b s); [by apply alloc_acts|apply acts_same; reflexivity]).
  assert (length (jobs b) = 1%nat) as Hlen by (unfold batch_size in Hsz; congruence).
  destruct (proxy_batch_ok names res gen p b s Hi Hp) as (s3 & E3 & Hi3 & _).
  { split_and!; [lia|by destruct (jobs b)|by rewrite Hlen|by rewrite Hlen]. }
  { rewrite Hthr. apply Forall_singleton. lia. }
  unfold proxy_batch in E3. change (heap (alloc_batch p b s)) with (<[p := b]> (heap s)) in E3.
  rewrite lookup_insert_eq, Hsz in E3. cbv zeta in E3. rewrite Hthr in E3. cbn [queue_jobs replicate] in E3.
  change (Z.of_nat 0) with 0 in E3. change (with_batches _ _) with s1 in E3. destruct (0 <? thread) eqn:E0; cbn [queue_jobs] in E3; rewrite ?E0 in E3.
  - destruct (push_tagged_ok thread (p, 0) s1) as (tw & E & _ & Hq & _); [unfold s1; ss; cbn; lia|]. rewrite E in E3 |- *.
    injection E3 as <-. eexists. split; [done|]. split_and!; [by eapply inv_skip|etrans; [exact Ha|by eapply push_tagged_acts]|done|].
    unfold tasks, pool_free_tasks. ss. rewrite Hq. change (busy_runs (with_tagged_workers tw s1)) with (busy_runs s).
    subst s1. cbn. solve_Permutation.
  - cbn in E3. injection E3 as <-. eexists. split; [done|]. split_and!; [by eapply inv_skip|etrans; [exact Ha|apply acts_same; reflexivity]|done|].
    unfold tasks, pool_free_tasks. ss. change (busy_runs (with_batch_jobs _ s1)) with (busy_runs s). subst s1. cbn. solve_Permutation.
Qed.

(** What a firing does when it does something: a batch with one job is queued. *)
Lemma queue_timer_job_ok p z d t s :
  timed_ok (t, s) → p ∉ dom (heap s) → timer_jobs t !! z = Some d → td_squelch d && td_running d = false → td_thread d ≠ -1 →
  ∃ t' s', _queue_timer_job p z t s = Ok (t', s', []) ∧ timed_ok (t', s') ∧ tasks s' ≡ₚ (p, 0) :: tasks s ∧
    closures t' = (if td_squelch d then <[p := z]> (closures t) else closures t) ∧ advances s s'.
Proof.
  intros [Hi Hids Hld Ht] Hp Hd Hsq Hth. cbn [fst snd] in *. destruct (tk_thread _ _ Ht z d Hd) as [Hlo Hhi].
  destruct (timer_batch_spec d) as (b & Eb & Hsz & Hthr & Hout & Hc & Hs); [lia|].
  destruct (timer_enqueued p b (td_thread d) s) as (s2 & E2 & Hi2 & Ha & Hh & Htk); [done|done|lia|done..|].
  unfold _queue_timer_job. rewrite Hd, Hsq, Eb. destruct (td_thread d =? -1) eqn:E1; [lia|].
  cbn [mbind outcome_bind]. cbv zeta. rewrite bool_decide_eq_true_2 by done. change (batches (alloc_batch p b s)) with (batches s).
  rewrite E2. cbn [mbind outcome_bind]. eexists _, s2. split; [done|].
  assert (advances s s2) as Hadv.
  { apply (advances_new p b 1); try done. unfold batch_size in Hsz. injection Hsz as -> _. done. }
  split; [|split_and!; [done|by destruct (td_squelch d)|done]].
  destruct (Ha Hids) as [k Hk]. split; [done|apply (act_ids _ _ _ Hk)|by apply (act_loads _ _ _ Hk)|]. cbn [fst snd].
  pose proof (timers_ok_acts k t s s2 Hk Ht) as Ht2. destruct (td_squelch d) eqn:Esq; [|done].
  apply (timers_ok_fired p b); try done; [|by rewrite Hh, lookup_insert_eq|by apply Hs].
  destruct (closures t !! p) as [z'|] eqn:E; [|done]. destruct (tk_closure _ _ Ht p z' E) as [(b' & Hb' & _) _].
  exfalso. apply Hp, elem_of_dom. by eauto.
Qed.

(** The scheduler's steps, with the completions they call. *)
Lemma timed_handle_ok i t s :
  timed_ok (t, s) → enabled i s → ∃ t' s', timed_handle i t s = Ok (t', s') ∧ timed_ok (t', s').
Proof using Hnames Hres Hgen Hslots.
  intros [Hi Hids Hld Ht] He. cbn [fst snd] in *. unfold timed_handle.
  destruct (handle_ok names res gen Hnames Hres Hgen Hslots i s Hi He) as (s' & E & Hi'). rewrite E. cbn [mbind outcome_bind].
  eexists _, _. split; [done|]. destruct (is_ran i) eqn:Er.
  - destruct i as [| | | | |tagged w|]; try done. destruct (ran_bound names res gen Hslots tagged w s Hi He) as [Hw Hlt].
    pose proof (ran_busy tagged w s He) as Hb. rewrite handle_ran in E by done.
    destruct (worker_ran_frame tagged w (routing_id tagged w) s s' Hids) as (Hids' & Hbs & Hl & Hrs & run & k & Hg & Ek & Hf); [|done|apply Hi|done|].
    { rewrite (a_max _ _ _ _ _ (proj1 (inv_acct _ _ _ _ Hi))). pose proof (slots_pos names res gen Hres Hgen). lia. }
    rewrite (new_events_app s s' k Ek). split; [done|done|by eapply worker_ran_loads|]. cbn [fst snd]. destruct (is_batch_job run) eqn:Ej.
    + destruct Hf as (p & Hp & Hf). eapply timers_ok_fate; [done|done| |done]. intros b Hbp Hos.
      eapply one_shot_job; [apply Hi|done|done|]. by eapply busy_run_task.
    + destruct Hf as [Hh ->]. cbn. destruct Ht as [H1 H2 H3 H4]. split; try done; [by rewrite Hh|].
      intros z d Hd. unfold thread_id_ok in *. rewrite Hl. by eapply H4.
  - destruct (handle_acts i s s' Hld He Er E Hids) as [k Hk]. rewrite (new_events_app s s' k (act_events _ _ _ Hk)).
    rewrite (completions_quiet k (act_quiet _ _ _ Hk)). 
    split; [done|apply (act_ids _ _ _ Hk)|by apply (act_loads _ _ _ Hk)|by eapply timers_ok_acts].
Qed.

Lemma timed_step_ok i ts :
  timed_ok ts → timed_enabled i ts → ∃ ts' effs, timed_step i ts = Ok (ts', effs) ∧ timed_ok ts'.
Proof using Hnames Hres Hgen Hslots.
  destruct ts as [t s]. intros Hok He. destruct i as [z id job interval squelch thread|id|p z|i]; cbn [timed_step timed_enabled fst snd] in *.
  - destruct He as (Hz & Hn & Hth). unfold proxy_timer. destruct (z =? -1) eqn:E; [lia|]. cbn [mbind outcome_bind].
    eexists _, _. split; [done|]. destruct Hok as [Hi Hids Hld [H1 H2 H3 H4]]. apply not_elem_of_dom in Hn.
    split; [done|done|done|]. split; cbn [fst snd timer_jobs closures] in *; [|done| |].
    + intros p z' Hp. destruct (H1 p z' Hp) as [Hb (d & Hd & Hr)]. split; [done|]. exists d.
      rewrite lookup_insert_ne; [done|]. intros ->. congruence.
    + intros z' d [(<- & <-)|(_ & Hd)]%lookup_insert_Some Hr; [done|by eapply H3].
    + intros z' d [(<- & <-)|(_ & Hd)]%lookup_insert_Some; [done|by eapply H4].
  - unfold proxy_timer_del. destruct (negb _); [by eauto|]. destruct (timer_zmq_id t !! id) as [z|]; [|by eauto].
    eexists _, _. split; [done|]. destruct Hok as [Hi Hids Hld []]. by split.
  - destruct (timer_jobs t !! z) as [d|] eqn:Hd; [|unfold _queue_timer_job; rewrite Hd; by eauto].
    destruct (td_squelch d && td_running d) eqn:Hsq; [unfold _queue_timer_job; rewrite Hd, Hsq; by eauto|].
    destruct (decide (td_thread d = -1)) as [Eth|Hth].
    { unfold _queue_timer_job. rewrite Hd, Hsq, Eth. cbn. by eauto. }
    destruct (queue_timer_job_ok p z d t s) as (t' & s' & E & Hok' & _); [done..|]. rewrite E. by eauto.
  - destruct (timed_handle_ok i t s Hok He) as (t' & s' & E & Hok'). rewrite E. cbn. by eauto.
Qed.
End steps.

Lemma proxy_start_tagged th cs tagged s : proxy_start th cs tagged = Ok s → tagged_workers s = tagged.
Proof. unfold proxy_start. destruct (_ <=? 0); [done|]. cbv zeta. by intros [= <-]. Qed.

Lemma idle_timers_ok th cs tagged t s : proxy_start th cs tagged = Ok s → idle_timers (length tagged) t → timers_ok t s.
Proof.
  intros Hs [Hc Hj]. split.
  - intros p z. by rewrite Hc, lookup_empty.
  - intros p q z. by rewrite Hc, lookup_empty.
  - intros z d Hd Hr. apply Hj in Hd as [Hd _]. congruence.
  - intros z d Hd. unfold thread_id_ok. rewrite (proxy_start_tagged _ _ _ _ Hs). by apply Hj in Hd as [_ ?].
Qed.

Lemma timed_reach_ok th cs tagged ts :
  timed_reach th cs tagged ts →
  ∃ names res gen, NoDup names ∧ (∀ k, 0 <= res k) ∧ 0 < gen ∧ slots (kinds names) res gen < 2 ^ 31 ∧ timed_ok names res gen ts.
Proof.
  induction 1 as [t s Hst Hs Hmax Hti|i ts ts' effs _ (names & res & gen & Hn & Hr & Hg & Hsl & Hok) He E].
  - destruct (reach_inv th cs tagged s) as (names & res & gen & Hn & Hr & Hg & Hsl & Hi); [by apply reach_start|].
    exists names, res, gen. split_and!; try done. split; [done|by eapply start_ids|by eapply start_loads|]. by eapply idle_timers_ok.
  - exists names, res, gen. split_and!; try done.
    destruct (timed_step_ok names res gen Hn Hr Hg Hsl i ts Hok He) as (ts2 & effs2 & E2 & Hok2). rewrite E in E2. by injection E2 as -> ->.
Qed.

(** ** Properties *)

(** C15. Jobs of a squelched timer never overlap, unless it runs in the proxy thread
    itself (thread -1, where its job is simply called): in every state reachable before
    [QUIT] the timer is marked running exactly when a batch of it is alive, there is at
    most one such batch, and its single job is queued or running exactly once. When zmq
    reports the timer due, nothing changes while that batch is alive; otherwise one job
    is queued and the timer is marked running. *)
Theorem squelched_timer_exclusive th cs tagged t s z d p :
  timed_reach th cs tagged (t, s) → timer_jobs t !! z = Some d → td_squelch d = true → td_thread d ≠ -1 → p ∉ dom (heap s) →
  (td_running d = true ∧ _queue_timer_job p z t s = Ok (t, s, []) ∧
    ∃ q, closures t !! q = Some z ∧ numbers q (tasks s) = [0] ∧ ∀ q', closures t !! q' = Some z → q' = q) ∨
  (td_running d = false ∧ (∀ q, closures t !! q ≠ Some z) ∧
    ∃ t' s', _queue_timer_job p z t s = Ok (t', s', []) ∧ tasks s' ≡ₚ (p, 0) :: tasks s ∧
      closures t' = <[p := z]> (closures t) ∧ td_running <$> timer_jobs t' !! z = Some true).
Proof.
  intros Hr Hd Hsq Hth Hp. destruct (timed_reach_ok _ _ _ _ Hr) as (names & res & gen & Hn & Hres & Hg & Hsl & Hok).
  pose proof (to_timers _ _ _ _ Hok) as Ht. cbn in Ht. destruct (td_running d) eqn:Er; [left|right]; split; try done.
  - split; [unfold _queue_timer_job; by rewrite Hd, Hsq, Er|]. destruct (tk_running _ _ Ht z d Hd Er) as [q Hq].
    exists q. split; [done|]. split; [|intros q' Hq'; by eapply tk_one].
    destruct (tk_closure _ _ Ht q z Hq) as [(b & Hb & Hout & Hl & _) _].
    destruct (own_live _ _ _ _ (inv_owned _ _ _ _ (to_inv _ _ _ _ Hok)) q b Hb) as [_ [(_ & _ & H0)|(_ & Hn1 & _ & _ & Hr1)]]; [lia|].
    cbn [snd] in *. destruct (numbers q (tasks s)) as [|j [|j' js]] eqn:E; cbn in Hn1; try lia.
    specialize (Hr1 j ltac:(by left)). f_equal. lia.
  - split.
    + intros q Hq. destruct (tk_closure _ _ Ht q z Hq) as [_ (d' & Hd' & _ & Hr')]. congruence.
    + destruct (queue_timer_job_ok names res gen p z d t s Hok Hp Hd) as (t' & s' & E & Hok' & Htk & Hc & _); [by rewrite Hsq, Er|done|].
      exists t', s'. rewrite Hsq in Hc. split_and!; try done.
      destruct (tk_closure _ _ (to_timers _ _ _ _ Hok') p z) as [_ (d' & Hd' & _ & Hr')]; [cbn; by rewrite Hc, lookup_insert_eq|].
      cbn [fst] in Hd'. by rewrite Hd', <-Hr'.
Qed.

(** Timers and the scheduler together never fail: from every reachable state,
    adding, cancelling or firing a timer and every scheduler input that can occur are
    handled to the end, the completion of a timer's batch included. *)
Theorem timed_proxy_never_fails th cs tagged ts i :
  timed_reach th cs tagged ts → timed_enabled i ts →
  ∃ ts' effs, timed_step i ts = Ok (ts', effs) ∧ timed_reach th cs tagged ts'.
Proof.
  intros Hr He. destruct (timed_reach_ok _ _ _ _ Hr) as (names & res & gen & Hn & Hres & Hg & Hsl & Hok).
  destruct (timed_step_ok names res gen Hn Hres Hg Hsl i ts Hok He) as (ts' & effs & E & _). exists ts', effs. split; [done|].
  by eapply timed_next.
Qed.

(** A timer that was added can be cancelled once: cancelling tells zmq the id
    that [add_timer] got, whatever was done to other timers, and a second cancel does
    nothing. *)
Theorem timer_cancelled zmq_id id job interval squelch thread t :
  zmq_id ≠ -1 →
  ∃ t1 t2, proxy_timer zmq_id id job interval squelch thread t = Ok (t1, [te_add zmq_id (interval mod 2 ^ 64)]) ∧
    proxy_timer_del id t1 = (t2, [te_cancel zmq_id]) ∧ proxy_timer_del id t2 = (t2, []) ∧
    (∀ id', id' ≠ id → timer_zmq_id t2 !! id' = timer_zmq_id t !! id').
Proof.
  intros Hz. unfold proxy_timer. destruct (zmq_id =? -1) eqn:E; [lia|]. eexists _, _. split; [done|].
  unfold proxy_timer_del. cbn. rewrite lookup_insert_eq. split; [done|]. cbn. rewrite lookup_delete_eq.
  split; [done|]. intros id' Hid. by rewrite lookup_delete_ne, lookup_insert_ne by done.
Qed.

(** ** A concrete run: a squelched timer on the general threads *)
Definition timed_demo1 : timers := ok_or no_timers ('(t, _) ← proxy_timer 0 1 8 250 true 0 no_timers; Ok t).
Definition timed_demo2 : timers * sched :=
  ok_or (no_timers, no_sched) ('(t, s, _) ← _queue_timer_job 5 0 timed_demo1 demo0; Ok (t, s)).
Definition timed_demo3 : timers * sched :=
  ok_or (no_timers, no_sched) (timed_handle in_process timed_demo2.1 timed_demo2.2).

Lemma timed_demo1_reach : timed_reach demo_threads demo_cats demo_tagged (timed_demo1, demo0).
Proof.
  apply (timed_next _ _ _ (ti_add 0 1 8 250 true 0) (no_timers, demo0) _ [te_add 0 250]).
  - apply timed_start; [apply demo_start|vm_compute; reflexivity|vm_compute; reflexivity|apply idle_no_timers].
  - repeat split; try done; by vm_compute.
  - vm_compute. reflexivity.
Qed.

Lemma timed_demo2_reach : timed_reach demo_threads demo_cats demo_tagged timed_demo2.
Proof.
  apply (timed_next _ _ _ (ti_fire 5 0) (timed_demo1, demo0) _ []); [apply timed_demo1_reach|by vm_compute|vm_compute; reflexivity].
Qed.

Lemma squelched_timer_exclusive_witness :
  (true = true ∧ _queue_timer_job 6 0 timed_demo2.1 timed_demo2.2 = Ok (timed_demo2.1, timed_demo2.2, []) ∧
    ∃ q, closures timed_demo2.1 !! q = Some 0 ∧ numbers q (tasks timed_demo2.2) = [0] ∧ ∀ q', closures timed_demo2.1 !! q' = Some 0 → q' = q) ∨
  (true = false ∧ (∀ q, closures timed_demo2.1 !! q ≠ Some 0) ∧
    ∃ t' s', _queue_timer_job 6 0 timed_demo2.1 timed_demo2.2 = Ok (t', s', []) ∧ tasks s' ≡ₚ (6%nat, 0) :: tasks timed_demo2.2 ∧
      closures t' = <[6%nat := 0]> (closures timed_demo2.1) ∧ td_running <$> timer_jobs t' !! 0 = Some true).
Proof.
  apply (squelched_timer_exclusive demo_threads demo_cats demo_tagged timed_demo2.1 timed_demo2.2 0 (mkTimer 8 true true 0) 6
    timed_demo2_reach); by vm_compute.
Defined.

Lemma timed_proxy_never_fails_witness :
  ∃ ts' effs, timed_step (ti_sched in_process) timed_demo2 = Ok (ts', effs) ∧ timed_reach demo_threads demo_cats demo_tagged ts'.
Proof. apply (timed_proxy_never_fails _ _ _ timed_demo2 (ti_sched in_process) timed_demo2_reach). exact I. Defined.

Lemma timer_cancelled_witness :
  ∃ t1 t2, proxy_timer 4 1 8 250 true 0 no_timers = Ok (t1, [te_add 4 (250 mod 2 ^ 64)]) ∧
    proxy_timer_del 1 t1 = (t2, [te_cancel 4]) ∧ proxy_timer_del 1 t2 = (t2, []) ∧
    (∀ id', id' ≠ 1 → timer_zmq_id t2 !! id' = timer_zmq_id no_timers !! id').
Proof. apply (timer_cancelled 4 1 8 250 true 0 no_timers). done. Defined.

(** Once the job has run, the timer may fire again. *)
Example timer_fires_again :
  match timed_handle (in_ran false 0) timed_demo3.1 timed_demo3.2 with
  | Ok (t, s) => td_running <$> timer_jobs t !! 0 = Some false ∧ closures t = ∅ ∧ heap s = ∅
  | _ => False
  end.
Proof. vm_compute. done. Qed.

(** Cancelling leaves the entry of [timer_jobs] behind. *)
Example cancelled_timer_kept : timer_jobs (proxy_timer_del 1 timed_demo1).1 = timer_jobs timed_demo1.
Proof. reflexivity. Qed.
