(* ===== verification/Loop.v ===== *)
(** proxy.cpp: the proxy thread's loop.  Control messages of the clients are
    dispatched to the handlers, reports of workers, timers and messages of peers
    follow, and the queues are served. *)
From S2P Require Import Prelude BtValue BtSerialize BtCodec BtConsumer Address Commands Connections Control Auth Net NetInv Batch Admission Scheduler BatchOwner SchedulerInv Frame Proxy Timers.
Open Scope Z_scope.

(** ** Memory *)

(** [operator new]: an address that is not in use, representable while there is
    memory. *)
Class Allocator : Type := {
  new_address : gset ptr → ptr;
  new_address_fresh X : new_address X ∉ X;
  new_address_fits X : Z.of_nat (size X) < 2 ^ 64 → ptr_ok (new_address X)
}.

(** The lowest free address. *)
Definition least_free (X : gset ptr) : ptr := default 0%nat (head (filter (λ p, p ∉ X) (seq 0 (S (size X))))).

Lemma least_free_spec X : least_free X ∉ X ∧ (least_free X <= size X)%nat.
Proof.
  unfold least_free. destruct (filter _ _) as [|p l] eqn:E.
  - assert (list_to_set (seq 0 (S (size X))) ⊆ X) as Hs.
    { intros p Hp%elem_of_list_to_set. destruct (decide (p ∈ X)) as [|Hn]; [done|]. exfalso.
      assert (p ∈ filter (λ p, p ∉ X) (seq 0 (S (size X)))) as Hf by by apply list_elem_of_filter. rewrite E in Hf. by apply elem_of_nil in Hf. }
    apply subseteq_size in Hs. rewrite size_list_to_set, length_seq in Hs by apply NoDup_seq. lia.
  - assert (p ∈ filter (λ p, p ∉ X) (seq 0 (S (size X)))) as [Hp Hs]%list_elem_of_filter by (rewrite E; by left).
    apply elem_of_seq in Hs. cbn. split; [done|lia].
Qed.

#[export, refine] Instance first_free : Allocator := {| new_address := least_free |}.
Proof.
  - intros X. apply least_free_spec.
  - intros X HX. unfold ptr_ok. pose proof (least_free_spec X). lia.
Defined.

(** Objects whose address is on its way to the proxy: a [Batch], an [injected_task],
    a [pubkey_set], or a [std::function]. *)
Inductive object : Type :=
  | obj_batch (b : Batch)
  | obj_task (cat_ command_ remote_ : bytes) (cb : callback)
  | obj_keys (keys : gset bytes)
  | obj_fn (f : callback).

(** ** The proxy's state: all its tables, the objects in flight, and the messages
    waiting on the [command] socket (route, command, data). *)
Record proxy : Type := mkProxy {
  px_net : net;
  px_timers : timers;
  px_sched : sched;
  px_objects : gmap ptr object;
  px_control : list (list bytes)
}.
Definition with_net (n : net) (x : proxy) : proxy := mkProxy n (px_timers x) (px_sched x) (px_objects x) (px_control x).
Definition with_timers (t : timers) (x : proxy) : proxy := mkProxy (px_net x) t (px_sched x) (px_objects x) (px_control x).
Definition with_sched (s : sched) (x : proxy) : proxy := mkProxy (px_net x) (px_timers x) s (px_objects x) (px_control x).
Definition with_objects (o : gmap ptr object) (x : proxy) : proxy := mkProxy (px_net x) (px_timers x) (px_sched x) o (px_control x).
Definition with_control (c : list (list bytes)) (x : proxy) : proxy := mkProxy (px_net x) (px_timers x) (px_sched x) (px_objects x) c.

(** What leaves the proxy. *)
Inductive output : Type :=
  | out_net (e : effect)
  | out_timer (e : timer_effect)
  | out_ready (route_ : bytes)                    (* READY to the thread that calls start() *)
  | out_refused (parts : list bytes)              (* an error message to a peer *)
  | out_zap (parts : list bytes).                 (* a ZAP reply *)

(** Settings, the route of the proxy thread's own control socket, and the function
    object made of a lambda. *)
Record config : Type := mkConfig {
  cf_ephemeral : bool;
  cf_service_node : bool;
  cf_aliases : gmap bytes bytes;
  cf_binds : list zap_bind;
  cf_route : bytes;
  cf_fn : closure → callback
}.

(** ** What clients send

    [send_control] frames the command; the [ROUTER] end puts the client's route in
    front. *)
Definition send_control (route_ cmd data : bytes) (x : proxy) : proxy :=
  with_control (px_control x ++ [route_ :: cmd :: if bool_decide (data = []) then [] else [data]]) x.

(** The data of the commands that carry an address. *)
Definition address_data (p : ptr) : bytes := bt_serialize_int (ptr_to_int p).
Definition read_address (data : bytes) : outcome ptr := z ← (bt_deserialize_int uintptr_t data).1; Ok (int_to_ptr z).

(** [update_active_sns]: an array of two addresses. *)
Definition update_sns_data (added removed : ptr) : bytes := bt_serialize_list bt_serialize_int [ptr_to_int added; ptr_to_int removed].
Definition update_sns_body : parser (ptr * ptr) :=
  added ← consume_integer uintptr_t; removed ← consume_integer uintptr_t;
  mret (int_to_ptr added, int_to_ptr removed).
Definition read_update_sns (data : bytes) : outcome (ptr * ptr) := l ← bt_list_consumer_ctor data; (update_sns_body l).1.

(** The calls that pass values and function objects; in the message itself the
    callbacks are addresses. *)
Inductive request_msg : Type :=
  | rq_send (to : ConnectionID) (cmd : bytes) (opts : list send_opt)
  | rq_request (reply_tag : bytes) (to : ConnectionID) (cmd : bytes) (f : callback) (opts : list send_opt)
  | rq_connect_sn (pubkey : bytes) (opts : list connect_opt)
  | rq_connect_remote (remote : address) (on_connect on_failure : callback) (conn_id : Z) (opts : list connect_opt)
  | rq_disconnect (c : ConnectionID) (linger : Z)
  | rq_timer (timer_id : Z) (job : callback) (interval : Z) (squelch : bool) (thread : option Z)
  | rq_timer_del (timer_id : Z).

Definition request_cmd (m : request_msg) : bytes :=
  match m with
  | rq_send _ _ _ | rq_request _ _ _ _ _ => B "SEND"
  | rq_connect_sn _ _ => B "CONNECT_SN"
  | rq_connect_remote _ _ _ _ _ => B "CONNECT_REMOTE"
  | rq_disconnect _ _ => B "DISCONNECT"
  | rq_timer _ _ _ _ _ => B "TIMER"
  | rq_timer_del _ => B "TIMER_DEL"
  end.

Definition request_data (cf : config) (m : request_msg) : bytes :=
  match m with
  | rq_send to cmd opts => send_control_data to cmd opts
  | rq_request tag to cmd f opts => request_control_data tag to cmd f opts
  | rq_connect_sn pubkey_ opts => (connect_sn (cf_ephemeral cf) pubkey_ opts).2
  | rq_connect_remote remote f g n opts => (connect_remote remote f g n opts).2
  | rq_disconnect c linger => disconnect c linger
  | rq_timer n job interval squelch thread => timer_control_data n job interval squelch thread
  | rq_timer_del n => bt_serialize_int n
  end.

(** The public calls on a running instance. *)
Inductive call : Type :=
  | call_msg (m : request_msg)
  | call_batch (b : Batch)
  | call_job (f : callback) (thread : option Z)
  | call_inject (cat_ command_ remote_ : bytes) (cb : option callback)
  | call_set_sns (pubkeys : gset bytes)
  | call_update_sns (added removed : gset bytes)
  | call_start.

(** What the sockets hold, what arrives before each attempt to receive, and what the
    attempts got. *)
Abbreviation inboxes := (gmap nat (list incoming)).
Abbreviation arrivals := (list (list (nat * incoming))).
Abbreviation recv_log := (list (nat * option incoming)).

Section loop.
Context `{Allocator} (cf : config).

Definition in_use (x : proxy) : gset ptr := dom (heap (px_sched x)) ∪ dom (px_objects x).

(** [serialize_object]: the object moves to the heap; its address goes out. *)
Definition serialize_object (o : object) (x : proxy) : ptr * proxy :=
  let p := new_address (in_use x) in (p, with_objects (<[p := o]> (px_objects x)) x).

Definition send_object (route_ cmd : bytes) (o : object) (x : proxy) : proxy :=
  let (p, x) := serialize_object o x in send_control route_ cmd (address_data p) x.

(** [batch], [job], [inject_task], [set_active_sns], [update_active_sns], and the
    calls that pass values, by the client whose control socket has [route_]. *)
Definition batch_call (route_ : bytes) (b : Batch) (x : proxy) : outcome proxy :=
  if ((batch_size b).1 =? 0)%nat then Throw logic_error else Ok (send_object route_ (B "BATCH") (obj_batch b) x).

Definition job_call (route_ : bytes) (f : callback) (thread : option Z) (x : proxy) : outcome proxy :=
  if bool_decide (thread = Some (-1)) then Throw logic_error
  else b ← add_job f thread new_batch; Ok (send_object route_ (B "BATCH") (obj_batch b) x).

Definition inject_task (route_ cat_ command_ remote_ : bytes) (cb : option callback) (x : proxy) : outcome proxy :=
  match cb with
  | None => Ok x
  | Some f =>
      match cats (px_sched x) !! cat_ with
      | None => Throw out_of_range
      | Some _ => Ok (send_object route_ (B "INJECT") (obj_task cat_ command_ remote_ f) x)
      end
  end.

Definition set_active_sns (route_ : bytes) (pubkeys : gset bytes) (x : proxy) : proxy :=
  send_object route_ (B "SET_SNS") (obj_keys pubkeys) x.

Definition update_active_sns (route_ : bytes) (added removed : gset bytes) (x : proxy) : proxy :=
  let (p, x) := serialize_object (obj_keys added) x in
  let (q, x) := serialize_object (obj_keys removed) x in
  send_control route_ (B "UPDATE_SNS") (update_sns_data p q) x.

(** The function objects of a call, moved to the heap: those of the options in the order
    of the arguments ([apply_send_option]), the reply callback of a request, the two
    functions of [connect_remote], the job of a timer. *)
Fixpoint serialize_option (o : send_opt) (x : proxy) : send_opt * proxy :=
  match o with
  | so_queue_failure f => let (p, x) := serialize_object (obj_fn f) x in (so_queue_failure p, x)
  | so_queue_full f => let (p, x) := serialize_object (obj_fn f) x in (so_queue_full p, x)
  | so_maybe (Some o) => let (o, x) := serialize_option o x in (so_maybe (Some o), x)
  | _ => (o, x)
  end.
Fixpoint serialize_options (opts : list send_opt) (x : proxy) : list send_opt * proxy :=
  match opts with
  | [] => ([], x)
  | o :: opts =>
      let (o, x) := serialize_option o x in
      let (opts, x) := serialize_options opts x in (o :: opts, x)
  end.

Definition serialize_msg (m : request_msg) (x : proxy) : request_msg * proxy :=
  match m with
  | rq_send to cmd opts => let (opts, x) := serialize_options opts x in (rq_send to cmd opts, x)
  | rq_request tag to cmd f opts =>
      let (opts, x) := serialize_options opts x in
      let (p, x) := serialize_object (obj_fn f) x in (rq_request tag to cmd p opts, x)
  | rq_connect_remote remote f g n opts =>
      let (p, x) := serialize_object (obj_fn f) x in
      let (q, x) := serialize_object (obj_fn g) x in (rq_connect_remote remote p q n opts, x)
  | rq_timer n job interval squelch thread =>
      let (p, x) := serialize_object (obj_fn job) x in (rq_timer n p interval squelch thread, x)
  | rq_connect_sn _ _ | rq_disconnect _ _ | rq_timer_del _ => (m, x)
  end.

Definition client_call (route_ : bytes) (c : call) (x : proxy) : outcome proxy :=
  match c with
  | call_msg m => let (m, x) := serialize_msg m x in Ok (send_control route_ (request_cmd m) (request_data cf m) x)
  | call_batch b => batch_call route_ b x
  | call_job f thread => job_call route_ f thread x
  | call_inject cat_ command_ remote_ cb => inject_task route_ cat_ command_ remote_ cb x
  | call_set_sns pubkeys => Ok (set_active_sns route_ pubkeys x)
  | call_update_sns added removed => Ok (update_active_sns route_ added removed x)
  | call_start => Ok (send_control route_ (B "START") [] x)
  end.

(** ** Effects inside the proxy

    A reply job is a batch of its own; [job()] goes through the control socket like
    any client's. *)
Definition run_effect (eff : effect) (x : proxy) : proxy :=
  match eff with
  | eff_reply_job c => with_sched (proxy_schedule_reply_job (new_address (in_use x)) (cf_fn cf c) (px_sched x)) x
  | eff_job c => send_object (cf_route cf) (B "BATCH") (obj_batch (add_job_thread (cf_fn cf c) 0 new_batch)) x
  | eff_message _ _ => x
  end.

Definition run_effects (effs : list effect) (x : proxy) : proxy := foldl (λ x eff, run_effect eff x) x effs.

Section env.
Context (e : env).

(** A handler of the traffic, with its effects. *)
Definition run_net (i : net_input) (x : proxy) : outcome (proxy * list output) :=
  '(n, effs) ← net_step e i (px_net x);
  Ok (run_effects effs (with_net n x), out_net <$> effs).

(** A handler of the scheduler, with the completions it calls. *)
Definition run_sched (f : sched → outcome sched) (x : proxy) : outcome (proxy * list output) :=
  s' ← f (px_sched x);
  Ok (with_sched s' (with_timers (foldl (λ t p, timer_completed p t) (px_timers x) (completions (new_events (px_sched x) s'))) x), []).

(** [deserialize_object]: the object is moved out and its memory freed. *)
Definition deserialize_object (p : ptr) (x : proxy) : outcome (object * proxy) :=
  match px_objects x !! p with
  | Some o => Ok (o, with_objects (delete p (px_objects x)) x)
  | None => UB
  end.
Definition take_keys (p : ptr) (x : proxy) : outcome (gset bytes * proxy) :=
  '(o, x) ← deserialize_object p x; match o with obj_keys k => Ok (k, x) | _ => UB end.
Definition take_fn (p : ptr) (x : proxy) : outcome (callback * proxy) :=
  '(o, x) ← deserialize_object p x; match o with obj_fn f => Ok (f, x) | _ => UB end.
Definition take_fn_opt (p : option ptr) (x : proxy) : outcome (option callback * proxy) :=
  match p with Some p => '(f, x) ← take_fn p x; Ok (Some f, x) | None => Ok (None, x) end.

(** The function objects of the messages, in the order they are read. *)
Definition take_send_fns (a : send_args) (x : proxy) : outcome (send_args * proxy) :=
  '(rq, x) ← match sa_request a with
    | Some (p, tag, timeout) => '(f, x) ← take_fn p x; Ok (Some (f, tag, timeout), x)
    | None => Ok (None, x)
    end;
  '(nosend, x) ← take_fn_opt (sa_nosend a) x;
  '(noqueue, x) ← take_fn_opt (sa_noqueue a) x;
  Ok (mkSend (sa_conn a) (sa_hint a) (sa_incoming a) (sa_keep_alive a) (sa_optional a) (sa_outgoing a) rq (sa_send a) nosend noqueue, x).

Definition take_connect_fns (a : connect_remote_args) (x : proxy) : outcome (connect_remote_args * proxy) :=
  '(on_connect, x) ← take_fn_opt (cr_connect a) x;
  '(on_failure, x) ← take_fn_opt (cr_failure a) x;
  Ok (mkConnectRemote (cr_auth_level a) (cr_conn_id a) on_connect (cr_ephemeral_rid a) on_failure (cr_pubkey a) (cr_remote a) (cr_timeout a), x).

Definition take_timer_fn (a : timer_args) (x : proxy) : outcome (timer_args * proxy) :=
  '(func, x) ← take_fn (ta_func a) x; Ok (mkTimerArgs (ta_id a) func (ta_interval a) (ta_squelch a) (ta_thread a), x).

(** ** [proxy_control_message]

    [zmq_id] is what [zmq_timers_add] returns, should it be called. *)
Definition handle_timer (zmq_id : Z) (a : timer_args) (x : proxy) : outcome (proxy * list output) :=
  r ← proxy_timer zmq_id (ta_id a) (ta_func a) (ta_interval a) (ta_squelch a) (ta_thread a) (px_timers x);
  let (t, effs) := r : timers * list timer_effect in Ok (with_timers t x, out_timer <$> effs).

Definition handle_timer_del (id_ : Z) (x : proxy) : outcome (proxy * list output) :=
  let (t, effs) := proxy_timer_del id_ (px_timers x) in Ok (with_timers t x, out_timer <$> effs).

Definition control_with_data (zmq_id : Z) (cmd data : bytes) (x : proxy) : outcome (proxy * list output) :=
  if bytes_eqb cmd (B "SEND") then a ← unpack parse_send data; '(a, x) ← take_send_fns a x; run_net (ni_send a) x
  else if bytes_eqb cmd (B "REPLY") then '(c, send) ← unpack parse_reply data; run_net (ni_reply c send) x
  else if bytes_eqb cmd (B "BATCH") then
    p ← read_address data;
    '(o, x) ← deserialize_object p x;
    match o with
    | obj_batch b => run_sched (λ s, proxy_batch p (alloc_batch p b s)) x
    | _ => UB
    end
  else if bytes_eqb cmd (B "INJECT") then
    p ← read_address data;
    '(o, x) ← deserialize_object p x;
    match o with
    | obj_task cat_ command_ remote_ cb => run_sched (proxy_inject_task cat_ command_ remote_ cb) x
    | _ => UB
    end
  else if bytes_eqb cmd (B "SET_SNS") then
    p ← read_address data; '(keys, x) ← take_keys p x; run_net (ni_set_sns keys) x
  else if bytes_eqb cmd (B "UPDATE_SNS") then
    '(p, q) ← read_update_sns data;
    '(added, x) ← take_keys p x;
    '(removed, x) ← take_keys q x;
    run_net (ni_update_sns added removed) x
  else if bytes_eqb cmd (B "CONNECT_SN") then
    a ← unpack (parse_connect_sn (cf_ephemeral cf)) data; run_net (ni_connect_sn a) x
  else if bytes_eqb cmd (B "CONNECT_REMOTE") then
    a ← unpack (parse_connect_remote (cf_ephemeral cf)) data; '(a, x) ← take_connect_fns a x; run_net (ni_connect_remote a) x
  else if bytes_eqb cmd (B "DISCONNECT") then '(c, linger) ← unpack parse_disconnect data; run_net (ni_disconnect c linger) x
  else if bytes_eqb cmd (B "TIMER") then a ← parse_timer data; '(a, x) ← take_timer_fn a x; handle_timer zmq_id a x
  else if bytes_eqb cmd (B "TIMER_DEL") then id_ ← (bt_deserialize_int c_int data).1; handle_timer_del id_ x
  else Throw runtime_error.

Definition proxy_control_message (zmq_id : Z) (parts : list bytes) (x : proxy) : outcome (proxy * list output) :=
  match parts with
  | [_; cmd; data] => control_with_data zmq_id cmd data x
  | [route_; cmd] =>
      if bytes_eqb cmd (B "START") then Ok (x, [out_ready route_])
      else if bytes_eqb cmd (B "QUIT") then Ok (with_sched (proxy_quit_command (px_sched x)) x, [])
      else Throw runtime_error
  | [] | [_] => Throw logic_error
  | _ => Throw runtime_error
  end.

(** ** Messages of peers *)
Definition peer_message (index : nat) (m : incoming) (x : proxy) : outcome (proxy * list output) :=
  '(handled, n, effs) ← proxy_handle_builtin (env_send e) index (in_parts m) (px_net x);
  let x := run_effects effs (with_net n x) in
  if (handled : bool) then Ok (x, out_net <$> effs)
  else
    '(cs, s, refused) ← proxy_to_worker (cf_service_node cf) (cf_aliases cf) index m (tables n) (px_sched x);
    Ok (with_sched s (with_net (with_tables cs n) x), (out_net <$> effs) ++ (out_refused <$> option_list refused)).

(** The round over the sockets: one message from each in turn, until each has been found
    empty once or the connections have changed.  The sockets are live: [inbox] has what
    each holds, and the [k]-th entry of [arriving] what comes in, on which socket, before
    the [k]-th [recv_message_parts] of the round.  The result has what the sockets hold
    at the end, what is still to arrive, and what each [recv_message_parts] returned. *)
Definition inbox_of (inbox : inboxes) (i : nat) : list incoming := default [] (inbox !! i).
Definition arrive (l : list (nat * incoming)) (inbox : inboxes) : inboxes :=
  foldl (λ inbox im, <[im.1 := inbox_of inbox im.1 ++ [im.2]]> inbox) inbox l.

(** [recv_message_parts(sock, parts, dontwait)] on the socket [i]. *)
Definition recv_from (i : nat) (inbox : inboxes) (arriving : arrivals) : option incoming * inboxes * arrivals :=
  let inbox := arrive (default [] (head arriving)) inbox in
  match inbox_of inbox i with
  | [] => (None, inbox, tail arriving)
  | m :: rest => (Some m, <[i := rest]> inbox, tail arriving)
  end.

Fixpoint receive_loop (fuel : nat) (queue : list nat) (inbox : inboxes) (arriving : arrivals) (x : proxy)
    : outcome (proxy * inboxes * arrivals * recv_log * list output) :=
  match fuel with
  | O => Diverge
  | S fuel' =>
      match queue with
      | [] => Ok (x, inbox, arriving, [], [])
      | i :: queue =>
          let '(got, inbox, arriving) := recv_from i inbox arriving in
          match got with
          | None =>
              '(x, inbox, arriving, log, out) ← receive_loop fuel' queue inbox arriving x;
              Ok (x, inbox, arriving, (i, None) :: log, out)
          | Some m =>
              if bool_decide (in_parts m = []) then
                '(x, inbox, arriving, log, out) ← receive_loop fuel' (queue ++ [i]) inbox arriving x;
                Ok (x, inbox, arriving, (i, Some m) :: log, out)
              else
                '(x, out) ← peer_message i m x;
                if pollitems_stale (tables (px_net x)) then Ok (x, inbox, arriving, [(i, Some m)], out)
                else
                  '(x, inbox, arriving, log, out') ← receive_loop fuel' (queue ++ [i]) inbox arriving x;
                  Ok (x, inbox, arriving, (i, Some m) :: log, out ++ out')
          end
      end
  end.

(** The messages waiting, and those to arrive. *)
Definition waiting (inbox : inboxes) : nat := map_fold (λ _ l n, (length l + n)%nat) 0%nat inbox.
Definition to_arrive (arriving : arrivals) : nat := length (concat arriving).

Definition receive_round (inbox : inboxes) (arriving : arrivals) (x : proxy)
    : outcome (proxy * inboxes * arrivals * recv_log * list output) :=
  let num_sockets := length (connections (tables (px_net x))) in
  receive_loop (S (num_sockets + waiting inbox + to_arrive arriving)) (seq 0 num_sockets) inbox arriving x.

(** ** [proxy_quit]: every thread has been joined. *)
Definition all_joined (s : sched) : bool :=
  negb (existsb worker_thread (workers s)) && negb (existsb (λ w, worker_thread w.1.1) (tagged_workers s)).

Definition proxy_quit (x : proxy) : outcome proxy :=
  if all_joined (px_sched x) then
    let cs := tables (px_net x) in
    Ok (with_net (with_tables (mkConns [] [] (conn_index_to_id cs) (incoming_conn_index cs) (pending_connects cs) (bind cs)
                                 (pollitems_stale cs) (active_service_nodes cs) (next_socket cs)
                                 (closed cs ++ ((λ s, (s, quit_linger)) <$> connections cs))) (px_net x)) x)
  else UB.

(** ** The loop

    The top of an iteration: whether the loop ends, and the state to go on with.  A
    pass that does not poll leaves the poll items as they are. *)
Definition loop_top (x : proxy) : outcome (bool * proxy) :=
  let s := px_sched x in
  if (max_workers s =? 0) && all_joined s then x ← proxy_quit x; Ok (true, x)
  else if proxy_skip_one_poll s then Ok (false, with_sched (with_proxy_skip_one_poll false s) x)
  else if pollitems_stale (tables (px_net x))
       then Ok (false, with_net (with_tables (rebuild_pollitems (tables (px_net x))).2 (px_net x)) x)
       else Ok (false, x).

(** What the loop handles, and what clients do meanwhile. *)
Inductive loop_event : Type :=
  | le_call (route_ : bytes) (c : call)
  | le_top
  | le_control (i : nat) (zmq_id : Z)          (* the [i]-th waiting control message *)
  | le_ran (tagged : bool) (w : nat)
  | le_timer (timer_id : Z)                    (* [zmq_timers_execute] *)
  | le_cleanup
  | le_zap (frames : list bytes)
  | le_process
  | le_receive (inbox : inboxes) (arriving : arrivals).

Definition loop_step (ev : loop_event) (x : proxy) : outcome (proxy * list output) :=
  match ev with
  | le_call route_ c => x ← client_call route_ c x; Ok (x, [])
  | le_top => '(_, x) ← loop_top x; Ok (x, [])
  | le_control i zmq_id =>
      match px_control x !! i with
      | None => Ok (x, [])
      | Some parts => proxy_control_message zmq_id parts (with_control (delete i (px_control x)) x)
      end
  | le_ran tagged w => run_sched (proxy_worker_message [routing_id tagged w; B "RAN"]) x
  | le_timer timer_id =>
      r ← _queue_timer_job (new_address (in_use x)) timer_id (px_timers x) (px_sched x);
      let '(t, s, effs) := r : timers * sched * list timer_effect in
      Ok (with_sched s (with_timers t x), out_timer <$> effs)
  | le_cleanup => run_net ni_cleanup x
  | le_zap frames =>
      reply ← process_zap_request (cf_binds cf) (active_service_nodes (tables (px_net x))) frames;
      Ok (x, [out_zap reply])
  | le_process => run_sched proxy_process_queue x
  | le_receive inbox arriving => '(x, _, _, _, out) ← receive_round inbox arriving x; Ok (x, out)
  end.
End env.
End loop.
