(* ===== verification/Handover.v ===== *)
(** What the control messages stand for: the objects they hand over, and that the proxy's
    handlers get the arguments of the calls. *)
From S2P Require Import Prelude BtValue BtSerialize BtCodec BtConsumer Address Commands Connections Control Auth Net NetInv Batch Admission Scheduler BatchOwner SchedulerInv Frame Proxy Timers Loop.
Open Scope Z_scope.

(** ** The function objects of a call

    A call up to its function objects. *)
Fixpoint erase_option (o : send_opt) : send_opt :=
  match o with
  | so_queue_failure _ => so_queue_failure 0
  | so_queue_full _ => so_queue_full 0
  | so_maybe (Some o) => so_maybe (Some (erase_option o))
  | _ => o
  end.

Definition erase_msg (m : request_msg) : request_msg :=
  match m with
  | rq_send to cmd opts => rq_send to cmd (erase_option <$> opts)
  | rq_request tag to cmd _ opts => rq_request tag to cmd 0 (erase_option <$> opts)
  | rq_connect_remote remote _ _ n opts => rq_connect_remote remote 0 0 n opts
  | rq_timer n _ interval squelch thread => rq_timer n 0 interval squelch thread
  | rq_connect_sn _ _ | rq_disconnect _ _ | rq_timer_del _ => m
  end.

(** The objects of a call [m] that went out with the addresses in [wire]. *)
Definition fn_object (p : option ptr) (f : option callback) : list (ptr * object) :=
  match p, f with Some p, Some f => [(p, obj_fn f)] | _, _ => [] end.
Definition option_objects (wire opts : list send_opt) : list (ptr * object) :=
  fn_object (last_of sel_queue_failure (flatten wire)) (last_of sel_queue_failure (flatten opts)) ++
  fn_object (last_of sel_queue_full (flatten wire)) (last_of sel_queue_full (flatten opts)).

Definition msg_objects (m wire : request_msg) : list (ptr * object) :=
  match m, wire with
  | rq_send _ _ opts, rq_send _ _ opts' => option_objects opts' opts
  | rq_request _ _ _ f opts, rq_request _ _ _ p opts' => (p, obj_fn f) :: option_objects opts' opts
  | rq_connect_remote _ f g _ _, rq_connect_remote _ p q _ _ => [(p, obj_fn f); (q, obj_fn g)]
  | rq_timer _ job _ _ _, rq_timer _ p _ _ _ => [(p, obj_fn job)]
  | _, _ => []
  end.

(** ** What the messages stand for

    A message on the [command] socket, with the objects it hands over. *)
Inductive sent : Type :=
  | sent_msg (m wire : request_msg)
  | sent_batch (p : ptr) (b : Batch)
  | sent_task (p : ptr) (cat_ command_ remote_ : bytes) (cb : callback)
  | sent_set_sns (p : ptr) (keys : gset bytes)
  | sent_update_sns (p : ptr) (added : gset bytes) (q : ptr) (removed : gset bytes)
  | sent_start.

Definition sent_objects (m : sent) : list (ptr * object) :=
  match m with
  | sent_batch p b => [(p, obj_batch b)]
  | sent_task p cat_ command_ remote_ cb => [(p, obj_task cat_ command_ remote_ cb)]
  | sent_set_sns p keys => [(p, obj_keys keys)]
  | sent_update_sns p added q removed => [(p, obj_keys added); (q, obj_keys removed)]
  | sent_msg m wire => msg_objects m wire
  | sent_start => []
  end.

Definition sent_cmd (m : sent) : bytes :=
  match m with
  | sent_msg _ wire => request_cmd wire
  | sent_batch _ _ => B "BATCH"
  | sent_task _ _ _ _ _ => B "INJECT"
  | sent_set_sns _ _ => B "SET_SNS"
  | sent_update_sns _ _ _ _ => B "UPDATE_SNS"
  | sent_start => B "START"
  end.

Definition sent_data (cf : config) (m : sent) : bytes :=
  match m with
  | sent_msg _ wire => request_data cf wire
  | sent_batch p _ | sent_task p _ _ _ _ | sent_set_sns p _ => address_data p
  | sent_update_sns p _ q _ => update_sns_data p q
  | sent_start => []
  end.

Definition sent_parts (cf : config) (m : sent) : list bytes :=
  sent_cmd m :: if bool_decide (sent_data cf m = []) then [] else [sent_data cf m].

(** The arguments [proxy_send] gets for a call. *)
Definition send_args_of (to : ConnectionID) (cmd : bytes) (opts : list send_opt) : send_args :=
  send_meaning to None (encode_parts (cmd :: (flatten opts ≫= parts_of))) opts.
Definition request_args_of (tag : bytes) (to : ConnectionID) (cmd : bytes) (f : callback) (opts : list send_opt) : send_args :=
  send_meaning to (Some (f, tag)) (encode_parts (cmd :: tag :: (flatten opts ≫= parts_of))) opts.

(** Objects leave the heap. *)
Definition drop_objects (l : list (ptr * object)) (objs : gmap ptr object) : gmap ptr object := foldl (λ o po, delete po.1 o) objs l.

(** What a call should do: its handler runs on its arguments. *)
Definition msg_meaning `{Allocator} (cf : config) (e : env) (zmq_id : Z) (m : request_msg) (x : proxy)
    : outcome (proxy * list output) :=
  match m with
  | rq_send to cmd opts => run_net cf e (ni_send (send_args_of to cmd opts)) x
  | rq_request tag to cmd f opts => run_net cf e (ni_send (request_args_of tag to cmd f opts)) x
  | rq_connect_sn pubkey_ opts => run_net cf e (ni_connect_sn (connect_sn_meaning (cf_ephemeral cf) pubkey_ opts)) x
  | rq_connect_remote remote f g n opts =>
      run_net cf e (ni_connect_remote (connect_remote_meaning (cf_ephemeral cf) remote f g n opts)) x
  | rq_disconnect c linger => run_net cf e (ni_disconnect (unrouted c) linger) x
  | rq_timer n job interval squelch thread =>
      handle_timer zmq_id (mkTimerArgs n job interval squelch (default 0 thread)) x
  | rq_timer_del n => handle_timer_del n x
  end.

(** What a message should do: its objects are taken over, its handler runs on the
    arguments of the call. *)
Definition sent_meaning `{Allocator} (cf : config) (e : env) (zmq_id : Z) (route_ : bytes) (m : sent) (x : proxy)
    : outcome (proxy * list output) :=
  match m with
  | sent_msg m wire => msg_meaning cf e zmq_id m (with_objects (drop_objects (msg_objects m wire) (px_objects x)) x)
  | sent_batch p b => run_sched (λ s, proxy_batch p (alloc_batch p b s)) (with_objects (delete p (px_objects x)) x)
  | sent_task p cat_ command_ remote_ cb =>
      run_sched (proxy_inject_task cat_ command_ remote_ cb) (with_objects (delete p (px_objects x)) x)
  | sent_set_sns p keys => run_net cf e (ni_set_sns keys) (with_objects (delete p (px_objects x)) x)
  | sent_update_sns p added q removed =>
      run_net cf e (ni_update_sns added removed) (with_objects (delete q (delete p (px_objects x))) x)
  | sent_start => Ok (x, [out_ready route_])
  end.

(** What callers must respect: sizes and numbers fit their types, service nodes have
    keys, threads exist ([nt] of them), a node is not restricted to incoming
    connections, and neither [queue_failure] nor [queue_full] is given twice. *)
Definition call_opt_ok (o : send_opt) : Prop :=
  match o with so_queue_failure _ | so_queue_full _ => True | _ => send_opt_ok o end.
Definition once {A} (sel : send_opt → option A) (opts : list send_opt) : Prop := (length (omap sel opts) <= 1)%nat.

Definition send_ok (to : ConnectionID) (cmd : bytes) (opts : list send_opt) : Prop :=
  dest_ok to ∧ size_ok cmd ∧ Forall call_opt_ok (flatten opts) ∧
  once sel_queue_failure (flatten opts) ∧ once sel_queue_full (flatten opts) ∧
  (sn to = true → key_size (pk to) ∧ default false (last_of sel_incoming (flatten opts)) = false).

Definition request_ok (nt : nat) (m : request_msg) : Prop :=
  match m with
  | rq_send to cmd opts => send_ok to cmd opts
  | rq_request tag to cmd f opts => send_ok to cmd opts ∧ size_ok tag
  | rq_connect_sn pubkey_ opts => key_size pubkey_ ∧ Forall connect_opt_ok opts
  | rq_connect_remote remote f g n opts =>
      - 2 ^ 63 < n < 2 ^ 63 ∧ n ≠ -1 ∧ Forall connect_opt_ok opts ∧
      (curve remote = true → length (pubkey remote) = 32%nat) ∧ size_ok (zmq_address remote)
  | rq_disconnect c linger =>
      - 2 ^ 63 < id c < 2 ^ 63 ∧ - 2 ^ 63 < linger < 2 ^ 63 ∧ size_ok (pk c) ∧ (sn c = true → key_size (pk c))
  | rq_timer n job interval squelch thread =>
      - 2 ^ 31 <= n < 2 ^ 31 ∧ time_ok interval ∧ -1 <= default 0 thread <= Z.of_nat nt ∧ Z.of_nat nt < 2 ^ 31
  | rq_timer_del n => - 2 ^ 31 <= n < 2 ^ 31
  end.

Definition batch_fits (nt : nat) (b : Batch) : Prop :=
  batch_ok b ∧ jobs b ≠ [] ∧ Z.of_nat (length (jobs b)) < 2 ^ 64 ∧
  -1 <= complete_in_thread b <= Z.of_nat nt ∧ Forall (λ t, -1 <= t <= Z.of_nat nt) (threads b).

Definition sent_ok (nt : nat) (names : list bytes) (m : sent) : Prop :=
  Forall (λ po, ptr_ok po.1) (sent_objects m) ∧ NoDup (sent_objects m).*1 ∧
  match m with
  | sent_msg m wire => request_ok nt m ∧ erase_msg wire = erase_msg m
  | sent_batch _ b => batch_fits nt b
  | sent_task _ cat_ _ _ _ => cat_ ∈ names
  | sent_update_sns _ _ _ _ | sent_set_sns _ _ | sent_start => True
  end.

Definition holds_objects (x : proxy) (m : sent) : Prop := Forall (λ po, px_objects x !! po.1 = Some po.2) (sent_objects m).

(** ** Reading what was written *)
Lemma ptr_range p : ptr_ok p → it_range uintptr_t (ptr_to_int p) ∧ ptr_to_int p ≠ it_min int64_t.
Proof.
  unfold ptr_ok, ptr_to_int, it_range, it_min, it_max. cbn [it_signed it_bits uintptr_t uint64_t int64_t]. lia.
Qed.

Lemma read_int_data t z : it_ok t → it_range t z → z ≠ it_min int64_t → (bt_deserialize_int t (bt_serialize_int z)).1 = Ok z.
Proof.
  intros Ht Hr Hm. pose proof (int_codec_ok t Ht) as Hok. pose proof (codec_roundtrip (c := int_codec t) z []) as E.
  cbn [int_codec bt_ser bt_deser] in E. rewrite app_nil_r in E. by rewrite E.
Qed.

Lemma read_address_data p : ptr_ok p → read_address (address_data p) = Ok p.
Proof.
  intros [Hr Hm]%ptr_range. unfold read_address, address_data. rewrite read_int_data by done. cbn [mbind outcome_bind].
  unfold int_to_ptr, ptr_to_int. by rewrite Nat2Z.id.
Qed.

Lemma read_update_sns_data p q : ptr_ok p → ptr_ok q → read_update_sns (update_sns_data p q) = Ok (p, q).
Proof.
  intros [Hr Hm]%ptr_range [Hr' Hm']%ptr_range. unfold read_update_sns, update_sns_data, bt_serialize_list.
  cbn [fmap list_fmap concat]. rewrite app_nil_r, <-!app_assoc. unfold bt_list_consumer_ctor. cbn [app].
  rewrite bool_decide_eq_true_2 by done. cbn [negb mbind outcome_bind]. unfold update_sns_body.
  rewrite (bind_Ok _ _ _ _ _ (consume_integer_at uintptr_t _ _ ltac:(done) Hr Hm)).
  rewrite (bind_Ok _ _ _ _ _ (consume_integer_at uintptr_t _ _ ltac:(done) Hr' Hm')).
  unfold mret, M_ret, int_to_ptr, ptr_to_int. cbn [fst]. by rewrite !Nat2Z.id.
Qed.

Lemma deserialize_object_ok p o x : px_objects x !! p = Some o → deserialize_object p x = Ok (o, with_objects (delete p (px_objects x)) x).
Proof. intros E. unfold deserialize_object. by rewrite E. Qed.

Lemma int_data_nonempty z : bt_serialize_int z ≠ [].
Proof. by destruct (bt_serialize_int_head z) as (y & r & ->). Qed.

Lemma sent_data_nonempty cf m : m ≠ sent_start → sent_data cf m ≠ [].
Proof.
  destruct m as [m []| | | | |]; intros Hm; try done; apply int_data_nonempty.
Qed.

Lemma sent_parts_data cf m : m ≠ sent_start → sent_parts cf m = [sent_cmd m; sent_data cf m].
Proof. intros Hm. unfold sent_parts. by rewrite bool_decide_eq_false_2 by by apply sent_data_nonempty. Qed.

(** Commands are compared by name. *)
Ltac command_cases :=
  repeat (match goal with |- context [bytes_eqb (B ?a) (B ?b)] =>
    first [replace (bytes_eqb (B a) (B b)) with true by (vm_compute; reflexivity)
          |replace (bytes_eqb (B a) (B b)) with false by (vm_compute; reflexivity)] end; cbv iota).

(** ** Function objects *)
Lemma last_of_omap {O A} (sel : O → option A) os : last_of sel os = last (omap sel os).
Proof.
  induction os as [|o os IH]; [done|]. rewrite last_of_cons, IH. cbn [omap list_omap]. destruct (sel o) as [a|]; [|by destruct (last _)].
  destruct (omap sel os) as [|b l] eqn:E; [done|]. rewrite last_cons_cons. destruct (last (b :: l)) eqn:El; [done|]. by apply last_None in El.
Qed.

Lemma flatten_erase opts : flatten (erase_option <$> opts) = erase_option <$> flatten opts.
Proof.
  assert (∀ o, flat (erase_option o) = erase_option <$> flat o) as H1.
  { fix go 1. intros [| | | | | | | | | |[o|]]; try (clear go; done). exact (go o). }
  unfold flatten. induction opts as [|o opts IH]; [done|]. rewrite fmap_cons, !bind_cons, fmap_app. by rewrite H1, IH.
Qed.

(** Where two lists of options agree up to function objects. *)
Section same_options.
Context (wire opts : list send_opt) (Hsame : erase_option <$> wire = erase_option <$> opts).

Lemma same_flatten : erase_option <$> flatten wire = erase_option <$> flatten opts.
Proof using Hsame. by rewrite <-!flatten_erase, Hsame. Qed.

Lemma same_omap {A C} (sel : send_opt → option A) (g : A → C) :
  (∀ o o', erase_option o = erase_option o' → g <$> sel o = g <$> sel o') → g <$> omap sel (flatten wire) = g <$> omap sel (flatten opts).
Proof using Hsame.
  intros Hs. pose proof same_flatten as H. revert H. generalize (flatten wire) as ws, (flatten opts) as os. clear Hsame.
  induction ws as [|w ws IH]; intros [|o os] H; try done. rewrite !fmap_cons in H. injection H as Ho Hl.
  specialize (Hs w o Ho). specialize (IH os Hl). cbn [omap list_omap].
  destruct (sel w) as [a|], (sel o) as [b|]; try done. injection Hs as Hs. rewrite !fmap_cons. by rewrite Hs, IH.
Qed.

Lemma same_last {A} (sel : send_opt → option A) :
  (∀ o o', erase_option o = erase_option o' → sel o = sel o') → last_of sel (flatten wire) = last_of sel (flatten opts).
Proof using Hsame.
  intros Hs. rewrite !last_of_omap. f_equal. rewrite <-(list_fmap_id (omap sel (flatten wire))), <-(list_fmap_id (omap sel (flatten opts))).
  apply (same_omap sel Datatypes.id). intros o o' Ho. by rewrite !option_fmap_id, (Hs o o').
Qed.

Lemma same_length {A} (sel : send_opt → option A) :
  (∀ o o', erase_option o = erase_option o' → is_Some (sel o) ↔ is_Some (sel o')) →
  length (omap sel (flatten wire)) = length (omap sel (flatten opts)).
Proof using Hsame.
  intros Hs. rewrite <-(length_fmap (λ _, tt) (omap sel (flatten wire))), <-(length_fmap (λ _, tt) (omap sel (flatten opts))). f_equal.
  apply same_omap. intros o o' Ho. specialize (Hs o o' Ho). destruct (sel o), (sel o'); try done; naive_solver.
Qed.

Lemma same_parts : flatten wire ≫= parts_of = flatten opts ≫= parts_of.
Proof using Hsame.
  pose proof same_flatten as H. revert H. generalize (flatten wire) as ws, (flatten opts) as os. clear Hsame.
  induction ws as [|w ws IH]; intros [|o os] H; try done. rewrite !fmap_cons in H. injection H as Ho Hl. rewrite !bind_cons, (IH os Hl). f_equal.
  by destruct w as [| | | | | | | | | |[]], o as [| | | | | | | | | |[]]; cbn in Ho |- *; simplify_eq.
Qed.
End same_options.

Ltac same_sel := intros [| | | | | | | | | |[?|]] [| | | | | | | | | |[?|]] Ho; cbn in Ho |- *; simplify_eq; try done.

(** A message that went out has the validity of its call. *)
Lemma send_ok_same to cmd wire opts : erase_option <$> wire = erase_option <$> opts → send_ok to cmd opts → send_ok to cmd wire.
Proof.
  intros Hs (H1 & H2 & H3 & H4 & H5 & H6). unfold send_ok, once. split_and!; [done|done| | | |].
  - pose proof (same_flatten _ _ Hs) as H. revert H H3. generalize (flatten wire) as ws, (flatten opts) as os. clear.
    induction ws as [|w ws IH]; intros [|o os] H Hf; try done. rewrite !fmap_cons in H. injection H as Ho Hl. apply Forall_cons in Hf as [Hf1 Hf2].
    constructor; [|by eapply IH]. revert w o Ho Hf1. clear. same_sel.
  - rewrite (same_length _ _ Hs sel_queue_failure); [done|same_sel; by eauto].
  - rewrite (same_length _ _ Hs sel_queue_full); [done|same_sel; by eauto].
  - rewrite (same_last _ _ Hs sel_incoming); [done|same_sel].
Qed.

Lemma call_parts_size os : Forall call_opt_ok os → Forall size_ok (os ≫= parts_of).
Proof.
  induction 1 as [|o os Ho _ IH]; [constructor|]. rewrite bind_cons. apply Forall_app. split; [|done].
  destruct o as [| | | | | | | | | |[]]; cbn in *; try constructor; done.
Qed.

(** The addresses of the options are those of the objects. *)
Lemma once_object {A} (sel : send_opt → option A) (wire opts : list send_opt) :
  once sel opts → length (omap sel wire) = length (omap sel opts) →
  omap sel wire = option_list (last_of sel wire) ∧ (is_Some (last_of sel wire) ↔ is_Some (last_of sel opts)).
Proof.
  unfold once. intros Ho Hl. rewrite !last_of_omap. destruct (omap sel opts) as [|a [|]], (omap sel wire) as [|b [|]]; cbn in *; try lia; done || naive_solver.
Qed.

Lemma fn_object_ptr (P : ptr → Prop) p f : (is_Some p ↔ is_Some f) → Forall (λ po, P po.1) (fn_object p f) → Forall P (option_list p).
Proof. intros Hs. destruct p as [p|], f as [f|]; cbn; try done; [rewrite !Forall_singleton; done|]. destruct Hs as [Hs _]. by destruct Hs. Qed.

Lemma send_opts_ok to cmd wire opts :
  erase_option <$> wire = erase_option <$> opts → send_ok to cmd opts → Forall (λ po, ptr_ok po.1) (option_objects wire opts) →
  Forall send_opt_ok (flatten wire).
Proof.
  intros Hs Hok Hp. pose proof (send_ok_same _ _ _ _ Hs Hok) as (_ & _ & Hf & _). destruct Hok as (_ & _ & _ & H4 & H5 & _).
  destruct (once_object sel_queue_failure (flatten wire) (flatten opts) H4) as [E1 S1]; [apply (same_length _ _ Hs); same_sel; by eauto|].
  destruct (once_object sel_queue_full (flatten wire) (flatten opts) H5) as [E2 S2]; [apply (same_length _ _ Hs); same_sel; by eauto|].
  unfold option_objects in Hp. apply Forall_app in Hp as [P1 P2].
  apply (fn_object_ptr ptr_ok) in P1; [|done]. apply (fn_object_ptr ptr_ok) in P2; [|done].
  rewrite <-E1 in P1. rewrite <-E2 in P2. clear -Hf P1 P2. revert Hf P1 P2. generalize (flatten wire) as os.
  induction os as [|o os IH]; intros Hf P1 P2; [constructor|]. apply Forall_cons in Hf as [Ho Hf].
  cbn [omap list_omap] in P1, P2. constructor.
  - destruct o as [| | | | | | | | | |[]]; cbn in *; try done; [by apply Forall_cons in P1 as [? _]|by apply Forall_cons in P2 as [? _]].
  - apply IH; [done| |]; destruct o as [| | | | | | | | | |[]]; cbn in P1, P2; try done; [by apply Forall_cons in P1 as [_ ?]|by apply Forall_cons in P2 as [_ ?]].
Qed.
(** Taking the objects out again. *)
Definition held (l : list (ptr * object)) (x : proxy) : Prop := Forall (λ po, px_objects x !! po.1 = Some po.2) l.
Definition taken_out (l : list (ptr * object)) (x : proxy) : proxy := with_objects (drop_objects l (px_objects x)) x.

Lemma taken_out_app l1 l2 x : taken_out (l1 ++ l2) x = taken_out l2 (taken_out l1 x).
Proof. unfold taken_out, drop_objects. by rewrite foldl_app. Qed.

Lemma held_app l1 l2 x : NoDup (l1 ++ l2).*1 → held (l1 ++ l2) x → held l1 x ∧ held l2 (taken_out l1 x).
Proof.
  rewrite fmap_app. intros (_ & Hd & _)%NoDup_app [H1 H2]%Forall_app. split; [done|]. unfold held, taken_out. cbn [px_objects with_objects].
  clear H1. revert H2 Hd. generalize (px_objects x). induction l1 as [|[p o] l1 IH]; intros objs H2 Hd; [done|]. cbn. apply IH.
  - apply Forall_forall. intros [q o'] Hq. cbn. rewrite Forall_forall in H2. specialize (H2 _ Hq).
    rewrite lookup_delete_ne; [done|]. intros <-. apply (Hd p); [by left|]. apply list_elem_of_fmap. by exists (p, o').
  - intros q Hq. apply Hd. by right.
Qed.

Lemma take_fn_held p f l x : NoDup ((p, obj_fn f) :: l).*1 → held ((p, obj_fn f) :: l) x →
  take_fn p x = Ok (f, taken_out [(p, obj_fn f)] x) ∧ held l (taken_out [(p, obj_fn f)] x).
Proof.
  intros Hnd Hh. destruct (held_app [(p, obj_fn f)] l x Hnd Hh) as [H1 H2]. split; [|done]. unfold held in H1. rewrite Forall_singleton in H1. cbn [fst snd] in H1.
  unfold take_fn, deserialize_object. by rewrite H1.
Qed.

Lemma take_fn_opt_held p f l x :
  (is_Some p ↔ is_Some f) → NoDup (fn_object p f ++ l).*1 → held (fn_object p f ++ l) x →
  take_fn_opt p x = Ok (f, taken_out (fn_object p f) x) ∧ held l (taken_out (fn_object p f) x).
Proof.
  intros Hs Hnd Hh. destruct p as [p|], f as [f|]; cbn [fn_object app take_fn_opt] in *.
  - destruct (take_fn_held p f l x Hnd Hh) as [-> H2]. by split.
  - destruct Hs as [Hs _]. by destruct Hs.
  - destruct Hs as [_ Hs]. by destruct Hs.
  - split; [|done]. unfold taken_out. cbn. by destruct x.
Qed.

(** The arguments of a message, with its function objects back in place. *)
Lemma take_send_held to rq rqp send wire opts x :
  erase_option <$> wire = erase_option <$> opts → once sel_queue_failure (flatten opts) → once sel_queue_full (flatten opts) →
  match rq, rqp with Some (_, tag), Some (_, tag') => tag' = tag | None, None => True | _, _ => False end →
  let l := fn_object (fst <$> rqp) (fst <$> rq) ++ option_objects wire opts in
  NoDup l.*1 → held l x →
  take_send_fns (send_meaning to rqp send wire) x = Ok (send_meaning to rq send opts, taken_out l x).
Proof.
  intros Hs Ho1 Ho2 Htag l Hnd Hh.
  destruct (once_object sel_queue_failure (flatten wire) (flatten opts) Ho1) as [_ S1]; [apply (same_length _ _ Hs); same_sel; by eauto|].
  destruct (once_object sel_queue_full (flatten wire) (flatten opts) Ho2) as [_ S2]; [apply (same_length _ _ Hs); same_sel; by eauto|].
  unfold take_send_fns, send_meaning. cbn [sa_request sa_nosend sa_noqueue sa_conn sa_hint sa_incoming sa_keep_alive sa_optional sa_outgoing sa_send].
  rewrite (same_last _ _ Hs sel_hint), (same_last _ _ Hs sel_incoming), (same_last _ _ Hs sel_keep_alive), (same_last _ _ Hs sel_optional),
    (same_last _ _ Hs sel_outgoing), (same_last _ _ Hs sel_request_timeout) by same_sel.
  set (T := default DEFAULT_REQUEST_TIMEOUT _). subst l. unfold option_objects in *.
  set (N := last_of sel_queue_failure (flatten wire)) in *. set (N' := last_of sel_queue_failure (flatten opts)) in *.
  set (Q := last_of sel_queue_full (flatten wire)) in *. set (Q' := last_of sel_queue_full (flatten opts)) in *.
  rewrite !taken_out_app.
  assert (match (λ r : callback * bytes, (r.1, r.2, T)) <$> rqp with
    | Some (p, tag, timeout) => '(f, x) ← take_fn p x; Ok (Some (f, tag, timeout), x)
    | None => Ok (None, x)
    end = Ok ((λ r : callback * bytes, (r.1, r.2, T)) <$> rq, taken_out (fn_object (fst <$> rqp) (fst <$> rq)) x) ∧
    held (fn_object N N' ++ fn_object Q Q') (taken_out (fn_object (fst <$> rqp) (fst <$> rq)) x)) as [-> Hh2].
  { destruct rq as [[f tag]|], rqp as [[p tag']|]; try done; cbn [fmap option_fmap option_map fst snd fn_object app] in *.
    - subst tag'. destruct (take_fn_held _ _ _ _ Hnd Hh) as [-> ?]. by split.
    - split; [|done]. unfold taken_out. cbn. by destruct x. }
  cbn [mbind outcome_bind]. rewrite fmap_app in Hnd. apply NoDup_app in Hnd as (_ & _ & Hnd).
  destruct (take_fn_opt_held N N' _ _ S1 Hnd Hh2) as [-> Hh3]. cbn [mbind outcome_bind].
  rewrite fmap_app in Hnd. apply NoDup_app in Hnd as (_ & _ & Hnd).
  destruct (take_fn_opt_held Q Q' [] (taken_out (fn_object N N') (taken_out (fn_object (fst <$> rqp) (fst <$> rq)) x)) S2) as [-> _];
    [by rewrite app_nil_r..|]. done.
Qed.

Section dispatch.
Context `{Allocator} (cf : config) (e : env) (nt : nat) (names : list bytes).

Lemma send_dispatch zmq_id to cmd wire opts x :
  send_ok to cmd opts → erase_option <$> wire = erase_option <$> opts → let l := option_objects wire opts in
  Forall (λ po, ptr_ok po.1) l → NoDup l.*1 → held l x →
  control_with_data cf e zmq_id (B "SEND") (send_control_data to cmd wire) x = run_net cf e (ni_send (send_args_of to cmd opts)) (taken_out l x).
Proof.
  intros Hok Hs l Hp Hnd Hh. pose proof (send_opts_ok _ _ _ _ Hs Hok Hp) as Hw. destruct Hok as (H1 & H2 & _ & H4 & H5 & _).
  unfold control_with_data. command_cases. rewrite send_roundtrip_ok by done. cbn [mbind outcome_bind]. rewrite (same_parts _ _ Hs).
  by rewrite (take_send_held to None None _ wire opts x Hs H4 H5).
Qed.

Lemma request_dispatch zmq_id tag to cmd f p wire opts x :
  send_ok to cmd opts → size_ok tag → erase_option <$> wire = erase_option <$> opts → let l := (p, obj_fn f) :: option_objects wire opts in
  Forall (λ po, ptr_ok po.1) l → NoDup l.*1 → held l x →
  control_with_data cf e zmq_id (B "SEND") (request_control_data tag to cmd p wire) x
  = run_net cf e (ni_send (request_args_of tag to cmd f opts)) (taken_out l x).
Proof.
  intros Hok Ht Hs l [Hp Hps]%Forall_cons Hnd Hh. pose proof (send_opts_ok _ _ _ _ Hs Hok Hps) as Hw. destruct Hok as (H1 & H2 & _ & H4 & H5 & _).
  unfold control_with_data. command_cases. rewrite request_roundtrip_ok by done. cbn [mbind outcome_bind]. rewrite (same_parts _ _ Hs).
  by rewrite (take_send_held to (Some (f, tag)) (Some (p, tag)) _ wire opts x Hs H4 H5).
Qed.

Lemma msg_dispatch zmq_id m wire x :
  request_ok nt m → erase_msg wire = erase_msg m → let l := msg_objects m wire in
  Forall (λ po, ptr_ok po.1) l → NoDup l.*1 → held l x →
  control_with_data cf e zmq_id (request_cmd wire) (request_data cf wire) x = msg_meaning cf e zmq_id m (taken_out l x).
Proof.
  intros Hm Hs l Hp Hnd Hh.
  destruct m as [to cmd opts|tag to cmd f opts|pubkey_ opts|remote f g n opts|c linger|n job interval squelch thread|n], wire; try done;
    cbn [erase_msg] in Hs; simplify_eq; cbn [msg_objects] in l; cbn [request_cmd request_data msg_meaning request_ok] in *.
  - by apply send_dispatch.
  - destruct Hm. by apply request_dispatch.
  - destruct Hm as [H1 H2]. assert (size_ok pubkey_) by (unfold size_ok; rewrite H1; lia).
    unfold control_with_data. command_cases. rewrite connect_sn_ok by done. unfold taken_out. by destruct x.
  - destruct Hm as (H1 & _ & H5 & H6 & H7). apply Forall_cons in Hp as [Hp1 [Hp2 _]%Forall_cons]. unfold control_with_data. command_cases.
    rewrite connect_remote_ok by done. cbn [mbind outcome_bind]. unfold take_connect_fns. cbn [connect_remote_meaning cr_connect cr_failure].
    destruct (take_fn_held _ _ _ _ Hnd Hh) as [E1 Hh2]. cbn [take_fn_opt]. rewrite E1. cbn [mbind outcome_bind take_fn_opt].
    apply NoDup_cons in Hnd as [_ Hnd]. destruct (take_fn_held on_failure g [] _ Hnd Hh2) as [E2 _]. by rewrite E2.
  - destruct Hm as (H1 & H2 & H3 & H4). unfold control_with_data. command_cases. rewrite disconnect_ok by done. unfold taken_out. by destruct x.
  - destruct Hm as (H1 & H3 & H4 & H5). apply Forall_cons in Hp as [Hp1 _]. unfold control_with_data. command_cases.
    rewrite timer_ok by (done || lia). cbn [mbind outcome_bind]. unfold take_timer_fn. cbn [ta_func].
    destruct (take_fn_held _ job [] _ Hnd Hh) as [E1 _]. by rewrite E1.
  - unfold control_with_data. command_cases. rewrite read_int_data; [|done|unfold it_range; cbn; lia|cbn; lia]. unfold taken_out. by destruct x.
Qed.

(** Every message reaches its handler with the arguments of the call; objects are
    taken over. *)
Lemma control_dispatch zmq_id rt m x :
  sent_ok nt names m → holds_objects x m →
  proxy_control_message cf e zmq_id (rt :: sent_parts cf m) x = sent_meaning cf e zmq_id rt m x.
Proof.
  intros (Hp & Hnd & Hm) Ho. assert (m = sent_start ∨ m ≠ sent_start) as [->|Hs]; [destruct m; by (left + right)| |].
  { vm_compute. reflexivity. } rewrite sent_parts_data by done. cbn [proxy_control_message].
  unfold holds_objects in Ho. destruct m as [m wire|p b|p cat_ command_ remote_ cb|p keys|p added q removed|]; [destruct Hm; by apply msg_dispatch| | | | |done];
    unfold control_with_data; cbn [sent_cmd sent_data sent_objects sent_meaning] in *; command_cases;
    apply Forall_cons in Hp as [Hp Hp']; apply Forall_cons in Ho as [Ho Ho']; cbn [fst snd] in *.
  - rewrite read_address_data by done. cbn [mbind outcome_bind]. by rewrite (deserialize_object_ok _ _ _ Ho).
  - rewrite read_address_data by done. cbn [mbind outcome_bind]. by rewrite (deserialize_object_ok _ _ _ Ho).
  - rewrite read_address_data by done. cbn [mbind outcome_bind]. unfold take_keys. by rewrite (deserialize_object_ok _ _ _ Ho).
  - apply Forall_cons in Hp' as [Hp' _], Ho' as [Ho' _]. cbn [fst snd] in *. rewrite read_update_sns_data by done. cbn [mbind outcome_bind].
    unfold take_keys. rewrite (deserialize_object_ok _ _ _ Ho). cbn [mbind outcome_bind]. rewrite (deserialize_object_ok q (obj_keys removed)); [done|].
    cbn [px_objects with_objects]. rewrite lookup_delete_ne; [done|]. intros ->. apply NoDup_cons in Hnd as [Hnd _]. apply Hnd. by left.
Qed.
End dispatch.

(** ** Moving the function objects of a call to the heap *)
Section serialize.
Context `{Allocator}.

(** From [x] to [x'] the objects [l] were moved to addresses not in use. *)
Record placed (l : list (ptr * object)) (x x' : proxy) : Prop := {
  pl_state : x' = with_objects (px_objects x') x;
  pl_objects : map_to_list (px_objects x') ≡ₚ l ++ map_to_list (px_objects x);
  pl_heap : Forall (λ po, po.1 ∉ dom (heap (px_sched x))) l;
  pl_size : (size (in_use x') <= length l + size (in_use x))%nat;
  pl_ptrs : Z.of_nat (size (in_use x) + length l) <= 2 ^ 64 → Forall (λ po, ptr_ok po.1) l
}.

Lemma placed_none x : placed [] x x.
Proof. split; [by destruct x|done|constructor|done|constructor]. Qed.

Lemma placed_one o x p x' : serialize_object o x = (p, x') → placed [(p, o)] x x'.
Proof.
  unfold serialize_object. intros [= <- <-]. set (p := new_address (in_use x)). pose proof (new_address_fresh (in_use x)) as Hf. fold p in Hf.
  assert (p ∉ dom (heap (px_sched x)) ∧ p ∉ dom (px_objects x)) as [Hh Ho] by (unfold in_use in Hf; set_solver). split.
  - done.
  - cbn [px_objects with_objects app]. apply map_to_list_insert. by apply not_elem_of_dom.
  - by apply Forall_singleton.
  - assert (in_use (with_objects (<[p := o]> (px_objects x)) x) ⊆ {[p]} ∪ in_use x) as Hs%subseteq_size.
    { unfold in_use. cbn. rewrite dom_insert. set_solver. }
    rewrite size_union_alt, size_singleton in Hs. assert (size (in_use x ∖ {[p]}) <= size (in_use x))%nat by (apply subseteq_size; set_solver).
    cbn [length]. lia.
  - intros Hm. apply Forall_singleton. cbn [fst length] in *. apply new_address_fits. lia.
Qed.

Lemma placed_app l1 l2 x x1 x2 : placed l1 x x1 → placed l2 x1 x2 → placed (l1 ++ l2) x x2.
Proof.
  intros [S1 O1 H1 Z1 P1] [S2 O2 H2 Z2 P2]. assert (px_sched x1 = px_sched x) as Es by by rewrite S1. split.
  - rewrite S2 at 1. rewrite S1 at 1. done.
  - rewrite O2, O1, !app_assoc. by rewrite (Permutation_app_comm l2 l1).
  - apply Forall_app. split; [done|]. by rewrite Es in H2.
  - rewrite length_app. lia.
  - rewrite length_app. intros Hm. apply Forall_app. split; [apply P1|apply P2]; lia.
Qed.

Lemma placed_perm l l' x x' : l ≡ₚ l' → placed l x x' → placed l' x x'.
Proof. intros Hl [S1 O1 H1 Z1 P1]. split; [done|by rewrite <-Hl|by rewrite <-Hl|by rewrite <-Hl|]. rewrite <-Hl. done. Qed.

(** Placed objects are on the heap, each at its own address. *)
Lemma placed_held l x x' : placed l x x' → held l x' ∧ NoDup l.*1.
Proof.
  intros Hp. pose proof (pl_objects _ _ _ Hp) as Ho. split.
  - apply Forall_forall. intros [p o] Hin. apply elem_of_map_to_list. rewrite Ho. apply elem_of_app. by left.
  - pose proof (NoDup_fst_map_to_list (px_objects x')) as Hnd. rewrite Ho, fmap_app in Hnd. by apply NoDup_app in Hnd as [? _].
Qed.

Definition sel_fn (o : send_opt) : option callback := match o with so_queue_failure f | so_queue_full f => Some f | _ => None end.
Definition opt_pairs (wire opts : list send_opt) : list (ptr * object) := zip (omap sel_fn wire) (obj_fn <$> omap sel_fn opts).

Lemma same_fns (ws os : list send_opt) : erase_option <$> ws = erase_option <$> os → length (omap sel_fn ws) = length (omap sel_fn os).
Proof.
  revert os. induction ws as [|w ws IH]; intros [|o os] Hs; try done. rewrite !fmap_cons in Hs. injection Hs as Ho Hl. specialize (IH os Hl).
  cbn [omap list_omap]. by destruct w as [| | | | | | | | | |[]], o as [| | | | | | | | | |[]]; cbn in Ho |- *; simplify_eq; rewrite ?IH.
Qed.

Lemma opt_pairs_app w1 w2 o1 o2 :
  erase_option <$> w1 = erase_option <$> o1 → opt_pairs (w1 ++ w2) (o1 ++ o2) = opt_pairs w1 o1 ++ opt_pairs w2 o2.
Proof. intros Hs. unfold opt_pairs. rewrite !omap_app, fmap_app. apply zip_with_app. rewrite length_fmap. by apply same_fns. Qed.

Lemma serialize_option_placed : ∀ o x, let r := serialize_option o x in
  erase_option r.1 = erase_option o ∧ placed (opt_pairs (flat r.1) (flat o)) x r.2.
Proof.
  fix go 1. intros [| | | | | | | |f|f|[o|]] x; cbn [serialize_option]; try (clear go; split; [done|apply placed_none]).
  - clear go. destruct (serialize_object (obj_fn f) x) as [p x'] eqn:E. split; [done|]. by apply placed_one.
  - clear go. destruct (serialize_object (obj_fn f) x) as [p x'] eqn:E. split; [done|]. by apply placed_one.
  - specialize (go o x). cbv zeta in go. destruct (serialize_option o x) as [o' x']. destruct go as [He Hp]. split; [|done].
    cbn in He |- *. by rewrite He.
Qed.

Lemma serialize_options_placed opts x : let r := serialize_options opts x in
  erase_option <$> r.1 = erase_option <$> opts ∧ placed (opt_pairs (flatten r.1) (flatten opts)) x r.2.
Proof.
  cbv zeta. revert x. induction opts as [|o opts IH]; intros x; cbn [serialize_options]; [split; [done|apply placed_none]|].
  pose proof (serialize_option_placed o x) as Ho. cbv zeta in Ho. destruct (serialize_option o x) as [o' x1]. cbn [fst snd] in Ho.
  specialize (IH x1). destruct (serialize_options opts x1) as [opts' x2]. cbn [fst snd] in *. destruct Ho as [E1 P1], IH as [E2 P2].
  split; [by rewrite !fmap_cons, E1, E2|]. unfold flatten. rewrite !bind_cons, opt_pairs_app; [by eapply placed_app|].
  pose proof (flatten_erase [o']) as F1. pose proof (flatten_erase [o]) as F2. cbn in F1, F2. rewrite !app_nil_r in F1, F2. by rewrite <-F1, <-F2, E1.
Qed.

(** Options given at most once: their objects are the ones the message names. *)
Lemma opt_pairs_once wire opts :
  erase_option <$> wire = erase_option <$> opts → once sel_queue_failure (flatten opts) → once sel_queue_full (flatten opts) →
  opt_pairs (flatten wire) (flatten opts) ≡ₚ option_objects wire opts.
Proof.
  intros Hs H1 H2.
  assert (∀ ws os, erase_option <$> ws = erase_option <$> os → opt_pairs ws os ≡ₚ
    zip (omap sel_queue_failure ws) (obj_fn <$> omap sel_queue_failure os) ++ zip (omap sel_queue_full ws) (obj_fn <$> omap sel_queue_full os)) as Hsplit.
  { clear. induction ws as [|w ws IH]; intros [|o os] Hs; try done. rewrite !fmap_cons in Hs. injection Hs as Ho Hl. specialize (IH os Hl).
    unfold opt_pairs in *. cbn [omap list_omap].
    destruct w as [| | | | | | | | | |[]], o as [| | | | | | | | | |[]]; cbn in Ho; simplify_eq;
      cbn [sel_fn sel_queue_failure sel_queue_full]; rewrite ?fmap_cons; cbn [zip zip_with app]; rewrite IH; try done; solve_Permutation. }
  assert (∀ sel, once sel (flatten opts) → length (omap sel (flatten wire)) = length (omap sel (flatten opts)) →
    zip (omap sel (flatten wire)) (obj_fn <$> omap sel (flatten opts)) = fn_object (last_of sel (flatten wire)) (last_of sel (flatten opts))) as Hlast.
  { intros sel Hone Hl. unfold once in Hone. rewrite !last_of_omap. destruct (omap sel (flatten wire)) as [|p [|]], (omap sel (flatten opts)) as [|f [|]];
      cbn in Hone, Hl; try lia; done. }
  rewrite (Hsplit _ _ (same_flatten _ _ Hs)). unfold option_objects.
  rewrite !Hlast; [done|done|apply (same_length _ _ Hs); same_sel; by eauto|done|apply (same_length _ _ Hs); same_sel; by eauto].
Qed.

Lemma serialize_msg_placed nt m x : request_ok nt m → let r := serialize_msg m x in
  erase_msg r.1 = erase_msg m ∧ placed (msg_objects m r.1) x r.2 ∧ (length (msg_objects m r.1) <= 3)%nat.
Proof.
  intros Hm. assert (∀ w o, (length (option_objects w o) <= 2)%nat) as Hlen.
  { intros w o. unfold option_objects. rewrite length_app. assert (∀ p f, (length (fn_object p f) <= 1)%nat) as Hf by (intros [] []; cbn; lia).
    pose proof (Hf (last_of sel_queue_failure (flatten w)) (last_of sel_queue_failure (flatten o))).
    pose proof (Hf (last_of sel_queue_full (flatten w)) (last_of sel_queue_full (flatten o))). lia. }
  destruct m as [to cmd opts|tag to cmd f opts|pubkey_ opts|remote f g n opts|c linger|n job interval squelch thread|n]; cbn [serialize_msg request_ok] in *.
  - destruct Hm as (_ & _ & _ & H4 & H5 & _). pose proof (serialize_options_placed opts x) as Ho. cbv zeta in Ho.
    destruct (serialize_options opts x) as [opts' x1]. cbn [fst snd erase_msg msg_objects] in *. destruct Ho as [E P].
    split_and!; [by rewrite E|by eapply placed_perm; [apply opt_pairs_once|]|by etrans; [apply Hlen|lia]].
  - destruct Hm as ((_ & _ & _ & H4 & H5 & _) & _). pose proof (serialize_options_placed opts x) as Ho. cbv zeta in Ho.
    destruct (serialize_options opts x) as [opts' x1]. cbn [fst snd] in Ho. destruct Ho as [E P].
    destruct (serialize_object (obj_fn f) x1) as [p x2] eqn:E1. cbn [fst snd erase_msg msg_objects] in *. apply placed_one in E1.
    split_and!; [by rewrite E| |specialize (Hlen opts' opts); cbn [length]; lia]. pose proof (placed_app _ _ _ _ _ P E1) as Hp.
    eapply placed_perm; [|exact Hp]. rewrite (opt_pairs_once _ _ E H4 H5). symmetry. apply Permutation_cons_append.
  - split_and!; [done|apply placed_none|cbn; lia].
  - destruct (serialize_object (obj_fn f) x) as [p x1] eqn:E1. destruct (serialize_object (obj_fn g) x1) as [q x2] eqn:E2.
    split_and!; [done| |cbn; lia]. apply placed_one in E1, E2. apply (placed_app _ _ _ _ _ E1 E2).
  - split_and!; [done|apply placed_none|cbn; lia].
  - destruct (serialize_object (obj_fn job) x) as [p x1] eqn:E1. split_and!; [done|by apply placed_one|cbn; lia].
  - split_and!; [done|apply placed_none|cbn; lia].
Qed.

(** Nothing else changes. *)
Lemma serialize_msg_state m x : (serialize_msg m x).2 = with_objects (px_objects (serialize_msg m x).2) x.
Proof.
  assert (∀ opts, (serialize_options opts x).2 = with_objects (px_objects (serialize_options opts x).2) x) as Ho.
  { intros opts. apply (pl_state _ _ _ (proj2 (serialize_options_placed opts x))). }
  destruct m as [to cmd opts|tag to cmd f opts|pubkey_ opts|remote f g n opts|c linger|n job interval squelch thread|n];
    cbn [serialize_msg serialize_object fst snd]; try (by destruct x); specialize (Ho opts);
    destruct (serialize_options opts x) as [opts' x1]; cbn [snd] in Ho |- *; [done|]. by rewrite Ho.
Qed.
End serialize.
