(* ===== verification/LoopInv.v ===== *)
(** The whole proxy: what holds of its tables, timers, scheduler and control messages
    together, and that its loop handles everything that can arrive. *)
From S2P Require Import Prelude BtValue BtSerialize BtCodec BtConsumer Address Commands Connections Control Auth Net NetInv Batch Admission Scheduler BatchOwner SchedulerInv Frame Proxy Timers Loop Handover.
Open Scope Z_scope.

(** ** What the handlers do besides *)
Definition is_job (eff : effect) : bool := match eff with eff_job _ => true | _ => false end.

(** Effects without [job()]. *)
Definition no_jobs (effs : list effect) : Prop := Forall (λ eff, is_job eff = false) effs.

Lemma answer_request_no_jobs tag success data n : no_jobs (answer_request tag success data n).2.
Proof. unfold answer_request, no_jobs. destruct (pending_requests n !! tag) as [[]|]; repeat constructor. Qed.

Lemma handle_hello_frame index n n' effs :
  handle_hello index n = Ok (n', effs) → no_jobs effs ∧ connections (tables n') = connections (tables n).
Proof.
  unfold handle_hello. cbv zeta. case_match eqn:E; [destruct p as [i pc]|intros [= <- <-]; by split; [constructor|]].
  destruct (List.find _ _); [|intros [= <- <-]; by split; [constructor|]]. case_match; [|done]. intros [= <- <-]. by split; [repeat constructor|].
Qed.

Lemma close_marks_stale index l cs cs' : proxy_close_connection index l cs = Ok cs' → pollitems_stale cs' = true.
Proof. unfold proxy_close_connection. destruct (negb _); [done|]. destruct (negb _); [done|]. by intros [= <-]. Qed.

(** The part of a message that holds the command. *)
Definition command_part (sock : zmq_socket) : nat := match sock_type sock with router => 1%nat | dealer => 0%nat end.

(** A built-in command queues no job through the control socket; the sockets keep their
    numbers unless the poll items are marked stale; a message that is not built in has
    changed nothing and has a command. *)
Definition builtin_leaves (sock : zmq_socket) (parts : list bytes) (n : net) (b : bool) (n' : net) (effs : list effect) : Prop :=
  no_jobs effs ∧ (pollitems_stale (tables n') = true ∨ connections (tables n') = connections (tables n)) ∧
  (b = false → n' = n ∧ effs = [] ∧ is_Some (parts !! command_part sock)).

Lemma builtin_frame zmq_send index parts n b n' effs :
  proxy_handle_builtin zmq_send index parts n = Ok (b, n', effs) →
  ∃ sock, connections (tables n) !! index = Some sock ∧ builtin_leaves sock parts n b n' effs.
Proof.
  unfold proxy_handle_builtin. destruct (connections (tables n) !! index) as [sock|] eqn:Es; [|done]. cbv zeta.
  fold (command_part sock). set (inc := command_part sock) in *. intros E. exists sock. split; [done|]. revert E.
  assert (Ok (true, n, @nil effect) = Ok (b, n', effs) → builtin_leaves sock parts n b n' effs) as Hnone.
  { intros [= <- <- <-]. split_and!; [constructor|by right|done]. }
  destruct (parts !! inc) as [cmd|] eqn:Ec; [|done].
  assert (∀ tag success data, (let (m, l) := answer_request tag success data n in Ok (true, m, l)) = Ok (b, n', effs) →
    builtin_leaves sock parts n b n' effs) as Hans.
  { intros tag success data E. pose proof (answer_request_no_jobs tag success data n) as Hj.
    pose proof (answer_request_tables tag success data n) as Ht. destruct (answer_request _ _ _ _) as [m l]. injection E as <- <- <-.
    cbn [fst snd] in *. split_and!; [done|right; by rewrite Ht|done]. }
  destruct (bytes_eqb cmd (B "REPLY")); [destruct (parts !! (1 + inc)%nat) as [tag|]; [apply Hans|done]|].
  destruct (bytes_eqb cmd (B "HI")).
  { destruct (inc =? 0)%nat; [done|]. intros E. inv_bind. destruct a as [res i]. injection E as <- <- <-.
    split_and!; [destruct res; repeat constructor|by right|done]. }
  destruct (bytes_eqb cmd (B "HELLO")).
  { destruct (inc =? 1)%nat; [done|]. intros E. inv_bind. destruct a as [m l]. injection E as <- <- <-.
    match goal with H : handle_hello _ _ = _ |- _ => apply handle_hello_frame in H as [Hj Ht] end. split_and!; [done|by right|done]. }
  destruct (bytes_eqb cmd (B "BYE")).
  { destruct (inc =? 0)%nat; [|done]. intros E. inv_bind. injection E as <- <- <-.
    split_and!; [constructor|left; by eapply close_marks_stale|done]. }
  destruct (is_error_response cmd).
  - destruct (_ && _); [done|]. destruct (_ && _); [apply Hans|done].
  - intros [= <- <- <-]. split_and!; [constructor|by right|]. intros _. split_and!; [done|done|by exists cmd].
Qed.

(** ** The tables after a message was given to a worker *)
Lemma conns_ok_update i c p p' cs :
  conns_ok cs → peers cs !! i = Some (c, p) → conn_index p' = conn_index p → peer_route p' = peer_route p →
  conns_ok (set_peers (<[i := (c, p')]> (peers cs)) cs).
Proof.
  intros Hok Hp Hi Hr. rewrite <-(take_drop_middle _ _ _ Hp) at 1. rewrite insert_app_r_alt.
  2:{ rewrite length_take. lia. }
  rewrite length_take_le by (apply lookup_lt_Some in Hp; lia). rewrite Nat.sub_diag. cbn.
  eapply conns_ok_replace; [done| |done..]. symmetry. by apply take_drop_middle.
Qed.

Lemma conns_ok_add_incoming c p cs :
  conns_ok cs → peer_route p ≠ [] → (∃ s, connections cs !! conn_index p = Some s ∧ sock_type s = router) →
  conns_ok (set_peers (peers cs ++ [(c, p)]) cs).
Proof.
  intros [H1 H2 H3 H4 H5 H6 H7 H8] Hr Hs. assert (outgoing p = false) as Ho by (unfold outgoing; by apply bool_decide_eq_false_2).
  split; cbn; [done| | | |done..].
  - intros c' p' [Hp|Hp%list_elem_of_singleton]%elem_of_app; [by apply H2|]. injection Hp as -> ->. congruence.
  - rewrite outgoing_indices_app. unfold outgoing_indices at 2. cbn. by rewrite Ho, app_nil_r.
  - intros c' p' [Hp|Hp%list_elem_of_singleton]%elem_of_app; [by apply (H4 c')|]. by injection Hp as -> ->.
Qed.

(** The sockets and the stale mark are kept. *)
Definition same_sockets (cs cs' : conns) : Prop :=
  connections cs' = connections cs ∧ pollitems_stale cs' = pollitems_stale cs.

#[export] Instance same_sockets_refl : Reflexive same_sockets.
Proof. by split. Qed.

Lemma incoming_lookup_conns index m rt cs p rt' cs' sock :
  incoming_lookup index m rt cs = Ok (p, rt', cs') → conns_ok cs → connections cs !! index = Some sock → sock_type sock = router →
  rt ≠ [] → conns_ok cs' ∧ same_sockets cs cs'.
Proof.
  intros E Hok Hs Ht Hrt. unfold incoming_lookup in E. inv_bind. rename a into tmp.
  assert (conn_index tmp = index ∧ peer_route tmp = rt) as [Hi Hr].
  { match goal with H : incoming_peer _ _ _ _ _ = _ |- _ => unfold incoming_peer in H; inv_bind end. destruct a as [k l]. by simplify_eq. }
  destruct (service_node tmp); [|injection E as <- <- <-; by split]. inv_bind.
  case_match eqn:El; [destruct p0 as [i [c' q]]|]; injection E as <- <- <-; (split; [|by split]).
  - apply list_find_Some in El as (Hl & _ & _). eapply conns_ok_update; [done|exact Hl|done|done].
  - apply conns_ok_add_incoming; [done|by rewrite Hr|]. rewrite Hi. by exists sock.
Qed.

Lemma pump_activity_conns index now cs : conns_ok cs → conns_ok (pump_activity index now cs) ∧ same_sockets cs (pump_activity index now cs).
Proof.
  intros Hok. unfold pump_activity. destruct (conn_index_to_id cs !! index); [|by split].
  case_match eqn:El; [destruct p as [i [c' q]]|by split]. split; [|by split].
  apply list_find_Some in El as (Hl & _ & _). eapply conns_ok_update; [done|exact Hl|done|done].
Qed.

Lemma to_worker_conns lsn aliases index m cs s cs' s' r :
  proxy_to_worker lsn aliases index m cs s = Ok (cs', s', r) → conns_ok cs → routed cs index (in_parts m) →
  conns_ok cs' ∧ same_sockets cs cs'.
Proof.
  intros E Hok Hr. unfold proxy_to_worker in E. destruct (connections cs !! index) as [sock|] eqn:Es; [|done].
  cbv zeta in E. inv_bind. destruct a as [[[peer rt] cs1]|]; [|injection E as <- <- <-; by split].
  assert (conns_ok cs1 ∧ same_sockets cs cs1) as [Hok1 Hs1].
  { match goal with H : locate_peer _ _ _ _ = _ |- _ => rename H into El end. unfold locate_peer in El. destruct (sock_type sock) eqn:Et.
    - specialize (Hr sock Es Et). destruct (in_parts m) as [|rt0 ps] eqn:Ep; [done|]. inv_bind. injection El as ->.
      eapply incoming_lookup_conns; [done|done|done|done|]. intros ->. by apply Hr.
    - destruct (conn_index_to_id cs !! index) as [c0|]; [|done]. destruct (list_find _ _) as [[i [c p]]|]; [|done]. by injection El as <- <- <-. }
  set (out := match sock_type sock with dealer => true | router => false end) in *.
  assert (conns_ok (if out then pump_activity index (in_now m) cs1 else cs1) ∧
          same_sockets cs (if out then pump_activity index (in_now m) cs1 else cs1)) as [Hok2 Hs2].
  { destruct out; [|done]. destruct (pump_activity_conns index (in_now m) cs1 Hok1) as [? [E1 E2]]. split; [done|].
    destruct Hs1 as [E3 E4]. split; congruence. }
  repeat case_match; try done; inv_bind; simplify_eq; try done; repeat case_match; inv_bind; simplify_eq; done.
Qed.

(** The effects of the traffic handlers: few jobs, each for a request, or none. *)
Lemma net_step_effects e i n n' effs :
  conns_ok (tables n) → net_enabled e i n → net_step e i n = Ok (n', effs) →
  no_jobs effs ∨ (length effs <= 3 + size (pending_requests n))%nat.
Proof.
  intros Hok He E. assert (no_jobs []) as H0 by constructor.
  destruct i as [a|c send|index parts| |a|a|c|pubkeys|added removed]; cbn [net_step net_enabled] in *.
  - right. destruct He as [[parts Ha] Hinc].
    destruct (proxy_send_ok (env_send e) (env_lookup e) (env_connect e) a parts (env_now e) n Hok Ha Hinc) as (n2 & effs2 & E2 & _ & Hc).
    rewrite E in E2. injection E2 as <- <-. unfold request_failed, report, not_sent in Hc.
    destruct Hc as [(s & rt & -> & _)|[_ [->|[num ->]]]]; rewrite ?length_app; repeat case_match; cbn [length]; lia.
  - left. destruct He as (parts & -> & Hps). destruct (proxy_reply_ok (env_send e) c parts n Hok Hps) as (n2 & effs2 & E2 & _ & _ & Hc).
    rewrite E in E2. injection E2 as <- <-. destruct Hc as [->|(s & rt & ->)]; [done|repeat constructor].
  - left. inv_bind. destruct a as [[b n2] effs2]. injection E as <- <-. by apply builtin_frame in E0 as (s & _ & Hj & _).
  - right. destruct (conn_cleanup_ok (env_now e) n Hok He) as (cs' & _ & _ & E2). rewrite E in E2. unfold time_out_requests in E2.
    injection E2 as _ ->. rewrite length_fmap. etrans; [apply length_filter|]. rewrite length_map_to_list. cbn. lia.
  - left. unfold handle_connect_sn in E. destruct (cs_keep_alive a); [|done]. inv_bind. destruct a0. by injection E as _ <-.
  - left. unfold handle_connect_remote in E. destruct (auth_of_val _); [|done]. inv_bind. destruct a1 as [[] cs'].
    + destruct (send_direct_message _ _ _ _).1; [injection E as _ <-; repeat constructor|by injection E as _ <-|done].
    + injection E as _ <-. repeat constructor.
  - left. unfold handle_disconnect in E. inv_bind. by injection E as _ <-.
  - left. inv_bind. by injection E as _ <-.
  - left. inv_bind. by injection E as _ <-.
Qed.

(** ** The invariant *)
Section loop_inv.
Context `{Allocator} (cf : config).
Context (nt : nat) (names : list bytes) (res : kind → Z) (gen : Z).
Context (Hnames : NoDup names) (Hres : ∀ k, 0 <= res k) (Hgen : 0 < gen) (Hslots : slots (kinds names) res gen < 2 ^ 31).

(** The waiting control messages are those of calls, and between them hold exactly the
    objects in flight. *)
Record control_ok (x : proxy) (ms : list (bytes * sent)) : Prop := {
  co_msgs : px_control x = (λ rm, rm.1 :: sent_parts cf rm.2) <$> ms;
  co_sent : Forall (λ rm, sent_ok nt names rm.2) ms;
  co_owned : map_to_list (px_objects x) ≡ₚ ms ≫= (λ rm, sent_objects rm.2)
}.

Record proxy_ok (x : proxy) : Prop := {
  pk_conns : conns_ok (tables (px_net x));
  pk_timed : timed_ok names res gen (px_timers x, px_sched x);
  pk_threads : length (tagged_workers (px_sched x)) = nt;
  pk_control : ∃ ms, control_ok x ms;
  pk_apart : dom (px_objects x) ## dom (heap (px_sched x))
}.

Definition memory_for (k : nat) (x : proxy) : Prop := Z.of_nat (size (in_use x) + k) < 2 ^ 64.

Lemma fresh_address x : new_address (in_use x) ∉ dom (heap (px_sched x)) ∧ new_address (in_use x) ∉ dom (px_objects x).
Proof using Type. clear -H. pose proof (new_address_fresh (in_use x)) as Hf. unfold in_use in *. set_solver. Qed.

(** *** Scheduler steps *)
Definition new_of (i : input) : gset ptr :=
  match i with in_batch p _ | in_job p _ _ | in_reply p _ => {[p]} | _ => ∅ end.

Lemma handle_dom i t s t' s' :
  timed_ok names res gen (t, s) → enabled i s → timed_handle i t s = Ok (t', s') →
  dom (heap s') ⊆ dom (heap s) ∪ new_of i ∧ length (tagged_workers s') = length (tagged_workers s).
Proof using Hnames Hres Hgen Hslots.
  intros [Hi Hids Hld Ht] He E. cbn [fst snd] in *. unfold timed_handle in E. inv_bind. injection E as _ ->. destruct (is_ran i) eqn:Er.
  - destruct i as [| | | | |tagged w|]; try done. destruct (ran_bound names res gen Hslots tagged w s Hi He) as [Hw Hlt].
    rewrite handle_ran in E0 by done.
    destruct (worker_ran_frame tagged w (routing_id tagged w) s s' Hids) as (_ & _ & Hl & _ & run & k & _ & _ & Hf);
      [|by apply ran_busy|apply Hi|done|].
    { rewrite (a_max _ _ _ _ _ (proj1 (inv_acct _ _ _ _ Hi))). pose proof (slots_pos names res gen Hres Hgen). lia. }
    split; [|done]. destruct (is_batch_job run); [|destruct Hf as [-> _]; set_solver].
    destruct Hf as (p & _ & Hf%ran_fate_dom). set_solver.
  - destruct (handle_acts i s s' Hld He Er E0 Hids) as [k Hk]. split; [|apply (act_tagged _ _ _ Hk)].
    destruct i as [p b|p f thread|p f|n command_ remote_ cb|lsn aliases index m cs|tagged w|]; cbn [handle new_of] in *; try done.
    + unfold submit_batch in E0. destruct (_ =? _)%nat; [done|]. apply proxy_batch_heap in E0 as ->. cbn. set_solver.
    + unfold submit_job in E0. case_bool_decide; [done|]. inv_bind. apply proxy_batch_heap in E0 as ->. cbn. set_solver.
    + injection E0 as <-. cbn. set_solver.
    + apply inject_heap in E0 as ->. set_solver.
    + inv_bind. destruct a as [[cs' s1] r]. injection E0 as <-.
      match goal with Hw : proxy_to_worker _ _ _ _ _ _ = _ |- _ => apply to_worker_heap in Hw as -> end. set_solver.
    + apply process_queue_heap in E0 as ->. set_solver.
Qed.

Lemma run_sched_ok i f x :
  proxy_ok x → enabled i (px_sched x) → new_of i ## dom (px_objects x) → f (px_sched x) = handle i (px_sched x) →
  ∃ x', run_sched f x = Ok (x', []) ∧ proxy_ok x' ∧ px_net x' = px_net x ∧ px_objects x' = px_objects x ∧ px_control x' = px_control x.
Proof using Hnames Hres Hgen Hslots.
  intros [Hc Ht Hn Hm Ha] He Hd Ef.
  destruct (timed_handle_ok names res gen Hnames Hres Hgen Hslots i _ _ Ht He) as (t' & s' & E & Hok).
  destruct (handle_dom i _ _ _ _ Ht He E) as [Hdom Hlen]. unfold timed_handle in E. inv_bind. injection E as <- ->.
  unfold run_sched. rewrite Ef, E0. cbn [mbind outcome_bind]. eexists. split; [done|]. split_and!; try done.
  split; [done|exact Hok|cbn; by rewrite Hlen| |].
  - destruct Hm as [ms []]. by exists ms.
  - cbn. clear -Ha Hdom Hd. set_solver.
Qed.

(** *** Sending *)
Lemma control_ok_send rt m x x' ms :
  control_ok x ms → sent_ok nt names m → px_control x' = px_control x ++ [rt :: sent_parts cf m] →
  map_to_list (px_objects x') ≡ₚ sent_objects m ++ map_to_list (px_objects x) → control_ok x' (ms ++ [(rt, m)]).
Proof using Type.
  clear -H. intros [H1 H2 H3] Hm Hc Ho. split.
  - by rewrite Hc, H1, fmap_app.
  - apply Forall_app. split; [done|]. by apply Forall_singleton.
  - rewrite Ho, H3, bind_app. cbn. rewrite app_nil_r. apply Permutation_app_comm.
Qed.

(** The message that hands over one object; a function goes with its call. *)
Definition object_msg (p : ptr) (o : object) : sent :=
  match o with
  | obj_batch b => sent_batch p b
  | obj_task cat_ command_ remote_ cb => sent_task p cat_ command_ remote_ cb
  | obj_keys keys => sent_set_sns p keys
  | obj_fn _ => sent_start
  end.

Definition object_ok (o : object) : Prop :=
  match o with obj_batch b => batch_fits nt b | obj_task cat_ _ _ _ => cat_ ∈ names | obj_keys _ => True | obj_fn _ => False end.

Lemma object_added p o x : p ∉ dom (px_objects x) → map_to_list (<[p := o]> (px_objects x)) ≡ₚ (p, o) :: map_to_list (px_objects x).
Proof using Type. intros Hp%not_elem_of_dom. by apply map_to_list_insert. Qed.

Lemma send_object_ok rt o x :
  proxy_ok x → memory_for 0 x → object_ok o → proxy_ok (send_object rt (sent_cmd (object_msg 0 o)) o x).
Proof using Type.
  clear -H. intros [Hc Ht Hn [ms Hm] Ha] Hmem Ho. destruct (fresh_address x) as [Hf1 Hf2]. unfold send_object, serialize_object.
  set (p := new_address (in_use x)) in *.
  assert (ptr_ok p) as Hp by (apply new_address_fits; unfold memory_for in Hmem; by rewrite Nat.add_0_r in Hmem).
  split; [done|done|done| |].
  - exists (ms ++ [(rt, object_msg p o)]). eapply control_ok_send; [exact Hm| | |].
    + split_and!; destruct o; try done; first [by apply Forall_singleton|apply NoDup_singleton].
    + unfold send_control. cbn [px_control with_control with_objects]. rewrite sent_parts_data by by destruct o.
      rewrite bool_decide_eq_false_2 by apply int_data_nonempty. by destruct o.
    + cbn. rewrite object_added by done. by destruct o.
  - cbn. rewrite dom_insert. set_solver.
Qed.

(** *** Effects *)
Lemma one_job_fits f : batch_fits nt (add_job_thread f 0 new_batch).
Proof using Type.
  clear. split_and!; [by split|done|done|done|cbn; lia|]. apply Forall_singleton. cbn. lia.
Qed.

Lemma size_add (p : ptr) (X : gset ptr) : (size ({[p]} ∪ X) <= S (size X))%nat.
Proof using Type.
  clear. rewrite size_union_alt, size_singleton. assert (size (X ∖ {[p]}) <= size X)%nat by (apply subseteq_size; set_solver). lia.
Qed.

Lemma run_effect_ok eff x :
  proxy_ok x → (is_job eff = true → memory_for 0 x) →
  proxy_ok (run_effect cf eff x) ∧ px_net (run_effect cf eff x) = px_net x ∧ (size (in_use (run_effect cf eff x)) <= S (size (in_use x)))%nat.
Proof using Hnames Hres Hgen Hslots.
  intros Hx Hmem. destruct (fresh_address x) as [Hf1 Hf2]. destruct eff as [c|c|sock parts]; cbn [run_effect].
  - set (p := new_address (in_use x)) in *. split_and!; [|done|].
    + destruct Hx as [Hc Ht Hn Hm Ha].
      destruct (timed_handle_ok names res gen Hnames Hres Hgen Hslots (in_reply p (cf_fn cf c)) _ _ Ht Hf1) as (t' & s' & E & Hok).
      destruct (handle_dom (in_reply p (cf_fn cf c)) _ _ _ _ Ht Hf1 E) as [Hdom Hlen]. unfold timed_handle in E. cbn [handle mbind outcome_bind] in E.
      injection E as Et Es. rewrite (new_events_app _ _ []) in Et by done. cbn in Et. subst t' s'.
      split; [done|exact Hok|cbn; by rewrite <-Hn, <-Hlen| |].
      * destruct Hm as [ms []]. by exists ms.
      * cbn [px_objects px_sched with_sched]. cbn [new_of] in Hdom. clear -Ha Hdom Hf2. set_solver.
    + etrans; [|apply (size_add p)]. apply subseteq_size. unfold in_use. cbn. rewrite dom_insert. clear. set_solver.
  - change (B "BATCH") with (sent_cmd (object_msg 0 (obj_batch (add_job_thread (cf_fn cf c) 0 new_batch)))). split_and!; [|done|].
    + apply send_object_ok; [done|by apply Hmem|apply one_job_fits].
    + etrans; [|apply (size_add (new_address (in_use x)))]. apply subseteq_size. unfold in_use, send_object, serialize_object. cbn.
      rewrite dom_insert. clear. set_solver.
  - split_and!; [done|done|lia].
Qed.

Lemma run_effects_ok effs x :
  proxy_ok x → no_jobs effs ∨ memory_for (length effs) x →
  proxy_ok (run_effects cf effs x) ∧ px_net (run_effects cf effs x) = px_net x.
Proof using Hnames Hres Hgen Hslots.
  revert x. induction effs as [|eff effs IH]; intros x Hx Hm; [done|]. unfold run_effects. cbn [foldl]. fold (run_effects cf effs (run_effect cf eff x)).
  destruct (run_effect_ok eff x Hx) as (Hx' & Hn & Hs).
  { intros Hj. destruct Hm as [[Hj' _]%Forall_cons|Hm]; [congruence|]. unfold memory_for in *. cbn [length] in Hm. lia. }
  destruct (IH _ Hx') as [H1 H2]; [|split; [done|congruence]].
  destruct Hm as [[_ Hm]%Forall_cons|Hm]; [by left|right]. unfold memory_for in *. cbn [length] in Hm. lia.
Qed.

(** *** Traffic *)
Definition room (x : proxy) : Prop := memory_for (3 + size (pending_requests (px_net x))) x.

Lemma run_net_ok e i x :
  proxy_ok x → net_enabled e i (px_net x) → room x → ∃ x' out, run_net cf e i x = Ok (x', out) ∧ proxy_ok x'.
Proof using Hnames Hres Hgen Hslots.
  intros Hx He Hm. destruct (net_step_ok e i (px_net x) (pk_conns _ Hx) He) as (n' & effs & E & Hok). unfold run_net. rewrite E.
  cbn [mbind outcome_bind]. eexists _, _. split; [done|]. apply run_effects_ok.
  - destruct Hx as [_ Ht Hn [ms []] Ha]. split; try done. by exists ms.
  - destruct (net_step_effects e i _ _ _ (pk_conns _ Hx) He E) as [|Hl]; [by left|right]. unfold room, memory_for in *.
    change (in_use (with_net n' x)) with (in_use x). lia.
Qed.

(** *** Calls *)
Definition call_ok (c : call) : Prop :=
  match c with
  | call_msg m => request_ok nt m
  | call_batch b => batch_fits nt b
  | call_job f thread => ∀ t, thread = Some t → 0 < t <= Z.of_nat nt
  | call_inject cat_ _ _ _ => cat_ ∈ names
  | call_set_sns _ | call_update_sns _ _ | call_start => True
  end.

Lemma add_job_fits f thread :
  (∀ t, thread = Some t → 0 < t <= Z.of_nat nt) → ∃ b, add_job f thread new_batch = Ok b ∧ batch_fits nt b.
Proof using Type.
  clear. intros Ht. unfold add_job. rewrite bool_decide_eq_false_2; [|intros ->; specialize (Ht _ eq_refl); lia].
  cbn [b_started new_batch]. eexists. split; [done|]. assert (0 <= default 0 thread <= Z.of_nat nt) as Hd.
  { destruct thread as [t|]; cbn; [specialize (Ht t eq_refl)|]; lia. }
  split_and!; [|done|done|done|cbn; lia|apply Forall_singleton; cbn; lia]. split; [done|done|]. cbn. by destruct (_ =? 0).
Qed.

Lemma send_control_ok rt m x :
  proxy_ok x → sent_ok nt names m → sent_objects m = [] → proxy_ok (send_control rt (sent_cmd m) (sent_data cf m) x).
Proof using Type.
  clear -H. intros [Hc Ht Hn [ms Hm] Ha] Hok Ho. split; try done. exists (ms ++ [(rt, m)]).
  eapply control_ok_send; [exact Hm|done|done|by rewrite Ho].
Qed.

Lemma update_sns_ok rt added removed x : proxy_ok x → memory_for 2 x → proxy_ok (update_active_sns rt added removed x).
Proof using Type.
  clear -H. intros [Hc Ht Hn [ms Hm] Ha] Hmem. unfold update_active_sns, serialize_object. destruct (fresh_address x) as [Hf1 Hf2].
  set (p := new_address (in_use x)) in *. set (x1 := with_objects _ x). destruct (fresh_address x1) as [Hf3 Hf4].
  set (q := new_address (in_use x1)) in *. unfold memory_for in Hmem.
  assert (ptr_ok p) as Hp by (apply new_address_fits; lia).
  assert (ptr_ok q) as Hq.
  { apply new_address_fits. assert (size (in_use x1) <= S (size (in_use x)))%nat; [|lia]. etrans; [|apply (size_add p)].
    apply subseteq_size. unfold in_use, x1. cbn. rewrite dom_insert. clear. set_solver. }
  assert (p ≠ q) as Hpq by (intros <-; apply Hf4; unfold x1; cbn; rewrite dom_insert; clear; set_solver).
  split; [done|done|done| |].
  - exists (ms ++ [(rt, sent_update_sns p added q removed)]). eapply control_ok_send; [exact Hm| |done|].
    + split_and!; [by repeat constructor| |done]. apply NoDup_cons. split; [by intros ?%list_elem_of_singleton|apply NoDup_singleton].
    + cbn [px_objects send_control with_control with_objects]. rewrite (object_added q (obj_keys removed) x1) by done.
      unfold x1. cbn [px_objects with_objects]. rewrite (object_added p (obj_keys added) x) by done. cbn. apply Permutation_swap.
  - cbn [px_objects send_control with_control with_objects px_sched]. rewrite dom_insert. unfold x1. cbn [px_objects with_objects].
    rewrite dom_insert. change (heap (px_sched x1)) with (heap (px_sched x)) in Hf3. clear -Ha Hf1 Hf3. set_solver.
Qed.

Lemma serialize_msg_ok rt m x :
  proxy_ok x → request_ok nt m → memory_for 3 x → let r := serialize_msg m x in
  proxy_ok (send_control rt (request_cmd r.1) (request_data cf r.1) r.2).
Proof using Type.
  clear -H. intros [Hc Ht Hn [ms Hm] Ha] Hok Hmem r. destruct (serialize_msg_placed nt m x Hok) as (He & Hp & Hl). fold r in He, Hp, Hl.
  destruct (placed_held _ _ _ Hp) as [_ Hnd]. pose proof (pl_state _ _ _ Hp) as Es. destruct r as [wire x']. cbn [fst snd] in *.
  assert (px_net x' = px_net x ∧ px_timers x' = px_timers x ∧ px_sched x' = px_sched x ∧ px_control x' = px_control x) as (E1 & E2 & E3 & E4) by by rewrite Es.
  split; [by cbn; rewrite E1|by cbn; rewrite E2, E3|by cbn; rewrite E3| |].
  - exists (ms ++ [(rt, sent_msg m wire)]). eapply control_ok_send; [exact Hm| |by cbn; rewrite E4|apply (pl_objects _ _ _ Hp)].
    split_and!; [|done..]. apply (pl_ptrs _ _ _ Hp). unfold memory_for in Hmem. cbn [sent_objects]. lia.
  - cbn [px_objects px_sched send_control with_control]. rewrite E3. intros p [o Ho%elem_of_map_to_list]%elem_of_dom Hph.
    rewrite (pl_objects _ _ _ Hp) in Ho. apply elem_of_app in Ho as [Ho|Ho%elem_of_map_to_list].
    + pose proof (pl_heap _ _ _ Hp) as Hh. rewrite Forall_forall in Hh. by apply (Hh _ Ho).
    + apply (Ha p); [|done]. apply elem_of_dom. by exists o.
Qed.

Lemma client_call_ok rt c x : proxy_ok x → call_ok c → memory_for 3 x → ∃ x', client_call cf rt c x = Ok x' ∧ proxy_ok x'.
Proof using Type.
  clear -H. intros Hx Hc Hmem. assert (memory_for 0 x) as Hm0 by (unfold memory_for in *; lia).
  destruct c as [m|b|f thread|cat_ command_ remote_ [cb|]|keys|added removed|]; cbn [client_call call_ok] in *.
  - pose proof (serialize_msg_ok rt m x Hx Hc Hmem) as Hx'. cbv zeta in Hx'. destruct (serialize_msg m x) as [wire x']. eexists. split; [done|exact Hx'].
  - unfold batch_call, batch_size. destruct (_ =? 0)%nat eqn:E; cbn [fst] in E.
    + destruct Hc as (_ & Hne & _). by destruct (jobs b).
    + eexists. split; [done|]. by apply (send_object_ok rt (obj_batch b)).
  - unfold job_call. rewrite bool_decide_eq_false_2; [|intros ->; specialize (Hc _ eq_refl); lia].
    destruct (add_job_fits f thread Hc) as (b & -> & Hb). eexists. split; [done|]. by apply (send_object_ok rt (obj_batch b)).
  - unfold inject_task. destruct (a_cats _ _ _ _ _ (proj1 (inv_acct _ _ _ _ (to_inv _ _ _ _ (pk_timed _ Hx)))) cat_) as [_ Hcat].
    destruct (Hcat Hc) as [k Hk]. cbn [snd] in Hk. rewrite Hk. eexists. split; [done|].
    by apply (send_object_ok rt (obj_task cat_ command_ remote_ cb)).
  - by exists x.
  - eexists. split; [done|]. by apply (send_object_ok rt (obj_keys keys)).
  - eexists. split; [done|]. apply update_sns_ok; [done|]. unfold memory_for in *. lia.
  - eexists. split; [done|]. apply (send_control_ok rt sent_start); [done| |done]. split_and!; by constructor.
Qed.

(** *** Control messages *)
Lemma drop_objects_owned l objs rest : map_to_list objs ≡ₚ l ++ rest → map_to_list (drop_objects l objs) ≡ₚ rest.
Proof using Type.
  clear. revert objs. induction l as [|[p o] l IH]; intros objs Hp; [done|]. cbn. apply IH.
  assert (objs !! p = Some o) as Ho by (apply elem_of_map_to_list; rewrite Hp; by left).
  pose proof (map_to_list_delete objs p o Ho) as Hd. rewrite Hp in Hd. by apply Permutation_cons_inv in Hd.
Qed.

(** The state in which a message is handled: the message and its objects are gone. *)
Definition taken (i : nat) (m : sent) (x : proxy) : proxy :=
  with_objects (drop_objects (sent_objects m) (px_objects x)) (with_control (delete i (px_control x)) x).

Lemma taken_ok i rt m x ms :
  proxy_ok x → control_ok x ms → ms !! i = Some (rt, m) →
  proxy_ok (taken i m x) ∧ holds_objects (with_control (delete i (px_control x)) x) m ∧
  Forall (λ po, po.1 ∉ dom (heap (px_sched x)) ∧ po.1 ∉ dom (px_objects (taken i m x))) (sent_objects m).
Proof using Type.
  clear -H. intros [Hc Ht Hn _ Ha] [H1 H2 H3] Hi.
  assert (map_to_list (px_objects x) ≡ₚ sent_objects m ++ (delete i ms ≫= λ rm, sent_objects rm.2)) as Hp.
  { rewrite H3. rewrite (delete_Permutation ms i _ Hi) at 1. done. }
  assert (holds_objects x m) as Hh.
  { apply Forall_forall. intros [p o] Hpo. apply elem_of_map_to_list. rewrite Hp. apply elem_of_app. by left. }
  pose proof (drop_objects_owned _ _ _ Hp) as Hd.
  assert (NoDup ((map_to_list (px_objects x)).*1)) as Hnd by apply NoDup_fst_map_to_list.
  rewrite Hp, fmap_app in Hnd. apply NoDup_app in Hnd as (_ & Hnd & _).
  split_and!; [split; [done|done|done| |]|done|].
  - exists (delete i ms). split; [cbn; by rewrite H1, list_fmap_delete|by apply Forall_delete|exact Hd].
  - intros p Hpd Hph. apply (Ha p); [|done]. cbn in Hpd. apply elem_of_dom in Hpd as [o Ho%elem_of_map_to_list]. rewrite Hd in Ho.
    apply elem_of_dom. exists o. apply elem_of_map_to_list. rewrite Hp. apply elem_of_app. by right.
  - apply Forall_forall. intros [p o] Hpo. cbn [fst]. split.
    + intros Hph. apply (Ha p); [|done]. apply elem_of_dom. exists o. unfold holds_objects in Hh. rewrite Forall_forall in Hh. by apply (Hh (p, o)).
    + intros [o' Ho'%elem_of_map_to_list]%elem_of_dom. cbn in Ho'. rewrite Hd in Ho'. apply (Hnd p).
      * apply list_elem_of_fmap. by exists (p, o).
      * apply list_elem_of_fmap. by exists (p, o').
Qed.

(** What zmq and its timers answer: a new socket takes the first message, timers are
    numbered without repetition. *)
Definition env_ok (e : env) : Prop := ∀ s num, env_send e 0 s (B "HI") false ≠ send_error num.
Definition new_timer (zmq_id : Z) (x : proxy) : Prop := zmq_id ≠ -1 ∧ zmq_id ∉ dom (timer_jobs (px_timers x)).

Lemma send_enabled e to cmd opts n tag rq :
  send_ok to cmd opts → Forall size_ok tag →
  net_enabled e (ni_send (send_meaning to rq (encode_parts (cmd :: tag ++ (flatten opts ≫= parts_of))) opts)) n.
Proof using Type.
  clear. intros (H1 & H2 & H3 & _ & _ & H4) Ht. split.
  - exists (cmd :: tag ++ (flatten opts ≫= parts_of)). split_and!; [done| |].
    + constructor; [done|]. apply Forall_app. split; [done|by apply call_parts_size].
    + cbn. destruct (sn to) eqn:E; [by intros _; apply H4|]. intros Hsn. change (sn to = true) in Hsn. congruence.
  - cbn. destruct (sn to) eqn:E; [intros _; by apply H4|]. intros Hsn. change (sn to = true) in Hsn. congruence.
Qed.

Lemma request_enabled e m n :
  env_ok e → request_ok nt m →
  match m with
  | rq_send to cmd opts => net_enabled e (ni_send (send_args_of to cmd opts)) n
  | rq_request tag to cmd f opts => net_enabled e (ni_send (request_args_of tag to cmd f opts)) n
  | rq_connect_sn pubkey_ opts => net_enabled e (ni_connect_sn (connect_sn_meaning (cf_ephemeral cf) pubkey_ opts)) n
  | rq_connect_remote remote f g k opts => net_enabled e (ni_connect_remote (connect_remote_meaning (cf_ephemeral cf) remote f g k opts)) n
  | _ => True
  end.
Proof using Type.
  clear. intros He Hm. destruct m as [to cmd opts|tag to cmd f opts|pubkey_ opts|remote f g k opts|c linger|k job interval squelch thread|k];
    cbn [request_ok] in Hm; try done.
  - by apply (send_enabled e to cmd opts n []).
  - destruct Hm as (Hs & Ht). apply (send_enabled e to cmd opts n [tag]); [done|by apply Forall_singleton].
  - destruct Hm as [Hk _]. by split; [eexists|].
  - destruct Hm as (_ & Hn & _). split_and!; [|done| |done].
    + cbn. destruct (last_of sel_auth opts) as [v|] eqn:E; [|by eexists]. cbn.
      assert (∃ a, v = auth_val a) as [a ->]; [|by destruct a; eexists].
      clear -E. revert E. induction opts as [|o opts IH]; [done|]. rewrite last_of_cons.
      destruct (last_of sel_auth opts); [done|]. destruct o; cbn; try done. intros [= <-]. by eexists.
    + cbn. unfold zmq_address. by destruct (tcp remote).
Qed.

Lemma with_timers_ok t x : proxy_ok x → timed_ok names res gen (t, px_sched x) → proxy_ok (with_timers t x).
Proof using Type. clear -H. intros [Hc Ht Hn [ms []] Ha] Hok. split; try done. by exists ms. Qed.

Lemma room_taken i m x : room x → room (taken i m x).
Proof using Type.
  clear -H. unfold room, memory_for. intros Hr. assert (size (in_use (taken i m x)) <= size (in_use x))%nat; [|cbn [px_net taken with_objects with_control]; lia].
  apply subseteq_size. unfold in_use, taken. cbn. assert (dom (drop_objects (sent_objects m) (px_objects x)) ⊆ dom (px_objects x)); [|set_solver].
  generalize (sent_objects m) (px_objects x). intros l. induction l as [|[p o] l IH]; intros objs; [done|]. cbn. etrans; [apply IH|]. set_solver.
Qed.

Lemma handle_timer_ok zmq_id a x :
  proxy_ok x → new_timer zmq_id x → -1 <= ta_thread a <= Z.of_nat nt → ∃ x' out, handle_timer zmq_id a x = Ok (x', out) ∧ proxy_ok x'.
Proof using Hnames Hres Hgen Hslots.
  intros Hx [Hz1 Hz2] Ht.
  destruct (timed_step_ok names res gen Hnames Hres Hgen Hslots
    (ti_add zmq_id (ta_id a) (ta_func a) (ta_interval a) (ta_squelch a) (ta_thread a)) _ (pk_timed _ Hx)) as ([t' s'] & effs & E & Hok).
  { split; [done|]. split; [done|]. change (thread_id_ok (px_sched x) (ta_thread a)). unfold thread_id_ok. by rewrite (pk_threads _ Hx). }
  cbn [timed_step] in E. inv_bind. destruct a0 as [t effs']. injection E as <- <- <-. unfold handle_timer. rewrite E0.
  eexists _, _. split; [done|]. by apply with_timers_ok.
Qed.

Lemma handle_timer_del_ok id_ x : proxy_ok x → ∃ x' out, handle_timer_del id_ x = Ok (x', out) ∧ proxy_ok x'.
Proof using Hnames Hres Hgen Hslots.
  intros Hx. destruct (timed_step_ok names res gen Hnames Hres Hgen Hslots (ti_del id_) _ (pk_timed _ Hx) I) as ([t' s'] & effs & E & Hok).
  cbn [timed_step] in E. unfold handle_timer_del. destruct (proxy_timer_del id_ (px_timers x)) as [t effs']. injection E as <- <- <-.
  eexists _, _. split; [done|]. by apply with_timers_ok.
Qed.

Lemma control_step_ok e i zmq_id x ms rt m :
  proxy_ok x → control_ok x ms → ms !! i = Some (rt, m) → env_ok e → new_timer zmq_id x → room x →
  ∃ x' out, loop_step cf e (le_control i zmq_id) x = Ok (x', out) ∧ proxy_ok x'.
Proof using Hnames Hres Hgen Hslots.
  intros Hx Hc Hi He Hz Hr. destruct (taken_ok i rt m x ms Hx Hc Hi) as (Hy & Hh & Hf). pose proof (room_taken i m x Hr) as Hry.
  assert (sent_ok nt names m) as Hm by exact (Forall_lookup_1 _ _ _ _ (co_sent _ _ Hc) Hi).
  cbn [loop_step]. rewrite (co_msgs _ _ Hc), list_lookup_fmap, Hi. cbn [fmap option_fmap option_map fst snd].
  rewrite <-(co_msgs _ _ Hc). rewrite (control_dispatch cf e nt names) by done. set (y := taken i m x) in *.
  assert (new_timer zmq_id y) as Hzy by exact Hz. destruct Hm as (_ & _ & Hm).
  destruct m as [m wire|p b|p cat_ command_ remote_ cb|p keys|p added q removed|]; cbn [sent_objects] in Hf;
    try (apply Forall_cons in Hf as [[Hf1 Hf2] _]; cbn [fst] in *).
  - destruct Hm as [Hm _]. pose proof (request_enabled e m (px_net y) He Hm) as Hen.
    destruct m as [to cmd opts|tag to cmd f opts|pubkey_ opts|remote f g k opts|c linger|k job interval squelch thread|k];
      cbn [sent_meaning msg_meaning] in *; try (by apply (run_net_ok e _ y)).
    + apply (handle_timer_ok zmq_id _ y); [done|done|]. by destruct Hm as (_ & _ & Hth & _).
    + by apply (handle_timer_del_ok k y).
  - destruct (run_sched_ok (in_batch p b) (λ s, proxy_batch p (alloc_batch p b s)) y) as (x' & E & Hx' & _); [done| | | |].
    + destruct Hm as (H1 & H2 & H3 & H4 & H5). unfold enabled, thread_id_ok. rewrite (pk_threads _ Hy). split_and!; try done; lia.
    + cbn [new_of]. clear -Hf2. set_solver.
    + cbn [handle]. unfold submit_batch, batch_size. destruct Hm as (_ & Hne & _). cbn [fst]. by destruct (jobs b).
    + exists x', []. done.
  - destruct (run_sched_ok (in_inject cat_ command_ remote_ cb) (proxy_inject_task cat_ command_ remote_ cb) y) as (x' & E & Hx' & _);
      [done| |cbn; clear; set_solver|done|exists x', []; done].
    apply (a_cats _ _ _ _ _ (proj1 (inv_acct _ _ _ _ (to_inv _ _ _ _ (pk_timed _ Hy))))). exact Hm.
  - by apply (run_net_ok e (ni_set_sns keys) y).
  - by apply (run_net_ok e (ni_update_sns added removed) y).
  - eexists _, _. split; [done|]. exact Hy.
Qed.

(** *** Messages of peers *)
Lemma handle_quiet i t s s' :
  timed_ok names res gen (t, s) → enabled i s → is_ran i = false → handle i s = Ok s' → timed_ok names res gen (t, s').
Proof using Hnames Hres Hgen Hslots.
  intros Ht He Er E. destruct (timed_handle_ok names res gen Hnames Hres Hgen Hslots i t s Ht He) as (t2 & s2 & E2 & Hok).
  destruct Ht as [Hi Hids Hld Htm]. cbn [fst snd] in *. unfold timed_handle in E2. rewrite E in E2. cbn [mbind outcome_bind] in E2.
  destruct (handle_acts i s s' Hld He Er E Hids) as [k Hk]. rewrite (new_events_app s s' k (act_events _ _ _ Hk)) in E2.
  rewrite (completions_quiet k (act_quiet _ _ _ Hk)) in E2. injection E2 as <- <-. exact Hok.
Qed.

(** What zmq delivers: messages of a listening socket start with a route, and their
    metadata is what the ZAP handler set. *)
Definition incoming_ok (socks : list zmq_socket) (i : nat) (m : incoming) : Prop :=
  ∀ s, socks !! i = Some s → sock_type s = router →
    in_parts m !! 0%nat ≠ Some [] ∧ ∃ r, extract_metadata (in_user_id m) (in_auth m) = Ok r.

Lemma incoming_message_ok i m cs sock :
  conns_ok cs → connections cs !! i = Some sock → incoming_ok (connections cs) i m → is_Some (in_parts m !! command_part sock) →
  message_ok i m cs.
Proof using Type.
  clear. intros Hok Hs Hin Hp. exists sock. split; [done|]. split.
  { apply lookup_lt_is_Some_2. rewrite (ok_ids _ Hok). by eapply lookup_lt_Some. }
  unfold command_part in Hp. split; intros Ht; rewrite Ht in Hp; [done|]. split; [done|]. by apply (Hin sock).
Qed.

Definition sockets (x : proxy) : list zmq_socket := connections (tables (px_net x)).
Definition stale (x : proxy) : bool := pollitems_stale (tables (px_net x)).

Lemma peer_message_ok e i m x :
  proxy_ok x → (i < length (sockets x))%nat → incoming_ok (sockets x) i m →
  ∃ x' out, peer_message cf e i m x = Ok (x', out) ∧ proxy_ok x' ∧ (stale x' = true ∨ sockets x' = sockets x).
Proof using Hnames Hres Hgen Hslots.
  intros Hx Hi Hin. assert (routed (tables (px_net x)) i (in_parts m)) as Hr by (intros s Hs Ht; by apply (Hin s)).
  destruct (handle_builtin_ok (env_send e) i (in_parts m) (px_net x) (pk_conns _ Hx) Hi Hr) as (b & n & effs & E & Hok).
  destruct (builtin_frame _ _ _ _ _ _ _ E) as (sock & Es & Hj & Hst & Hb). unfold peer_message. rewrite E. cbn [mbind outcome_bind].
  destruct (run_effects_ok effs (with_net n x)) as [Hx1 Hn1]; [|by left|].
  { destruct Hx as [_ Ht Hn [ms []] Ha]. split; try done. by exists ms. }
  destruct b.
  { eexists _, _. split; [done|]. split; [done|]. unfold stale, sockets. by rewrite Hn1. }
  destruct (Hb eq_refl) as (-> & -> & Hp). clear Hb Hj Hst. change (run_effects cf [] (with_net (px_net x) x)) with (with_net (px_net x) x) in *.
  set (x1 := with_net (px_net x) x) in *. pose proof (incoming_message_ok i m _ sock Hok Es Hin Hp) as Hm.
  pose proof (pk_timed _ Hx1) as Ht.
  destruct (to_worker_ok names res gen Hnames Hres (cf_service_node cf) (cf_aliases cf) i m (tables (px_net x)) (px_sched x1) (to_inv _ _ _ _ Ht) Hm)
    as (cs' & s' & r & Ew & _).
  rewrite Ew. cbn [mbind outcome_bind]. destruct (to_worker_conns _ _ _ _ _ _ _ _ _ Ew Hok Hr) as [Hok' [Hs1 Hs2]].
  eexists _, _. split; [done|]. split; [|right; exact Hs1].
  assert (handle (in_message (cf_service_node cf) (cf_aliases cf) i m (tables (px_net x))) (px_sched x1) = Ok s') as Eh.
  { cbn [handle]. by rewrite Ew. }
  destruct Hx1 as [_ _ Hn [ms []] Ha]. split; [done| | |by exists ms|].
  - eapply (handle_quiet (in_message (cf_service_node cf) (cf_aliases cf) i m (tables (px_net x)))); [exact Ht|exact Hm|done|exact Eh].
  - cbn. destruct (to_worker_acts _ _ _ _ _ _ _ _ _ Ew (to_ids _ _ _ _ Ht)) as [k Hk]. by rewrite (act_tagged _ _ _ Hk).
  - cbn. by rewrite (to_worker_heap _ _ _ _ _ _ _ _ _ Ew).
Qed.

(** *** The round over the sockets

    What came in for a socket, and what was taken from it. *)
Definition arrived (i : nat) (l : list (nat * incoming)) : list incoming :=
  omap (λ im, if decide (im.1 = i) then Some im.2 else None) l.
Definition drawn (i : nat) (log : recv_log) : list incoming := omap (λ r, if decide (r.1 = i) then r.2 else None) log.

Lemma inbox_of_insert i rest inbox j : inbox_of (<[i := rest]> inbox) j = if decide (i = j) then rest else inbox_of inbox j.
Proof using Type. clear. unfold inbox_of. rewrite lookup_insert. by case_decide. Qed.

Lemma arrived_app i l1 l2 : arrived i (l1 ++ l2) = arrived i l1 ++ arrived i l2.
Proof using Type. clear. unfold arrived. apply omap_app. Qed.

Lemma inbox_of_arrive l inbox i : inbox_of (arrive l inbox) i = inbox_of inbox i ++ arrived i l.
Proof using Type.
  clear. unfold arrive. revert inbox. induction l as [|[k m] l IH]; intros inbox; cbn [foldl fst snd]; [by rewrite app_nil_r|].
  rewrite IH, inbox_of_insert. unfold arrived. cbn [omap list_omap fst snd]. case_decide; [subst|done]. by rewrite <-app_assoc.
Qed.

Lemma waiting_insert i l inbox : (waiting (<[i := l]> inbox) + length (inbox_of inbox i) = length l + waiting inbox)%nat.
Proof using Type.
  clear. assert (∀ k l m, m !! k = None → waiting (<[k := l]> m) = (length l + waiting m)%nat) as Hn.
  { intros k l' m Hk. unfold waiting. rewrite map_fold_insert_L; [done| |done]. intros. lia. }
  rewrite <-insert_delete_eq, Hn by apply lookup_delete_eq. unfold inbox_of. destruct (inbox !! i) as [l'|] eqn:Ei.
  - rewrite <-(insert_delete_id _ _ _ Ei) at 2. rewrite Hn by apply lookup_delete_eq. cbn. lia.
  - rewrite delete_id by done. cbn. lia.
Qed.

Lemma waiting_arrive l inbox : waiting (arrive l inbox) = (length l + waiting inbox)%nat.
Proof using Type.
  clear. unfold arrive. revert inbox. induction l as [|[k m] l IH]; intros inbox; [done|]. cbn [foldl fst snd]. rewrite IH.
  pose proof (waiting_insert k (inbox_of inbox k ++ [m]) inbox) as Hw. rewrite length_app in Hw. cbn [length] in *. lia.
Qed.

(** One look at a socket: what is there and what came in is drawn or stays. *)
Lemma recv_from_ok i inbox arriving got inbox' late :
  recv_from i inbox arriving = (got, inbox', late) →
  ∃ before, arriving = before ++ late ∧
    (∀ j, inbox_of inbox j ++ arrived j (concat before) = (if decide (i = j) then option_list got else []) ++ inbox_of inbox' j) ∧
    (waiting inbox + to_arrive arriving = length (option_list got) + waiting inbox' + to_arrive late)%nat ∧
    (got = None → inbox_of inbox i = []).
Proof using Type.
  clear. unfold recv_from. cbv zeta. set (l := default [] (head arriving)). set (inbox1 := arrive l inbox). intros E.
  assert (∃ before, arriving = before ++ tail arriving ∧ concat before = l) as (before & Eb & El).
  { destruct arriving as [|l' arriving]; [by exists []|]. exists [l']. split; [done|apply app_nil_r]. }
  exists before. rewrite El.
  assert (waiting inbox + to_arrive arriving = waiting inbox1 + to_arrive (tail arriving))%nat as Hw.
  { unfold inbox1. rewrite waiting_arrive. unfold to_arrive, l. destruct arriving; cbn; rewrite ?length_app; lia. }
  pose proof (inbox_of_arrive l inbox) as Ho. fold inbox1 in Ho. destruct (inbox_of inbox1 i) as [|m rest] eqn:Ei.
  - injection E as <- <- <-. split_and!; [done| |cbn; lia|].
    + intros j. rewrite <-Ho. by case_decide.
    + intros _. rewrite Ho in Ei. by apply app_eq_nil in Ei as [-> _].
  - injection E as <- <- <-. split_and!; [done| | |done].
    + intros j. rewrite <-Ho, inbox_of_insert. case_decide; [by subst|done].
    + pose proof (waiting_insert i rest inbox1) as Hi. rewrite Ei in Hi. cbn in Hi |- *. lia.
Qed.

(** The handling of one message; an empty one is ignored. *)
Definition receive_one (e : env) (i : nat) (m : incoming) (x : proxy) : outcome (proxy * list output) :=
  if bool_decide (in_parts m = []) then Ok (x, []) else peer_message cf e i m x.

(** The handling of all that was drawn, in order. *)
Fixpoint handle_drawn (e : env) (log : recv_log) (x : proxy) : outcome (proxy * list output) :=
  match log with
  | [] => Ok (x, [])
  | (_, None) :: log => handle_drawn e log x
  | (i, Some m) :: log => '(x, out) ← receive_one e i m x; '(x, out') ← handle_drawn e log x; Ok (x, out ++ out')
  end.

(** The runs of the loop. *)
Inductive round (e : env) : list nat → inboxes → arrivals → proxy → proxy → inboxes → arrivals → recv_log → list output → Prop :=
  | round_end inbox arriving x : round e [] inbox arriving x x inbox arriving [] []
  | round_empty i queue inbox arriving x inbox1 arriving1 x' inbox' late log out :
      recv_from i inbox arriving = (None, inbox1, arriving1) →
      round e queue inbox1 arriving1 x x' inbox' late log out →
      round e (i :: queue) inbox arriving x x' inbox' late ((i, None) :: log) out
  | round_message i queue inbox arriving x m inbox1 arriving1 x1 out1 x' inbox' late log out :
      recv_from i inbox arriving = (Some m, inbox1, arriving1) → receive_one e i m x = Ok (x1, out1) →
      round e (queue ++ [i]) inbox1 arriving1 x1 x' inbox' late log out →
      round e (i :: queue) inbox arriving x x' inbox' late ((i, Some m) :: log) (out1 ++ out)
  | round_stale i queue inbox arriving x m inbox1 arriving1 x1 out1 :
      recv_from i inbox arriving = (Some m, inbox1, arriving1) → receive_one e i m x = Ok (x1, out1) → stale x1 = true →
      round e (i :: queue) inbox arriving x x1 inbox1 arriving1 [(i, Some m)] out1.

Lemma receive_loop_round e fuel queue inbox arriving x x' inbox' late log out :
  receive_loop cf e fuel queue inbox arriving x = Ok (x', inbox', late, log, out) →
  round e queue inbox arriving x x' inbox' late log out.
Proof using Type.
  clear -H. revert queue inbox arriving x x' inbox' late log out.
  induction fuel as [|fuel IH]; intros queue inbox arriving x x' inbox' late log out E; [done|]. cbn [receive_loop] in E.
  destruct queue as [|i queue]; [injection E as <- <- <- <- <-; constructor|].
  destruct (recv_from i inbox arriving) as [[[m|] inbox1] arriving1] eqn:Er.
  2:{ inv_bind. destruct a as [[[[x2 inbox2] late2] log2] out2]. injection E as <- <- <- <- <-. eapply round_empty; [exact Er|by apply IH]. }
  case_bool_decide as Hm.
  - inv_bind. destruct a as [[[[x2 inbox2] late2] log2] out2]. injection E as <- <- <- <- <-. change out2 with ([] ++ out2).
    eapply round_message; [exact Er| |by apply IH]. unfold receive_one. by rewrite bool_decide_eq_true_2.
  - inv_bind. destruct a as [x1 out1].
    assert (receive_one e i m x = Ok (x1, out1)) as E1 by (unfold receive_one; by rewrite bool_decide_eq_false_2).
    destruct (pollitems_stale _) eqn:Es; [injection E as <- <- <- <- <-; by eapply round_stale|].
    inv_bind. destruct a as [[[[x2 inbox2] late2] log2] out2]. injection E as <- <- <- <- <-.
    eapply round_message; [exact Er|exact E1|by apply IH].
Qed.

(** What was taken was handled, in order. *)
Lemma round_handles e queue inbox arriving x x' inbox' late log out :
  round e queue inbox arriving x x' inbox' late log out → handle_drawn e log x = Ok (x', out).
Proof using Type.
  clear -H. induction 1 as [inbox arriving x|i queue inbox arriving x inbox1 arriving1 x' inbox' late log out Er _ IH
    |i queue inbox arriving x m inbox1 arriving1 x1 out1 x' inbox' late log out Er E1 _ IH|i queue inbox arriving x m inbox1 arriving1 x1 out1 Er E1 Hs];
    cbn [handle_drawn]; [done|done|by rewrite E1; cbn [mbind outcome_bind]; rewrite IH|].
  rewrite E1. cbn. by rewrite app_nil_r.
Qed.

(** Nothing is lost or made up, and every socket's messages are drawn in order. *)
Lemma round_received e queue inbox arriving x x' inbox' late log out :
  round e queue inbox arriving x x' inbox' late log out →
  ∃ before, arriving = before ++ late ∧ ∀ i, inbox_of inbox i ++ arrived i (concat before) = drawn i log ++ inbox_of inbox' i.
Proof using Type.
  clear -H. assert (∀ i got (log : recv_log) j, drawn j ((i, got) :: log) = (if decide (i = j) then option_list got else []) ++ drawn j log) as Ht.
  { intros i got lg j. unfold drawn. cbn [omap list_omap fst snd]. by destruct (decide (i = j)), got. }
  assert (∀ (j : nat) (l1 l2 : arrivals) (a b c : list incoming), a ++ arrived j (concat l1) = b → b ++ arrived j (concat l2) = c →
    a ++ arrived j (concat (l1 ++ l2)) = c) as Hj.
  { intros j l1 l2 a b c <- <-. by rewrite concat_app, arrived_app, app_assoc. }
  induction 1 as [inbox arriving x|i queue inbox arriving x inbox1 arriving1 x' inbox' late log out Er _ (b2 & -> & IH)
    |i queue inbox arriving x m inbox1 arriving1 x1 out1 x' inbox' late log out Er E1 _ (b2 & -> & IH)|i queue inbox arriving x m inbox1 arriving1 x1 out1 Er E1 Hs].
  - exists []. split; [done|]. intros i. cbn. apply app_nil_r.
  - destruct (recv_from_ok _ _ _ _ _ _ Er) as (b1 & -> & H1 & _). exists (b1 ++ b2). split; [by rewrite app_assoc|]. intros j.
    eapply Hj; [apply H1|]. by rewrite <-app_assoc, IH, Ht, app_assoc.
  - destruct (recv_from_ok _ _ _ _ _ _ Er) as (b1 & -> & H1 & _). exists (b1 ++ b2). split; [by rewrite app_assoc|]. intros j.
    eapply Hj; [apply H1|]. by rewrite <-app_assoc, IH, Ht, app_assoc.
  - destruct (recv_from_ok _ _ _ _ _ _ Er) as (b1 & -> & H1 & _). exists b1. split; [done|]. intros j. by rewrite H1, Ht, app_nil_r.
Qed.

(** Everything that waits or will arrive is a message a socket can have received. *)
Definition traffic_ok (inbox : inboxes) (arriving : arrivals) (x : proxy) : Prop :=
  ∀ i m, m ∈ inbox_of inbox i ++ arrived i (concat arriving) → incoming_ok (sockets x) i m.

Lemma traffic_ok_recv i inbox arriving got inbox' late x :
  recv_from i inbox arriving = (got, inbox', late) → traffic_ok inbox arriving x →
  traffic_ok inbox' late x ∧ ∀ m, got = Some m → incoming_ok (sockets x) i m.
Proof using Type.
  clear. intros (before & -> & Hr & _)%recv_from_ok Ht.
  assert (∀ j m, m ∈ (if decide (i = j) then option_list got else []) ++ inbox_of inbox' j ++ arrived j (concat late) → incoming_ok (sockets x) j m) as Hj.
  { intros j m Hm. apply Ht. by rewrite concat_app, arrived_app, app_assoc, Hr, <-app_assoc. }
  split; [intros j m Hm; apply Hj, elem_of_app; by right|]. intros m ->. apply Hj. rewrite decide_True by done. by left.
Qed.

Lemma receive_one_ok e i m x :
  proxy_ok x → (i < length (sockets x))%nat → incoming_ok (sockets x) i m →
  ∃ x' out, receive_one e i m x = Ok (x', out) ∧ proxy_ok x' ∧ (in_parts m ≠ [] ∧ stale x' = true ∨ sockets x' = sockets x).
Proof using Hnames Hres Hgen Hslots.
  intros Hx Hi Hm. unfold receive_one. case_bool_decide; [by eexists _, _; split_and!; [done..|right]|].
  destruct (peer_message_ok e i m x Hx Hi Hm) as (x' & out & E & Hx' & Hs). exists x', out. split_and!; [done|done|]. tauto.
Qed.

(** The loop ends within its fuel, however the traffic that is still to arrive is spread
    over the round; unless the connections changed, every socket was found empty, after
    all it held at first. *)
Lemma receive_loop_ok e fuel queue inbox arriving x :
  proxy_ok x → (∀ i, i ∈ queue → (i < length (sockets x))%nat) → traffic_ok inbox arriving x →
  (length queue + (waiting inbox + to_arrive arriving) < fuel)%nat →
  ∃ x' inbox' late log out, receive_loop cf e fuel queue inbox arriving x = Ok (x', inbox', late, log, out) ∧ proxy_ok x' ∧
    (stale x' = true ∨ ∀ i, i ∈ queue → (i, None) ∈ log ∧ (length (inbox_of inbox i) <= length (drawn i log))%nat).
Proof using Hnames Hres Hgen Hslots.
  revert queue inbox arriving x. induction fuel as [|fuel IH]; intros queue inbox arriving x Hx Hq Hin Hf; [lia|]. cbn [receive_loop].
  destruct queue as [|i queue]; [eexists _, _, _, _, _; split_and!; [done..|right]; by intros i Hi%elem_of_nil|].
  destruct (recv_from i inbox arriving) as [[got inbox1] arriving1] eqn:Er.
  destruct (recv_from_ok _ _ _ _ _ _ Er) as (before & _ & Hr & Hw & He). destruct (traffic_ok_recv _ _ _ _ _ _ x Er Hin) as [Hin1 Hm].
  assert (∀ j log, (length (inbox_of inbox1 j) <= length (drawn j log))%nat →
    (length (inbox_of inbox j) <= length (drawn j ((i, got) :: log)))%nat) as Hlen.
  { intros j log Hl. pose proof (f_equal length (Hr j)) as E. rewrite !length_app in E. unfold drawn in *. cbn [omap list_omap fst snd].
    destruct (decide (i = j)), got; cbn in E |- *; lia. }
  assert (∀ j, j ∈ queue ++ [i] → (j < length (sockets x))%nat) as Hq'.
  { intros j Hj. apply Hq. apply elem_of_cons. apply elem_of_app in Hj as [|Hj%list_elem_of_singleton]; tauto. }
  assert (∀ log, (∀ j, j ∈ queue ++ [i] → (j, None) ∈ log ∧ (length (inbox_of inbox1 j) <= length (drawn j log))%nat) →
    ∀ j, j ∈ i :: queue → (j, None) ∈ (i, got) :: log ∧ (length (inbox_of inbox j) <= length (drawn j ((i, got) :: log)))%nat) as Hall.
  { intros log Hd j Hj. destruct (Hd j) as [H1 H2]; [rewrite elem_of_app, list_elem_of_singleton; apply elem_of_cons in Hj; tauto|].
    split; [by right|by apply Hlen]. }
  destruct got as [m|].
  - destruct (receive_one_ok e i m x Hx) as (x1 & out1 & E1 & Hx1 & Hst); [apply Hq; by left|by apply Hm|].
    assert (stale x1 = false ∨ in_parts m = [] → ∃ x' inbox' late log out, receive_loop cf e fuel (queue ++ [i]) inbox1 arriving1 x1
      = Ok (x', inbox', late, log, out) ∧ proxy_ok x' ∧ (stale x' = true ∨ ∀ j, j ∈ queue ++ [i] → (j, None) ∈ log ∧
        (length (inbox_of inbox1 j) <= length (drawn j log))%nat)) as Hgo.
    { intros Hc. assert (sockets x1 = sockets x) as Hs by (destruct Hst as [[? ?]|]; [destruct Hc; congruence|done]).
      apply IH; [done|by rewrite Hs|unfold traffic_ok; by rewrite Hs|]. rewrite length_app. cbn in Hw, Hf |- *. lia. }
    unfold receive_one in E1. case_bool_decide as Hp.
    + injection E1 as <- <-. destruct Hgo as (x' & inbox' & late & log & out & -> & Hx' & Hd); [by right|]. cbn [mbind outcome_bind].
      eexists _, _, _, _, _. split_and!; [done..|]. destruct Hd as [|Hd]; [by left|right; by apply Hall].
    + rewrite E1. cbn [mbind outcome_bind]. fold (stale x1). destruct (stale x1) eqn:Es; [eexists _, _, _, _, _; split_and!; [done..|by left]|].
      destruct Hgo as (x' & inbox' & late & log & out & -> & Hx' & Hd); [by left|]. cbn [mbind outcome_bind].
      eexists _, _, _, _, _. split_and!; [done..|]. destruct Hd as [|Hd]; [by left|right; by apply Hall].
  - destruct (IH queue inbox1 arriving1 x) as (x' & inbox' & late & log & out & -> & Hx' & Hd);
      [done|intros j Hj; apply Hq; by right|done|cbn in Hw, Hf |- *; lia|]. cbn [mbind outcome_bind].
    eexists _, _, _, _, _. split_and!; [done..|]. destruct Hd as [|Hd]; [by left|right].
    intros j [->|Hj]%elem_of_cons; [rewrite (He eq_refl); split; [by left|cbn; lia]|].
    destruct (Hd j Hj) as [H1 H2]. split; [by right|by apply Hlen].
Qed.

(** Turns are fair.  [cnt] counts the messages taken from each socket before; the queue
    has first the sockets served [k] times, then those served once more; the sockets of
    [P], which have not been found empty, are all in it. *)
Record turns (k : nat) (P : nat → Prop) (cnt : nat → nat) (A Q : list nat) : Prop := {
  tn_front i : i ∈ A → cnt i = k;
  tn_back i : i ∈ Q → cnt i = S k;
  tn_most i : (cnt i <= S k)%nat;
  tn_waiting j : P j → j ∈ A ++ Q;
  tn_once : NoDup (A ++ Q)
}.

Lemma turns_skip k P cnt i A Q : turns k P cnt (i :: A) Q → turns k (λ j, P j ∧ j ≠ i) cnt A Q.
Proof using Type.
  clear. intros [H1 H2 H3 H4 H5]. split; [|done|done| |by apply NoDup_cons in H5 as [_ ?]].
  - intros j Hj. apply H1. by right.
  - intros j [Hj Hne]. specialize (H4 j Hj). cbn in H4. apply elem_of_cons in H4 as [->|]; done.
Qed.

Lemma turns_serve k P cnt i A Q :
  turns k P cnt (i :: A) Q → turns k P (λ j, (if decide (j = i) then 1 else 0) + cnt j)%nat A (Q ++ [i]).
Proof using Type.
  clear. intros [H1 H2 H3 H4 H5]. cbn [app] in H5. apply NoDup_cons in H5 as [Hn Hnd].
  assert (∀ j, j ∈ A ++ Q → j ≠ i) as Hne by (intros j Hj ->; done). split.
  - intros j Hj. rewrite decide_False by (apply Hne, elem_of_app; by left). apply H1. by right.
  - intros j [Hj|Hj%list_elem_of_singleton]%elem_of_app; [rewrite decide_False by (apply Hne, elem_of_app; by right); by apply H2|].
    subst. rewrite decide_True by done. rewrite (H1 i) by by left. lia.
  - intros j. case_decide; [subst; rewrite (H1 i) by (by left); lia|apply H3].
  - intros j Hj. specialize (H4 j Hj). cbn in H4. rewrite elem_of_cons, elem_of_app in H4. rewrite !elem_of_app, list_elem_of_singleton. tauto.
  - rewrite app_assoc. apply NoDup_app. split_and!; [done| |apply NoDup_singleton].
    intros j Hj Hj'%list_elem_of_singleton. by apply (Hne j).
Qed.

Lemma turns_next k P cnt Q : turns k P cnt [] Q → turns (S k) P cnt Q [].
Proof using Type.
  clear. intros [H1 H2 H3 H4 H5]. split; [done|by intros i Hi%elem_of_nil|intros i; specialize (H3 i); lia|by rewrite app_nil_r|by rewrite app_nil_r].
Qed.

(** At any time, a socket not found empty so far was served at most once less than any. *)
Definition fair (P : nat → Prop) (cnt : nat → nat) (log : recv_log) : Prop :=
  ∀ pre i j, pre `prefix_of` log → P j → (j, None) ∉ pre →
    (length (drawn i pre) + cnt i <= S (length (drawn j pre) + cnt j))%nat.

Lemma fair_cons k P cnt A Q i got log :
  turns k P cnt (i :: A) Q →
  (match got with
   | None => fair (λ j, P j ∧ j ≠ i) cnt log
   | Some _ => fair P (λ j, (if decide (j = i) then 1 else 0) + cnt j)%nat log
   end) → fair P cnt ((i, got) :: log).
Proof using Type.
  clear. intros [H1 H2 H3 H4 _] Hf [|r pre] a b Hpre Hb Hne.
  - specialize (H3 a). cbn. specialize (H4 b Hb). apply elem_of_app in H4 as [Hb'|Hb']; [rewrite (H1 b Hb')|rewrite (H2 b Hb')]; lia.
  - pose proof (prefix_cons_inv_1 _ _ _ _ Hpre) as ->. apply prefix_cons_inv_2 in Hpre. apply not_elem_of_cons in Hne as [Hne Hpn].
    unfold drawn. cbn [omap list_omap fst snd]. destruct got as [m|].
    + specialize (Hf pre a b Hpre Hb Hpn). cbn beta in Hf. unfold drawn in Hf.
      rewrite (decide_ext (i = a) (a = i)) by naive_solver. rewrite (decide_ext (i = b) (b = i)) by naive_solver.
      repeat case_decide; cbn [length]; lia.
    + specialize (Hf pre a b Hpre ltac:(split; congruence) Hpn). unfold drawn in Hf. repeat case_decide; exact Hf.
Qed.

Lemma round_fair e queue inbox arriving x x' inbox' late log out :
  round e queue inbox arriving x x' inbox' late log out →
  ∀ k P cnt A Q, queue = A ++ Q → turns k P cnt A Q → fair P cnt log.
Proof using Type.
  clear -H. assert (∀ (q : list nat) i queue' k P cnt A Q, q = i :: queue' → q = A ++ Q → turns k P cnt A Q →
    ∃ k' A' Q', queue' = A' ++ Q' ∧ turns k' P cnt (i :: A') Q') as Hhead.
  { intros q i queue' k P cnt [|a A] Q -> E Ht.
    - exists (S k), queue', []. rewrite app_nil_r. split; [done|]. cbn in E. rewrite E. by apply turns_next.
    - injection E as -> ->. by exists k, A, Q. }
  induction 1 as [inbox arriving x|i queue inbox arriving x inbox1 arriving1 x' inbox' late log out Er _ IH
    |i queue inbox arriving x m inbox1 arriving1 x1 out1 x' inbox' late log out Er E1 _ IH|i queue inbox arriving x m inbox1 arriving1 x1 out1 Er E1 Hs];
    intros k P cnt A Q EQ Ht.
  - intros pre a b ->%prefix_nil_inv Hb _. pose proof (tn_waiting _ _ _ _ _ Ht b Hb) as Hb'. rewrite <-EQ in Hb'. by apply elem_of_nil in Hb'.
  - destruct (Hhead _ _ _ _ _ _ _ _ eq_refl EQ Ht) as (k' & A' & Q' & -> & Ht').
    eapply fair_cons; [exact Ht'|]. eapply IH; [done|]. by apply turns_skip in Ht'.
  - destruct (Hhead _ _ _ _ _ _ _ _ eq_refl EQ Ht) as (k' & A' & Q' & -> & Ht').
    eapply fair_cons; [exact Ht'|]. eapply IH; [by rewrite <-app_assoc|]. by apply turns_serve in Ht'.
  - destruct (Hhead _ _ _ _ _ _ _ _ eq_refl EQ Ht) as (k' & A' & Q' & -> & Ht').
    eapply fair_cons; [exact Ht'|]. apply turns_serve in Ht'. destruct Ht' as [H1 H2 H3 H4 _].
    intros pre a b ->%prefix_nil_inv Hb _. specialize (H3 a). cbn [drawn omap list_omap length].
    specialize (H4 b Hb). cbn [Nat.add]. apply elem_of_app in H4 as [Hb'|Hb']; [rewrite (H1 b Hb')|rewrite (H2 b Hb')]; lia.
Qed.

(** What a round does with the traffic: [n] sockets, [inbox] and [arriving] before,
    [inbox'] and [late] after, [log] what it received. *)
Record round_result (n : nat) (inbox : inboxes) (arriving : arrivals) (inbox' : inboxes) (late : arrivals) (log : recv_log) (changed : bool) : Prop := {
  rr_received : ∃ before, arriving = before ++ late ∧
    ∀ i, inbox_of inbox i ++ arrived i (concat before) = drawn i log ++ inbox_of inbox' i;
  rr_emptied : changed = true ∨ ∀ i, (i < n)%nat → (i, None) ∈ log ∧ (length (inbox_of inbox i) <= length (drawn i log))%nat;
  rr_fair pre i j : pre `prefix_of` log → (j < n)%nat → (j, None) ∉ pre → (length (drawn i pre) <= S (length (drawn j pre)))%nat
}.

Lemma receive_round_ok e inbox arriving x :
  proxy_ok x → traffic_ok inbox arriving x →
  ∃ x' inbox' late log out, receive_round cf e inbox arriving x = Ok (x', inbox', late, log, out) ∧ proxy_ok x' ∧
    handle_drawn e log x = Ok (x', out) ∧ round_result (length (sockets x)) inbox arriving inbox' late log (stale x').
Proof using Hnames Hres Hgen Hslots.
  intros Hx Hin. unfold receive_round. fold (sockets x). set (n := length (sockets x)).
  destruct (receive_loop_ok e (S (n + waiting inbox + to_arrive arriving)) (seq 0 n) inbox arriving x)
    as (x' & inbox' & late & log & out & E & Hx' & Hd); [done|intros i Hi%elem_of_seq; subst n; lia|done|rewrite length_seq; lia|].
  pose proof (receive_loop_round _ _ _ _ _ _ _ _ _ _ _ E) as Hr.
  exists x', inbox', late, log, out. split_and!; [done|done|by eapply round_handles|]. split.
  - by eapply round_received.
  - destruct Hd as [|Hd]; [by left|right]. intros i Hi. apply Hd, elem_of_seq. lia.
  - intros pre i j Hp Hj Hn. pose proof (round_fair _ _ _ _ _ _ _ _ _ _ Hr 0 (λ j, (j < n)%nat) (λ _, 0%nat) (seq 0 n) []) as Hf.
    rewrite app_nil_r in Hf. specialize (Hf eq_refl). unfold fair in Hf.
    specialize (Hf ltac:(split; [done|by intros ? ?%elem_of_nil|lia|intros; rewrite app_nil_r; apply elem_of_seq; lia|rewrite app_nil_r; apply NoDup_seq]) pre i j Hp Hj Hn).
    lia.
Qed.

(** *** The other events *)
Lemma skip_poll_ok b t s : timed_ok names res gen (t, s) → timed_ok names res gen (t, with_proxy_skip_one_poll b s).
Proof using Type.
  clear. intros [Hi Hids Hld Ht]. cbn [fst snd] in *.
  destruct (acts_same s (with_proxy_skip_one_poll b s) eq_refl eq_refl eq_refl eq_refl ltac:(done) eq_refl Hids) as [k Hk].
  split; [|apply (act_ids _ _ _ Hk)|by apply (act_loads _ _ _ Hk)|by eapply timers_ok_acts].
  apply (inv_skip names res gen (proxy_skip_one_poll s)). by destruct s.
Qed.

Lemma loop_top_ok x : proxy_ok x → ∃ x', loop_top x = Ok (false, x') ∧ proxy_ok x'.
Proof using Hres Hgen.
  intros Hx. unfold loop_top. cbv zeta.
  assert (max_workers (px_sched x) =? 0 = false) as ->.
  { pose proof (a_max _ _ _ _ _ (proj1 (inv_acct _ _ _ _ (to_inv _ _ _ _ (pk_timed _ Hx))))) as E. cbn [snd] in E. rewrite E.
    pose proof (slots_pos names res gen Hres Hgen). lia. }
  cbn [andb]. destruct Hx as [Hc Ht Hn [ms []] Ha]. destruct (proxy_skip_one_poll (px_sched x)); [|destruct (pollitems_stale _)].
  - eexists. split; [done|]. split; try done; [by apply skip_poll_ok|by exists ms].
  - eexists. split; [done|]. split; try done; [|by exists ms]. by destruct Hc.
  - eexists. split; [done|]. split; try done. by exists ms.
Qed.

Lemma queue_timer_job_heap p z t s t' s' effs :
  _queue_timer_job p z t s = Ok (t', s', effs) → dom (heap s') ⊆ dom (heap s) ∪ {[p]} ∧ length (tagged_workers s') = length (tagged_workers s).
Proof using Type.
  clear. unfold _queue_timer_job. destruct (timer_jobs t !! z) as [d|]; [|intros [= <- <- <-]; set_solver].
  destruct (_ && _); [intros [= <- <- <-]; set_solver|]. destruct (_ =? -1); [intros [= <- <- <-]; set_solver|]. intros E. inv_bind. cbv zeta in E.
  case_bool_decide; [|done]. inv_bind. injection E as _ <- _. destruct (0 <? td_thread d).
  - unfold push_tagged in *. match goal with He : match ?l with _ => _ end = Ok _ |- _ => destruct l as [[[r b] q]|]; [|done]; injection He as <- end.
    cbn. rewrite length_insert, dom_insert. split; [set_solver|done].
  - match goal with He : Ok _ = Ok _ |- _ => injection He as <- end. cbn. rewrite dom_insert. split; [set_solver|done].
Qed.

Lemma timer_event_ok e z x : proxy_ok x → ∃ x' out, loop_step cf e (le_timer z) x = Ok (x', out) ∧ proxy_ok x'.
Proof using Hnames Hres Hgen Hslots.
  intros Hx. destruct (fresh_address x) as [Hf1 Hf2]. cbn [loop_step]. set (p := new_address (in_use x)) in *.
  destruct (timed_step_ok names res gen Hnames Hres Hgen Hslots (ti_fire p z) _ (pk_timed _ Hx) Hf1) as ([t' s'] & effs & E & Hok).
  cbn [timed_step] in E. rewrite E. cbn [mbind outcome_bind]. eexists _, _. split; [done|].
  destruct (queue_timer_job_heap _ _ _ _ _ _ _ E) as [Hd Hl]. destruct Hx as [Hc Ht Hn [ms []] Ha].
  split; [done|exact Hok|cbn; by rewrite Hl|by exists ms|]. cbn. clear -Ha Hd Hf2. set_solver.
Qed.

(** *** Every event *)
Definition first_of_route (i : nat) (l : list (list bytes)) : Prop :=
  ∃ rt parts, l !! i = Some (rt :: parts) ∧ ∀ j q, (j < i)%nat → l !! j ≠ Some (rt :: q).

Definition loop_enabled_at (e : env) (ev : loop_event) (x : proxy) : Prop :=
  match ev with
  | le_call _ c => call_ok c ∧ memory_for 3 x
  | le_control i zmq_id => first_of_route i (px_control x) ∧ env_ok e ∧ new_timer zmq_id x ∧ room x
  | le_ran tagged w => enabled (in_ran tagged w) (px_sched x)
  | le_cleanup => connects_in_time (env_now e) (tables (px_net x)) ∧ room x
  | le_receive inbox arriving => traffic_ok inbox arriving x
  | le_top | le_timer _ | le_zap _ | le_process => True
  end.

Lemma loop_step_ok e ev x :
  proxy_ok x → loop_enabled_at e ev x → ∃ x' out, loop_step cf e ev x = Ok (x', out) ∧ proxy_ok x'.
Proof using Hnames Hres Hgen Hslots.
  intros Hx He. destruct ev as [rt c| |i z|tagged w|z| |frames| |inbox]; cbn [loop_enabled_at] in He.
  - destruct He as [Hc Hm]. destruct (client_call_ok rt c x Hx Hc Hm) as (x' & E & Hx'). cbn [loop_step]. rewrite E. by eexists _, _.
  - destruct (loop_top_ok x Hx) as (x' & E & Hx'). cbn [loop_step]. rewrite E. by eexists _, _.
  - destruct He as ((rt & parts & El & _) & Hen & Hz & Hr). destruct (pk_control _ Hx) as [ms Hms].
    rewrite (co_msgs _ _ Hms), list_lookup_fmap in El. destruct (ms !! i) as [[rt' m]|] eqn:Em; [|done]. by eapply control_step_ok.
  - destruct (run_sched_ok (in_ran tagged w) (proxy_worker_message [routing_id tagged w; B "RAN"]) x) as (x' & E & Hx' & _);
      [done|done|cbn; clear; set_solver|done|]. by eexists _, _.
  - by apply timer_event_ok.
  - destruct He as [Ht Hr]. by apply run_net_ok.
  - cbn [loop_step]. destruct (zap_reply (cf_binds cf) (active_service_nodes (tables (px_net x))) frames) as (rid & code & text & user & md & -> & _).
    by eexists _, _.
  - destruct (run_sched_ok in_process proxy_process_queue x) as (x' & E & Hx' & _); [done|done|cbn; clear; set_solver|done|]. by eexists _, _.
  - destruct (receive_round_ok e inbox arriving x Hx He) as (x' & inbox' & late & log & out & E & Hx' & _). cbn [loop_step]. rewrite E. by eexists _, _.
Qed.
End loop_inv.

(** ** The running proxy

    What can happen: calls are valid, memory lasts, the control messages of one client
    arrive in order, [RAN] comes from a busy worker, a connection attempt is answered
    before the cleanup finds it timed out, zmq gives a new timer a new number and sends
    ["HI"] on a new connection or finds its queue full. *)
Definition loop_enabled (e : env) (ev : loop_event) (x : proxy) : Prop :=
  loop_enabled_at (length (tagged_workers (px_sched x))) (names_of (px_sched x)) e ev x.

Section running.
Context `{Allocator} (cf : config).
Context (th : thread_config) (cs : gmap bytes category) (tagged : list (run_info * bool * list batch_job)).
Context (active : gset bytes) (binds : list bind_data) (bind_ok : bytes → bool).

(** The states before [QUIT]: clients do not call the destructor. *)
Inductive loop_reach : proxy → Prop :=
  | loop_start t s tb :
      start_ok cs tagged → proxy_start th cs tagged = Ok s → max_workers s < 2 ^ 31 →
      (∀ p, p ∈ active → key_size p) → proxy_bind bind_ok binds active = Ok tb → idle_timers (length tagged) t →
      loop_reach (mkProxy (mkNet tb ∅) t s ∅ [])
  | loop_next e ev x x' out : loop_reach x → loop_enabled e ev x → loop_step cf e ev x = Ok (x', out) → loop_reach x'.

Lemma loop_enabled_names nt names res gen e ev x :
  proxy_ok cf nt names res gen x → loop_enabled e ev x → loop_enabled_at nt names e ev x.
Proof using Type.
  intros Hx He. unfold loop_enabled in He. rewrite (pk_threads _ _ _ _ _ _ Hx) in He. destruct ev as [rt c| | | | | | | |]; try exact He.
  destruct He as [Hc Hm]. split; [|done]. destruct c; try exact Hc. cbn [call_ok] in *.
  apply elem_of_names in Hc. by apply (a_cats _ _ _ _ _ (proj1 (inv_acct _ _ _ _ (to_inv _ _ _ _ (pk_timed _ _ _ _ _ _ Hx))))).
Qed.

Lemma loop_reach_ok x :
  loop_reach x →
  ∃ nt names res gen, NoDup names ∧ (∀ k, 0 <= res k) ∧ 0 < gen ∧ slots (kinds names) res gen < 2 ^ 31 ∧ proxy_ok cf nt names res gen x.
Proof using Type.
  induction 1 as [t s tb Hst Hs Hmax Hact Hb Hti|e ev x x' out _ (nt & names & res & gen & Hn & Hr & Hg & Hsl & Hok) He E].
  - destruct (timed_reach_ok th cs tagged (t, s)) as (names & res & gen & Hn & Hr & Hg & Hsl & Hok); [by apply timed_start|].
    exists (length (tagged_workers s)), names, res, gen. split_and!; try done. split; [|done|done| |].
    + by eapply proxy_bind_ok.
    + exists []. by split.
    + cbn. by rewrite dom_empty_L.
  - exists nt, names, res, gen. split_and!; try done. apply loop_enabled_names with (nt := nt) (names := names) (res := res) (gen := gen) in He; [|done].
    destruct (loop_step_ok cf nt names res gen Hn Hr Hg Hsl e ev x Hok He) as (x2 & out2 & E2 & Hok2).
    rewrite E in E2. by injection E2 as -> _.
Qed.
End running.

(** ** Properties *)

(** The whole proxy never fails: from every state its loop can reach (connection
    tables, pending requests, timers, scheduler, objects in flight and waiting control
    messages together), every event is handled to the end: an API call, the top of an
    iteration, a control message, a worker's report, a timer, the cleanup, a ZAP request,
    the queues, and a whole round over the sockets.  No assertion fails, nothing throws,
    and no socket, worker, batch, category or handed-over object is used that is not
    there. *)
Theorem proxy_loop_never_fails `{Allocator} cf th cs tagged active binds bind_ok e ev x :
  loop_reach cf th cs tagged active binds bind_ok x → loop_enabled e ev x →
  ∃ x' out, loop_step cf e ev x = Ok (x', out) ∧ loop_reach cf th cs tagged active binds bind_ok x'.
Proof.
  intros Hr He. destruct (loop_reach_ok _ _ _ _ _ _ _ _ Hr) as (nt & names & res & gen & Hn & Hres & Hg & Hsl & Hok).
  pose proof (loop_enabled_names cf nt names res gen e ev x Hok He) as He'.
  destruct (loop_step_ok cf nt names res gen Hn Hres Hg Hsl e ev x Hok He') as (x' & out & E & _). exists x', out. split; [done|].
  by eapply loop_next.
Qed.

(** C6. Objects are handed over exactly once: in every state reachable by valid calls
    before [QUIT] the objects in flight, the batches, injected tasks and key sets as
    well as the function objects of send options, request callbacks, connect callbacks
    and timers, are precisely those named by the waiting control messages, each by one
    of them, and none of them is a batch the scheduler already owns; and each waiting
    message will be dispatched to its handler with the arguments and objects of the call
    that sent it, which takes those objects out. (A call is not valid if its options
    give the same callback twice: the first object would be lost, see
    [queue_failure_twice_leaks].) *)
Theorem objects_owned_once `{Allocator} cf th cs tagged active binds bind_ok x :
  loop_reach cf th cs tagged active binds bind_ok x →
  ∃ ms, px_control x = (λ rm, rm.1 :: sent_parts cf rm.2) <$> ms ∧
    map_to_list (px_objects x) ≡ₚ ms ≫= (λ rm, sent_objects rm.2) ∧
    dom (px_objects x) ## dom (heap (px_sched x)) ∧
    ∀ i rt m e zmq_id, ms !! i = Some (rt, m) →
      let x1 := with_control (delete i (px_control x)) x in
      proxy_control_message cf e zmq_id (rt :: sent_parts cf m) x1 = sent_meaning cf e zmq_id rt m x1.
Proof.
  intros Hr. destruct (loop_reach_ok _ _ _ _ _ _ _ _ Hr) as (nt & names & res & gen & Hn & Hres & Hg & Hsl & Hok).
  destruct (pk_control _ _ _ _ _ _ Hok) as [ms Hms]. pose proof Hms as [H1 H2 H3]. exists ms. split_and!; [done|done|apply Hok|].
  intros i rt m e zmq_id Hi x1. destruct (taken_ok cf nt names res gen i rt m x ms Hok Hms Hi) as (_ & Hh & _).
  apply (control_dispatch cf e nt names); [|done]. exact (Forall_lookup_1 _ _ _ _ H2 Hi).
Qed.

(** The message a call should become. *)
Definition carries (c : call) (m : sent) : Prop :=
  match c with
  | call_msg r => ∃ wire, m = sent_msg r wire
  | call_batch b => ∃ p, m = sent_batch p b
  | call_job f thread => ∃ p, m = sent_batch p (add_job_thread f (default 0 thread) new_batch)
  | call_inject cat_ command_ remote_ (Some cb) => ∃ p, m = sent_task p cat_ command_ remote_ cb
  | call_inject _ _ _ None => False
  | call_set_sns keys => ∃ p, m = sent_set_sns p keys
  | call_update_sns added removed => ∃ p q, m = sent_update_sns p added q removed
  | call_start => m = sent_start
  end.

(** The state after a message was sent. *)
Definition has_sent (cf : config) (nt : nat) (names : list bytes) (rt : bytes) (x x' : proxy) (m : sent) : Prop :=
  px_control x' = px_control x ++ [rt :: sent_parts cf m] ∧ holds_objects x' m ∧ sent_ok nt names m.

Lemma has_sent_object `{Allocator} cf nt names rt o x :
  memory_for 0 x → object_ok nt names o →
  ∃ p, has_sent cf nt names rt x (send_object rt (sent_cmd (object_msg 0 o)) o x) (object_msg p o).
Proof.
  intros Hmem Ho. exists (new_address (in_use x)). unfold send_object, serialize_object. set (p := new_address (in_use x)).
  assert (ptr_ok p) as Hp by (apply new_address_fits; unfold memory_for in Hmem; by rewrite Nat.add_0_r in Hmem). split_and!.
  - unfold send_control. cbn [px_control with_control with_objects]. rewrite sent_parts_data by by destruct o.
    rewrite bool_decide_eq_false_2 by apply int_data_nonempty. by destruct o.
  - unfold holds_objects. destruct o; try done; apply Forall_singleton; apply lookup_insert_eq.
  - split_and!; destruct o; try done; first [by apply Forall_singleton|apply NoDup_singleton].
Qed.

(** C5. Calls arrive as made: a valid call of a client thread ([call_ok]: among others,
    the options of a send give each callback at most once) puts one message on the
    command socket, after all earlier ones, with its objects reachable, batches, tasks
    and key sets as well as the callback functions; and whenever the proxy receives that
    message while it still holds those objects, the handler of that call runs with
    exactly the call's arguments (options resolved, a disconnect with its linger time,
    callbacks taken back from their objects), whatever else has happened to the state.
    Only injecting an empty function sends nothing. *)
Theorem calls_delivered `{Allocator} cf nt names rt c x x' :
  call_ok nt names c → memory_for 3 x → client_call cf rt c x = Ok x' →
  (x' = x ∧ ∃ cat_ command_ remote_, c = call_inject cat_ command_ remote_ None) ∨
  ∃ m, carries c m ∧ px_control x' = px_control x ++ [rt :: sent_parts cf m] ∧ holds_objects x' m ∧
    ∀ e zmq_id y, holds_objects y m → proxy_control_message cf e zmq_id (rt :: sent_parts cf m) y = sent_meaning cf e zmq_id rt m y.
Proof.
  intros Hc Hmem E. assert (memory_for 0 x) as Hm0 by (unfold memory_for in *; lia).
  assert ((x' = x ∧ ∃ cat_ command_ remote_, c = call_inject cat_ command_ remote_ None) ∨
          ∃ m, carries c m ∧ has_sent cf nt names rt x x' m) as [?|(m & Hcm & H1 & H2 & H3)]; [|by left|right].
  2:{ exists m. split_and!; [done..|]. intros e zmq_id y Hy. by apply (control_dispatch cf e nt names). }
  assert (∀ o, object_ok nt names o → (∀ p, carries c (object_msg p o)) → x' = send_object rt (sent_cmd (object_msg 0 o)) o x →
    ∃ m, carries c m ∧ has_sent cf nt names rt x x' m) as Hobj.
  { intros o Ho Hcar ->. destruct (has_sent_object cf nt names rt o x Hm0 Ho) as [p Hp]. by exists (object_msg p o). }
  destruct c as [m|b|f thread|cat_ command_ remote_ [cb|]|keys|added removed|]; cbn [client_call call_ok] in *.
  - right. destruct (serialize_msg_placed nt m x Hc) as (He & Hp & Hl). destruct (serialize_msg m x) as [wire x1]. cbn [fst snd] in *. injection E as <-.
    exists (sent_msg m wire). split; [by eexists|]. destruct (placed_held _ _ _ Hp) as [Hh Hnd]. split_and!; [| |split_and!; [|done..]].
    + by rewrite (pl_state _ _ _ Hp).
    + exact Hh.
    + apply (pl_ptrs _ _ _ Hp). unfold memory_for in Hmem. cbn [sent_objects]. lia.
  - right. unfold batch_call in E. destruct (_ =? 0)%nat; [done|]. injection E as <-. apply (Hobj (obj_batch b)); [done|by eexists|done].
  - right. unfold job_call in E. case_bool_decide; [done|]. destruct (add_job_fits nt f thread Hc) as (b & Eb & Hb). rewrite Eb in E.
    injection E as <-. unfold add_job in Eb. cbn [b_started new_batch] in Eb. rewrite bool_decide_eq_false_2 in Eb by done. injection Eb as <-.
    apply (Hobj (obj_batch (add_job_thread f (default 0 thread) new_batch))); [done|by eexists|done].
  - right. unfold inject_task in E. destruct (cats _ !! cat_); [|done]. injection E as <-.
    apply (Hobj (obj_task cat_ command_ remote_ cb)); [done|by eexists|done].
  - left. injection E as <-. eauto.
  - right. injection E as <-. apply (Hobj (obj_keys keys)); [done|by eexists|done].
  - right. injection E as <-. unfold update_active_sns, serialize_object. set (p := new_address (in_use x)). set (x1 := with_objects _ x).
    set (q := new_address (in_use x1)). exists (sent_update_sns p added q removed). split; [by eexists _, _|].
    assert (p ≠ q) as Hpq.
    { intros Epq. apply (new_address_fresh (in_use x1)). fold q. rewrite <-Epq. unfold in_use, x1. cbn. rewrite dom_insert. set_solver. }
    assert (size (in_use x1) <= S (size (in_use x)))%nat as Hs.
    { etrans; [|apply (size_add p)]. apply subseteq_size. unfold in_use, x1. cbn. rewrite dom_insert. set_solver. }
    unfold memory_for in Hmem. split_and!; [done| |].
    + repeat constructor; cbn; [by rewrite lookup_insert_ne, lookup_insert_eq|by rewrite lookup_insert_eq].
    + split_and!; [repeat constructor; cbn; apply new_address_fits; lia| |done].
      apply NoDup_cons. split; [by intros ?%list_elem_of_singleton|apply NoDup_singleton].
  - right. injection E as <-. exists sent_start. split; [done|]. split_and!; [done|constructor|split_and!; by constructor].
Qed.

(** C7. The round over the sockets ends, loses nothing and is fair, while messages keep
    arriving: [inbox] is what the sockets hold at first and [arriving] what comes in
    before each attempt to receive, any finite amount of it (a round lasts as long as
    messages keep coming in faster than it takes them).  What is taken from a socket is
    what it held and what came in, in order, and the rest stays in it; all that is taken
    is handled, in that order, an empty message by ignoring it.  Unless the connections
    changed (the loop then starts over with the new sockets, its indices never being
    used again), every socket was found empty, after all the messages it held at first.
    At any time no socket has been served more than once more often than one that has
    not been found empty yet. *)
Theorem receive_round_fair `{Allocator} cf th cs tagged active binds bind_ok e inbox arriving x :
  loop_reach cf th cs tagged active binds bind_ok x → traffic_ok inbox arriving x →
  ∃ x' inbox' late log out, receive_round cf e inbox arriving x = Ok (x', inbox', late, log, out) ∧
    (∃ before, arriving = before ++ late ∧
       ∀ i, inbox_of inbox i ++ arrived i (concat before) = drawn i log ++ inbox_of inbox' i) ∧
    handle_drawn cf e log x = Ok (x', out) ∧
    (stale x' = true ∨
     ∀ i, (i < length (sockets x))%nat → (i, None) ∈ log ∧ (length (inbox_of inbox i) <= length (drawn i log))%nat) ∧
    (∀ pre i j, pre `prefix_of` log → (j < length (sockets x))%nat → (j, None) ∉ pre →
       (length (drawn i pre) <= S (length (drawn j pre)))%nat).
Proof.
  intros Hr Hin. destruct (loop_reach_ok _ _ _ _ _ _ _ _ Hr) as (nt & names & res & gen & Hn & Hres & Hg & Hsl & Hok).
  destruct (receive_round_ok cf nt names res gen Hn Hres Hg Hsl e inbox arriving x Hok Hin)
    as (x' & inbox' & late & log & out & E & _ & Hh & [H1 H2 H3]).
  by exists x', inbox', late, log, out.
Qed.

(** ** A concrete run *)
Definition demo_config : config := mkConfig true true ∅ [] (B "px") (λ _, 3%nat).
Definition demo_conns : conns := ok_or no_conns (proxy_bind (λ _, true) demo_binds ∅).
Definition loop_demo0 : proxy := mkProxy (mkNet demo_conns ∅) no_timers demo0 ∅ [].
Definition loop_demo1 : proxy := ok_or loop_demo0 ('(x, _) ← loop_step demo_config demo_env (le_call (B "c1") (call_batch demo_batch)) loop_demo0; Ok x).
Definition demo_send_with (f : nat) : request_msg :=
  rq_send (mkConn SN_ID (key32 9) []) (B "a.b") [so_part (B "x"); so_keep_alive 500; so_maybe (Some (so_queue_failure f))].
Definition demo_send : request_msg := demo_send_with 77.
Definition loop_demo2 : proxy := ok_or loop_demo0 ('(x, _) ← loop_step demo_config demo_env (le_call (B "c2") (call_msg demo_send)) loop_demo1; Ok x).

Abbreviation demo_reach := (loop_reach demo_config demo_threads demo_cats demo_tagged ∅ demo_binds (λ _, true)).

Lemma demo_batch_fits : batch_fits 1 demo_batch.
Proof. split_and!; [by split|done|done|done|done|]. repeat constructor; by vm_compute. Qed.

Lemma demo_send_ok : request_ok 1 demo_send.
Proof.
  assert (flatten [so_part (B "x"); so_keep_alive 500; so_maybe (Some (so_queue_failure 77))] = [so_part (B "x"); so_keep_alive 500; so_queue_failure 77])
    as E by reflexivity.
  unfold demo_send, demo_send_with, request_ok, send_ok. rewrite E. split_and!; [by vm_compute..| |vm_compute; lia|vm_compute; lia|done].
  constructor; [by vm_compute|]. constructor; [by vm_compute|]. by constructor.
Qed.

Lemma loop_demo0_reach : demo_reach loop_demo0.
Proof. apply loop_start; [apply demo_start|vm_compute; reflexivity|vm_compute; reflexivity|done|vm_compute; reflexivity|apply idle_no_timers]. Qed.

Lemma loop_demo1_reach : demo_reach loop_demo1.
Proof.
  apply (loop_next _ _ _ _ _ _ _ demo_env (le_call (B "c1") (call_batch demo_batch)) loop_demo0 _ []); [apply loop_demo0_reach| |vm_compute; reflexivity].
  split; [apply demo_batch_fits|vm_compute; reflexivity].
Qed.

Lemma loop_demo2_reach : demo_reach loop_demo2.
Proof.
  apply (loop_next _ _ _ _ _ _ _ demo_env (le_call (B "c2") (call_msg demo_send)) loop_demo1 _ []); [apply loop_demo1_reach| |vm_compute; reflexivity].
  split; [apply demo_send_ok|vm_compute; reflexivity].
Qed.

Lemma proxy_loop_never_fails_witness :
  ∃ x' out, loop_step demo_config demo_env (le_control 1 7) loop_demo2 = Ok (x', out) ∧ demo_reach x'.
Proof.
  apply (proxy_loop_never_fails demo_config demo_threads demo_cats demo_tagged ∅ demo_binds (λ _, true) demo_env (le_control 1 7) loop_demo2 loop_demo2_reach).
  split_and!; [|done|by split|vm_compute; reflexivity].
  exists (B "c2"), (sent_parts demo_config (sent_msg demo_send (demo_send_with 1))). split; [vm_compute; reflexivity|].
  intros [|j] q Hj; [|lia]. vm_compute. congruence.
Defined.

Lemma objects_owned_once_witness :
  ∃ ms, px_control loop_demo2 = (λ rm, rm.1 :: sent_parts demo_config rm.2) <$> ms ∧
    map_to_list (px_objects loop_demo2) ≡ₚ ms ≫= (λ rm, sent_objects rm.2) ∧
    dom (px_objects loop_demo2) ## dom (heap (px_sched loop_demo2)) ∧
    ∀ i rt m e zmq_id, ms !! i = Some (rt, m) →
      let x1 := with_control (delete i (px_control loop_demo2)) loop_demo2 in
      proxy_control_message demo_config e zmq_id (rt :: sent_parts demo_config m) x1 = sent_meaning demo_config e zmq_id rt m x1.
Proof. apply (objects_owned_once demo_config demo_threads demo_cats demo_tagged ∅ demo_binds (λ _, true) loop_demo2 loop_demo2_reach). Defined.

Lemma calls_delivered_witness :
  (loop_demo1 = loop_demo0 ∧ ∃ cat_ command_ remote_, call_batch demo_batch = call_inject cat_ command_ remote_ None) ∨
  ∃ m, carries (call_batch demo_batch) m ∧ px_control loop_demo1 = px_control loop_demo0 ++ [B "c1" :: sent_parts demo_config m] ∧ holds_objects loop_demo1 m ∧
    ∀ e zmq_id y, holds_objects y m →
      proxy_control_message demo_config e zmq_id (B "c1" :: sent_parts demo_config m) y = sent_meaning demo_config e zmq_id (B "c1") m y.
Proof.
  apply (calls_delivered demo_config 1 [] (B "c1") (call_batch demo_batch) loop_demo0 loop_demo1); [apply demo_batch_fits|vm_compute; reflexivity..].
Defined.

Definition demo_hi (route_ : bytes) : incoming := mkIncoming [route_; B "HI"] None None (B "10.0.0.1") 100.
Definition demo_inbox : gmap nat (list incoming) := {[0%nat := [demo_hi (B "r1"); demo_hi (B "r2")]]}.

Definition demo_arriving : arrivals := [[]; [(0%nat, demo_hi (B "r3"))]].

Lemma demo_traffic_ok : traffic_ok demo_inbox demo_arriving loop_demo0.
Proof.
  intros i m Hm s _ _. destruct (decide (i = 0%nat)) as [->|Hi].
  - assert (inbox_of demo_inbox 0 ++ arrived 0 (concat demo_arriving) = [demo_hi (B "r1"); demo_hi (B "r2"); demo_hi (B "r3")]) as E
      by (vm_compute; reflexivity).
    rewrite E, !elem_of_cons, elem_of_nil in Hm. destruct Hm as [->|[->|[->|[]]]]; (split; [done|]); by eexists.
  - unfold inbox_of, demo_inbox, arrived in Hm. rewrite lookup_singleton_ne in Hm by done. cbn in Hm.
    rewrite decide_False in Hm by done. by apply elem_of_nil in Hm.
Qed.

Lemma receive_round_fair_witness :
  ∃ x' inbox' late log out, receive_round demo_config demo_env demo_inbox demo_arriving loop_demo0 = Ok (x', inbox', late, log, out) ∧
    (∃ before, demo_arriving = before ++ late ∧
       ∀ i, inbox_of demo_inbox i ++ arrived i (concat before) = drawn i log ++ inbox_of inbox' i) ∧
    handle_drawn demo_config demo_env log loop_demo0 = Ok (x', out) ∧
    (stale x' = true ∨
     ∀ i, (i < length (sockets loop_demo0))%nat → (i, None) ∈ log ∧ (length (inbox_of demo_inbox i) <= length (drawn i log))%nat) ∧
    (∀ pre i j, pre `prefix_of` log → (j < length (sockets loop_demo0))%nat → (j, None) ∉ pre →
       (length (drawn i pre) <= S (length (drawn j pre)))%nat).
Proof.
  apply (receive_round_fair demo_config demo_threads demo_cats demo_tagged ∅ demo_binds (λ _, true) demo_env demo_inbox demo_arriving loop_demo0
    loop_demo0_reach demo_traffic_ok).
Defined.

(** The two control messages are handled; the batch ends up with the scheduler, and the
    message to the node goes out. *)
Example control_messages_handled :
  match ('(x, out) ← loop_step demo_config demo_env (le_control 1 7) loop_demo2;
         '(x, _) ← loop_step demo_config demo_env (le_control 0 7) x; Ok (x, out)) with
  | Ok (x, out) => px_control x = [] ∧ px_objects x = ∅ ∧ size (heap (px_sched x)) = 1%nat ∧ length out = 1%nat
  | _ => False
  end.
Proof. vm_compute. done. Qed.

(** A control message of one part, or with an unknown command, is an error in the proxy. *)
Example bad_control_messages :
  proxy_control_message demo_config demo_env 0 [B "c1"] loop_demo0 = Throw logic_error ∧
  proxy_control_message demo_config demo_env 0 [B "c1"; B "STOP"] loop_demo0 = Throw runtime_error ∧
  proxy_control_message demo_config demo_env 0 [B "c1"; B "SENT"; B "de"] loop_demo0 = Throw runtime_error.
Proof. vm_compute. done. Qed.

(** Timers still fire while the proxy is quitting: a job for the proxy thread runs. *)
Example timers_fire_while_quitting :
  match ('(x, _) ← loop_step demo_config demo_env (le_call (B "c1") (call_msg (rq_timer 1 8 250 false (Some (-1))))) loop_demo0;
         '(x, _) ← loop_step demo_config demo_env (le_control 0 4) x;
         '(x, _) ← proxy_control_message demo_config demo_env 0 [B "c1"; B "QUIT"] x;
         '(x, out) ← loop_step demo_config demo_env (le_timer 4) x; Ok (max_workers (px_sched x), out)) with
  | Ok (n, out) => n = 0 ∧ out = [out_timer (te_call 8)]
  | _ => False
  end.
Proof. vm_compute. done. Qed.

(** [queue_failure] given twice: the second address replaces the first in the message, and
    the first function object stays on the heap for good. *)
Example queue_failure_twice_leaks :
  let m := rq_send (mkConn SN_ID (key32 9) []) (B "a.b") [so_queue_failure 11; so_queue_failure 12] in
  match ('(x, _) ← loop_step demo_config demo_env (le_call (B "c1") (call_msg m)) loop_demo0;
         '(x, _) ← loop_step demo_config demo_env (le_control 0 7) x; Ok x) with
  | Ok x => px_control x = [] ∧ map_to_list (px_objects x) = [(0%nat, obj_fn 11)]
  | _ => False
  end.
Proof. vm_compute. done. Qed.
