(* ===== verification/Worker.v ===== *)
(** worker.cpp: the worker threads.  A thread waits for a command of the proxy, runs
    what its [run_info] holds, and reports [RAN]; here they are put together with the
    proxy, messages between them being in flight for any time. *)
From S2P Require Import Prelude BtValue BtSerialize BtCodec Commands Connections Control Auth Batch Admission Scheduler BatchOwner SchedulerInv Frame Proxy Timers.
Open Scope Z_scope.

(** ** The thread *)

(** Where [worker_thread] is: waiting for [START] (tagged threads), in the start
    function, waiting for [RUN], running something, or returned. *)
Inductive wphase : Type := ph_wait_start | ph_start | ph_wait_run | ph_work | ph_gone.

#[export] Instance wphase_eq_dec : EqDecision wphase.
Proof. solve_decision. Defined.

(** A thread, the messages sent to it that it has not received, and the [Message]
    object it uses for every command.  [wt_index] is the position of its element. *)
Record wthread : Type := mkThread {
  wt_tagged : bool;
  wt_index : nat;
  wt_phase : wphase;
  wt_inbox : list (list bytes);
  wt_message : Message
}.
Definition with_phase (ph : wphase) (x : wthread) : wthread :=
  mkThread (wt_tagged x) (wt_index x) ph (wt_inbox x) (wt_message x).
Definition with_inbox (l : list (list bytes)) (x : wthread) : wthread :=
  mkThread (wt_tagged x) (wt_index x) (wt_phase x) l (wt_message x).

(** The name of the thread, at most 15 characters. *)
Definition thread_name (tagged : option bytes) (routing_id_ : bytes) : bytes :=
  take 15 (default (B "amq-" ++ routing_id_) tagged).

(** A thread begins: a tagged one reports and waits, a pool thread has work. *)
Definition new_thread (tagged : bool) (index : nat) : wthread :=
  mkThread tagged index (if tagged then ph_wait_start else ph_work) []
    (mkMessage [] (conn_of_id 0) [] default_access []).
Definition thread_reports (tagged : bool) : list bytes := if tagged then [B "STARTING"] else [].

(** One message in [worker_wait_for]: go on waiting, the expected command, or [QUIT]. *)
Inductive wait_result : Type := wait_more | wait_found | wait_quit.

Definition worker_wait_for (expect : bytes) (parts : list bytes) : wait_result :=
  match parts with
  | [command_] =>
      if bytes_eqb command_ expect then wait_found
      else if bytes_eqb command_ (B "QUIT") then wait_quit
      else wait_more
  | _ => wait_more
  end.

(** The thread receives its next message, when it is waiting for one; with the
    commands it sends back. *)
Definition worker_recv (x : wthread) : option (wthread * list bytes) :=
  match wt_inbox x with
  | [] => None
  | parts :: rest =>
      let step expect next :=
        match worker_wait_for expect parts with
        | wait_more => Some (with_inbox rest x, [])
        | wait_found => Some (with_phase next (with_inbox rest x), [])
        | wait_quit => Some (with_phase ph_gone (with_inbox rest x), [B "QUITTING"])
        end in
      match wt_phase x with
      | ph_wait_start => step (B "START") ph_start
      | ph_wait_run => step (B "RUN") ph_work
      | _ => None
      end
  end.

(** ** The work *)

(** What a thread calls: a job or the completion of a batch, an injected function, a
    command's callback with its message. *)
Inductive action : Type :=
  | do_job (p : ptr) (jobno : Z)
  | do_completion (p : ptr)
  | do_nothing
  | do_injected (cb : callback)
  | do_command (cb : callback) (m : Message).

(** The thread's [Message] for a command.  [reply_tag] is set for requests only: for
    another command it keeps the tag of the last request. *)
Definition prepare_message (run : run_info) (is_request : bool) (m : Message) : outcome Message :=
  if is_request then
    match data_parts run with
    | tag :: rest => Ok (mkMessage rest (conn run) tag (run_access run) (remote run))
    | [] => UB
    end
  else Ok (mkMessage (data_parts run) (conn run) (m_reply_tag m) (run_access run) (remote run)).

(** The body of the [try] block up to the call.  A variant that does not hold what the
    flags say throws, a null batch is undefined behaviour. *)
Definition worker_work (run : run_info) (m : Message) : outcome (action * Message) :=
  if is_batch_job run then
    match to_run run with
    | run_batch (Some p) =>
        Ok (if 0 <=? batch_jobno run then do_job p (batch_jobno run)
            else if batch_jobno run =? -1 then do_completion p else do_nothing, m)
    | run_batch None => UB
    | _ => Throw bad_variant_access
    end
  else if is_injected run then
    match to_run run with
    | run_injected cb => Ok (do_injected cb, m)
    | _ => Throw bad_variant_access
    end
  else
    match to_run run with
    | run_command cb is_request => m ← prepare_message run is_request m; Ok (do_command cb m, m)
    | _ => Throw bad_variant_access
    end.

(** An iteration of the loop: the work, whose exceptions are caught and logged, then
    [RAN].  [None] for the action when an exception came before the call. *)
Definition worker_iteration (run : run_info) (x : wthread) : outcome (wthread * option action * list bytes) :=
  match worker_work run (wt_message x) with
  | Ok (a, m) => Ok (mkThread (wt_tagged x) (wt_index x) ph_wait_run (wt_inbox x) m, Some a, [B "RAN"])
  | Throw _ => Ok (with_phase ph_wait_run x, None, [B "RAN"])
  | UB => UB
  | Diverge => Diverge
  end.

(** ** The startup of tagged threads

    The proxy waits until every tagged thread has reported. *)
Fixpoint await_tagged (waiting_on : gset bytes) (msgs : list (list bytes)) : option (list (list bytes)) :=
  if decide (waiting_on = ∅) then Some msgs
  else
    match msgs with
    | [] => None
    | [rt; cmd] :: rest =>
        await_tagged (if bytes_eqb cmd (B "STARTING") then waiting_on ∖ {[rt]} else waiting_on) rest
    | _ :: rest => await_tagged waiting_on rest
    end.

(** ** Proxy and threads together *)
Record wsys : Type := mkWsys {
  ws_proxy : timers * sched;
  ws_threads : gmap bytes wthread;          (* by routing id *)
  ws_reports : list (list bytes)            (* to the proxy, oldest first *)
}.

(** What the proxy does reaches the threads: [std::thread], or a message by routing
    id. *)
Definition post (cmd : bytes) (rt : bytes) (th : gmap bytes wthread) : gmap bytes wthread :=
  alter (λ x, with_inbox (wt_inbox x ++ [[cmd]]) x) rt th.
Definition deliver (e : event) (th : gmap bytes wthread) : gmap bytes wthread :=
  match e with
  | ev_spawn w => <[routing_id false w := new_thread false w]> th
  | ev_run rt => post (B "RUN") rt th
  | ev_quit rt => post (B "QUIT") rt th
  | _ => th
  end.
Definition deliver_new (s s' : sched) (th : gmap bytes wthread) : gmap bytes wthread :=
  foldr deliver th (new_events s s').

Inductive wstep : Type :=
  | st_proxy (i : timed_input)              (* anything but [RAN] *)
  | st_report                               (* the proxy takes the next report *)
  | st_recv (rt : bytes)                    (* a thread receives a message *)
  | st_start (rt : bytes)                   (* a tagged thread's start function returns *)
  | st_work (rt : bytes).                   (* a thread finishes an iteration *)

(** The result says which action was performed, if any. *)
Definition wsys_step (st : wstep) (y : wsys) : outcome (wsys * option action) :=
  let (t, s) := ws_proxy y in
  match st with
  | st_proxy i =>
      '(ts, _) ← timed_step i (t, s);
      Ok (mkWsys ts (deliver_new s ts.2 (ws_threads y)) (ws_reports y), None)
  | st_report =>
      match ws_reports y with
      | [] => Ok (y, None)
      | parts :: rest =>
          s' ← proxy_worker_message parts s;
          Ok (mkWsys (foldl (λ t p, timer_completed p t) t (completions (new_events s s')), s')
                (deliver_new s s' (ws_threads y)) rest, None)
      end
  | st_recv rt =>
      match x ← ws_threads y !! rt; worker_recv x with
      | Some (x, cmds) => Ok (mkWsys (t, s) (<[rt := x]> (ws_threads y)) (ws_reports y ++ ((λ c, [rt; c]) <$> cmds)), None)
      | None => Ok (y, None)
      end
  | st_start rt =>
      match ws_threads y !! rt with
      | Some x => if decide (wt_phase x = ph_start)
                  then Ok (mkWsys (t, s) (<[rt := with_phase ph_wait_run x]> (ws_threads y)) (ws_reports y), None)
                  else Ok (y, None)
      | None => Ok (y, None)
      end
  | st_work rt =>
      match ws_threads y !! rt with
      | Some x =>
          if decide (wt_phase x = ph_work) then
            match get_run (wt_tagged x) (wt_index x) s with
            | Some run =>
                '(x, a, cmds) ← worker_iteration run x;
                Ok (mkWsys (t, s) (<[rt := x]> (ws_threads y)) (ws_reports y ++ ((λ c, [rt; c]) <$> cmds)), a)
            | None => UB
            end
          else Ok (y, None)
      | None => Ok (y, None)
      end
  end.

(** Only what comes from outside has conditions. *)
Definition wsys_enabled (st : wstep) (y : wsys) : Prop :=
  match st with
  | st_proxy i => timed_enabled i (ws_proxy y) ∧ (∀ tagged w, i ≠ ti_sched (in_ran tagged w))
  | _ => True
  end.

(** At the start the tagged threads exist and have been sent [START]. *)
Definition start_threads (tagged : nat) : gmap bytes wthread :=
  list_to_map ((λ w, (routing_id true w, with_inbox [[B "START"]] (new_thread true w))) <$> seq 0 tagged).

(** The states before [QUIT]. *)
Inductive wsys_reach (c : thread_config) (cs : gmap bytes category) (tagged : list (run_info * bool * list batch_job)) : wsys → Prop :=
  | wsys_init t s : start_ok cs tagged → proxy_start c cs tagged = Ok s → max_workers s < 2 ^ 31 →
      Z.of_nat (length tagged) < 2 ^ 31 → idle_timers (length tagged) t →
      wsys_reach c cs tagged (mkWsys (t, s) (start_threads (length tagged)) [])
  | wsys_next st y y' a : wsys_reach c cs tagged y → wsys_enabled st y → wsys_step st y = Ok (y', a) →
      wsys_reach c cs tagged y'.
