(* ===== verification/WorkerInv.v ===== *)
(** The protocol between the proxy and its worker threads: a worker the proxy counts
    as busy has been started exactly once and has not reported yet. *)
From S2P Require Import Prelude BtValue BtSerialize BtCodec Commands Connections Control Auth Batch Admission Scheduler BatchOwner SchedulerInv Frame Proxy Timers Worker.
Open Scope Z_scope.

(** ** Tokens *)

(** A start that has not been answered: a [RUN] not yet received or a thread at work. *)
Definition weight (th : gmap bytes wthread) (i : bool * nat) : Z :=
  match th !! routing_id i.1 i.2 with
  | Some x => cnt [B "RUN"] (wt_inbox x) + (if decide (wt_phase x = ph_work) then 1 else 0)
  | None => 0
  end.
Definition ran_report (i : bool * nat) : list bytes := [routing_id i.1 i.2; B "RAN"].

(** All that says that the worker has something to run. *)
Definition tokens (y : wsys) (i : bool * nat) : Z := weight (ws_threads y) i + cnt (ran_report i) (ws_reports y).

(** A thread knows its place, has not returned, and its messages are [RUN]s, after
    [START] when it has not started. *)
Definition thread_ok (rt : bytes) (x : wthread) : Prop :=
  rt = routing_id (wt_tagged x) (wt_index x) ∧
  match wt_phase x with
  | ph_wait_start => ∃ n, wt_inbox x = [B "START"] :: replicate n [B "RUN"]
  | ph_gone => False
  | _ => ∃ n, wt_inbox x = replicate n [B "RUN"]
  end.

(** A thread in another phase is another state. *)
Lemma moved_thread rt (x x' : wthread) w w' :
  ws_threads w' !! rt = Some x → ws_threads w = <[rt := x']> (ws_threads w') → wt_phase x' ≠ wt_phase x → w ≠ w'.
Proof. intros Hx Hw Hp ->. rewrite Hw, lookup_insert_eq in Hx. congruence. Qed.

Lemma weight_nonneg th i : 0 <= weight th i.
Proof.
  unfold weight. destruct (th !! _) as [x|]; [|done]. pose proof (cnt_nonneg [B "RUN"] (wt_inbox x)). destruct (decide _); lia.
Qed.

Lemma busy_in_exists s i : busy_in s i = 1 → worker_exists s i.
Proof.
  unfold busy_in, worker_exists. destruct i as [[] w]; cbn [fst snd].
  - destruct (tagged_workers s !! w) as [[[r b] q]|] eqn:E; [|done]. intros _. by eapply lookup_lt_Some.
  - case_decide as H; [|done]. by destruct H.
Qed.

(** A thread is replaced. *)
Lemma weight_insert rt x th i :
  weight (<[rt := x]> th) i =
  if decide (rt = routing_id i.1 i.2)
  then cnt [B "RUN"] (wt_inbox x) + (if decide (wt_phase x = ph_work) then 1 else 0) else weight th i.
Proof.
  unfold weight. destruct (decide (rt = _)) as [->|H]; [by rewrite lookup_insert_eq|by rewrite lookup_insert_ne].
Qed.

Lemma weight_work th i x : th !! routing_id i.1 i.2 = Some x → wt_phase x = ph_work → 1 <= weight th i.
Proof.
  intros E Hp. unfold weight. rewrite E, decide_True by done. pose proof (cnt_nonneg [B "RUN"] (wt_inbox x)). lia.
Qed.

(** ** Delivering *)
Lemma started_elem i e k : e ∈ k → ∃ k', started i k = starts i e + started i k' ∧ ∀ e', e' ∈ k → e' = e ∨ e' ∈ k'.
Proof.
  intros (k1 & k2 & ->)%list_elem_of_split. exists (k1 ++ k2). split; [|set_solver]. rewrite !started_app.
  unfold started at 2, sumZ. cbn [foldr]. fold (sumZ (starts i) k2). fold (started i k2). lia.
Qed.

(** A worker is not started twice, so not spawned and told to run. *)
Lemma started_both w k : ev_spawn w ∈ k → ev_run (routing_id false w) ∈ k → 2 <= started (false, w) k.
Proof.
  intros Hs Hr. destruct (started_elem (false, w) _ _ Hs) as (k' & -> & Hk). destruct (Hk _ Hr) as [|Hr']; [done|].
  destruct (started_elem (false, w) _ _ Hr') as (k'' & -> & _). rewrite starts_run. cbn [starts]. rewrite !decide_True by done.
  pose proof (started_nonneg (false, w) k''). lia.
Qed.

Lemma deliver_dom e th rt : is_Some (th !! rt) → is_Some (deliver e th !! rt).
Proof.
  assert (∀ cmd r, is_Some (th !! rt) → is_Some (post cmd r th !! rt)) as Hp.
  { intros cmd r [x Hx]. unfold post. destruct (decide (r = rt)) as [->|Hne].
    - rewrite lookup_alter_eq, Hx. by eauto.
    - rewrite lookup_alter_ne by done. by eauto. }
  destruct e; cbn; auto. intros H. apply lookup_insert_is_Some'. by right.
Qed.

Lemma deliver_all_dom k th rt : is_Some (th !! rt) → is_Some (foldr deliver th k !! rt).
Proof. induction k as [|e k IH]; [done|]. intros H. cbn. by apply deliver_dom, IH. Qed.

Lemma deliver_spawned w k th : ev_spawn w ∈ k → is_Some (foldr deliver th k !! routing_id false w).
Proof.
  intros (k1 & k2 & ->)%list_elem_of_split. rewrite foldr_app. apply deliver_all_dom. cbn. by rewrite lookup_insert_eq.
Qed.

(** The weight grows by the starts delivered. *)
Lemma deliver_weight k th :
  Forall quiet k → (∀ rt, ev_run rt ∈ k → ∃ t w, rt = routing_id t w ∧ is_Some (th !! rt)) →
  (∀ i, weight th i + started i k <= 1) →
  ∀ i, weight (foldr deliver th k) i = weight th i + started i k.
Proof.
  induction k as [|e k IH]; intros Hq Hr Hle i; [cbn; lia|]. apply Forall_cons in Hq as [He Hq].
  assert (∀ i, started i (e :: k) = starts i e + started i k) as Hs by done.
  assert (∀ i, 0 <= starts i e) as Hpos by (intros j; destruct e; cbn; repeat case_decide; lia).
  assert (∀ i, weight (foldr deliver th k) i = weight th i + started i k) as IH'.
  { apply IH; [done| |]; [intros rt Hrt; apply Hr; by right|]. intros j. specialize (Hle j). specialize (Hpos j). rewrite Hs in Hle. lia. }
  cbn [foldr]. rewrite Hs. destruct e as [w|rt| | | |]; try done; cbn [deliver].
  - rewrite weight_insert. destruct (decide (_ = _)) as [E|E].
    + apply routing_id_inj in E. destruct i as [t v]. injection E as <- <-. specialize (Hle (false, w)). rewrite Hs in Hle.
      cbn [starts] in *. pose proof (weight_nonneg th (false, w)).
      pose proof (started_nonneg (false, w) k). change (cnt _ (wt_inbox (new_thread false w))) with 0.
      rewrite (decide_True (P := (false, w) = _)) in Hle by done. rewrite !decide_True by done. lia.
    + rewrite IH'. cbn [starts]. rewrite decide_False; [lia|]. by intros ->.
  - destruct (Hr rt) as (t & w & -> & Hx); [by left|]. destruct (deliver_all_dom k th _ Hx) as [x Ex].
    assert (post (B "RUN") (routing_id t w) (foldr deliver th k)
      = <[routing_id t w := with_inbox (wt_inbox x ++ [[B "RUN"]]) x]> (foldr deliver th k)) as ->.
    { unfold post. rewrite <-(insert_id _ _ _ Ex) at 1. by rewrite alter_insert_eq. }
    rewrite weight_insert, starts_run. destruct (decide (_ = _)) as [E|E].
    + apply routing_id_inj in E. destruct i as [t' w']. injection E as <- <-. rewrite (decide_True (P := (t, w) = _)) by done.
      specialize (IH' (t, w)). revert IH'.
      unfold weight. cbn [fst snd]. rewrite Ex. cbn [with_inbox wt_inbox wt_phase]. rewrite cnt_app, cnt_cons.
      rewrite (decide_True (P := [B "RUN"] = _)) by done. change (cnt _ []) with 0. lia.
    + rewrite IH', decide_False; [lia|]. by intros ->.
Qed.

Definition threads_ok (th : gmap bytes wthread) : Prop := ∀ rt x, th !! rt = Some x → thread_ok rt x.

Lemma threads_ok_insert rt x th : threads_ok th → thread_ok rt x → threads_ok (<[rt := x]> th).
Proof. intros H Hx r y [(<- & <-)|(_ & Hy)]%lookup_insert_Some; [done|by apply H]. Qed.

Lemma thread_ok_run rt x : thread_ok rt x → thread_ok rt (with_inbox (wt_inbox x ++ [[B "RUN"]]) x).
Proof.
  intros [Hr Hx]. split; [done|]. cbn [with_inbox wt_phase wt_inbox].
  assert (∀ n, replicate n [B "RUN"] ++ [[B "RUN"]] = replicate (S n) [B "RUN"]) as E.
  { intros n. by rewrite replicate_S_end. }
  destruct (wt_phase x); try done; destruct Hx as [n ->]; exists (S n); by rewrite <-E.
Qed.

Lemma deliver_threads_ok k th : Forall quiet k → threads_ok th → threads_ok (foldr deliver th k).
Proof.
  induction 1 as [|e k He _ IH]; intros Hth; [done|]. specialize (IH Hth). cbn [foldr]. destruct e as [w|rt| | | |]; try done; cbn [deliver].
  - apply threads_ok_insert; [done|]. split; [done|]. by exists 0%nat.
  - intros r x. unfold post. rewrite lookup_alter_Some. intros [(<- & y & Hy & ->)|(_ & Hx)]; [|by apply IH].
    by apply thread_ok_run, IH.
Qed.

(** ** The invariant *)
Section steps.
Context (names : list bytes) (res : kind → Z) (gen : Z).
Context (Hnames : NoDup names) (Hres : ∀ k, 0 <= res k) (Hgen : 0 < gen) (Hslots : slots (kinds names) res gen < 2 ^ 31).

Record wsys_ok (y : wsys) : Prop := {
  wk_timed : timed_ok names res gen (ws_proxy y);
  wk_tagged : Z.of_nat (length (tagged_workers (ws_proxy y).2)) < 2 ^ 31;
  wk_tokens i : tokens y i = busy_in (ws_proxy y).2 i;
  wk_threads : threads_ok (ws_threads y);
  wk_exist i : worker_exists (ws_proxy y).2 i → is_Some (ws_threads y !! routing_id i.1 i.2);
  wk_reports m : m ∈ ws_reports y → ∃ i, m = ran_report i
}.

(** Starts reach their workers. *)
Lemma deliver_ok k th s s' :
  acts_with k s s' → threads_ok th → (∀ i, weight th i <= busy_in s i) →
  (∀ i, worker_exists s i → is_Some (th !! routing_id i.1 i.2)) →
  (∀ i, weight (foldr deliver th k) i = weight th i + started i k) ∧ threads_ok (foldr deliver th k) ∧
  (∀ i, worker_exists s' i → is_Some (foldr deliver th k !! routing_id i.1 i.2)).
Proof.
  intros Hk Hth Hw He. pose proof (act_busy _ _ _ Hk) as Hb. split_and!.
  - apply deliver_weight; [apply (act_quiet _ _ _ Hk)| |].
    + intros rt Hrt. destruct (act_named _ _ _ Hk _ Hrt) as (t & w & -> & Hx). exists t, w. split; [done|]. apply (He (t, w)).
      unfold worker_exists in *. cbn [fst snd] in *. destruct t; [by rewrite <-(act_tagged _ _ _ Hk)|].
      destruct (decide (w < length (workers s))%nat); [done|].
      assert (ev_spawn w ∈ k) as Hs by (apply (act_grow _ _ _ Hk); lia). pose proof (started_both w k Hs Hrt).
      pose proof (busy_in_range s (false, w)). pose proof (busy_in_range s' (false, w)). rewrite Hb in *. lia.
    + intros i. specialize (Hw i). specialize (Hb i). pose proof (busy_in_range s' i). lia.
  - apply deliver_threads_ok; [apply (act_quiet _ _ _ Hk)|done].
  - intros [t w] Hx. unfold worker_exists in *. cbn [fst snd] in *.
    destruct t; [apply deliver_all_dom, (He (true, w)); unfold worker_exists; cbn; by rewrite <-(act_tagged _ _ _ Hk)|].
    destruct (decide (w < length (workers s))%nat); [by apply deliver_all_dom, (He (false, w))|].
    apply deliver_spawned, (act_grow _ _ _ Hk). lia.
Qed.

Lemma tokens_weight y i : wsys_ok y → weight (ws_threads y) i <= busy_in (ws_proxy y).2 i.
Proof. intros Hy. rewrite <-(wk_tokens _ Hy i). unfold tokens. pose proof (cnt_nonneg (ran_report i) (ws_reports y)). lia. Qed.

(** The proxy's own steps. *)
Lemma queue_timer_job_acts p z t s t' s' effs :
  p ∉ dom (heap s) → _queue_timer_job p z t s = Ok (t', s', effs) → acts s s'.
Proof.
  intros Hp. unfold _queue_timer_job. destruct (timer_jobs t !! z) as [d|]; [|by intros [= <- <- <-]].
  destruct (_ && _); [by intros [= <- <- <-]|]. destruct (_ =? -1); [by intros [= <- <- <-]|]. intros E. inv_bind.
  cbv zeta in E. set (s1 := with_batches _ _) in E. case_bool_decide; [|done]. inv_bind. injection E as <- <- <-.
  transitivity s1; [transitivity (alloc_batch p a s); [by apply alloc_acts|apply acts_same; reflexivity]|].
  destruct (0 <? _); [by eapply push_tagged_acts|]. injection E1 as <-. apply acts_same; reflexivity.
Qed.

Lemma timed_step_acts i t s ts' effs :
  loads_ok s → timed_enabled i (t, s) → (∀ tagged w, i ≠ ti_sched (in_ran tagged w)) →
  timed_step i (t, s) = Ok (ts', effs) → acts s ts'.2.
Proof.
  intros Hl He Hn E. destruct i as [z id job interval squelch thread|id|p z|i]; cbn [timed_step timed_enabled fst snd] in *.
  - inv_bind. destruct a as [t' e]. by injection E as <- <-.
  - destruct (proxy_timer_del id t) as [t' e]. by injection E as <- <-.
  - destruct ts' as [t' s']. by eapply queue_timer_job_acts.
  - inv_bind. destruct a as [t' s']. injection E as <- <-. unfold timed_handle in E0. inv_bind. injection E0 as _ <-.
    eapply handle_acts; [done|done| |done]. destruct i; try done. by destruct (Hn tagged w).
Qed.

Lemma proxy_step_ok i y :
  wsys_ok y → wsys_enabled (st_proxy i) y → ∃ y', wsys_step (st_proxy i) y = Ok (y', None) ∧ wsys_ok y'.
Proof using Hnames Hres Hgen Hslots.
  intros Hy [He Hn]. destruct y as [[t s] th rs]. cbn [wsys_step ws_proxy ws_threads ws_reports] in *.
  pose proof (wk_timed _ Hy) as Ht. cbn [ws_proxy] in Ht.
  destruct (timed_step_ok names res gen Hnames Hres Hgen Hslots i (t, s) Ht He) as (ts' & effs & E & Ht'). rewrite E.
  cbn [mbind outcome_bind]. eexists. split; [done|].
  pose proof (timed_step_acts i t s ts' effs (to_loads _ _ _ _ Ht) He Hn E (to_ids _ _ _ _ Ht)) as [k Hk].
  unfold deliver_new. rewrite (new_events_app s ts'.2 k (act_events _ _ _ Hk)).
  destruct (deliver_ok k th s ts'.2 Hk (wk_threads _ Hy) (λ i, tokens_weight _ i Hy) (wk_exist _ Hy)) as (Hw & Hth & Hex).
  split; cbn [ws_proxy ws_threads ws_reports]; try done.
  - rewrite (act_tagged _ _ _ Hk). apply (wk_tagged _ Hy).
  - intros j. unfold tokens. cbn [ws_threads ws_reports]. rewrite Hw, (act_busy _ _ _ Hk), <-(wk_tokens _ Hy). unfold tokens. cbn. lia.
  - apply (wk_reports _ Hy).
Qed.

(** The events of a report start nobody. *)
Lemma ran_fate_starts j h h' k th : ran_fate j h = Some (h', k) → foldr deliver th k = th.
Proof.
  unfold ran_fate. destruct (j.2 =? -1); [by intros [= <- <-]|]. destruct (h !! j.1) as [b|]; [|done].
  cbn [mbind option_bind]. destruct (job_finished b) as [st b']. repeat case_match; by intros [= <- <-].
Qed.

Lemma report_enabled i s :
  busy_in s i = 1 → Z.of_nat (length (tagged_workers s)) < 2 ^ 31 → enabled (in_ran i.1 i.2) s.
Proof.
  destruct i as [[] w]; unfold busy_in; cbn [fst snd enabled].
  - destruct (tagged_workers s !! w) as [[[r []] q]|] eqn:E; try done. intros _ Hl. split; [|by eauto].
    apply lookup_lt_Some in E. lia.
  - by case_decide.
Qed.

Lemma worker_exists_run s t w : worker_exists s (t, w) ↔ is_Some (get_run t w s).
Proof.
  unfold worker_exists, get_run. destruct t; cbn [fst snd]; [rewrite fmap_is_Some|]; by rewrite lookup_lt_is_Some.
Qed.

Lemma report_step_ok y :
  wsys_ok y →
  ∃ y', wsys_step st_report y = Ok (y', None) ∧ wsys_ok y' ∧ ws_threads y' = ws_threads y ∧ ws_reports y' = tail (ws_reports y).
Proof using Hnames Hres Hgen Hslots.
  intros Hy. destruct y as [[t s] th rs]. cbn [wsys_step ws_proxy ws_threads ws_reports].
  destruct rs as [|m rs]; [by eauto|]. destruct (wk_reports _ Hy m) as [[tg w] ->]; [by left|].
  assert (busy_in s (tg, w) = 1) as Hb.
  { pose proof (wk_tokens _ Hy (tg, w)) as Hk. unfold tokens in Hk. cbn [ws_threads ws_reports ws_proxy snd] in Hk.
    rewrite cnt_cons, decide_True in Hk by done. pose proof (weight_nonneg th (tg, w)). pose proof (cnt_nonneg (ran_report (tg, w)) rs).
    pose proof (busy_in_range s (tg, w)). lia. }
  pose proof (report_enabled (tg, w) s Hb (wk_tagged _ Hy)) as He. pose proof (wk_timed _ Hy) as Ht. cbn [ws_proxy fst snd] in *.
  destruct (timed_handle_ok names res gen Hnames Hres Hgen Hslots (in_ran tg w) t s Ht He) as (t' & s' & E & Ht').
  unfold timed_handle in E. inv_bind. injection E as <- <-. rename a into s'.
  change (handle (in_ran tg w) s) with (proxy_worker_message (ran_report (tg, w)) s) in E0. rewrite E0.
  cbn [mbind outcome_bind]. eexists. split; [done|].
  pose proof (to_inv _ _ _ _ Ht) as Hi. cbn [snd] in Hi. destruct (ran_bound names res gen Hslots tg w s Hi He) as [Hw Hlt].
  change (handle (in_ran tg w) s = Ok s') in E0. rewrite handle_ran in E0 by done.
  destruct (worker_ran_frame tg w (routing_id tg w) s s' (to_ids _ _ _ _ Ht)) as (_ & Hbs & Hl & [Hrs _] & run & k & _ & Ek & Hf);
    [|done|apply Hi|done|].
  { rewrite (a_max _ _ _ _ _ (proj1 (inv_acct _ _ _ _ Hi))). pose proof (slots_pos names res gen Hres Hgen). lia. }
  assert (deliver_new s s' th = th) as Hd.
  { unfold deliver_new. rewrite (new_events_app s s' k Ek). destruct (is_batch_job run); [|by destruct Hf as [_ ->]].
    destruct Hf as (p & _ & Hf). by eapply ran_fate_starts. }
  rewrite Hd. split; [|done]. split; cbn [ws_proxy ws_threads ws_reports fst snd]; try done.
  - rewrite Hl. apply (wk_tagged _ Hy).
  - intros i. rewrite Hbs. pose proof (wk_tokens _ Hy i) as Hk. unfold tokens in *. cbn [ws_threads ws_reports ws_proxy snd] in *.
    rewrite cnt_cons in Hk. assert (ran_report (tg, w) = ran_report i ↔ i = (tg, w)) as Hiff.
    { split; [|by intros ->]. destruct i as [t0 v]. intros E. injection E as E. apply routing_id_inj in E. by injection E as -> ->. }
    rewrite (decide_ext _ _ _ _ Hiff) in Hk. lia.
  - apply (wk_threads _ Hy).
  - intros [t0 v] Hx. apply (wk_exist _ Hy). cbn [ws_proxy snd]. destruct (decide ((t0, v) = (tg, w))) as [->|Hne]; [by apply busy_in_exists|].
    apply worker_exists_run in Hx. rewrite Hrs in Hx by done. by apply worker_exists_run.
  - intros m Hm. apply (wk_reports _ Hy). by right.
Qed.

(** ** The threads' steps *)

(** Replacing a thread, and sending reports. *)
Lemma thread_step_ok t s th rs rt x x' rs' :
  wsys_ok (mkWsys (t, s) th rs) → th !! rt = Some x → thread_ok rt x' →
  (∀ m, m ∈ rs' → ∃ i, m = ran_report i) →
  (∀ i, rt = routing_id i.1 i.2 →
    cnt [B "RUN"] (wt_inbox x') + (if decide (wt_phase x' = ph_work) then 1 else 0) + cnt (ran_report i) rs'
    = cnt [B "RUN"] (wt_inbox x) + (if decide (wt_phase x = ph_work) then 1 else 0)) →
  (∀ i, rt ≠ routing_id i.1 i.2 → cnt (ran_report i) rs' = 0) →
  wsys_ok (mkWsys (t, s) (<[rt := x']> th) (rs ++ rs')).
Proof.
  intros Hy Hx Hok Hrs Hcnt Hne. split; cbn [ws_proxy ws_threads ws_reports].
  - apply (wk_timed _ Hy).
  - apply (wk_tagged _ Hy).
  - intros i. pose proof (wk_tokens _ Hy i) as Hk. unfold tokens in *. cbn [ws_threads ws_reports ws_proxy snd] in *.
    rewrite <-Hk, weight_insert, cnt_app.
    destruct (decide (rt = routing_id i.1 i.2)) as [E|E]; [|rewrite (Hne i E); lia].
    specialize (Hcnt i E). unfold weight. rewrite <-E, Hx. lia.
  - by apply threads_ok_insert; [apply (wk_threads _ Hy)|].
  - intros i Hi. apply lookup_insert_is_Some'. right. by apply (wk_exist _ Hy).
  - intros m [Hm|Hm]%elem_of_app; [by apply (wk_reports _ Hy)|by apply Hrs].
Qed.

Lemma cnt_start l : cnt [B "RUN"] ([B "START"] :: l) = cnt [B "RUN"] l.
Proof. rewrite cnt_cons, decide_False by (intros E; vm_compute in E; discriminate E). lia. Qed.
Lemma cnt_run l : cnt [B "RUN"] ([B "RUN"] :: l) = cnt [B "RUN"] l + 1.
Proof. by rewrite cnt_cons, decide_True. Qed.
Lemma cnt_not_in {K} `{EqDecision K} (k : K) l : k ∉ l → cnt k l = 0.
Proof using Type. clear. induction l as [|x l IH]; intros Hn; [done|]. rewrite cnt_cons, IH, decide_False by set_solver. lia. Qed.
Lemma cnt_nil {K} `{EqDecision K} (k : K) : cnt k [] = 0.
Proof. done. Qed.

Lemma recv_step_ok rt y : wsys_ok y → ∃ y', wsys_step (st_recv rt) y = Ok (y', None) ∧ wsys_ok y'.
Proof.
  intros Hy. destruct y as [[t s] th rs]. cbn [wsys_step ws_proxy ws_threads ws_reports].
  destruct (th !! rt) as [x|] eqn:Hx; [|by eauto]. cbn [mbind option_bind].
  pose proof (wk_threads _ Hy rt x Hx) as [Hrt Hph]. unfold worker_recv.
  destruct (wt_inbox x) as [|m rest] eqn:Ein; [by eauto|].
  destruct (wt_phase x) eqn:Eph; try (by eauto); destruct Hph as [n Hn].
  - injection Hn as -> ->. cbn [worker_wait_for]. rewrite bytes_eqb_refl. eexists. split; [done|].
    apply (thread_step_ok t s th rs rt x); try done.
    + split; [done|]. by exists n.
    + by intros m Hm%elem_of_nil.
    + intros i _. rewrite Ein, Eph. cbn [with_phase with_inbox wt_inbox wt_phase fmap list_fmap]. rewrite cnt_start, cnt_nil.
      rewrite !decide_False by done. lia.
  - destruct n as [|n]; [done|]. injection Hn as -> ->. cbn [worker_wait_for]. rewrite bytes_eqb_refl. eexists. split; [done|].
    apply (thread_step_ok t s th rs rt x); try done.
    + split; [done|]. by exists n.
    + by intros m Hm%elem_of_nil.
    + intros i _. rewrite Ein, Eph. cbn [with_phase with_inbox wt_inbox wt_phase fmap list_fmap]. rewrite cnt_run, cnt_nil.
      rewrite decide_True, decide_False by done. lia.
Qed.

Lemma start_step_ok rt y : wsys_ok y → ∃ y', wsys_step (st_start rt) y = Ok (y', None) ∧ wsys_ok y'.
Proof.
  intros Hy. destruct y as [[t s] th rs]. cbn [wsys_step ws_proxy ws_threads ws_reports].
  destruct (th !! rt) as [x|] eqn:Hx; [|by eauto]. destruct (decide _) as [Eph|]; [|by eauto]. eexists. split; [done|].
  pose proof (wk_threads _ Hy rt x Hx) as [Hrt Hph]. rewrite Eph in Hph. rewrite <-(app_nil_r rs).
  apply (thread_step_ok t s th rs rt x); try done; [by intros m Hm%elem_of_nil|].
  intros i _. rewrite Eph. cbn [with_phase wt_inbox wt_phase]. rewrite cnt_nil, !decide_False by done. lia.
Qed.

(** What a worker at work finds is complete. *)
Lemma worker_work_ok run m : load_ok run → ∃ a m', worker_work run m = Ok (a, m').
Proof.
  unfold load_ok, worker_work, prepare_message. destruct (is_batch_job run), (is_injected run), (to_run run) as [cb rq|[p|]|cb];
    intros Hl; try done; try by eauto.
  destruct rq; cbn; [|by eauto]. destruct (data_parts run); [by destruct (Hl eq_refl)|]. cbn. by eauto.
Qed.

Lemma at_work_busy t s th rs rt x :
  wsys_ok (mkWsys (t, s) th rs) → th !! rt = Some x → wt_phase x = ph_work →
  busy_in s (wt_tagged x, wt_index x) = 1 ∧ ∃ run, get_run (wt_tagged x) (wt_index x) s = Some run ∧ load_ok run.
Proof.
  intros Hy Hx Eph. destruct (wk_threads _ Hy rt x Hx) as [Hrt _].
  assert (busy_in s (wt_tagged x, wt_index x) = 1) as Hb.
  { pose proof (tokens_weight _ (wt_tagged x, wt_index x) Hy) as Hw. pose proof (weight_work th (wt_tagged x, wt_index x) x) as H1.
    cbn [fst snd ws_threads ws_proxy] in *. rewrite <-Hrt in H1. specialize (H1 Hx Eph).
    pose proof (busy_in_range s (wt_tagged x, wt_index x)). lia. }
  split; [done|]. destruct (proj1 (worker_exists_run s _ _) (busy_in_exists _ _ Hb)) as [run Hg]. exists run. split; [done|].
  by apply (ld_run _ (to_loads _ _ _ _ (wk_timed _ Hy)) _ _ _ Hb).
Qed.

Lemma work_step_ok rt y : wsys_ok y → ∃ y' a, wsys_step (st_work rt) y = Ok (y', a) ∧ wsys_ok y'.
Proof.
  intros Hy. destruct y as [[t s] th rs]. cbn [wsys_step ws_proxy ws_threads ws_reports].
  destruct (th !! rt) as [x|] eqn:Hx; [|by eauto]. destruct (decide _) as [Eph|]; [|by eauto].
  destruct (at_work_busy t s th rs rt x Hy Hx Eph) as (_ & run & -> & Hl). unfold worker_iteration.
  destruct (worker_work_ok run (wt_message x) Hl) as (a & m & ->). cbn [mbind outcome_bind]. eexists _, _. split; [done|].
  pose proof (wk_threads _ Hy rt x Hx) as [Hrt Hph]. rewrite Eph in Hph.
  apply (thread_step_ok t s th rs rt x); try done.
  - intros r Hr. apply list_elem_of_singleton in Hr as ->. exists (wt_tagged x, wt_index x). unfold ran_report. cbn [fst snd]. by rewrite <-Hrt.
  - intros i Hi. rewrite Eph. cbn [wt_inbox wt_phase fmap list_fmap]. rewrite cnt_cons, cnt_nil.
    rewrite (decide_True (P := [rt; B "RAN"] = _)) by (unfold ran_report; by rewrite Hi). rewrite decide_False, decide_True by done. lia.
  - intros i Hi. cbn [fmap list_fmap]. rewrite cnt_cons, decide_False; [done|]. intros [= E]. done.
Qed.

Lemma wsys_step_ok st y : wsys_ok y → wsys_enabled st y → ∃ y' a, wsys_step st y = Ok (y', a) ∧ wsys_ok y'.
Proof using Hnames Hres Hgen Hslots.
  intros Hy He. destruct st as [i| |rt|rt|rt].
  - destruct (proxy_step_ok i y Hy He) as (y' & E & H). by eauto.
  - destruct (report_step_ok y Hy) as (y' & E & H & _). by eauto.
  - destruct (recv_step_ok rt y Hy) as (y' & E & H). by eauto.
  - destruct (start_step_ok rt y Hy) as (y' & E & H). by eauto.
  - by apply work_step_ok.
Qed.
End steps.

(** ** The start *)
Lemma start_threads_lookup n rt x :
  start_threads n !! rt = Some x ↔ ∃ w, (w < n)%nat ∧ rt = routing_id true w ∧ x = with_inbox [[B "START"]] (new_thread true w).
Proof.
  unfold start_threads. rewrite <-elem_of_list_to_map.
  - rewrite list_elem_of_fmap. setoid_rewrite elem_of_seq. split.
    + intros (w & [= -> ->] & Hw). exists w. split_and!; [lia|done..].
    + intros (w & Hw & -> & ->). exists w. split; [done|lia].
  - rewrite <-list_fmap_compose. apply NoDup_fmap_2; [|apply NoDup_seq].
    intros v w E. cbn in E. apply (routing_id_inj true v true w) in E. by injection E.
Qed.

Lemma wsys_init_ok names res gen c cs tagged t s :
  timed_ok names res gen (t, s) → start_ok cs tagged → proxy_start c cs tagged = Ok s → Z.of_nat (length tagged) < 2 ^ 31 →
  wsys_ok names res gen (mkWsys (t, s) (start_threads (length tagged)) []).
Proof.
  intros Ht Hst Hs Hl. assert (tagged_workers s = tagged ∧ workers s = []) as [Et Ew].
  { revert Hs. unfold proxy_start. destruct (_ <=? 0); [done|]. cbv zeta. by intros [= <-]. }
  assert (∀ i, weight (start_threads (length tagged)) i = 0) as Hw.
  { intros i. unfold weight. destruct (_ !! _) as [x|] eqn:E; [|done]. apply start_threads_lookup in E as (w & _ & _ & ->).
    cbn [with_inbox new_thread wt_inbox wt_phase]. by rewrite cnt_start, decide_False. }
  split; cbn [ws_proxy ws_threads ws_reports snd]; try done.
  - by rewrite Et.
  - intros i. unfold tokens. cbn [ws_threads ws_reports]. rewrite Hw, cnt_nil. unfold busy_in. rewrite Et, Ew. destruct i as [[] w]; cbn [fst snd].
    + destruct (tagged !! w) as [[[r b] q]|] eqn:E; [|done]. by destruct (start_tagged _ _ Hst _ _ _ _ E) as (-> & _).
    + rewrite decide_False; [done|]. intros [H _]. cbn in H. lia.
  - intros rt x (w & Hw' & -> & ->)%start_threads_lookup. split; [done|]. by exists 0%nat.
  - intros [[] w] Hx; unfold worker_exists in Hx; cbn [fst snd] in *; [|rewrite Ew in Hx; cbn in Hx; lia].
    rewrite Et in Hx. eexists. apply start_threads_lookup. by eauto.
  - by intros m Hm%elem_of_nil.
Qed.

Lemma wsys_reach_ok c cs tagged y :
  wsys_reach c cs tagged y →
  ∃ names res gen, NoDup names ∧ (∀ k, 0 <= res k) ∧ 0 < gen ∧ slots (kinds names) res gen < 2 ^ 31 ∧ wsys_ok names res gen y.
Proof.
  induction 1 as [t s Hst Hs Hmax Hl Hti|st y y' a _ (names & res & gen & Hn & Hr & Hg & Hsl & Hok) He E].
  - destruct (timed_reach_ok c cs tagged (t, s)) as (names & res & gen & Hn & Hr & Hg & Hsl & Ht); [by apply timed_start|].
    exists names, res, gen. split_and!; try done. by eapply wsys_init_ok.
  - exists names, res, gen. split_and!; try done.
    destruct (wsys_step_ok names res gen Hn Hr Hg Hsl st y Hok He) as (y2 & a2 & E2 & Hok2). rewrite E in E2. by injection E2 as -> ->.
Qed.

(** ** Properties *)

(** C8. Every worker is started exactly once for each piece of work and reports
    exactly once: whatever the order in which messages arrive, a worker is busy in the
    proxy's books exactly when one of these holds, and then only one, once: a [RUN] is
    on its way to its thread, its thread is at work, or its [RAN] is on its way
    back. *)
Theorem worker_started_once c cs tagged y i :
  wsys_reach c cs tagged y →
  weight (ws_threads y) i + cnt (ran_report i) (ws_reports y) = busy_in (ws_proxy y).2 i ∧ 0 <= busy_in (ws_proxy y).2 i <= 1.
Proof.
  intros Hr. destruct (wsys_reach_ok _ _ _ _ Hr) as (names & res & gen & _ & _ & _ & _ & Hok).
  split; [apply (wk_tokens _ _ _ _ Hok)|apply busy_in_range].
Qed.

(** Proxy and worker threads together never fail: every step of a thread, every
    report it makes and every input from outside that can occur is handled to the end.
    What the proxy assumes of [RAN] messages is what the threads do, and a thread never
    finds a null batch, the wrong kind of function or a request without its tag. *)
Theorem threads_never_fail c cs tagged y st :
  wsys_reach c cs tagged y → wsys_enabled st y → ∃ y' a, wsys_step st y = Ok (y', a) ∧ wsys_reach c cs tagged y'.
Proof.
  intros Hr He. destruct (wsys_reach_ok _ _ _ _ Hr) as (names & res & gen & Hn & Hres & Hg & Hsl & Hok).
  destruct (wsys_step_ok names res gen Hn Hres Hg Hsl st y Hok He) as (y' & a & E & _). exists y', a. split; [done|].
  by eapply wsys_next.
Qed.

(** A thread only works on live batches: the job it runs is one of a batch that
    has not been deleted, and a completion is run of a live batch that has a
    completion function. *)
Theorem worker_action_valid c cs tagged y rt y' a :
  wsys_reach c cs tagged y → wsys_step (st_work rt) y = Ok (y', Some a) →
  match a with
  | do_job p j => ∃ b, heap (ws_proxy y).2 !! p = Some b ∧ 0 <= j < Z.of_nat (length (jobs b))
  | do_completion p => ∃ b f, heap (ws_proxy y).2 !! p = Some b ∧ complete b = Some f ∧ jobs_outstanding b = 0
  | do_nothing => False
  | do_injected _ | do_command _ _ => True
  end.
Proof.
  intros Hr E. destruct (wsys_reach_ok _ _ _ _ Hr) as (names & res & gen & _ & _ & _ & _ & Hok).
  destruct y as [[t s] th rs]. cbn [wsys_step ws_proxy ws_threads ws_reports snd] in *.
  destruct (th !! rt) as [x|] eqn:Hx; [|done]. destruct (decide _) as [Eph|]; [|done].
  destruct (at_work_busy names res gen t s th rs rt x Hok Hx Eph) as (Hb & run & Hg & Hl). rewrite Hg in E. inv_bind.
  destruct a0 as [[x' a'] cmds]. injection E as _ ->. unfold worker_iteration, worker_work in E0.
  destruct (is_batch_job run) eqn:Ej; [|by unfold load_ok in Hl; rewrite Ej in Hl; repeat case_match; simplify_eq; inv_bind; simplify_eq].
  destruct (to_run run) as [|[p|]|] eqn:Et; try done. injection E0 as <- <- <-.
  pose proof (busy_run_task _ _ run p s Hb Hg Ej Et) as Htask.
  pose proof (inv_owned _ _ _ _ (to_inv _ _ _ _ (wk_timed _ _ _ _ Hok))) as Ho. cbn [ws_proxy snd] in Ho.
  destruct (owned_lookup _ _ _ _ _ _ Ho Htask) as [b Eb]. destruct (own_live _ _ _ _ Ho p b Eb) as [_ Hlive].
  apply elem_of_numbers in Htask. destruct Hlive as [(En & [f Hf] & Hout)|(_ & _ & _ & _ & Hrange)].
  - rewrite En in Htask. apply list_elem_of_singleton in Htask. rewrite Htask. cbn. by eauto.
  - specialize (Hrange _ Htask). destruct (0 <=? batch_jobno run) eqn:E0; [by eauto|lia].
Qed.

(** ** Progress *)
Fixpoint wsys_run (sts : list wstep) (y : wsys) : outcome wsys :=
  match sts with
  | [] => Ok y
  | st :: sts' => '(y, _) ← wsys_step st y; wsys_run sts' y
  end.

Lemma wsys_run_app l l' y y' : wsys_run l y = Ok y' → wsys_run (l ++ l') y = wsys_run l' y'.
Proof.
  revert y. induction l as [|st l IH]; intros y; cbn [wsys_run app]; [by intros [= ->]|]. intros E. inv_bind. destruct a as [y1 a].
  rewrite E0. cbn [mbind outcome_bind]. by apply IH.
Qed.

(** Steps of the thread [rt] and of the proxy taking reports. *)
Definition internal (rt : bytes) (st : wstep) : Prop := st = st_report ∨ st = st_recv rt ∨ st = st_start rt ∨ st = st_work rt.

Ltac internal_steps := repeat (apply Forall_cons_2; [unfold internal; auto|]); apply Forall_nil_2.

Section progress.
Context (names : list bytes) (res : kind → Z) (gen : Z).
Context (Hnames : NoDup names) (Hres : ∀ k, 0 <= res k) (Hgen : 0 < gen) (Hslots : slots (kinds names) res gen < 2 ^ 31).

(** Taking all reports up to one of the worker makes it idle. *)
Lemma reports_taken i l l' y :
  wsys_ok names res gen y → ws_reports y = l ++ ran_report i :: l' →
  ∃ y', wsys_run (replicate (S (length l)) st_report) y = Ok y' ∧ busy_in (ws_proxy y').2 i = 0.
Proof using Hnames Hres Hgen Hslots.
  revert y. induction l as [|m l IH]; intros y Hy E;
    destruct (report_step_ok names res gen Hnames Hres Hgen Hslots y Hy) as (y' & E1 & Hy' & Eth & Ers); rewrite E in Ers;
    cbn [length replicate wsys_run app tail] in *; rewrite E1; cbn [mbind outcome_bind].
  - exists y'. split; [done|]. pose proof (wk_tokens _ _ _ _ Hy i) as Hk. rewrite <-(wk_tokens _ _ _ _ Hy' i). unfold tokens in *.
    rewrite E, cnt_cons, decide_True in Hk by done. rewrite Eth, Ers. pose proof (busy_in_range (ws_proxy y).2 i).
    pose proof (weight_nonneg (ws_threads y) i). pose proof (cnt_nonneg (ran_report i) l'). lia.
  - by apply IH.
Qed.

(** A thread that has been started comes to its report by itself. *)
Lemma work_reports i y x :
  wsys_ok names res gen y → ws_threads y !! routing_id i.1 i.2 = Some x → wt_phase x = ph_work →
  ∃ y', wsys_run [st_work (routing_id i.1 i.2)] y = Ok y' ∧ wsys_ok names res gen y' ∧ ran_report i ∈ ws_reports y'.
Proof.
  intros Hy Hx Eph. set (rt := routing_id i.1 i.2) in *. destruct (work_step_ok names res gen rt y Hy) as (y' & a & E & Hy').
  exists y'. cbn [wsys_run]. rewrite E. cbn [mbind outcome_bind]. split_and!; try done.
  destruct y as [[t s] th rs]. cbn [wsys_step ws_proxy ws_threads ws_reports] in *. rewrite Hx, decide_True in E by done.
  destruct (get_run _ _ _); [|done]. inv_bind. destruct a0 as [[x' a'] cmds]. injection E as <- _. cbn [ws_reports].
  apply elem_of_app. right. unfold worker_iteration in E0. destruct (worker_work _ _) as [[]| | |]; try done;
    injection E0 as _ _ <-; by apply list_elem_of_singleton.
Qed.

Lemma recv_run i y x n :
  wsys_ok names res gen y → ws_threads y !! routing_id i.1 i.2 = Some x → wt_phase x = ph_wait_run →
  wt_inbox x = replicate (S n) [B "RUN"] →
  ∃ y', wsys_run [st_recv (routing_id i.1 i.2); st_work (routing_id i.1 i.2)] y = Ok y' ∧ wsys_ok names res gen y' ∧
    ran_report i ∈ ws_reports y'.
Proof.
  intros Hy Hx Eph Ein. set (rt := routing_id i.1 i.2) in *. destruct (recv_step_ok names res gen rt y Hy) as (y' & E & Hy').
  cbn [wsys_run]. rewrite E. cbn [mbind outcome_bind]. eapply (work_reports i); [done| |].
  - destruct y as [[t s] th rs]. cbn [wsys_step ws_proxy ws_threads ws_reports] in *. rewrite Hx in E. cbn [mbind option_bind] in E.
    unfold worker_recv in E. rewrite Ein, Eph in E. cbn [replicate worker_wait_for] in E. rewrite bytes_eqb_refl in E. injection E as <-.
    apply lookup_insert_eq.
  - done.
Qed.

Lemma start_run i y x n :
  wsys_ok names res gen y → ws_threads y !! routing_id i.1 i.2 = Some x → wt_phase x = ph_start →
  wt_inbox x = replicate (S n) [B "RUN"] →
  ∃ y', wsys_run [st_start (routing_id i.1 i.2); st_recv (routing_id i.1 i.2); st_work (routing_id i.1 i.2)] y = Ok y' ∧
    wsys_ok names res gen y' ∧ ran_report i ∈ ws_reports y'.
Proof.
  intros Hy Hx Eph Ein. set (rt := routing_id i.1 i.2) in *. destruct (start_step_ok names res gen rt y Hy) as (y' & E & Hy').
  change ([_; _; _]) with ([st_start rt] ++ [st_recv rt; st_work rt]).
  rewrite (wsys_run_app _ _ y y') by (cbn [wsys_run]; by rewrite E).
  apply (recv_run i y' (with_phase ph_wait_run x) n); [done| |done|done].
  destruct y as [[t s] th rs]. cbn [wsys_step ws_proxy ws_threads ws_reports] in *. rewrite Hx, decide_True in E by done. injection E as <-.
  apply lookup_insert_eq.
Qed.

(** Whatever its phase, a thread with weight comes to its report. *)
Lemma thread_reports_ran i y :
  wsys_ok names res gen y → 1 <= weight (ws_threads y) i →
  ∃ sts y', Forall (internal (routing_id i.1 i.2)) sts ∧ wsys_run sts y = Ok y' ∧ wsys_ok names res gen y' ∧
    ran_report i ∈ ws_reports y'.
Proof.
  intros Hy Hw. unfold weight in Hw. set (rt := routing_id i.1 i.2) in *. destruct (ws_threads y !! rt) as [x|] eqn:Hx; [|lia].
  pose proof (wk_threads _ _ _ _ Hy rt x Hx) as [_ Hph].
  assert (∀ n, wt_phase x ≠ ph_work → cnt [B "RUN"] (wt_inbox x) = cnt [B "RUN"] (replicate n [B "RUN"]) → ∃ m, n = S m) as Hn.
  { intros [|n] Hne E; [|by eauto]. rewrite decide_False, E in Hw by done. cbn [replicate] in Hw. rewrite cnt_nil in Hw. lia. }
  destruct (wt_phase x) eqn:Eph; [|destruct Hph as [n Ein]..|done].
  - destruct Hph as [n Ein]. destruct (Hn n ltac:(done)) as [m ->]; [by rewrite Ein, cnt_start|].
    destruct (recv_step_ok names res gen rt y Hy) as (y1 & E & Hy1).
    destruct (start_run i y1 (with_phase ph_start (with_inbox (replicate (S m) [B "RUN"]) x)) m) as (y' & E' & Hy' & Hr); [done| |done|done|].
    { destruct y as [[t s] th rs]. cbn [wsys_step ws_proxy ws_threads ws_reports] in *. rewrite Hx in E. cbn [mbind option_bind] in E.
      unfold worker_recv in E. rewrite Ein, Eph in E. cbn [worker_wait_for] in E. rewrite bytes_eqb_refl in E. injection E as <-.
      apply lookup_insert_eq. }
    exists ([st_recv rt] ++ [st_start rt; st_recv rt; st_work rt]), y'. split_and!; try done.
    + internal_steps.
    + rewrite (wsys_run_app _ _ y y1) by (cbn [wsys_run]; by rewrite E). done.
  - destruct (Hn n ltac:(done)) as [m ->]; [by rewrite Ein|]. destruct (start_run i y x m) as (y' & E' & Hy' & Hr); [done..|].
    exists [st_start rt; st_recv rt; st_work rt], y'. split_and!; try done. internal_steps.
  - destruct (Hn n ltac:(done)) as [m ->]; [by rewrite Ein|]. destruct (recv_run i y x m) as (y' & E' & Hy' & Hr); [done..|].
    exists [st_recv rt; st_work rt], y'. split_and!; try done. internal_steps.
  - destruct (work_reports i y x) as (y' & E' & Hy' & Hr); [done..|].
    exists [st_work rt], y'. split_and!; try done. internal_steps.
Qed.
End progress.

(** No wakeup is lost: from every reachable state, a busy worker becomes idle by
    steps of its own thread and of the proxy taking reports alone, without any help
    from outside. *)
Theorem busy_worker_finishes c cs tagged y i :
  wsys_reach c cs tagged y → busy_in (ws_proxy y).2 i = 1 →
  ∃ sts y', Forall (internal (routing_id i.1 i.2)) sts ∧ wsys_run sts y = Ok y' ∧ busy_in (ws_proxy y').2 i = 0.
Proof.
  intros Hr Hb. destruct (wsys_reach_ok _ _ _ _ Hr) as (names & res & gen & Hn & Hres & Hg & Hsl & Hok).
  assert (∃ sts y1, Forall (internal (routing_id i.1 i.2)) sts ∧ wsys_run sts y = Ok y1 ∧ wsys_ok names res gen y1 ∧
    ran_report i ∈ ws_reports y1) as (sts & y1 & Hs & E1 & Hok1 & Hin).
  { destruct (decide (ran_report i ∈ ws_reports y)) as [Hin|Hni]; [exists [], y; by split_and!|].
    apply thread_reports_ran; [done|]. pose proof (wk_tokens _ _ _ _ Hok i) as Hk. unfold tokens in Hk.
    rewrite (cnt_not_in _ _ Hni) in Hk. lia. }
  apply list_elem_of_split in Hin as (l & l' & El).
  destruct (reports_taken names res gen Hn Hres Hg Hsl i l l' y1 Hok1 El) as (y' & E' & Hb').
  eexists (sts ++ _), y'. split_and!; [|by rewrite (wsys_run_app _ _ _ _ E1)|done].
  apply Forall_app. split; [done|]. apply Forall_replicate. by left.
Qed.

(** The startup of tagged threads: the proxy goes on exactly when every one of
    them has reported, whatever else arrives on the socket and in whatever order. *)
Theorem await_tagged_exact waiting_on msgs :
  (∃ rest, await_tagged waiting_on msgs = Some rest) ↔ ∀ rt, rt ∈ waiting_on → [rt; B "STARTING"] ∈ msgs.
Proof.
  revert waiting_on. induction msgs as [|m msgs IH]; intros W; cbn [await_tagged].
  - destruct (decide (W = ∅)) as [->|Hne]; [split; [set_solver|by eauto]|]. split; [by intros []|].
    intros H. exfalso. apply Hne. apply set_eq. intros rt. specialize (H rt). set_solver.
  - destruct (decide (W = ∅)) as [->|Hne]; [split; [set_solver|by eauto]|].
    assert ((∀ rt, m ≠ [rt; B "STARTING"]) → (∃ rest, await_tagged W msgs = Some rest) ↔ ∀ rt, rt ∈ W → [rt; B "STARTING"] ∈ m :: msgs) as Hskip.
    { intros Hm. rewrite IH. split; intros H rt Hrt; specialize (H rt Hrt); [by right|].
      apply elem_of_cons in H as [H|H]; [by destruct (Hm rt)|done]. }
    destruct m as [|r [|cmd [|]]]; try (by apply Hskip). destruct (bytes_eqb cmd (B "STARTING")) eqn:Ec.
    + apply bytes_eqb_eq in Ec as ->. rewrite IH. split; intros H rt Hrt.
      * destruct (decide (rt = r)) as [->|Hr]; [by left|]. right. apply H. set_solver.
      * apply elem_of_difference in Hrt as [Hrt Hr]. specialize (H rt Hrt). apply elem_of_cons in H as [[= ->]|H]; [set_solver|done].
    + apply Hskip. intros rt [= -> ->]. by rewrite bytes_eqb_refl in Ec.
Qed.

(** ** A concrete run: a batch with a job on the pool and one on the tagged thread *)
Definition no_wsys : wsys := mkWsys (no_timers, no_sched) ∅ [].
Definition wdemo0 : wsys := mkWsys (no_timers, demo0) (start_threads (length demo_tagged)) [].
Definition wdemo1 : wsys := ok_or no_wsys (wsys_run [st_proxy (ti_sched (in_batch 7 demo_batch))] wdemo0).
Definition wdemo2 : wsys := ok_or no_wsys (wsys_run [st_proxy (ti_sched in_process)] wdemo1).

Lemma wdemo0_reach : wsys_reach demo_threads demo_cats demo_tagged wdemo0.
Proof. apply wsys_init; [apply demo_start|vm_compute; reflexivity..|apply idle_no_timers]. Qed.

Lemma wdemo1_reach : wsys_reach demo_threads demo_cats demo_tagged wdemo1.
Proof.
  apply (wsys_next _ _ _ (st_proxy (ti_sched (in_batch 7 demo_batch))) wdemo0 _ None); [apply wdemo0_reach| |vm_compute; reflexivity].
  split; [|done]. cbn [timed_enabled enabled wdemo0 ws_proxy snd]. split_and!; [| |done|done| |].
  - apply not_elem_of_dom. vm_compute. reflexivity.
  - apply batch_ok_add_thread; [apply batch_ok_add_thread; [apply batch_ok_new|]|]; vm_compute; reflexivity.
  - done.
  - repeat constructor; vm_compute; done.
Qed.

Lemma wdemo2_reach : wsys_reach demo_threads demo_cats demo_tagged wdemo2.
Proof.
  apply (wsys_next _ _ _ (st_proxy (ti_sched in_process)) wdemo1 _ None); [apply wdemo1_reach|done|vm_compute; reflexivity].
Qed.

Lemma worker_started_once_witness :
  weight (ws_threads wdemo2) (false, 0%nat) + cnt (ran_report (false, 0%nat)) (ws_reports wdemo2) = busy_in (ws_proxy wdemo2).2 (false, 0%nat)
  ∧ 0 <= busy_in (ws_proxy wdemo2).2 (false, 0%nat) <= 1.
Proof. apply (worker_started_once demo_threads demo_cats demo_tagged wdemo2 (false, 0%nat) wdemo2_reach). Defined.

Lemma threads_never_fail_witness :
  ∃ y' a, wsys_step (st_work (routing_id false 0)) wdemo2 = Ok (y', a) ∧ wsys_reach demo_threads demo_cats demo_tagged y'.
Proof. apply (threads_never_fail demo_threads demo_cats demo_tagged wdemo2 (st_work (routing_id false 0)) wdemo2_reach). exact I. Defined.

Definition wdemo3 : wsys := ok_or no_wsys (wsys_run [st_work (routing_id false 0)] wdemo2).
Lemma wdemo_work : wsys_step (st_work (routing_id false 0)) wdemo2 = Ok (wdemo3, Some (do_job 7 0)).
Proof. vm_compute. reflexivity. Qed.

Lemma worker_action_valid_witness : ∃ b, heap (ws_proxy wdemo2).2 !! 7%nat = Some b ∧ 0 <= 0 < Z.of_nat (length (jobs b)).
Proof.
  apply (worker_action_valid demo_threads demo_cats demo_tagged wdemo2 (routing_id false 0) wdemo3 (do_job 7 0) wdemo2_reach wdemo_work).
Defined.

Lemma busy_worker_finishes_witness :
  ∃ sts y', Forall (internal (routing_id true 0)) sts ∧ wsys_run sts wdemo2 = Ok y' ∧ busy_in (ws_proxy y').2 (true, 0%nat) = 0.
Proof.
  apply (busy_worker_finishes demo_threads demo_cats demo_tagged wdemo2 (true, 0%nat) wdemo2_reach). vm_compute. reflexivity.
Defined.

(** The tag of a request stays in the thread's message: the next command that is not a
    request sees it. *)
Example reply_tag_kept :
  let c1 := load_command (B "a") (B "a.r") (conn_of_id 1) default_access [] [B "tag"; B "x"] 1 true (fresh_worker 0) in
  let c2 := load_command (B "a") (B "a.c") (conn_of_id 2) default_access [] [B "y"] 2 false (fresh_worker 0) in
  match ('(_, m) ← worker_work c1 (wt_message (new_thread false 0)); worker_work c2 m) with
  | Ok (do_command 2 m, _) => m_reply_tag m = B "tag" ∧ m_conn m = conn_of_id 2
  | _ => False
  end.
Proof. vm_compute. done. Qed.
