(* ===== verification/System.v ===== *)
(** The whole program at run time: the proxy's loop with all its state, the calls of its
    clients, and the worker threads.  The loop of Loop.v and the threads of Worker.v are
    put together here; what each assumes of the other is shown to hold. *)
From S2P Require Import Prelude BtValue BtSerialize BtCodec Commands Connections Control Auth Net NetInv Batch Admission Scheduler BatchOwner SchedulerInv Frame Proxy Timers Loop Handover LoopInv Worker WorkerInv.
Open Scope Z_scope.

(** ** State and steps *)
Record system : Type := mkSystem {
  sy_proxy : proxy;
  sy_threads : gmap bytes wthread;
  sy_reports : list (list bytes)
}.

(** What the threads see of it. *)
Definition threads_of (y : system) : wsys :=
  mkWsys (px_timers (sy_proxy y), px_sched (sy_proxy y)) (sy_threads y) (sy_reports y).

Inductive sys_event : Type :=
  | sy_loop (e : env) (ev : loop_event)        (* the proxy's loop, or a client; not a report *)
  | sy_report                                  (* the proxy takes the next report *)
  | sy_recv (rt : bytes)
  | sy_start (rt : bytes)
  | sy_work (rt : bytes).

Section system.
Context `{Allocator} (cf : config).

(** The proxy goes from [x] to [x']; what it sent to the threads reaches them. *)
Definition proxy_moves (y : system) (x' : proxy) (reports : list (list bytes)) : system :=
  mkSystem x' (deliver_new (px_sched (sy_proxy y)) (px_sched x') (sy_threads y)) reports.

Definition thread_moves (st : wstep) (y : system) : outcome (system * list output * option action) :=
  '(w, a) ← wsys_step st (threads_of y);
  Ok (mkSystem (sy_proxy y) (ws_threads w) (ws_reports w), [], a).

Definition sys_step (st : sys_event) (y : system) : outcome (system * list output * option action) :=
  match st with
  | sy_loop e ev =>
      '(x, out) ← loop_step cf e ev (sy_proxy y);
      Ok (proxy_moves y x (sy_reports y), out, None)
  | sy_report =>
      match sy_reports y with
      | [] => Ok (y, [], None)
      | parts :: rest =>
          '(x, out) ← run_sched (proxy_worker_message parts) (sy_proxy y);
          Ok (proxy_moves y x rest, out, None)
      end
  | sy_recv rt => thread_moves (st_recv rt) y
  | sy_start rt => thread_moves (st_start rt) y
  | sy_work rt => thread_moves (st_work rt) y
  end.

(** Reports come from the threads; for the rest, what can happen to the loop. *)
Definition sys_enabled (st : sys_event) (y : system) : Prop :=
  match st with
  | sy_loop e ev => loop_enabled e ev (sy_proxy y) ∧ ∀ tagged w, ev ≠ le_ran tagged w
  | _ => True
  end.

(** ** What the loop does to the workers and to the jobs *)
Definition moves (x x' : proxy) : Prop := advances (px_sched x) (px_sched x').

#[export] Instance moves_preorder : PreOrder moves.
Proof. split; [intros x; unfold moves; reflexivity|]. intros x y z H1 H2. unfold moves in *. by etrans. Qed.

Lemma run_effect_moves eff x : moves x (run_effect cf eff x).
Proof.
  destruct eff as [c|c|sock parts]; cbn [run_effect]; [|unfold moves; reflexivity..]. unfold moves. cbn [px_sched with_sched].
  apply schedule_reply_advances. apply (fresh_address x).
Qed.

Lemma run_effects_moves effs x : moves x (run_effects cf effs x).
Proof.
  revert x. induction effs as [|eff effs IH]; intros x; [reflexivity|]. unfold run_effects. cbn [foldl].
  fold (run_effects cf effs (run_effect cf eff x)). etrans; [apply run_effect_moves|apply IH].
Qed.

Lemma run_net_moves e i x x' out : run_net cf e i x = Ok (x', out) → moves x x'.
Proof. unfold run_net. intros E. inv_bind. destruct a as [n effs]. injection E as <- _. apply (run_effects_moves effs (with_net n x)). Qed.

Lemma client_call_moves rt c x x' : client_call cf rt c x = Ok x' → moves x x'.
Proof.
  intros E. assert (px_sched x' = px_sched x) as Es; [|unfold moves; rewrite Es; reflexivity].
  destruct c as [m|b|f thread|cat_ command_ remote_ cb|keys|added removed|]; cbn [client_call] in E; try (by injection E as <-).
  - pose proof (serialize_msg_state m x) as Hs. destruct (serialize_msg m x) as [wire x1]. injection E as <-. cbn [snd] in Hs. by rewrite Hs.
  - unfold batch_call in E. destruct (_ =? 0)%nat; [done|]. by injection E as <-.
  - unfold job_call in E. case_bool_decide; [done|]. inv_bind. by injection E as <-.
  - unfold inject_task in E. destruct cb; [|by injection E as <-]. destruct (cats _ !! cat_); [|done]. by injection E as <-.
Qed.

Lemma loop_top_moves x b x' : loop_top x = Ok (b, x') → moves x x'.
Proof.
  unfold loop_top, proxy_quit, moves. cbv zeta. destruct (_ && _) eqn:Ea.
  - apply andb_true_iff in Ea as [_ ->]. cbn [mbind outcome_bind]. by intros [= _ <-].
  - destruct (proxy_skip_one_poll _); [intros [= _ <-]; apply advances_moved; [by apply acts_same|done|done]|]. destruct (pollitems_stale _); by intros [= _ <-].
Qed.

Lemma peer_message_moves e i m x x' out : peer_message cf e i m x = Ok (x', out) → moves x x'.
Proof.
  unfold peer_message. intros E. inv_bind. destruct a as [[b n] effs]. pose proof (run_effects_moves effs (with_net n x)) as Hm.
  destruct b; [by injection E as <- _|]. inv_bind. destruct a as [[cs s] r]. injection E as <- _. etrans; [exact Hm|].
  unfold moves. cbn [px_sched with_sched]. by eapply to_worker_advances.
Qed.

Lemma receive_loop_moves e fuel queue inbox arriving x x' inbox' late log out :
  receive_loop cf e fuel queue inbox arriving x = Ok (x', inbox', late, log, out) → moves x x'.
Proof.
  assert (∀ i m x x' out, receive_one cf e i m x = Ok (x', out) → moves x x') as H1.
  { intros i m y y' out'. unfold receive_one. case_bool_decide; [by intros [= <- _]|apply peer_message_moves]. }
  intros Hr%receive_loop_round. induction Hr; [done|done| |by eapply H1]. etrans; [by eapply H1|done].
Qed.

Section system_inv.
Context (nt : nat) (names : list bytes) (res : kind → Z) (gen : Z).
Context (Hnames : NoDup names) (Hres : ∀ k, 0 <= res k) (Hgen : 0 < gen) (Hslots : slots (kinds names) res gen < 2 ^ 31).

Lemma run_sched_moves f x x' out : run_sched f x = Ok (x', out) → (∀ s', f (px_sched x) = Ok s' → advances (px_sched x) s') → moves x x'.
Proof using Type. clear. unfold run_sched. intros E Hf. inv_bind. injection E as <- _. unfold moves. cbn [px_sched with_sched]. by apply Hf. Qed.

Lemma batch_advances p b s s' :
  inv names res gen s → p ∉ dom (heap s) → batch_fits (length (tagged_workers s)) b → proxy_batch p (alloc_batch p b s) = Ok s' → advances s s'.
Proof using Type.
  clear. intros Hi Hp (Hb & Hne & Hlt & Ht & Hth) E. destruct (proxy_batch_ok names res gen p b s Hi Hp) as (s2 & E2 & _ & Htk).
  { split_and!; [apply Ht|done|apply Hb|done]. } { eapply Forall_impl; [exact Hth|]. by intros t [_ H]. }
  rewrite E in E2. injection E2 as <-. apply (advances_new p b (length (jobs b))); try done; [|by apply proxy_batch_heap in E|apply Hb].
  etrans; [by apply (alloc_acts p b)|by eapply proxy_batch_acts].
Qed.

Lemma timer_advances p z t s t' s' effs :
  timed_ok names res gen (t, s) → p ∉ dom (heap s) → _queue_timer_job p z t s = Ok (t', s', effs) → advances s s'.
Proof using Type.
  clear. intros Hok Hp E. destruct (timer_jobs t !! z) as [d|] eqn:Ed; [|unfold _queue_timer_job in E; rewrite Ed in E; by injection E as _ <- _].
  destruct (td_squelch d && td_running d) eqn:Esq; [unfold _queue_timer_job in E; rewrite Ed, Esq in E; by injection E as _ <- _|].
  destruct (decide (td_thread d = -1)) as [Eth|Eth].
  { unfold _queue_timer_job in E. rewrite Ed, Esq, Eth in E. by injection E as _ <- _. }
  destruct (queue_timer_job_ok names res gen p z d t s Hok Hp Ed Esq Eth) as (t2 & s2 & E2 & _ & _ & _ & Ha).
  rewrite E in E2. by injection E2 as _ <- _.
Qed.

Lemma process_advances s s' : timed_ok names res gen s → proxy_process_queue s.2 = Ok s' → advances s.2 s'.
Proof using Hnames Hres Hgen.
  intros Hok E. pose proof (to_inv _ _ _ _ Hok) as Hi.
  assert (max_workers s.2 ≠ 0) as Hmax.
  { rewrite (a_max _ _ _ _ _ (proj1 (inv_acct _ _ _ _ Hi))). pose proof (slots_pos names res gen Hres Hgen). lia. }
  destruct (process_queue_ok names res gen Hnames Hres s.2 (inv_acct _ _ _ _ Hi) Hmax) as (s2 & E2 & _ & Hm & _).
  rewrite E in E2. injection E2 as <-. apply advances_moved; [eapply process_queue_acts; [apply (to_loads _ _ _ _ Hok)|done]|apply Hm|].
  intros _. apply Hm.
Qed.

Lemma control_moves e i zmq_id x x' out :
  proxy_ok cf nt names res gen x → loop_step cf e (le_control i zmq_id) x = Ok (x', out) → moves x x'.
Proof using Type.
  clear -H. intros Hx E. destruct (pk_control _ _ _ _ _ _ Hx) as [ms Hc]. cbn [loop_step] in E.
  rewrite (co_msgs _ _ _ _ _ Hc), list_lookup_fmap in E. destruct (ms !! i) as [[rt m]|] eqn:Hi; cbn [fmap option_fmap option_map fst snd] in E.
  2:{ injection E as <- _. reflexivity. }
  destruct (taken_ok cf nt names res gen i rt m x ms Hx Hc Hi) as (_ & Hh & Hf).
  rewrite <-(co_msgs _ _ _ _ _ Hc) in E. rewrite (control_dispatch cf e nt names) in E;
    [|exact (Forall_lookup_1 _ _ _ _ (co_sent _ _ _ _ _ Hc) Hi)|done].
  set (x0 := with_control _ x) in E.
  assert (∀ i objs, run_net cf e i (with_objects objs x0) = Ok (x', out) → moves x x') as Hnet.
  { intros j objs En. apply run_net_moves in En. exact En. }
  destruct m as [m wire|p b|p cat_ command_ remote_ cb|p keys|p added q removed|]; cbn [sent_meaning] in E.
  - destruct m; cbn [msg_meaning] in E; try (by eapply Hnet).
    + unfold handle_timer in E. inv_bind. destruct a as [t effs]. injection E as <- _. unfold moves. reflexivity.
    + unfold handle_timer_del in E. destruct (proxy_timer_del _ _) as [t effs]. injection E as <- _. unfold moves. reflexivity.
  - eapply run_sched_moves in E; [exact E|]. cbn [px_sched with_objects x0 with_control]. intros s' Es. apply Forall_cons in Hf as [[Hf _] _]. cbn [fst] in Hf.
    apply (batch_advances p b); [apply (to_inv _ _ _ _ (pk_timed _ _ _ _ _ _ Hx))|done| |done].
    rewrite (pk_threads _ _ _ _ _ _ Hx). apply (Forall_lookup_1 _ _ _ _ (co_sent _ _ _ _ _ Hc) Hi).
  - eapply run_sched_moves in E; [exact E|]. intros s' Es. by eapply inject_advances.
  - by eapply Hnet.
  - by eapply Hnet.
  - injection E as <- _. unfold moves. reflexivity.
Qed.

Lemma loop_moves e ev x x' out :
  proxy_ok cf nt names res gen x → (∀ tagged w, ev ≠ le_ran tagged w) → loop_step cf e ev x = Ok (x', out) → moves x x'.
Proof using Hnames Hres Hgen.
  intros Hx Hn E. destruct ev as [rt c| |i z|tagged w|z| |frames| |inbox].
  - cbn [loop_step] in E. inv_bind. injection E as <- _. by eapply client_call_moves.
  - cbn [loop_step] in E. inv_bind. destruct a as [b x1]. injection E as <- _. by eapply loop_top_moves.
  - by eapply control_moves.
  - by destruct (Hn tagged w).
  - cbn [loop_step] in E. inv_bind. destruct a as [[t s] effs]. injection E as <- _. unfold moves. cbn [px_sched with_sched].
    eapply timer_advances; [apply (pk_timed _ _ _ _ _ _ Hx)| |exact E0]. apply (fresh_address x).
  - by eapply run_net_moves.
  - cbn [loop_step] in E. inv_bind. injection E as <- _. reflexivity.
  - eapply run_sched_moves; [exact E|]. intros s' Es. by apply (process_advances (px_timers x, px_sched x) s' (pk_timed _ _ _ _ _ _ Hx)).
  - cbn [loop_step] in E. inv_bind. destruct a as [[[[x1 inbox1] late] log] out1]. injection E as <- _. by eapply receive_loop_moves.
Qed.

(** ** The invariant *)
Record system_ok (y : system) : Prop := {
  sk_proxy : proxy_ok cf nt names res gen (sy_proxy y);
  sk_threads : wsys_ok names res gen (threads_of y)
}.

(** The loop starts workers; the threads keep up. *)
Lemma loop_delivers e ev y x out :
  system_ok y → (∀ tagged w, ev ≠ le_ran tagged w) → loop_step cf e ev (sy_proxy y) = Ok (x, out) →
  ∃ k, acts_with k (px_sched (sy_proxy y)) (px_sched x) ∧ jobs_kept (px_sched (sy_proxy y)) (px_sched x) ∧
    let th := deliver_new (px_sched (sy_proxy y)) (px_sched x) (sy_threads y) in
    (∀ i, weight th i = weight (sy_threads y) i + started i k) ∧ threads_ok th ∧
    (∀ i, worker_exists (px_sched x) i → is_Some (th !! routing_id i.1 i.2)).
Proof using Hnames Hres Hgen.
  intros [Hx Hy] Hn E. destruct (loop_moves e ev _ _ _ Hx Hn E (to_ids _ _ _ _ (pk_timed _ _ _ _ _ _ Hx))) as [[k Hk] Hj].
  exists k. split; [done|]. split; [done|]. unfold deliver_new. rewrite (new_events_app _ _ k (act_events _ _ _ Hk)).
  apply (deliver_ok k (sy_threads y) _ _ Hk (wk_threads _ _ _ _ Hy) (λ i, tokens_weight _ _ _ _ i Hy) (wk_exist _ _ _ _ Hy)).
Qed.

Lemma loop_keeps e ev y x out :
  system_ok y → (∀ tagged w, ev ≠ le_ran tagged w) → loop_step cf e ev (sy_proxy y) = Ok (x, out) → proxy_ok cf nt names res gen x →
  system_ok (proxy_moves y x (sy_reports y)).
Proof using Hnames Hres Hgen.
  intros Hok Hn E Hx'. destruct (loop_delivers e ev y x out Hok Hn E) as (k & Hk & _ & Hw & Hth & Hex). destruct Hok as [Hx Hy].
  split; [done|]. split; cbn [ws_proxy ws_threads ws_reports threads_of proxy_moves sy_proxy sy_threads sy_reports snd].
  - apply (pk_timed _ _ _ _ _ _ Hx').
  - rewrite (act_tagged _ _ _ Hk). apply (wk_tagged _ _ _ _ Hy).
  - intros j. unfold tokens, threads_of, proxy_moves. cbn [ws_threads ws_reports sy_threads sy_reports sy_proxy].
    rewrite Hw, (act_busy _ _ _ Hk). pose proof (wk_tokens _ _ _ _ Hy j) as Hj.
    unfold tokens in Hj. cbn [threads_of ws_threads ws_reports ws_proxy snd] in Hj. lia.
  - exact Hth.
  - exact Hex.
  - apply (wk_reports _ _ _ _ Hy).
Qed.

(** Taking a report: the threads' view moves as in Worker.v. *)
Lemma report_sim y :
  system_ok y →
  ∃ y', sys_step sy_report y = Ok (y', [], None) ∧ system_ok y' ∧ wsys_step st_report (threads_of y) = Ok (threads_of y', None) ∧
    (y' = y ∨ ∃ i rest, sy_reports y = ran_report i :: rest ∧ sy_threads y' = sy_threads y ∧
       enabled (in_ran i.1 i.2) (px_sched (sy_proxy y)) ∧ handle (in_ran i.1 i.2) (px_sched (sy_proxy y)) = Ok (px_sched (sy_proxy y')) ∧
       ∀ e, loop_step cf e (le_ran i.1 i.2) (sy_proxy y) = Ok (sy_proxy y', [])).
Proof using Hnames Hres Hgen Hslots.
  intros [Hx Hy]. destruct y as [x th rs]. unfold threads_of in *. cbn [sy_proxy sy_threads sy_reports sys_step] in *.
  destruct (report_step_ok names res gen Hnames Hres Hgen Hslots _ Hy) as (w' & Ew & Hw' & Hth & _). destruct rs as [|m rs].
  { cbn [wsys_step ws_proxy ws_reports] in *. eexists. split; [done|]. split; [by split|]. split; [done|by left]. }
  destruct (wk_reports _ _ _ _ Hy m) as [i ->]; [by left|].
  assert (enabled (in_ran i.1 i.2) (px_sched x)) as Hen.
  { apply report_enabled; [|exact (wk_tagged _ _ _ _ Hy)]. pose proof (wk_tokens _ _ _ _ Hy i) as Hk. unfold tokens in Hk.
    cbn [ws_threads ws_reports ws_proxy snd] in Hk. rewrite cnt_cons, decide_True in Hk by done. pose proof (weight_nonneg th i).
    pose proof (cnt_nonneg (ran_report i) rs). pose proof (busy_in_range (px_sched x) i). lia. }
  destruct (run_sched_ok cf nt names res gen Hnames Hres Hgen Hslots (in_ran i.1 i.2) (proxy_worker_message (ran_report i)) x) as (x' & E & Hx' & _);
    [done|done|cbn; clear; set_solver|done|]. rewrite E. cbn [mbind outcome_bind]. eexists. split; [done|].
  cbn [wsys_step ws_proxy ws_reports] in Ew |- *. unfold run_sched in E.
  destruct (proxy_worker_message (ran_report i) (px_sched x)) as [s'| | |] eqn:E0; try done. injection E as <-.
  injection Ew as <-. split; [split; [done|exact Hw']|]. split; [done|]. right. exists i, rs. split_and!; [done|exact Hth|done|exact E0|]. intros e. cbn [loop_step].
  change [routing_id i.1 i.2; B "RAN"] with (ran_report i). unfold run_sched. by rewrite E0.
Qed.
(** Steps of a thread leave the proxy alone, and are those of Worker.v. *)
Definition of_thread (st : wstep) : bool := match st with st_recv _ | st_start _ | st_work _ => true | _ => false end.

Lemma thread_keeps_proxy st w w' a : of_thread st = true → wsys_step st w = Ok (w', a) → ws_proxy w' = ws_proxy w.
Proof using Type.
  clear. destruct w as [[t s] th rs]. destruct st as [i| |rt|rt|rt]; try done; intros _; cbn [wsys_step ws_proxy ws_threads ws_reports].
  - destruct (x ← th !! rt; worker_recv x) as [[x cmds]|]; by intros [= <- _].
  - destruct (th !! rt) as [x|]; [destruct (decide _)|]; by intros [= <- _].
  - destruct (th !! rt) as [x|]; [|by intros [= <- _]]. destruct (decide _); [|by intros [= <- _]].
    destruct (get_run _ _ s) as [run|]; [|done]. intros E. inv_bind. destruct a0 as [[x' a'] cmds]. by injection E as <- _.
Qed.

Lemma thread_sim st y :
  system_ok y → of_thread st = true →
  ∃ y' a, thread_moves st y = Ok (y', [], a) ∧ system_ok y' ∧ wsys_step st (threads_of y) = Ok (threads_of y', a) ∧ sy_proxy y' = sy_proxy y.
Proof using Hnames Hres Hgen Hslots.
  intros [Hx Hy] Hst. assert (wsys_enabled st (threads_of y)) as He by by destruct st.
  destruct (wsys_step_ok names res gen Hnames Hres Hgen Hslots st _ Hy He) as (w & a & E & Hw).
  pose proof (thread_keeps_proxy _ _ _ _ Hst E) as Hp. unfold thread_moves. rewrite E. cbn [mbind outcome_bind].
  eexists _, a. split; [done|]. assert (threads_of (mkSystem (sy_proxy y) (ws_threads w) (ws_reports w)) = w) as Ew.
  { unfold threads_of. cbn [sy_proxy sy_threads sy_reports]. change (px_timers (sy_proxy y), px_sched (sy_proxy y)) with (ws_proxy (threads_of y)).
    rewrite <-Hp. by destruct w. }
  split; [split; [done|by rewrite Ew]|]. by rewrite Ew.
Qed.

Lemma sys_step_ok st y : system_ok y → sys_enabled st y → ∃ y' out a, sys_step st y = Ok (y', out, a) ∧ system_ok y'.
Proof using Hnames Hres Hgen Hslots.
  intros Hy He. destruct st as [e ev| |rt|rt|rt].
  - destruct He as [He Hn]. pose proof (sk_proxy _ Hy) as Hx. pose proof (loop_enabled_names cf nt names res gen e ev _ Hx He) as He'.
    destruct (loop_step_ok cf nt names res gen Hnames Hres Hgen Hslots e ev _ Hx He') as (x' & out & E & Hx').
    cbn [sys_step]. rewrite E. cbn [mbind outcome_bind]. eexists _, _, _. split; [done|]. by eapply loop_keeps.
  - destruct (report_sim y Hy) as (y' & E & Hy' & _). by eauto.
  - destruct (thread_sim (st_recv rt) y Hy eq_refl) as (y' & a & E & Hy' & _). by eexists _, _, _.
  - destruct (thread_sim (st_start rt) y Hy eq_refl) as (y' & a & E & Hy' & _). by eexists _, _, _.
  - destruct (thread_sim (st_work rt) y Hy eq_refl) as (y' & a & E & Hy' & _). by eexists _, _, _.
Qed.
End system_inv.

(** ** The running system *)
Context (th : thread_config) (cs : gmap bytes category) (tagged : list (run_info * bool * list batch_job)).
Context (active : gset bytes) (binds : list bind_data) (bind_ok : bytes → bool).

(** At the start the loop is at its start and the tagged threads have been told so;
    these are the states before [QUIT]. *)
Inductive sys_reach : system → Prop :=
  | sys_init t s tb :
      start_ok cs tagged → proxy_start th cs tagged = Ok s → max_workers s < 2 ^ 31 → Z.of_nat (length tagged) < 2 ^ 31 →
      (∀ p, p ∈ active → key_size p) → proxy_bind bind_ok binds active = Ok tb → idle_timers (length tagged) t →
      sys_reach (mkSystem (mkProxy (mkNet tb ∅) t s ∅ []) (start_threads (length tagged)) [])
  | sys_next st y y' out a : sys_reach y → sys_enabled st y → sys_step st y = Ok (y', out, a) → sys_reach y'.

Definition sys_invariant (y : system) : Prop :=
  ∃ nt names res gen, NoDup names ∧ (∀ k, 0 <= res k) ∧ 0 < gen ∧ slots (kinds names) res gen < 2 ^ 31 ∧ system_ok nt names res gen y.

Lemma sys_reach_ok y : sys_reach y → sys_invariant y.
Proof using Type.
  induction 1 as [t s tb Hst Hs Hmax Hl Hact Hb Hti|st y y' out a _ (nt & names & res & gen & Hn & Hr & Hg & Hsl & Hok) He E].
  - destruct (timed_reach_ok th cs tagged (t, s)) as (names & res & gen & Hn & Hr & Hg & Hsl & Ht); [by apply timed_start|].
    exists (length (tagged_workers s)), names, res, gen. split_and!; try done. split; [split; [by eapply proxy_bind_ok|done|done| |]|].
    + exists []. by split.
    + cbn. by rewrite dom_empty_L.
    + by eapply wsys_init_ok.
  - exists nt, names, res, gen. split_and!; try done.
    destruct (sys_step_ok nt names res gen Hn Hr Hg Hsl st y Hok He) as (y2 & out2 & a2 & E2 & Hok2). rewrite E in E2. by injection E2 as <- _ _.
Qed.

(** What the loop assumes of the workers' reports holds: the proxy of the system is in a
    state the loop can reach. *)
Lemma sys_reach_loop y : sys_reach y → loop_reach cf th cs tagged active binds bind_ok (sy_proxy y).
Proof using Type.
  induction 1 as [t s tb Hst Hs Hmax Hl Hact Hb Hti|st y y' out a Hr IH He E]; [by apply loop_start|].
  destruct (sys_reach_ok y Hr) as (nt & names & res & gen & Hn & Hres & Hg & Hsl & Hok).
  assert (∀ st', of_thread st' = true → thread_moves st' y = Ok (y', out, a) → loop_reach cf th cs tagged active binds bind_ok (sy_proxy y')) as Hth.
  { intros st' Hst' Em. destruct (thread_sim nt names res gen Hn Hres Hg Hsl st' y Hok Hst') as (y2 & a2 & E2 & _ & _ & Hp).
    rewrite Em in E2. injection E2 as <- _ _. by rewrite Hp. }
  destruct st as [e ev| |rt|rt|rt]; [| |by apply (Hth (st_recv rt))|by apply (Hth (st_start rt))|by apply (Hth (st_work rt))].
  - destruct He as [He _]. cbn [sys_step] in E. inv_bind. destruct a0 as [x out']. injection E as <- _ _. by eapply loop_next.
  - destruct (report_sim nt names res gen Hn Hres Hg Hsl y Hok) as (y2 & E2 & _ & _ & Hp). rewrite E in E2. injection E2 as <- _ _.
    destruct Hp as [->|(i & rest & _ & _ & Hen & _ & El)]; [done|].
    apply (loop_next _ _ _ _ _ _ _ (mkEnv (λ _ _ _ _, send_done) (λ x, x) (λ _, true) 0) (le_ran i.1 i.2) (sy_proxy y) _ []); done.
Qed.
End system.

(** ** Properties *)

(** C1. The program as a whole never fails before [QUIT], apart from the three cases
    below. Clients call the API, the proxy's loop takes control messages, reports,
    timers, ZAP requests, queues and peers' messages, and the worker threads receive,
    run and report, in any order: from every state they can reach together every step
    that can occur ([sys_enabled]) is handled to the end, and the state of the proxy
    stays one its loop can reach, so that all that is shown of the loop with reports as
    inputs holds with the real threads. Calls are valid ([call_ok]), memory lasts, and
    zmq numbers timers afresh. The cases excluded do fail: a cleanup that finds a
    connection attempt timed out is undefined ([connect_timeout_undefined]), a send to a
    service node restricted to incoming connections may never end
    ([incoming_send_hangs]), and a hard error of zmq while it sends [HI] escapes from
    the handler ([hello_send_throws]). So may a command after [QUIT]
    ([quit_overflows_workers]). *)
Theorem system_never_fails `{Allocator} cf th cs tagged active binds bind_ok st y :
  sys_reach cf th cs tagged active binds bind_ok y → sys_enabled st y →
  ∃ y' out a, sys_step cf st y = Ok (y', out, a) ∧ sys_reach cf th cs tagged active binds bind_ok y' ∧
    loop_reach cf th cs tagged active binds bind_ok (sy_proxy y').
Proof.
  intros Hr He. destruct (sys_reach_ok _ _ _ _ _ _ _ y Hr) as (nt & names & res & gen & Hn & Hres & Hg & Hsl & Hok).
  destruct (sys_step_ok cf nt names res gen Hn Hres Hg Hsl st y Hok He) as (y' & out & a & E & _). exists y', out, a.
  assert (sys_reach cf th cs tagged active binds bind_ok y') as Hr' by by eapply sys_next. split_and!; [done|done|by apply sys_reach_loop].
Qed.

(** ** A concrete run: a client submits a batch, the proxy queues and starts it *)
Definition sys_demo0 : system := mkSystem loop_demo0 (start_threads (length demo_tagged)) [].
Fixpoint sys_run `{Allocator} (cf : config) (sts : list sys_event) (y : system) : outcome system :=
  match sts with [] => Ok y | st :: sts => r ← sys_step cf st y; sys_run cf sts r.1.1 end.
Definition demo_sys (sts : list sys_event) : system := ok_or sys_demo0 (sys_run demo_config sts sys_demo0).
Definition sys_demo1 : system := demo_sys [sy_loop demo_env (le_call (B "c1") (call_batch demo_batch))].
Definition sys_demo2 : system := ok_or sys_demo0 (sys_run demo_config [sy_loop demo_env (le_control 0 7)] sys_demo1).
Definition sys_demo3 : system := ok_or sys_demo0 (sys_run demo_config [sy_loop demo_env le_process] sys_demo2).

Abbreviation demo_sys_reach := (sys_reach demo_config demo_threads demo_cats demo_tagged ∅ demo_binds (λ _, true)).

Lemma sys_demo0_reach : demo_sys_reach sys_demo0.
Proof. apply sys_init; [apply demo_start|vm_compute; reflexivity|vm_compute; reflexivity|vm_compute; reflexivity|done|vm_compute; reflexivity|apply idle_no_timers]. Qed.

Lemma sys_demo1_reach : demo_sys_reach sys_demo1.
Proof.
  apply (sys_next _ _ _ _ _ _ _ (sy_loop demo_env (le_call (B "c1") (call_batch demo_batch))) sys_demo0 _ [] None); [apply sys_demo0_reach| |vm_compute; reflexivity].
  split; [|done]. split; [apply demo_batch_fits|vm_compute; reflexivity].
Qed.

Lemma sys_demo1_control : sys_enabled (sy_loop demo_env (le_control 0 7)) sys_demo1.
Proof.
  split; [|done]. split_and!; [|done|by split|vm_compute; reflexivity].
  eexists (B "c1"), _. split; [vm_compute; reflexivity|]. intros j q Hj. lia.
Qed.

Lemma sys_demo2_reach : demo_sys_reach sys_demo2.
Proof.
  apply (sys_next _ _ _ _ _ _ _ (sy_loop demo_env (le_control 0 7)) sys_demo1 _ [] None); [apply sys_demo1_reach|apply sys_demo1_control|vm_compute; reflexivity].
Qed.

Lemma sys_demo3_reach : demo_sys_reach sys_demo3.
Proof. apply (sys_next _ _ _ _ _ _ _ (sy_loop demo_env le_process) sys_demo2 _ [] None); [apply sys_demo2_reach|done|vm_compute; reflexivity]. Qed.

Lemma system_never_fails_witness :
  ∃ y' out a, sys_step demo_config (sy_work (routing_id false 0)) sys_demo3 = Ok (y', out, a) ∧ demo_sys_reach y' ∧
    loop_reach demo_config demo_threads demo_cats demo_tagged ∅ demo_binds (λ _, true) (sy_proxy y').
Proof.
  apply (system_never_fails demo_config demo_threads demo_cats demo_tagged ∅ demo_binds (λ _, true) (sy_work (routing_id false 0)) sys_demo3 sys_demo3_reach).
  exact I.
Defined.
