(* ===== verification/Jobs.v ===== *)
(** What becomes of the jobs of a batch in the whole program: each is run by a worker
    thread exactly once, before the batch's completion and before the batch goes. *)
From S2P Require Import Prelude BtValue BtSerialize BtCodec Commands Connections Control Auth Net NetInv Batch Admission Scheduler BatchOwner SchedulerInv Frame Proxy Timers Loop Handover LoopInv Worker WorkerInv System.
Open Scope Z_scope.

(** ** Where a task is *)

(** Tasks that wait: in the proxy's queues, or in that of a tagged worker. *)
Definition queued_jobs (s : sched) : list batch_job := batch_jobs s ++ reply_jobs s ++ (tagged_workers s ≫= snd).

(** The worker [i] has been given the task. *)
Definition holds (s : sched) (i : bool * nat) (t : batch_job) : Prop :=
  busy_in s i = 1 ∧ ∃ r, get_run i.1 i.2 s = Some r ∧ run_task r = Some t.

Lemma elem_of_busy s r : r ∈ busy_runs s ↔ ∃ w, busy_in s (false, w) = 1 ∧ workers s !! w = Some r.
Proof.
  unfold busy_runs, busy_in. cbn [fst snd]. split.
  - intros (w & Hw & Hn)%busy_elem. exists w. rewrite decide_True; [done|]. split; [by eapply lookup_lt_Some|done].
  - intros (w & Hb & Hw). case_decide as Hd; [|done]. rewrite (busy_take _ _ w r) by (done || by apply Hd). by left.
Qed.

Lemma elem_of_tagged_tasks s t :
  t ∈ (tagged_workers s ≫= tagged_task) ↔ t ∈ (tagged_workers s ≫= snd) ∨ ∃ w, holds s (true, w) t.
Proof.
  unfold holds, busy_in, get_run. cbn [fst snd]. rewrite !list_elem_of_bind. split.
  - intros ([[r b] q] & Ht & [w Hw]%list_elem_of_lookup). apply elem_of_app in Ht as [Ht|Ht]; cbn [fst snd] in Ht.
    + left. exists (r, b, q). split; [done|]. by eapply list_elem_of_lookup_2.
    + right. destruct b; [|by apply elem_of_nil in Ht]. exists w. rewrite Hw. split; [done|]. exists r. split; [done|].
      by destruct (run_task r); [apply list_elem_of_singleton in Ht as ->|apply elem_of_nil in Ht].
  - intros [([[r b] q] & Ht & Hw)|(w & Hb & r & Hr & Hrt)].
    + exists (r, b, q). split; [|done]. apply elem_of_app. by left.
    + destruct (tagged_workers s !! w) as [[[r' b] q]|] eqn:Ew; [|done]. destruct b; [|done]. injection Hr as ->.
      exists (r, true, q). split; [|by eapply list_elem_of_lookup_2]. apply elem_of_app. right. cbn [fst snd]. rewrite Hrt. by left.
Qed.

Lemma elem_of_tasks s t : t ∈ tasks s ↔ t ∈ queued_jobs s ∨ ∃ i, holds s i t.
Proof.
  assert (t ∈ omap run_task (busy_runs s) ↔ ∃ w, holds s (false, w) t) as Hpool.
  { rewrite list_elem_of_omap. setoid_rewrite elem_of_busy. unfold holds, get_run. cbn [fst snd]. naive_solver. }
  unfold tasks, pool_free_tasks, queued_jobs. rewrite !elem_of_app, elem_of_tagged_tasks, Hpool. split.
  - intros [[?|[?|[?|[w Hw]]]]|[w Hw]]; eauto 10.
  - intros [[?|[?|?]]|[[[] w] Hw]]; eauto 10.
Qed.

(** [s] with the task of the worker [i] taken away. *)
Lemma holds_take s i t :
  holds s i t → ∃ s1, tasks s ≡ₚ t :: tasks s1 ∧ (∀ u, u ∈ queued_jobs s → u ∈ queued_jobs s1) ∧ ∀ i' u, i' ≠ i → holds s i' u → holds s1 i' u.
Proof.
  destruct i as [[] w]; intros (Hb & r & Hr & Ht); unfold busy_in, get_run in Hb, Hr; cbn [fst snd] in Hb, Hr.
  - destruct (tagged_workers s !! w) as [[[r' []] q]|] eqn:Ew; try done. injection Hr as ->.
    set (s1 := with_tagged_workers (<[w := (r, false, q)]> (tagged_workers s)) s). exists s1. split_and!.
    + unfold tasks, pool_free_tasks. change (busy_runs s1) with (busy_runs s). subst s1. ss.
      rewrite (tagged_tasks_insert (tagged_workers s) w _ (r, false, q) [t] Ew); [solve_Permutation|].
      unfold tagged_task. ss. rewrite Ht. cbn. solve_Permutation.
    + intros u. unfold queued_jobs. rewrite !elem_of_app. subst s1. ss. intros [?|[?|Hu]]; [by left|by right; left|]. right; right.
      apply list_elem_of_bind in Hu as (x & Hu & [v Hv]%list_elem_of_lookup). apply list_elem_of_bind.
      destruct (decide (v = w)) as [->|Hvw].
      * rewrite Ew in Hv. injection Hv as <-. exists (r, false, q). split; [done|]. apply (list_elem_of_lookup_2 _ w).
        apply list_lookup_insert_eq. by eapply lookup_lt_Some.
      * exists x. split; [done|]. apply (list_elem_of_lookup_2 _ v). by rewrite list_lookup_insert_ne.
    + intros [[] v] u Hv; [|done]. unfold holds, busy_in, get_run. cbn [fst snd]. subst s1. ss.
      rewrite list_lookup_insert_ne by congruence. done.
  - case_decide as Hw; [|done]. set (s1 := with_idle_workers (w :: idle_workers s) s). exists s1. split_and!; [|done|].
    + unfold tasks, busy_runs. change (pool_free_tasks s1) with (pool_free_tasks s). subst s1. ss.
      rewrite (busy_take _ _ w r) by (done || by apply Hw). cbn [omap list_omap]. rewrite Ht. solve_Permutation.
    + intros [[] v] u Hv; [done|]. unfold holds, busy_in, get_run. cbn [fst snd]. subst s1. ss. intros (Hd & Hu). split; [|done].
      case_decide as Hvb; [|done]. rewrite decide_True; [done|]. rewrite elem_of_cons. naive_solver.
Qed.

Lemma live_NoDup n b js : live n b js → NoDup js.
Proof. intros [_ [(-> & _)|(_ & _ & _ & H & _)]]; [apply NoDup_singleton|done]. Qed.

(** A task is in one place. *)
Lemma one_place n bs s i t :
  owned n (heap s) bs (tasks s) → holds s i t → t ∉ queued_jobs s ∧ ∀ i', holds s i' t → i' = i.
Proof.
  destruct t as [p j]. intros Ho Hh. destruct (holds_take s i (p, j) Hh) as (s1 & Hp & Hq & Hi).
  assert ((p, j) ∉ tasks s1) as Hn.
  { destruct (owned_lookup _ _ _ _ p j Ho) as [b Hb]; [rewrite Hp; by left|]. pose proof (live_NoDup _ _ _ (own_live _ _ _ _ Ho p b Hb)) as Hnd.
    rewrite Hp, numbers_cons, decide_True in Hnd by done. apply NoDup_cons in Hnd as [Hnd _]. by rewrite elem_of_numbers in Hnd. }
  rewrite elem_of_tasks in Hn. split; [naive_solver|]. intros i' Hi'. destruct (decide (i' = i)); [done|]. exfalso. apply Hn. right. eauto.
Qed.

(** All jobs of a batch that has them all outstanding are among the tasks. *)
Lemma all_jobs n bs s p b j :
  owned n (heap s) bs (tasks s) → heap s !! p = Some b → jobs_outstanding b = Z.of_nat (length (jobs b)) →
  0 <= j < Z.of_nat (length (jobs b)) → (p, j) ∈ tasks s.
Proof.
  intros Ho Hb Hout Hj. destruct (own_live _ _ _ _ Ho p b Hb) as [_ [(_ & _ & H0)|(_ & Hl & _ & Hnd & Hr)]]; [lia|].
  apply elem_of_numbers. set (js := numbers p (tasks s)) in *. set (all := Z.of_nat <$> seq 0 (length (jobs b))).
  assert (js ⊆+ all) as Hsub.
  { apply NoDup_submseteq; [done|]. intros i Hi. apply Hr in Hi. apply list_elem_of_fmap. exists (Z.to_nat i). rewrite elem_of_seq. lia. }
  apply submseteq_length_Permutation in Hsub; [|subst all; rewrite length_fmap, length_seq; lia].
  rewrite Hsub. apply list_elem_of_fmap. exists (Z.to_nat j). rewrite elem_of_seq. lia.
Qed.

(** ** What is still to be run *)

(** The task waits, or its worker has yet to run it: it has a start to answer. *)
Definition todo (s : sched) (th : gmap bytes wthread) (t : batch_job) : Prop :=
  t ∈ queued_jobs s ∨ ∃ i, holds s i t ∧ weight th i = 1.

Lemma todo_tasks s th t : todo s th t → t ∈ tasks s.
Proof. rewrite elem_of_tasks. intros [?|(i & Hi & _)]; [by left|right; eauto]. Qed.

Lemma todo_held n bs s th i t : owned n (heap s) bs (tasks s) → holds s i t → todo s th t ↔ weight th i = 1.
Proof.
  intros Ho Hi. destruct (one_place _ _ _ _ _ Ho Hi) as [Hq Hu]. split.
  - intros [?|(i' & Hi' & Hw)]; [done|]. by rewrite (Hu i' Hi') in Hw.
  - intros Hw. right. eauto.
Qed.

Section steps.
Context (s s' : sched) (th th' : gmap bytes wthread) (n n' : nat) (bs bs' : gset ptr).
Context (Ho : owned n (heap s) bs (tasks s)) (Ho' : owned n' (heap s') bs' (tasks s')).
Context (Hw : ∀ i, 0 <= weight th i <= busy_in s i).

(** A handler that finishes nothing: what was to be run still is, what was not is not,
    and the jobs of a new batch are to be run. *)
Section advance.
Context (k : list event) (Hk : acts_with k s s') (Hj : jobs_kept s s').
Context (Hw' : ∀ i, weight th' i = weight th i + started i k).

Lemma holds_kept i t : holds s i t → holds s' i t ∧ weight th' i = weight th i.
Proof using Hk Hw'.
  intros (Hb & r & Hr & Ht). pose proof (act_busy _ _ _ Hk i) as Hi. pose proof (busy_in_range s' i). pose proof (started_nonneg i k).
  split; [|rewrite Hw'; lia]. split; [lia|]. exists r. split; [by apply (act_runs _ _ _ Hk)|done].
Qed.

(** A worker that took over a task has been started. *)
Lemma holds_new i t : holds s' i t → ¬ holds s i t → weight th' i = 1.
Proof using Hk Hw Hw'.
  intros (Hb & r & Hr & Ht) Hn. pose proof (act_busy _ _ _ Hk i) as Hi. pose proof (busy_in_range s i). specialize (Hw i). rewrite Hw'.
  destruct (decide (busy_in s i = 1)) as [Eb|Eb]; [|lia]. exfalso. apply Hn. split; [done|].
  destruct (get_run i.1 i.2 s) as [r0|] eqn:E0.
  - pose proof (act_runs _ _ _ Hk i r0 Eb E0) as E1. rewrite Hr in E1. injection E1 as ->. by eauto.
  - exfalso. apply busy_in_exists in Eb. destruct i as [tg w]. apply worker_exists_run in Eb. cbn [fst snd] in E0. rewrite E0 in Eb. by destruct Eb.
Qed.

Lemma advance_todo p j : p ∈ dom (heap s) → todo s' th' (p, j) ↔ todo s th (p, j).
Proof using Ho Ho' Hk Hj Hw Hw'.
  intros Hp. pose proof (jk_tasks _ _ Hj p j Hp) as Ht. split.
  - intros Htd. pose proof (proj1 Ht (todo_tasks _ _ _ Htd)) as [Hq|[i Hi]]%elem_of_tasks; [by left|].
    destruct (holds_kept _ _ Hi) as [Hi' Ew]. apply (todo_held _ _ _ _ i _ Ho' Hi') in Htd. right. exists i. by rewrite <-Ew.
  - intros [Hq|(i & Hi & Ew)].
    + assert ((p, j) ∈ tasks s') as [?|[i Hi']]%elem_of_tasks; [|by left|].
      { apply Ht, elem_of_tasks. by left. }
      right. exists i. split; [done|]. apply (holds_new i _ Hi'). intros Hi. by destruct (one_place _ _ _ _ _ Ho Hi).
    + destruct (holds_kept _ _ Hi) as [Hi' Ew']. right. exists i. split; [done|congruence].
Qed.

Lemma advance_new p b j :
  heap s' !! p = Some b → p ∉ dom (heap s) → 0 <= j < Z.of_nat (length (jobs b)) → todo s' th' (p, j).
Proof using Ho Ho' Hk Hj Hw Hw'.
  intros Hb Hp Hjr. pose proof (all_jobs _ _ _ p b j Ho' Hb (jk_new _ _ Hj p b Hb Hp) Hjr) as [?|[i Hi']]%elem_of_tasks; [by left|].
  right. exists i. split; [done|]. apply (holds_new i _ Hi'). intros Hi. apply Hp. rewrite (own_dom _ _ _ _ Ho).
  apply (own_task _ _ _ _ Ho p j), elem_of_tasks. by eauto.
Qed.
End advance.

(** A report of the worker [i0], which has answered its start. *)
Section report.
Context (i0 : bool * nat) (run : run_info).
Context (Hrun : get_run i0.1 i0.2 s = Some run) (H0 : busy_in s i0 = 1) (Hw0 : weight th i0 = 0).
Context (Hran : ran_tasks run s s') (Hsame : same_runs i0 s s').
Context (Hb' : ∀ i, busy_in s' i = busy_in s i - if decide (i = i0) then 1 else 0).

Lemma ran_holds i t : i ≠ i0 → holds s' i t ↔ holds s i t.
Proof using Hsame Hb'.
  clear -Hsame Hb'. intros Hi. unfold holds. rewrite Hb', decide_False by done. rewrite Z.sub_0_r. destruct i as [tg w]. by rewrite (proj1 Hsame).
Qed.

Lemma ran_not_held t : ¬ holds s' i0 t.
Proof using H0 Hb'. clear -H0 Hb'. intros (Hb & _). rewrite Hb', decide_True in Hb by done. lia. Qed.

Lemma ran_held t : run_task run = Some t → holds s i0 t.
Proof using Hrun H0. clear -Hrun H0. intros Ht. by split; eauto. Qed.

Lemma ran_held_inv t : holds s i0 t → run_task run = Some t.
Proof using Hrun. clear -Hrun. intros (_ & r & Hr & Ht). rewrite Hrun in Hr. by injection Hr as ->. Qed.

(** The other tasks are where they were. *)
Lemma ran_others p j : 0 <= j → run_task run ≠ Some (p, j) → (p, j) ∈ tasks s' ↔ (p, j) ∈ tasks s.
Proof using Hran.
  clear -Hran. intros Hj Hne. destruct Hran as (T & added & -> & -> & Ha). rewrite !elem_of_app. split; intros [Hx|]; try (by right).
  - eapply Forall_forall in Ha; [|exact Hx]. cbn in Ha. lia.
  - destruct (run_task run); [apply list_elem_of_singleton in Hx as <-; done|by apply elem_of_nil in Hx].
Qed.

Lemma ran_gone p j : 0 <= j → run_task run = Some (p, j) → (p, j) ∉ tasks s'.
Proof using Ho Hran.
  clear -Ho Hran. intros Hj Ht. destruct Hran as (T & added & Hp & -> & Ha). rewrite Ht in Hp. change (tasks s ≡ₚ (p, j) :: T) in Hp.
  destruct (owned_lookup _ _ _ _ p j Ho) as [b Hb]; [rewrite Hp; by left|]. pose proof (live_NoDup _ _ _ (own_live _ _ _ _ Ho p b Hb)) as Hnd.
  rewrite Hp, numbers_cons, decide_True, NoDup_cons, elem_of_numbers in Hnd by done. rewrite elem_of_app.
  intros [Hx|]; [|naive_solver]. eapply Forall_forall in Ha; [|exact Hx]. cbn in Ha. lia.
Qed.

Lemma ran_todo p j : 0 <= j → todo s' th (p, j) ↔ todo s th (p, j).
Proof using Ho Ho' Hrun H0 Hw0 Hran Hsame Hb'.
  clear Hw. intros Hj. destruct (decide (run_task run = Some (p, j))) as [Ht|Ht].
  { rewrite (todo_held _ _ _ _ i0 _ Ho (ran_held _ Ht)). split; [|lia]. intros Htd%todo_tasks. by destruct (ran_gone p j). }
  pose proof (ran_others p j Hj Ht) as Hk. assert (∀ i, holds s i (p, j) → i ≠ i0) as Hne by (intros i Hi ->; by apply Ht, ran_held_inv).
  split.
  - intros [Hq|(i & Hi & Ew)].
    + assert ((p, j) ∈ tasks s) as [?|[i Hi]]%elem_of_tasks; [apply Hk, elem_of_tasks; by left|by left|]. exfalso.
      rewrite <-(ran_holds i) in Hi by by apply Hne. by destruct (one_place _ _ _ _ _ Ho' Hi).
    + right. exists i. split; [|done]. apply ran_holds; [|done]. intros ->. by apply ran_not_held in Hi.
  - intros [Hq|(i & Hi & Ew)].
    + assert ((p, j) ∈ tasks s') as [?|[i Hi]]%elem_of_tasks; [apply Hk, elem_of_tasks; by left|by left|]. exfalso.
      destruct (decide (i = i0)) as [->|Hi0]; [by apply ran_not_held in Hi|]. rewrite ran_holds in Hi by done. by destruct (one_place _ _ _ _ _ Ho Hi).
    + right. exists i. split; [|done]. apply ran_holds; [by apply Hne|done].
Qed.
End report.

(** The thread of the worker [i0] has run its task. *)
Lemma worked_todo i0 run t :
  get_run i0.1 i0.2 s = Some run → run_task run ≠ Some t → (∀ i, i ≠ i0 → weight th' i = weight th i) → todo s th' t ↔ todo s th t.
Proof using Type.
  clear. intros Hrun Hne Hw. assert (∀ i, holds s i t → i ≠ i0) as Hi0.
  { intros i (_ & r & Hr & Ht) ->. rewrite Hrun in Hr. by injection Hr as ->. }
  split; (intros [?|(i & Hi & Ew)]; [by left|right; exists i; split; [done|]]); rewrite <-Ew; [symmetry|]; by apply Hw, Hi0.
Qed.
End steps.

(** ** The log *)
Abbreviation sched_of y := (px_sched (sy_proxy y)).

Definition ran_by (a : option action) : list batch_job := match a with Some (do_job p j) => [(p, j)] | _ => [] end.

(** The jobs that ran, of the batches that are still there: when a batch goes its
    address may be used again. *)
Definition log_next (y' : system) (a : option action) (log : list batch_job) : list batch_job :=
  filter (λ t, t.1 ∈ dom (heap (sched_of y'))) log ++ ran_by a.

Record log_ok (y : system) (log : list batch_job) : Prop := {
  lg_nodup : NoDup log;
  lg_live t : t ∈ log → t.1 ∈ dom (heap (sched_of y));
  lg_done p b j : heap (sched_of y) !! p = Some b → 0 <= j < Z.of_nat (length (jobs b)) →
    (p, j) ∈ log ↔ ¬ todo (sched_of y) (sy_threads y) (p, j)
}.

(** What a step may do. *)
Definition every_job (b : Batch) (P : Z → Prop) : Prop := ∀ j, 0 <= j < Z.of_nat (length (jobs b)) → P j.
Record step_fair (y y' : system) (a : option action) (log : list batch_job) : Prop := {
  sf_job p j : a = Some (do_job p j) →
    (p, j) ∉ log ∧ ∃ b, heap (sched_of y) !! p = Some b ∧ 0 <= j < Z.of_nat (length (jobs b));
  sf_end p b : heap (sched_of y) !! p = Some b → a = Some (do_completion p) ∨ p ∉ dom (heap (sched_of y')) →
    every_job b (λ j, (p, j) ∈ log)
}.

(** A step that runs no job: what is to be run of an old batch stays the same. *)
Lemma log_kept y y' log :
  log_ok y log →
  (∀ p b j, heap (sched_of y') !! p = Some b → 0 <= j < Z.of_nat (length (jobs b)) →
     (∃ b0, heap (sched_of y) !! p = Some b0 ∧ jobs b0 = jobs b) ∧
       (todo (sched_of y') (sy_threads y') (p, j) ↔ todo (sched_of y) (sy_threads y) (p, j))
     ∨ p ∉ dom (heap (sched_of y)) ∧ todo (sched_of y') (sy_threads y') (p, j)) →
  log_ok y' (log_next y' None log).
Proof.
  intros [H1 H2 H3] Hs. unfold log_next. cbn [ran_by]. rewrite app_nil_r. split.
  - by apply NoDup_filter.
  - by intros t [Ht _]%list_elem_of_filter.
  - intros p b j Hb Hj. assert (p ∈ dom (heap (sched_of y'))) as Hp by (apply elem_of_dom; eauto). rewrite list_elem_of_filter. cbn [fst].
    destruct (Hs p b j Hb Hj) as [[(b0 & Hb0 & Ejobs) ->]|[Hn Ht]].
    + rewrite <-(H3 p b0 j Hb0) by by rewrite Ejobs. tauto.
    + split; [|done]. intros [_ Hl%H2]. done.
Qed.

Lemma weight_bounds names res gen y i :
  wsys_ok names res gen (threads_of y) → 0 <= weight (sy_threads y) i <= busy_in (sched_of y) i.
Proof. intros Hy. split; [apply weight_nonneg|by apply (tokens_weight _ _ _ _ i Hy)]. Qed.

(** The jobs of a batch stay the same until its end. *)
Lemma ran_fate_jobs t h h' k p b : ran_fate t h = Some (h', k) → h' !! p = Some b → ∃ b0, h !! p = Some b0 ∧ jobs b0 = jobs b.
Proof.
  assert (∀ q, delete q h !! p = Some b → ∃ b0, h !! p = Some b0 ∧ jobs b0 = jobs b) as Hdel.
  { intros q [_ Hb]%lookup_delete_Some. by eauto. }
  unfold ran_fate. destruct (t.2 =? -1); [intros [= <- _]; apply Hdel|]. destruct (h !! t.1) as [b1|] eqn:E1; [|done]. cbn [mbind option_bind].
  destruct (job_finished b1) as [st b2] eqn:Ef.
  assert (<[t.1 := b2]> h !! p = Some b → ∃ b0, h !! p = Some b0 ∧ jobs b0 = jobs b) as Hins.
  { intros [(<- & <-)|(_ & Hb)]%lookup_insert_Some; [|by eauto]. exists b1. split; [done|]. unfold job_finished in Ef. cbv zeta in Ef.
    by repeat case_match; simplify_eq. }
  repeat case_match; intros [= <- _]; eauto.
Qed.

(** What a thread's iteration does is what its worker holds. *)
Lemma iteration_action run x x' a cmds :
  load_ok run → worker_iteration run x = Ok (x', a, cmds) →
  cmds = [B "RAN"] ∧ (∀ p j, a = Some (do_job p j) ↔ run_task run = Some (p, j) ∧ 0 <= j) ∧
  ∀ p, a = Some (do_completion p) ↔ run_task run = Some (p, -1).
Proof.
  unfold load_ok, worker_iteration, worker_work, run_task. destruct (is_batch_job run).
  - destruct (to_run run) as [|[p0|]|]; try done. intros _ [= _ <- <-]. split; [done|]. split.
    + intros p j. destruct (0 <=? batch_jobno run) eqn:E0; [naive_solver lia|]. destruct (_ =? -1); naive_solver lia.
    + intros p. destruct (0 <=? batch_jobno run) eqn:E0; [split; [done|]; intros [= _ E2]; lia|].
      destruct (batch_jobno run =? -1) eqn:E1; [apply Z.eqb_eq in E1; rewrite E1; split; congruence|split; [done|]; intros [= _ E2]; lia].
  - destruct (is_injected run); destruct (to_run run) as [cb rq|o|cb]; try done.
    + intros _ [= _ <- <-]. split; [done|]. naive_solver.
    + destruct (prepare_message run rq (wt_message x)) as [m| | |] eqn:Em; cbn [mbind outcome_bind]; try done; intros _ [= _ <- <-]; (split; [done|]); naive_solver.
Qed.

(** ** The steps of the system *)
Section log_steps.
Context `{Allocator} (cf : config) (nt : nat) (names : list bytes) (res : kind → Z) (gen : Z).
Context (Hnames : NoDup names) (Hres : ∀ k, 0 <= res k) (Hgen : 0 < gen) (Hslots : slots (kinds names) res gen < 2 ^ 31).

Abbreviation ok := (system_ok cf nt names res gen).

Lemma system_inv y : ok y → inv names res gen (sched_of y).
Proof using Type. clear. intros Hy. apply (to_inv _ _ _ _ (pk_timed _ _ _ _ _ _ (sk_proxy _ _ _ _ _ _ Hy))). Qed.

Lemma system_owned y : ok y → owned (length (tagged_workers (sched_of y))) (heap (sched_of y)) (batches (sched_of y)) (tasks (sched_of y)).
Proof using Type. clear. intros Hy. apply (inv_owned _ _ _ _ (system_inv y Hy)). Qed.

(** The proxy's loop. *)
Lemma loop_log e ev y x out log :
  ok y → (∀ tagged w, ev ≠ le_ran tagged w) → loop_step cf e ev (sy_proxy y) = Ok (x, out) → ok (proxy_moves y x (sy_reports y)) →
  log_ok y log → let y' := proxy_moves y x (sy_reports y) in log_ok y' (log_next y' None log) ∧ step_fair y y' None log.
Proof using Hnames Hres Hgen.
  intros Hy Hn E Hy' Hl y'. destruct (loop_delivers cf nt names res gen Hnames Hres Hgen e ev y x out Hy Hn E) as (k & Hk & Hj & Hw & _).
  pose proof (system_owned y Hy) as Ho. pose proof (system_owned _ Hy') as Ho'. pose proof (act_heap _ _ _ Hk) as Hh.
  pose proof (λ i, weight_bounds names res gen y i (sk_threads _ _ _ _ _ _ Hy)) as Hwb. split.
  - apply (log_kept y); [done|]. intros p b j Hb Hjr. change (heap (px_sched x) !! p = Some b) in Hb. destruct (heap (sched_of y) !! p) as [b0|] eqn:E0.
    + left. assert (b0 = b) as -> by (apply (lookup_weaken _ _ _ _ E0) in Hh; congruence). split; [by eauto|].
      apply (advance_todo _ _ _ _ _ _ _ _ Ho Ho' Hwb k Hk Hj Hw). apply elem_of_dom. by eauto.
    + right. apply not_elem_of_dom in E0. split; [done|]. by apply (advance_new _ _ _ _ _ _ _ _ Ho Ho' Hwb k Hk Hj Hw p b).
  - split; [done|]. intros p b Hb [|Hp]; [done|]. exfalso. apply Hp, elem_of_dom. exists b. by eapply lookup_weaken.
Qed.

(** What taking the report of the worker [i] does. *)
Record reported (i : bool * nat) (run : run_info) (y y' : system) : Prop := {
  rd_reports : sy_reports y = ran_report i :: sy_reports y';
  rd_threads : sy_threads y' = sy_threads y;
  rd_run : get_run i.1 i.2 (sched_of y) = Some run;
  rd_busy : busy_in (sched_of y) i = 1;
  rd_weight : weight (sy_threads y) i = 0;
  rd_ran : worker_ran i.1 i.2 (routing_id i.1 i.2) (sched_of y) = Ok (sched_of y');
  rd_tasks : ran_tasks run (sched_of y) (sched_of y');
  rd_same : same_runs i (sched_of y) (sched_of y');
  rd_idle j : busy_in (sched_of y') j = busy_in (sched_of y) j - if decide (j = i) then 1 else 0;
  rd_fate : ∃ k, events (sched_of y') = k ++ events (sched_of y) ∧
    if is_batch_job run
    then ∃ p, to_run run = run_batch (Some p) ∧ ran_fate (p, batch_jobno run) (heap (sched_of y)) = Some (heap (sched_of y'), k)
    else heap (sched_of y') = heap (sched_of y) ∧ k = []
}.

Lemma rd_jobs i run y y' p b :
  reported i run y y' → heap (sched_of y') !! p = Some b → ∃ b0, heap (sched_of y) !! p = Some b0 ∧ jobs b0 = jobs b.
Proof using Type.
  clear. intros Hr Hb. destruct (rd_fate _ _ _ _ Hr) as (k & _ & Hf). destruct (is_batch_job run); [destruct Hf as (q & _ & Hf); by eapply ran_fate_jobs|].
  destruct Hf as [Hf _]. rewrite Hf in Hb. by eauto.
Qed.

Lemma report_reported y y' out a :
  ok y → sys_step cf sy_report y = Ok (y', out, a) → a = None ∧ ok y' ∧ (y' = y ∨ ∃ i run, reported i run y y').
Proof using Hnames Hres Hgen Hslots.
  intros Hy E. destruct (report_sim cf nt names res gen Hnames Hres Hgen Hslots y Hy) as (y2 & E2 & Hy' & _ & Hr).
  pose proof E as E3. rewrite E in E2. injection E2 as <- _ ->. split_and!; [done|done|]. destruct Hr as [->|(i & rest & Hrep & Hth & Hen & Hs' & _)]; [by left|right].
  pose proof (system_inv y Hy) as Hi. pose proof (sk_threads _ _ _ _ _ _ Hy) as Hw. pose proof (pk_timed _ _ _ _ _ _ (sk_proxy _ _ _ _ _ _ Hy)) as Ht.
  destruct (ran_handled names res gen Hnames Hres Hgen Hslots i.1 i.2 _ Hi Hen) as (run & s2 & Hrun & Hs2 & _ & Hran).
  rewrite Hs' in Hs2. injection Hs2 as <-. destruct (ran_bound names res gen Hslots i.1 i.2 _ Hi Hen) as [Hwk Hlt].
  pose proof (ran_busy i.1 i.2 _ Hen) as Hb. rewrite handle_ran in Hs' by done.
  destruct (worker_ran_frame i.1 i.2 (routing_id i.1 i.2) (sched_of y) (sched_of y') (to_ids _ _ _ _ Ht)) as (_ & Hbs & _ & Hrs & run' & k & Hrun' & Hev & Hf);
    [|done|apply Hi|done|].
  { rewrite (a_max _ _ _ _ _ (proj1 (inv_acct _ _ _ _ Hi))). pose proof (slots_pos names res gen Hres Hgen). lia. }
  rewrite Hrun in Hrun'. injection Hrun' as <-. assert ((i.1, i.2) = i) as Ei by by destruct i. rewrite Ei in *.
  exists i, run. split; try done.
  - cbn [sys_step] in E3. rewrite Hrep in E3 |- *. inv_bind. destruct a as [x out']. by injection E3 as <- _.
  - pose proof (wk_tokens _ _ _ _ Hw i) as Hk. unfold tokens in Hk. cbn [threads_of ws_threads ws_reports ws_proxy snd] in Hk.
    rewrite Hrep, cnt_cons, decide_True in Hk by done. pose proof (cnt_nonneg (ran_report i) rest). pose proof (weight_nonneg (sy_threads y) i). lia.
  - by exists k.
Qed.

(** A report. *)
Lemma report_log y y' out a log :
  ok y → sys_step cf sy_report y = Ok (y', out, a) → log_ok y log → log_ok y' (log_next y' a log) ∧ step_fair y y' a log.
Proof using Hnames Hres Hgen Hslots.
  intros Hy E Hl. destruct (report_reported y y' out a Hy E) as (-> & Hy' & [->|(i & run & Hr)]).
  { split; [apply (log_kept y); [done|]; intros p b j Hb Hj; left; by eauto|]. split; [done|]. intros p b Hb [|Hp]; [done|].
    exfalso. apply Hp, elem_of_dom. by eauto. }
  pose proof (system_owned y Hy) as Ho. pose proof (system_owned _ Hy') as Ho'.
  assert (∀ p j, 0 <= j → todo (sched_of y') (sy_threads y') (p, j) ↔ todo (sched_of y) (sy_threads y) (p, j)) as Htd.
  { intros p j Hj. rewrite (rd_threads _ _ _ _ Hr). by apply (ran_todo _ _ _ _ _ _ _ Ho Ho' i run); try apply Hr. }
  split; [apply (log_kept y); [done|]|split; [done|]].
  - intros p b j Hbp Hj. left. split; [by eapply rd_jobs|apply Htd; lia].
  - intros p b Hbp [|Hp]; [done|]. intros j Hj. apply (lg_done _ _ Hl p b j Hbp Hj). rewrite <-Htd by lia. intros Hx%todo_tasks. apply Hp.
    rewrite (own_dom _ _ _ _ Ho'). by eapply (own_task _ _ _ _ Ho').
Qed.

(** The thread of the worker [i] has run what it holds. *)
Lemma worked_log y y' i run a log :
  ok y → sy_proxy y' = sy_proxy y → get_run i.1 i.2 (sched_of y) = Some run → busy_in (sched_of y) i = 1 →
  weight (sy_threads y) i = 1 → weight (sy_threads y') i = 0 → (∀ j, j ≠ i → weight (sy_threads y') j = weight (sy_threads y) j) →
  (∀ p j, a = Some (do_job p j) ↔ run_task run = Some (p, j) ∧ 0 <= j) → (∀ p, a = Some (do_completion p) → run_task run = Some (p, -1)) →
  log_ok y log → log_ok y' (log_next y' a log) ∧ step_fair y y' a log.
Proof using Type.
  clear. intros Hy Hp Hrun Hb W1 W0 Hwt Hjob Hcomp Hl. pose proof (system_owned y Hy) as Ho.
  assert (∀ t, run_task run = Some t → holds (sched_of y) i t) as Hh by (intros t Ht; split; eauto).
  assert (∀ t, run_task run = Some t → todo (sched_of y) (sy_threads y) t ∧ ¬ todo (sched_of y) (sy_threads y') t) as Htd.
  { intros t Ht. rewrite !(todo_held _ _ _ _ i t Ho (Hh t Ht)). lia. }
  assert (∀ p j, a = Some (do_job p j) → (p, j) ∉ log ∧ ∃ b, heap (sched_of y) !! p = Some b ∧ 0 <= j < Z.of_nat (length (jobs b))) as Hfair.
  { intros p j [Ht Hj]%Hjob. destruct (Htd _ Ht) as [Hd _]. pose proof (todo_tasks _ _ _ Hd) as Hin.
    destruct (owned_lookup _ _ _ _ p j Ho Hin) as [b Eb].
    assert (0 <= j < Z.of_nat (length (jobs b))) as Hjr; [|split; [|by eauto]; intros Hlog; by apply (lg_done _ _ Hl p b j Eb Hjr) in Hlog].
    apply elem_of_numbers in Hin. destruct (own_live _ _ _ _ Ho p b Eb) as [_ [(Ej & _)|(_ & _ & _ & _ & Hr)]]; [|by apply Hr].
    rewrite Ej in Hin. apply list_elem_of_singleton in Hin. lia. }
  assert (filter (λ t, t.1 ∈ dom (heap (sched_of y'))) log = log) as Hfl.
  { rewrite Hp. pose proof (lg_live _ _ Hl) as H. clear -H. induction log as [|t log IH]; [done|]. rewrite filter_cons_True by (apply H; by left).
    f_equal. apply IH. intros u Hu. apply H. by right. }
  unfold log_next. rewrite Hfl. split; split.
  - apply NoDup_app. split_and!; [apply (lg_nodup _ _ Hl)| |].
    + intros t Ht Ht'. destruct a as [[p j| | | |]|]; try (by apply elem_of_nil in Ht'). apply list_elem_of_singleton in Ht' as ->. by destruct (Hfair p j).
    + destruct a as [[p j| | | |]|]; try constructor; [apply not_elem_of_nil|constructor].
  - rewrite Hp. intros t [Ht|Ht]%elem_of_app; [by apply (lg_live _ _ Hl)|]. destruct a as [[p j| | | |]|]; try (by apply elem_of_nil in Ht).
    apply list_elem_of_singleton in Ht as ->. destruct (Hfair p j) as [_ (b & Eb & _)]; [done|]. apply elem_of_dom. by eauto.
  - rewrite Hp. intros p b j Eb Hj. rewrite elem_of_app. destruct (decide (run_task run = Some (p, j))) as [Ht|Ht].
    + assert (a = Some (do_job p j)) as -> by (apply Hjob; split; [done|lia]). destruct (Htd _ Ht) as [_ Hn]. split; [done|]. intros _. right. by left.
    + rewrite (worked_todo _ _ _ i run (p, j) Hrun Ht Hwt), <-(lg_done _ _ Hl p b j Eb Hj). split; [|by left]. intros [|Hx]; [done|].
      destruct a as [[q k| | | |]|]; try (by apply elem_of_nil in Hx). apply list_elem_of_singleton in Hx. injection Hx as -> ->.
      by destruct (proj1 (Hjob q k) eq_refl).
  - exact Hfair.
  - intros p b Eb [Ha|Hn]; [|exfalso; apply Hn; rewrite Hp; apply elem_of_dom; by eauto]. intros j Hj.
    apply (lg_done _ _ Hl p b j Eb Hj). intros Hx%todo_tasks%elem_of_numbers. apply Hcomp, Hh in Ha.
    assert ((p, -1) ∈ tasks (sched_of y)) as Hm%elem_of_numbers by (apply elem_of_tasks; eauto).
    destruct (own_live _ _ _ _ Ho p b Eb) as [_ [(Ej & _)|(_ & _ & _ & _ & Hr)]]; [|apply Hr in Hm; lia].
    rewrite Ej in Hx. apply list_elem_of_singleton in Hx. lia.
Qed.

(** A thread reports when it has worked, and only then. *)
Lemma thread_reports st y y' a :
  wsys_ok names res gen y → wsys_ok names res gen y' → of_thread st = true → wsys_step st y = Ok (y', a) →
  (ws_reports y' = ws_reports y ∧ a = None) ∨
  ∃ i run x x' cmds, ws_reports y' = ws_reports y ++ [ran_report i] ∧ get_run i.1 i.2 (ws_proxy y).2 = Some run ∧ load_ok run ∧
    worker_iteration run x = Ok (x', a, cmds).
Proof using Type.
  clear. intros Hy Hy' Hst E. pose proof (wk_reports _ _ _ _ Hy') as Hrep. destruct y as [[t s] th rs].
  destruct st as [i| |rt|rt|rt]; try done; cbn [wsys_step ws_proxy ws_threads ws_reports snd] in *.
  - left. destruct (th !! rt) as [x|]; cbn [mbind option_bind] in E; [|by injection E as <- <-].
    destruct (worker_recv x) as [[x' cmds]|] eqn:Er; [|by injection E as <- <-]. injection E as <- <-. cbn [ws_reports] in Hrep |- *. split; [|done].
    assert (cmds = [] ∨ cmds = [B "QUITTING"]) as [-> | ->]; [|by rewrite app_nil_r|].
    { unfold worker_recv in Er. destruct (wt_inbox x) as [|m rest]; [done|]. cbv zeta in Er. repeat case_match; simplify_eq; auto. }
    destruct (Hrep [rt; B "QUITTING"]) as [i Ei]; [apply elem_of_app; right; by left|]. exfalso. injection Ei as _ Ei. vm_compute in Ei. discriminate Ei.
  - left. destruct (th !! rt) as [x|]; [case_decide|]; by injection E as <- <-.
  - destruct (th !! rt) as [x|] eqn:Ex; [|left; by injection E as <- <-]. case_decide as Eph; [|left; by injection E as <- <-].
    destruct (get_run (wt_tagged x) (wt_index x) s) as [run|] eqn:Erun; [|done].
    pose proof (wk_threads _ _ _ _ Hy rt x Ex) as [Hrt _]. set (i := (wt_tagged x, wt_index x)) in *.
    assert (busy_in s i = 1) as Hb.
    { assert (th !! routing_id i.1 i.2 = Some x) as Ex' by by rewrite Hrt in Ex. pose proof (weight_work th i x Ex' Eph). pose proof (tokens_weight _ _ _ _ i Hy) as Hw. cbn [ws_threads ws_proxy snd] in Hw.
      pose proof (busy_in_range s i). lia. }
    assert (load_ok run) as Hl by by apply (ld_run _ (to_loads _ _ _ _ (wk_timed _ _ _ _ Hy)) (wt_tagged x) (wt_index x)).
    inv_bind. destruct a0 as [[x' a'] cmds]. injection E as <- <-. right. exists i, run, x, x', cmds. split_and!; try done.
    destruct (iteration_action run x x' a' cmds Hl E0) as [-> _]. cbn [ws_reports fmap list_fmap]. unfold ran_report. subst i. cbn [fst snd]. by rewrite <-Hrt.
Qed.

(** What a step of the thread of the worker [i] does that runs its task. *)
Record worked (i : bool * nat) (run : run_info) (y y' : system) (a : option action) : Prop := {
  wd_run : get_run i.1 i.2 (sched_of y) = Some run;
  wd_busy : busy_in (sched_of y) i = 1;
  wd_before : weight (sy_threads y) i = 1;
  wd_after : weight (sy_threads y') i = 0;
  wd_others j : j ≠ i → weight (sy_threads y') j = weight (sy_threads y) j;
  wd_job p j : a = Some (do_job p j) ↔ run_task run = Some (p, j) ∧ 0 <= j;
  wd_completion p : a = Some (do_completion p) ↔ run_task run = Some (p, -1)
}.

Lemma thread_worked st y y' out a :
  ok y → of_thread st = true → thread_moves st y = Ok (y', out, a) →
  sy_proxy y' = sy_proxy y ∧ ((∀ i, weight (sy_threads y') i = weight (sy_threads y) i) ∧ a = None ∨ ∃ i run, worked i run y y' a).
Proof using Hnames Hres Hgen Hslots.
  intros Hy Hst E. destruct (thread_sim cf nt names res gen Hnames Hres Hgen Hslots st y Hy Hst) as (y2 & a2 & E2 & Hy' & Hs & Hp).
  rewrite E in E2. injection E2 as <- _ <-. split; [done|]. pose proof (sk_threads _ _ _ _ _ _ Hy) as Hw. pose proof (sk_threads _ _ _ _ _ _ Hy') as Hw'.
  pose proof (wk_tokens _ _ _ _ Hw) as Hk. pose proof (wk_tokens _ _ _ _ Hw') as Hk'. unfold tokens in Hk, Hk'.
  cbn [threads_of ws_threads ws_reports ws_proxy snd] in Hk, Hk'. rewrite Hp in Hk'.
  destruct (thread_reports st _ _ a Hw Hw' Hst Hs) as [[Hr ->]|(i & run & x & x' & cmds & Hr & Hrun & Hld & Hit)].
  all: cbn [threads_of ws_reports ws_proxy snd] in *.
  - left. split; [|done]. intros i. specialize (Hk i). specialize (Hk' i). rewrite Hr in Hk'. lia.
  - right. exists i, run. destruct (iteration_action run x x' a cmds Hld Hit) as (_ & Hjob & Hcomp).
    assert (weight (sy_threads y) i = 1 ∧ weight (sy_threads y') i = 0 ∧ busy_in (sched_of y) i = 1) as (W1 & W0 & Wb).
    { specialize (Hk i). specialize (Hk' i). rewrite Hr, cnt_app, cnt_cons, decide_True in Hk' by done. change (cnt _ []) with 0 in Hk'.
      pose proof (weight_nonneg (sy_threads y') i). pose proof (cnt_nonneg (ran_report i) (sy_reports y)). pose proof (busy_in_range (sched_of y) i). lia. }
    split; try done. intros j Hj. specialize (Hk j). specialize (Hk' j). rewrite Hr, cnt_app, cnt_cons, decide_False in Hk'; [change (cnt _ []) with 0 in Hk'; lia|].
    intros Ej. injection Ej as Ej. apply routing_id_inj in Ej. destruct i, j. cbn [fst snd] in Ej. congruence.
Qed.

(** A thread. *)
Lemma thread_log st y y' out a log :
  ok y → of_thread st = true → thread_moves st y = Ok (y', out, a) → log_ok y log → log_ok y' (log_next y' a log) ∧ step_fair y y' a log.
Proof using Hnames Hres Hgen Hslots.
  intros Hy Hst E Hl. destruct (thread_worked st y y' out a Hy Hst E) as [Hp [[Hwt ->]|(i & run & Hw)]].
  - split; [apply (log_kept y); [done|]|split; [done|]].
    + intros p b j Hb Hj. rewrite Hp in Hb |- *. left. split; [by eauto|]. unfold todo. by setoid_rewrite Hwt.
    + intros p b Hb [|Hn]; [done|]. rewrite Hp in Hn. exfalso. apply Hn, elem_of_dom. by eauto.
  - apply (worked_log y y' i run a log); try done; try apply Hw.
Qed.

Lemma step_log st y y' out a log :
  ok y → sys_enabled st y → sys_step cf st y = Ok (y', out, a) → log_ok y log → log_ok y' (log_next y' a log) ∧ step_fair y y' a log.
Proof using Hnames Hres Hgen Hslots.
  intros Hy He E Hl. destruct (sys_step_ok cf nt names res gen Hnames Hres Hgen Hslots st y Hy He) as (y2 & out2 & a2 & E2 & Hy').
  rewrite E in E2. injection E2 as <- <- <-. destruct st as [e ev| |rt|rt|rt].
  - destruct He as [_ Hn]. cbn [sys_step] in E. inv_bind. destruct a0 as [x out']. injection E as <- <- <-. by eapply loop_log.
  - by eapply report_log.
  - by apply (thread_log (st_recv rt) y y' out).
  - by apply (thread_log (st_start rt) y y' out).
  - by apply (thread_log (st_work rt) y y' out).
Qed.
End log_steps.

(** ** Runs with their log *)
Section runs.
Context `{Allocator} (cf : config) (th : thread_config) (cs : gmap bytes category) (tagged : list (run_info * bool * list batch_job)).
Context (active : gset bytes) (binds : list bind_data) (bind_ok : bytes → bool).

(** From a state that has no batch. *)
Inductive logged : system → list batch_job → Prop :=
  | logged_start y : sys_reach cf th cs tagged active binds bind_ok y → heap (sched_of y) = ∅ → logged y []
  | logged_step st y y' out a log : logged y log → sys_enabled st y → sys_step cf st y = Ok (y', out, a) → logged y' (log_next y' a log).

Lemma logged_reach y log : logged y log → sys_reach cf th cs tagged active binds bind_ok y.
Proof using Type. induction 1; [done|by eapply sys_next]. Qed.

Lemma logged_ok y log : logged y log → log_ok y log.
Proof using Type.
  induction 1 as [y Hr Hh|st y y' out a log Hlog IH He E].
  - split; [constructor|by intros t Ht%elem_of_nil|]. intros p b j Hb. by rewrite Hh, lookup_empty in Hb.
  - destruct (sys_reach_ok _ _ _ _ _ _ _ y (logged_reach y log Hlog)) as (nt & names & res & gen & Hn & Hres & Hg & Hsl & Hok).
    by eapply (step_log cf nt names res gen).
Qed.
End runs.

(** ** Properties *)

(** C2. Every job of a batch runs exactly once.  In every run of the whole program,
    whatever the order of client calls, proxy steps and thread steps: a worker thread
    only runs jobs that exist in a batch that is alive and that have not run yet, and
    when a completion function is run by a thread, or when the batch is deleted (which
    is also when a completion in the proxy thread has been called), every one of its
    jobs has run.  The log holds the jobs run so far of the live batches. *)
Theorem jobs_run_once `{Allocator} cf th cs tagged active binds bind_ok st y log y' out a :
  logged cf th cs tagged active binds bind_ok y log → sys_enabled st y → sys_step cf st y = Ok (y', out, a) →
  NoDup log ∧
  (∀ p j, a = Some (do_job p j) →
    (p, j) ∉ log ∧ ∃ b, heap (px_sched (sy_proxy y)) !! p = Some b ∧ 0 <= j < Z.of_nat (length (jobs b))) ∧
  (∀ p b, heap (px_sched (sy_proxy y)) !! p = Some b →
    a = Some (do_completion p) ∨ p ∉ dom (heap (px_sched (sy_proxy y'))) →
    ∀ j, 0 <= j < Z.of_nat (length (jobs b)) → (p, j) ∈ log).
Proof.
  intros Hlog He E. destruct (sys_reach_ok _ _ _ _ _ _ _ y (logged_reach _ _ _ _ _ _ _ y log Hlog)) as (nt & names & res & gen & Hn & Hres & Hg & Hsl & Hok).
  pose proof (logged_ok _ _ _ _ _ _ _ y log Hlog) as Hl.
  destruct (step_log cf nt names res gen Hn Hres Hg Hsl st y y' out a log Hok He E Hl) as [_ [H1 H2]].
  split_and!; [apply (lg_nodup _ _ Hl)|exact H1|exact H2].
Qed.

(** ** A concrete run: the two jobs of a batch, one by a pool worker and one by a tagged
    one; the last report ends the batch *)
Fixpoint log_run `{Allocator} (cf : config) (sts : list sys_event) (y : system) (log : list batch_job) : outcome (system * list batch_job) :=
  match sts with
  | [] => Ok (y, log)
  | st :: sts => '(y', out, a) ← sys_step cf st y; log_run cf sts y' (log_next y' a log)
  end.
Definition of_others (st : sys_event) : Prop := match st with sy_loop _ _ => False | _ => True end.

Lemma log_run_logged `{Allocator} cf th cs tagged active binds bind_ok sts y log y' log' :
  logged cf th cs tagged active binds bind_ok y log → Forall of_others sts → log_run cf sts y log = Ok (y', log') →
  logged cf th cs tagged active binds bind_ok y' log'.
Proof.
  revert y log. induction sts as [|st sts IH]; intros y log Hl Ho E; cbn [log_run] in E; [by injection E as <- <-|].
  apply Forall_cons in Ho as [Hst Ho]. inv_bind. destruct a as [[y1 out] a]. eapply IH; [|done|exact E].
  eapply logged_step; [done| |done]. by destruct st.
Qed.

Definition demo_work : list sys_event :=
  [sy_work (routing_id false 0); sy_report; sy_recv (routing_id true 0); sy_start (routing_id true 0);
   sy_recv (routing_id true 0); sy_work (routing_id true 0)].
Definition sys_demo4 : system := ok_or sys_demo0 ('(y, _) ← log_run demo_config demo_work sys_demo3 []; Ok y).
Definition sys_demo5 : system := ok_or sys_demo0 (sys_run demo_config [sy_report] sys_demo4).

Abbreviation demo_logged := (logged demo_config demo_threads demo_cats demo_tagged ∅ demo_binds (λ _, true)).

Lemma sys_demo3_logged : demo_logged sys_demo3 [].
Proof.
  apply (logged_step _ _ _ _ _ _ _ (sy_loop demo_env le_process) sys_demo2 _ [] None []); [|by split|vm_compute; reflexivity].
  apply (logged_step _ _ _ _ _ _ _ (sy_loop demo_env (le_control 0 7)) sys_demo1 _ [] None []); [|apply sys_demo1_control|vm_compute; reflexivity].
  apply logged_start; [apply sys_demo1_reach|vm_compute; reflexivity].
Qed.

Lemma sys_demo4_logged : demo_logged sys_demo4 [(0%nat, 0); (0%nat, 1)].
Proof. apply (log_run_logged _ _ _ _ _ _ _ demo_work sys_demo3 []); [apply sys_demo3_logged|by repeat constructor|vm_compute; reflexivity]. Qed.

Lemma jobs_run_once_witness :
  (∃ b, heap (px_sched (sy_proxy sys_demo4)) !! 0%nat = Some b ∧ length (jobs b) = 2%nat ∧
    ∀ j, 0 <= j < Z.of_nat (length (jobs b)) → (0%nat, j) ∈ [(0%nat, 0); (0%nat, 1)]) ∧ 0%nat ∉ dom (heap (px_sched (sy_proxy sys_demo5))).
Proof.
  assert (0%nat ∉ dom (heap (px_sched (sy_proxy sys_demo5)))) as Hn by (apply not_elem_of_dom; vm_compute; reflexivity).
  split; [|exact Hn].
  destruct (jobs_run_once demo_config demo_threads demo_cats demo_tagged ∅ demo_binds (λ _, true) sy_report sys_demo4 [(0%nat, 0); (0%nat, 1)] sys_demo5 [] None
    sys_demo4_logged I ltac:(vm_compute; reflexivity)) as (_ & _ & Hend).
  eexists. split; [vm_compute; reflexivity|]. split; [vm_compute; reflexivity|].
  apply (Hend 0%nat); [vm_compute; reflexivity|right; exact Hn].
Defined.
