(* ===== verification/Progress.v ===== *)
(** What becomes of submitted work when nothing more comes from outside: the proxy and
    its threads bring it to an end.  A measure of the work left falls with every step
    that does anything, and until all is done some step does. *)
From S2P Require Import Prelude BtValue BtSerialize BtCodec Commands Connections Control Auth Net NetInv Batch Admission Scheduler BatchOwner SchedulerInv Frame Proxy Timers Loop Handover LoopInv Worker WorkerInv System Jobs.
Open Scope Z_scope.

(** ** The work left *)

(** Jobs and commands that wait for a worker. *)
Definition waiting (s : sched) : nat :=
  (length (batch_jobs s) + length (reply_jobs s) + ranks (λ x, length x.2) (tagged_workers s) + length (pending_commands s))%nat.

(** A job may yet lead to the completion of its batch. *)
Definition job_cost (t : batch_job) : nat := if 0 <=? t.2 then 1 else 0.

(** The steps a thread has before it: a [RUN] is received, worked on and reported. *)
Definition msg_cost (m : list bytes) : nat := if decide (m = [B "RUN"]) then 3 else 2.
Definition phase_cost (ph : wphase) : nat := match ph with ph_work => 2 | ph_start => 1 | _ => 0 end.
Definition thread_cost (x : wthread) : nat := (phase_cost (wt_phase x) + ranks msg_cost (wt_inbox x))%nat.

Definition sched_work (s : sched) : nat := (4 * ranks job_cost (tasks s) + 4 * waiting s)%nat.
Definition work (y : system) : nat :=
  (sched_work (px_sched (sy_proxy y)) + map_ranks thread_cost (sy_threads y) + length (sy_reports y))%nat.

(** ** Serving the queues *)

(** [s'] is [s] after the starts [k], each of something that waited. *)
Record takes (k : list event) (s s' : sched) : Prop := {
  tk_events : events s' = k ++ events s;
  tk_waiting : waiting s = (waiting s' + length k)%nat;
  tk_same : k = [] → s' = s
}.

Lemma takes_refl s : takes [] s s.
Proof. split; [done|cbn; lia|done]. Qed.

Lemma takes_trans k k' s1 s2 s3 : takes k s1 s2 → takes k' s2 s3 → takes (k' ++ k) s1 s3.
Proof.
  intros [E1 W1 S1] [E2 W2 S2]. split; [by rewrite E2, E1, app_assoc|rewrite length_app; lia|].
  intros [-> ->]%app_nil. by rewrite S2, S1.
Qed.

Lemma takes_one e s s' : events s' = e :: events s → waiting s = S (waiting s') → takes [e] s s'.
Proof. intros E W. split; [done|cbn; lia|done]. Qed.

Lemma run_tagged_takes n i s : ∃ k, takes k s (run_tagged n i s).
Proof.
  revert i s. induction n as [|n IH]; intros i s; cbn [run_tagged]; [exists []; apply takes_refl|]. cbv zeta.
  destruct (tagged_workers s !! i) as [[[r []] [|j q]]|] eqn:E; try apply IH.
  destruct (proxy_run_worker _) as [r' ev]. set (s1 := log_event _ _). destruct (IH (S i) s1) as [k Hk]. exists (k ++ [ev]).
  eapply takes_trans; [apply takes_one|exact Hk]; [done|]. subst s1. unfold waiting. ss.
  pose proof (ranks_insert (λ x, length x.2) (tagged_workers s) i _ (r', true, q) E) as Hr. cbn [snd length] in Hr. lia.
Qed.

(** Dispatching touches no queue. *)
Lemma run_on_idle_queues load s s' :
  run_on_idle load s = Ok s' →
  (∃ e, events s' = e :: events s) ∧ batch_jobs s' = batch_jobs s ∧ reply_jobs s' = reply_jobs s ∧
  tagged_workers s' = tagged_workers s ∧ pending_commands s' = pending_commands s ∧ cats s' = cats s.
Proof.
  unfold run_on_idle, get_idle_worker. intros E. inv_bind. destruct a as [w s1].
  assert (events s1 = events s ∧ batch_jobs s1 = batch_jobs s ∧ reply_jobs s1 = reply_jobs s ∧ tagged_workers s1 = tagged_workers s ∧
    pending_commands s1 = pending_commands s ∧ cats s1 = cats s) as (E1 & E2 & E3 & E4 & E5 & E6).
  { destruct (idle_workers s); [destruct (_ <? _)%nat; [|done]|]; by injection E0 as <- <-. }
  destruct (workers s1 !! w) as [x|]; [|done]. destruct (proxy_run_worker _) as [x' ev]. injection E as <-. ss. rewrite E1. by eauto 10.
Qed.

Lemma run_batch_jobs_takes fuel reply s s' : run_batch_jobs fuel reply s = Ok s' → ∃ k, takes k s s'.
Proof.
  revert s. induction fuel as [|fuel IH]; intros s; cbn [run_batch_jobs]; [done|].
  destruct (jobs_queue reply s) as [|j q] eqn:Eq; [intros [= <-]; exists []; apply takes_refl|].
  destruct (batch_slot reply s); [|intros [= <-]; exists []; apply takes_refl]. intros E. inv_bind. cbv zeta in E. rename a into s1.
  apply run_on_idle_queues in E0 as ([ev Ev] & E1 & E2 & E3 & E4 & _). destruct (IH _ E) as [k Hk]. exists (k ++ [ev]).
  eapply takes_trans; [apply takes_one|exact Hk]; destruct reply; ss; [done|done|..]; unfold waiting; ss; rewrite ?E1, ?E2, E3, E4, Eq; cbn [length]; lia.
Qed.

Lemma run_pending_takes kept rest s s' :
  run_pending kept rest s = Ok s' → ∃ k, takes k (with_pending_commands (kept ++ rest) s) s'.
Proof.
  revert kept s. induction rest as [|p rest IH]; intros kept s; cbn [run_pending].
  { intros [= <-]. rewrite app_nil_r. exists []. apply takes_refl. }
  destruct (_ <? _); [|intros [= <-]; exists []; apply takes_refl]. destruct (cats s !! pc_cat p) as [c|]; [|done].
  destruct (_ || _); [|intros E; apply IH in E; by rewrite <-app_assoc in E]. intros E. inv_bind. destruct (_ <? 0); [done|]. inv_bind.
  apply run_on_idle_queues in E0 as ([ev Ev] & E1' & E2 & E3 & E4 & E5). destruct (IH _ _ E) as [k Hk]. exists (k ++ [ev]).
  eapply takes_trans; [apply takes_one|exact Hk]; unfold update_cat in E1; destruct (cats a !! pc_cat p); try done; injection E1 as <-; ss; [done|].
  unfold waiting. ss. rewrite E1', E2, E3, !length_app. cbn [length]. lia.
Qed.

Lemma process_queue_takes s s' : proxy_process_queue s = Ok s' → ∃ k, takes k s s'.
Proof.
  unfold proxy_process_queue, proxy_run_batch_jobs. destruct (_ =? 0); [intros [= <-]; exists []; apply takes_refl|]. cbv zeta. intros E. inv_bind.
  destruct (run_tagged_takes (length (tagged_workers s)) 0 s) as [k0 H0]. destruct (run_batch_jobs_takes _ _ _ _ E0) as [k1 H1].
  destruct (run_batch_jobs_takes _ _ _ _ E1) as [k2 H2]. destruct (run_pending_takes _ _ _ _ E) as [k3 H3]. cbn [app] in H3.
  replace (with_pending_commands _ a0) with a0 in H3 by by destruct a0. eauto using takes_trans.
Qed.

(** The threads' part of it. *)
Lemma deliver_cost k th : Forall quiet k → (map_ranks thread_cost (foldr deliver th k) <= map_ranks thread_cost th + 3 * length k)%nat.
Proof.
  induction 1 as [|ev k Hq _ IH]; cbn [foldr length]; [lia|]. set (th1 := foldr deliver th k) in *. destruct ev as [w|rt| | | |]; try done; cbn [deliver].
  - set (x := new_thread false w). assert (thread_cost x = 2%nat) as Hx by done. destruct (th1 !! routing_id false w) as [x0|] eqn:E.
    + pose proof (map_ranks_insert thread_cost _ _ x _ E). lia.
    + rewrite map_ranks_new by done. lia.
  - unfold post. destruct (th1 !! rt) as [x|] eqn:E.
    + set (x' := with_inbox (wt_inbox x ++ [[B "RUN"]]) x). replace (alter _ rt th1) with (<[rt := x']> th1).
      2:{ rewrite <-(insert_id _ _ _ E) at 2. by rewrite alter_insert_eq. }
      pose proof (map_ranks_insert thread_cost _ _ x' _ E). assert (thread_cost x' = (thread_cost x + 3)%nat) as Hx; [|lia].
      unfold thread_cost. cbn [with_inbox wt_phase wt_inbox x']. rewrite ranks_app. change (ranks msg_cost [[B "RUN"]]) with 3%nat. lia.
    + rewrite alter_id' by done. lia.
Qed.

(** ** Reports *)
Lemma push_tagged_waiting t j s s' : push_tagged t j s = Ok s' → waiting s' = S (waiting s).
Proof.
  unfold push_tagged. destruct (tagged_workers s !! _) as [[[r b] q]|] eqn:E; [|done]. intros [= <-]. unfold waiting. ss.
  pose proof (ranks_insert (λ x, length x.2) _ _ _ (r, b, q ++ [j]) E) as Hr. cbn [snd] in Hr. rewrite length_app in Hr. cbn [length] in Hr. lia.
Qed.

Lemma tagged_waiting w r b b' q r' s :
  tagged_workers s !! w = Some (r, b, q) → waiting (with_tagged_workers (<[w := (r', b', q)]> (tagged_workers s)) s) = waiting s.
Proof. intros E. unfold waiting. ss. pose proof (ranks_insert (λ x, length x.2) _ _ _ (r', b', q) E) as Hr. cbn [snd] in Hr. lia. Qed.

Lemma set_run_waiting tagged w x s : waiting (set_run tagged w x s) = waiting s.
Proof. unfold set_run. destruct tagged; [|done]. destruct (tagged_workers s !! w) as [[[r b] q]|] eqn:E; [by eapply tagged_waiting|done]. Qed.

Lemma clear_job_waiting tagged w run p s : waiting (clear_job tagged w run p s) = waiting s.
Proof. unfold clear_job. by rewrite set_run_waiting. Qed.

Lemma batch_job_ran_waiting tagged w run p s s' :
  batch_job_ran tagged w run p s = Ok s' → (waiting s' <= waiting s + if (batch_jobno run =? -1)%Z then 0 else 1)%nat.
Proof.
  unfold batch_job_ran. destruct (_ =? -1); [intros [= <-]; rewrite clear_job_waiting; lia|]. destruct (heap s !! p) as [b|]; [|done].
  destruct (job_finished b) as [st b']. cbv zeta. set (s1 := with_heap _ s). assert (waiting s1 = waiting s) as E1 by done.
  destruct (bs_state st); [intros [= <-]; lia| |intros [= <-]; rewrite clear_job_waiting; lia].
  destruct (_ =? -1); [intros [= <-]; rewrite clear_job_waiting; change (waiting (log_event _ s1)) with (waiting s1); lia|].
  destruct (0 <? _); [intros E%push_tagged_waiting; lia|]. intros [= <-]. unfold push_job, waiting in *.
  destruct (is_reply_job run); ss; rewrite length_app; cbn [length]; lia.
Qed.

Lemma worker_ran_waiting tagged w rt run s s' :
  get_run tagged w s = Some run → worker_ran tagged w rt s = Ok s' →
  (waiting s' <= waiting s + if is_batch_job run && negb (batch_jobno run =? -1)%Z then 1 else 0)%nat ∧
  (is_batch_job run = true → is_Some (run_task run)).
Proof.
  intros Hr. unfold worker_ran. rewrite Hr. intros E. inv_bind. rename a into s1.
  assert ((waiting s1 <= waiting s + if is_batch_job run && negb (batch_jobno run =? -1)%Z then 1 else 0)%nat ∧
    (is_batch_job run = true → is_Some (run_task run))) as [Hw Ht].
  { unfold run_task. destruct (is_batch_job run); [|split; [|done]].
    - inv_bind. rename a into s0. assert (waiting s0 = waiting s) as <-.
      { unfold release_slot in E1. destruct tagged; [|destruct (0 <? _); [|done]; injection E1 as <-; unfold set_jobs_active; by destruct (is_reply_job run)].
        destruct (tagged_workers s !! w) as [[[r b] q]|] eqn:Et; [|done]. injection E1 as <-. by eapply tagged_waiting. }
      destruct (to_run run) as [|[p|]|]; try done. apply batch_job_ran_waiting in E0. split; [|by eauto]. destruct (_ =? -1); cbn [andb negb]; lia.
    - destruct (cats s !! cat run) as [c|] eqn:Ec; [|done]. destruct (0 <? _); [|done]. unfold update_cat in E0. rewrite Ec in E0.
      injection E0 as <-. change (waiting (with_cats _ s)) with (waiting s). cbn [andb]. lia. }
  split; [|done]. destruct (max_workers s1 =? 0); [by injection E as <-|]. destruct tagged; by injection E as <-.
Qed.

Lemma ranks_completions (l : list batch_job) : Forall (λ t, t.2 = -1) l → ranks job_cost l = 0%nat.
Proof. induction 1 as [|t l Ht _ IH]; [done|]. unfold ranks in *. cbn [foldr]. rewrite IH. unfold job_cost. rewrite Ht. done. Qed.

(** A report adds no work: the end of the last job may queue the completion. *)
Lemma ran_work names res gen run i rt s s' :
  inv names res gen s → get_run i.1 i.2 s = Some run → worker_ran i.1 i.2 rt s = Ok s' → ran_tasks run s s' → (sched_work s' <= sched_work s)%nat.
Proof.
  intros Hi Hr E (T & added & Hp & Hp' & Ha). destruct (worker_ran_waiting _ _ _ _ _ _ Hr E) as [Hw Ht]. unfold sched_work.
  rewrite Hp', Hp, !ranks_app, (ranks_completions added Ha).
  assert (is_batch_job run = true → batch_jobno run ≠ -1 → ranks job_cost (option_list (run_task run)) = 1%nat) as Hj.
  { intros Hb Hne. destruct (Ht Hb) as [[p j] Erun]. assert (j = batch_jobno run) as ->.
    { unfold run_task in Erun. by repeat case_match; simplify_eq. }
    rewrite Erun in Hp |- *. assert ((p, batch_jobno run) ∈ tasks s) as Hin by (rewrite Hp; apply elem_of_app; left; by apply list_elem_of_singleton). pose proof (inv_owned _ _ _ _ Hi) as Ho.
    destruct (owned_lookup _ _ _ _ _ _ Ho Hin) as [b Eb]. apply elem_of_numbers in Hin.
    change (ranks job_cost [(p, batch_jobno run)] = 1%nat). unfold ranks, job_cost. cbn [foldr snd]. destruct (0 <=? batch_jobno run) eqn:E0; [done|].
    destruct (own_live _ _ _ _ Ho p b Eb) as [_ [(Ej & _)|(_ & _ & _ & _ & Hrg)]]; [|apply Hrg in Hin; lia].
    rewrite Ej in Hin. by apply list_elem_of_singleton in Hin. }
  destruct (is_batch_job run); cbn [andb] in Hw; [|lia]. destruct (batch_jobno run =? -1) eqn:Ej; cbn [negb] in Hw; [lia|]. rewrite Hj by (done || lia). lia.
Qed.

(** ** The threads' steps *)
Definition threads_work (w : wsys) : nat := (map_ranks thread_cost (ws_threads w) + length (ws_reports w))%nat.

Lemma threads_work_moved t p th rs rt x x' cmds :
  th !! rt = Some x → (thread_cost x' + length cmds < thread_cost x)%nat →
  (threads_work (mkWsys p (<[rt := x']> th) (rs ++ ((λ c : bytes, [rt; c]) <$> cmds))) < threads_work (mkWsys t th rs))%nat.
Proof.
  intros Hx Hc. unfold threads_work. cbn [ws_threads ws_reports]. rewrite length_app, length_fmap.
  pose proof (map_ranks_insert thread_cost _ _ x' _ Hx). lia.
Qed.

Lemma worker_recv_cost x x' cmds : worker_recv x = Some (x', cmds) → (thread_cost x' + length cmds < thread_cost x)%nat.
Proof.
  unfold worker_recv. destruct (wt_inbox x) as [|m rest] eqn:Ei; [done|]. cbv zeta. assert (2 <= msg_cost m <= 3)%nat as Hm by (unfold msg_cost; case_decide; lia).
  assert (∀ expect next, (phase_cost next < msg_cost [expect])%nat → wt_phase x = ph_wait_start ∨ wt_phase x = ph_wait_run →
    match worker_wait_for expect m with
    | wait_more => Some (with_inbox rest x, [])
    | wait_found => Some (with_phase next (with_inbox rest x), [])
    | wait_quit => Some (with_phase ph_gone (with_inbox rest x), [B "QUITTING"])
    end = Some (x', cmds) → (thread_cost x' + length cmds < thread_cost x)%nat) as Hstep.
  { intros expect next Hn Hph. assert (thread_cost x = (msg_cost m + ranks msg_cost rest)%nat) as ->.
    { unfold thread_cost. rewrite Ei. by destruct Hph as [-> | ->]. }
    assert (phase_cost (wt_phase x) = 0%nat) as H0 by by destruct Hph as [-> | ->].
    unfold worker_wait_for. destruct m as [|c [|]]; [| |]; try (intros [= <- <-]; unfold thread_cost; cbn [with_inbox wt_phase wt_inbox length]; lia).
    destruct (bytes_eqb c expect) eqn:Ec.
    - apply bytes_eqb_eq in Ec as ->. intros [= <- <-]. unfold thread_cost. cbn [with_inbox with_phase wt_phase wt_inbox length]. lia.
    - destruct (bytes_eqb c (B "QUIT")); intros [= <- <-]; unfold thread_cost; cbn [with_inbox with_phase wt_phase wt_inbox length]; [cbn [phase_cost]|]; lia. }
  destruct (wt_phase x) eqn:Eph; try done; apply Hstep; (done || auto || vm_compute; lia).
Qed.

Lemma thread_work st w w' a : of_thread st = true → wsys_step st w = Ok (w', a) → w' = w ∨ (threads_work w' < threads_work w)%nat.
Proof.
  destruct w as [[t s] th rs]. destruct st as [i| |rt|rt|rt]; try done; intros _; cbn [wsys_step ws_proxy ws_threads ws_reports].
  - destruct (th !! rt) as [x|] eqn:Hx; cbn [mbind option_bind]; [|by intros [= <- _]; left]. destruct (worker_recv x) as [[x' cmds]|] eqn:Er; [|by intros [= <- _]; left].
    intros [= <- _]. right. apply (threads_work_moved (t, s) (t, s) th rs rt x); [done|]. by apply worker_recv_cost.
  - destruct (th !! rt) as [x|] eqn:Hx; [|by intros [= <- _]; left]. case_decide as Eph; intros [= <- _]; [|by left]. right. rewrite <-(app_nil_r rs) at 1.
    apply (threads_work_moved (t, s) (t, s) th rs rt x _ []); [done|]. unfold thread_cost. rewrite Eph. cbn [with_phase wt_phase wt_inbox phase_cost length]. lia.
  - destruct (th !! rt) as [x|] eqn:Hx; [|by intros [= <- _]; left]. case_decide as Eph; [|by intros [= <- _]; left].
    destruct (get_run _ _ s) as [run|]; [|done]. intros E. inv_bind. destruct a0 as [[x' a'] cmds]. injection E as <- _. right.
    apply (threads_work_moved (t, s) (t, s) th rs rt x); [done|]. unfold worker_iteration in E0. unfold thread_cost. rewrite Eph.
    destruct (worker_work _ _) as [[]| | |]; try done; injection E0 as <- _ <-; cbn [with_phase wt_phase wt_inbox phase_cost length]; lia.
Qed.

(** ** What the proxy and its threads do by themselves *)
Inductive own_step : Type :=
  | own_process                   (* [proxy_process_queue], at the end of an iteration *)
  | own_report                    (* the proxy takes the next report *)
  | own_recv (rt : bytes)
  | own_start (rt : bytes)
  | own_work (rt : bytes).

Definition as_event (e : env) (o : own_step) : sys_event :=
  match o with
  | own_process => sy_loop e le_process
  | own_report => sy_report
  | own_recv rt => sy_recv rt
  | own_start rt => sy_start rt
  | own_work rt => sy_work rt
  end.

(** No batch, no command that waits, no busy worker. *)
Record all_done (y : system) : Prop := {
  ad_heap : heap (sched_of y) = ∅;
  ad_queues : queued_jobs (sched_of y) = [];
  ad_pending : pending_commands (sched_of y) = [];
  ad_idle i : busy_in (sched_of y) i = 0
}.

Lemma thread_cost_zero x : thread_cost x = 0%nat → wt_phase x ≠ ph_work ∧ wt_inbox x = [].
Proof.
  unfold thread_cost. intros Hz. split; [intros E; rewrite E in Hz; cbn in Hz; lia|]. destruct (wt_inbox x) as [|m l]; [done|].
  unfold ranks in Hz. cbn [foldr] in Hz. unfold msg_cost at 1 in Hz. case_decide; lia.
Qed.

Lemma idle_pool s : (∀ i, busy_in s i = 0) → busy_runs s = [].
Proof.
  intros Hb. destruct (busy_runs s) as [|r l] eqn:E; [done|]. assert (r ∈ busy_runs s) as (w & Hw & _)%elem_of_busy by (rewrite E; by left).
  specialize (Hb (false, w)). lia.
Qed.

Section own.
Context `{Allocator} (cf : config) (e : env) (nt : nat) (names : list bytes) (res : kind → Z) (gen : Z).
Context (Hnames : NoDup names) (Hres : ∀ k, 0 <= res k) (Hgen : 0 < gen) (Hslots : slots (kinds names) res gen < 2 ^ 31).

Abbreviation ok := (system_ok cf nt names res gen).

Lemma own_enabled o y : sys_enabled (as_event e o) y.
Proof using Type. by destruct o. Qed.

Lemma system_max y : ok y → max_workers (sched_of y) ≠ 0.
Proof using Hres Hgen.
  intros Hy. rewrite (a_max _ _ _ _ _ (proj1 (inv_acct _ _ _ _ (system_inv cf nt names res gen y Hy)))).
  pose proof (slots_pos names res gen Hres Hgen). lia.
Qed.

(** Serving the queues: what it starts leaves them. *)
Lemma process_moves y :
  ok y →
  ∃ k s', sys_step cf (as_event e own_process) y = Ok (proxy_moves y (with_sched s' (sy_proxy y)) (sy_reports y), [], None) ∧
    takes k (sched_of y) s' ∧ Forall quiet k ∧ tasks s' ≡ₚ tasks (sched_of y) ∧ served res gen (sched_of y) s'.
Proof using Hnames Hres Hgen.
  intros Hy. pose proof (system_inv cf nt names res gen y Hy) as Hi. pose proof (pk_timed _ _ _ _ _ _ (sk_proxy _ _ _ _ _ _ Hy)) as Ht.
  destruct (process_queue_ok names res gen Hnames Hres _ (inv_acct _ _ _ _ Hi) (system_max y Hy)) as (s' & E & _ & Hm & Hs).
  destruct (process_queue_takes _ _ E) as [k Hk]. exists k, s'.
  destruct (process_queue_acts _ _ (to_loads _ _ _ _ Ht) E (to_ids _ _ _ _ Ht)) as [k' Hk'].
  assert (k' = k) as ->. { pose proof (act_events _ _ _ Hk') as E1. rewrite (tk_events _ _ _ Hk) in E1. by apply app_inv_tail in E1. }
  split_and!; [|done|apply (act_quiet _ _ _ Hk')|apply Hm|done]. cbn [as_event sys_step loop_step]. unfold run_sched. rewrite E. cbn [mbind outcome_bind].
  rewrite (new_events_app _ _ k (tk_events _ _ _ Hk)). rewrite (completions_quiet k (act_quiet _ _ _ Hk')).
  cbn [foldl]. replace (with_timers (px_timers (sy_proxy y)) (sy_proxy y)) with (sy_proxy y); [done|]. by destruct (sy_proxy y).
Qed.

Lemma process_work y y' out a :
  ok y → sys_step cf (as_event e own_process) y = Ok (y', out, a) → y' = y ∨ (work y' < work y)%nat.
Proof using Hnames Hres Hgen.
  intros Hy E. destruct (process_moves y Hy) as (k & s' & E2 & Hk & Hq & Hp & _). rewrite E in E2. injection E2 as -> _ _.
  unfold proxy_moves, deliver_new. cbn [px_sched with_sched]. rewrite (new_events_app _ _ k (tk_events _ _ _ Hk)). destruct k as [|ev k].
  - left. rewrite (tk_same _ _ _ Hk eq_refl). by destruct y as [[] ? ?].
  - right. unfold work, sched_work. cbn [sy_proxy sy_threads sy_reports px_sched with_sched]. rewrite Hp.
    pose proof (deliver_cost (ev :: k) (sy_threads y) Hq). pose proof (tk_waiting _ _ _ Hk). cbn [length] in *. lia.
Qed.

Lemma report_work y y' out a :
  ok y → sys_step cf sy_report y = Ok (y', out, a) → y' = y ∨ (work y' < work y)%nat.
Proof using Hnames Hres Hgen Hslots.
  intros Hy E. destruct (report_reported cf nt names res gen Hnames Hres Hgen Hslots y y' out a Hy E) as (_ & _ & [->|(i & run & Hr)]); [by left|right].
  pose proof (ran_work names res gen run i _ _ _ (system_inv cf nt names res gen y Hy) (rd_run _ _ _ _ Hr) (rd_ran _ _ _ _ Hr) (rd_tasks _ _ _ _ Hr)).
  unfold work. rewrite (rd_threads _ _ _ _ Hr), (rd_reports _ _ _ _ Hr). cbn [length]. lia.
Qed.

Lemma of_thread_work st y y' out a :
  ok y → of_thread st = true → System.thread_moves st y = Ok (y', out, a) → y' = y ∨ (work y' < work y)%nat.
Proof using Hnames Hres Hgen Hslots.
  intros Hy Hst E. destruct (thread_sim cf nt names res gen Hnames Hres Hgen Hslots st y Hy Hst) as (y2 & a2 & E2 & _ & Ew & Hp).
  rewrite E in E2. injection E2 as <- _ <-. destruct (thread_work st _ _ _ Hst Ew) as [Es|Hlt].
  - left. destruct y as [x th rs], y' as [x' th' rs']. unfold threads_of in Es. cbn [sy_proxy sy_threads sy_reports] in *. injection Es as _ _ -> ->. by rewrite Hp.
  - right. unfold work, threads_work, threads_of in *. cbn [ws_threads ws_reports] in Hlt. rewrite Hp. lia.
Qed.

Lemma own_step_ok o y :
  ok y → ∃ y' out a, sys_step cf (as_event e o) y = Ok (y', out, a) ∧ ok y' ∧ (y' = y ∨ (work y' < work y)%nat).
Proof using Hnames Hres Hgen Hslots.
  intros Hy. destruct (sys_step_ok cf nt names res gen Hnames Hres Hgen Hslots _ y Hy (own_enabled o y)) as (y' & out & a & E & Hy').
  exists y', out, a. split_and!; [done|done|]. destruct o as [| |rt|rt|rt]; [by eapply process_work|by eapply report_work|..].
  - by eapply (of_thread_work (st_recv rt)).
  - by eapply (of_thread_work (st_start rt)).
  - by eapply (of_thread_work (st_work rt)).
Qed.

(** A thread that has something before it can go on. *)
Lemma thread_can_move y rt x :
  ok y → sy_threads y !! rt = Some x → thread_cost x ≠ 0%nat →
  ∃ st, of_thread st = true ∧ ∀ w a, wsys_step st (threads_of y) = Ok (w, a) → w ≠ threads_of y.
Proof using Type.
  clear. intros Hy Hx Hc. destruct (wk_threads _ _ _ _ (sk_threads _ _ _ _ _ _ Hy) rt x Hx) as [_ Hph]. unfold thread_cost in Hc.
  assert (∀ m l, wt_inbox x = m :: l → wt_phase x = ph_wait_start ∧ m = [B "START"] ∨ wt_phase x = ph_wait_run ∧ m = [B "RUN"] →
    ∃ st, of_thread st = true ∧ ∀ w a, wsys_step st (threads_of y) = Ok (w, a) → w ≠ threads_of y) as Hrecv.
  { intros m l Ei Hm. exists (st_recv rt). split; [done|]. intros w a. cbn [wsys_step threads_of ws_proxy ws_threads ws_reports]. rewrite Hx. cbn [mbind option_bind].
    unfold worker_recv. rewrite Ei. destruct Hm as [[Eph ->]|[Eph ->]]; rewrite Eph; cbn [worker_wait_for]; rewrite bytes_eqb_refl; intros [= <- _].
    all: eapply (moved_thread rt x); [done|done|by rewrite Eph]. }
  destruct (wt_phase x) eqn:Eph.
  - destruct Hph as [n Hn]. apply (Hrecv _ _ Hn). by left.
  - exists (st_start rt). split; [done|]. intros w a. cbn [wsys_step threads_of ws_proxy ws_threads ws_reports]. rewrite Hx, decide_True by done.
    intros [= <- _]. eapply (moved_thread rt x); [done|done|by rewrite Eph].
  - destruct Hph as [[|n] Hn]; [rewrite Hn in Hc; done|]. apply (Hrecv _ _ Hn). by right.
  - exists (st_work rt). split; [done|]. intros w a. cbn [wsys_step threads_of ws_proxy ws_threads ws_reports]. rewrite Hx, decide_True by done.
    destruct (get_run _ _ _) as [run|]; [|done]. intros E. inv_bind. destruct a0 as [[x' a'] cmds]. injection E as <- _.
    eapply (moved_thread rt x); [done|done|]. rewrite Eph. unfold worker_iteration in E0. by destruct (worker_work _ _) as [[]| | |]; try done; injection E0 as <- _ _.
  - done.
Qed.

(** Idle workers, and queues with nothing that could be started: nothing is left. *)
Lemma served_all_done y : ok y → (∀ i, busy_in (sched_of y) i = 0) → served res gen (sched_of y) (sched_of y) → all_done y.
Proof using Hgen.
  intros Hy Hb Hs. set (s := sched_of y) in *. pose proof (idle_pool s Hb) as Hp. assert (running s = []) as Hr by (unfold running; by rewrite Hp).
  assert (∀ k, ¬ full res gen k (running s)) as Hnf. { intros k [_ Hlen]. rewrite Hr in Hlen. cbn in Hlen. lia. }
  assert (∀ reply, jobs_queue reply s = []) as Hj by (intros reply; by destruct (sv_jobs _ _ _ _ Hs reply) as [|Hf%Hnf]).
  assert (tagged_workers s ≫= tagged_task = []) as Ht.
  { destruct (tagged_workers s ≫= tagged_task) as [|t l] eqn:E; [done|]. assert (t ∈ tagged_workers s ≫= tagged_task) as Hin by (rewrite E; by left).
    apply list_elem_of_bind in Hin as ([[r b] q] & Hin & [w Hw]%list_elem_of_lookup). specialize (Hb (true, w)). unfold busy_in in Hb. cbn [fst snd] in Hb.
    rewrite Hw in Hb. destruct b; [done|]. rewrite (sv_tagged _ _ _ _ Hs w r false q Hw eq_refl) in Hin. by apply elem_of_nil in Hin. }
  assert (tasks s = []) as Htk. { unfold tasks, pool_free_tasks. change (batch_jobs s) with (jobs_queue false s). change (reply_jobs s) with (jobs_queue true s). by rewrite Hp, Ht, !Hj. }
  split; [..|done].
  - pose proof (system_owned cf nt names res gen y Hy) as Ho. fold s in Ho. rewrite Htk in Ho. apply map_empty. intros p.
    destruct (heap s !! p) as [b|] eqn:Eb; [|done]. by destruct (own_live _ _ _ _ Ho p b Eb) as [_ [(Hn & _)|(Hn & _)]].
  - fold s. destruct (queued_jobs s) as [|t l] eqn:E; [done|]. assert (t ∈ tasks s) as Hin by (apply elem_of_tasks; left; rewrite E; by left).
    rewrite Htk in Hin. by apply elem_of_nil in Hin.
  - fold s. destruct (pending_commands s) as [|p l] eqn:E; [done|]. destruct (Hnf (k_cat (pc_cat p))). apply (sv_pending _ _ _ _ Hs). rewrite E. by left.
Qed.

(** As long as there is work, some step lowers it. *)
Lemma own_progress y : ok y → all_done y ∨ ∃ o, ∀ y' out a, sys_step cf (as_event e o) y = Ok (y', out, a) → y' ≠ y.
Proof using Hnames Hres Hgen Hslots.
  intros Hy. destruct (sy_reports y) as [|m rest] eqn:Er.
  2:{ right. exists own_report. intros y' out a E ->. cbn [as_event sys_step] in E. rewrite Er in E. inv_bind. destruct a0 as [x out'].
      injection E as E _ _. apply (f_equal (λ y, length (sy_reports y))) in E. cbn [proxy_moves sy_reports] in E. rewrite Er in E. cbn in E. lia. }
  destruct (decide (map_Forall (λ _ x, thread_cost x = 0%nat) (sy_threads y))) as [Hall|Hnot].
  2:{ right. apply map_not_Forall in Hnot as (rt & x & Hx & Hc); [|apply _]. destruct (thread_can_move y rt x Hy Hx Hc) as (st & Hst & Hne).
      assert (∀ y' out a, System.thread_moves st y = Ok (y', out, a) → y' ≠ y) as Hm.
      { intros y' out a E ->. destruct (thread_sim cf nt names res gen Hnames Hres Hgen Hslots st y Hy Hst) as (y2 & a2 & E2 & _ & Ew & _).
        rewrite E in E2. injection E2 as <- _ _. by destruct (Hne _ _ Ew). }
      destruct st as [i| |rt'|rt'|rt']; try done; [by exists (own_recv rt')|by exists (own_start rt')|by exists (own_work rt')]. }
  assert (∀ i, busy_in (sched_of y) i = 0) as Hb.
  { intros i. pose proof (wk_tokens _ _ _ _ (sk_threads _ _ _ _ _ _ Hy) i) as Hk. unfold tokens in Hk. cbn [threads_of ws_threads ws_reports ws_proxy snd] in Hk.
    rewrite <-Hk, Er. unfold weight. destruct (sy_threads y !! _) as [x|] eqn:Hx; [|done]. destruct (thread_cost_zero x (Hall _ _ Hx)) as [Hp ->].
    by rewrite decide_False. }
  destruct (process_moves y Hy) as (k & s' & E & Hk & _ & _ & Hs). destruct k as [|ev k].
  - left. rewrite (tk_same _ _ _ Hk eq_refl) in Hs. by apply served_all_done.
  - right. exists own_process. intros y' out a E'. rewrite E in E'. injection E' as <- _ _. intros Ey.
    apply (f_equal (λ y, length (events (sched_of y)))) in Ey. cbn [proxy_moves sy_proxy px_sched with_sched] in Ey.
    rewrite (tk_events _ _ _ Hk), length_app in Ey. cbn [length] in Ey. lia.
Qed.
End own.

(** ** Completions *)

(** The worker that has the completion of the batch, if any, has yet to run it. *)
Definition completing (y : system) (p : ptr) : Prop := ∀ i, holds (sched_of y) i (p, -1) → weight (sy_threads y) i = 1.

Lemma job_finished_complete (b : Batch) st b' :
  job_finished b = (st, b') → complete b' = complete b ∧ (bs_state st = done_ → complete b = None).
Proof. unfold job_finished. cbv zeta. intros E. repeat case_match; simplify_eq; done. Qed.

(** A batch with a completion function ends with its completion. *)
Lemma fate_completion t h h' k p b :
  ran_fate t h = Some (h', k) → h !! p = Some b → is_Some (complete b) → t ≠ (p, -1) →
  ev_completion p ∈ k ∨ ∃ b', h' !! p = Some b' ∧ complete b' = complete b.
Proof.
  destruct t as [q j]. intros E Hb [f Hf] Hne. unfold ran_fate in E. cbn [fst snd] in E. destruct (decide (q = p)) as [->|Hq].
  - destruct (j =? -1) eqn:Ej; [apply Z.eqb_eq in Ej; congruence|]. rewrite Hb in E. cbn [mbind option_bind] in E.
    destruct (job_finished b) as [st b'] eqn:Ef. destruct (job_finished_complete _ _ _ Ef) as [Ec Hd].
    destruct (bs_state st); [|destruct (bs_thread st =? -1)|specialize (Hd eq_refl); congruence]; injection E as <- <-.
    + right. exists b'. by rewrite lookup_insert_eq.
    + left. right. by left.
    + right. exists b'. by rewrite lookup_insert_eq.
  - right. exists b. split; [|done]. destruct (j =? -1); [injection E as <- _; by rewrite lookup_delete_ne|].
    destruct (h !! q) as [b1|]; [|done]. cbn [mbind option_bind] in E. destruct (job_finished b1) as [st b2].
    repeat case_match; injection E as <- _; by rewrite ?lookup_delete_ne, ?lookup_insert_ne.
Qed.

(** ** Schedules *)
Section schedules.
Context `{Allocator} (cf : config) (e : env) (σ : nat → own_step).

(** The first [n] steps of the schedule, with what the threads called. *)
Fixpoint run_own (n : nat) (y : system) : outcome (system * list action) :=
  match n with
  | O => Ok (y, [])
  | S n' =>
      '(y, acts) ← run_own n' y;
      '(y, _, a) ← sys_step cf (as_event e (σ n')) y;
      Ok (y, acts ++ option_list a)
  end.

(** No step that can do something is put off for ever. *)
Definition fair (y : system) : Prop :=
  ∀ n o, ∃ m y' acts, (n <= m)%nat ∧ run_own m y = Ok (y', acts) ∧
    (σ m = o ∨ ∃ out a, sys_step cf (as_event e o) y' = Ok (y', out, a)).

Section runs_ok.
Context (nt : nat) (names : list bytes) (res : kind → Z) (gen : Z).
Context (Hnames : NoDup names) (Hres : ∀ k, 0 <= res k) (Hgen : 0 < gen) (Hslots : slots (kinds names) res gen < 2 ^ 31).

Abbreviation ok := (system_ok cf nt names res gen).
Abbreviation own_ok := (own_step_ok cf e nt names res gen Hnames Hres Hgen Hslots).

(** From the state at [n] on, work never rises, and the state is the same until it
    falls. *)
Lemma run_own_later n d y y1 acts1 :
  run_own n y = Ok (y1, acts1) → ok y1 →
  ∃ y2 acts2, run_own (d + n) y = Ok (y2, acts2) ∧ ok y2 ∧ (y2 = y1 ∨ (work y2 < work y1)%nat).
Proof using Hnames Hres Hgen Hslots.
  intros E1 Hy1. induction d as [|d (y2 & acts2 & E2 & Hy2 & Hd)]; [by eauto 10|].
  destruct (own_ok (σ (d + n)) y2 Hy2) as (y3 & out & a & E3 & Hy3 & Hw). cbn [Nat.add run_own]. rewrite E2. cbn [mbind outcome_bind].
  rewrite E3. cbn [mbind outcome_bind]. eexists _, _. split_and!; [done|done|]. destruct Hw as [->|Hw]; [done|]. right. destruct Hd as [->|]; lia.
Qed.

Lemma run_own_done y :
  fair y → ∀ w n y1 acts1, run_own n y = Ok (y1, acts1) → ok y1 → (work y1 < w)%nat → ∃ m y' acts, run_own m y = Ok (y', acts) ∧ all_done y'.
Proof using Hnames Hres Hgen Hslots.
  intros Hf w. induction w as [|w IH]; intros n y1 acts1 E1 Hy1 Hw; [lia|].
  destruct (own_progress cf e nt names res gen Hnames Hres Hgen Hslots y1 Hy1) as [Hd|[o Ho]]; [by eauto|].
  destruct (Hf n o) as (m & ym & am & Hm & Em & Hstep). destruct (run_own_later n (m - n) y y1 acts1 E1 Hy1) as (y2 & acts2 & E2 & Hy2 & Hd).
  rewrite Nat.sub_add in E2 by lia. rewrite Em in E2. injection E2 as <- <-. destruct Hd as [->|Hlt]; [|apply (IH m ym am Em Hy2); lia].
  destruct Hstep as [Hs|(out & a & Es)]; [|by destruct (Ho _ _ _ Es)].
  destruct (run_own_later m 1 y y1 am Em Hy1) as (y3 & a3 & E3 & Hy3 & [->|Hlt]); [|apply (IH (1 + m)%nat y3 a3 E3 Hy3); lia].
  exfalso. cbn [Nat.add run_own] in E3. rewrite Em in E3. cbn [mbind outcome_bind] in E3. rewrite Hs in E3.
  apply outcome_bind_Ok_inv in E3 as ([[y4 out] a] & Es & E3). injection E3 as -> _. by destruct (Ho _ _ _ Es).
Qed.

(** Batches do not change under own steps, but for the jobs left. *)
Lemma own_jobs_kept o y y' out a p b :
  ok y → sys_step cf (as_event e o) y = Ok (y', out, a) → heap (sched_of y') !! p = Some b →
  ∃ b0, heap (sched_of y) !! p = Some b0 ∧ jobs b0 = jobs b.
Proof using Hnames Hres Hgen Hslots.
  clear σ. intros Hy E Hb. assert (∀ st, of_thread st = true → System.thread_moves st y = Ok (y', out, a) → ∃ b0, heap (sched_of y) !! p = Some b0 ∧ jobs b0 = jobs b) as Hth.
  { intros st Hst Em. destruct (thread_sim cf nt names res gen Hnames Hres Hgen Hslots st y Hy Hst) as (y2 & a2 & E2 & _ & _ & Hp).
    rewrite Em in E2. injection E2 as <- _ _. rewrite Hp in Hb. by eauto. }
  destruct o as [| |rt|rt|rt]; [| |by apply (Hth (st_recv rt))|by apply (Hth (st_start rt))|by apply (Hth (st_work rt))].
  - cbn [as_event sys_step loop_step] in E. unfold run_sched in E. repeat inv_bind. destruct a0 as [x out']. inv_bind. simplify_eq.
    cbn [proxy_moves sy_proxy px_sched with_sched with_timers] in Hb. erewrite process_queue_heap in Hb by done. by eauto.
  - destruct (report_reported cf nt names res gen Hnames Hres Hgen Hslots y y' out a Hy E) as (_ & _ & [->|(i & run & Hr)]); [by eauto|]. by eapply rd_jobs.
Qed.

Lemma own_jobs_run o y y' out a log p b j :
  ok y → sys_step cf (as_event e o) y = Ok (y', out, a) → log_ok y log →
  heap (sched_of y) !! p = Some b → 0 <= j < Z.of_nat (length (jobs b)) → (p, j) ∉ log →
  a = Some (do_job p j) ∨ (p, j) ∉ log_next y' a log ∧ ∃ b', heap (sched_of y') !! p = Some b' ∧ jobs b' = jobs b.
Proof using Hnames Hres Hgen Hslots.
  clear σ. intros Hy E Hl Hb Hj Hn. destruct (step_log cf nt names res gen Hnames Hres Hgen Hslots _ y y' out a log Hy (own_enabled e o y) E Hl) as [_ Hf].
  destruct (decide ((p, j) ∈ ran_by a)) as [Hr|Hr].
  { left. destruct a as [[q k| | | |]|]; try (by apply elem_of_nil in Hr). apply list_elem_of_singleton in Hr. by injection Hr as -> ->. }
  right. split; [unfold log_next; rewrite elem_of_app, list_elem_of_filter; naive_solver|]. destruct (heap (sched_of y') !! p) as [b'|] eqn:Hb'.
  - destruct (own_jobs_kept o y y' out a p b' Hy E Hb') as (b0 & Hb0 & Ej). exists b'. split; [done|]. congruence.
  - destruct Hn. apply (sf_end _ _ _ _ Hf p b Hb); [|done]. right. by apply not_elem_of_dom.
Qed.

(** The completion of a batch runs before the batch goes. *)
Lemma process_completing y y' out a p b :
  ok y → sys_step cf (as_event e own_process) y = Ok (y', out, a) → heap (sched_of y) !! p = Some b → completing y p →
  completing y' p ∧ heap (sched_of y') !! p = Some b.
Proof using Hnames Hres Hgen.
  clear σ Hslots. intros Hy E Hb Hc. cbn [as_event sys_step] in E. inv_bind. destruct a0 as [x out']. injection E as <- <- <-.
  destruct (loop_delivers cf nt names res gen Hnames Hres Hgen e le_process y x out' Hy ltac:(done) E0) as (k & Hk & _ & Hw & _).
  pose proof (λ i, weight_bounds names res gen y i (sk_threads _ _ _ _ _ _ Hy)) as Hwb. split; [|exact (lookup_weaken _ _ _ _ Hb (act_heap _ _ _ Hk))].
  intros i Hi. cbn [proxy_moves sy_proxy sy_threads] in Hi |- *. destruct (decide (busy_in (sched_of y) i = 1)) as [Hbi|Hbi].
  - assert (holds (sched_of y) i (p, -1)) as Hold.
    { split; [done|]. destruct Hi as (_ & r & Hr & Ht). destruct i as [tg w]. destruct (proj1 (worker_exists_run _ tg w) (busy_in_exists _ _ Hbi)) as [r0 Hr0].
      exists r0. split; [done|]. pose proof (act_runs _ _ _ Hk (tg, w) r0 Hbi Hr0). congruence. }
    destruct (holds_kept _ _ _ _ k Hk Hw i _ Hold) as [_ ->]. by apply Hc.
  - apply (holds_new _ _ _ _ Hwb k Hk Hw i _ Hi). by intros [? _].
Qed.

Lemma report_completing y y' out a p b :
  ok y → sys_step cf sy_report y = Ok (y', out, a) → heap (sched_of y) !! p = Some b → is_Some (complete b) → completing y p →
  ∃ k, events (sched_of y') = k ++ events (sched_of y) ∧
    (ev_completion p ∈ k ∨ completing y' p ∧ ∃ b', heap (sched_of y') !! p = Some b' ∧ complete b' = complete b).
Proof using Hnames Hres Hgen Hslots.
  clear σ. intros Hy E Hb Hf Hc. destruct (report_reported cf nt names res gen Hnames Hres Hgen Hslots y y' out a Hy E) as (_ & _ & [->|(i & run & Hr)]).
  { exists []. split; [done|]. right. by eauto. }
  assert (completing y' p) as Hc'.
  { intros j Hj. rewrite (rd_threads _ _ _ _ Hr). apply Hc. destruct (decide (j = i)) as [->|Hne].
    - destruct Hj as [Hj _]. rewrite (rd_idle _ _ _ _ Hr), decide_True, (rd_busy _ _ _ _ Hr) in Hj by done. lia.
    - by apply (ran_holds _ _ i (rd_same _ _ _ _ Hr) (rd_idle _ _ _ _ Hr) j). }
  destruct (rd_fate _ _ _ _ Hr) as (k & Ek & Hfate). exists k. split; [done|]. destruct (is_batch_job run) eqn:Ej.
  - destruct Hfate as (q & Eq & Hfate). destruct (fate_completion _ _ _ _ p b Hfate Hb Hf) as [|Hk]; [|by left|by right].
    intros Eqj. assert (holds (sched_of y) i (p, -1)) as Hh%Hc; [|rewrite (rd_weight _ _ _ _ Hr) in Hh; done].
    split; [apply Hr|]. exists run. split; [apply Hr|]. unfold run_task. rewrite Ej, Eq. by f_equal.
  - destruct Hfate as [-> _]. right. by eauto.
Qed.

Lemma thread_completing st y y' out a p b :
  ok y → of_thread st = true → System.thread_moves st y = Ok (y', out, a) → heap (sched_of y) !! p = Some b → completing y p →
  sched_of y' = sched_of y ∧ (a = Some (do_completion p) ∨ completing y' p).
Proof using Hnames Hres Hgen Hslots.
  clear σ. intros Hy Hst E Hb Hc. destruct (thread_worked cf nt names res gen Hnames Hres Hgen Hslots st y y' out a Hy Hst E) as [Hp [[Hw _]|(i & run & Hw)]].
  - rewrite Hp. split; [done|]. right. intros j. rewrite Hp, Hw. apply Hc.
  - rewrite Hp. split; [done|]. destruct (decide (run_task run = Some (p, -1))) as [Ht|Ht]; [left; by apply (wd_completion _ _ _ _ _ Hw)|right].
    intros j Hj. rewrite Hp in Hj. destruct (decide (j = i)) as [->|Hne]; [|rewrite (wd_others _ _ _ _ _ Hw j Hne); by apply Hc].
    destruct Hj as (_ & r & Hrun & Hr). rewrite (wd_run _ _ _ _ _ Hw) in Hrun. by simplify_eq.
Qed.

Lemma own_events o y y' out a :
  ok y → sys_step cf (as_event e o) y = Ok (y', out, a) → ∃ k, events (sched_of y') = k ++ events (sched_of y).
Proof using Hnames Hres Hgen Hslots.
  clear σ. intros Hy E. assert (∀ st, of_thread st = true → System.thread_moves st y = Ok (y', out, a) → ∃ k, events (sched_of y') = k ++ events (sched_of y)) as Hth.
  { intros st Hst Em. destruct (thread_worked cf nt names res gen Hnames Hres Hgen Hslots st y y' out a Hy Hst Em) as [-> _]. by exists []. }
  destruct o as [| |rt|rt|rt]; [| |by apply (Hth (st_recv rt))|by apply (Hth (st_start rt))|by apply (Hth (st_work rt))].
  - destruct (process_moves cf e nt names res gen Hnames Hres Hgen y Hy) as (k & s' & E2 & Hk & _). rewrite E in E2. injection E2 as -> _ _.
    exists k. apply (tk_events _ _ _ Hk).
  - destruct (report_reported cf nt names res gen Hnames Hres Hgen Hslots y y' out a Hy E) as (_ & _ & [->|(i & run & Hr)]); [by exists []|].
    destruct (rd_fate _ _ _ _ Hr) as (k & Ek & _). by exists k.
Qed.

Lemma own_completion o y y' out a p b :
  ok y → sys_step cf (as_event e o) y = Ok (y', out, a) → heap (sched_of y) !! p = Some b → is_Some (complete b) → completing y p →
  ∃ k, events (sched_of y') = k ++ events (sched_of y) ∧
    (a = Some (do_completion p) ∨ ev_completion p ∈ k ∨ completing y' p ∧ ∃ b', heap (sched_of y') !! p = Some b' ∧ complete b' = complete b).
Proof using Hnames Hres Hgen Hslots.
  clear σ. intros Hy E Hb Hf Hc. assert (∀ st, of_thread st = true → System.thread_moves st y = Ok (y', out, a) → ∃ k, events (sched_of y') = k ++ events (sched_of y) ∧
    (a = Some (do_completion p) ∨ ev_completion p ∈ k ∨ completing y' p ∧ ∃ b', heap (sched_of y') !! p = Some b' ∧ complete b' = complete b)) as Hth.
  { intros st Hst Em. destruct (thread_completing st y y' out a p b Hy Hst Em Hb Hc) as [Hs Hx]. exists []. rewrite Hs. split; [done|]. naive_solver. }
  destruct o as [| |rt|rt|rt]; [| |by apply (Hth (st_recv rt))|by apply (Hth (st_start rt))|by apply (Hth (st_work rt))].
  - destruct (process_completing y y' out a p b Hy E Hb Hc) as [Hc' Hb'].
    destruct (process_moves cf e nt names res gen Hnames Hres Hgen y Hy) as (k & s' & E2 & Hk & _). rewrite E in E2. injection E2 as -> _ _.
    exists k. split; [apply (tk_events _ _ _ Hk)|]. right. right. by eauto.
  - destruct (report_completing y y' out a p b Hy E Hb Hf Hc) as (k & Ek & Hx). exists k. split; [done|]. by right.
Qed.
End runs_ok.
End schedules.

Section complete.
Context `{Allocator} (cf : config) (e : env) (th : thread_config) (cs : gmap bytes category) (tagged : list (run_info * bool * list batch_job)).
Context (active : gset bytes) (binds : list bind_data) (bind_ok : bytes → bool) (σ : nat → own_step).

Abbreviation log_of := (logged cf th cs tagged active binds bind_ok).

(** What had not run has run, or has yet to. *)
Lemma run_own_jobs n y log y' acts :
  log_of y log → run_own cf e σ n y = Ok (y', acts) →
  ∃ log', log_of y' log' ∧
    ∀ p b j, heap (sched_of y) !! p = Some b → 0 <= j < Z.of_nat (length (jobs b)) → (p, j) ∉ log →
      do_job p j ∈ acts ∨ (p, j) ∉ log' ∧ ∃ b', heap (sched_of y') !! p = Some b' ∧ jobs b' = jobs b.
Proof using Type.
  intros Hlog. revert y' acts. induction n as [|n IH]; intros y' acts E; cbn [run_own] in E; [injection E as <- <-; by eauto 10|].
  inv_bind. destruct a as [y1 acts1]. inv_bind. destruct a as [[y2 out] a]. injection E as <- <-. destruct (IH _ _ E0) as (log1 & Hl1 & Hj).
  exists (log_next y2 a log1). split; [by eapply logged_step; [exact Hl1|apply own_enabled|]|]. intros p b j Hb Hjr Hn.
  rewrite elem_of_app. destruct (Hj p b j Hb Hjr Hn) as [|[Hn1 (b1 & Hb1 & Ej)]]; [by left; left|].
  destruct (sys_reach_ok _ _ _ _ _ _ _ y1 (logged_reach _ _ _ _ _ _ _ y1 log1 Hl1)) as (nt & names & res & gen & Hnm & Hres & Hg & Hsl & Hok).
  destruct (own_jobs_run cf e nt names res gen Hnm Hres Hg Hsl (σ n) y1 y2 out a log1 p b1 j Hok E1 (logged_ok _ _ _ _ _ _ _ _ _ Hl1) Hb1)
    as [->|[Hn2 (b2 & Hb2 & Ej2)]]; [by rewrite Ej|done| |].
  - left. right. by left.
  - right. split; [done|]. exists b2. split; [done|congruence].
Qed.

(** A batch with jobs outstanding has not been completed. *)
Lemma outstanding_completing nt names res gen y p b :
  system_ok cf nt names res gen y → heap (sched_of y) !! p = Some b → jobs_outstanding b ≠ 0 → completing y p.
Proof using Type.
  clear. intros Hy Hb Ho i Hi. pose proof (system_owned cf nt names res gen y Hy) as Hown.
  assert ((p, -1) ∈ tasks (sched_of y)) as Hin%elem_of_numbers by (apply elem_of_tasks; eauto).
  destruct (own_live _ _ _ _ Hown p b Hb) as [_ [(_ & _ & Hz)|(_ & _ & _ & _ & Hr)]]; [done|]. apply Hr in Hin. lia.
Qed.

Lemma run_own_completions n y y' acts :
  sys_reach cf th cs tagged active binds bind_ok y → run_own cf e σ n y = Ok (y', acts) →
  sys_reach cf th cs tagged active binds bind_ok y' ∧ ∃ k, events (sched_of y') = k ++ events (sched_of y) ∧
    ∀ p b, heap (sched_of y) !! p = Some b → is_Some (complete b) → completing y p →
      do_completion p ∈ acts ∨ ev_completion p ∈ k ∨ completing y' p ∧ ∃ b', heap (sched_of y') !! p = Some b' ∧ complete b' = complete b.
Proof using Type.
  intros Hr. revert y' acts. induction n as [|n IH]; intros y' acts E; cbn [run_own] in E.
  { injection E as <- <-. split; [done|]. exists []. split; [done|]. by eauto 10. }
  inv_bind. destruct a as [y1 acts1]. inv_bind. destruct a as [[y2 out] a]. injection E as <- <-. destruct (IH _ _ E0) as (Hr1 & k & Ek & Hc).
  split; [by eapply sys_next; [exact Hr1|apply own_enabled|]|].
  destruct (sys_reach_ok _ _ _ _ _ _ _ y1 Hr1) as (nt & names & res & gen & Hnm & Hres & Hg & Hsl & Hok).
  pose proof (λ p b, own_completion cf e nt names res gen Hnm Hres Hg Hsl (σ n) y1 y2 out a p b Hok E1) as Hs.
  assert (∃ k', events (sched_of y2) = k' ++ events (sched_of y1)) as [k' Ek'].
  { destruct (own_events cf e nt names res gen Hnm Hres Hg Hsl (σ n) y1 y2 out a Hok E1) as [k' ?]. by exists k'. }
  exists (k' ++ k). split; [by rewrite Ek', Ek, app_assoc|]. intros p b Hb Hf Hcp. rewrite !elem_of_app.
  destruct (Hc p b Hb Hf Hcp) as [?|[?|(Hc1 & b1 & Hb1 & Ec)]]; [by left; left|by right; left; right|].
  destruct (Hs p b1 Hb1) as (k2 & Ek2 & Hx); [by rewrite Ec|done|]. assert (k2 = k') as -> by (rewrite Ek' in Ek2; by apply app_inv_tail in Ek2).
  destruct Hx as [->|[?|(Hc2 & b2 & Hb2 & Ec2)]]; [left; right; by left|by right; left; left|]. right. right. split; [done|]. exists b2. split; [done|congruence].
Qed.
End complete.

(** ** Properties *)

(** C4. What the program does by itself comes to an end.  In every state the program can
    reach, each step of the proxy or of a thread that needs nothing from outside (serving
    the queues, taking a report, receiving a message, running a task) is carried out and
    either changes nothing or lowers the work left; and unless no batch, no queued job or
    command and no busy worker is left, one of them changes something.  So there are at
    most as many such steps as the work left says, in whatever order they come. *)
Theorem own_steps_end `{Allocator} cf e th cs tagged active binds bind_ok y :
  sys_reach cf th cs tagged active binds bind_ok y →
  (∀ o, ∃ y' out a, sys_step cf (as_event e o) y = Ok (y', out, a) ∧ (y' = y ∨ (work y' < work y)%nat)) ∧
  (all_done y ∨ ∃ o y' out a, sys_step cf (as_event e o) y = Ok (y', out, a) ∧ (work y' < work y)%nat).
Proof.
  intros Hr. destruct (sys_reach_ok _ _ _ _ _ _ _ y Hr) as (nt & names & res & gen & Hn & Hres & Hg & Hsl & Hok).
  pose proof (λ o, own_step_ok cf e nt names res gen Hn Hres Hg Hsl o y Hok) as Hs. split.
  - intros o. destruct (Hs o) as (y' & out & a & E & _ & Hw). by eauto.
  - destruct (own_progress cf e nt names res gen Hn Hres Hg Hsl y Hok) as [|[o Ho]]; [by left|right].
    destruct (Hs o) as (y' & out & a & E & _ & [->|Hw]); [by destruct (Ho _ _ _ E)|by eauto 10].
Qed.

(** C3. Submitted batches complete.  Once nothing more comes from outside, under every
    schedule of the proxy and the threads that does not put off for ever a step that can
    be taken, the program comes to a state in which no batch, no queued job or command
    and no busy worker is left; on the way every job of every batch that had not been
    run is run by a thread, and the completion of every batch that has one and still had
    jobs outstanding is called, by a thread or by the proxy. *)
Theorem batches_complete `{Allocator} cf e th cs tagged active binds bind_ok σ y log :
  logged cf th cs tagged active binds bind_ok y log → fair cf e σ y →
  ∃ n y' acts k, run_own cf e σ n y = Ok (y', acts) ∧ all_done y' ∧
    events (px_sched (sy_proxy y')) = k ++ events (px_sched (sy_proxy y)) ∧
    ∀ p b, heap (px_sched (sy_proxy y)) !! p = Some b →
      (∀ j, 0 <= j < Z.of_nat (length (jobs b)) → (p, j) ∉ log → do_job p j ∈ acts) ∧
      (is_Some (complete b) → jobs_outstanding b ≠ 0 → do_completion p ∈ acts ∨ ev_completion p ∈ k).
Proof.
  intros Hlog Hf. pose proof (logged_reach _ _ _ _ _ _ _ y log Hlog) as Hr.
  destruct (sys_reach_ok _ _ _ _ _ _ _ y Hr) as (nt & names & res & gen & Hn & Hres & Hg & Hsl & Hok).
  destruct (run_own_done cf e σ nt names res gen Hn Hres Hg Hsl y Hf (S (work y)) 0 y [] eq_refl Hok) as (m & y' & acts & E & Hd); [lia|].
  destruct (run_own_jobs _ _ _ _ _ _ _ _ _ m y log y' acts Hlog E) as (log' & _ & Hj).
  destruct (run_own_completions _ _ _ _ _ _ _ _ _ m y y' acts Hr E) as (_ & k & Ek & Hc).
  assert (∀ p b, heap (sched_of y') !! p ≠ Some b) as Hnone by (intros p b; by rewrite (ad_heap _ Hd), lookup_empty).
  exists m, y', acts, k. split_and!; [done|done|done|]. intros p b Hb. split.
  - intros j Hjr Hnl. destruct (Hj p b j Hb Hjr Hnl) as [|[_ (b' & Hb' & _)]]; [done|]. by destruct (Hnone _ _ Hb').
  - intros Hcb Ho. destruct (Hc p b Hb Hcb (outstanding_completing cf nt names res gen y p b Hok Hb Ho)) as [?|[?|(_ & b' & Hb' & _)]]; [by left|by right|].
    by destruct (Hnone _ _ Hb').
Qed.

(** ** A concrete run: a batch with a job for the pool, one for a tagged thread, and a
    completion; the steps are taken in turn, over and over *)
Definition full_batch : Batch := ok_or demo_batch (completion 6%nat None demo_batch).
Definition sys_full1 : system := demo_sys [sy_loop demo_env (le_call (B "c1") (call_batch full_batch))].
Definition sys_full2 : system := ok_or sys_demo0 (sys_run demo_config [sy_loop demo_env (le_control 0 7)] sys_full1).

Lemma sys_full2_logged : demo_logged sys_full2 [].
Proof.
  apply (logged_step _ _ _ _ _ _ _ (sy_loop demo_env (le_control 0 7)) sys_full1 _ [] None []); [| |vm_compute; reflexivity].
  - apply (logged_step _ _ _ _ _ _ _ (sy_loop demo_env (le_call (B "c1") (call_batch full_batch))) sys_demo0 _ [] None []); [| |vm_compute; reflexivity].
    + apply logged_start; [apply sys_demo0_reach|vm_compute; reflexivity].
    + split; [|done]. split; [|vm_compute; reflexivity]. split_and!; [by split|done|done|done|done|]. repeat constructor; by vm_compute.
  - split; [|done]. split_and!; [|done|by split|vm_compute; reflexivity].
    eexists (B "c1"), _. split; [vm_compute; reflexivity|]. intros j q Hj. lia.
Qed.

Definition demo_round : list own_step :=
  [own_work (routing_id false 0); own_report; own_recv (routing_id true 0); own_start (routing_id true 0);
   own_recv (routing_id true 0); own_work (routing_id true 0); own_process; own_recv (routing_id false 0)].
Definition demo_schedule (n : nat) : own_step := default own_process (demo_round !! (n mod 8)%nat).
Definition demo_rounds (n : nat) : outcome (system * list action) := run_own demo_config demo_env demo_schedule n sys_full2.
Definition sys_full3 : system := ok_or sys_demo0 ('(y, _) ← demo_rounds 40; Ok y).

(** Where all threads wait and their inboxes are empty, they do nothing. *)
Lemma threads_wait st y :
  map_Forall (λ _ x, wt_phase x = ph_wait_run ∧ wt_inbox x = []) (sy_threads y) → of_thread st = true →
  System.thread_moves st y = Ok (y, [], None).
Proof.
  intros Hall Hst. unfold System.thread_moves. destruct y as [[n t s o c] th rs]. unfold threads_of. cbn [sy_proxy sy_threads sy_reports px_timers px_sched] in *.
  destruct st as [i| |rt|rt|rt]; try done; cbn [wsys_step ws_proxy ws_threads ws_reports]; (destruct (th !! rt) as [x|] eqn:Hx; [|done]);
    destruct (Hall _ _ Hx) as [Hp Hi]; cbn [mbind option_bind].
  - unfold worker_recv. by rewrite Hi.
  - by rewrite decide_False by congruence.
  - by rewrite decide_False by congruence.
Qed.

Lemma sys_full3_stable o : ∃ out a, sys_step demo_config (as_event demo_env o) sys_full3 = Ok (sys_full3, out, a).
Proof.
  assert (map_Forall (λ _ x, wt_phase x = ph_wait_run ∧ wt_inbox x = []) (sy_threads sys_full3)) as Hall.
  { apply (bool_decide_unpack _). vm_compute. exact I. }
  exists [], None. destruct o as [| |rt|rt|rt]; [vm_compute; reflexivity|vm_compute; reflexivity|..]; cbn [as_event sys_step].
  - by apply (threads_wait (st_recv rt)).
  - by apply (threads_wait (st_start rt)).
  - by apply (threads_wait (st_work rt)).
Qed.

Lemma demo_rounds_end n : ∃ acts, demo_rounds (n + 40) = Ok (sys_full3, acts).
Proof.
  induction n as [|n [acts IH]].
  - exists [do_job 0 0; do_job 0 1; do_completion 0]. vm_compute. reflexivity.
  - destruct (sys_full3_stable (demo_schedule (n + 40))) as (out & a & E). exists (acts ++ option_list a). unfold demo_rounds in *.
    cbn [Nat.add run_own]. rewrite IH. cbn [mbind outcome_bind]. rewrite E. done.
Qed.

Lemma demo_schedule_fair : fair demo_config demo_env demo_schedule sys_full2.
Proof. intros n o. destruct (demo_rounds_end n) as [acts E]. exists (n + 40)%nat, sys_full3, acts. split_and!; [lia|done|]. right. apply sys_full3_stable. Qed.

Lemma batches_complete_witness :
  ∃ n y' acts (k : list event), run_own demo_config demo_env demo_schedule n sys_full2 = Ok (y', acts) ∧ all_done y' ∧
    do_job 0 0 ∈ acts ∧ do_job 0 1 ∈ acts ∧ (do_completion 0 ∈ acts ∨ ev_completion 0 ∈ k).
Proof.
  destruct (batches_complete demo_config demo_env demo_threads demo_cats demo_tagged ∅ demo_binds (λ _, true) demo_schedule sys_full2 []
    sys_full2_logged demo_schedule_fair) as (n & y' & acts & k & E & Hd & _ & Hb).
  exists n, y', acts, k. destruct (Hb 0%nat (ok_or full_batch (Ok full_batch)) ltac:(vm_compute; reflexivity)) as [Hj Hc].
  split_and!; [exact E|exact Hd|apply Hj|apply Hj|apply Hc]; try (vm_compute; done); try apply not_elem_of_nil. vm_compute. by eauto.
Defined.

Lemma own_steps_end_witness :
  all_done sys_full2 ∨ ∃ o y' out a, sys_step demo_config (as_event demo_env o) sys_full2 = Ok (y', out, a) ∧ (work y' < work sys_full2)%nat.
Proof.
  apply (own_steps_end demo_config demo_env demo_threads demo_cats demo_tagged ∅ demo_binds (λ _, true) sys_full2).
  apply (logged_reach _ _ _ _ _ _ _ _ _ sys_full2_logged).
Defined.
