(* ===== verification/Shutdown.v ===== *)
(** The shutdown of the proxy: after [QUIT] every worker thread is told to quit once it
    has nothing to do, reports back and is joined, and then the proxy's loop ends. *)
From S2P Require Import Prelude BtValue BtSerialize BtCodec Commands Connections Control Auth Net Batch Admission Scheduler BatchOwner SchedulerInv Frame Proxy Timers Loop Handover Worker WorkerInv.
Open Scope Z_scope.

(** ** The proxy while it quits

    No worker is idle or may be started; [J] are the workers whose threads have been
    joined.  Apart from that the scheduler's state is that of a proxy that goes on
    running, [s]. *)
Definition mark (J : gset (bool * nat)) (tagged : bool) (w : nat) (r : run_info) : run_info :=
  if decide ((tagged, w) ∈ J) then set_joinable false r else r.

Definition quitting (J : gset (bool * nat)) (ev : list event) (s : sched) : sched :=
  with_events ev (with_max_workers 0 (with_idle_workers []
    (with_tagged_workers (imap (λ w x, (mark J true w x.1.1, x.1.2, x.2)) (tagged_workers s))
      (with_workers (imap (mark J false) (workers s)) s)))).

Lemma imap_insert {A C} (f : nat → A → C) l i x : imap f (<[i := x]> l) = <[i := f i x]> (imap f l).
Proof.
  apply list_eq. intros j. rewrite list_lookup_imap. destruct (decide (j = i)) as [->|Hj].
  - destruct (decide (i < length l)%nat) as [Hl|Hl].
    + rewrite !list_lookup_insert_eq by (rewrite ?length_imap; lia). done.
    + rewrite !list_insert_ge by (rewrite ?length_imap; lia). by rewrite list_lookup_imap.
  - rewrite !list_lookup_insert_ne by done. by rewrite list_lookup_imap.
Qed.

Section view.
Context (J : gset (bool * nat)).

Lemma mark_to_run tagged w x r : set_to_run x (mark J tagged w r) = mark J tagged w (set_to_run x r).
Proof. unfold mark. by case_decide. Qed.

Lemma quitting_get_run tagged w ev s : get_run tagged w (quitting J ev s) = mark J tagged w <$> get_run tagged w s.
Proof.
  unfold get_run, quitting. destruct tagged; cbn.
  - rewrite list_lookup_imap. by destruct (tagged_workers s !! w).
  - by rewrite list_lookup_imap.
Qed.

Lemma quitting_set_run tagged w r ev s : set_run tagged w (mark J tagged w r) (quitting J ev s) = quitting J ev (set_run tagged w r s).
Proof.
  unfold set_run. destruct tagged; cbn [tagged_workers quitting with_tagged_workers with_events with_max_workers with_idle_workers].
  - unfold quitting at 1. ss. rewrite list_lookup_imap. destruct (tagged_workers s !! w) as [[[r' b] q]|] eqn:E; [|done].
    cbn [fmap option_fmap option_map]. unfold quitting. ss. by rewrite imap_insert.
  - unfold quitting. ss. by rewrite imap_insert.
Qed.

Lemma quitting_release tagged w r ev s s' :
  release_slot tagged w r s = Ok s' → release_slot tagged w (mark J tagged w r) (quitting J ev s) = Ok (quitting J ev s').
Proof.
  unfold release_slot. assert (is_reply_job (mark J tagged w r) = is_reply_job r) as -> by (unfold mark; by case_decide). destruct tagged.
  - unfold quitting at 1. ss. rewrite list_lookup_imap. destruct (tagged_workers s !! w) as [[[r' b] q]|]; [|done]. intros [= <-].
    cbn [fmap option_fmap option_map]. unfold quitting. ss. by rewrite imap_insert.
  - assert (jobs_active (is_reply_job r) (quitting J ev s) = jobs_active (is_reply_job r) s) as -> by by destruct (is_reply_job r).
    destruct (0 <? _); [|done]. intros [= <-]. by destruct (is_reply_job r).
Qed.

Lemma quitting_push_tagged t j ev s s' : push_tagged t j s = Ok s' → push_tagged t j (quitting J ev s) = Ok (quitting J ev s').
Proof.
  unfold push_tagged. unfold quitting at 1. ss. rewrite list_lookup_imap. destruct (tagged_workers s !! _) as [[[r' b] q]|]; [|done].
  intros [= <-]. cbn [fmap option_fmap option_map]. unfold quitting. ss. by rewrite imap_insert.
Qed.

Lemma quitting_clear_job tagged w r p ev s :
  clear_job tagged w (mark J tagged w r) p (quitting J ev s) = quitting J (ev_delete p :: ev) (clear_job tagged w r p s).
Proof. unfold clear_job. cbv zeta. rewrite mark_to_run, <-quitting_set_run. done. Qed.

(** Events that concern no thread. *)
Definition inert (e : event) : Prop := match e with ev_delete _ | ev_completion _ => True | _ => False end.

(** The state has the events [k] more, and the workers and their limit stay. *)
Definition logs (k : list event) (s s' : sched) : Prop :=
  events s' = k ++ events s ∧ max_workers s' = max_workers s ∧ length (workers s') = length (workers s).

Lemma set_run_logs tagged w r s : logs [] s (set_run tagged w r s).
Proof. unfold set_run. destruct tagged; [by destruct (tagged_workers s !! w) as [[[]]|]|]. split_and!; try done. apply length_insert. Qed.

Lemma clear_job_logs tagged w r p s : logs [ev_delete p] s (clear_job tagged w r p s).
Proof.
  unfold clear_job. cbv zeta. set (s1 := log_event _ _). destruct (set_run_logs tagged w (set_to_run (run_batch None) r) s1) as (E1 & E2 & E3).
  split_and!; [by rewrite E1|by rewrite E2|by rewrite E3].
Qed.

Lemma push_tagged_logs t j s s' : push_tagged t j s = Ok s' → logs [] s s'.
Proof. unfold push_tagged. destruct (tagged_workers s !! _) as [[[r b] q]|]; [|done]. by intros [= <-]. Qed.

Lemma release_slot_logs tagged w r s s' : release_slot tagged w r s = Ok s' → logs [] s s'.
Proof.
  unfold release_slot. destruct tagged; [destruct (tagged_workers s !! w) as [[[]]|]|destruct (0 <? _)]; try done; intros [= <-]; [done|].
  by destruct (is_reply_job r).
Qed.

Lemma quitting_batch_job_ran tagged w r p ev s s' :
  batch_job_ran tagged w r p s = Ok s' →
  ∃ k, logs k s s' ∧ Forall inert k ∧
    batch_job_ran tagged w (mark J tagged w r) p (quitting J ev s) = Ok (quitting J (k ++ ev) s').
Proof.
  unfold batch_job_ran. assert (batch_jobno (mark J tagged w r) = batch_jobno r ∧ is_reply_job (mark J tagged w r) = is_reply_job r) as [-> ->]
    by (unfold mark; by case_decide).
  destruct (batch_jobno r =? -1).
  { intros [= <-]. exists [ev_delete p]. rewrite quitting_clear_job. split_and!; [apply clear_job_logs|by repeat constructor|done]. }
  change (heap (quitting J ev s)) with (heap s). destruct (heap s !! p) as [b|]; [|done]. destruct (job_finished b) as [st b'].
  change (with_heap (<[p := b']> (heap s)) (quitting J ev s)) with (quitting J ev (with_heap (<[p := b']> (heap s)) s)).
  cbv zeta. set (s1 := with_heap _ s). destruct (bs_state st).
  - intros [= <-]. exists []. split_and!; [done|constructor|done].
  - destruct (bs_thread st =? -1); [|destruct (0 <? bs_thread st)].
    + intros [= <-]. exists [ev_delete p; ev_completion p]. split_and!; [|by repeat constructor|].
      * apply (clear_job_logs tagged w r p (log_event (ev_completion p) s1)).
      * change (log_event (ev_completion p) (quitting J ev s1)) with (quitting J (ev_completion p :: ev) (log_event (ev_completion p) s1)).
        by rewrite quitting_clear_job.
    + intros E. exists []. split_and!; [by apply push_tagged_logs in E|constructor|by apply quitting_push_tagged].
    + intros [= <-]. exists []. split_and!; [by destruct (is_reply_job r)|constructor|by destruct (is_reply_job r)].
  - intros [= <-]. exists [ev_delete p]. rewrite quitting_clear_job. split_and!; [apply (clear_job_logs tagged w r p s1)|by repeat constructor|done].
Qed.

(** What still comes in is queued as by a running proxy. *)
Lemma quitting_queue_jobs p k ts ev s s' : queue_jobs p k ts s = Ok s' → queue_jobs p k ts (quitting J ev s) = Ok (quitting J ev s').
Proof.
  revert k s. induction ts as [|t ts IH]; intros k s; cbn [queue_jobs]; [by intros [= <-]|]. destruct (0 <? t).
  - intros E. inv_bind. match goal with E1 : push_tagged _ _ _ = _ |- _ => rewrite (quitting_push_tagged _ _ _ _ _ E1) end. by apply IH.
  - intros E. cbn [mbind outcome_bind] in E |- *.
    change (push_job false (p, Z.of_nat k) (quitting J ev s)) with (quitting J ev (push_job false (p, Z.of_nat k) s)). by apply IH.
Qed.

Lemma quitting_batch p ev s s' : proxy_batch p s = Ok s' → proxy_batch p (quitting J ev s) = Ok (quitting J ev s').
Proof.
  unfold proxy_batch. change (heap (quitting J ev s)) with (heap s). destruct (heap s !! p) as [b|]; [|done]. cbv zeta.
  destruct (batch_size b) as [n tagged]. intros E. inv_bind. injection E as <-.
  change (with_batches ({[p]} ∪ batches (quitting J ev s)) (quitting J ev s)) with (quitting J ev (with_batches ({[p]} ∪ batches s) s)).
  destruct tagged; match goal with E1 : queue_jobs _ _ _ _ = _ |- _ => by rewrite (quitting_queue_jobs _ _ _ _ _ _ E1) end.
Qed.

(** A report is handled as by a running proxy, and answered with [QUIT]. *)
Lemma quitting_worker_ran tagged w rt ev s s' :
  worker_ran tagged w rt s = Ok s' → max_workers s ≠ 0 →
  ∃ k, logs k s s' ∧ Forall inert k ∧
    worker_ran tagged w rt (quitting J ev s) = Ok (quitting J (ev_quit rt :: k ++ ev) s').
Proof.
  unfold worker_ran. rewrite quitting_get_run. destruct (get_run tagged w s) as [run|]; [|done]. cbn [fmap option_fmap option_map].
  assert (is_batch_job (mark J tagged w run) = is_batch_job run ∧ to_run (mark J tagged w run) = to_run run ∧ cat (mark J tagged w run) = cat run)
    as (-> & -> & ->) by (unfold mark; by case_decide).
  intros E Hmax. inv_bind. rename a into s1. match goal with |- context [worker_ran] => idtac | |- ∃ k, _ ∧ _ ∧ mbind _ ?first = _ =>
    assert (∃ k, logs k s s1 ∧ Forall inert k ∧ first = Ok (quitting J (k ++ ev) s1)) as (k & (Hk & Hm & Hn) & Hi & ->) end.
  { destruct (is_batch_job run).
    - inv_bind. rename a into s2. pose proof (release_slot_logs _ _ _ _ _ E1) as (H1 & H2 & H3). rewrite (quitting_release _ _ _ _ _ _ E1).
      cbn [mbind outcome_bind]. destruct (to_run run) as [|[p|]|]; try done.
      destruct (quitting_batch_job_ran tagged w run p ev s2 s1 E0) as (k & (Hk & Hm & Hn) & Hi & ->). exists k. split_and!; [|done|done].
      split_and!; [by rewrite Hk, H1|congruence..].
    - change (cats (quitting J ev s)) with (cats s). destruct (cats s !! cat run) as [c|] eqn:Ec; [|done]. destruct (0 <? _); [|done].
      unfold update_cat in *. change (cats (quitting J ev s)) with (cats s). rewrite Ec in *. injection E0 as <-. exists [].
      split_and!; [done|constructor|done]. }
  cbn [mbind outcome_bind]. change (max_workers (quitting J (k ++ ev) s1)) with 0. cbn [Z.eqb].
  rewrite Hm in E. destruct (max_workers s =? 0) eqn:Ez; [lia|]. exists k. destruct tagged; injection E as <-; done.
Qed.
End view.

(** ** [QUIT] *)

(** The workers that have nothing to do, in the order they are told. *)
Fixpoint free_tagged (k : nat) (l : list (run_info * bool * list batch_job)) : list (bool * nat) :=
  match l with
  | [] => []
  | x :: l => if x.1.2 then free_tagged (S k) l else (true, k) :: free_tagged (S k) l
  end.
Definition to_quit (s : sched) : list (bool * nat) := ((λ w, (false, w)) <$> rev (idle_workers s)) ++ free_tagged 0 (tagged_workers s).
Definition quit_event (i : bool * nat) : event := ev_quit (routing_id i.1 i.2).

Lemma elem_of_free_tagged i k l :
  i ∈ free_tagged k l ↔ ∃ j r q, i = (true, (k + j)%nat) ∧ l !! j = Some (r, false, q).
Proof.
  revert k. induction l as [|[[r b] q] l IH]; intros k; cbn [free_tagged fst snd].
  { split; [by intros ?%elem_of_nil|]. by intros (j & r & q & _ & ?). }
  assert ((∃ j r0 q0, i = (true, (S k + j)%nat) ∧ l !! j = Some (r0, false, q0)) ↔
    ∃ j r0 q0, i = (true, (k + j)%nat) ∧ (j ≠ 0)%nat ∧ ((r, b, q) :: l) !! j = Some (r0, false, q0)) as Hs.
  { split.
    - intros (j & r0 & q0 & -> & Hj). exists (S j), r0, q0. split_and!; [f_equal; lia|lia|done].
    - intros ([|j] & r0 & q0 & -> & Hj & Hl); [done|]. exists j, r0, q0. split; [f_equal; lia|done]. }
  destruct b; rewrite ?elem_of_cons, IH, Hs; split.
  - intros (j & r0 & q0 & -> & _ & Hl). by eauto.
  - intros ([|j] & r0 & q0 & -> & Hl); [done|]. exists (S j), r0, q0. split_and!; [done|lia|done].
  - intros [->|(j & r0 & q0 & -> & _ & Hl)]; [|by eauto]. exists 0%nat, r, q. split; [f_equal; lia|done].
  - intros ([|j] & r0 & q0 & -> & Hl); [left; f_equal; lia|right]. exists (S j), r0, q0. split_and!; [done|lia|done].
Qed.

Lemma free_tagged_NoDup k l : NoDup (free_tagged k l).
Proof.
  revert k. induction l as [|[[r b] q] l IH]; intros k; cbn; [constructor|]. destruct b; [apply IH|]. apply NoDup_cons. split; [|apply IH].
  intros (j & r0 & q0 & [= E] & _)%elem_of_free_tagged. lia.
Qed.

Lemma elem_of_rev {A} (x : A) l : x ∈ rev l ↔ x ∈ l.
Proof. by rewrite <-(Permutation_rev l). Qed.

Lemma fmap_rev {A C} (f : A → C) l : f <$> rev l = rev (f <$> l).
Proof. induction l as [|x l IH]; [done|]. cbn [rev]. rewrite fmap_app, IH. done. Qed.

Lemma to_quit_spec s i : ids_ok s → (i ∈ to_quit s ↔ worker_exists s i ∧ busy_in s i = 0) ∧ NoDup (to_quit s).
Proof.
  intros [_ _ [Hnd Hid]]. unfold to_quit. split.
  - rewrite elem_of_app, list_elem_of_fmap, elem_of_free_tagged. setoid_rewrite elem_of_rev. unfold worker_exists, busy_in.
    destruct i as [[] w]; cbn [fst snd]; split.
    + intros [(v & [=] & _)|(j & r & q & [= ->] & Hj)]. cbn. rewrite Hj. split; [by eapply lookup_lt_Some|done].
    + intros [Hw Hb]. right. destruct (lookup_lt_is_Some_2 _ _ Hw) as [[[r b] q] Ew]. rewrite Ew in Hb. destruct b; [done|]. by exists w, r, q.
    + intros [(v & [= ->] & Hv)|(j & r & q & [=] & _)]. split; [by apply Hid|]. rewrite decide_False; [done|]. tauto.
    + intros [Hw Hb]. left. exists w. split; [done|]. case_decide as Hc; [done|]. destruct (decide (w ∈ idle_workers s)); [done|tauto].
  - apply NoDup_app. split_and!; [|intros j|apply free_tagged_NoDup].
    + apply NoDup_fmap_2; [by intros ? ? [=]|]. by rewrite <-(Permutation_rev (idle_workers s)).
    + intros (v & -> & _)%list_elem_of_fmap (k & r & q & [=] & _)%elem_of_free_tagged.
Qed.

Lemma quit_idle l s :
  (∀ w, w ∈ l → ∃ x, workers s !! w = Some x ∧ worker_routing_id x = routing_id false w) →
  foldl (λ s w, match workers s !! w with Some x => log_event (ev_quit (worker_routing_id x)) s | None => s end) s l
  = with_events (rev (quit_event <$> ((λ w, (false, w)) <$> l)) ++ events s) s.
Proof.
  revert s. induction l as [|w l IH]; intros s Hl; cbn [foldl fmap list_fmap rev]; [by destruct s|].
  destruct (Hl w) as (x & -> & ->); [by left|]. rewrite IH; [|intros v Hv; apply Hl; by right]. cbn. by rewrite <-app_assoc.
Qed.

Lemma quit_tagged k l s :
  (∀ j r b q, l !! j = Some (r, b, q) → worker_routing_id r = routing_id true (k + j)) →
  foldl (λ s x, if (x.1.2 : bool) then s else log_event (ev_quit (worker_routing_id x.1.1)) s) s l
  = with_events (rev (quit_event <$> free_tagged k l) ++ events s) s.
Proof.
  revert k s. induction l as [|[[r b] q] l IH]; intros k s Hl; cbn [foldl free_tagged fst snd]; [by destruct s|].
  assert (∀ j r b q, l !! j = Some (r, b, q) → worker_routing_id r = routing_id true (S k + j)) as Hl'.
  { intros j r0 b0 q0 Hj. rewrite (Hl (S j) r0 b0 q0 Hj). f_equal. lia. }
  destruct b; [by apply IH|]. rewrite (IH (S k)) by done. cbn [fmap list_fmap rev]. rewrite (Hl 0%nat r false q eq_refl), Nat.add_0_r.
  cbn. by rewrite <-app_assoc.
Qed.

Lemma quit_command_view s : ids_ok s → proxy_quit_command s = quitting ∅ (rev (quit_event <$> to_quit s) ++ events s) s.
Proof.
  intros [H1 H2 [_ H3]]. unfold proxy_quit_command. cbv zeta. rewrite quit_idle.
  2:{ intros w Hw. apply (proj1 (elem_of_rev _ _)) in Hw. destruct (lookup_lt_is_Some_2 _ _ (H3 w Hw)) as [x Hx]. exists x. split; [done|]. by apply H1. }
  rewrite (quit_tagged 0).
  2:{ intros j r b q Hj. apply (H2 j r b q Hj). }
  unfold quitting, to_quit. rewrite fmap_app, rev_app_distr, <-app_assoc.
  assert (∀ (l : list run_info), imap (mark ∅ false) l = l) as E1.
  { intros l. apply list_eq. intros j. rewrite list_lookup_imap. unfold mark. destruct (l !! j); cbn; [|done]. by rewrite decide_False by set_solver. }
  assert (∀ (l : list (run_info * bool * list batch_job)), imap (λ w x, (mark ∅ true w x.1.1, x.1.2, x.2)) l = l) as E2.
  { intros l. apply list_eq. intros j. rewrite list_lookup_imap. unfold mark. destruct (l !! j) as [[[]]|]; cbn; [|done].
    by rewrite decide_False by set_solver. }
  rewrite E1, E2. ss. by destruct s.
Qed.

(** ** Threads and proxy while they close *)
Definition quit_system (y : wsys) : wsys :=
  let (t, s) := ws_proxy y in
  let s' := proxy_quit_command s in
  mkWsys (t, s') (deliver_new s s' (ws_threads y)) (ws_reports y).

(** The threads go on, and the proxy takes their reports and goes on calling
    [proxy_process_queue]. *)
Definition closing_step (st : wstep) : Prop :=
  match st with st_proxy (ti_sched in_process) => True | st_proxy _ => False | _ => True end.

(** What may still come in from outside: timers are set, cancelled and fire, and batches
    and jobs are handed over.  Commands and injected tasks are not among it: they may be
    dispatched, see [quit_overflows_workers]. *)
Definition arriving (i : timed_input) : bool :=
  match i with
  | ti_add _ _ _ _ _ _ | ti_del _ | ti_fire _ _ | ti_sched (in_batch _ _ | in_job _ _ _ | in_reply _ _) => true
  | ti_sched _ => false
  end.

Inductive quit_reach (c : thread_config) (cs : gmap bytes category) (tagged : list (run_info * bool * list batch_job)) : wsys → Prop :=
  | quit_start y : wsys_reach c cs tagged y → quit_reach c cs tagged (quit_system y)
  | quit_next st y y' a : quit_reach c cs tagged y → closing_step st → wsys_step st y = Ok (y', a) → quit_reach c cs tagged y'
  | quit_arrives i y y' a : quit_reach c cs tagged y → arriving i = true → timed_enabled i (ws_proxy y) →
      wsys_step (st_proxy i) y = Ok (y', a) → quit_reach c cs tagged y'.

(** The steps still to come. *)
Definition phase_rank (ph : wphase) : nat :=
  match ph with ph_wait_start => 2 | ph_start => 1 | ph_wait_run => 0 | ph_work => 4 | ph_gone => 0 end.
Definition msg_rank (m : list bytes) : nat :=
  if decide (m = [B "RUN"]) then 5 else if decide (m = [B "QUIT"]) then 2 else 0.
Definition report_rank (m : list bytes) : nat :=
  match m with
  | [_; c] => if bytes_eqb c (B "RAN") then 3 else if bytes_eqb c (B "QUITTING") then 1 else 0
  | _ => 0
  end.
Definition thread_rank (x : wthread) : nat := (phase_rank (wt_phase x) + ranks msg_rank (wt_inbox x))%nat.
Definition threads_rank (th : gmap bytes wthread) : nat := map_ranks thread_rank th.
Definition to_come (y : wsys) : nat := (threads_rank (ws_threads y) + ranks report_rank (ws_reports y))%nat.

(** Where a worker is: it waits, with something on its way ([RUN], [QUIT], or its own
    [RAN]), works, has said that it quits, or is joined. *)
Inductive pending : Type := pd_run | pd_quit | pd_ran.
Inductive closing : Type := cl_waiting (p : pending) | cl_work | cl_quitting | cl_joined.

Definition closing_busy (c : closing) : Z :=
  match c with cl_waiting pd_quit | cl_quitting | cl_joined => 0 | _ => 1 end.
Definition pending_inbox (p : pending) : list (list bytes) :=
  match p with pd_run => [[B "RUN"]] | pd_quit => [[B "QUIT"]] | pd_ran => [] end.
Definition closing_reports (rt : bytes) (c : closing) : list (list bytes) :=
  match c with cl_waiting pd_ran => [[rt; B "RAN"]] | cl_quitting => [[rt; B "QUITTING"]] | _ => [] end.
Definition closing_thread (c : closing) (x : wthread) : Prop :=
  match c with
  | cl_waiting p =>
      match wt_phase x with
      | ph_wait_start => wt_inbox x = [B "START"] :: pending_inbox p
      | ph_start | ph_wait_run => wt_inbox x = pending_inbox p
      | _ => False
      end
  | cl_work => wt_phase x = ph_work ∧ wt_inbox x = []
  | cl_quitting | cl_joined => wt_phase x = ph_gone ∧ wt_inbox x = []
  end.

Definition reports_of (rt : bytes) (rs : list (list bytes)) : list (list bytes) := filter (λ m, head m = Some rt) rs.

Definition worker_closing (J : gset (bool * nat)) (s : sched) (th : gmap bytes wthread) (rs : list (list bytes)) (i : bool * nat) : Prop :=
  ∃ x c, th !! routing_id i.1 i.2 = Some x ∧ wt_tagged x = i.1 ∧ wt_index x = i.2 ∧ closing_thread c x ∧
    reports_of (routing_id i.1 i.2) rs = closing_reports (routing_id i.1 i.2) c ∧ busy_in s i = closing_busy c ∧ (i ∈ J ↔ c = cl_joined).

Lemma route_inj (i j : bool * nat) : routing_id i.1 i.2 = routing_id j.1 j.2 → i = j.
Proof. destruct i, j. cbn. apply routing_id_inj. Qed.

Lemma worker_closing_frame J J' s s' th th' rs rs' i :
  worker_closing J s th rs i → th' !! routing_id i.1 i.2 = th !! routing_id i.1 i.2 →
  reports_of (routing_id i.1 i.2) rs' = reports_of (routing_id i.1 i.2) rs → busy_in s' i = busy_in s i → (i ∈ J' ↔ i ∈ J) →
  worker_closing J' s' th' rs' i.
Proof. intros (x & c & H1 & H2 & H3 & H4 & H5 & H6 & H7) E1 E2 E3 E4. exists x, c. rewrite E1, E2, E3, E4. done. Qed.

Lemma reports_of_app rt l l' : reports_of rt (l ++ l') = reports_of rt l ++ reports_of rt l'.
Proof. unfold reports_of. apply filter_app. Qed.

Lemma reports_of_own rt c rs : reports_of rt ((rt :: c) :: rs) = (rt :: c) :: reports_of rt rs.
Proof. unfold reports_of. by rewrite filter_cons_True. Qed.

Lemma reports_of_other rt rt' c rs : rt ≠ rt' → reports_of rt ((rt' :: c) :: rs) = reports_of rt rs.
Proof. intros Hne. unfold reports_of. rewrite filter_cons_False; [done|]. cbn. congruence. Qed.

Section closing.
Context (names : list bytes) (res : kind → Z) (gen : Z).
Context (Hnames : NoDup names) (Hres : ∀ k, 0 <= res k) (Hgen : 0 < gen) (Hslots : slots (kinds names) res gen < 2 ^ 31).

Record quit_ok (J : gset (bool * nat)) (ev : list event) (s : sched) (y : wsys) : Prop := {
  qk_view : (ws_proxy y).2 = quitting J ev s;
  qk_timed : timed_ok names res gen ((ws_proxy y).1, s);
  qk_tagged : Z.of_nat (length (tagged_workers s)) < 2 ^ 31;
  qk_workers i : worker_exists s i → worker_closing J s (ws_threads y) (ws_reports y) i;
  qk_threads rt x : ws_threads y !! rt = Some x → ∃ i, worker_exists s i ∧ rt = routing_id i.1 i.2;
  qk_reports m : m ∈ ws_reports y → ∃ i c, worker_exists s i ∧ m = [routing_id i.1 i.2; c];
  qk_joined i : i ∈ J → worker_exists s i
}.

(** A thread's step: the others are not concerned. *)
Lemma quit_thread_step J ev s t th rs i x x' c' rs' :
  quit_ok J ev s (mkWsys (t, quitting J ev s) th rs) → worker_exists s i → th !! routing_id i.1 i.2 = Some x →
  wt_tagged x' = i.1 → wt_index x' = i.2 → closing_thread c' x' →
  (∀ m, m ∈ rs' → ∃ c, m = [routing_id i.1 i.2; c]) →
  reports_of (routing_id i.1 i.2) (rs ++ rs') = closing_reports (routing_id i.1 i.2) c' → busy_in s i = closing_busy c' → (i ∈ J ↔ c' = cl_joined) →
  quit_ok J ev s (mkWsys (t, quitting J ev s) (<[routing_id i.1 i.2 := x']> th) (rs ++ rs')).
Proof.
  intros [H1 H2 H3 H4 H5 H6 H7] Hi Hx E1 E2 Hc Hrs Hr Hb HJ. split; cbn [ws_proxy ws_threads ws_reports fst snd] in *; try done.
  - intros j Hj. destruct (decide (j = i)) as [->|Hne].
    + exists x', c'. rewrite lookup_insert_eq. done.
    + assert (routing_id i.1 i.2 ≠ routing_id j.1 j.2) as Hne' by (intros E; apply route_inj in E; done).
      eapply worker_closing_frame; [by apply H4|by rewrite lookup_insert_ne| |done|done].
      rewrite reports_of_app. assert (reports_of (routing_id j.1 j.2) rs' = []) as ->; [|by rewrite app_nil_r].
      clear -Hrs Hne'. induction rs' as [|m rs' IH]; [done|]. destruct (Hrs m) as [c ->]; [by left|].
      rewrite reports_of_other by done. apply IH. intros m' Hm'. apply Hrs. by right.
  - intros rt z [(<- & _)|(_ & Hz)]%lookup_insert_Some; [by eauto|by eapply H5].
  - intros m [Hm|Hm]%elem_of_app; [by apply H6|]. destruct (Hrs m Hm) as [c ->]. by eauto.
Qed.

(** The worker a thread belongs to. *)
Lemma quit_thread J ev s t th rs rt x :
  quit_ok J ev s (mkWsys (t, quitting J ev s) th rs) → th !! rt = Some x →
  ∃ i c, rt = routing_id i.1 i.2 ∧ worker_exists s i ∧ wt_tagged x = i.1 ∧ wt_index x = i.2 ∧ closing_thread c x ∧
    reports_of rt rs = closing_reports rt c ∧ busy_in s i = closing_busy c ∧ (i ∈ J ↔ c = cl_joined).
Proof.
  intros Hq Hx. destruct (qk_threads _ _ _ _ Hq rt x Hx) as (i & Hi & ->).
  destruct (qk_workers _ _ _ _ Hq i Hi) as (x' & c & Hx' & H1 & H2 & H3 & H4 & H5 & H6). cbn [ws_threads ws_reports] in *.
  rewrite Hx in Hx'. injection Hx' as <-. by exists i, c.
Qed.

(** A step that does something brings the end one step closer. *)
Definition closes (J : gset (bool * nat)) (ev : list event) (s : sched) (y y' : wsys) : Prop :=
  y' = y ∨ (∃ J' ev' s', quit_ok J' ev' s' y') ∧ to_come y = S (to_come y').

Lemma to_come_thread t p th rs rt x x' rs' :
  th !! rt = Some x → thread_rank x = (S (thread_rank x') + ranks report_rank rs')%nat →
  to_come (mkWsys (t, p) th rs) = S (to_come (mkWsys (t, p) (<[rt := x']> th) (rs ++ rs'))).
Proof using Type.
  clear. intros Hx E. unfold to_come, threads_rank. cbn [ws_threads ws_reports]. rewrite ranks_app. pose proof (map_ranks_insert thread_rank rt x x' th Hx). lia.
Qed.

Lemma quit_recv J ev s y rt :
  quit_ok J ev s y → ∃ y', wsys_step (st_recv rt) y = Ok (y', None) ∧ closes J ev s y y'.
Proof.
  intros Hq. destruct y as [[t sq] th rs]. assert (sq = quitting J ev s) as -> by apply (qk_view _ _ _ _ Hq).
  cbn [wsys_step ws_proxy ws_threads ws_reports]. destruct (th !! rt) as [x|] eqn:Hx; [|by eexists; split; [|left]]. cbn [mbind option_bind].
  destruct (quit_thread _ _ _ _ _ _ _ _ Hq Hx) as (i & c & -> & Hi & E1 & E2 & Hc & Hr & Hb & HJ). unfold worker_recv.
  destruct (wt_inbox x) as [|m rest] eqn:Ein; [by eexists; split; [|left]|].
  destruct c as [p| | |]; cbn [closing_thread] in Hc; [|by destruct Hc as [_ Hc]; rewrite Ein in Hc..].
  destruct (wt_phase x) eqn:Eph; rewrite ?Ein in Hc; try done; [|by eexists; split; [|left]|].
  - injection Hc as -> ->. cbn [worker_wait_for]. rewrite bytes_eqb_refl. eexists. split; [done|]. right. split.
    + exists J, ev, s. apply (quit_thread_step J ev s t th rs i x (with_phase ph_start (with_inbox (pending_inbox p) x)) (cl_waiting p)); try done.
      * by intros m Hm%elem_of_nil.
      * by rewrite app_nil_r.
    + apply (to_come_thread t _ th rs _ x); [done|]. unfold thread_rank. rewrite Eph, Ein. by destruct p; vm_compute.
  - destruct p; cbn [pending_inbox] in Hc; [injection Hc as -> ->|injection Hc as -> ->|done].
    + cbn [worker_wait_for]. rewrite bytes_eqb_refl. eexists. split; [done|]. right. split.
      * exists J, ev, s. apply (quit_thread_step J ev s t th rs i x (with_phase ph_work (with_inbox [] x)) cl_work); try done.
        -- by intros m Hm%elem_of_nil.
        -- by rewrite app_nil_r.
        -- by rewrite HJ.
      * apply (to_come_thread t _ th rs _ x); [done|]. unfold thread_rank. rewrite Eph, Ein. vm_compute. done.
    + change (worker_wait_for (B "RUN") [B "QUIT"]) with wait_quit. cbv iota. eexists. split; [done|]. right. split.
      * exists J, ev, s. apply (quit_thread_step J ev s t th rs i x (with_phase ph_gone (with_inbox [] x)) cl_quitting); try done.
        -- intros m Hm. apply list_elem_of_singleton in Hm as ->. by eexists.
        -- rewrite reports_of_app, Hr. cbn [closing_reports app fmap list_fmap]. by rewrite reports_of_own.
        -- by rewrite HJ.
      * apply (to_come_thread t _ th rs _ x); [done|]. unfold thread_rank. rewrite Eph, Ein. vm_compute. done.
Qed.

Lemma quit_start_step J ev s y rt :
  quit_ok J ev s y → ∃ y', wsys_step (st_start rt) y = Ok (y', None) ∧ closes J ev s y y'.
Proof.
  intros Hq. destruct y as [[t sq] th rs]. assert (sq = quitting J ev s) as -> by apply (qk_view _ _ _ _ Hq).
  cbn [wsys_step ws_proxy ws_threads ws_reports]. destruct (th !! rt) as [x|] eqn:Hx; [|by eexists; split; [|left]].
  destruct (decide _) as [Eph|]; [|by eexists; split; [|left]]. eexists. split; [done|]. right.
  destruct (quit_thread _ _ _ _ _ _ _ _ Hq Hx) as (i & c & -> & Hi & E1 & E2 & Hc & Hr & Hb & HJ).
  destruct c as [p| | |]; cbn [closing_thread] in Hc; [|by destruct Hc; congruence..]. rewrite Eph in Hc. split.
  - exists J, ev, s. rewrite <-(app_nil_r rs). apply (quit_thread_step J ev s t th rs i x (with_phase ph_wait_run x) (cl_waiting p)); try done.
    + by intros m Hm%elem_of_nil.
    + by rewrite app_nil_r.
  - rewrite <-(app_nil_r rs) at 2. apply (to_come_thread t _ th rs _ x); [done|]. unfold thread_rank. rewrite Eph. cbn [with_phase wt_phase wt_inbox phase_rank].
    change (ranks report_rank []) with 0%nat. lia.
Qed.

Lemma mark_out J i r : i ∉ J → mark J i.1 i.2 r = r.
Proof using Type. clear. intros Hi. unfold mark. rewrite decide_False; [done|]. by destruct i. Qed.

Lemma quit_work J ev s y rt :
  quit_ok J ev s y → ∃ y' a, wsys_step (st_work rt) y = Ok (y', a) ∧ closes J ev s y y'.
Proof.
  intros Hq. destruct y as [[t sq] th rs]. assert (sq = quitting J ev s) as -> by apply (qk_view _ _ _ _ Hq).
  cbn [wsys_step ws_proxy ws_threads ws_reports]. destruct (th !! rt) as [x|] eqn:Hx; [|by eexists _, _; split; [|left]].
  destruct (decide _) as [Eph|]; [|by eexists _, _; split; [|left]].
  destruct (quit_thread _ _ _ _ _ _ _ _ Hq Hx) as (i & c & -> & Hi & E1 & E2 & Hc & Hr & Hb & HJ).
  destruct c as [p| | |]; cbn [closing_thread] in Hc; [by rewrite Eph in Hc| |by destruct Hc; congruence..]. destruct Hc as [_ Ein].
  assert (i ∉ J) as HnJ by (intros HiJ; by apply HJ in HiJ). rewrite E1, E2, quitting_get_run.
  destruct (proj1 (worker_exists_run s i.1 i.2)) as [run Hg]; [by destruct i|]. rewrite Hg. cbn [fmap option_fmap option_map].
  rewrite mark_out by done.
  assert (load_ok run) as Hl.
  { apply (ld_run _ (to_loads _ _ _ _ (qk_timed _ _ _ _ Hq)) i.1 i.2); [|done]. by destruct i. }
  unfold worker_iteration. destruct (worker_work_ok run (wt_message x) Hl) as (a & m & ->). cbn [mbind outcome_bind].
  eexists _, _. split; [done|]. right. split.
  - exists J, ev, s. apply (quit_thread_step J ev s t th rs i x (mkThread (wt_tagged x) (wt_index x) ph_wait_run (wt_inbox x) m) (cl_waiting pd_ran)); try done.
    + intros m' Hm. apply list_elem_of_singleton in Hm as ->. by eexists.
    + rewrite reports_of_app, Hr. cbn [closing_reports app fmap list_fmap]. by rewrite reports_of_own.
  - apply (to_come_thread t _ th rs _ x); [done|]. unfold thread_rank. rewrite Eph, Ein. vm_compute. done.
Qed.

Lemma quitting_route (i : bool * nat) J ev s :
  worker_exists s i → Z.of_nat (S i.2) < 2 ^ 32 → parse_route (quitting J ev s) (routing_id i.1 i.2) = Ok (Some i).
Proof using Type.
  clear. intros Hi Hlt. rewrite (parse_route_id i.1); [by destruct i| |done]. unfold worker_exists, quitting in *. cbn. by rewrite !length_imap.
Qed.

(** The messages of other workers than the one whose report is taken. *)
Lemma reports_of_rest (i j : bool * nat) c rs :
  j ≠ i → reports_of (routing_id j.1 j.2) rs = reports_of (routing_id j.1 j.2) ([routing_id i.1 i.2; c] :: rs).
Proof using Type. clear. intros Hne. rewrite reports_of_other; [done|]. intros E. by apply route_inj in E. Qed.

Lemma deliver_inert k th : Forall inert k → foldr deliver th k = th.
Proof using Type. clear. induction 1 as [|e k He _ IH]; [done|]. cbn. rewrite IH. by destruct e. Qed.

Lemma completions_quit e k : (∀ p, e ≠ ev_completion p) → completions (e :: k) = completions k.
Proof using Type.
  clear. intros He. unfold completions. cbn [rev]. rewrite omap_app. cbn. destruct e; rewrite ?app_nil_r; try done. by destruct (He p).
Qed.

Lemma quit_ran_state J ev s s' t t' th rs i k :
  quit_ok J ev s (mkWsys (t, quitting J ev s) th ([routing_id i.1 i.2; B "RAN"] :: rs)) → worker_exists s i →
  timed_ok names res gen (t', s') → (∀ j, busy_in s' j = busy_in s j - if decide (j = i) then 1 else 0) →
  length (tagged_workers s') = length (tagged_workers s) → (∀ j, worker_exists s' j ↔ worker_exists s j) →
  let y' := mkWsys (t', quitting J k s') (post (B "QUIT") (routing_id i.1 i.2) th) rs in
  quit_ok J k s' y' ∧ to_come (mkWsys (t, quitting J ev s) th ([routing_id i.1 i.2; B "RAN"] :: rs)) = S (to_come y').
Proof using Type.
  clear -names. intros Hq Hi Ht Hbs Hl Hex y'. destruct (qk_workers _ _ _ _ Hq i Hi) as (x & c & Hx & E1 & E2 & Hc & Hr & Hb & HJ).
  cbn [ws_threads ws_reports] in *. rewrite reports_of_own in Hr.
  assert (c = cl_waiting pd_ran ∧ reports_of (routing_id i.1 i.2) rs = []) as [-> Hrs].
  { destruct c as [[]| | |]; try done. injection Hr as Hr. by split. }
  assert (post (B "QUIT") (routing_id i.1 i.2) th = <[routing_id i.1 i.2 := with_inbox (wt_inbox x ++ [[B "QUIT"]]) x]> th) as Ep.
  { unfold post. rewrite <-(insert_id _ _ _ Hx) at 1. by rewrite alter_insert_eq. }
  subst y'. rewrite Ep. split.
  - destruct Hq as [H1 H2 H3 H4 H5 H6 H7]. split; cbn [ws_proxy ws_threads ws_reports fst snd] in *; try done; [by rewrite Hl| | | |].
    + intros j Hj%Hex. destruct (decide (j = i)) as [->|Hne].
      * exists (with_inbox (wt_inbox x ++ [[B "QUIT"]]) x), (cl_waiting pd_quit). rewrite lookup_insert_eq. split_and!; try done.
        -- cbn [closing_thread] in *. cbn [with_inbox wt_phase wt_inbox]. destruct (wt_phase x); try done; by rewrite Hc.
        -- rewrite Hbs, Hb, decide_True by done. done.
        -- by rewrite HJ.
      * eapply worker_closing_frame; [by apply H4| |by apply reports_of_rest|rewrite Hbs, decide_False by done; lia|done].
        rewrite lookup_insert_ne; [done|]. intros E. by apply route_inj in E.
    + intros rt z [(<- & _)|(_ & Hz)]%lookup_insert_Some; [exists i; by rewrite Hex|]. destruct (H5 rt z Hz) as (j & Hj & ->). exists j. by rewrite Hex.
    + intros m Hm. destruct (H6 m) as (j & c & Hj & ->); [by right|]. exists j, c. by rewrite Hex.
    + intros j Hj. rewrite Hex. by apply H7.
  - unfold to_come, threads_rank. cbn [ws_threads ws_reports]. pose proof (map_ranks_insert thread_rank _ _ (with_inbox (wt_inbox x ++ [[B "QUIT"]]) x) th Hx) as Hk.
    unfold thread_rank at 2 4 in Hk. cbn [with_inbox wt_phase wt_inbox] in Hk. rewrite ranks_app in Hk.
    change (ranks msg_rank [[B "QUIT"]]) with 2%nat in Hk.
    change (ranks report_rank ([routing_id i.1 i.2; B "RAN"] :: rs)) with (3 + ranks report_rank rs)%nat. lia.
Qed.

Lemma route_bound J ev s y i : quit_ok J ev s y → worker_exists s i → Z.of_nat (S i.2) < 2 ^ 32.
Proof using Hslots.
  intros Hq Hi. unfold worker_exists in Hi. destruct i as [[] w]; cbn [fst snd] in *; [pose proof (qk_tagged _ _ _ _ Hq); lia|].
  destruct (inv_acct _ _ _ _ (to_inv _ _ _ _ (qk_timed _ _ _ _ Hq))) as [Hc _]. cbn [snd] in Hc.
  pose proof (pool_size _ _ _ (a_pool _ _ _ _ _ Hc)). pose proof (a_cap _ _ _ _ _ Hc). lia.
Qed.

(** A running proxy's [RAN], seen while it quits. *)
Lemma quit_ran J ev s t th rs i :
  quit_ok J ev s (mkWsys (t, quitting J ev s) th ([routing_id i.1 i.2; B "RAN"] :: rs)) → worker_exists s i → busy_in s i = 1 →
  ∃ y', wsys_step st_report (mkWsys (t, quitting J ev s) th ([routing_id i.1 i.2; B "RAN"] :: rs)) = Ok (y', None) ∧
    closes J ev s (mkWsys (t, quitting J ev s) th ([routing_id i.1 i.2; B "RAN"] :: rs)) y'.
Proof using Hnames Hres Hgen Hslots.
  intros Hq Hi Hb. pose proof (qk_timed _ _ _ _ Hq) as Ht. cbn [ws_proxy fst] in Ht. pose proof (to_inv _ _ _ _ Ht) as Hinv. cbn [snd] in Hinv.
  pose proof (report_enabled i s Hb (qk_tagged _ _ _ _ Hq)) as He. destruct (ran_bound names res gen Hslots i.1 i.2 s Hinv He) as [Hw Hlt].
  destruct (timed_handle_ok names res gen Hnames Hres Hgen Hslots (in_ran i.1 i.2) t s Ht He) as (t' & s' & E & Ht').
  unfold timed_handle in E. rewrite handle_ran in E by done. inv_bind. injection E as <- <-. rename a into s'.
  assert (max_workers s ≠ 0) as Hmax.
  { rewrite (a_max _ _ _ _ _ (proj1 (inv_acct _ _ _ _ Hinv))). pose proof (slots_pos names res gen Hres Hgen). lia. }
  destruct (worker_ran_frame i.1 i.2 (routing_id i.1 i.2) s s' (to_ids _ _ _ _ Ht)) as (_ & Hbs & Hl & [Hrs _] & _);
    [done|by destruct i|apply Hinv|done|].
  destruct (quitting_worker_ran J i.1 i.2 (routing_id i.1 i.2) ev s s' E0 Hmax) as (k & (Hk & _ & Hlen) & Hin & Eq).
  cbn [wsys_step ws_proxy ws_threads ws_reports]. unfold proxy_worker_message. rewrite quitting_route by done. cbn [mbind outcome_bind].
  destruct i as [tg w]. cbn [fst snd] in *. rewrite bytes_eqb_refl, Eq. cbn [mbind outcome_bind]. eexists. split; [done|]. right.
  set (ev' := ev_quit (routing_id tg w) :: k ++ ev) in *.
  assert (new_events (quitting J ev s) (quitting J ev' s') = ev_quit (routing_id tg w) :: k) as En by by apply new_events_app.
  unfold deliver_new. rewrite En, completions_quit by done. cbn [foldr deliver]. rewrite deliver_inert by done.
  rewrite (new_events_app s s' k Hk) in Ht'.
  destruct (quit_ran_state J ev s s' t (foldl (λ t p, timer_completed p t) t (completions k)) th rs (tg, w) ev' Hq Hi Ht') as [Hq' Hc]; [done|done| |].
  - intros [t0 v]. destruct (decide ((t0, v) = (tg, w))) as [->|Hne].
    + split; [done|]. intros _. unfold worker_exists in *. cbn [fst snd] in *. destruct tg; [by rewrite Hl|by rewrite Hlen].
    + rewrite !worker_exists_run. by rewrite Hrs.
  - split; [by eauto|done].
Qed.

(** Joining. *)
Lemma imap_change {A C} (f f' : nat → A → C) l w x :
  l !! w = Some x → (∀ v y, v ≠ w → f' v y = f v y) → <[w := f' w x]> (imap f l) = imap f' l.
Proof using Type.
  clear. intros Hx Hf. rewrite <-(list_insert_id l w x Hx) at 2. rewrite imap_insert. apply list_eq. intros v. destruct (decide (v = w)) as [->|Hv].
  - apply lookup_lt_Some in Hx. by rewrite !list_lookup_insert_eq by (rewrite length_imap; lia).
  - rewrite !list_lookup_insert_ne, !list_lookup_imap by done. destruct (l !! v); cbn; [|done]. by rewrite Hf.
Qed.

Lemma quitting_join J i r ev s :
  get_run i.1 i.2 s = Some r → set_run i.1 i.2 (set_joinable false r) (quitting J ev s) = quitting ({[i]} ∪ J) ev s.
Proof using Type.
  clear. intros Hg. assert (∀ t w x, (t, w) ≠ i → mark ({[i]} ∪ J) t w x = mark J t w x) as Hm.
  { intros t w x Hne. unfold mark. erewrite (decide_ext ((t, w) ∈ {[i]} ∪ J) ((t, w) ∈ J)); [done|]. set_solver. }
  assert (∀ x, mark ({[i]} ∪ J) i.1 i.2 x = set_joinable false x) as Hi.
  { intros x. unfold mark. rewrite decide_True; [done|]. destruct i; set_solver. }
  destruct i as [tg w]. cbn [fst snd] in *. unfold set_run, get_run, quitting in *. ss. destruct tg.
  - rewrite list_lookup_imap. destruct (tagged_workers s !! w) as [[[r' b] q]|] eqn:Ew; [|done]. cbn in Hg |- *. injection Hg as ->.
    rewrite <-(imap_change (λ v x, (mark J true v x.1.1, x.1.2, x.2)) (λ v x, (mark ({[(true, w)]} ∪ J) true v x.1.1, x.1.2, x.2)) _ w _ Ew).
    + cbn [fst snd]. rewrite Hi. rewrite (imap_ext (mark ({[(true, w)]} ∪ J) false) (mark J false)); [done|]. intros v y _. by apply Hm.
    + intros v y Hv. rewrite Hm by congruence. done.
  - rewrite <-(imap_change (mark J false) (mark ({[(false, w)]} ∪ J) false) _ w r Hg) by (intros v y Hv; apply Hm; congruence).
    rewrite Hi. rewrite (imap_ext (λ v x, (mark ({[(false, w)]} ∪ J) true v x.1.1, x.1.2, x.2)) (λ v x, (mark J true v x.1.1, x.1.2, x.2))); [done|].
    intros v y _. by rewrite Hm.
Qed.

Lemma quit_quitting J ev s t th rs i :
  quit_ok J ev s (mkWsys (t, quitting J ev s) th ([routing_id i.1 i.2; B "QUITTING"] :: rs)) → worker_exists s i →
  ∃ y', wsys_step st_report (mkWsys (t, quitting J ev s) th ([routing_id i.1 i.2; B "QUITTING"] :: rs)) = Ok (y', None) ∧
    closes J ev s (mkWsys (t, quitting J ev s) th ([routing_id i.1 i.2; B "QUITTING"] :: rs)) y'.
Proof using Hnames Hres Hgen Hslots.
  intros Hq Hi. pose proof (route_bound _ _ _ _ _ Hq Hi) as Hlt. destruct (qk_workers _ _ _ _ Hq i Hi) as (x & c & Hx & E1 & E2 & Hc & Hr & Hb & HJ).
  cbn [ws_threads ws_reports] in *. rewrite reports_of_own in Hr.
  assert (c = cl_quitting ∧ reports_of (routing_id i.1 i.2) rs = []) as [-> Hrs].
  { destruct c as [[]| | |]; try done. injection Hr as Hr. by split. }
  assert (i ∉ J) as HnJ by (intros HiJ; by apply HJ in HiJ).
  destruct (proj1 (worker_exists_run s i.1 i.2)) as [run Hg]; [by destruct i|].
  assert (worker_thread run = true) as Hjoin.
  { destruct (to_ids _ _ _ _ (qk_timed _ _ _ _ Hq)) as [I1 I2 _]. cbn [snd] in *. destruct i as [[] w]; cbn [fst snd get_run] in *.
    - destruct (tagged_workers s !! w) as [[[r b] q]|] eqn:Ew; [|done]. injection Hg as ->. by apply (I2 _ _ _ _ Ew).
    - by apply (I1 _ _ Hg). }
  cbn [wsys_step ws_proxy ws_threads ws_reports]. unfold proxy_worker_message. rewrite (quitting_route i) by done. destruct i as [tg w].
  cbn [mbind outcome_bind fst snd] in *. rewrite quitting_get_run, Hg. cbn [fmap option_fmap option_map].
  rewrite (mark_out J (tg, w)), Hjoin by done. replace (bytes_eqb (B "QUITTING") (B "RAN")) with false by (vm_compute; reflexivity).
  rewrite bytes_eqb_refl, (quitting_join J (tg, w) run) by done. cbn [mbind outcome_bind]. eexists. split; [done|]. right.
  change (log_event (ev_join (routing_id tg w)) (quitting ({[(tg, w)]} ∪ J) ev s))
    with (quitting ({[(tg, w)]} ∪ J) (ev_join (routing_id tg w) :: ev) s).
  unfold deliver_new. rewrite (new_events_app _ _ [ev_join (routing_id tg w)]) by done. cbn [foldr deliver].
  change (completions [ev_join (routing_id tg w)]) with (@nil ptr). cbn [foldl]. split.
  - eexists _, _, s. destruct Hq as [H1 H2 H3 H4 H5 H6 H7]. split; cbn [ws_proxy ws_threads ws_reports fst snd] in *; try done.
    + intros j Hj. destruct (decide (j = (tg, w))) as [->|Hne].
      * exists x, cl_joined. split_and!; try done. set_solver.
      * eapply worker_closing_frame; [by apply H4|done|by apply (reports_of_rest (tg, w))|done|set_solver].
    + intros m Hm. apply H6. by right.
    + intros j [->%elem_of_singleton|Hj]%elem_of_union; [done|by apply H7].
  - unfold to_come, threads_rank. cbn [ws_threads ws_reports].
    change (ranks report_rank ([routing_id tg w; B "QUITTING"] :: rs)) with (1 + ranks report_rank rs)%nat. lia.
Qed.

Lemma quit_report J ev s y :
  quit_ok J ev s y → ∃ y', wsys_step st_report y = Ok (y', None) ∧ closes J ev s y y'.
Proof using Hnames Hres Hgen Hslots.
  intros Hq. destruct y as [[t sq] th rs]. assert (sq = quitting J ev s) as -> by apply (qk_view _ _ _ _ Hq).
  destruct rs as [|m rs]; [by eexists; split; [|left]|]. destruct (qk_reports _ _ _ _ Hq m) as (i & c & Hi & ->); [by left|].
  destruct (qk_workers _ _ _ _ Hq i Hi) as (x & cl & _ & _ & _ & _ & Hr & Hb & _). cbn [ws_reports] in Hr. rewrite reports_of_own in Hr.
  destruct cl as [[]| | |]; try done; injection Hr as -> _; [by apply quit_ran|by apply quit_quitting].
Qed.

Lemma quit_step_ok J ev s y st :
  quit_ok J ev s y → closing_step st → ∃ y' a, wsys_step st y = Ok (y', a) ∧ closes J ev s y y'.
Proof using Hnames Hres Hgen Hslots.
  intros Hq Hst. destruct st as [i| |rt|rt|rt]; [|destruct (quit_report J ev s y Hq) as (y' & E & Hc); by eexists _, _|..|by apply quit_work].
  - destruct i as [| | |[]]; try done. destruct y as [[t sq] th rs]. assert (sq = quitting J ev s) as -> by apply (qk_view _ _ _ _ Hq).
    cbn [wsys_step ws_proxy timed_step]. unfold timed_handle. cbn [handle]. unfold proxy_process_queue at 1. cbn [max_workers quitting with_max_workers with_events Z.eqb].
    cbn [mbind outcome_bind]. rewrite (new_events_app _ _ []) by done. cbn [completions omap list_omap foldl snd]. unfold deliver_new.
    rewrite (new_events_app _ _ []) by done. by eexists _, _; split; [|left].
  - destruct (quit_recv J ev s y rt Hq) as (y' & E & Hc). by eexists _, _.
  - destruct (quit_start_step J ev s y rt Hq) as (y' & E & Hc). by eexists _, _.
Qed.

(** *** Arrivals

    Only queues change: no worker is touched, nothing is signalled. *)
Record queued_only (s s' : sched) : Prop := {
  qo_events : events s' = events s;
  qo_workers : workers s' = workers s;
  qo_idle : idle_workers s' = idle_workers s;
  qo_tagged : fst <$> tagged_workers s' = fst <$> tagged_workers s
}.

Lemma queued_only_trans s1 s2 s3 : queued_only s1 s2 → queued_only s2 s3 → queued_only s1 s3.
Proof using Type. clear. intros [] []. split; congruence. Qed.

Lemma queued_only_books s s' i : queued_only s s' → busy_in s' i = busy_in s i ∧ (worker_exists s' i ↔ worker_exists s i) ∧
  length (tagged_workers s') = length (tagged_workers s).
Proof using Type.
  clear. intros [_ Hw Hi Ht]. assert (length (tagged_workers s') = length (tagged_workers s)) as Hl.
  { by rewrite <-(length_fmap fst (tagged_workers s')), Ht, length_fmap. }
  split_and!; [|unfold worker_exists; by rewrite Hl, Hw|done]. unfold busy_in. rewrite Hw, Hi. destruct i.1; [|done].
  assert (fst <$> tagged_workers s' !! i.2 = fst <$> tagged_workers s !! i.2) as E by by rewrite <-!list_lookup_fmap, Ht.
  destruct (tagged_workers s' !! i.2) as [[[]]|], (tagged_workers s !! i.2) as [[[]]|]; try done; cbn in E; by simplify_eq.
Qed.

Lemma push_tagged_queued t j s s' : push_tagged t j s = Ok s' → queued_only s s'.
Proof using Type.
  clear. unfold push_tagged. destruct (tagged_workers s !! _) as [[[r b] q]|] eqn:E; [|done]. intros [= <-]. split; try done. ss.
  rewrite list_fmap_insert. cbn. apply list_insert_id. by rewrite list_lookup_fmap, E.
Qed.

Lemma queue_jobs_queued p k ts s s' : queue_jobs p k ts s = Ok s' → queued_only s s'.
Proof using Type.
  clear. revert k s. induction ts as [|t ts IH]; intros k s; cbn [queue_jobs]; [by intros [= <-]|]. destruct (0 <? t); intros E.
  - inv_bind. eapply queued_only_trans; [by eapply push_tagged_queued|by eapply IH].
  - cbn [mbind outcome_bind] in E. apply IH in E. eapply queued_only_trans; [|exact E]. by split.
Qed.

Lemma proxy_batch_queued p s s' : proxy_batch p s = Ok s' → queued_only s s'.
Proof using Type.
  clear. unfold proxy_batch. destruct (heap s !! p) as [b|]; [|done]. cbv zeta. destruct (batch_size b) as [n tagged]. intros E. inv_bind.
  injection E as <-. assert (queued_only (with_batches ({[p]} ∪ batches s) s) a) as [] by (destruct tagged; by eapply queue_jobs_queued). by split.
Qed.

(** An arrival is handled as by a running proxy, and only queues something. *)
Lemma quitting_arrival J ev i t s t' s' effs :
  arriving i = true → timed_step i (t, s) = Ok (t', s', effs) →
  timed_step i (t, quitting J ev s) = Ok (t', quitting J ev s', effs) ∧ queued_only s s'.
Proof using Type.
  clear. intros Ha E.
  assert (∀ j s1, handle j s = Ok s1 → queued_only s s1 → handle j (quitting J ev s) = Ok (quitting J ev s1) → timed_step (ti_sched j) (t, s) = Ok (t', s', effs) →
    timed_step (ti_sched j) (t, quitting J ev s) = Ok (t', quitting J ev s', effs) ∧ queued_only s s') as Hsched.
  { intros j s1 E1 Hq E2. cbn [timed_step]. unfold timed_handle. rewrite E1, E2. cbn [mbind outcome_bind].
    rewrite (new_events_app s s1 []) by apply Hq. rewrite (new_events_app (quitting J ev s) (quitting J ev s1) []) by done. cbn [completions omap list_omap foldl rev]. intros E'. simplify_eq. done. }
  destruct i as [z id job interval squelch thread|id|p z|[p b|p f thread|p f| | | |]]; try done.
  - cbn [timed_step] in *. destruct (proxy_timer z id job interval squelch thread t) as [[t1 effs1]| | |]; try done. by injection E as <- <- <-.
  - cbn [timed_step] in *. destruct (proxy_timer_del id t) as [t1 effs1]. by injection E as <- <- <-.
  - cbn [timed_step] in *. unfold _queue_timer_job in *. destruct (timer_jobs t !! z) as [d|]; [|by injection E as <- <- <-].
    destruct (_ && _); [by injection E as <- <- <-|]. destruct (td_thread d =? -1); [by injection E as <- <- <-|].
    destruct (timer_batch d) as [b| | |]; try done. cbn [mbind outcome_bind] in *. cbv zeta in *. case_bool_decide; [|done].
    set (s1 := with_batches _ (alloc_batch p b s)) in E.
    change (with_batches _ (alloc_batch p b (quitting J ev s))) with (quitting J ev s1). destruct (0 <? td_thread d).
    + inv_bind. rewrite (quitting_push_tagged _ _ _ _ _ _ E0). cbn [mbind outcome_bind]. apply push_tagged_queued in E0 as [].
      injection E as <- <- <-. split; [done|by split].
    + cbn [mbind outcome_bind] in *. injection E as <- <- <-. split; [done|by split].
  - pose proof E as E'. cbn [timed_step] in E'. unfold timed_handle in E'. cbn [handle] in E'.
    destruct (submit_batch p b s) as [s2| | |] eqn:E2; try done. unfold submit_batch in E2. destruct (_ =? 0)%nat eqn:Ez; [done|].
    apply (Hsched (in_batch p b) s2); [cbn [handle]; unfold submit_batch; by rewrite Ez| | |done].
    + apply proxy_batch_queued in E2 as []. by split.
    + cbn [handle]. unfold submit_batch. rewrite Ez. by apply (quitting_batch J p ev (alloc_batch p b s)).
  - pose proof E as E'. cbn [timed_step] in E'. unfold timed_handle in E'. cbn [handle] in E'.
    destruct (submit_job p f thread s) as [s2| | |] eqn:E2; try done. pose proof E2 as E3. unfold submit_job in E3. case_bool_decide as Hb; [done|].
    destruct (add_job f thread new_batch) as [b| | |] eqn:Ej; try done. cbn [mbind outcome_bind] in E3.
    apply (Hsched (in_job p f thread) s2); [done| | |done].
    + apply proxy_batch_queued in E3 as []. by split.
    + cbn [handle]. unfold submit_job. rewrite bool_decide_eq_false_2, Ej by done. by apply (quitting_batch J p ev (alloc_batch p b s)).
  - by apply (Hsched (in_reply p f) (proxy_schedule_reply_job p f s)).
Qed.

Lemma arriving_enabled J ev i t s : arriving i = true → timed_enabled i (t, quitting J ev s) → timed_enabled i (t, s).
Proof using Type.
  clear. assert (length (tagged_workers (quitting J ev s)) = length (tagged_workers s)) as Hl by (unfold quitting; ss; apply length_imap).
  destruct i as [z id job interval squelch thread|id|p z|[p b|p f thread|p f| | | |]]; try done; intros _; cbn [timed_enabled enabled fst snd];
    unfold thread_id_ok; rewrite ?Hl; done.
Qed.

Lemma quit_arrival J ev s y i :
  quit_ok J ev s y → arriving i = true → timed_enabled i (ws_proxy y) →
  ∃ y' s', wsys_step (st_proxy i) y = Ok (y', None) ∧ ws_threads y' = ws_threads y ∧ ws_reports y' = ws_reports y ∧ quit_ok J ev s' y'.
Proof using Hnames Hres Hgen Hslots.
  intros Hq Ha He. destruct y as [[t sq] th rs]. assert (sq = quitting J ev s) as -> by apply (qk_view _ _ _ _ Hq). cbn [ws_proxy] in He.
  apply (arriving_enabled J ev i t s Ha) in He.
  destruct (timed_step_ok names res gen Hnames Hres Hgen Hslots i (t, s) (qk_timed _ _ _ _ Hq) He) as ([t' s'] & effs & E & Hok).
  destruct (quitting_arrival J ev i t s t' s' effs Ha E) as [E' Hqo]. cbn [wsys_step ws_proxy ws_threads ws_reports]. rewrite E'. cbn [mbind outcome_bind snd].
  unfold deliver_new. rewrite (new_events_app _ _ []) by done. cbn [foldr]. eexists _, s'. split; [done|]. split_and!; [done|done|].
  pose proof (λ i, queued_only_books s s' i Hqo) as Hb. destruct Hq as [_ _ H3 H4 H5 H6 H7].
  split; cbn [ws_proxy ws_threads ws_reports fst snd] in *; [done|done|by rewrite (proj2 (proj2 (Hb (true, 0%nat))))| | | |].
  - intros j Hj. apply (proj1 (proj2 (Hb j))) in Hj. destruct (H4 j Hj) as (x & c & Hx & Hx1 & Hx2 & Hx3 & Hx4 & Hx5 & Hx6).
    exists x, c. by rewrite (proj1 (Hb j)).
  - intros rt x Hx. destruct (H5 rt x Hx) as (j & Hj & ->). exists j. split; [|done]. by apply Hb.
  - intros m Hm. destruct (H6 m Hm) as (j & c & Hj & ->). exists j, c. split; [|done]. by apply Hb.
  - intros j Hj. by apply Hb, H7.
Qed.

(** *** The start *)
Definition told (x : wthread) : wthread := with_inbox (wt_inbox x ++ [[B "QUIT"]]) x.

Lemma deliver_quits l th i :
  NoDup l → foldr deliver th (quit_event <$> l) !! routing_id i.1 i.2
            = (if decide (i ∈ l) then told else Datatypes.id) <$> th !! routing_id i.1 i.2.
Proof using Type.
  clear. induction l as [|j l IH]; intros Hnd; cbn [fmap list_fmap foldr].
  { rewrite decide_False by set_solver. by destruct (th !! _). }
  apply NoDup_cons in Hnd as [Hj Hnd]. unfold quit_event at 1. cbn [deliver]. unfold post. destruct (decide (j = i)) as [->|Hne].
  - rewrite lookup_alter_eq, IH by done. rewrite decide_False by done. rewrite decide_True by set_solver. by destruct (th !! _).
  - rewrite lookup_alter_ne by (intros E; by apply route_inj in E). rewrite IH by done.
    erewrite (decide_ext (i ∈ l) (i ∈ j :: l)); [done|]. rewrite elem_of_cons. naive_solver.
Qed.

Lemma deliver_quits_dom l th rt x : foldr deliver th (quit_event <$> l) !! rt = Some x → is_Some (th !! rt).
Proof using Type.
  clear. revert x. induction l as [|j l IH]; intros x; cbn [fmap list_fmap foldr]; [by eauto|]. unfold quit_event at 1. cbn [deliver]. unfold post.
  rewrite lookup_alter_Some. intros [(_ & z & Hz & _)|(_ & Hz)]; by eapply IH.
Qed.

(** What the running invariant says of one worker. *)
Lemma running_reports y i : wsys_ok names res gen y → reports_of (routing_id i.1 i.2) (ws_reports y) = replicate (Z.to_nat (cnt (ran_report i) (ws_reports y))) (ran_report i).
Proof.
  intros Hy. pose proof (wk_reports _ _ _ _ Hy) as Hr. induction (ws_reports y) as [|m rs IH]; [done|].
  assert (∀ m, m ∈ rs → ∃ i, m = ran_report i) as Hr' by (intros m' Hm'; apply Hr; by right). specialize (IH Hr').
  destruct (Hr m) as [j ->]; [by left|]. rewrite cnt_cons. pose proof (cnt_nonneg (ran_report i) rs). destruct (decide (j = i)) as [->|Hne].
  - rewrite decide_True by done. unfold ran_report at 1. rewrite reports_of_own, IH. by replace (Z.to_nat (_ + 1)) with (S (Z.to_nat (cnt (ran_report i) rs))) by lia.
  - assert (routing_id i.1 i.2 ≠ routing_id j.1 j.2) as Hrt by (intros E; apply route_inj in E; done).
    rewrite decide_False by (unfold ran_report; congruence). unfold ran_report at 1. rewrite reports_of_other by done. by rewrite IH, Z.add_0_r.
Qed.

Lemma cnt_replicate {K} `{EqDecision K} (k : K) n : cnt k (replicate n k) = Z.of_nat n.
Proof using Type. clear. induction n as [|n IH]; [done|]. cbn [replicate]. rewrite cnt_cons, IH, decide_True by done. lia. Qed.

Lemma running_worker y i :
  wsys_ok names res gen y → worker_exists (ws_proxy y).2 i →
  ∃ x, ws_threads y !! routing_id i.1 i.2 = Some x ∧ wt_tagged x = i.1 ∧ wt_index x = i.2 ∧
    ((busy_in (ws_proxy y).2 i = 0 ∧ closing_thread (cl_waiting pd_quit) (told x) ∧ reports_of (routing_id i.1 i.2) (ws_reports y) = []) ∨
     (busy_in (ws_proxy y).2 i = 1 ∧ ∃ c, closing_thread c x ∧ closing_busy c = 1 ∧
        reports_of (routing_id i.1 i.2) (ws_reports y) = closing_reports (routing_id i.1 i.2) c)).
Proof.
  intros Hy Hi. destruct (wk_exist _ _ _ _ Hy i Hi) as [x Hx]. exists x. destruct (wk_threads _ _ _ _ Hy _ _ Hx) as [Hrt Hth].
  apply (route_inj i (wt_tagged x, wt_index x)) in Hrt as ->. cbn [fst snd] in *. split_and!; try done.
  pose proof (wk_tokens _ _ _ _ Hy (wt_tagged x, wt_index x)) as Hk. unfold tokens, weight in Hk. cbn [fst snd] in Hk. rewrite Hx in Hk.
  pose proof (running_reports y (wt_tagged x, wt_index x) Hy) as Hr. cbn [fst snd] in Hr. rewrite Hr.
  pose proof (cnt_nonneg (ran_report (wt_tagged x, wt_index x)) (ws_reports y)) as H0. set (n := cnt (ran_report _) (ws_reports y)) in *.
  pose proof (busy_in_range (ws_proxy y).2 (wt_tagged x, wt_index x)) as Hrange.
  assert (∀ k, wt_inbox x = replicate k [B "RUN"] → cnt [B "RUN"] (wt_inbox x) = Z.of_nat k) as Hc1 by (intros k ->; apply cnt_replicate).
  assert (∀ k, wt_inbox x = [B "START"] :: replicate k [B "RUN"] → cnt [B "RUN"] (wt_inbox x) = Z.of_nat k) as Hc2
    by (intros k ->; rewrite cnt_start; apply cnt_replicate).
  destruct (decide (wt_phase x = ph_work)) as [Ew|Ew].
  - rewrite Ew in Hth. destruct Hth as [k Ek]. rewrite (Hc1 k Ek) in Hk. right. split; [lia|]. exists cl_work.
    assert (k = 0%nat) as -> by lia. assert (n = 0) as -> by lia. by split_and!.
  - assert (∃ k, cnt [B "RUN"] (wt_inbox x) = Z.of_nat k ∧
      ∀ p, k = (match p with pd_run => 1 | _ => 0 end)%nat → closing_thread (cl_waiting p) (match p with pd_quit => told x | _ => x end))
      as (k & Ek & Hcl).
    { destruct (wt_phase x) eqn:Eph; try done; destruct Hth as [k Ek]; exists k; (split; [auto|]); intros p Hp; cbn [closing_thread];
        destruct p; cbn in Hp |- *; rewrite Eph, Ek, Hp; reflexivity. }
    rewrite Ek in Hk. destruct (decide (n = 1)) as [En|En]; [|destruct (decide (k = 1%nat)) as [E1|E1]].
    + right. split; [lia|]. exists (cl_waiting pd_ran). rewrite En. split_and!; [apply (Hcl pd_ran); cbn; lia|done|done].
    + right. split; [lia|]. exists (cl_waiting pd_run). assert (n = 0) as -> by lia. split_and!; [apply (Hcl pd_run); cbn; lia|done|done].
    + left. assert (n = 0) as -> by lia. split_and!; [lia|apply (Hcl pd_quit); cbn; lia|done].
Qed.

Lemma quit_system_ok y :
  wsys_ok names res gen y → (∀ rt x, ws_threads y !! rt = Some x → worker_exists (ws_proxy y).2 (wt_tagged x, wt_index x)) →
  ∃ ev, quit_ok ∅ ev (ws_proxy y).2 (quit_system y).
Proof.
  intros Hy Hkn. pose proof (wk_timed _ _ _ _ Hy) as Ht. destruct y as [[t s] th rs]. cbn [ws_proxy ws_threads ws_reports fst snd] in *.
  pose proof (to_ids _ _ _ _ Ht) as Hids. cbn [snd] in Hids. unfold quit_system. cbn [ws_proxy ws_threads ws_reports].
  rewrite quit_command_view by done. set (ev := rev (quit_event <$> to_quit s) ++ events s). exists ev.
  unfold deliver_new. rewrite (new_events_app s (quitting ∅ ev s) (rev (quit_event <$> to_quit s))) by done. rewrite <-fmap_rev.
  assert (NoDup (rev (to_quit s))) as Hnd by (rewrite <-(Permutation_rev (to_quit s)); by apply (to_quit_spec s (false, 0%nat))).
  split; cbn [ws_proxy ws_threads ws_reports fst snd]; try done.
  - apply (wk_tagged _ _ _ _ Hy).
  - intros i Hi. destruct (running_worker _ i Hy Hi) as (x & Hx & E1 & E2 & Hc). cbn [ws_proxy ws_threads ws_reports snd] in *.
    unfold worker_closing. rewrite deliver_quits, Hx by done. cbn [fmap option_fmap option_map].
    assert (i ∈ rev (to_quit s) ↔ busy_in s i = 0) as Hin.
    { rewrite elem_of_rev. destruct (to_quit_spec s i Hids) as [-> _]. tauto. }
    destruct Hc as [(Hb & Hct & Hr)|(Hb & c & Hct & Hcb & Hr)].
    + exists (told x), (cl_waiting pd_quit). rewrite decide_True by by apply Hin. by split_and!.
    + exists x, c. rewrite decide_False by (rewrite Hin; lia). split_and!; try done; [congruence|]. split; [set_solver|]. by intros ->.
  - intros rt x Hx. destruct (deliver_quits_dom _ _ _ _ Hx) as [z Hz]. exists (wt_tagged z, wt_index z). split; [by eapply Hkn|].
    by destruct (wk_threads _ _ _ _ Hy rt z Hz) as [-> _].
  - intros m Hm. destruct (wk_reports _ _ _ _ Hy m Hm) as [i ->]. exists i, (B "RAN"). split; [|done]. apply busy_in_exists.
    pose proof (wk_tokens _ _ _ _ Hy i) as Hk. unfold tokens in Hk. cbn [ws_threads ws_reports ws_proxy snd] in *.
    pose proof (weight_nonneg th i). pose proof (busy_in_range s i). assert (0 < cnt (ran_report i) rs); [|lia].
    clear -Hm. apply list_elem_of_split in Hm as (l1 & l2 & ->). rewrite cnt_app, cnt_cons, decide_True by done.
    pose proof (cnt_nonneg (ran_report i) l1). pose proof (cnt_nonneg (ran_report i) l2). lia.
Qed.
End closing.

(** ** The threads there are *)
Definition threads_known (s : sched) (th : gmap bytes wthread) : Prop :=
  ∀ rt x, th !! rt = Some x → worker_exists s (wt_tagged x, wt_index x).

Lemma deliver_known s k th : threads_known s th → (∀ w, ev_spawn w ∈ k → worker_exists s (false, w)) → threads_known s (foldr deliver th k).
Proof.
  intros Hth. induction k as [|e k IH]; intros Hk; [done|]. specialize (IH (λ w Hw, Hk w (list_elem_of_further _ _ _ Hw))).
  assert (∀ cmd rt, threads_known s (post cmd rt (foldr deliver th k))) as Hp.
  { intros cmd rt r x. unfold post. rewrite lookup_alter_Some. intros [(_ & z & Hz & ->)|(_ & Hx)]; [|by eapply IH].
    exact (IH _ _ Hz). }
  cbn [foldr]. destruct e as [w|rt|rt| | |]; cbn [deliver]; try done.
  intros r x [(_ & <-)|(_ & Hx)]%lookup_insert_Some; [apply Hk; by left|by eapply IH].
Qed.

Lemma known_insert s th rt x x' :
  threads_known s th → th !! rt = Some x → wt_tagged x' = wt_tagged x → wt_index x' = wt_index x → threads_known s (<[rt := x']> th).
Proof. intros Hk Hx E1 E2 r z [(_ & <-)|(_ & Hz)]%lookup_insert_Some; [rewrite E1, E2; by eapply Hk|by eapply Hk]. Qed.

Lemma worker_recv_same x x' cmds : worker_recv x = Some (x', cmds) → wt_tagged x' = wt_tagged x ∧ wt_index x' = wt_index x.
Proof. unfold worker_recv. intros E. repeat case_match; by simplify_eq. Qed.

Lemma worker_iteration_same run x x' a cmds : worker_iteration run x = Ok (x', a, cmds) → wt_tagged x' = wt_tagged x ∧ wt_index x' = wt_index x.
Proof. unfold worker_iteration. intros E. repeat case_match; by simplify_eq. Qed.

Section known.
Context (names : list bytes) (res : kind → Z) (gen : Z).
Context (Hnames : NoDup names) (Hres : ∀ k, 0 <= res k) (Hgen : 0 < gen) (Hslots : slots (kinds names) res gen < 2 ^ 31).

Lemma report_keeps y y' a i :
  wsys_ok names res gen y → wsys_step st_report y = Ok (y', a) → worker_exists (ws_proxy y).2 i → worker_exists (ws_proxy y').2 i.
Proof using Hnames Hres Hgen Hslots.
  intros Hy E Hi. destruct y as [[t s] th rs]. cbn [wsys_step ws_proxy ws_threads ws_reports snd] in *. destruct rs as [|m rs]; [by injection E as <- _|].
  destruct (wk_reports _ _ _ _ Hy m) as [j ->]; [by left|]. inv_bind. injection E as <- _. cbn [ws_proxy snd]. rename a0 into s'.
  pose proof (wk_timed _ _ _ _ Hy) as Ht. cbn [ws_proxy] in Ht. pose proof (to_inv _ _ _ _ Ht) as Hinv. cbn [snd] in Hinv.
  assert (busy_in s j = 1) as Hb.
  { pose proof (wk_tokens _ _ _ _ Hy j) as Hk. unfold tokens in Hk. cbn [ws_threads ws_reports ws_proxy snd] in Hk.
    rewrite cnt_cons, decide_True in Hk by done. pose proof (weight_nonneg th j). pose proof (cnt_nonneg (ran_report j) rs). pose proof (busy_in_range s j). lia. }
  destruct (ran_bound names res gen Hslots j.1 j.2 s Hinv (report_enabled j s Hb (wk_tagged _ _ _ _ Hy))) as [Hw Hlt].
  change (proxy_worker_message (ran_report j) s) with (handle (in_ran j.1 j.2) s) in E0. rewrite handle_ran in E0 by done.
  assert (max_workers s ≠ 0) as Hmax.
  { rewrite (a_max _ _ _ _ _ (proj1 (inv_acct _ _ _ _ Hinv))). pose proof (slots_pos names res gen Hres Hgen). lia. }
  destruct (quitting_worker_ran ∅ j.1 j.2 _ [] s s' E0 Hmax) as (k & (_ & _ & Hlen) & _).
  destruct (worker_ran_frame j.1 j.2 (routing_id j.1 j.2) s s' (to_ids _ _ _ _ Ht)) as (_ & _ & Hl & _); [done|by destruct j|apply Hinv|done|].
  unfold worker_exists in *. by rewrite Hl, Hlen.
Qed.

Lemma step_known st y y' a :
  wsys_ok names res gen y → wsys_enabled st y → wsys_step st y = Ok (y', a) →
  threads_known (ws_proxy y).2 (ws_threads y) → threads_known (ws_proxy y').2 (ws_threads y').
Proof using Hnames Hres Hgen Hslots.
  intros Hy He E Hk. destruct st as [i| |rt|rt|rt].
  - destruct y as [[t s] th rs]. cbn [wsys_step ws_proxy ws_threads ws_reports fst snd] in *. inv_bind. destruct a0 as [ts effs]. injection E as <- _.
    cbn [ws_proxy ws_threads]. pose proof (wk_timed _ _ _ _ Hy) as Ht. cbn [ws_proxy] in Ht. destruct He as [He Hn].
    destruct (timed_step_acts i t s ts effs (to_loads _ _ _ _ Ht) He Hn E0 (to_ids _ _ _ _ Ht)) as [k Ha]. cbn [snd] in *.
    unfold deliver_new. rewrite (new_events_app s ts.2 k (act_events _ _ _ Ha)). apply deliver_known.
    + intros r x Hx. specialize (Hk r x Hx). unfold worker_exists in *. destruct (act_grow _ _ _ Ha) as [Hg _]. cbn [fst snd] in *.
      rewrite (act_tagged _ _ _ Ha). destruct (wt_tagged x); lia.
    + intros w Hw. exact (act_named _ _ _ Ha _ Hw).
  - destruct (report_step_ok names res gen Hnames Hres Hgen Hslots y Hy) as (y2 & E2 & _ & Eth & _). rewrite E in E2. injection E2 as <- _.
    rewrite Eth. intros r x Hx. eapply report_keeps; [exact Hy|exact E|]. by eapply Hk.
  - destruct y as [[t s] th rs]. cbn [wsys_step ws_proxy ws_threads ws_reports fst snd] in *. destruct (th !! rt) as [x|] eqn:Hx; [|by injection E as <- _].
    cbn [mbind option_bind] in E. destruct (worker_recv x) as [[x' cmds]|] eqn:Er; [|by injection E as <- _]. injection E as <- _.
    apply worker_recv_same in Er as [E1 E2]. by eapply known_insert.
  - destruct y as [[t s] th rs]. cbn [wsys_step ws_proxy ws_threads ws_reports fst snd] in *. destruct (th !! rt) as [x|] eqn:Hx; [|by injection E as <- _].
    destruct (decide _); [|by injection E as <- _]. injection E as <- _. by eapply known_insert.
  - destruct y as [[t s] th rs]. cbn [wsys_step ws_proxy ws_threads ws_reports fst snd] in *. destruct (th !! rt) as [x|] eqn:Hx; [|by injection E as <- _].
    destruct (decide _); [|by injection E as <- _]. destruct (get_run _ _ s) as [run|]; [|done]. inv_bind. destruct a0 as [[x' a'] cmds]. injection E as <- _.
    apply worker_iteration_same in E0 as [E1 E2]. by eapply known_insert.
Qed.
End known.

Lemma wsys_known c cs tagged y : wsys_reach c cs tagged y → threads_known (ws_proxy y).2 (ws_threads y).
Proof.
  induction 1 as [t s Hst Hs Hmax Hl Hti|st y y' a Hr IH He E].
  - intros rt x (w & Hw & -> & ->)%start_threads_lookup. unfold worker_exists. cbn. revert Hs. unfold proxy_start. destruct (_ <=? 0); [done|]. cbv zeta.
    by intros [= <-].
  - destruct (wsys_reach_ok _ _ _ _ Hr) as (names & res & gen & Hn & Hres & Hg & Hsl & Hok). by eapply step_known.
Qed.

(** ** The end *)
Lemma all_joined_view J ev s : ids_ok s → all_joined (quitting J ev s) = true ↔ ∀ i, worker_exists s i → i ∈ J.
Proof.
  intros [H1 H2 _]. unfold all_joined. rewrite andb_true_iff, !negb_true_iff.
  assert (∀ A (f : A → bool) l, existsb f l = false ↔ ∀ w x, l !! w = Some x → f x = false) as Hex.
  { intros A f l. induction l as [|y l IH]; cbn; [by split|]. rewrite orb_false_iff, IH. split.
    - intros [Hy Hl] [|w] x Hx; [by injection Hx as <-|by eapply Hl].
    - intros Hl. split; [by apply (Hl 0%nat)|]. intros w x Hx. by apply (Hl (S w)). }
  assert (∀ t w r, worker_thread r = true → worker_thread (mark J t w r) = false ↔ (t, w) ∈ J) as Hm.
  { intros t w r Hr. unfold mark. case_decide; [done|]. rewrite Hr. by split. }
  rewrite !Hex. unfold quitting, worker_exists. ss. setoid_rewrite list_lookup_imap. split.
  - intros [Hw Ht] [[] w] Hi; cbn [fst snd] in *.
    + destruct (lookup_lt_is_Some_2 _ _ Hi) as [[[r b] q] Ew]. specialize (Ht w (mark J true w r, b, q)). rewrite Ew in Ht. specialize (Ht eq_refl).
      cbn in Ht. apply Hm in Ht; [done|]. by apply (H2 _ _ _ _ Ew).
    + destruct (lookup_lt_is_Some_2 _ _ Hi) as [r Ew]. specialize (Hw w (mark J false w r)). rewrite Ew in Hw. specialize (Hw eq_refl).
      apply Hm in Hw; [done|]. by apply (H1 _ _ Ew).
  - intros Hall. split; intros w x (z & Ez & ->)%fmap_Some.
    + apply Hm; [by apply (H1 _ _ Ez)|]. apply Hall. cbn. by eapply lookup_lt_Some.
    + destruct z as [[r b] q]. cbn [fst snd]. apply Hm; [by apply (H2 _ _ _ _ Ez)|]. apply Hall. cbn. by eapply lookup_lt_Some.
Qed.

(** What is still to come of a worker that has not been joined. *)
Lemma closing_rank_zero rt c x rs :
  closing_thread c x → reports_of rt rs = closing_reports rt c → thread_rank x = 0%nat → ranks report_rank rs = 0%nat → c = cl_joined.
Proof.
  intros Hc Hr Hx Hrs. assert (closing_reports rt c = []) as E.
  { destruct (closing_reports rt c) as [|m l] eqn:E; [done|]. assert (m ∈ reports_of rt rs) as Hm by (rewrite Hr; by left).
    apply list_elem_of_filter in Hm as [_ Hm]. pose proof (ranks_ge report_rank m rs Hm) as Hge. rewrite Hrs in Hge.
    assert (report_rank m <> 0%nat) as Hnz; [|lia]. by destruct c as [[]| | |]; simplify_eq/=. }
  unfold thread_rank in Hx. destruct c as [[]| | |]; try done; cbn [closing_thread] in Hc.
  - destruct (wt_phase x); try done; rewrite Hc in Hx; by vm_compute in Hx.
  - destruct (wt_phase x); try done; rewrite Hc in Hx; by vm_compute in Hx.
  - destruct Hc as [Hc _]. rewrite Hc in Hx. by cbn in Hx.
Qed.

Section ending.
Context (names : list bytes) (res : kind → Z) (gen : Z).
Context (Hnames : NoDup names) (Hres : ∀ k, 0 <= res k) (Hgen : 0 < gen) (Hslots : slots (kinds names) res gen < 2 ^ 31).

Lemma to_come_zero J ev s y : quit_ok names res gen J ev s y → to_come y = 0%nat ↔ all_joined (ws_proxy y).2 = true.
Proof using Type.
  clear. intros Hq. rewrite (qk_view _ _ _ _ _ _ _ Hq), (all_joined_view J ev s (to_ids _ _ _ _ (qk_timed _ _ _ _ _ _ _ Hq))). unfold to_come, threads_rank. split.
  - intros Hz i Hi. destruct (qk_workers _ _ _ _ _ _ _ Hq i Hi) as (x & c & Hx & _ & _ & Hc & Hr & _ & HJ). apply HJ.
    pose proof (map_ranks_ge thread_rank _ _ _ Hx) as Hge. eapply closing_rank_zero; [exact Hc|exact Hr|lia|lia].
  - intros Hall. assert (∀ i, worker_exists s i → ∃ x, ws_threads y !! routing_id i.1 i.2 = Some x ∧ thread_rank x = 0%nat ∧
      reports_of (routing_id i.1 i.2) (ws_reports y) = []) as Hw.
    { intros i Hi. destruct (qk_workers _ _ _ _ _ _ _ Hq i Hi) as (x & c & Hx & _ & _ & Hc & Hr & _ & HJ). specialize (Hall i Hi).
      apply HJ in Hall as ->. exists x. destruct Hc as [E1 E2]. unfold thread_rank. by rewrite E1, E2. }
    rewrite (map_ranks_zero thread_rank).
    + destruct (ws_reports y) as [|m rs] eqn:Er; [done|]. destruct (qk_reports _ _ _ _ _ _ _ Hq m) as (i & c & Hi & ->); [rewrite Er; by left|].
      destruct (Hw i Hi) as (x & _ & _ & Hr). by rewrite reports_of_own in Hr.
    + intros rt x Hx. destruct (qk_threads _ _ _ _ _ _ _ Hq rt x Hx) as (i & Hi & ->). destruct (Hw i Hi) as (x' & Hx' & Hz & _). congruence.
Qed.

(** A thread that has not been joined, and whose reports have all been taken, can go on. *)
Lemma thread_moves J ev s t th rt x c :
  th !! rt = Some x → closing_thread c x → closing_reports rt c = [] → c ≠ cl_joined →
  ∃ st, closing_step st ∧ ∀ y' a, wsys_step st (mkWsys (t, quitting J ev s) th []) = Ok (y', a) → y' ≠ mkWsys (t, quitting J ev s) th [].
Proof using Type.
  clear. intros Hx Hc Hr Hj. destruct (wt_phase x) eqn:Eph.
  - exists (st_recv rt). split; [done|]. intros y' a. cbn [wsys_step ws_proxy ws_threads ws_reports]. rewrite Hx. cbn [mbind option_bind].
    unfold worker_recv. rewrite Eph. destruct c as [p| | |]; cbn [closing_thread] in Hc; rewrite Eph in Hc; try (by destruct Hc).
    rewrite Hc. intros E. assert (y' = y') by done. simplify_eq/=. by eapply moved_thread; [exact Hx|reflexivity|rewrite Eph].
  - exists (st_start rt). split; [done|]. intros y' a. cbn [wsys_step ws_proxy ws_threads ws_reports]. rewrite Hx, Eph. intros E. simplify_eq/=.
    by eapply moved_thread; [exact Hx|reflexivity|rewrite Eph].
  - exists (st_recv rt). split; [done|]. intros y' a. cbn [wsys_step ws_proxy ws_threads ws_reports]. rewrite Hx. cbn [mbind option_bind].
    unfold worker_recv. rewrite Eph. destruct c as [[]| | |]; cbn [closing_thread] in Hc; rewrite ?Eph in Hc; try (by destruct Hc); try done.
    + rewrite Hc. intros E. simplify_eq/=. by eapply moved_thread; [exact Hx|reflexivity|rewrite Eph].
    + rewrite Hc. intros E. simplify_eq/=. by eapply moved_thread; [exact Hx|reflexivity|rewrite Eph].
  - exists (st_work rt). split; [done|]. intros y' a. cbn [wsys_step ws_proxy ws_threads ws_reports]. rewrite Hx, Eph, decide_True by done. intros E.
    destruct (get_run _ _ _) as [run|]; [|done]. inv_bind. destruct a0 as [[x' b] cmds]. simplify_eq/=. eapply (moved_thread _ x); [exact Hx|reflexivity|].
    rewrite Eph. unfold worker_iteration in E0. by repeat case_match; simplify_eq/=.
  - by destruct c as [[]| | |]; cbn [closing_thread] in Hc; rewrite ?Eph in Hc; destruct Hc.
Qed.

Lemma quit_progress J ev s y :
  quit_ok names res gen J ev s y → to_come y ≠ 0%nat →
  ∃ st y' a, closing_step st ∧ wsys_step st y = Ok (y', a) ∧ to_come y = S (to_come y').
Proof using Hnames Hres Hgen Hslots.
  intros Hq Hz. assert (∃ st, closing_step st ∧ ∀ y' a, wsys_step st y = Ok (y', a) → y' ≠ y) as (st & Hst & Hne).
  { destruct y as [[t sq] th rs]. assert (sq = quitting J ev s) as -> by apply (qk_view _ _ _ _ _ _ _ Hq). destruct rs as [|m rs].
    - destruct (decide (map_Forall (λ _ x, wt_phase x = ph_gone) th)) as [Hall|Hnot].
      + destruct Hz. apply (to_come_zero J ev s _ Hq). cbn [ws_proxy snd].
        apply (all_joined_view J ev s (to_ids _ _ _ _ (qk_timed _ _ _ _ _ _ _ Hq))). intros i Hi.
        destruct (qk_workers _ _ _ _ _ _ _ Hq i Hi) as (x & c & Hx & _ & _ & Hc & Hr & _ & HJ). apply HJ. specialize (Hall _ _ Hx).
        cbn [ws_reports] in Hr. by destruct c as [[]| | |]; cbn [closing_thread] in Hc; rewrite ?Hall in Hc; destruct Hc.
      + apply map_not_Forall in Hnot as (rt & x & Hx & Hg); [|apply _].
        destruct (quit_thread _ _ _ _ _ _ _ _ _ _ _ Hq Hx) as (i & c & -> & _ & _ & _ & Hc & Hr & _). apply (thread_moves _ _ _ _ _ _ x c Hx Hc); [done|].
        intros ->. by destruct Hc.
    - exists st_report. split; [done|]. intros y' a. cbn [wsys_step ws_proxy ws_threads ws_reports]. intros E. inv_bind.
      injection E as <- _. intros E. apply (f_equal (λ y, length (ws_reports y))) in E. cbn in E. lia. }
  destruct (quit_step_ok names res gen Hnames Hres Hgen Hslots J ev s y st Hq Hst) as (y' & a & E & [->|[_ Hc]]); [by destruct (Hne _ _ E)|].
  by exists st, y', a.
Qed.
End ending.

Lemma quit_reach_ok c cs tagged y :
  quit_reach c cs tagged y →
  ∃ names res gen, NoDup names ∧ (∀ k, 0 <= res k) ∧ 0 < gen ∧ slots (kinds names) res gen < 2 ^ 31 ∧ ∃ J ev s, quit_ok names res gen J ev s y.
Proof.
  induction 1 as [y Hr|st y y' a _ (names & res & gen & Hn & Hres & Hg & Hsl & J & ev & s & Hq) Hst E
    |i y y' a _ (names & res & gen & Hn & Hres & Hg & Hsl & J & ev & s & Hq) Hi He E].
  - destruct (wsys_reach_ok _ _ _ _ Hr) as (names & res & gen & Hn & Hres & Hg & Hsl & Hok). exists names, res, gen. split_and!; try done.
    destruct (quit_system_ok names res gen Hn Hres Hg Hsl y Hok (wsys_known _ _ _ _ Hr)) as [ev Hq]. by exists ∅, ev, (ws_proxy y).2.
  - exists names, res, gen. split_and!; try done. destruct (quit_step_ok names res gen Hn Hres Hg Hsl J ev s y st Hq Hst) as (y2 & a2 & E2 & Hc).
    rewrite E in E2. injection E2 as <- <-. destruct Hc as [->|[Hq' _]]; [by exists J, ev, s|done].
  - exists names, res, gen. split_and!; try done. destruct (quit_arrival names res gen Hn Hres Hg Hsl J ev s y i Hq Hi He) as (y2 & s' & E2 & _ & _ & Hq').
    rewrite E in E2. injection E2 as <- _. by exists J, ev, s'.
Qed.


(** ** A concrete shutdown: [QUIT] while a pool worker and the tagged thread have a job *)
Definition qdemo0 : wsys := quit_system wdemo2.
Definition qdemo_steps : list wstep :=
  [ st_work (routing_id false 0); st_proxy (ti_sched in_process); st_report; st_recv (routing_id true 0); st_start (routing_id true 0);
    st_recv (routing_id false 0); st_recv (routing_id true 0); st_report; st_work (routing_id true 0); st_report;
    st_recv (routing_id true 0); st_report ].


Example shutdown_run :
  match wsys_run qdemo_steps qdemo0 with
  | Ok y => all_joined (ws_proxy y).2 = true ∧ to_come y = 0%nat
  | _ => False
  end.
Proof. vm_compute. done. Qed.
