(* ===== verification/Lifecycle.v ===== *)
(** The life of [ArqmaMQ] objects (arqmamq.cpp): construction with its key checks,
    [start], the control socket of each thread, and destruction.  The state is that of a
    process: objects come and go, and each thread remembers the last socket it used. *)
From S2P Require Import Prelude BtValue Commands Connections Scheduler SchedulerInv Frame Proxy Worker WorkerInv.
Open Scope Z_scope.

(** ** State *)
Abbreviation thread_id := nat.
Abbreviation socket_id := nat.

Record instance : Type := mkInstance {
  in_pubkey : bytes;
  in_privkey : bytes;
  local_service_node : bool;
  in_bind : list bind_data;
  proxy_running : bool;                         (* proxy_thread.joinable() *)
  proxy_shutting_down : bool;
  max_sockets : option Z;                       (* as set on the zmq context *)
  control_sockets : gmap thread_id socket_id
}.

Record process : Type := mkProcess {
  next_id : Z;                                  (* std::atomic<int> *)
  instances : gmap Z instance;                  (* by object id *)
  last_sockets : gmap thread_id (Z * socket_id);(* thread_local last_id, last_socket *)
  next_socket_id : socket_id;
  sent_control : list (socket_id * list bytes)
}.

Definition with_instances (x : gmap Z instance) (p : process) : process :=
  mkProcess (next_id p) x (last_sockets p) (next_socket_id p) (sent_control p).
Definition with_controls (x : gmap thread_id socket_id) (o : instance) : instance :=
  mkInstance (in_pubkey o) (in_privkey o) (local_service_node o) (in_bind o) (proxy_running o) (proxy_shutting_down o) (max_sockets o) x.
Definition set_started (ms : option Z) (o : instance) : instance :=
  mkInstance (in_pubkey o) (in_privkey o) (local_service_node o) (in_bind o) true (proxy_shutting_down o) ms (control_sockets o).
Definition set_shutting_down (o : instance) : instance :=
  mkInstance (in_pubkey o) (in_privkey o) (local_service_node o) (in_bind o) (proxy_running o) true (max_sockets o) (control_sockets o).
Definition set_bind (b : list bind_data) (o : instance) : instance :=
  mkInstance (in_pubkey o) (in_privkey o) (local_service_node o) b (proxy_running o) (proxy_shutting_down o) (max_sockets o) (control_sockets o).

(** Using an object that does not exist, or no longer, is undefined. *)
Definition the_instance (id : Z) : M process instance := λ p,
  match instances p !! id with Some o => (Ok o, p) | None => (UB, p) end.
Definition update_instance (id : Z) (f : instance → instance) : M process unit := λ p,
  (Ok tt, with_instances (alter f id (instances p)) p).
Definition forget_instance (id : Z) : M process unit := λ p,
  (Ok tt, with_instances (delete id (instances p)) p).

(** ** Construction

    libsodium's functions are arguments: whether [sodium_init] succeeds, the pair
    [crypto_box_keypair] makes, and [crypto_scalarmult_base]. *)
Section construct.
Context (scalarmult_base : bytes → bytes).

Definition check_keys (sodium_ok : bool) (keypair : bytes * bytes) (pubkey privkey : bytes) (service_node : bool)
    : outcome (bytes * bytes) :=
  if negb sodium_ok then Throw runtime_error
  else if negb (Bool.eqb (bool_decide (pubkey = [])) (bool_decide (privkey = []))) then Throw invalid_argument
  else if bool_decide (pubkey = []) then
    if service_node then Throw invalid_argument else Ok keypair
  else if negb (length pubkey =? 32)%nat then Throw invalid_argument
  else if negb (length privkey =? 32)%nat then Throw invalid_argument
  else if negb (bytes_eqb (scalarmult_base privkey) pubkey) then Throw invalid_argument
  else Ok (pubkey, privkey).

(** [object_id{next_id++}] comes first, also when the checks throw. *)
Definition construct (sodium_ok : bool) (keypair : bytes * bytes) (pubkey privkey : bytes) (service_node : bool)
    : M process Z := λ p,
  let id := next_id p in
  let p := mkProcess (it_cast c_int (id + 1)) (instances p) (last_sockets p) (next_socket_id p) (sent_control p) in
  match check_keys sodium_ok keypair pubkey privkey service_node with
  | Ok (pubkey, privkey) =>
      (Ok id, with_instances (<[id := mkInstance pubkey privkey service_node [] false false None ∅]> (instances p)) p)
  | Throw e => (Throw e, p)
  | UB => (UB, p)
  | Diverge => (Diverge, p)
  end.
End construct.

(** ** Control sockets *)

(** [control_sockets[std::this_thread::get_id()]], with a new dealer socket if there is
    none yet. *)
Definition open_control_socket (id : Z) (t : thread_id) : M process socket_id := λ p,
  match instances p !! id with
  | None => (UB, p)
  | Some o =>
      match control_sockets o !! t with
      | Some s => (Ok s, p)
      | None =>
          let s := next_socket_id p in
          (Ok s, mkProcess (next_id p) (<[id := with_controls (<[t := s]> (control_sockets o)) o]> (instances p)) (last_sockets p) (S s) (sent_control p))
      end
  end.

Definition remember_socket (id : Z) (t : thread_id) (s : socket_id) : M process unit := λ p,
  (Ok tt, mkProcess (next_id p) (instances p) (<[t := (id, s)]> (last_sockets p)) (next_socket_id p) (sent_control p)).

Definition get_control_socket (id : Z) (t : thread_id) : M process socket_id :=
  o ← the_instance id;
  if negb (proxy_running o) then ubM
  else
    p ← getS;
    match last_sockets p !! t with
    | Some (last_id, last_socket) =>
        if last_id =? id then mret last_socket
        else if proxy_shutting_down o then throwM runtime_error
        else s ← open_control_socket id t; _ ← remember_socket id t s; mret s
    | None =>
        if proxy_shutting_down o then throwM runtime_error
        else s ← open_control_socket id t; _ ← remember_socket id t s; mret s
    end.

(** [detail::send_control] without data *)
Definition send_command (s : socket_id) (cmd : bytes) : M process unit := λ p,
  (Ok tt, mkProcess (next_id p) (instances p) (last_sockets p) (next_socket_id p) (sent_control p ++ [(s, [cmd])])).

(** ** [listen_curve], [listen_plain] *)
Definition add_bind (id : Z) (curve_ : bool) (bind_addr_ : bytes) (allow : callback) : M process unit :=
  o ← the_instance id;
  b ← liftM (listen (proxy_running o) curve_ bind_addr_ allow (in_bind o));
  update_instance id (set_bind b).

(** ** [start]

    [bind_ok] is whether the command socket can be bound, [reply] what arrives on the
    control socket ([None]: zmq reports an error). *)
Definition apply_max_sockets (setting limit : Z) : option Z :=
  if (1 <? setting) && (setting <=? limit) then Some setting else None.

Definition start (id : Z) (t : thread_id) (MAX_SOCKETS zmq_socket_limit : Z) (bind_ok : bool) (reply : option (list bytes))
    : M process unit :=
  o ← the_instance id;
  if proxy_running o then throwM logic_error
  else if bool_decide (in_bind o = []) && local_service_node o then throwM invalid_argument
  else if negb bind_ok then throwM zmq_error_t
  else
    _ ← update_instance id (set_started (apply_max_sockets MAX_SOCKETS zmq_socket_limit));
    control ← get_control_socket id t;
    _ ← send_command control (B "START");
    match reply with
    | Some [ready] => if bytes_eqb ready (B "READY") then mret tt else throwM runtime_error
    | _ => throwM runtime_error
    end.

(** ** Destruction *)

(** [proxy_quit], in the proxy thread: no new control sockets from here on. *)
Definition note_shutdown (id : Z) : M process unit :=
  _ ← the_instance id; update_instance id set_shutting_down.

(** The tagged threads of an object that was never started get [QUIT], each once its
    socket is known to the proxy's. *)
Definition quit_unstarted (tagged : list (run_info * bool * list batch_job)) (th : gmap bytes wthread) : gmap bytes wthread :=
  foldl (λ th x, post (B "QUIT") (worker_routing_id x.1.1) th) th tagged.

(** The destructor of a started object: [QUIT], then [proxy_thread.join()], which
    returns when [proxy_quit] has run. *)
Definition destroy (id : Z) (t : thread_id) : M process unit :=
  o ← the_instance id;
  _ ← (if proxy_running o then
         control ← get_control_socket id t;
         _ ← send_command control (B "QUIT");
         note_shutdown id
       else mret tt);
  forget_instance id.

(** ** What a process does with objects *)
Inductive proc_op : Type :=
  | po_construct (sodium_ok : bool) (keypair : bytes * bytes) (pubkey privkey : bytes) (service_node : bool)
  | po_bind (id : Z) (curve_ : bool) (bind_addr_ : bytes) (allow : callback)
  | po_start (id : Z) (t : thread_id) (MAX_SOCKETS limit : Z) (bind_ok : bool) (reply : option (list bytes))
  | po_control (id : Z) (t : thread_id)         (* any call that talks to the proxy *)
  | po_shutdown (id : Z)
  | po_destroy (id : Z) (t : thread_id).

Section process.
Context (scalarmult_base : bytes → bytes).

Definition run_proc_op (op : proc_op) : M process unit :=
  match op with
  | po_construct sodium_ok keypair pubkey privkey service_node =>
      _ ← construct scalarmult_base sodium_ok keypair pubkey privkey service_node; mret tt
  | po_bind id curve_ bind_addr_ allow => add_bind id curve_ bind_addr_ allow
  | po_start id t MAX_SOCKETS limit bind_ok reply => start id t MAX_SOCKETS limit bind_ok reply
  | po_control id t => _ ← get_control_socket id t; mret tt
  | po_shutdown id => note_shutdown id
  | po_destroy id t => destroy id t
  end.

Definition empty_process : process := mkProcess 1 ∅ ∅ 0 [].

(** Operations on objects that exist, with any result but undefined behaviour, as long as
    the ids have not wrapped around. *)
Inductive proc_reach : process → Prop :=
  | proc_init : proc_reach empty_process
  | proc_next op p r p' : proc_reach p → run_proc_op op p = (r, p') → r ≠ UB → next_id p < 2 ^ 31 - 1 → proc_reach p'.
End process.

(** ** Invariant *)
Record process_ok (p : process) : Prop := {
  pk_ids id o : instances p !! id = Some o → id < next_id p;
  pk_cached t id s : last_sockets p !! t = Some (id, s) → id < next_id p;
  pk_cache t id s o : last_sockets p !! t = Some (id, s) → instances p !! id = Some o → control_sockets o !! t = Some s;
  pk_fresh id o t s : instances p !! id = Some o → control_sockets o !! t = Some s → (s < next_socket_id p)%nat;
  pk_unique id o t id' o' t' s : instances p !! id = Some o → control_sockets o !! t = Some s →
    instances p !! id' = Some o' → control_sockets o' !! t' = Some s → id = id' ∧ t = t'
}.

(** Computations that keep the invariant, whatever their result. *)
Definition keeps {A} (m : M process A) : Prop := ∀ p r p', m p = (r, p') → process_ok p → process_ok p'.

Lemma keeps_ret {A} (a : A) : keeps (mret a).
Proof. by intros p r p' [= <- <-]. Qed.
Lemma keeps_throw {A} e : keeps (throwM e : M process A).
Proof. by intros p r p' [= <- <-]. Qed.
Lemma keeps_ub {A} : keeps (ubM : M process A).
Proof. by intros p r p' [= <- <-]. Qed.
Lemma keeps_lift {A} (o : outcome A) : keeps (liftM o).
Proof. by intros p r p' [= <- <-]. Qed.
Lemma keeps_the_instance id : keeps (the_instance id).
Proof. intros p r p'. unfold the_instance. by destruct (instances p !! id); intros [= <- <-]. Qed.
Lemma keeps_send s cmd : keeps (send_command s cmd).
Proof. intros p r p' [= <- <-] [H1 H2 H3 H4 H5]. by split. Qed.

Lemma keeps_bind {A C} (m : M process A) (f : A → M process C) : keeps m → (∀ a, keeps (f a)) → keeps (m ≫= f).
Proof.
  intros Hm Hf p r p'. unfold mbind, M_bind. destruct (m p) as [[a|e| |] p1] eqn:E; intros E' Hp; pose proof (Hm _ _ _ E Hp);
    [by eapply Hf|by simplify_eq..].
Qed.

Create HintDb lifecycle.
#[export] Hint Resolve keeps_ret keeps_throw keeps_ub keeps_lift keeps_the_instance keeps_send keeps_bind : lifecycle.

(** Changing an object's flags leaves its sockets. *)
Lemma keeps_update id f : (∀ o, control_sockets (f o) = control_sockets o) → keeps (update_instance id f).
Proof.
  intros Hf p r p' [= <- <-] [H1 H2 H3 H4 H5].
  assert (∀ j x, alter f id (instances p) !! j = Some x → ∃ y, instances p !! j = Some y ∧ control_sockets x = control_sockets y) as Hold.
  { intros j x [(_ & y & Hy & ->)|(_ & Hx)]%lookup_alter_Some; [|by eauto]. exists y. by split. }
  split; cbn [instances with_instances next_id last_sockets next_socket_id].
  - intros j x (y & Hy & _)%Hold. by eapply H1.
  - done.
  - intros t j s x Hl (y & Hy & ->)%Hold. by eapply H3.
  - intros j x t s (y & Hy & ->)%Hold. by eapply H4.
  - intros j x t j' x' t' s (y & Hy & ->)%Hold Hs (y' & Hy' & ->)%Hold Hs'. by eapply H5.
Qed.

Lemma keeps_forget id : keeps (forget_instance id).
Proof.
  intros p r p' [= <- <-] [H1 H2 H3 H4 H5].
  assert (∀ j x, delete id (instances p) !! j = Some x → instances p !! j = Some x) as Hold by (by intros j x [_ ?]%lookup_delete_Some).
  split; cbn [instances with_instances next_id last_sockets next_socket_id]; eauto.
Qed.

(** The whole of [get_control_socket]: its sockets are opened and remembered together. *)
Lemma keeps_open id t : keeps (s ← open_control_socket id t; _ ← remember_socket id t s; mret s).
Proof.
  intros p r p'. unfold mbind, M_bind, open_control_socket. destruct (instances p !! id) as [o|] eqn:Ho; [|by intros [= <- <-]].
  destruct (control_sockets o !! t) as [s|] eqn:Hs; cbn; intros [= <- <-] [H1 H2 H3 H4 H5]; split; cbn [instances next_id last_sockets next_socket_id].
  - done.
  - intros t' j s' [(<- & [= <- <-])|(_ & Hl)]%lookup_insert_Some; by eauto.
  - intros t' j s' x [(<- & [= <- <-])|(_ & Hl)]%lookup_insert_Some Hx; [congruence|by eapply H3].
  - done.
  - done.
  - intros j x [(<- & _)|(_ & Hx)]%lookup_insert_Some; by eauto.
  - intros t' j s' [(<- & [= <- <-])|(_ & Hl)]%lookup_insert_Some; by eauto.
  - intros t' j s' x [(<- & [= <- <-])|(Ht & Hl)]%lookup_insert_Some [(E & <-)|(E & Hx)]%lookup_insert_Some; try done.
    + apply lookup_insert_eq.
    + subst j. cbn [control_sockets with_controls]. rewrite lookup_insert_ne by done. by eapply H3.
    + by eapply H3.
  - intros j x t' s' [(<- & <-)|(_ & Hx)]%lookup_insert_Some.
    + cbn [control_sockets with_controls]. intros [(<- & <-)|(_ & Hc)]%lookup_insert_Some; [lia|]. specialize (H4 _ _ _ _ Ho Hc). lia.
    + intros Hc. specialize (H4 _ _ _ _ Hx Hc). lia.
  - assert (∀ j x t' s', <[id := with_controls (<[t := next_socket_id p]> (control_sockets o)) o]> (instances p) !! j = Some x →
      control_sockets x !! t' = Some s' → (j = id ∧ t' = t ∧ s' = next_socket_id p) ∨ (∃ y, instances p !! j = Some y ∧ control_sockets y !! t' = Some s')) as Hold.
    { intros j x t' s' [(<- & <-)|(_ & Hx)]%lookup_insert_Some; [|by eauto]. cbn [control_sockets with_controls].
      intros [(<- & <-)|(_ & Hc)]%lookup_insert_Some; [by left|right; by eauto]. }
    intros j x t1 j' x' t2 s' Hx Hc Hx' Hc'. destruct (Hold _ _ _ _ Hx Hc) as [(-> & -> & ->)|(y & Hy & Hcy)], (Hold _ _ _ _ Hx' Hc') as [(-> & -> & E)|(y' & Hy' & Hcy')].
    + done.
    + specialize (H4 _ _ _ _ Hy' Hcy'). lia.
    + subst s'. specialize (H4 _ _ _ _ Hy Hcy). lia.
    + by eapply H5.
Qed.

Lemma keeps_getS {A} (f : process → M process A) : (∀ x, keeps (f x)) → keeps (getS ≫= f).
Proof. intros Hf p r p' E. exact (Hf p p r p' E). Qed.

Lemma keeps_control id t : keeps (get_control_socket id t).
Proof.
  unfold get_control_socket. apply keeps_bind; [auto with lifecycle|]. intros o. destruct (negb _); [auto with lifecycle|].
  apply keeps_getS. intros p. destruct (last_sockets p !! t) as [[i s]|]; [destruct (_ =? _); [auto with lifecycle|]|];
    (destruct (proxy_shutting_down o); [auto with lifecycle|apply keeps_open]).
Qed.
#[export] Hint Resolve keeps_control keeps_forget : lifecycle.

Lemma keeps_note_shutdown id : keeps (note_shutdown id).
Proof. apply keeps_bind; [auto with lifecycle|]. intros _. by apply keeps_update. Qed.
#[export] Hint Resolve keeps_note_shutdown : lifecycle.

Lemma keeps_add_bind id c a f : keeps (add_bind id c a f).
Proof. apply keeps_bind; [auto with lifecycle|]. intros o. apply keeps_bind; [auto with lifecycle|]. intros b. by apply keeps_update. Qed.

Lemma keeps_start id t ms limit ok reply : keeps (start id t ms limit ok reply).
Proof.
  apply keeps_bind; [auto with lifecycle|]. intros o. destruct (proxy_running o); [auto with lifecycle|]. destruct (_ && _); [auto with lifecycle|].
  destruct (negb ok); [auto with lifecycle|]. apply keeps_bind; [by apply keeps_update|]. intros _. apply keeps_bind; [auto with lifecycle|]. intros s.
  apply keeps_bind; [auto with lifecycle|]. intros _. destruct reply as [[|m []]|]; auto with lifecycle. destruct (bytes_eqb _ _); auto with lifecycle.
Qed.

Lemma keeps_destroy id t : keeps (destroy id t).
Proof.
  apply keeps_bind; [auto with lifecycle|]. intros o. apply keeps_bind; [|auto with lifecycle]. destruct (proxy_running o); [|auto with lifecycle].
  apply keeps_bind; [auto with lifecycle|]. intros s. apply keeps_bind; auto with lifecycle.
Qed.

Section reach.
Context (scalarmult_base : bytes → bytes).

Lemma next_id_exact p : 0 < next_id p < 2 ^ 31 - 1 → it_cast c_int (next_id p + 1) = next_id p + 1.
Proof using Type. clear. intros H. apply it_cast_id; unfold it_ok, it_range, it_min, it_max; simpl; lia. Qed.

(** A new id is larger than all there were, as long as they have not wrapped. *)
Lemma construct_ok sodium kp pk sk sn p r p' :
  construct scalarmult_base sodium kp pk sk sn p = (r, p') → process_ok p → 0 < next_id p < 2 ^ 31 - 1 →
  process_ok p' ∧ next_id p' = next_id p + 1.
Proof.
  unfold construct. intros E [H1 H2 H3 H4 H5] Hid. rewrite next_id_exact in E by done. cbv zeta in E. cbn [next_id instances last_sockets next_socket_id sent_control] in E.
  assert (process_ok (mkProcess (next_id p + 1) (instances p) (last_sockets p) (next_socket_id p) (sent_control p))) as Hsame.
  { split; cbn [next_id instances last_sockets next_socket_id]; [| |done..].
    - intros j x Hx. specialize (H1 _ _ Hx). lia.
    - intros t j s Hl. specialize (H2 _ _ _ Hl). lia. }
  destruct (check_keys _ _ _ _ _ _) as [[pk' sk']| | |]; injection E as <- <-; [|done..]. split; [|done]. destruct Hsame as [G1 G2 _ _ _].
  assert (∀ j x t s, <[next_id p := mkInstance pk' sk' sn [] false false None ∅]> (instances p) !! j = Some x → control_sockets x !! t = Some s →
    instances p !! j = Some x) as Hold by (by intros j x t s [(<- & <-)|(_ & Hx)]%lookup_insert_Some).
  split; cbn [instances with_instances next_id last_sockets next_socket_id] in *; [| |idtac..].
  - intros j x [(<- & _)|(_ & Hx)]%lookup_insert_Some; [lia|by eapply G1].
  - done.
  - intros t j s x Hl. specialize (H2 _ _ _ Hl). rewrite lookup_insert_ne by lia. by eapply H3.
  - intros j x t s Hx Hc. by eapply H4; [eapply Hold|].
  - intros j x t j' x' t' s Hx Hc Hx' Hc'. by eapply H5; [eapply Hold| |eapply Hold|].
Qed.

(** Nothing else touches the ids. *)
Definition same_id {A} (m : M process A) : Prop := ∀ p r p', m p = (r, p') → next_id p' = next_id p.

Lemma same_id_bind {A C} (m : M process A) (f : A → M process C) : same_id m → (∀ a, same_id (f a)) → same_id (m ≫= f).
Proof using Type.
  clear. intros Hm Hf p r p'. unfold mbind, M_bind. destruct (m p) as [[a|e| |] p1] eqn:E; intros E'; pose proof (Hm _ _ _ E); [|by simplify_eq..].
  apply Hf in E'. congruence.
Qed.

Lemma same_id_getS {A} (f : process → M process A) : (∀ x, same_id (f x)) → same_id (getS ≫= f).
Proof using Type. clear. intros Hf p r p' E. exact (Hf p p r p' E). Qed.

Lemma same_id_op op : match op with po_construct _ _ _ _ _ => True | _ => same_id (run_proc_op scalarmult_base op) end.
Proof.
  assert (∀ id, same_id (the_instance id)) as H1.
  { intros id p r p'. unfold the_instance. by destruct (instances p !! id); intros [= <- <-]. }
  assert (∀ id f, same_id (update_instance id f)) as H2 by (by intros id f p r p' [= <- <-]).
  assert (∀ s c, same_id (send_command s c)) as H3 by (by intros s c p r p' [= <- <-]).
  assert (∀ A (a : A), same_id (mret a)) as H4 by (by intros A a p r p' [= <- <-]).
  assert (∀ A e, same_id (throwM e : M process A)) as H5 by (by intros A e p r p' [= <- <-]).
  assert (∀ A (o : outcome A), same_id (liftM o)) as H6 by (by intros A o p r p' [= <- <-]).
  assert (∀ id t, same_id (get_control_socket id t)) as H7.
  { intros id t. apply same_id_bind; [done|]. intros o. destruct (negb _); [by intros p r p' [= <- <-]|]. apply same_id_getS. intros p.
    assert (same_id (s ← open_control_socket id t; _ ← remember_socket id t s; mret s)) as Ho.
    { apply same_id_bind; [|intros s; by apply same_id_bind; [intros ? ? ? [= <- <-]|]].
      intros q r q'. unfold open_control_socket. destruct (instances q !! id) as [x|]; [|by intros [= <- <-]].
      by destruct (control_sockets x !! t); intros [= <- <-]. }
    destruct (last_sockets p !! t) as [[]|]; [destruct (_ =? _); [done|]|]; by destruct (proxy_shutting_down o). }
  destruct op; cbn [run_proc_op]; [done|..].
  - apply same_id_bind; [done|]. intros o. apply same_id_bind; [done|]. by intros.
  - apply same_id_bind; [done|]. intros o. destruct (proxy_running o); [done|]. destruct (_ && _); [done|]. destruct (negb _); [done|].
    apply same_id_bind; [done|]. intros _. apply same_id_bind; [done|]. intros s. apply same_id_bind; [done|]. intros _.
    destruct reply as [[|m []]|]; try done. by destruct (bytes_eqb _ _).
  - by apply same_id_bind.
  - by apply same_id_bind.
  - apply same_id_bind; [done|]. intros o. apply same_id_bind; [|by intros _ p r p' [= <- <-]]. destruct (proxy_running o); [|done].
    apply same_id_bind; [done|]. intros s. apply same_id_bind; [done|]. intros _. by apply same_id_bind.
Qed.

Lemma proc_reach_ok p : proc_reach scalarmult_base p → process_ok p ∧ 0 < next_id p.
Proof.
  induction 1 as [|op p r p' _ [Hok Hid] E _ Hlt]; [by repeat split|].
  assert (process_ok p' ∧ next_id p <= next_id p') as [H1 H2]; [|split; [done|lia]]. pose proof (same_id_op op) as Hs. destruct op.
  - cbn [run_proc_op] in E. unfold mbind, M_bind in E. destruct (construct _ _ _ _ _ _ p) as [x q] eqn:Ec.
    destruct (construct_ok _ _ _ _ _ _ _ _ Ec Hok) as [H Hn]; [lia|]. assert (p' = q) as -> by (destruct x; by injection E). split; [done|lia].
  - rewrite (Hs _ _ _ E). split; [|lia]. by eapply keeps_add_bind.
  - rewrite (Hs _ _ _ E). split; [|lia]. by eapply keeps_start.
  - rewrite (Hs _ _ _ E). split; [|lia]. by eapply (keeps_bind (get_control_socket id t) _ (keeps_control id t) (λ _, keeps_ret tt)).
  - rewrite (Hs _ _ _ E). split; [|lia]. by eapply keeps_note_shutdown.
  - rewrite (Hs _ _ _ E). split; [|lia]. by eapply keeps_destroy.
Qed.
End reach.

(** ** Properties *)

(** Whether the thread's last socket is one of this object. *)
Definition is_cached (id : Z) (t : thread_id) (p : process) : bool :=
  match last_sockets p !! t with Some (last_id, _) => last_id =? id | None => false end.

Lemma get_control_eq id t p o :
  instances p !! id = Some o → proxy_running o = true →
  get_control_socket id t p =
    match last_sockets p !! t with
    | Some (last_id, s) => if last_id =? id then (Ok s, p) else
        if proxy_shutting_down o then (Throw runtime_error, p) else (s ← open_control_socket id t; _ ← remember_socket id t s; mret s) p
    | None => if proxy_shutting_down o then (Throw runtime_error, p) else (s ← open_control_socket id t; _ ← remember_socket id t s; mret s) p
    end.
Proof.
  intros Ho Hr. unfold get_control_socket at 1. unfold the_instance, mbind at 1, M_bind at 1. rewrite Ho, Hr. cbn [negb].
  unfold mbind at 1, M_bind at 1, getS. destruct (last_sockets p !! t) as [[j s]|]; [destruct (_ =? _); [done|]|]; by destruct (proxy_shutting_down o).
Qed.

Lemma open_control_ok id t p o :
  instances p !! id = Some o →
  ∃ s p' o', (s ← open_control_socket id t; _ ← remember_socket id t s; mret s) p = (Ok s, p') ∧ instances p' !! id = Some o' ∧
    proxy_running o' = proxy_running o ∧ control_sockets o' !! t = Some s ∧ last_sockets p' !! t = Some (id, s).
Proof.
  intros Ho. unfold mbind, M_bind, open_control_socket. rewrite Ho. destruct (control_sockets o !! t) as [s|] eqn:Es; cbn;
    eexists _, _, _; (split; [reflexivity|]); cbn [instances last_sockets].
  - split_and!; [done|done|done|apply lookup_insert_eq].
  - split_and!; [apply lookup_insert_eq|done| |apply lookup_insert_eq]. cbn. apply lookup_insert_eq.
Qed.

(** C32. A control socket belongs to one thread and one object.  However objects were
    constructed, started, used from threads and destroyed, [get_control_socket] on a live
    object returns the calling thread's own socket of that object, which no other thread
    or object has, also when the thread remembers a socket of an object that is gone;
    the next call returns it again.  Once the proxy is shutting down it throws, except
    for a thread whose last socket was one of this object. *)
Theorem control_sockets_own scalarmult_base p id o t :
  proc_reach scalarmult_base p → instances p !! id = Some o → proxy_running o = true →
  if proxy_shutting_down o && negb (is_cached id t p) then get_control_socket id t p = (Throw runtime_error, p)
  else ∃ s p' o', get_control_socket id t p = (Ok s, p') ∧ instances p' !! id = Some o' ∧ control_sockets o' !! t = Some s ∧
    (∀ id2 o2 t2, instances p' !! id2 = Some o2 → control_sockets o2 !! t2 = Some s → id2 = id ∧ t2 = t) ∧
    get_control_socket id t p' = (Ok s, p').
Proof.
  intros Hr Ho Hrun. destruct (proc_reach_ok _ _ Hr) as [Hok _]. pose proof (get_control_eq id t p o Ho Hrun) as E.
  assert (∀ s p' o', get_control_socket id t p = (Ok s, p') → instances p' !! id = Some o' → proxy_running o' = true →
    control_sockets o' !! t = Some s → last_sockets p' !! t = Some (id, s) →
    ∃ s p' o', get_control_socket id t p = (Ok s, p') ∧ instances p' !! id = Some o' ∧ control_sockets o' !! t = Some s ∧
      (∀ id2 o2 t2, instances p' !! id2 = Some o2 → control_sockets o2 !! t2 = Some s → id2 = id ∧ t2 = t) ∧
      get_control_socket id t p' = (Ok s, p')) as Hown.
  { intros s p' o' Eg Ho' Hr' Hc Hl. exists s, p', o'. pose proof (keeps_control id t _ _ _ Eg Hok) as Hok'. split_and!; [done..| |].
    - intros id2 o2 t2 H2 Hc2. by eapply (pk_unique _ Hok').
    - rewrite (get_control_eq id t p' o' Ho' Hr'), Hl. by rewrite Z.eqb_refl. }
  assert (get_control_socket id t p = (s ← open_control_socket id t; _ ← remember_socket id t s; mret s) p →
    ∃ s p' o', get_control_socket id t p = (Ok s, p') ∧ instances p' !! id = Some o' ∧ proxy_running o' = true ∧
      control_sockets o' !! t = Some s ∧ last_sockets p' !! t = Some (id, s)) as Hopen.
  { intros Eg. destruct (open_control_ok id t p o Ho) as (s & p' & o' & Eo & H1 & H2 & H3 & H4). exists s, p', o'. rewrite Eg. split_and!; congruence. }
  unfold is_cached. destruct (last_sockets p !! t) as [[j s]|] eqn:El; [destruct (j =? id) eqn:Ej|]; cbn [negb] in *.
  - apply Z.eqb_eq in Ej as ->. rewrite andb_false_r. apply (Hown s p o); try done. by eapply (pk_cache _ Hok).
  - rewrite andb_true_r. destruct (proxy_shutting_down o); [done|]. destruct (Hopen E) as (s' & p' & o' & H1 & H2 & H3 & H4 & H5). by eapply Hown.
  - rewrite andb_true_r. destruct (proxy_shutting_down o); [done|]. destruct (Hopen E) as (s' & p' & o' & H1 & H2 & H3 & H4 & H5). by eapply Hown.
Qed.

(** What is assumed of libsodium's [crypto_box_keypair]: it makes keys of the documented
    sizes, the public one belonging to the secret one. *)
Definition keypair_ok (scalarmult_base : bytes → bytes) (kp : bytes * bytes) : Prop :=
  length kp.1 = 32%nat ∧ length kp.2 = 32%nat ∧ scalarmult_base kp.2 = kp.1.

(** An object has a matching pair of 32-byte keys: the given ones, or without any, and
    for other than service nodes, a generated pair; everything else is refused. *)
Theorem construct_exact scalarmult_base kp pk sk sn :
  keypair_ok scalarmult_base kp →
  match check_keys scalarmult_base true kp pk sk sn with
  | Ok keys => keypair_ok scalarmult_base keys ∧ (keys = (pk, sk) ∨ pk = [] ∧ sk = [] ∧ sn = false ∧ keys = kp)
  | Throw e => e = invalid_argument ∧ ¬ keypair_ok scalarmult_base (pk, sk) ∧ (sn = true ∨ pk ≠ [] ∨ sk ≠ [])
  | _ => False
  end.
Proof.
  intros Hkp. unfold check_keys. cbn [negb]. destruct (bool_decide (pk = [])) eqn:E1, (bool_decide (sk = [])) eqn:E2; cbn [Bool.eqb negb];
    rewrite ?bool_decide_eq_true, ?bool_decide_eq_false in *; unfold keypair_ok in *; cbn [fst snd] in *.
  - subst. destruct sn; [|by split; [|right]]. split_and!; [done|by intros []|by left].
  - subst. split_and!; [done|by intros []|by right; right].
  - subst. split_and!; [done|by intros (_ & ? & _)|by right; left].
  - destruct (length pk =? 32)%nat eqn:L1; cbn [negb]; [|split_and!; [done|intros (? & ? & ?); lia|by right; left]].
    destruct (length sk =? 32)%nat eqn:L2; cbn [negb]; [|split_and!; [done|intros (? & ? & ?); lia|by right; left]].
    destruct (bytes_eqb _ _) eqn:Eb; cbn [negb].
    + apply bytes_eqb_eq in Eb. split; [|by left]. cbn [fst snd]. split_and!; [lia|lia|done].
    + split_and!; [done| |by right; left]. intros (_ & _ & E). by rewrite E, bytes_eqb_refl in Eb.
Qed.

(** ** A concrete process: two objects, two threads *)
Definition demo_scalarmult (sk : bytes) : bytes := rev sk.
Definition demo_keys : bytes * bytes := (replicate 32 "k"%byte, replicate 32 "k"%byte).
Definition ready : option (list bytes) := Some [B "READY"].
Definition proc_run (ops : list proc_op) : process := foldl (λ p op, (run_proc_op demo_scalarmult op p).2) empty_process ops.

(** Object 1 is started and used by threads 0 and 1, then destroyed; object 2 is
    started by thread 1. *)
Definition demo_ops : list proc_op :=
  [ po_construct true demo_keys [] [] false; po_start 1 0 10 1024 true ready; po_control 1 1; po_destroy 1 0;
    po_construct true demo_keys [] [] false; po_start 2 1 10 1024 true ready ].
Definition demo_process : process := proc_run demo_ops.

Fixpoint proc_fine (p : process) (ops : list proc_op) : Prop :=
  match ops with
  | [] => True
  | op :: ops => next_id p < 2 ^ 31 - 1 ∧ (run_proc_op demo_scalarmult op p).1 ≠ UB ∧ proc_fine (run_proc_op demo_scalarmult op p).2 ops
  end.

Lemma proc_fine_reach p ops :
  proc_reach demo_scalarmult p → proc_fine p ops → proc_reach demo_scalarmult (foldl (λ p op, (run_proc_op demo_scalarmult op p).2) p ops).
Proof.
  revert p. induction ops as [|op ops IH]; intros p Hp; [done|]. intros (Hid & Hub & Hrest). cbn [foldl]. apply IH; [|done].
  destruct (run_proc_op demo_scalarmult op p) as [r p'] eqn:E. by eapply proc_next.
Qed.

Lemma demo_process_reach : proc_reach demo_scalarmult demo_process.
Proof. apply proc_fine_reach; [apply proc_init|]. vm_compute. by repeat split. Qed.

Definition demo_instance : instance := mkInstance demo_keys.1 demo_keys.2 false [] true false (Some 10) {[1%nat := 2%nat]}.

(** Thread 0 has a socket of the object that is gone, and gets a new one. *)
Lemma control_sockets_own_witness :
  is_cached 1 0 demo_process = true ∧
  ∃ s p' o', get_control_socket 2 0 demo_process = (Ok s, p') ∧ instances p' !! 2 = Some o' ∧ control_sockets o' !! 0%nat = Some s ∧
    (∀ id2 o2 t2, instances p' !! id2 = Some o2 → control_sockets o2 !! t2 = Some s → id2 = 2 ∧ t2 = 0%nat) ∧
    get_control_socket 2 0 p' = (Ok s, p').
Proof.
  split; [vm_compute; reflexivity|].
  apply (control_sockets_own demo_scalarmult demo_process 2 demo_instance 0 demo_process_reach); vm_compute; reflexivity.
Defined.

Lemma construct_exact_witness : keypair_ok demo_scalarmult demo_keys ∧ check_keys demo_scalarmult true demo_keys [] [] false = Ok demo_keys.
Proof.
  assert (keypair_ok demo_scalarmult demo_keys) as Hk by (vm_compute; done). split; [done|].
  pose proof (construct_exact demo_scalarmult demo_keys [] [] false Hk) as H. vm_compute. reflexivity.
Defined.

(** ** Tagged threads of an object that is never started

    They wait for [START], get [QUIT] instead, and are gone. *)
Definition waiting_threads (n : nat) : gmap bytes wthread :=
  list_to_map ((λ w, (routing_id true w, new_thread true w)) <$> seq 0 n).

Lemma waiting_lookup n w : (w < n)%nat → waiting_threads n !! routing_id true w = Some (new_thread true w).
Proof.
  intros Hw. unfold waiting_threads. apply elem_of_list_to_map.
  - rewrite <-list_fmap_compose. apply NoDup_fmap_2; [|apply NoDup_seq]. intros v u E. cbn in E. apply (routing_id_inj true v true u) in E. by injection E.
  - apply list_elem_of_fmap. exists w. split; [done|]. apply elem_of_seq. lia.
Qed.

Lemma posts_lookup cmd l th rt x :
  NoDup l → th !! rt = Some x →
  foldl (λ th rt, post cmd rt th) th l !! rt = Some (if decide (rt ∈ l) then with_inbox (wt_inbox x ++ [[cmd]]) x else x).
Proof.
  revert th x. induction l as [|r l IH]; intros th x Hl Hx; [done|]. apply NoDup_cons in Hl as [Hr Hl]. cbn [foldl].
  destruct (decide (r = rt)) as [->|Hne].
  - rewrite (IH _ (with_inbox (wt_inbox x ++ [[cmd]]) x)); [|done|unfold post; by rewrite lookup_alter_eq, Hx].
    rewrite decide_False, decide_True by set_solver. done.
  - rewrite (IH _ x); [|done|unfold post; by rewrite lookup_alter_ne]. f_equal. destruct (decide (rt ∈ l)).
    + by rewrite decide_True by set_solver.
    + by rewrite decide_False by set_solver.
Qed.

(** The destructor of an object that was not started returns: each of its tagged threads
    gets [QUIT] once and ends. *)
Theorem unstarted_threads_end cs tagged w :
  start_ok cs tagged → (w < length tagged)%nat →
  ∃ x x', quit_unstarted tagged (waiting_threads (length tagged)) !! routing_id true w = Some x ∧
    worker_recv x = Some (x', [B "QUITTING"]) ∧ wt_phase x' = ph_gone ∧ wt_inbox x' = [].
Proof.
  intros Hst Hw. set (rts := (λ x : run_info * bool * list batch_job, worker_routing_id x.1.1) <$> tagged).
  assert (rts = routing_id true <$> seq 0 (length tagged)) as Erts.
  { apply list_eq. intros j. unfold rts. rewrite !list_lookup_fmap. destruct (tagged !! j) as [[[r b] q]|] eqn:Ej.
    - rewrite (lookup_seq_lt _ _ _ (lookup_lt_Some _ _ _ Ej)). cbn. f_equal. by apply (start_tagged _ _ Hst _ _ _ _ Ej).
    - by rewrite (lookup_seq_ge _ _ _ (proj1 (lookup_ge_None _ _) Ej)). }
  assert (quit_unstarted tagged (waiting_threads (length tagged)) = foldl (λ th rt, post (B "QUIT") rt th) (waiting_threads (length tagged)) rts) as ->.
  { unfold quit_unstarted, rts. generalize (waiting_threads (length tagged)). clear. induction tagged as [|x l IH]; intros th; [done|]. apply IH. }
  rewrite (λ Hnd, posts_lookup (B "QUIT") rts _ _ _ Hnd (waiting_lookup (length tagged) w Hw)).
  2:{ rewrite Erts. apply NoDup_fmap_2; [|apply NoDup_seq]. intros v u E. apply (routing_id_inj true v true u) in E. by injection E. }
  rewrite decide_True; [by eexists _, _|]. rewrite Erts. apply list_elem_of_fmap. exists w. split; [done|]. apply elem_of_seq. lia.
Qed.
