(* ===== verification/Startup.v ===== *)
(** From a new object to the running program (arqmamq.h, arqmamq.cpp, auth.cpp, jobs.cpp,
    proxy.cpp): the calls that configure it before [start()], in any order, and all that
    [proxy_loop] does before its first iteration.  The states Loop.v and System.v start
    from are the ones that come out of it. *)
From S2P Require Import Prelude BtValue BtSerialize BtCodec Address Commands Connections Control Auth Net NetInv Sockets Batch Admission Scheduler BatchOwner SchedulerInv Frame Proxy Timers Loop Handover LoopInv Worker WorkerInv System Lifecycle.
Open Scope Z_scope.

(** ** Configuration *)

(** What the calls before [start()] change. *)
Record setup : Type := mkSetup {
  su_registry : registry;
  su_threads : thread_config;
  su_tagged : list (run_info * bool * list batch_job);
  su_binds : list bind_data;
  su_active : gset bytes;
  su_timers : timers;
  su_next_timer : Z                       (* next_timer_id *)
}.

(** [hardware_concurrency] may be 0 when it is not known. *)
Definition new_setup (hardware_concurrency : Z) : setup :=
  mkSetup empty_registry (mkThreads (Z.max 1 (it_cast c_int hardware_concurrency)) (-1) (-1)) [] [] ∅ no_timers 1.

Inductive config_call : Type :=
  | cc_category (name : bytes) (access_level : Access) (reserved max_queue_ : Z)
  | cc_command (cat_ name : bytes) (cb : callback)
  | cc_request_command (cat_ name : bytes) (cb : callback)
  | cc_alias (from to : bytes)
  | cc_tagged_thread (name : bytes)
  | cc_batch_threads (threads : Z)
  | cc_reply_threads (threads : Z)
  | cc_general_threads (threads : Z)
  | cc_listen (curve_ : bool) (bind_addr_ : bytes) (allow : callback)
  | cc_set_sns (pubkeys : gset bytes)
  | cc_update_sns (added removed : gset bytes)
  | cc_timer (zmq_id : Z) (job : callback) (interval : Z) (squelch : bool) (thread : option Z)
  | cc_cancel_timer (timer_id : Z).

(** A change of the registry alone. *)
Definition on_registry (m : M registry unit) (su : setup) : outcome setup :=
  match m (su_registry su) with
  | (Ok _, r) => Ok (mkSetup r (su_threads su) (su_tagged su) (su_binds su) (su_active su) (su_timers su) (su_next_timer su))
  | (Throw e, _) => Throw e
  | (UB, _) => UB
  | (Diverge, _) => Diverge
  end.
Definition on_threads (t : outcome thread_config) (su : setup) : outcome setup :=
  t ← t; Ok (mkSetup (su_registry su) t (su_tagged su) (su_binds su) (su_active su) (su_timers su) (su_next_timer su)).

(** There are no connections yet: the service node calls change the active set only. *)
Definition on_active (f : conns → outcome conns) (su : setup) : outcome setup :=
  cs ← f (fresh_conns (su_active su));
  Ok (mkSetup (su_registry su) (su_threads su) (su_tagged su) (su_binds su) (active_service_nodes cs) (su_timers su) (su_next_timer su)).

(** The proxy thread does not run yet: timers are added and cancelled directly.  [zmq_id]
    is what [zmq_timers_add] returns. *)
Definition on_timers (t : timers) (next : Z) (su : setup) : setup :=
  mkSetup (su_registry su) (su_threads su) (su_tagged su) (su_binds su) (su_active su) t next.

Definition configure (c : config_call) (su : setup) : outcome setup :=
  match c with
  | cc_category name a res mq => on_registry (add_category name a res mq) su
  | cc_command cat_ name cb => on_registry (add_command cat_ name cb) su
  | cc_request_command cat_ name cb => on_registry (add_request_command cat_ name cb) su
  | cc_alias from to => on_registry (add_command_alias from to) su
  | cc_tagged_thread name =>
      '(_, tagged) ← add_tagged_thread false name (su_tagged su);
      Ok (mkSetup (su_registry su) (su_threads su) tagged (su_binds su) (su_active su) (su_timers su) (su_next_timer su))
  | cc_batch_threads n => on_threads (set_batch_threads false n (su_threads su)) su
  | cc_reply_threads n => on_threads (set_reply_threads false n (su_threads su)) su
  | cc_general_threads n => on_threads (set_general_threads false n (su_threads su)) su
  | cc_listen curve_ addr allow =>
      binds ← listen false curve_ addr allow (su_binds su);
      Ok (mkSetup (su_registry su) (su_threads su) (su_tagged su) binds (su_active su) (su_timers su) (su_next_timer su))
  | cc_set_sns keys => on_active (proxy_set_active_sns keys) su
  | cc_update_sns added removed => on_active (proxy_update_active_sns added removed) su
  | cc_timer zmq_id job interval squelch thread =>
      '(_, next, _, t, _) ← add_timer false zmq_id (su_next_timer su) job interval squelch thread (su_timers su);
      Ok (on_timers t next su)
  | cc_cancel_timer timer_id => let '(_, t, _) := cancel_timer false timer_id (su_timers su) in Ok (on_timers t (su_next_timer su) su)
  end.

(** What [add_timer] has done when zmq refuses the timer and it throws. *)
Definition timer_refused (su : setup) : setup :=
  on_timers (mkTimers true (timer_jobs (su_timers su)) (timer_zmq_id (su_timers su)) (closures (su_timers su)))
    (it_cast c_int (su_next_timer su + 1)) su.

(** The numbers passed fit their types: [unsigned int] reservations; the thread of a timer
    is [run_in_proxy], none, or one that [add_tagged_thread] has returned. *)
Definition call_fits (c : config_call) (su : setup) : Prop :=
  match c with
  | cc_category _ _ res _ => 0 <= res < 2 ^ 32
  | cc_timer _ _ _ _ thread => -1 <= default 0 thread <= Z.of_nat (length (su_tagged su))
  | _ => True
  end.

(** A call that throws leaves the object as it was, but for [add_timer], and the caller
    may go on. *)
Inductive configured (hardware_concurrency : Z) : setup → Prop :=
  | configured_new : configured hardware_concurrency (new_setup hardware_concurrency)
  | configured_call c su su' : configured hardware_concurrency su → call_fits c su → configure c su = Ok su' → configured hardware_concurrency su'
  | configured_refused su : configured hardware_concurrency su → configured hardware_concurrency (timer_refused su).

(** ** What [proxy_loop] does before its loop *)

(** [chown] is whether the call succeeds for a path, [timer_ok] whether
    [zmq_timers_add] accepts the cleanup timer, and [msgs] what arrives on the workers'
    socket. *)
Definition startup_route (x : run_info * bool * list batch_job) : bytes := worker_routing_id x.1.1.

Definition tell_started (tagged : list (run_info * bool * list batch_job)) (th : gmap bytes wthread) : gmap bytes wthread :=
  foldl (λ th rt, post (B "START") rt th) th (startup_route <$> tagged).

(** The timers get their zmq object, if they have none, for the cleanup timer, which is
    not in [timer_jobs]. *)
Definition start_timers (t : timers) : timers := mkTimers true (timer_jobs t) (timer_zmq_id t) (closures t).

Definition proxy_startup (c : settings) (bind_ok chown : bytes → bool) (timer_ok : bool) (msgs : list (list bytes)) (su : setup) : outcome system :=
  s ← proxy_start (su_threads su) (categories (su_registry su)) (su_tagged su);
  if negb (bool_decide (workers s = [])) then Throw logic_error
  else
    tb ← proxy_bind bind_ok (su_binds su) (su_active su);
    _ ← set_owners c chown (su_binds su);
    if negb timer_ok then Throw zmq_error_t
    else
      match await_tagged (list_to_set (startup_route <$> su_tagged su)) msgs with
      | None => Diverge                       (* it waits for more messages *)
      | Some rest =>
          Ok (mkSystem (mkProxy (mkNet tb ∅) (start_timers (su_timers su)) s ∅ [])
                (tell_started (su_tagged su) (waiting_threads (length (su_tagged su)))) rest)
      end.

(** ** The invariant of a configuration *)
Record setup_ok (su : setup) : Prop := {
  so_start : start_ok (categories (su_registry su)) (su_tagged su);
  so_general : 1 <= general_workers_cfg (su_threads su);
  so_unstarted : Commands.started (su_registry su) = false;
  so_active p : p ∈ su_active su → key_size p;
  so_timers : idle_timers (length (su_tagged su)) (su_timers su)
}.

Lemma fresh_conns_ok active : (∀ p, p ∈ active → key_size p) → conns_ok (fresh_conns active).
Proof. intros Ha. split; cbn; try done; try set_solver; constructor. Qed.

(** The registry calls: a category is added idle, and later calls only add commands. *)
Definition cats_idle (cs : gmap bytes category) : Prop :=
  ∀ n c, cs !! n = Some c → 0 <= reserved_threads c ∧ active_threads c = 0 ∧ queued c = 0.

Lemma cats_idle_commands cs n c f : cats_idle cs → cs !! n = Some c → cats_idle (<[n := set_commands f c]> cs).
Proof. intros Hi Hc m d [(<- & <-)|(_ & Hd)]%lookup_insert_Some; [|by apply (Hi m)]. apply (Hi _ _ Hc). Qed.

Lemma on_registry_ok m su su' :
  setup_ok su → on_registry m su = Ok su' →
  (∀ r', m (su_registry su) = (Ok tt, r') → cats_idle (categories r') ∧ Commands.started r' = false) → setup_ok su'.
Proof.
  intros [[H1 H2] H3 H4 H5 H6] E Hm. unfold on_registry in E. destruct (m (su_registry su)) as [[[]| | |] r'] eqn:Em; try done. injection E as <-.
  destruct (Hm r' eq_refl) as [Hi Hs]. split; [split; [exact Hi|done]|done..].
Qed.

Lemma on_active_ok f su su' :
  setup_ok su → (∀ cs, conns_ok cs → ∃ cs', f cs = Ok cs' ∧ conns_ok cs') → on_active f su = Ok su' → setup_ok su'.
Proof.
  intros [H1 H2 H3 H4 H5] Hf E. unfold on_active in E. destruct (Hf _ (fresh_conns_ok _ H4)) as (cs' & Ef & Hok). rewrite Ef in E. injection E as <-.
  split; cbn; try done. apply (ok_active _ Hok).
Qed.

Lemma on_threads_ok t su su' :
  setup_ok su → on_threads t su = Ok su' → (∀ t', t = Ok t' → 1 <= general_workers_cfg t') → setup_ok su'.
Proof.
  intros [H1 H2 H3 H4 H5] E Ht. unfold on_threads in E. destruct t as [t'| | |]; try done. injection E as <-. split; cbn; try done. by apply Ht.
Qed.

Lemma setup_ok_timers t next su : setup_ok su → idle_timers (length (su_tagged su)) t → setup_ok (on_timers t next su).
Proof. intros [H1 H2 H3 H4 _] Ht. by split. Qed.

Lemma configure_ok c su su' : setup_ok su → call_fits c su → configure c su = Ok su' → setup_ok su'.
Proof.
  intros Hok Hc E. pose proof (start_cats _ _ (so_start _ Hok)) as Hi. change (cats_idle (categories (su_registry su))) in Hi.
  pose proof (so_unstarted _ Hok) as Hu. destruct c as [name a res mq|cat_ name cb|cat_ name cb|from to|name|n|n|n|cv addr allow|keys|added removed|z job interval squelch thread|z]; cbn [configure] in E.
  - eapply on_registry_ok; [done|exact E|]. intros r' [[_ [e He]]|(_ & _ & _ & _ & _ & _ & ->)]%add_category_inv; [done|]. split; [|done]. cbn [categories].
    intros n d [(<- & <-)|(_ & Hd)]%lookup_insert_Some; [|by apply (Hi n)]. cbn in *. lia.
  - eapply on_registry_ok; [done|exact E|]. intros r' [[_ [e He]]|(d & _ & _ & _ & Hd & _ & _ & ->)]%add_command_inv; [done|]. split; [|done]. by apply cats_idle_commands.
  - eapply on_registry_ok; [done|exact E|]. intros r' [[_ [e He]]|(d & _ & _ & _ & Hd & _ & _ & ->)]%add_request_command_inv; [done|]. split; [|done]. by apply cats_idle_commands.
  - eapply on_registry_ok; [done|exact E|]. intros r' [[_ [e He]]|(_ & _ & _ & _ & _ & ->)]%add_command_alias_inv; [done|]. by split.
  - inv_bind. destruct a as [n tagged]. injection E as <-. destruct Hok as [H1 H2 H3 H4 [H5 H6]]. split; cbn; try done; [by eapply add_tagged_thread_start|].
    split; [done|]. intros z d Hd. destruct (H6 z d Hd) as [? ?]. split; [done|].
    assert (length (su_tagged su) <= length tagged)%nat; [|lia]. revert E0. unfold add_tagged_thread.
    repeat (case_match; try done); intros [= _ <-]; rewrite length_app; lia.
  - eapply on_threads_ok; [done|exact E|]. intros t'. unfold set_batch_threads. destruct (_ <? -1); [done|]. intros [= <-]. apply (so_general _ Hok).
  - eapply on_threads_ok; [done|exact E|]. intros t'. unfold set_reply_threads. destruct (_ <? -1); [done|]. intros [= <-]. apply (so_general _ Hok).
  - eapply on_threads_ok; [done|exact E|]. intros t'. unfold set_general_threads. destruct (_ <? 1) eqn:En; [done|]. intros [= <-]. cbn. lia.
  - injection E as <-. destruct Hok as [H1 H2 H3 H4 H5]. by split.
  - eapply on_active_ok; [done| |exact E]. intros cs Hcs. destruct (set_active_sns_ok keys cs Hcs) as (cs' & E' & Hok' & _). by eauto.
  - eapply on_active_ok; [done| |exact E]. intros cs Hcs. destruct (update_active_sns_ok added removed cs Hcs) as (cs' & E' & Hok' & _). by eauto.
  - destruct (so_timers _ Hok) as [Hcl Hj]. unfold add_timer, proxy_timer in E. destruct (z =? -1); [done|]. injection E as <-.
    apply setup_ok_timers; [done|]. split; [done|]. intros z' d. cbn. rewrite lookup_insert_Some. intros [[_ <-]|[_ Hd]]; [by split|by apply (Hj z')].
  - unfold cancel_timer, proxy_timer_del in E. destruct (so_timers _ Hok) as [Hcl Hj].
    destruct (negb _); [injection E as <-; by apply setup_ok_timers|].
    destruct (_ !! z); injection E as <-; by apply setup_ok_timers.
Qed.

Lemma configured_ok hw su : configured hw su → setup_ok su.
Proof.
  induction 1 as [|c su su' _ IH Hc E|su _ IH]; [|by eapply configure_ok|apply setup_ok_timers; [done|by destruct (so_timers _ IH)]].
  split; [|cbn; lia|done|set_solver|apply idle_no_timers]. split; [|done]. intros n c. cbn. by rewrite lookup_empty.
Qed.

(** ** Startup *)
Lemma startup_routes cs tagged : start_ok cs tagged → startup_route <$> tagged = routing_id true <$> seq 0 (length tagged).
Proof.
  intros Hst. apply list_eq. intros j. rewrite !list_lookup_fmap. destruct (tagged !! j) as [[[r b] q]|] eqn:Ej.
  - rewrite (lookup_seq_lt _ _ _ (lookup_lt_Some _ _ _ Ej)). cbn. f_equal. by apply (start_tagged _ _ Hst _ _ _ _ Ej).
  - by rewrite (lookup_seq_ge _ _ _ (proj1 (lookup_ge_None _ _) Ej)).
Qed.

Lemma routes_NoDup n : NoDup (routing_id true <$> seq 0 n).
Proof. apply NoDup_fmap_2; [|apply NoDup_seq]. intros v u E. apply (routing_id_inj true v true u) in E. by injection E. Qed.

(** Once told, the tagged threads are as the running program has them at its start. *)
Lemma posts_dom cmd l th rt : is_Some (foldl (λ th rt, post cmd rt th) th l !! rt) ↔ is_Some (th !! rt).
Proof.
  revert th. induction l as [|r l IH]; intros th; [done|]. cbn [foldl]. rewrite IH. unfold post. by rewrite lookup_alter_is_Some.
Qed.

Lemma tell_started_threads cs tagged :
  start_ok cs tagged → tell_started tagged (waiting_threads (length tagged)) = start_threads (length tagged).
Proof.
  intros Hst. unfold tell_started. rewrite (startup_routes cs tagged Hst). set (n := length tagged). apply map_eq. intros rt.
  destruct (start_threads n !! rt) as [x|] eqn:Ex.
  - apply start_threads_lookup in Ex as (w & Hw & -> & ->). rewrite (posts_lookup _ _ _ _ _ (routes_NoDup n) (waiting_lookup n w Hw)).
    rewrite decide_True; [done|]. apply list_elem_of_fmap. exists w. split; [done|]. apply elem_of_seq. lia.
  - apply eq_None_not_Some. rewrite posts_dom. intros [x Hx]. unfold waiting_threads in Hx.
    apply elem_of_list_to_map_2, list_elem_of_fmap in Hx as (w & Hrw & Hw%elem_of_seq). injection Hrw as -> ->.
    apply eq_None_not_Some in Ex. apply Ex. eexists. apply start_threads_lookup. exists w. split_and!; [lia|done..].
Qed.

(** What the tagged threads send, in any order: the wait ends with the last of it. *)
Definition starting (rt : bytes) : list bytes := [rt; B "STARTING"].

Lemma await_all l msgs : NoDup l → msgs ≡ₚ starting <$> l → await_tagged (list_to_set l) msgs = Some [].
Proof.
  revert l. induction msgs as [|m msgs IH]; intros l Hnd Hp.
  - apply Permutation_nil_l in Hp. destruct l; [done|discriminate Hp].
  - assert (m ∈ starting <$> l) as (rt & -> & Hrt)%list_elem_of_fmap by (rewrite <-Hp; by left).
    assert (∃ l', l ≡ₚ rt :: l') as [l' Hl].
    { apply list_elem_of_split in Hrt as (l1 & l2 & ->). exists (l1 ++ l2). solve_Permutation. }
    rewrite Hl in Hp, Hnd. apply NoDup_cons in Hnd as [Hn Hnd].
    assert (list_to_set l = {[rt]} ∪ list_to_set l' :> gset bytes) as -> by (apply set_eq; intros x; rewrite elem_of_list_to_set, Hl; set_solver).
    cbn [await_tagged]. rewrite decide_False by set_solver. cbn [starting]. rewrite bytes_eqb_refl.
    replace (({[rt]} ∪ list_to_set l') ∖ {[rt]}) with (list_to_set l' : gset bytes) by (apply set_eq; set_solver).
    apply IH; [done|]. rewrite fmap_cons in Hp. by apply Permutation_cons_inv in Hp.
Qed.

Lemma bind_sockets_outcome bind_ok n todo cs :
  match bind_sockets bind_ok n todo cs with
  | Ok _ => ∀ b, b ∈ todo → bind_ok (bind_addr b) = true
  | Throw e => e = zmq_error_t ∧ ∃ b, b ∈ todo ∧ bind_ok (bind_addr b) = false
  | UB | Diverge => False
  end.
Proof.
  revert n cs. induction todo as [|b todo IH]; intros n cs; cbn [bind_sockets]; [set_solver|].
  destruct (bind_ok (bind_addr b)) eqn:Eb; cbn [negb]; [|split; [done|]; exists b; split; [by left|done]].
  match goal with |- context [bind_sockets bind_ok ?n' todo ?cs'] => specialize (IH n' cs'); destruct (bind_sockets bind_ok n' todo cs') end; try done.
  - intros b' [->|Hb]%elem_of_cons; [done|by apply IH].
  - destruct IH as [-> (b' & Hb & E)]. split; [done|]. exists b'. split; [by right|done].
Qed.

Lemma chown_sockets_outcome c chown binds : match chown_sockets c chown binds with UB | Diverge => False | _ => True end.
Proof.
  induction binds as [|b binds IH]; cbn [chown_sockets]; [done|]. pose proof (address_parse_fails_well (bind_addr b)) as Hp.
  destruct (address_parse (bind_addr b)) as [a| | |]; try done. cbn [mbind outcome_bind]. destruct (ipc a); [|done]. destruct (chown (socket a)); [|done].
  by destruct (chown_sockets c chown binds).
Qed.

Section startup.
Context `{Allocator} (cf : config) (c : settings) (bind_ok chown : bytes → bool) (timer_ok : bool).

(** What is needed for the program to run. *)
Definition startup_possible (su : setup) : Prop :=
  (∀ b, b ∈ su_binds su → bind_ok (bind_addr b) = true) ∧ (∃ l, set_owners c chown (su_binds su) = Ok l) ∧ timer_ok = true.

Lemma startup_cases su msgs :
  setup_ok su → msgs ≡ₚ starting ∘ startup_route <$> su_tagged su →
  (∀ s, proxy_start (su_threads su) (categories (su_registry su)) (su_tagged su) = Ok s → max_workers s < 2 ^ 31) →
  Z.of_nat (length (su_tagged su)) < 2 ^ 31 →
  match proxy_startup c bind_ok chown timer_ok msgs su with
  | Ok y => startup_possible su ∧
      sys_reach cf (su_threads su) (categories (su_registry su)) (su_tagged su) (su_active su) (su_binds su) bind_ok y ∧
      timer_jobs (px_timers (sy_proxy y)) = timer_jobs (su_timers su) ∧ timer_zmq_id (px_timers (sy_proxy y)) = timer_zmq_id (su_timers su)
  | Throw _ => ¬ startup_possible su
  | UB | Diverge => False
  end.
Proof.
  intros [Hst Hg _ Ha [Hti1 Hti2]] Hp Hmax Htag. unfold proxy_startup.
  assert (∃ s, proxy_start (su_threads su) (categories (su_registry su)) (su_tagged su) = Ok s ∧ workers s = []) as (s & Es & Hw).
  { unfold proxy_start. destruct (_ <=? 0) eqn:E0; [lia|]. cbv zeta. by eexists. }
  rewrite Es. cbn [mbind outcome_bind]. rewrite Hw, bool_decide_eq_true_2 by done. cbn [negb]. unfold proxy_bind, startup_possible.
  pose proof (bind_sockets_outcome bind_ok 1 (su_binds su) (fresh_conns (su_active su))) as Hb.
  assert (proxy_bind bind_ok (su_binds su) (su_active su) = '(_, cs) ← bind_sockets bind_ok 1 (su_binds su) (fresh_conns (su_active su));
    Ok (mkConns (connections cs) (peers cs) (conn_index_to_id cs) (incoming_conn_index cs) (pending_connects cs) (bind cs)
        true (active_service_nodes cs) (next_socket cs) (closed cs))) as Epb by done.
  destruct (bind_sockets _ _ _ _) as [[n cs]|ex| |]; try done; cbn [mbind outcome_bind] in *.
  2:{ destruct Hb as [_ (b & Hin & Hb)]. intros (Hall & _). rewrite (Hall b Hin) in Hb. done. }
  assert (match set_owners c chown (su_binds su) with UB | Diverge => False | _ => True end) as Ho.
  { unfold set_owners. destruct (_ || _); [apply chown_sockets_outcome|done]. }
  destruct (set_owners c chown (su_binds su)) as [l|ex| |] eqn:Eo; try done; cbn [mbind outcome_bind]; [|by intros (_ & (l & ?) & _)].
  destruct timer_ok; cbn [negb]; [|by intros (_ & _ & ?)].
  rewrite (await_all (startup_route <$> su_tagged su)); [|rewrite (startup_routes _ _ Hst); apply routes_NoDup|by rewrite <-list_fmap_compose].
  rewrite (tell_started_threads _ _ Hst). split_and!; [done|by eauto|done| |done|done]. apply sys_init; try done. by apply Hmax.
Qed.
End startup.

(** ** Properties *)

(** C10. Configuring and starting leads to the running program.  However an object is
    configured before [start()], by calls in any order some of which may throw (categories
    and commands, aliases, tagged threads, thread counts, listeners, service nodes, timers
    added and cancelled), as long as the workers it asks for and its tagged threads number
    less than 2^31 each (they are counted in [int]), the proxy thread's preparations
    (sizing the pool, binding the listeners, setting the owners of unix sockets, adding
    the cleanup timer, waiting for the tagged threads whatever the order of their
    messages) fail no assertion and do not hang.  They throw exactly when a listener
    cannot be bound, an owner cannot be set or the timer cannot be added; otherwise the
    loop begins with the configured timers in a state all that is shown of the running
    program is about. *)
Theorem startup_runs `{Allocator} cf c bind_ok chown timer_ok hw su msgs :
  configured hw su → msgs ≡ₚ starting ∘ startup_route <$> su_tagged su →
  (∀ s, proxy_start (su_threads su) (categories (su_registry su)) (su_tagged su) = Ok s → max_workers s < 2 ^ 31) →
  Z.of_nat (length (su_tagged su)) < 2 ^ 31 →
  match proxy_startup c bind_ok chown timer_ok msgs su with
  | Ok y => startup_possible c bind_ok chown timer_ok su ∧
      sys_reach cf (su_threads su) (categories (su_registry su)) (su_tagged su) (su_active su) (su_binds su) bind_ok y ∧
      timer_jobs (px_timers (sy_proxy y)) = timer_jobs (su_timers su) ∧ timer_zmq_id (px_timers (sy_proxy y)) = timer_zmq_id (su_timers su)
  | Throw _ => ¬ startup_possible c bind_ok chown timer_ok su
  | UB | Diverge => False
  end.
Proof. intros Hc. apply startup_cases, (configured_ok hw su Hc). Qed.

(** ** A concrete configuration *)
Definition demo_calls : list config_call :=
  [ cc_category (B "a") default_access 1 (-1); cc_request_command (B "a") (B "r") 1%nat; cc_alias (B "old.r") (B "a.r");
    cc_tagged_thread (B "x"); cc_tagged_thread (B "y"); cc_general_threads 2; cc_batch_threads 0;
    cc_listen true (B "tcp://127.0.0.1:5555") 7%nat; cc_listen false (B "ipc:///tmp/s") 8%nat; cc_set_sns {[key32 9; B "short"]};
    cc_timer 1 5%nat 250 true (Some 2); cc_timer 2 6%nat 100 false None; cc_cancel_timer 2 ].
Definition configure_all (calls : list config_call) (su : setup) : setup :=
  foldl (λ su c, match configure c su with Ok su' => su' | _ => su end) su calls.
Definition demo_setup : setup := configure_all demo_calls (new_setup 4).

Fixpoint all_fit (calls : list config_call) (su : setup) : Prop :=
  match calls with
  | [] => True
  | c :: calls => call_fits c su ∧ all_fit calls (configure_all [c] su)
  end.

Lemma configure_all_configured hw calls su : configured hw su → all_fit calls su → configured hw (configure_all calls su).
Proof.
  revert su. induction calls as [|c calls IH]; intros su Hc Hf; [done|]. destruct Hf as [Hcf Hf]. cbn [configure_all foldl] in Hf |- *. apply IH; [|done].
  destruct (configure c su) as [su'| | |] eqn:E; try done. by eapply configured_call.
Qed.

Lemma startup_runs_witness :
  match proxy_startup default_settings (λ _, true) (λ _, true) true [starting (routing_id true 1); starting (routing_id true 0)] demo_setup with
  | Ok y => startup_possible default_settings (λ _, true) (λ _, true) true demo_setup ∧
      sys_reach demo_config (su_threads demo_setup) (categories (su_registry demo_setup)) (su_tagged demo_setup) (su_active demo_setup)
        (su_binds demo_setup) (λ _, true) y ∧
      timer_zmq_id (px_timers (sy_proxy y)) = {[1 := 1]} ∧ length (connections (tables (px_net (sy_proxy y)))) = 2%nat ∧ size (su_active demo_setup) = 1%nat
  | _ => False
  end.
Proof.
  pose proof (startup_runs demo_config default_settings (λ _, true) (λ _, true) true 4 demo_setup [starting (routing_id true 1); starting (routing_id true 0)]) as Hs.
  assert (configured 4 demo_setup) as Hc. { apply configure_all_configured; [constructor|]. vm_compute. split_and!; done. }
  assert ([starting (routing_id true 1); starting (routing_id true 0)] ≡ₚ starting ∘ startup_route <$> su_tagged demo_setup) as Hp.
  { change (starting ∘ startup_route <$> su_tagged demo_setup) with [starting (routing_id true 0); starting (routing_id true 1)]. solve_Permutation. }
  specialize (Hs Hc Hp). assert (match proxy_startup default_settings (λ _, true) (λ _, true) true [starting (routing_id true 1); starting (routing_id true 0)] demo_setup with
    | Ok y => length (connections (tables (px_net (sy_proxy y)))) = 2%nat | _ => False end) as Hl by (vm_compute; reflexivity).
  destruct (proxy_startup _ _ _ _ _ _) as [y| | |]; [|done..]. destruct Hs as (H1 & H2 & _ & H3).
  - intros s Es. assert (match proxy_start (su_threads demo_setup) (categories (su_registry demo_setup)) (su_tagged demo_setup) with
      | Ok s => max_workers s <? 2 ^ 31 | _ => true end = true) as Hm by (vm_compute; reflexivity). rewrite Es in Hm. lia.
  - vm_compute. reflexivity.
  - split_and!; [done|done|rewrite H3; vm_compute; reflexivity|done|vm_compute; reflexivity].
Defined.
